(* ===== verification/_CoqProject ===== *)
-Q . S2P
Prelude.v
Text.v
ConfigTypes.v
Errors.v
Http.v
RateLimit.v
Permits.v
BufferBudget.v
ServerState.v
HealthState.v
UpstreamPool.v
ApiKeyAuth.v
HttpHandler.v
Admission.v
ProxyMessage.v
Metrics.v
ConfigScalars.v
ConfigRoutes.v
Tls.v
ConfigLoad.v
HealthCheck.v
Server.v
Handlers.v
Exchange.v
ExchangeKeeps.v
ExchangeTells.v
Transport.v
Session.v
SessionWalk.v
SessionKeeps.v
SessionInvariant.v
SessionLedger.v
SessionTheorems.v
SessionTransport.v
ServerPhases.v
ServerLedger.v
Application.v
Logging.v
Diagnostics.v
Gateway.v
Main.v
