(* ===== verification/Prelude.v ===== *)
(** * ApiGate: a verification development (root file)

    ApiGate is an HTTP gateway in C++ (Boost.Asio, Boost.Beast, OpenSSL).  A process loads
    its configuration from the environment, listens on one address with or without TLS,
    answers health and metrics requests itself and forwards the others to static upstreams,
    whole or streamed, within limits on connections, concurrent exchanges, buffered bytes and
    request rates; the first signal drains it, the second ends the drain.  This library
    models the program as it is written and proves what it promises.

    ** How the source is modelled

    - Integers are [Z] with the wrap-around of their width written out ([u64], [u32], [s64],
      below); text is a list of bytes; a function that may throw returns a [result]; a
      shared object is an entry of a heap (a list) that its owners index; a move-only permit
      is a value that an owner holds, and assigning over it releases the one it replaces.
    - A handler is a computation over a state that keeps what it changed when it throws
      (Handlers, [M], [wp]); an asynchronous operation that was started is a pending operation
      of the state, and its completion an event.  A component is its state, one function per
      handler, and a step function over the events that are enabled, so that any order of
      completions, timers, signals and failures is a run.
    - Code that is not in the repository is a parameter: the Beast containers ([BeastHttp], with
      laws that [list_beast] satisfies), SHA-256, the JSON parser and serialiser, address
      syntax, OpenSSL ([TlsWorld]), and what the network, the clock, the allocator and the
      executor answer ([...World] arguments of each event).  Every call that may throw
      answers [Ok] or [Throw].
    - Recursion with fuel: [dec] (20 digits are enough for 64 bits), the scan of the schedule and of
      the rotation (one turn), the loop over live sessions at a stop (their number), the
      ALPN loop (its input), the pump of the health checks (every slot once in each shortest
      interval between its clock readings, however many these are).  Each has a lemma that the fuel is enough, and the theorems
      about the callers do not mention it.

    ** The parts, and where they are

    Data and text: Prelude, Text, ConfigTypes (include/apigate/config.hpp), Errors, Http.

    Configuration (src/config.cpp, src/downstream_tls.cpp, src/upstream_tls.cpp): ConfigScalars (each
    value), ConfigRoutes (the route table), Tls (contexts, ALPN), ConfigLoad (the loader).

    Request path: HttpHandler (src/http_handler.cpp, routing and local answers), ApiKeyAuth
    (src/api_key_auth.cpp), RateLimit (src/rate_limit.cpp), Admission
    (src/route_proxy_admission.cpp), ProxyMessage (src/http_proxy.cpp, what is forwarded), Metrics
    (src/metrics.cpp).

    Shared capacities: Permits (the interface of a capacity that is lent, with its accounts),
    BufferBudget (src/buffer_budget.cpp), the proxy slots of ServerState
    (src/http_server_internal.hpp, src/http_server.cpp), UpstreamPool (src/upstream_pool.cpp).

    Upstream health: HealthState (src/health_state.cpp), HealthCheck (src/health_check.cpp).

    Exchange (src/http_proxy.cpp, [HttpProxyExchange::Impl]): one request sent upstream and its
    response; ExchangeKeeps walks its handlers once for what they keep, ExchangeTells says what
    one handler tells the session, and classifies every outcome.

    Session (src/http_server.cpp, [HttpSession]) over Transport (src/downstream_transport.cpp): one
    connection, its exchange run in place.  SessionWalk proves what keeps an
    account through every handler from the laws of the primitive operations (the class
    [SessionWalk]); SessionKeeps and SessionLedger are two instances, SessionTransport a third.
    SessionInvariant is the invariant by phase, SessionTheorems what follows from it.

    Server (src/http_server.cpp, [HttpServer::Impl]): accepting, draining, stopping, failing, over
    sessions it only knows by the class [SessionInterface] and its laws; ServerPhases for its
    phases, ServerLedger for the capacities its sessions share (the class
    [SessionHoldings]).  SessionTheorems and Gateway discharge both interfaces for the real
    sessions; Gateway also models the constructor, which makes what they share.

    Application (src/application.cpp, from the constructor to the destructor, which stops a server
    whose start threw), Logging (src/logging.cpp), Diagnostics (the guarded log
    calls), Main (src/main.cpp).

    ** What is shown

    - The service from end to end: a loaded configuration always makes a server, and when it
      returns success every byte and slot that was lent is back (Gateway); the exit code tells
      how it ended, it can always be told to stop, and it returns (Application); an error of
      the process leaves one line, in its category (Main).
    - The server: its limit of connections, one report of each shutdown and failure, progress of
      accepting and draining (Server); for real sessions, the accounts of the budget and of the
      proxy slots at every moment (Gateway).
    - A connection: each request is answered once, in turn; the proxy permit is held exactly during an
      exchange; it never waits for nothing; its requests are bounded; read errors,
      draining, authentication; it goes through no null pointer of its transport
      (SessionTheorems, SessionTransport).
    - An exchange: one outcome, in order, classified, with its body reserved; one pending
      operation under a deadline; a connection returns to the pool only when it is clean
      (Exchange, ExchangeKeeps, ExchangeTells).
    - The parts: rate limits refine the ideal bucket and bound every window; the pool leases a
      connection to one owner; rotation is fair; health is the hysteresis it is configured to be
      and probes progress; routing is longest-prefix; authentication is exactly a configured
      key; forwarded messages are sanitised; counters count; the route table and the
      configuration are within their bounds and unambiguous; ALPN reads inside its buffer; no
      log line is lost, and none holds more of a request than its method and route.

    ** What modelling found

    Two behaviours of [HttpSession] differ from what the code around them does, and are proved:
    the answer to a request whose proxying threw is the only one whose failed write does not
    close the connection ([refused_request_can_stall]), and the only one the limit of requests is not
    applied to ([failed_starts_exceed_limit]).

    ** What is not modelled

    Bytes on the wire and the protocol state of Beast and OpenSSL; time, except as the argument
    of the handlers that read the clock; memory that runs out outside the calls marked as
    throwing; the cancellation of timers and sockets, whose effect is that the completion comes
    with an error; accessors without effect; the test probe of a session; the version header, which
    the build fills in.  The executor is one thread: handlers do not interleave inside. *)

From stdpp Require Export base decidable list gmap strings.
From Stdlib Require Export ZArith Lia Ascii.

(** ** Scope and notations *)

Declare Scope apigate_scope.
Delimit Scope apigate_scope with apigate.
#[export] Set Default Goal Selector "!".

(** Raw bytes of a [std::string] or [std::string_view]. *)
Abbreviation text := (list ascii).

(** A C++ string literal as the bytes it denotes. *)
Definition L (s : string) : text := String.list_ascii_of_string s.

(** ** Exceptions

    A C++ function that may throw returns a [result]: [Ok v], or [Throw e] with
    the exception class the source throws and its [what()] text. *)

Inductive exn : Type :=
  | ConfigError (what : string)
  | invalid_argument (what : string)
  | logic_error (what : string)
  | out_of_range (what : string)
  | length_error (what : string)
  | runtime_error (what : string)
  | other_exception (what : string).

Inductive result (A : Type) : Type :=
  | Ok (a : A)
  | Throw (e : exn).
Arguments Ok {A} a.
Arguments Throw {A} e.

#[export] Instance result_ret : MRet result := fun A a => Ok a.
#[export] Instance result_bind : MBind result := fun A B f m =>
  match m with Ok a => f a | Throw e => Throw e end.
#[export] Instance result_fmap : FMap result := fun A B f m =>
  match m with Ok a => Ok (f a) | Throw e => Throw e end.

#[export] Instance exn_eq_dec : EqDecision exn.
Proof. solve_decision. Defined.
#[export] Instance result_eq_dec {A} `{EqDecision A} : EqDecision (result A).
Proof. solve_decision. Defined.

(** [if (!condition) throw e;] *)
Definition ensure (condition : bool) (e : exn) : result unit :=
  if condition then Ok tt else Throw e.

Definition is_ok {A} (r : result A) : bool :=
  match r with Ok _ => true | Throw _ => false end.

(** [std::vector::at]: the bounds-checked access throws. *)
Definition vec_at {A} (v : list A) (i : nat) : result A :=
  match v !! i with
  | Some x => Ok x
  | None => Throw (out_of_range "vector::_M_range_check")
  end.

Lemma bind_Ok {A B} (m : result A) (f : A -> result B) b :
  (m ≫= f) = Ok b <-> exists a, m = Ok a /\ f a = Ok b.
Proof.
  destruct m as [a|e]; cbn; split.
  - eauto.
  - by intros (? & [= <-] & ?).
  - done.
  - by intros (? & ? & ?).
Qed.

Lemma ensure_Ok c e u : ensure c e = Ok u <-> c = true.
Proof. destruct c, u; cbn; split; congruence. Qed.

Lemma vec_at_Ok {A} (v : list A) i x : vec_at v i = Ok x <-> v !! i = Some x.
Proof. unfold vec_at. destruct (v !! i); split; congruence. Qed.

Lemma vec_at_lt {A} (v : list A) i : i < length v -> exists x, vec_at v i = Ok x.
Proof.
  intros Hi. destruct (lookup_lt_is_Some_2 v i Hi) as [x Hx].
  exists x. by apply vec_at_Ok.
Qed.

(** A function whose only exception is [ConfigError]. *)
Definition throws_config {A} (r : result A) : Prop :=
  match r with Ok _ => True | Throw e => exists what, e = ConfigError what end.

Lemma throws_bind {A B} (m : result A) (f : A -> result B) :
  throws_config m -> (forall a, m = Ok a -> throws_config (f a)) -> throws_config (m ≫= f).
Proof. destruct m; cbn; [|done]. intros _ H. by apply H. Qed.

Lemma throws_fmap {A B} (m : result A) (f : A -> B) : throws_config m -> throws_config (f <$> m).
Proof. by destruct m. Qed.

Lemma throws_ensure c what : throws_config (ensure c (ConfigError what)).
Proof. destruct c; cbn; eauto. Qed.

Lemma throws_Ok {A} (a : A) : throws_config (Ok a).
Proof. done. Qed.

Lemma throws_Throw {A} what : throws_config (A := A) (Throw (ConfigError what)).
Proof. cbn. eauto. Qed.

(** Walk through a parser: binds, checks and case distinctions. *)
Ltac throws :=
  repeat first
    [ match goal with
      | |- throws_config (_ ≫= _) => apply throws_bind; [|intros ? ?]
      | |- throws_config (_ <$> _) => apply throws_fmap
      | |- throws_config (ensure _ _) => apply throws_ensure
      | |- throws_config (Ok _) => apply throws_Ok
      | |- throws_config (Throw _) => apply throws_Throw
      | |- throws_config (if ?b then _ else _) => destruct b
      | |- throws_config (match ?m with _ => _ end) => destruct m
      end ].

(** ** Machine integers

    An unsigned integer of the source is a [Z] kept in range by an explicit
    wrap-around at each operation that could leave it. *)

Definition u8 (z : Z) : Z := (z mod 2 ^ 8)%Z.
Definition u16 (z : Z) : Z := (z mod 2 ^ 16)%Z.
Definition u32 (z : Z) : Z := (z mod 2 ^ 32)%Z.
Definition u64 (z : Z) : Z := (z mod 2 ^ 64)%Z.
(** The two's complement reading of the low 64 bits. *)
Definition s64 (z : Z) : Z := ((z + 2 ^ 63) mod 2 ^ 64 - 2 ^ 63)%Z.

Definition u64_max : Z := (2 ^ 64 - 1)%Z.
Definition s64_max : Z := (2 ^ 63 - 1)%Z.
Definition s64_min : Z := (- 2 ^ 63)%Z.

Definition in_u16 (z : Z) : Prop := (0 <= z < 2 ^ 16)%Z.
Definition in_u32 (z : Z) : Prop := (0 <= z < 2 ^ 32)%Z.
Definition in_u64 (z : Z) : Prop := (0 <= z < 2 ^ 64)%Z.
Definition in_s64 (z : Z) : Prop := (- 2 ^ 63 <= z < 2 ^ 63)%Z.

Lemma u32_small z : in_u32 z -> u32 z = z.
Proof. apply Z.mod_small. Qed.
Lemma u64_small z : in_u64 z -> u64 z = z.
Proof. apply Z.mod_small. Qed.
Lemma s64_small z : in_s64 z -> s64 z = z.
Proof. unfold in_s64, s64. intros H. rewrite Z.mod_small; lia. Qed.
Lemma u16_small z : in_u16 z -> u16 z = z.
Proof. apply Z.mod_small. Qed.
Lemma u64_range z : in_u64 (u64 z).
Proof. apply Z.mod_pos_bound. lia. Qed.
Lemma u32_range z : in_u32 (u32 z).
Proof. apply Z.mod_pos_bound. lia. Qed.

(** The unsigned difference of two signed 64-bit values, taken through their
    unsigned images, is their exact difference when it is not negative. *)
Lemma u64_sub_signed a b :
  in_s64 a -> in_s64 b -> (b <= a)%Z -> u64 (u64 a - u64 b) = (a - b)%Z.
Proof.
  unfold u64, in_s64. intros Ha Hb Hle.
  rewrite <- Zminus_mod. apply Z.mod_small. lia.
Qed.

(** ** Characters and string views *)

Definition char_code (c : ascii) : N := N_of_ascii c.
Definition char_between (lo c hi : ascii) : bool :=
  (char_code lo <=? char_code c)%N && (char_code c <=? char_code hi)%N.

Definition is_digit (c : ascii) : bool := char_between "0" c "9".
Definition is_upper (c : ascii) : bool := char_between "A" c "Z".
Definition is_lower (c : ascii) : bool := char_between "a" c "z".
(** [std::isalnum] in the "C" locale, the only one the program runs under. *)
Definition is_alnum (c : ascii) : bool := is_digit c || is_upper c || is_lower c.

Definition ascii_eqb (a b : ascii) : bool := Ascii.eqb a b.
Definition text_eqb (a b : text) : bool := bool_decide (a = b).

(** [sv.find(c)]; [None] is [npos]. *)
Fixpoint sv_find (c : ascii) (s : text) : option nat :=
  match s with
  | [] => None
  | x :: rest => if ascii_eqb x c then Some 0 else S <$> sv_find c rest
  end.

(** [sv.find_first_not_of] for a set of characters given as a predicate. *)
Fixpoint sv_find_first_not (p : ascii -> bool) (s : text) : option nat :=
  match s with
  | [] => None
  | x :: rest => if p x then S <$> sv_find_first_not p rest else Some 0
  end.

Definition starts_with (prefix s : text) : bool := bool_decide (prefix `prefix_of` s).

(** [sv.substr(0, n)] where [n] may be [npos]. *)
Definition sv_prefix (n : option nat) (s : text) : text :=
  match n with Some k => take k s | None => s end.

Lemma text_eqb_true a b : text_eqb a b = true <-> a = b.
Proof. apply bool_decide_eq_true. Qed.
Lemma text_eqb_refl a : text_eqb a a = true.
Proof. by apply text_eqb_true. Qed.
Lemma text_eqb_false a b : text_eqb a b = false <-> a <> b.
Proof. apply bool_decide_eq_false. Qed.
Lemma ascii_eqb_true a b : ascii_eqb a b = true <-> a = b.
Proof. apply Ascii.eqb_eq. Qed.
Lemma ascii_eqb_false a b : ascii_eqb a b = false <-> a <> b.
Proof. apply Ascii.eqb_neq. Qed.

Lemma starts_with_true p s : starts_with p s = true <-> exists k, s = p ++ k.
Proof. apply bool_decide_eq_true. Qed.

Lemma sv_find_Some c s i :
  sv_find c s = Some i <->
  s !! i = Some c /\ forall j, j < i -> s !! j <> Some c.
Proof.
  revert i. induction s as [|x s IH]; intros i; cbn.
  { split; [done|]. intros [H _]. by rewrite lookup_nil in H. }
  destruct (ascii_eqb x c) eqn:E.
  - apply ascii_eqb_true in E as ->. split.
    + intros [= <-]. split; [done|]. lia.
    + intros [_ Hmin]. destruct i as [|i]; [done|].
      exfalso. apply (Hmin 0); [lia|done].
  - apply ascii_eqb_false in E. rewrite fmap_Some. split.
    + intros (k & Hk & ->). apply IH in Hk as [Hk Hmin]. split; [done|].
      intros [|j] Hj; cbn; [congruence|]. apply Hmin. lia.
    + intros [Hi Hmin]. destruct i as [|i]; cbn in Hi; [congruence|].
      exists i. split; [|done]. apply IH. split; [done|].
      intros j Hj. apply (Hmin (S j)). lia.
Qed.

Lemma sv_find_None c s : sv_find c s = None <-> c ∉ s.
Proof.
  induction s as [|x s IH]; cbn; [split; [|done]; intros _; apply not_elem_of_nil|].
  rewrite not_elem_of_cons.
  destruct (ascii_eqb x c) eqn:E.
  - apply ascii_eqb_true in E. split; [done|]. intros [? _]. congruence.
  - apply ascii_eqb_false in E. rewrite fmap_None, IH. split; [|tauto].
    intros. split; congruence.
Qed.

Lemma sv_find_app c a b : c ∉ a -> sv_find c (a ++ c :: b) = Some (length a).
Proof.
  intros H. apply sv_find_Some. split.
  - rewrite lookup_app_r by done. by rewrite Nat.sub_diag.
  - intros j Hj. rewrite lookup_app_l by done. intros E. by apply H, list_elem_of_lookup_2 with j.
Qed.

Lemma sv_find_split c s n : sv_find c s = Some n -> s = take n s ++ c :: drop (S n) s /\ c ∉ take n s.
Proof.
  intros H. apply sv_find_Some in H as [H1 H2]. split.
  - by rewrite (take_drop_middle s n c H1).
  - intros (i & Hi)%list_elem_of_lookup_1. apply lookup_take_Some in Hi as [Hi Hlt]. by apply (H2 i).
Qed.

Lemma drop_separator {A} (a : list A) c b : drop (S (length a)) (a ++ c :: b) = b.
Proof. by induction a. Qed.

(** ** Sums over containers *)

Fixpoint sumZ {A} (f : A -> Z) (l : list A) : Z :=
  match l with [] => 0 | x :: rest => f x + sumZ f rest end%Z.

Lemma sumZ_app {A} (f : A -> Z) l k : sumZ f (l ++ k) = (sumZ f l + sumZ f k)%Z.
Proof. induction l as [|x l IH]; cbn; [done|]. rewrite IH. lia. Qed.

Lemma sumZ_insert {A} (f : A -> Z) l i x y :
  l !! i = Some x -> sumZ f (<[i:=y]> l) = (sumZ f l - f x + f y)%Z.
Proof.
  revert i. induction l as [|z l IH]; intros [|i] Hi; cbn in Hi; [done..| |].
  - injection Hi as ->. change (<[0:=y]> (x :: l)) with (y :: l). cbn. lia.
  - change (<[S i:=y]> (z :: l)) with (z :: <[i:=y]> l). cbn. rewrite (IH _ Hi). lia.
Qed.

Lemma sumZ_nonneg {A} (f : A -> Z) l :
  (forall x, x ∈ l -> (0 <= f x)%Z) -> (0 <= sumZ f l)%Z.
Proof.
  induction l as [|x l IH]; cbn; intros H; [done|].
  specialize (IH (fun y Hy => H y (list_elem_of_further _ _ _ Hy))).
  specialize (H x (list_elem_of_here _ _)). lia.
Qed.

Lemma sumZ_elem_le {A} (f : A -> Z) l i x :
  (forall x, x ∈ l -> (0 <= f x)%Z) -> l !! i = Some x -> (f x <= sumZ f l)%Z.
Proof.
  intros H Hi. pose proof (sumZ_insert f l i x x Hi) as E.
  rewrite list_insert_id in E by done. clear E.
  revert i Hi. induction l as [|z l IH]; intros i Hi; [done|].
  assert (Hl : forall y, y ∈ l -> (0 <= f y)%Z) by (intros; apply H; by right).
  pose proof (sumZ_nonneg f l Hl). pose proof (H z (list_elem_of_here _ _)).
  destruct i as [|i]; cbn in *; [injection Hi as ->; lia|].
  specialize (IH Hl i Hi). lia.
Qed.

Lemma sumZ_ext {A} (f g : A -> Z) l :
  (forall x, x ∈ l -> f x = g x) -> sumZ f l = sumZ g l.
Proof.
  induction l as [|x l IH]; cbn; intros H; [done|].
  rewrite (H x), IH; [done| |by left]. intros y Hy. apply H. by right.
Qed.

(** Counting the elements that satisfy a test. *)
Definition countb {A} (p : A -> bool) (l : list A) : nat := length (List.filter p l).

Lemma countb_cons {A} (p : A -> bool) x l :
  countb p (x :: l) = (if p x then 1 else 0) + countb p l.
Proof. unfold countb. cbn. by destruct (p x). Qed.

Lemma countb_app {A} (p : A -> bool) l k : countb p (l ++ k) = countb p l + countb p k.
Proof. unfold countb. by rewrite List.filter_app, length_app. Qed.

Lemma countb_insert {A} (p : A -> bool) l i x y :
  l !! i = Some x ->
  countb p (<[i:=y]> l) + (if p x then 1 else 0) = countb p l + (if p y then 1 else 0).
Proof.
  revert i. induction l as [|z l IH]; intros [|i] Hi; cbn in Hi; [done..| |].
  - injection Hi as ->. change (<[0:=y]> (x :: l)) with (y :: l).
    rewrite !countb_cons. lia.
  - change (<[S i:=y]> (z :: l)) with (z :: <[i:=y]> l).
    rewrite !countb_cons. specialize (IH _ Hi). lia.
Qed.

Lemma countb_le_length {A} (p : A -> bool) l : countb p l <= length l.
Proof. induction l as [|x l IH]; [done|]. rewrite countb_cons. cbn. destruct (p x); lia. Qed.

Lemma countb_zero {A} (p : A -> bool) l : Forall (fun x => p x = false) l -> countb p l = 0.
Proof. induction 1 as [|x l Hx _ IH]; [done|]. rewrite countb_cons, Hx. lia. Qed.

Lemma countb_pos {A} (p : A -> bool) l i x : l !! i = Some x -> p x = true -> 0 < countb p l.
Proof.
  revert i. induction l as [|z l IH]; intros [|i] Hi Hp; cbn in Hi; [done..| |];
    rewrite countb_cons.
  - injection Hi as ->. rewrite Hp. lia.
  - specialize (IH _ Hi Hp). lia.
Qed.

(** ** Automation *)

(** Split conjunctions, eliminate existentials and injections. *)
Ltac crush_hyps :=
  repeat match goal with
  | H : _ /\ _ |- _ => destruct H
  | H : exists _, _ |- _ => destruct H
  | H : Ok _ = Ok _ |- _ => injection H as H
  | H : Some _ = Some _ |- _ => injection H as H
  | H : (_, _) = (_, _) |- _ => injection H as H
  | H : Ok _ = Throw _ |- _ => discriminate H
  | H : Throw _ = Ok _ |- _ => discriminate H
  end; subst.

(** Turn boolean tests in the context into the propositions they decide. *)
Ltac reflect_bools :=
  repeat match goal with
  | H : (_ && _)%bool = true |- _ => apply andb_true_iff in H as [? ?]
  | H : (_ || _)%bool = false |- _ => apply orb_false_iff in H as [? ?]
  | H : negb _ = true |- _ => apply negb_true_iff in H
  | H : negb _ = false |- _ => apply negb_false_iff in H
  | H : (_ <=? _)%Z = true |- _ => apply Z.leb_le in H
  | H : (_ <=? _)%Z = false |- _ => apply Z.leb_gt in H
  | H : (_ <? _)%Z = true |- _ => apply Z.ltb_lt in H
  | H : (_ <? _)%Z = false |- _ => apply Z.ltb_ge in H
  | H : (_ =? _)%Z = true |- _ => apply Z.eqb_eq in H
  | H : (_ =? _)%Z = false |- _ => apply Z.eqb_neq in H
  | H : (_ <=? _)%nat = true |- _ => apply Nat.leb_le in H
  | H : (_ <=? _)%nat = false |- _ => apply Nat.leb_gt in H
  | H : (_ <? _)%nat = true |- _ => apply Nat.ltb_lt in H
  | H : (_ <? _)%nat = false |- _ => apply Nat.ltb_ge in H
  | H : (_ =? _)%nat = true |- _ => apply Nat.eqb_eq in H
  | H : (_ =? _)%nat = false |- _ => apply Nat.eqb_neq in H
  end.

(** Case analysis on the tests of the goal, innermost condition first. *)
Ltac case_ifs :=
  repeat match goal with
  | |- context [if ?b then _ else _] =>
      lazymatch b with
      | context [if _ then _ else _] => fail
      | _ => destruct b eqn:?
      end
  end.

Create HintDb apigate.
#[export] Hint Resolve u64_range u32_range : apigate.

(** ** Sums over maps *)

Section MapSum.
Context {A : Type}.
Implicit Types (f : A -> Z) (m : gmap nat A).

Definition map_sum f m : Z := map_fold (fun _ x n => f x + n)%Z 0%Z m.

Lemma map_sum_empty f : map_sum f ∅ = 0%Z.
Proof. apply map_fold_empty. Qed.

Lemma map_sum_delete f m i x : m !! i = Some x -> map_sum f m = (f x + map_sum f (delete i m))%Z.
Proof. intros H. unfold map_sum. apply (map_fold_delete_L (fun _ x n => f x + n)%Z); [intros; lia|done]. Qed.

Lemma map_sum_insert f m i x : m !! i = None -> map_sum f (<[i := x]> m) = (f x + map_sum f m)%Z.
Proof.
  intros H. rewrite (map_sum_delete f (<[i := x]> m) i x) by apply lookup_insert_eq. by rewrite delete_insert_id.
Qed.

Lemma map_sum_update f m i x y :
  m !! i = Some x -> map_sum f (<[i := y]> m) = (map_sum f m + f y - f x)%Z.
Proof.
  intros H. rewrite (map_sum_delete f (<[i := y]> m) i y) by apply lookup_insert_eq.
  rewrite delete_insert_eq, (map_sum_delete f m i x) by done. lia.
Qed.

Lemma map_sum_nonneg f m : map_Forall (fun _ x => 0 <= f x)%Z m -> (0 <= map_sum f m)%Z.
Proof.
  induction m as [|i x m Hi IH] using map_ind; intros H; [by rewrite map_sum_empty|].
  rewrite map_sum_insert by done. apply map_Forall_insert in H as [Hx H]; [|done]. specialize (IH H). lia.
Qed.

Lemma map_sum_ext f g m : map_Forall (fun _ x => f x = g x) m -> map_sum f m = map_sum g m.
Proof.
  induction m as [|i x m Hi IH] using map_ind; intros H; [by rewrite !map_sum_empty|].
  rewrite !map_sum_insert by done. apply map_Forall_insert in H as [Hx H]; [|done]. by rewrite Hx, IH.
Qed.

Lemma map_sum_zero f m : map_Forall (fun _ x => f x = 0%Z) m -> map_sum f m = 0%Z.
Proof.
  intros H. rewrite (map_sum_ext f (fun _ => 0%Z) m H).
  induction m as [|i x m Hi IH] using map_ind; [apply map_sum_empty|]. rewrite map_sum_insert, IH; [done| |done].
  by apply map_Forall_insert in H as [_ H].
Qed.

Lemma map_sum_positive f m : map_Forall (fun _ x => 0 < f x)%Z m -> map_sum f m = 0%Z -> m = ∅.
Proof.
  intros H E. destruct (decide (m = ∅)) as [|Hne]; [done|]. apply map_choose in Hne as (i & x & Hx).
  rewrite (map_sum_delete f m i x) in E by done. assert (0 <= map_sum f (delete i m))%Z.
  { apply map_sum_nonneg. intros j y Hy. apply lookup_delete_Some in Hy as [_ Hy]. specialize (H j y Hy). cbn in H. lia. }
  specialize (H i x Hx). cbn in H. lia.
Qed.

End MapSum.
