(* ===== verification/Text.v ===== *)
(** * Text: ASCII case, decimal numbers, tokens

    The pieces of [<string>], [<algorithm>] and [<charconv>] the program uses on
    [std::string_view]s, and the lemmas its components share. *)

From S2P Require Import Prelude.

Local Open Scope Z_scope.

(** ** Case *)

(** The lower case of an ASCII letter; any other byte is unchanged. *)
Definition lower_char (c : ascii) : ascii :=
  if is_upper c then ascii_of_N (char_code c - 65 + 97) else c.

Definition to_lower (s : text) : text := lower_char <$> s.

(** Decided over the 256 bytes. *)
Lemma all_bytes (P : ascii -> bool) :
  forallb P (ascii_of_N <$> (N.of_nat <$> seq 0 256)) = true -> forall c, P c = true.
Proof.
  intros H c. rewrite forallb_forall in H. apply H, list_elem_of_In.
  rewrite <- (ascii_N_embedding c). apply list_elem_of_fmap. exists (N_of_ascii c). split; [done|].
  apply list_elem_of_fmap. exists (N.to_nat (N_of_ascii c)). split; [by rewrite N2Nat.id|].
  apply list_elem_of_In, in_seq. pose proof (N_ascii_bounded c). lia.
Qed.

Lemma lower_char_idemp c : lower_char (lower_char c) = lower_char c.
Proof.
  apply ascii_eqb_true. revert c. apply all_bytes. by vm_compute.
Qed.

Lemma to_lower_idemp s : to_lower (to_lower s) = to_lower s.
Proof.
  unfold to_lower. rewrite <- list_fmap_compose. apply list_fmap_ext.
  intros _ c _. apply lower_char_idemp.
Qed.

Lemma to_lower_app s t : to_lower (s ++ t) = to_lower s ++ to_lower t.
Proof. apply fmap_app. Qed.

Lemma length_to_lower s : length (to_lower s) = length s.
Proof. apply length_fmap. Qed.

(** ** Decimal numbers *)

Definition digit_value (c : ascii) : Z := Z.of_N (char_code c) - 48.
Definition digit_char (d : Z) : ascii := ascii_of_N (Z.to_N (d + 48)).

(** The digits a number starts with, and what follows. *)
Fixpoint digits_span (s : text) : text * text :=
  match s with
  | [] => ([], [])
  | c :: rest =>
      if is_digit c then let '(ds, tail) := digits_span rest in (c :: ds, tail) else ([], s)
  end.

Definition digits_value (ds : text) : Z := foldl (fun acc c => acc * 10 + digit_value c) 0 ds.

(** [std::from_chars] for an unsigned type of maximum [maximum]: the value when [ec] is
    clear, and the characters from [ptr] on. *)
Definition from_chars (maximum : Z) (s : text) : option Z * text :=
  let '(ds, tail) := digits_span s in
  match ds with
  | [] => (None, s)
  | _ => (if digits_value ds <=? maximum then Some (digits_value ds) else None, tail)
  end.

(** [std::to_string] and [std::to_chars] of an unsigned 64-bit number; twenty digits are
    enough ([dec_enough]). *)
Fixpoint dec_loop (fuel : nat) (z : Z) (acc : text) : text :=
  match fuel with
  | O => acc
  | S fuel =>
      let acc := digit_char (z mod 10) :: acc in
      if z <? 10 then acc else dec_loop fuel (z / 10) acc
  end.

Definition dec (z : Z) : text := dec_loop 20 z [].

Lemma digit_cases d : 0 <= d < 10 -> d = 0 \/ d = 1 \/ d = 2 \/ d = 3 \/ d = 4 \/ d = 5 \/
  d = 6 \/ d = 7 \/ d = 8 \/ d = 9.
Proof. lia. Qed.

Lemma digit_char_spec d :
  0 <= d < 10 -> is_digit (digit_char d) = true /\ digit_value (digit_char d) = d.
Proof.
  intros H. by destruct (digit_cases d H) as [->|[->|[->|[->|[->|[->|[->|[->|[->| ->]]]]]]]]].
Qed.

Lemma digits_span_spec s ds tail :
  digits_span s = (ds, tail) ->
  s = ds ++ tail /\ Forall (fun c => is_digit c = true) ds /\
  (forall c rest, tail = c :: rest -> is_digit c = false).
Proof.
  revert ds tail. induction s as [|c s IH]; cbn; intros ds tail E.
  { injection E as <- <-. split_and!; [done|by constructor|done]. }
  destruct (is_digit c) eqn:D.
  - destruct (digits_span s) as [ds' tail'] eqn:F. injection E as <- <-.
    destruct (IH _ _ eq_refl) as (-> & ? & ?). split_and!; [done|by constructor|done].
  - injection E as <- <-. split_and!; [done|by constructor|]. by intros c' rest [= -> ->].
Qed.

Lemma digits_span_app ds tail :
  Forall (fun c => is_digit c = true) ds ->
  (forall c rest, tail = c :: rest -> is_digit c = false) ->
  digits_span (ds ++ tail) = (ds, tail).
Proof.
  intros H Ht. induction H as [|c ds Hc H IH]; cbn.
  - destruct tail as [|c tail]; [done|]. cbn. by rewrite (Ht c tail eq_refl).
  - by rewrite Hc, IH.
Qed.

Lemma foldl_digits_acc acc ds :
  foldl (fun a c => a * 10 + digit_value c) acc ds =
  acc * 10 ^ Z.of_nat (length ds) + digits_value ds.
Proof.
  unfold digits_value. revert acc. induction ds as [|c ds IH]; intros acc; cbn [foldl length]; [lia|].
  rewrite (IH (acc * 10 + digit_value c)), (IH (0 * 10 + digit_value c)).
  rewrite Nat2Z.inj_succ, Z.pow_succ_r by lia. ring.
Qed.

Lemma digits_value_cons c ds :
  digits_value (c :: ds) = digit_value c * 10 ^ Z.of_nat (length ds) + digits_value ds.
Proof. unfold digits_value at 1. cbn [foldl]. rewrite foldl_digits_acc. lia. Qed.

(** With enough fuel the loop writes exactly the digits of [z] before [acc]. *)
Lemma dec_loop_spec fuel z acc :
  0 <= z < 10 ^ Z.of_nat fuel -> (0 < fuel)%nat ->
  exists ds, dec_loop fuel z acc = ds ++ acc /\ ds <> [] /\ (length ds <= fuel)%nat /\
    Forall (fun c => is_digit c = true) ds /\ digits_value ds = z.
Proof.
  revert z acc. induction fuel as [|fuel IH]; intros z acc Hz Hf; [lia|]. cbn [dec_loop].
  pose proof (Z.mod_pos_bound z 10 eq_refl) as Hm.
  destruct (digit_char_spec _ Hm) as [Hd Hv].
  destruct (z <? 10) eqn:E; reflect_bools.
  - exists [digit_char (z mod 10)]. split_and!; [done..|cbn; lia|by repeat constructor|].
    rewrite digits_value_cons, Hv. cbn. rewrite Z.mod_small by lia. lia.
  - assert (Hf' : (0 < fuel)%nat) by (destruct fuel; [cbn in Hz; lia|lia]).
    assert (Hz' : 0 <= z / 10 < 10 ^ Z.of_nat fuel).
    { rewrite Nat2Z.inj_succ, Z.pow_succ_r in Hz by lia.
      split; [apply Z.div_pos; lia|apply Z.div_lt_upper_bound; lia]. }
    destruct (IH (z / 10) (digit_char (z mod 10) :: acc) Hz' Hf') as (ds & E1 & E2 & E3 & E4 & E5).
    exists (ds ++ [digit_char (z mod 10)]). rewrite E1, <- app_assoc. split_and!.
    + done.
    + by destruct ds.
    + rewrite length_app. cbn. lia.
    + apply Forall_app. split; [done|by repeat constructor].
    + unfold digits_value in *. rewrite foldl_app, E5. cbn. rewrite Hv.
      pose proof (Z.div_mod z 10). lia.
Qed.

Lemma dec_spec z :
  0 <= z < 10 ^ 20 ->
  dec z <> [] /\ (length (dec z) <= 20)%nat /\ Forall (fun c => is_digit c = true) (dec z) /\
  digits_value (dec z) = z.
Proof.
  intros H. destruct (dec_loop_spec 20 z [] H) as (ds & E & ? & ? & ? & ?); [lia|].
  unfold dec. rewrite E, app_nil_r. done.
Qed.

Lemma dec_enough z : in_u64 z -> 0 <= z < 10 ^ 20.
Proof. unfold in_u64. lia. Qed.

(** Writing a number and reading it back. *)
Lemma from_chars_dec maximum z tail :
  0 <= z <= maximum -> maximum < 10 ^ 20 ->
  (forall c rest, tail = c :: rest -> is_digit c = false) ->
  from_chars maximum (dec z ++ tail) = (Some z, tail).
Proof.
  intros Hz Hm Ht. destruct (dec_spec z ltac:(lia)) as (Hn & _ & Hd & Hv).
  unfold from_chars. rewrite digits_span_app by done. rewrite Hv.
  destruct (dec z); [done|].
  by replace (z <=? maximum) with true by (symmetry; apply Z.leb_le; lia).
Qed.

Lemma dec_inj a b : 0 <= a < 10 ^ 20 -> 0 <= b < 10 ^ 20 -> dec a = dec b -> a = b.
Proof.
  intros Ha Hb E. apply dec_spec in Ha as (_ & _ & _ & <-), Hb as (_ & _ & _ & <-). by rewrite E.
Qed.

Lemma digits_value_nonneg ds : Forall (fun c => is_digit c = true) ds -> 0 <= digits_value ds.
Proof.
  induction 1 as [|c ds Hc _ IH]; [done|]. rewrite digits_value_cons.
  unfold is_digit, char_between in Hc. apply andb_true_iff in Hc as [Hc _].
  apply N.leb_le in Hc. unfold digit_value. change (char_code "0") with 48%N in Hc. nia.
Qed.

(** What a fully consumed [from_chars] read. *)
Lemma from_chars_all maximum s v :
  from_chars maximum s = (Some v, []) <->
  s <> [] /\ Forall (fun c => is_digit c = true) s /\ digits_value s = v /\ v <= maximum.
Proof.
  unfold from_chars. split.
  - destruct (digits_span s) as [ds tail] eqn:E. apply digits_span_spec in E as (-> & H1 & H2).
    destruct ds as [|c ds]; [done|]. destruct (digits_value _ <=? maximum) eqn:L; [|done].
    intros [= <- ->]. rewrite app_nil_r. reflect_bools. done.
  - intros (Hn & Hd & <- & Hm).
    pose proof (digits_span_app s [] Hd) as E. rewrite app_nil_r in E. rewrite E by done.
    destruct s; [done|]. by replace (digits_value _ <=? maximum) with true by (symmetry; apply Z.leb_le; lia).
Qed.

(** ** Splitting at a separator *)

Lemma separator_inj (c : ascii) a b a' b' :
  c ∉ a -> c ∉ a' -> a ++ c :: b = a' ++ c :: b' -> a = a' /\ b = b'.
Proof.
  revert a'. induction a as [|x a IH]; intros [|x' a'] Ha Ha' E; cbn in E.
  - by injection E.
  - injection E as -> _. by destruct Ha'; left.
  - injection E as -> _. by destruct Ha; left.
  - injection E as -> E. apply not_elem_of_cons in Ha as [_ Ha], Ha' as [_ Ha'].
    by destruct (IH a' Ha Ha' E) as [-> ->].
Qed.

(** The parts of a text, rejoined. *)
Fixpoint join (c : ascii) (parts : list text) : text :=
  match parts with
  | [] => []
  | [part] => part
  | part :: rest => part ++ c :: join c rest
  end.

Lemma join_cons c part rest : rest <> [] -> join c (part :: rest) = part ++ c :: join c rest.
Proof. by destruct rest. Qed.

(** Reading the first part of a joined text back. *)
Lemma join_first c a rest parts :
  c ∉ a -> Forall (fun part => c ∉ part) parts -> parts <> [] ->
  a ++ c :: rest = join c parts -> exists parts', parts = a :: parts' /\ parts' <> [] /\ rest = join c parts'.
Proof.
  intros Ha Hp Hn E. destruct Hp as [|p [|p' ps] Hp Hps]; [done| |].
  - exfalso. cbn in E. apply Hp. rewrite <- E. apply elem_of_app. right. left.
  - rewrite join_cons in E by done. apply separator_inj in E as [-> ->]; [|done|done]. by exists (p' :: ps).
Qed.

Lemma join_single c a parts :
  c ∉ a -> parts <> [] -> a = join c parts -> parts = [a].
Proof.
  intros Ha Hn E. destruct parts as [|p [|p' ps]]; [done|by cbn in E; subst|].
  exfalso. apply Ha. rewrite E, join_cons by done. apply elem_of_app. right. left.
Qed.

(** ** Membership tests over a text *)

Lemma forallb_Forall (p : ascii -> bool) s : forallb p s = true <-> Forall (fun c => p c = true) s.
Proof. rewrite forallb_forall, Forall_forall. setoid_rewrite list_elem_of_In. done. Qed.

#[global] Arguments L : simpl never.
#[global] Arguments dec : simpl never.
#[global] Arguments to_lower : simpl never.
