(* ===== verification/ConfigTypes.v ===== *)
(** * Configuration data (include/apigate/config.hpp)

    The records every component reads: one upstream backend, the optional
    per-route policies, a route and the whole [AppConfig].  Strings are byte
    lists, unsigned members are [Z] values in the range of their type, and the two
    TLS contexts are shared pointers, of which the program only ever uses the
    identity and emptiness: a handle, or [None] for a null pointer. *)

From S2P Require Import Prelude.

Inductive LogLevel := trace | debug | info | warn | error | critical.

Inductive UpstreamScheme := http | https.

#[export] Instance LogLevel_eq_dec : EqDecision LogLevel.
Proof. solve_decision. Defined.
#[export] Instance UpstreamScheme_eq_dec : EqDecision UpstreamScheme.
Proof. solve_decision. Defined.

(** [shared_ptr<UpstreamTlsContext>] and [shared_ptr<DownstreamTlsContext>]. *)
Definition TlsHandle : Type := option nat.

Record UpstreamConfig := mkUpstream {
  host : text;
  port : Z;
  timeout_ms : Z;
  scheme : UpstreamScheme }.

Record RateLimitConfig := mkRateLimit {
  requests_per_second : Z;
  burst : Z }.

Record HealthCheckConfig := mkHealthCheck {
  hc_path : text;
  hc_interval_ms : Z;
  hc_timeout_ms : Z;
  unhealthy_threshold : Z;
  healthy_threshold : Z }.

(** [std::array<unsigned char, 32>]. *)
Definition ApiKeyDigest : Type := text.
Definition max_keys : nat := 4.

Record ApiKeyAuthConfig := mkApiKeyAuth {
  digests : list ApiKeyDigest;
  key_count : nat }.

(** A default-constructed [ApiKeyAuthConfig]: four zero digests, none in use. *)
Definition empty_digest : ApiKeyDigest := replicate 32 (ascii_of_nat 0).
Definition default_ApiKeyAuthConfig : ApiKeyAuthConfig :=
  mkApiKeyAuth (replicate max_keys empty_digest) 0.

Record RouteConfig := mkRoute {
  rt_prefix : text;
  upstreams : list UpstreamConfig;
  strip_prefix : bool;
  rate_limit : option RateLimitConfig;
  health_check : option HealthCheckConfig;
  auth : option ApiKeyAuthConfig;
  stream_response : bool }.

Record AppConfig := mkAppConfig {
  service_name : text;
  environment : text;
  log_level : LogLevel;
  listen_address : text;
  listen_port : Z;
  max_connections : Z;
  max_concurrent_proxies : Z;
  max_in_flight_bytes : Z;
  shutdown_grace_ms : Z;
  metrics_enabled : bool;
  upstream_keep_alive : bool;
  upstream : option UpstreamConfig;
  routes : list RouteConfig;
  upstream_tls_context : TlsHandle;
  downstream_tls_context : TlsHandle }.

(** The default member initialisers of [AppConfig]. *)
Definition default_AppConfig : AppConfig := {|
  service_name := L "api-gate";
  environment := L "development";
  log_level := info;
  listen_address := L "127.0.0.1";
  listen_port := 8080;
  max_connections := 256;
  max_concurrent_proxies := 32;
  max_in_flight_bytes := 67108864;
  shutdown_grace_ms := 5000;
  metrics_enabled := false;
  upstream_keep_alive := false;
  upstream := None;
  routes := [];
  upstream_tls_context := None;
  downstream_tls_context := None |}.

#[export] Instance UpstreamConfig_eq_dec : EqDecision UpstreamConfig.
Proof. solve_decision. Defined.
#[export] Instance RateLimitConfig_eq_dec : EqDecision RateLimitConfig.
Proof. solve_decision. Defined.
#[export] Instance HealthCheckConfig_eq_dec : EqDecision HealthCheckConfig.
Proof. solve_decision. Defined.
#[export] Instance ApiKeyAuthConfig_eq_dec : EqDecision ApiKeyAuthConfig.
Proof. solve_decision. Defined.
#[export] Instance RouteConfig_eq_dec : EqDecision RouteConfig.
Proof. solve_decision. Defined.
#[export] Instance AppConfig_eq_dec : EqDecision AppConfig.
Proof. solve_decision. Defined.
