(* ===== verification/Errors.v ===== *)
(** * Error codes

    [boost::system::error_code] values.  The program compares a code with the named
    constants below and otherwise only tests it for "no error" or logs its number;
    every other code is [other_error]. *)

From S2P Require Import Prelude.

Inductive error_code :=
  | no_error
  (* boost::asio::error *)
  | operation_aborted | broken_pipe | connection_aborted | connection_reset | eof
  | not_connected | bad_descriptor | timed_out | asio_invalid_argument
  (* boost::asio::ssl::error *)
  | stream_truncated
  (* boost::beast::error *)
  | beast_timeout
  (* boost::beast::http::error *)
  | end_of_stream | body_limit | header_limit | need_buffer
  | other_error (value : Z).

#[export] Instance error_code_eq_dec : EqDecision error_code.
Proof. solve_decision. Defined.

(** The conversion of a code to [bool]. *)
Definition failed (e : error_code) : bool := negb (bool_decide (e = no_error)).

(** [error == constant]. *)
Definition error_is (e constant : error_code) : bool := bool_decide (e = constant).

Lemma failed_false e : failed e = false <-> e = no_error.
Proof. unfold failed. rewrite negb_false_iff. apply bool_decide_eq_true. Qed.
Lemma failed_true e : failed e = true <-> e <> no_error.
Proof. unfold failed. rewrite negb_true_iff. apply bool_decide_eq_false. Qed.
Lemma error_is_true e c : error_is e c = true <-> e = c.
Proof. apply bool_decide_eq_true. Qed.
Lemma error_is_false e c : error_is e c = false <-> e <> c.
Proof. apply bool_decide_eq_false. Qed.
Lemma error_is_refl e : error_is e e = true.
Proof. by apply error_is_true. Qed.
