(* ===== verification/Http.v ===== *)
(** * HTTP messages, as the program sees them

    The program stores messages in Boost.Beast's [message] and [fields] containers,
    which are not part of the repository.  [BeastHttp] lists the container operations
    the source calls; [BeastLaws] states what Beast documents of them.  Everything else
    in the development is generic in the container.  [list_beast] is a concrete
    container that satisfies the laws. *)

From S2P Require Import Prelude Text.

Local Open Scope Z_scope.

(** The verbs the program distinguishes. *)
Inductive verb := get | post | put_verb | patch | other_verb (name : text).

#[export] Instance verb_eq_dec : EqDecision verb.
Proof. solve_decision. Defined.

Definition verb_is (a b : verb) : bool := bool_decide (a = b).

(** What [prepare_payload] looks at beside the fields. *)
Inductive message_kind := a_request (method : verb) | a_response (status : Z).

(** [prepare_payload] throws for a body that the status of a response forbids. *)
Definition body_allowed (kind : message_kind) : bool :=
  match kind with
  | a_request _ => true
  | a_response status => (200 <=? status) && negb (status =? 204) && negb (status =? 304)
  end.

Class BeastHttp := {
  fields : Type;
  no_fields : fields;
  (* Case-insensitive comparison of ASCII text. *)
  iequals : text -> text -> bool;
  (* The fields in iteration order: [name_string()] and [value()]. *)
  field_list : fields -> list (text * text);
  set_field : text -> text -> fields -> fields;
  insert_field : text -> text -> fields -> fields;
  (* [message::keep_alive()], read and written, for an HTTP version (10 or 11). *)
  get_keep_alive : Z -> fields -> bool;
  set_keep_alive : Z -> bool -> fields -> fields;
  set_content_length : Z -> fields -> fields;
  (* [message::chunked(bool)] *)
  set_chunked : bool -> fields -> fields;
  (* [message::need_eof()] of a response: status, version, fields. *)
  get_need_eof : Z -> Z -> fields -> bool;
  (* [prepare_payload] for a body of known size. *)
  prepare_fields : message_kind -> Z -> Z -> fields -> fields }.

(** A field is named up to case. *)
Definition named {B : BeastHttp} (name : text) (field : text * text) : bool := iequals field.1 name.

(** [equal_range(name)]: the values of the fields of that name. *)
Definition values_of {B : BeastHttp} (name : text) (f : fields) : list text :=
  snd <$> List.filter (named name) (field_list f).

(** [find(name) != end()] *)
Definition has_field {B : BeastHttp} (name : text) (f : fields) : bool :=
  existsb (named name) (field_list f).

Class BeastLaws (B : BeastHttp) : Prop := {
  iequals_lower a b : iequals a b = true <-> to_lower a = to_lower b;
  field_list_empty : field_list no_fields = [];
  (* [set] removes every field of that name, then inserts. *)
  set_field_perm name value f :
    field_list (set_field name value f) ≡ₚ
    (name, value) :: List.filter (fun field => negb (named name field)) (field_list f);
  set_field_others name value other f : iequals name other = false ->
    values_of other (set_field name value f) = values_of other f;
  (* [insert] adds a field after those of the same name. *)
  insert_field_perm name value f :
    field_list (insert_field name value f) ≡ₚ (name, value) :: field_list f;
  insert_field_values name value other f :
    values_of other (insert_field name value f) =
    values_of other f ++ (if iequals name other then [value] else []);
  (* The keep-alive setter rewrites the Connection field only, to the effect asked. *)
  set_keep_alive_reads version b f :
    version = 10 \/ version = 11 -> get_keep_alive version (set_keep_alive version b f) = b;
  get_keep_alive_reads version f g :
    values_of (L "Connection") f = values_of (L "Connection") g ->
    get_keep_alive version f = get_keep_alive version g;
  set_keep_alive_others version b other f : iequals (L "Connection") other = false ->
    values_of other (set_keep_alive version b f) = values_of other f;
  (* A response that does not keep the connection alive ends with it. *)
  need_eof_close status version f : get_keep_alive version f = false -> get_need_eof status version f = true;
  (* Setting the length replaces Content-Length and leaves fields other than it and
     Transfer-Encoding alone. *)
  set_content_length_value n f : values_of (L "Content-Length") (set_content_length n f) = [dec n];
  set_content_length_others n other f :
    iequals (L "Content-Length") other = false -> iequals (L "Transfer-Encoding") other = false ->
    values_of other (set_content_length n f) = values_of other f;
  set_content_length_framing n f : values_of (L "Transfer-Encoding") f = [] ->
    values_of (L "Transfer-Encoding") (set_content_length n f) = [];
  prepare_fields_framing kind version size f : 0 < size ->
    values_of (L "Transfer-Encoding") f = [] ->
    values_of (L "Transfer-Encoding") (prepare_fields kind version size f) = [];
  prepare_fields_others kind version size other f :
    iequals (L "Content-Length") other = false -> iequals (L "Transfer-Encoding") other = false ->
    values_of other (prepare_fields kind version size f) = values_of other f;
  (* A body that is not empty, in a message that may have one, gets its length. *)
  prepare_fields_length kind version size f : body_allowed kind = true -> 0 < size ->
    values_of (L "Content-Length") (prepare_fields kind version size f) = [dec size] }.

Section Messages.
Context {B : BeastHttp}.

Record HttpRequest := mkRequest {
  rq_method : verb;
  rq_target : text;
  rq_version : Z;
  rq_fields : fields;
  rq_body : text }.

Record HttpResponse := mkResponse {
  rs_status : Z;
  rs_reason : text;
  rs_version : Z;
  rs_fields : fields;
  rs_body : text }.

Definition request_keep_alive (r : HttpRequest) : bool := get_keep_alive (rq_version r) (rq_fields r).
Definition response_keep_alive (r : HttpResponse) : bool := get_keep_alive (rs_version r) (rs_fields r).

(** The member functions of a message that change it. *)
Definition rs_set (name value : text) (r : HttpResponse) : HttpResponse :=
  mkResponse (rs_status r) (rs_reason r) (rs_version r) (set_field name value (rs_fields r)) (rs_body r).
Definition rs_insert (name value : text) (r : HttpResponse) : HttpResponse :=
  mkResponse (rs_status r) (rs_reason r) (rs_version r) (insert_field name value (rs_fields r)) (rs_body r).
Definition rs_keep_alive (b : bool) (r : HttpResponse) : HttpResponse :=
  mkResponse (rs_status r) (rs_reason r) (rs_version r)
    (set_keep_alive (rs_version r) b (rs_fields r)) (rs_body r).
Definition rs_with_body (body : text) (r : HttpResponse) : HttpResponse :=
  mkResponse (rs_status r) (rs_reason r) (rs_version r) (rs_fields r) body.
Definition rs_content_length (n : Z) (r : HttpResponse) : HttpResponse :=
  mkResponse (rs_status r) (rs_reason r) (rs_version r) (set_content_length n (rs_fields r)) (rs_body r).
Definition rs_chunked (b : bool) (r : HttpResponse) : HttpResponse :=
  mkResponse (rs_status r) (rs_reason r) (rs_version r) (set_chunked b (rs_fields r)) (rs_body r).
Definition rs_need_eof (r : HttpResponse) : bool := get_need_eof (rs_status r) (rs_version r) (rs_fields r).
Definition rs_prepare (r : HttpResponse) : HttpResponse :=
  mkResponse (rs_status r) (rs_reason r) (rs_version r)
    (prepare_fields (a_response (rs_status r)) (rs_version r) (Z.of_nat (length (rs_body r))) (rs_fields r))
    (rs_body r).

Definition rq_set (name value : text) (r : HttpRequest) : HttpRequest :=
  mkRequest (rq_method r) (rq_target r) (rq_version r) (set_field name value (rq_fields r)) (rq_body r).
Definition rq_insert (name value : text) (r : HttpRequest) : HttpRequest :=
  mkRequest (rq_method r) (rq_target r) (rq_version r) (insert_field name value (rq_fields r)) (rq_body r).
Definition rq_keep_alive (b : bool) (r : HttpRequest) : HttpRequest :=
  mkRequest (rq_method r) (rq_target r) (rq_version r)
    (set_keep_alive (rq_version r) b (rq_fields r)) (rq_body r).
Definition rq_with_body (body : text) (r : HttpRequest) : HttpRequest :=
  mkRequest (rq_method r) (rq_target r) (rq_version r) (rq_fields r) body.
Definition rq_content_length (n : Z) (r : HttpRequest) : HttpRequest :=
  mkRequest (rq_method r) (rq_target r) (rq_version r) (set_content_length n (rq_fields r)) (rq_body r).
Definition rq_prepare (r : HttpRequest) : HttpRequest :=
  mkRequest (rq_method r) (rq_target r) (rq_version r)
    (prepare_fields (a_request (rq_method r)) (rq_version r) (Z.of_nat (length (rq_body r))) (rq_fields r))
    (rq_body r).

End Messages.

(** ** Consequences of the laws *)

Section Laws.
Context {B : BeastHttp} {BL : BeastLaws B}.

Lemma iequals_refl a : iequals a a = true.
Proof. by apply iequals_lower. Qed.

Lemma iequals_lower_of a b : iequals a b = bool_decide (to_lower a = to_lower b).
Proof. apply eq_true_iff_eq. by rewrite iequals_lower, bool_decide_eq_true. Qed.

Lemma iequals_sym a b : iequals a b = iequals b a.
Proof. apply eq_true_iff_eq. rewrite !iequals_lower. done. Qed.

Lemma iequals_trans a b c : iequals a b = true -> iequals b c = iequals a c.
Proof. intros E%iequals_lower. apply eq_true_iff_eq. rewrite !iequals_lower. by rewrite E. Qed.

Lemma values_of_elem name f v :
  v ∈ values_of name f <-> exists n, (n, v) ∈ field_list f /\ iequals n name = true.
Proof.
  unfold values_of. rewrite list_elem_of_fmap. split.
  - intros ([n w] & -> & H). apply list_elem_of_In, filter_In in H as [H1 H2].
    exists n. split; [by apply list_elem_of_In|exact H2].
  - intros (n & H1 & H2). exists (n, v). split; [done|].
    apply list_elem_of_In, filter_In. split; [by apply list_elem_of_In|exact H2].
Qed.

Lemma values_of_empty name : values_of name no_fields = [].
Proof. unfold values_of. by rewrite field_list_empty. Qed.

Lemma filter_none {A} (p : A -> bool) l : (forall x, x ∈ l -> p x = false) -> List.filter p l = [].
Proof.
  induction l as [|x l IH]; intros H; cbn; [done|]. rewrite (H x) by left. apply IH. intros y Hy.
  apply H. by right.
Qed.

Lemma filter_perm {A} (p : A -> bool) l k : l ≡ₚ k -> List.filter p l ≡ₚ List.filter p k.
Proof. induction 1; cbn; repeat case_match; eauto using perm_swap, perm_trans. Qed.

Lemma set_field_values name value f : values_of name (set_field name value f) = [value].
Proof.
  unfold values_of. pose proof (filter_perm (named name) _ _ (set_field_perm name value f)) as H.
  cbn in H. unfold named at 2 in H. cbn in H. rewrite iequals_refl in H.
  rewrite (filter_none (named name) (List.filter _ (field_list f))) in H.
  - apply Permutation_singleton_r in H. by rewrite H.
  - intros x Hx. apply list_elem_of_In, filter_In in Hx as [_ Hx]. by apply negb_true_iff.
Qed.

Lemma has_field_values name f : has_field name f = negb (bool_decide (values_of name f = [])).
Proof.
  unfold has_field, values_of. induction (field_list f) as [|x l IH]; cbn; [done|].
  by destruct (named name x); cbn.
Qed.

(** Distinct literal names. *)
Lemma iequals_false_lower a b : bool_decide (to_lower a = to_lower b) = false -> iequals a b = false.
Proof. by rewrite iequals_lower_of. Qed.

Lemma set_keep_alive_get version b f f' :
  version = 10 \/ version = 11 ->
  values_of (L "Connection") f' = values_of (L "Connection") (set_keep_alive version b f) ->
  get_keep_alive version f' = b.
Proof. intros Hv E. rewrite (get_keep_alive_reads version _ _ E). by apply set_keep_alive_reads. Qed.

End Laws.

(** Reads one field through the changes made to the others, on literal names. *)
Ltac field_values :=
  repeat first
    [ rewrite set_field_values
    | rewrite prepare_fields_others by (apply iequals_false_lower; reflexivity)
    | rewrite set_field_others by (apply iequals_false_lower; reflexivity)
    | rewrite set_keep_alive_others by (apply iequals_false_lower; reflexivity)
    | rewrite set_content_length_others by (apply iequals_false_lower; reflexivity)
    | rewrite values_of_empty ].

(** ** A concrete container *)

Definition list_iequals (a b : text) : bool := text_eqb (to_lower a) (to_lower b).

Definition list_set (name value : text) (f : list (text * text)) : list (text * text) :=
  List.filter (fun field => negb (list_iequals field.1 name)) f ++ [(name, value)].

Definition list_without (name : text) (f : list (text * text)) : list (text * text) :=
  List.filter (fun field => negb (list_iequals field.1 name)) f.

#[export] Instance list_beast : BeastHttp := {|
  fields := list (text * text);
  no_fields := [];
  iequals := list_iequals;
  field_list f := f;
  set_field := list_set;
  insert_field name value f := f ++ [(name, value)];
  get_keep_alive version f :=
    if version =? 11 then
      negb (existsb (fun x => list_iequals x.1 (L "Connection") && list_iequals x.2 (L "close")) f)
    else existsb (fun x => list_iequals x.1 (L "Connection") && list_iequals x.2 (L "keep-alive")) f;
  set_keep_alive version b f :=
    list_without (L "Connection") f ++
    (if version =? 11 then (if b then [] else [(L "Connection", L "close")])
     else (if b then [(L "Connection", L "keep-alive")] else []));
  set_content_length n f := list_set (L "Content-Length") (dec n) f;
  set_chunked b f :=
    list_without (L "Transfer-Encoding") (list_without (L "Content-Length") f) ++
    (if b then [(L "Transfer-Encoding", L "chunked")] else []);
  get_need_eof status version f :=
    if (status <? 200) || (status =? 204) || (status =? 304) ||
       existsb (fun x => list_iequals x.1 (L "Content-Length") || list_iequals x.1 (L "Transfer-Encoding")) f
    then negb
      (if version =? 11 then
         negb (existsb (fun x => list_iequals x.1 (L "Connection") && list_iequals x.2 (L "close")) f)
       else existsb (fun x => list_iequals x.1 (L "Connection") && list_iequals x.2 (L "keep-alive")) f)
    else true;
  prepare_fields kind version size f :=
    if 0 <? size then list_set (L "Content-Length") (dec size) f else f |}.

Lemma list_iequals_spec a b : list_iequals a b = true <-> to_lower a = to_lower b.
Proof. apply text_eqb_true. Qed.

Lemma list_iequals_false_trans a b c :
  list_iequals b c = false -> list_iequals a b = true -> list_iequals a c = false.
Proof.
  intros H E%list_iequals_spec. unfold list_iequals in *. by rewrite E.
Qed.

(** Filtering out the fields named [name] does not change those of another name. *)
Lemma list_without_values name other (f : list (text * text)) :
  list_iequals name other = false ->
  List.filter (fun x => list_iequals x.1 other) (list_without name f) =
  List.filter (fun x => list_iequals x.1 other) f.
Proof.
  intros H. unfold list_without. induction f as [|[n v] f IH]; cbn; [done|].
  destruct (list_iequals n name) eqn:E; cbn.
  - by rewrite (list_iequals_false_trans n name other H E).
  - by rewrite IH.
Qed.

Lemma list_values_app other (f g : list (text * text)) :
  values_of other (f ++ g) = values_of other f ++ values_of other g.
Proof. unfold values_of. cbn. by rewrite List.filter_app, fmap_app. Qed.

Lemma list_set_others name value other (f : list (text * text)) :
  list_iequals name other = false -> values_of other (list_set name value f) = values_of other f.
Proof.
  intros H. unfold list_set. rewrite list_values_app. unfold values_of. cbn.
  unfold named. cbn. rewrite H. cbn. rewrite app_nil_r. f_equal. by apply list_without_values.
Qed.

Lemma list_set_same name value (f : list (text * text)) :
  values_of name (list_set name value f) = [value].
Proof.
  unfold list_set. rewrite list_values_app.
  match goal with |- @values_of _ _ ?g ++ _ = _ => replace (@values_of list_beast name g) with (@nil text) end.
  - unfold values_of. cbn. unfold named. cbn.
    by replace (list_iequals name name) with true by (symmetry; by apply list_iequals_spec).
  - symmetry. unfold values_of. cbn. rewrite filter_none; [done|]. intros x Hx.
    apply list_elem_of_In, filter_In in Hx as [_ Hx]. unfold named. cbn. by apply negb_true_iff.
Qed.

Lemma existsb_without name (p : text * text -> bool) (f : list (text * text)) :
  existsb (fun x => list_iequals x.1 name && p x) (list_without name f) = false.
Proof.
  unfold list_without.
  induction f as [|x f IH]; cbn; [done|]. destruct (list_iequals x.1 name) eqn:E; cbn; [done|].
  by rewrite E, IH.
Qed.

Lemma existsb_named name (p : text -> bool) (f : list (text * text)) :
  existsb (fun x => list_iequals x.1 name && p x.2) f = existsb p (@values_of list_beast name f).
Proof.
  unfold values_of. cbn. induction f as [|x f IH]; cbn; [done|]. unfold named at 1. cbn.
  destruct (list_iequals x.1 name); cbn; by rewrite IH.
Qed.

#[export] Instance list_beast_laws : BeastLaws list_beast.
Proof.
  split; cbn -[values_of dec list_set list_without].
  - apply list_iequals_spec.
  - done.
  - intros. unfold list_set. by rewrite Permutation_app_comm.
  - intros. by apply list_set_others.
  - intros. by rewrite Permutation_app_comm.
  - intros. rewrite list_values_app. unfold values_of at 2. cbn. unfold named. cbn.
    by destruct (list_iequals name other).
  - intros version b f H. rewrite !existsb_app, !existsb_without.
    by destruct H as [-> | ->], b.
  - intros version f g H. rewrite !(existsb_named (L "Connection") (fun v => list_iequals v (L "close"))),
      !(existsb_named (L "Connection") (fun v => list_iequals v (L "keep-alive"))), H. done.
  - intros version b other f H. rewrite list_values_app.
    match goal with |- _ ++ ?g = _ => replace g with (@nil text) end.
    + rewrite app_nil_r. unfold values_of. f_equal. by apply list_without_values.
    + unfold values_of. cbn. destruct (version =? 11), b; cbn; unfold named; cbn; by rewrite ?H.
  - intros status version f ->. by case_ifs.
  - intros. apply list_set_same.
  - intros. by apply list_set_others.
  - intros n f H. by rewrite list_set_others.
  - intros kind version size f H Hf. destruct (0 <? size); [by rewrite list_set_others|done].
  - intros kind version size other f H _. destruct (0 <? size); [by apply list_set_others|done].
  - intros kind version size f _ H.
    replace (0 <? size) with true by (symmetry; by apply Z.ltb_lt). apply list_set_same.
Qed.
