(* ===== verification/RateLimit.v ===== *)
(** * Token-bucket rate limits (src/rate_limit.hpp, src/rate_limit.cpp)

    [TokenBucket] counts in nanotokens: one token is 10^9 units, so that a refill
    of [rate] tokens per second adds exactly [rate] units per nanosecond of the
    steady clock.  Times are the signed 64-bit tick counts of
    [steady_clock::time_point].  The arithmetic is that of the source, on 64-bit
    unsigned integers; [ideal_refill] is the unbounded specification it refines. *)

From S2P Require Import Prelude ConfigTypes.

Local Open Scope Z_scope.

Definition units_per_token : Z := 1000000000.

Definition ceil_divide (numerator denominator : Z) : Z :=
  u64 (numerator / denominator + (if negb (numerator mod denominator =? 0) then 1 else 0)).

Record RateLimitDecision := mkDecision {
  allowed : bool;
  retry_after_seconds : Z }.

(** [RateLimitDecision{}]. *)
Definition default_decision : RateLimitDecision := mkDecision true 0.

Record TokenBucket := mkBucket {
  config_ : RateLimitConfig;
  capacity_ : Z;
  units_ : Z;
  last_refill_ : Z }.

(** The constructor: the members are initialised first, then the values checked. *)
Definition make_TokenBucket (config : RateLimitConfig) (now : Z) : result TokenBucket :=
  let capacity := u64 (burst config * units_per_token) in
  if (requests_per_second config =? 0) || (1000000 <? requests_per_second config)
     || (burst config =? 0) || (1000000 <? burst config)
  then Throw (invalid_argument "rate limit values must be integers from 1 to 1000000")
  else Ok (mkBucket config capacity capacity now).

Definition refill (b : TokenBucket) (now : Z) : TokenBucket :=
  if now <=? last_refill_ b then b
  else
    let ticks := u64 (u64 now - u64 (last_refill_ b)) in
    if u64 (burst (config_ b) * 1000000000) <=? ticks then
      mkBucket (config_ b) (capacity_ b) (capacity_ b) now
    else
      let nanoseconds := u64 (s64 ticks) in
      let missing := u64 (capacity_ b - units_ b) in
      if ceil_divide missing (requests_per_second (config_ b)) <=? nanoseconds then
        mkBucket (config_ b) (capacity_ b) (capacity_ b) now
      else
        mkBucket (config_ b) (capacity_ b)
          (u64 (units_ b + u64 (nanoseconds * requests_per_second (config_ b)))) now.

Definition try_acquire (b : TokenBucket) (now : Z) : RateLimitDecision * TokenBucket :=
  let b := refill b now in
  if units_per_token <=? units_ b then
    (default_decision,
     mkBucket (config_ b) (capacity_ b) (u64 (units_ b - units_per_token)) (last_refill_ b))
  else
    let wait_nanoseconds :=
      ceil_divide (u64 (units_per_token - units_ b)) (requests_per_second (config_ b)) in
    (mkDecision false (u32 (ceil_divide wait_nanoseconds units_per_token)), b).

(** ** RouteRateLimits: one optional bucket per route, in route order *)

Record RouteRateLimits := mkRouteRateLimits { buckets_ : list (option TokenBucket) }.

Fixpoint make_buckets (routes : list RouteConfig) (now : Z) : result (list (option TokenBucket)) :=
  match routes with
  | [] => Ok []
  | route :: rest =>
      bucket ← match rate_limit route with
               | Some config => Some <$> make_TokenBucket config now
               | None => Ok None
               end;
      buckets ← make_buckets rest now;
      Ok (bucket :: buckets)
  end.

Definition make_RouteRateLimits (routes : list RouteConfig) (now : Z) : result RouteRateLimits :=
  mkRouteRateLimits <$> make_buckets routes now.

(** [buckets_.at(route_index)] may throw; an unlimited route is always allowed. *)
Definition route_try_acquire (limits : RouteRateLimits) (route_index : nat) (now : Z)
    : result (RateLimitDecision * RouteRateLimits) :=
  bucket ← vec_at (buckets_ limits) route_index;
  match bucket with
  | Some b =>
      let '(decision, b') := try_acquire b now in
      Ok (decision, mkRouteRateLimits (<[route_index := Some b']> (buckets_ limits)))
  | None => Ok (default_decision, limits)
  end.

(** ** Invariant and specification *)

Definition limits_ok (c : RateLimitConfig) : Prop :=
  1 <= requests_per_second c <= 1000000 /\ 1 <= burst c <= 1000000.

(** What every reachable bucket satisfies. *)
Definition bucket_ok (b : TokenBucket) : Prop :=
  limits_ok (config_ b) /\
  capacity_ b = burst (config_ b) * units_per_token /\
  0 <= units_ b <= capacity_ b /\
  in_s64 (last_refill_ b).

(** The unbounded reference: elapsed time times rate, capped at the capacity; a
    clock that does not advance changes nothing. *)
Definition ideal_refill (b : TokenBucket) (now : Z) : TokenBucket :=
  if now <=? last_refill_ b then b
  else mkBucket (config_ b) (capacity_ b)
         (Z.min (capacity_ b)
            (units_ b + (now - last_refill_ b) * requests_per_second (config_ b))) now.

(** Serving a sequence of calls, as the single io_context thread does. *)
Fixpoint run_acquires (b : TokenBucket) (times : list Z) : list RateLimitDecision * TokenBucket :=
  match times with
  | [] => ([], b)
  | t :: rest =>
      let '(d, b') := try_acquire b t in
      let '(ds, b'') := run_acquires b' rest in
      (d :: ds, b'')
  end.

Definition admitted_count (ds : list RateLimitDecision) : Z :=
  sumZ (fun d => if allowed d then 1 else 0) ds.

(** ** Arithmetic *)

Lemma ceil_divide_spec n d :
  0 <= n < 2 ^ 63 -> 0 < d ->
  0 <= ceil_divide n d <= n /\ n <= ceil_divide n d * d < n + d.
Proof.
  intros Hn Hd. unfold ceil_divide.
  pose proof (Z.div_mod n d ltac:(lia)). pose proof (Z.mod_pos_bound n d Hd).
  assert (0 <= n / d <= n) by (split; [apply Z.div_pos; lia|apply Z.div_le_upper_bound; nia]).
  rewrite u64_small by (unfold in_u64; case_ifs; lia).
  destruct (n mod d =? 0) eqn:E; reflect_bools; cbn; nia.
Qed.

Lemma ceil_divide_le n d m :
  0 <= n < 2 ^ 63 -> 0 < d -> ceil_divide n d <= m <-> n <= m * d.
Proof. intros Hn Hd. destruct (ceil_divide_spec n d Hn Hd) as (Hr & H). nia. Qed.

(** ** Refill refines the unbounded reference *)

Lemma capacity_small b : bucket_ok b -> 0 < capacity_ b <= 10 ^ 15.
Proof. intros ((Hr & Hb) & -> & _). unfold units_per_token. lia. Qed.

Lemma refill_ideal b now :
  bucket_ok b -> in_s64 now -> refill b now = ideal_refill b now.
Proof.
  intros Hok Hnow. pose proof (capacity_small b Hok) as Hcap.
  destruct Hok as ((Hr & Hb) & Hc & Hu & Hl).
  unfold refill, ideal_refill, units_per_token in *.
  destruct (now <=? last_refill_ b) eqn:E; [done|]. reflect_bools.
  rewrite u64_sub_signed by (done || lia).
  set (e := now - last_refill_ b) in *.
  set (r := requests_per_second (config_ b)) in *.
  rewrite (u64_small (burst _ * _)) by (unfold in_u64; lia).
  destruct (_ <=? e) eqn:Efull; reflect_bools; [f_equal; nia|].
  rewrite (s64_small e), (u64_small e), (u64_small (capacity_ b - units_ b))
    by (unfold in_u64, in_s64; lia).
  assert (Hm : 0 <= capacity_ b - units_ b < 2 ^ 63) by lia.
  pose proof (ceil_divide_le _ r e Hm ltac:(lia)) as Hle.
  destruct (_ <=? e) eqn:E2; reflect_bools; [f_equal; lia|].
  rewrite (u64_small (e * r)) by (unfold in_u64; nia).
  rewrite u64_small by (unfold in_u64; nia). f_equal. lia.
Qed.

Lemma refill_ok b now : bucket_ok b -> in_s64 now -> bucket_ok (refill b now).
Proof.
  intros Hok Hnow. rewrite refill_ideal by done.
  unfold ideal_refill. case_ifs; [done|]. reflect_bools.
  destruct Hok as (Hlim & Hc & Hu & Hl). pose proof Hlim as [Hr Hb].
  unfold bucket_ok; cbn. split_and!; try done || nia.
Qed.

Lemma last_refill_max b now :
  bucket_ok b -> in_s64 now -> last_refill_ (refill b now) = Z.max (last_refill_ b) now.
Proof.
  intros Hok Hnow. rewrite refill_ideal by done. unfold ideal_refill.
  case_ifs; reflect_bools; cbn; lia.
Qed.

(** ** One acquisition *)

Lemma try_acquire_cases b now :
  bucket_ok b -> in_s64 now ->
  let b1 := refill b now in
  (units_per_token <= units_ b1 /\
     try_acquire b now =
       (default_decision,
        mkBucket (config_ b1) (capacity_ b1) (units_ b1 - units_per_token) (last_refill_ b1))) \/
  (units_ b1 < units_per_token /\
     try_acquire b now =
       (mkDecision false
          (ceil_divide
             (ceil_divide (units_per_token - units_ b1) (requests_per_second (config_ b1)))
             units_per_token), b1)).
Proof.
  intros Hok Hnow b1. pose proof (refill_ok b now Hok Hnow) as Hok1. fold b1 in Hok1.
  pose proof (capacity_small _ Hok1). destruct Hok1 as ((Hr & Hb) & Hc & Hu & Hl).
  unfold try_acquire. fold b1. unfold units_per_token in *.
  destruct (1000000000 <=? units_ b1) eqn:E; reflect_bools; [left|right]; split; try done.
  - rewrite u64_small; [done|]. unfold in_u64; lia.
  - rewrite (u64_small (_ - _)) by (unfold in_u64; lia).
    set (w := ceil_divide (1000000000 - _) _).
    assert (Hw : 0 <= w <= 1000000000).
    { destruct (ceil_divide_spec (1000000000 - units_ b1) (requests_per_second (config_ b1)));
        subst w; lia. }
    destruct (ceil_divide_spec w 1000000000 ltac:(lia) ltac:(lia)).
    rewrite u32_small by (unfold in_u32; lia). done.
Qed.

Lemma try_acquire_ok b now :
  bucket_ok b -> in_s64 now -> bucket_ok (try_acquire b now).2.
Proof.
  intros Hok Hnow. pose proof (refill_ok b now Hok Hnow) as Hok1.
  destruct (try_acquire_cases b now Hok Hnow) as [[H ->]|[H ->]]; cbn; [|done].
  destruct Hok1 as (Hlim & Hc & Hu & Hl).
  unfold bucket_ok, units_per_token in *; cbn. split_and!; (done || lia).
Qed.

(** The potential: what a call takes out is covered by what time put in. *)
Lemma try_acquire_potential b now :
  bucket_ok b -> in_s64 now ->
  let '(d, b') := try_acquire b now in
  (if allowed d then units_per_token else 0) + units_ b' <=
    units_ b + (last_refill_ b' - last_refill_ b) * requests_per_second (config_ b) /\
  last_refill_ b' = Z.max (last_refill_ b) now /\
  config_ b' = config_ b.
Proof.
  intros Hok Hnow. pose proof (last_refill_max b now Hok Hnow) as Hlast.
  assert (Hpot : units_ (refill b now) <=
    units_ b + (last_refill_ (refill b now) - last_refill_ b) * requests_per_second (config_ b)
    /\ config_ (refill b now) = config_ b).
  { rewrite refill_ideal by done. unfold ideal_refill.
    destruct Hok as ((Hr & _) & _). case_ifs; reflect_bools; cbn; split; (done || lia). }
  destruct Hpot as [Hpot Hcfg].
  destruct (try_acquire_cases b now Hok Hnow) as [[H ->]|[H ->]]; cbn in *;
    split_and!; (done || lia).
Qed.

(** ** Runs *)

Lemma run_acquires_potential b times :
  bucket_ok b -> Forall in_s64 times ->
  let '(ds, b') := run_acquires b times in
  admitted_count ds * units_per_token + units_ b' <=
    units_ b + (last_refill_ b' - last_refill_ b) * requests_per_second (config_ b) /\
  last_refill_ b' = foldl Z.max (last_refill_ b) times /\
  bucket_ok b'.
Proof.
  intros Hok Ht. revert b Hok. induction Ht as [|t times Hs _ IH]; intros b Hok; cbn [run_acquires].
  { cbn. split_and!; (done || lia). }
  pose proof (try_acquire_potential b t Hok Hs) as Hp.
  pose proof (try_acquire_ok b t Hok Hs) as Hok'.
  destruct (try_acquire b t) as [d b1]. cbn in Hok'. destruct Hp as (Hp & Hlast & Hcfg).
  specialize (IH b1 Hok'). destruct (run_acquires b1 times) as [ds b2].
  destruct IH as (IH & Hlast2 & Hok2). rewrite Hcfg in IH. cbn.
  split_and!; [|by rewrite Hlast2, Hlast|done].
  unfold admitted_count in *. destruct (allowed d); lia.
Qed.

Lemma foldl_max_le t0 tn times :
  t0 <= tn -> Forall (fun t => t <= tn) times -> foldl Z.max t0 times <= tn.
Proof.
  intros H0 H. revert t0 H0. induction H as [|t times Ht _ IH]; intros t0 H0; cbn; [done|].
  apply IH. lia.
Qed.

Lemma make_TokenBucket_spec config now :
  in_u32 (requests_per_second config) -> in_u32 (burst config) ->
  (limits_ok config /\ make_TokenBucket config now =
     Ok (mkBucket config (burst config * units_per_token) (burst config * units_per_token) now)) \/
  (~ limits_ok config /\ exists what, make_TokenBucket config now = Throw (invalid_argument what)).
Proof.
  unfold in_u32, make_TokenBucket, limits_ok. intros Hr Hb.
  destruct (_ || _)%bool eqn:E; [right|left].
  - split; [|by eexists]. rewrite !orb_true_iff, !Z.eqb_eq, !Z.ltb_lt in E. lia.
  - rewrite !orb_false_iff, !Z.eqb_neq, !Z.ltb_ge in E.
    split; [lia|]. rewrite u64_small; [done|]. unfold in_u64, units_per_token. lia.
Qed.

Lemma retry_is_one b : bucket_ok b -> units_ b < units_per_token ->
  ceil_divide (ceil_divide (units_per_token - units_ b) (requests_per_second (config_ b)))
    units_per_token = 1.
Proof.
  intros ((Hr & _) & _ & Hu & _) Hlt. unfold units_per_token in *.
  destruct (ceil_divide_spec (1000000000 - units_ b) (requests_per_second (config_ b)));
    [lia..|].
  destruct (ceil_divide_spec
    (ceil_divide (1000000000 - units_ b) (requests_per_second (config_ b))) 1000000000);
    [lia..|]. nia.
Qed.

(** What one call must do, in unbounded arithmetic: refill, then take one token
    or refuse; the advised wait is always one second. *)
Definition ideal_acquire (b : TokenBucket) (now : Z) : RateLimitDecision * TokenBucket :=
  let b1 := ideal_refill b now in
  if units_per_token <=? units_ b1
  then (mkDecision true 0,
        mkBucket (config_ b1) (capacity_ b1) (units_ b1 - units_per_token) (last_refill_ b1))
  else (mkDecision false 1, b1).

(** ** Properties *)

(** C21: the 64-bit arithmetic of [TokenBucket::try_acquire] never wraps: on every
    bucket that satisfies the class invariant and at every representable clock
    value, including one that ran backwards, the decision, the [Retry-After] value
    and the new state are those of the unbounded specification, and the invariant
    holds again. *)
Theorem try_acquire_refines_ideal b now :
  bucket_ok b -> in_s64 now ->
  try_acquire b now = ideal_acquire b now /\ bucket_ok (try_acquire b now).2.
Proof.
  intros Hok Hnow. split; [|by apply try_acquire_ok].
  pose proof (refill_ok b now Hok Hnow) as Hok1.
  unfold ideal_acquire. rewrite <- (refill_ideal b now Hok Hnow).
  destruct (try_acquire_cases b now Hok Hnow) as [[H ->]|[H ->]].
  - by rewrite (proj2 (Z.leb_le _ _) H).
  - rewrite (proj2 (Z.leb_gt _ _) H), retry_is_one; done.
Qed.

(** C22: the token-bucket guarantee over a window.  From any invariant state, whatever
    the sequence of calls up to time [tn], the number of admitted requests is at most
    the burst plus the rate times the elapsed time. *)
Theorem rate_bound_window b tn times :
  bucket_ok b -> last_refill_ b <= tn ->
  Forall (fun t => in_s64 t /\ t <= tn) times ->
  admitted_count (run_acquires b times).1 * units_per_token <=
    burst (config_ b) * units_per_token
    + (tn - last_refill_ b) * requests_per_second (config_ b).
Proof.
  intros Hok Htn Ht. apply Forall_and in Ht as [Hs Hle].
  pose proof (run_acquires_potential b times Hok Hs) as Hp.
  destruct (run_acquires b times) as [ds b']. cbn [fst]. destruct Hp as (Hp & Hlast & Hok').
  pose proof (foldl_max_le _ tn times Htn Hle) as Hmax. rewrite <- Hlast in Hmax.
  destruct Hok as ((Hr & _) & Hc & Hu & _). destruct Hok' as (_ & _ & Hu' & _).
  assert (0 <= (tn - last_refill_ b') * requests_per_second (config_ b)) by (apply Z.mul_nonneg_nonneg; lia).
  lia.
Qed.

(** The advice given with a refusal is right and tight: [Retry-After] is one
    second, asking again at the same instant is refused again, and asking once a
    second has passed is admitted. *)
Theorem retry_after_sound b now d b' :
  bucket_ok b -> in_s64 now -> in_s64 (now + 1000000000) -> last_refill_ b <= now ->
  try_acquire b now = (d, b') -> allowed d = false ->
  retry_after_seconds d = 1 /\
  allowed (try_acquire b' now).1 = false /\
  allowed (try_acquire b' (now + 1000000000)).1 = true.
Proof.
  intros Hok Hnow Hnow' Hle Htry Hd.
  pose proof (refill_ok b now Hok Hnow) as Hok1.
  pose proof (last_refill_max b now Hok Hnow) as Hlast. rewrite Z.max_r in Hlast by done.
  destruct (try_acquire_cases b now Hok Hnow) as [[H E]|[H E]]; rewrite E in Htry;
    injection Htry as <- <-; [done|]. split; [by apply retry_is_one|].
  set (b1 := refill b now) in *. unfold units_per_token in *.
  pose proof Hok1 as ((Hr & Hb) & Hc & Hu & Hl). split.
  - destruct (try_acquire_cases b1 now Hok1 Hnow) as [[H2 E2]|[H2 E2]]; rewrite E2; [|done].
    exfalso. rewrite refill_ideal in H2 by done. unfold ideal_refill in H2.
    rewrite Hlast, Z.leb_refl in H2. unfold units_per_token in *. lia.
  - destruct (try_acquire_cases b1 _ Hok1 Hnow') as [[H2 E2]|[H2 E2]]; rewrite E2; [done|].
    exfalso. rewrite refill_ideal in H2 by done. unfold ideal_refill in H2.
    rewrite Hlast in H2. unfold units_per_token in *.
    destruct (now + _ <=? now) eqn:E3; reflect_bools; cbn in H2; nia.
Qed.

(** Admission on one route touches that route's bucket only; a route without a
    limit is always admitted and keeps no state; an index past the table throws. *)
Theorem route_try_acquire_isolated limits i now :
  match route_try_acquire limits i now with
  | Throw e => (length (buckets_ limits) <= i)%nat /\ exists what, e = out_of_range what
  | Ok (d, limits') =>
      length (buckets_ limits') = length (buckets_ limits) /\
      (forall j, j <> i -> buckets_ limits' !! j = buckets_ limits !! j) /\
      match buckets_ limits !! i with
      | Some (Some b) => buckets_ limits' !! i = Some (Some (try_acquire b now).2)
                         /\ d = (try_acquire b now).1
      | Some None => limits' = limits /\ d = default_decision
      | None => False
      end
  end.
Proof.
  destruct limits as [buckets]. unfold route_try_acquire, vec_at. cbn [buckets_].
  destruct (buckets !! i) as [[b|]|] eqn:Hi; cbn.
  - destruct (try_acquire b now) as [d b']; cbn. apply lookup_lt_Some in Hi as Hlt.
    split; [apply length_insert|]. split.
    + intros j Hj. by apply list_lookup_insert_ne.
    + split; [by apply list_lookup_insert_eq|done].
  - done.
  - apply lookup_ge_None in Hi. split; [done|by eexists].
Qed.

(** ** Witnesses *)

(** Two requests per second with a burst of two. *)
Definition sample_bucket : TokenBucket :=
  mkBucket (mkRateLimit 2 2) 2000000000 2000000000 1000.
Definition drained_bucket : TokenBucket := mkBucket (mkRateLimit 2 2) 2000000000 0 1000.

Example sample_bucket_made : make_TokenBucket (mkRateLimit 2 2) 1000 = Ok sample_bucket.
Proof. vm_compute. reflexivity. Qed.

Example sample_run :
  (fun d => allowed d) <$> (run_acquires sample_bucket [1000; 1000; 1000; 400001000; 500001000]).1
  = [true; true; false; false; true].
Proof. vm_compute. reflexivity. Qed.

Lemma try_acquire_refines_ideal_witness :
  try_acquire drained_bucket 9 = ideal_acquire drained_bucket 9 /\
  bucket_ok (try_acquire drained_bucket 9).2.
Proof.
  apply (try_acquire_refines_ideal drained_bucket 9).
  - repeat split; cbn; lia.
  - split; lia.
Defined.

Lemma rate_bound_window_witness :
  admitted_count (run_acquires sample_bucket [1000; 1000; 1000; 500001000]).1 * units_per_token <=
    burst (config_ sample_bucket) * units_per_token
    + (500001000 - last_refill_ sample_bucket) * requests_per_second (config_ sample_bucket).
Proof.
  apply (rate_bound_window sample_bucket 500001000 [1000; 1000; 1000; 500001000]).
  - repeat split; cbn; lia.
  - cbn. lia.
  - repeat constructor; lia.
Defined.

Lemma retry_after_sound_witness :
  retry_after_seconds (mkDecision false 1) = 1 /\
  allowed (try_acquire drained_bucket 1000).1 = false /\
  allowed (try_acquire drained_bucket (1000 + 1000000000)).1 = true.
Proof.
  apply (retry_after_sound drained_bucket 1000 (mkDecision false 1) drained_bucket).
  - repeat split; cbn; lia.
  - split; lia.
  - split; lia.
  - cbn. lia.
  - vm_compute. reflexivity.
  - reflexivity.
Defined.
