(* ===== verification/Permits.v ===== *)
(** * Capacity ledgers and move-only permits: the shared interface

    Two parts of the program lend capacity through move-only permit objects:
    [BufferBudgetState]/[BufferBudgetPermit] (bytes) and
    [ProxyAdmissionState]/[ProxyPermit] (one slot each).  A permit points to the
    shared control block it was taken from, or to nothing.  The interface
    [Ledger] names the operations, [LedgerLaws] what an implementation promises,
    and this file proves once, against the interface, that acquiring, moving and
    releasing permits keep the books balanced. *)

From S2P Require Import Prelude.

Local Open Scope Z_scope.

(** [C] is the control block, [P] the permit; control blocks live in a heap [list C]
    and a permit names its block by its index there. *)
Class Ledger (C P : Type) := {
  ld_level : C -> Z;
  ld_limit : C -> Z;
  ld_owner : P -> option nat;
  ld_amount : P -> Z;
  ld_empty : P;
  ld_valid : Z -> Prop;        (* the sizes a caller may request *)
  ld_limit_ok : Z -> Prop;     (* the limits a block may be created with *)
  ld_release : list C -> P -> list C * P;
  ld_acquire : list C -> nat -> Z -> list C * option P }.

(** What permit [p] holds of control block [c]. *)
Definition contrib `{Ledger C P} (c : nat) (p : P) : Z :=
  if decide (ld_owner p = Some c) then ld_amount p else 0.

(** [h'] is [h] with the level of each block changed by [delta]. *)
Definition shifted `{Ledger C P} (h h' : list C) (delta : nat -> Z) : Prop :=
  length h' = length h /\
  forall c k', h' !! c = Some k' ->
    exists k, h !! c = Some k /\ ld_level k' = ld_level k + delta c /\ ld_limit k' = ld_limit k.

Class LedgerLaws (C P : Type) `{Ledger C P} := {
  ld_empty_owner : ld_owner ld_empty = None;
  ld_empty_amount : ld_amount ld_empty = 0;
  ld_release_law h p :
    0 <= ld_amount p ->
    (forall c k, ld_owner p = Some c -> h !! c = Some k ->
       ld_amount p <= ld_level k <= ld_limit k /\ ld_limit_ok (ld_limit k)) ->
    (ld_owner p = None -> ld_amount p = 0) ->
    shifted h (ld_release h p).1 (fun c => - contrib c p) /\ (ld_release h p).2 = ld_empty;
  ld_acquire_law h c k n :
    h !! c = Some k -> 0 <= ld_level k <= ld_limit k -> ld_limit_ok (ld_limit k) ->
    ld_valid n ->
    match (ld_acquire h c n).2 with
    | Some p =>
        ld_level k + n <= ld_limit k /\ 0 <= n /\
        ld_owner p = Some c /\ ld_amount p = n /\
        shifted h (ld_acquire h c n).1 (fun c' => contrib c' p)
    | None => ld_limit k < ld_level k + n /\ (ld_acquire h c n).1 = h
    end }.

Section Accounting.
Context {C P : Type} `{LedgerLaws C P}.
  Implicit Types (h : list C) (ps : list P) (p : P).

Definition permit_wf h p : Prop :=
    0 <= ld_amount p /\
    (ld_owner p = None -> ld_amount p = 0) /\
    (forall c, ld_owner p = Some c -> (c < length h)%nat).

  (** The books: each block's level is exactly what the permits hold of it, within
      the limit, and each permit is well formed. *)
Definition accounted h ps : Prop :=
    (forall c k, h !! c = Some k ->
       ld_level k = sumZ (contrib c) ps /\ ld_level k <= ld_limit k /\
       ld_limit_ok (ld_limit k)) /\
    Forall (permit_wf h) ps.

Lemma contrib_nonneg h c p : permit_wf h p -> 0 <= contrib c p.
Proof. intros (? & _). unfold contrib. case_decide; lia. Qed.

Lemma contrib_empty c : contrib c ld_empty = 0.
Proof. unfold contrib. rewrite ld_empty_owner. by case_decide. Qed.

Lemma permit_wf_empty h : permit_wf h ld_empty.
Proof.
    unfold permit_wf. rewrite ld_empty_owner, ld_empty_amount. split_and!; [lia|done|done].
  Qed.

Lemma contrib_le_level h ps i p c k :
    accounted h ps -> ps !! i = Some p -> h !! c = Some k -> contrib c p <= ld_level k.
Proof.
    intros [Hh Hw] Hi Hk. destruct (Hh c k Hk) as (-> & _).
    apply (sumZ_elem_le (contrib c) ps i p); [|done].
    intros q Hq. eapply contrib_nonneg. rewrite Forall_forall in Hw. by apply Hw.
  Qed.

Lemma shifted_wf h h' d p : shifted h h' d -> permit_wf h p -> permit_wf h' p.
Proof. intros [Hl _] (? & ? & ?). unfold permit_wf. by rewrite Hl. Qed.

Lemma shifted_trans h1 h2 h3 d1 d2 :
    shifted h1 h2 d1 -> shifted h2 h3 d2 -> shifted h1 h3 (fun c => d1 c + d2 c).
Proof.
    intros [L1 S1] [L2 S2]. split; [congruence|]. intros c k3 H3.
    destruct (S2 c k3 H3) as (k2 & H2 & E2 & M2). destruct (S1 c k2 H2) as (k1 & H1' & E1 & M1).
    exists k1. split_and!; [done|lia|congruence].
  Qed.

  (** Replacing one permit keeps the books balanced when the heap moved by the
      difference of what the old and the new permit hold. *)
Lemma accounted_replace h h' ps i p p' d :
    accounted h ps -> ps !! i = Some p ->
    shifted h h' d -> (forall c, d c = contrib c p' - contrib c p) ->
    permit_wf h' p' ->
    (forall c k, h !! c = Some k -> ld_level k + d c <= ld_limit k) ->
    accounted h' (<[i := p']> ps).
Proof.
    intros [Hh Hw] Hi Hs Hd Hp' Hlim. pose proof Hs as [Hl Hsh]. split.
    - intros c k' Hk'. destruct (Hsh c k' Hk') as (k & Hk & -> & ->).
      destruct (Hh c k Hk) as (E & _ & Hok). split; [|split; [by apply Hlim|done]].
      rewrite (sumZ_insert _ _ _ _ _ Hi), E, Hd. lia.
    - apply Forall_insert; [|done]. eapply Forall_impl; [exact Hw|].
      intros q. by apply shifted_wf with d.
  Qed.

Lemma release_shifted h ps i p :
    accounted h ps -> ps !! i = Some p ->
    shifted h (ld_release h p).1 (fun c => - contrib c p) /\ (ld_release h p).2 = ld_empty.
Proof.
    intros Hacc Hi. pose proof Hacc as [Hh Hw].
    destruct (Forall_lookup_1 _ _ _ _ Hw Hi) as (Ha & Hn & Hc).
    apply ld_release_law; [done| |done]. intros c k Ho Hk.
    pose proof (contrib_le_level h ps i p c k Hacc Hi Hk) as Hle.
    unfold contrib in Hle. rewrite decide_True in Hle by done.
    by destruct (Hh c k Hk) as (_ & ? & ?).
  Qed.

  (** Releasing (explicitly or by destruction) the permit in slot [i]. *)
Lemma release_accounted h ps i p :
    accounted h ps -> ps !! i = Some p ->
    accounted (ld_release h p).1 (<[i := (ld_release h p).2]> ps).
Proof.
    intros Hacc Hi. destruct (release_shifted h ps i p Hacc Hi) as [Hs ->].
    eapply accounted_replace; [done|done|exact Hs| |apply permit_wf_empty|].
    - intros c. rewrite contrib_empty. lia.
    - intros c k Hk. destruct Hacc as [Hh Hw]. destruct (Hh c k Hk) as (_ & ? & _).
      pose proof (contrib_nonneg h c p (Forall_lookup_1 _ _ _ _ Hw Hi)). lia.
  Qed.

  (** Moving permit [src] over the empty slot [dst]. *)
Lemma move_accounted h ps dst src p :
    accounted h ps -> dst <> src -> ps !! src = Some p -> ps !! dst = Some ld_empty ->
    accounted h (<[src := ld_empty]> (<[dst := p]> ps)).
Proof.
    intros [Hh Hw] Hne Hsrc Hdst. split.
    - intros c k Hk. destruct (Hh c k Hk) as [-> Hle]. split; [|done].
      rewrite (sumZ_insert _ _ src p) by (by rewrite list_lookup_insert_ne).
      rewrite (sumZ_insert _ _ dst _ _ Hdst), contrib_empty. lia.
    - apply Forall_insert; [apply Forall_insert; [done|]|apply permit_wf_empty].
      by apply (Forall_lookup_1 _ _ _ _ Hw Hsrc).
  Qed.

  (** Move assignment between distinct permits: the target releases first. *)
Lemma assign_accounted h ps dst src p q :
    accounted h ps -> dst <> src -> ps !! dst = Some p -> ps !! src = Some q ->
    accounted (ld_release h p).1 (<[src := ld_empty]> (<[dst := q]> ps)).
Proof.
    intros Hacc Hne Hdst Hsrc. pose proof (release_accounted h ps dst p Hacc Hdst) as Hr.
    destruct (release_shifted h ps dst p Hacc Hdst) as [_ E]. rewrite E in Hr.
    replace (<[dst:=q]> ps) with (<[dst:=q]> (<[dst:=ld_empty]> ps))
      by apply list_insert_insert_eq.
    apply (move_accounted _ _ dst src q Hr Hne).
    - by rewrite list_lookup_insert_ne.
    - apply list_lookup_insert_eq. by apply lookup_lt_Some in Hdst.
  Qed.

  (** An extra empty permit (a temporary) does not change the books. *)
Lemma accounted_snoc_empty h ps : accounted h (ps ++ [ld_empty]) <-> accounted h ps.
Proof.
    assert (E : forall c, sumZ (contrib c) (ps ++ [ld_empty]) = sumZ (contrib c) ps).
    { intros c. rewrite sumZ_app. cbn. rewrite contrib_empty. lia. }
    unfold accounted. rewrite Forall_app, Forall_singleton. setoid_rewrite E.
    split; intros [? ?]; split; try tauto. split; [tauto|apply permit_wf_empty].
  Qed.

  (** A successful acquisition stored in the empty slot [dst]; a refused one changes
      nothing. *)
Lemma acquire_accounted h ps c k n dst :
    accounted h ps -> h !! c = Some k -> ps !! dst = Some ld_empty -> ld_valid n ->
    match (ld_acquire h c n).2 with
    | Some p => accounted (ld_acquire h c n).1 (<[dst := p]> ps)
    | None => (ld_acquire h c n).1 = h
    end.
Proof.
    intros Hacc Hk Hdst Hv. pose proof Hacc as [Hh Hw].
    assert (Hr : 0 <= ld_level k <= ld_limit k).
    { destruct (Hh c k Hk) as (E & ? & _). split; [|done]. rewrite E. apply sumZ_nonneg.
      intros q Hq. rewrite Forall_forall in Hw. by apply (contrib_nonneg h), Hw. }
    destruct (Hh c k Hk) as (_ & _ & Hok).
    pose proof (ld_acquire_law h c k n Hk Hr Hok Hv) as Hlaw.
    destruct (ld_acquire h c n) as [h' [p|]]; cbn [fst snd] in *; [|by destruct Hlaw].
    destruct Hlaw as (Hfit & Hn & Ho & Ha & Hs).
    eapply accounted_replace; [done|done|exact Hs| | |].
    - intros c'. rewrite contrib_empty. lia.
    - destruct Hs as [Hl _]. unfold permit_wf. rewrite Ho, Ha, Hl. split_and!; [done|done|].
      intros c' [= <-]. by apply lookup_lt_Some in Hk.
    - intros c' k' Hk'. destruct (Hh c' k' Hk') as (_ & ? & _). unfold contrib. rewrite Ho, Ha.
      case_decide as E; [|lia]. injection E as <-. assert (k' = k) as -> by congruence. lia.
  Qed.

Lemma contrib_unowned c ps : Forall (fun p => ld_owner p = None) ps -> sumZ (contrib c) ps = 0.
Proof.
    induction 1 as [|p ps Hp _ IH]; cbn; [done|]. rewrite IH. unfold contrib. rewrite Hp.
    by case_decide.
  Qed.

  (** A temporary takes the acquisition and is then moved over slot [dst], whose old
      contents are released after the new ones were obtained. *)
Lemma acquire_assign_accounted h ps c k n dst p :
    accounted h ps -> h !! c = Some k -> ps !! dst = Some p -> ld_valid n ->
    match (ld_acquire h c n).2 with
    | Some q => accounted (ld_release (ld_acquire h c n).1 p).1 (<[dst := q]> ps)
    | None => (ld_acquire h c n).1 = h
    end.
Proof.
    intros Hacc Hk Hdst Hv. pose proof (lookup_lt_Some _ _ _ Hdst) as Hlt.
    assert (Htmp : (ps ++ [ld_empty]) !! length ps = Some ld_empty) by (by apply list_lookup_middle).
    pose proof (acquire_accounted h (ps ++ [ld_empty]) c k n (length ps)
      (proj2 (accounted_snoc_empty h ps) Hacc) Hk Htmp Hv) as Ha.
    destruct (ld_acquire h c n) as [h' [q|]]; cbn [fst snd] in *; [|done].
    rewrite insert_app_r_alt, Nat.sub_diag in Ha by lia. cbn in Ha.
    assert (Hd : (ps ++ [q]) !! dst = Some p) by (by rewrite lookup_app_l).
    assert (Hq : (ps ++ [q]) !! length ps = Some q) by (by apply list_lookup_middle).
    pose proof (assign_accounted _ _ dst (length ps) p q Ha ltac:(lia) Hd Hq) as Hb.
    rewrite insert_app_l in Hb by done.
    rewrite insert_app_r_alt in Hb by (rewrite length_insert; lia).
    rewrite length_insert, Nat.sub_diag in Hb.
    by apply (accounted_snoc_empty _ (<[dst:=q]> ps)).
  Qed.

  (** Permits not yet handed out hold nothing: the books of a fresh heap balance. *)
Lemma fresh_accounted h n :
    Forall (fun k => ld_level k = 0 /\ 0 <= ld_limit k /\ ld_limit_ok (ld_limit k)) h -> accounted h (replicate n ld_empty).
Proof.
    intros Hh. split.
    - intros c k Hk. destruct (Forall_lookup_1 _ _ _ _ Hh Hk) as [-> ?]. split; [|done].
      symmetry. apply contrib_unowned, Forall_replicate, ld_empty_owner.
    - apply Forall_replicate, permit_wf_empty.
  Qed.

  (** Once no permit owns anything, every block is back at zero. *)
Lemma all_released_zero h ps :
    accounted h ps -> Forall (fun p => ld_owner p = None) ps ->
    Forall (fun k => ld_level k = 0) h.
Proof.
    intros [Hh _] Hps. apply Forall_lookup_2. intros c k Hk.
    destruct (Hh c k Hk) as [-> _]. by apply contrib_unowned.
  Qed.

Lemma level_bounds h ps c k :
    accounted h ps -> h !! c = Some k -> 0 <= ld_level k <= ld_limit k.
Proof.
    intros [Hh Hw] Hk. destruct (Hh c k Hk) as (E & ? & _). split; [|done]. rewrite E.
    apply sumZ_nonneg. intros q Hq. rewrite Forall_forall in Hw. by apply (contrib_nonneg h), Hw.
  Qed.
End Accounting.

(** ** One block among many holders

    The holders are spread over objects of their own; what one of them does is judged
    against the sum of what all the others hold. *)

Section Account.
Context {C P : Type} `{LedgerLaws C P} (c : nat) (limit : Z).
Implicit Types (h : list C) (p : P) (n : Z).

(** The level of the block is [n]. *)
Definition account h n : Prop :=
  exists k, h !! c = Some k /\ ld_level k = n /\ ld_limit k = limit /\ 0 <= n <= limit /\ ld_limit_ok limit.

(** A permit of the block, or an empty one. *)
Definition lent p : Prop :=
  0 <= ld_amount p /\ (ld_owner p = Some c \/ ld_owner p = None /\ ld_amount p = 0).

Lemma lent_empty : lent ld_empty.
Proof. unfold lent. rewrite ld_empty_owner, ld_empty_amount. split; [lia|by right]. Qed.

Lemma account_range h n : account h n -> 0 <= n <= limit.
Proof. by intros (k & _ & _ & _ & Hr & _). Qed.

Lemma account_level h n : account h n -> ld_level <$> h !! c = Some n.
Proof. by intros (k & -> & <- & _). Qed.

Lemma lent_contrib p : lent p -> contrib c p = ld_amount p.
Proof.
  intros [_ [E|[E Ez]]]; unfold contrib; rewrite E; [by rewrite decide_True|]. by rewrite decide_False, Ez.
Qed.

Lemma account_shifted h h' n d :
  account h n -> shifted h h' d -> 0 <= n + d c <= limit -> account h' (n + d c).
Proof.
  intros (k & Hk & <- & Hl & Hr & Hok) [El Hs] Hn.
  destruct (lookup_lt_is_Some_2 h' c) as [k' Hk']; [rewrite El; by eapply lookup_lt_Some|].
  destruct (Hs c k' Hk') as (k0 & Hk0 & E1 & E2). assert (k0 = k) as -> by congruence.
  exists k'. split_and!; try done; try congruence; lia.
Qed.

Lemma account_release h p n : lent p -> 0 <= n -> account h (ld_amount p + n) -> account (ld_release h p).1 n.
Proof.
  intros Hp Hn Ha. pose proof Ha as (k & Hk & Hlev & Hlim & Hr & Hok). pose proof Hp as [Hz Ho].
  destruct (ld_release_law h p Hz) as [Hs _].
  - intros c' k' Ec Ek. destruct Ho as [Eo|[Eo _]]; [|congruence]. assert (c' = c) as -> by congruence.
    assert (k' = k) as -> by congruence. rewrite Hlev, Hlim. split; [lia|done].
  - intros E. destruct Ho as [Eo|[_ E0]]; [congruence|done].
  - apply (account_shifted _ _ _ _ Ha) in Hs; cbv beta in *; rewrite (lent_contrib p Hp) in *; [|lia].
    by replace (ld_amount p + n + - ld_amount p) with n in Hs by lia.
Qed.

Lemma account_acquire h n amount :
  account h n -> ld_valid amount ->
  match (ld_acquire h c amount).2 with
  | Some p => lent p /\ account (ld_acquire h c amount).1 (ld_amount p + n)
  | None => (ld_acquire h c amount).1 = h
  end.
Proof.
  intros Ha Hv. pose proof Ha as (k & Hk & Hlev & Hlim & Hr & Hok).
  pose proof (ld_acquire_law h c k amount Hk) as Hlaw. rewrite Hlev, Hlim in Hlaw. specialize (Hlaw Hr Hok Hv).
  destruct (ld_acquire h c amount) as [h' [p|]]; cbn [fst snd] in *; [|by destruct Hlaw].
  destruct Hlaw as (Hfit & Hn & Ho & Hp & Hs).
  assert (Hlent : lent p) by (split; [lia|by left]). split; [done|].
  apply (account_shifted _ _ _ _ Ha) in Hs; cbv beta in *; rewrite (lent_contrib p Hlent) in *; [|lia].
  by replace (ld_amount p + n) with (n + ld_amount p) by lia.
Qed.

End Account.
