(* ===== verification/BufferBudget.v ===== *)
(** * The in-flight body budget (src/buffer_budget.hpp, src/buffer_budget.cpp)

    [BufferBudgetControl] is the shared counter, [BufferBudgetPermit] a move-only
    reservation.  Control blocks live in a heap (a list); a permit's [control_] is a
    heap index, [None] for a null [shared_ptr].  The operations are those of the
    source with their defensive guards; [BudgetWorld] puts a heap and the permit
    variables of the program together and runs sequences of operations. *)

From S2P Require Import Prelude Permits.

Local Open Scope Z_scope.

(** ** Data *)

Record BufferBudgetControl := mkControl {
  max_bytes : Z;
  current_bytes : Z }.

Record BufferBudgetPermit := mkBudgetPermit {
  control_ : option nat;
  bytes_ : Z }.

(** [BufferBudgetPermit()] *)
Definition empty_BudgetPermit : BufferBudgetPermit := mkBudgetPermit None 0.

(** ** How much of a body to reserve *)

Inductive BodyReservationKind := reserve_none | reserve | too_large.

Record BodyReservationPlan := mkPlan {
  plan_kind : BodyReservationKind;
  plan_bytes : Z }.

Definition plan_body_reservation (content_length : option Z) (message_complete : bool)
    (body_limit : Z) : BodyReservationPlan :=
  if message_complete then mkPlan reserve_none 0
  else match content_length with
       | Some n => if body_limit <? n then mkPlan too_large 0 else mkPlan reserve n
       | None => mkPlan reserve body_limit
       end.

(** ** Permits *)

Definition release (heap : list BufferBudgetControl) (p : BufferBudgetPermit)
    : list BufferBudgetControl * BufferBudgetPermit :=
  match control_ p with
  | None => (heap, p)
  | Some c =>
      let heap' :=
        match heap !! c with
        | Some k =>
            if bytes_ p <=? current_bytes k
            then <[c := mkControl (max_bytes k) (u64 (current_bytes k - bytes_ p))]> heap
            else heap
        | None => heap
        end in
      (heap', mkBudgetPermit None 0)
  end.

(** [BufferBudgetPermit(BufferBudgetPermit&& other)]: (new object, moved-from). *)
Definition move_construct (other : BufferBudgetPermit)
    : BufferBudgetPermit * BufferBudgetPermit :=
  (mkBudgetPermit (control_ other) (bytes_ other), mkBudgetPermit None 0).

(** [operator=(BufferBudgetPermit&&)] between two distinct objects; assigning an
    object to itself does nothing (the [this != &other] guard). *)
Definition move_assign (heap : list BufferBudgetControl) (this other : BufferBudgetPermit)
    : list BufferBudgetControl * BufferBudgetPermit * BufferBudgetPermit :=
  let '(heap', _) := release heap this in
  (heap', mkBudgetPermit (control_ other) (bytes_ other), mkBudgetPermit None 0).

(** Returns the new state and whether the permit was shrunk. *)
Definition shrink_to (heap : list BufferBudgetControl) (p : BufferBudgetPermit) (bytes : Z)
    : list BufferBudgetControl * BufferBudgetPermit * bool :=
  match control_ p with
  | None => (heap, p, false)
  | Some c =>
      if bytes_ p <? bytes then (heap, p, false)
      else
        let released_bytes := u64 (bytes_ p - bytes) in
        match heap !! c with
        | Some k =>
            if current_bytes k <? released_bytes then (heap, p, false)
            else (<[c := mkControl (max_bytes k) (u64 (current_bytes k - released_bytes))]> heap,
                  mkBudgetPermit (control_ p) bytes, true)
        | None => (heap, p, false)
        end
  end.

Definition owns_reservation (p : BufferBudgetPermit) : bool :=
  match control_ p with Some _ => true | None => false end.

Definition reserved_bytes (p : BufferBudgetPermit) : Z := bytes_ p.

(** ** BufferBudgetState *)

(** The constructor allocates the control block. *)
Definition make_BufferBudgetState (heap : list BufferBudgetControl) (limit : Z)
    : list BufferBudgetControl * nat :=
  (heap ++ [mkControl limit 0], length heap).

Definition budget_try_acquire (heap : list BufferBudgetControl) (state : nat) (bytes : Z)
    : list BufferBudgetControl * option BufferBudgetPermit :=
  match heap !! state with
  | None => (heap, None)
  | Some k =>
      if u64 (max_bytes k - current_bytes k) <? bytes then (heap, None)
      else (<[state := mkControl (max_bytes k) (u64 (current_bytes k + bytes))]> heap,
            Some (mkBudgetPermit (Some state) bytes))
  end.

Definition budget_current_bytes (heap : list BufferBudgetControl) (state : nat) : option Z :=
  current_bytes <$> heap !! state.
Definition budget_max_bytes (heap : list BufferBudgetControl) (state : nat) : option Z :=
  max_bytes <$> heap !! state.

(** ** The budget as a ledger *)

(** Limits and requests are [uint64_t] values. *)
#[export] Instance budget_ledger : Ledger BufferBudgetControl BufferBudgetPermit := {
  ld_level := current_bytes;
  ld_limit := max_bytes;
  ld_owner := control_;
  ld_amount := bytes_;
  ld_empty := empty_BudgetPermit;
  ld_valid := in_u64;
  ld_limit_ok := in_u64;
  ld_release := release;
  ld_acquire := budget_try_acquire }.

Lemma shifted_insert (h : list BufferBudgetControl) c k k' :
  h !! c = Some k -> max_bytes k' = max_bytes k ->
  shifted h (<[c := k']> h)
    (fun c' => if decide (c' = c) then current_bytes k' - current_bytes k else 0).
Proof.
  intros Hk Hm. split; [apply length_insert|]. intros c' x Hx.
  destruct (decide (c' = c)) as [->|Hne].
  - rewrite list_lookup_insert_eq in Hx by (by apply lookup_lt_Some in Hk).
    injection Hx as <-. exists k. cbn. split_and!; [done|lia|done].
  - rewrite list_lookup_insert_ne in Hx by done. exists x. cbn. split_and!; [done|lia|done].
Qed.

Lemma shifted_ext (h h' : list BufferBudgetControl) d d' :
  (forall c, d c = d' c) -> shifted h h' d -> shifted h h' d'.
Proof.
  intros E [Hl Hs]. split; [done|]. intros c k' Hk'. rewrite <- E. by apply Hs.
Qed.

Lemma shifted_same (h : list BufferBudgetControl) d :
  (forall c, (c < length h)%nat -> d c = 0) -> shifted h h d.
Proof.
  intros Hd. split; [done|]. intros c k Hk. exists k. rewrite Hd; [|by apply lookup_lt_Some in Hk].
  split_and!; [done|lia|done].
Qed.

#[export] Instance budget_ledger_laws :
  LedgerLaws BufferBudgetControl BufferBudgetPermit.
Proof.
  split.
  - done.
  - done.
  - intros h [[c|] n]; cbn; intros Hn Hc H0.
    2:{ rewrite H0 by done. split; [|done]. apply shifted_same. intros c _.
        unfold contrib; cbn. by case_decide. }
    split; [|done]. unfold release; cbn. destruct (h !! c) as [k|] eqn:Hk; cbn.
    + destruct (Hc c k eq_refl Hk) as [Hle Hok]. unfold in_u64 in Hok.
      rewrite (proj2 (Z.leb_le _ _)) by lia. rewrite u64_small by (unfold in_u64; lia).
      eapply shifted_ext; [|by apply shifted_insert]. intros c'. unfold contrib; cbn.
      do 2 case_decide; simplify_eq; lia.
    + apply shifted_same. intros c' Hc'. unfold contrib; cbn. case_decide; [|done].
      simplify_eq. apply lookup_ge_None in Hk. lia.
  - intros h c k n Hk Hr Hok Hv. cbn in *. unfold in_u64 in *.
    unfold budget_try_acquire. rewrite Hk. rewrite u64_small by (unfold in_u64; lia).
    destruct (_ <? n) eqn:E; reflect_bools; cbn; [split; [lia|done]|].
    rewrite u64_small by (unfold in_u64; lia). split_and!; [lia|lia|done|done|].
    eapply shifted_ext; [|by apply shifted_insert]. intros c'. unfold contrib; cbn.
    do 2 case_decide; simplify_eq; lia.
Qed.

(** ** Running the program's operations on permit variables *)

Record BudgetWorld := mkBudgetWorld {
  controls : list BufferBudgetControl;
  permits : list BufferBudgetPermit }.

Inductive BudgetOp :=
  | OpAcquire (state : nat) (bytes : Z) (slot : nat)
      (* [if (auto p = state.try_acquire(bytes)) slot = std::move(p value)] *)
  | OpShrink (slot : nat) (bytes : Z)
  | OpRelease (slot : nat)             (* [slot.release()], or its destructor *)
  | OpMove (dst src : nat).            (* [dst = std::move(src)] *)

Definition budget_step (w : BudgetWorld) (op : BudgetOp) : BudgetWorld :=
  match op with
  | OpAcquire state bytes slot =>
      match permits w !! slot, budget_try_acquire (controls w) state bytes with
      | Some old, (heap, Some fresh) =>
          let '(heap', new, _) := move_assign heap old fresh in
          mkBudgetWorld heap' (<[slot := new]> (permits w))
      | _, _ => w
      end
  | OpShrink slot bytes =>
      match permits w !! slot with
      | Some p => let '(heap, p', _) := shrink_to (controls w) p bytes in
                  mkBudgetWorld heap (<[slot := p']> (permits w))
      | None => w
      end
  | OpRelease slot =>
      match permits w !! slot with
      | Some p => let '(heap, p') := release (controls w) p in
                  mkBudgetWorld heap (<[slot := p']> (permits w))
      | None => w
      end
  | OpMove dst src =>
      match permits w !! dst, permits w !! src with
      | Some this, Some other =>
          if decide (dst = src) then w
          else let '(heap, this', other') := move_assign (controls w) this other in
               mkBudgetWorld heap (<[src := other']> (<[dst := this']> (permits w)))
      | _, _ => w
      end
  end.

Definition budget_op_ok (op : BudgetOp) : Prop :=
  match op with
  | OpAcquire _ bytes _ | OpShrink _ bytes => in_u64 bytes
  | _ => True
  end.

(** One control block per limit, and [n] default-constructed permit variables. *)
Definition fresh_world (limits : list Z) (n : nat) : BudgetWorld :=
  mkBudgetWorld ((fun m => mkControl m 0) <$> limits) (replicate n empty_BudgetPermit).

Definition run_budget (w : BudgetWorld) (ops : list BudgetOp) : BudgetWorld :=
  foldl budget_step w ops.

Lemma release_eq h p : (release h p).2 = empty_BudgetPermit \/ control_ p = None.
Proof. destruct p as [[c|] n]; cbn; [by left|by right]. Qed.

Lemma permit_eta (p : BufferBudgetPermit) : mkBudgetPermit (control_ p) (bytes_ p) = p.
Proof. by destruct p. Qed.

Lemma shrink_accounted h ps i p n :
  accounted h ps -> ps !! i = Some p -> in_u64 n ->
  accounted (shrink_to h p n).1.1 (<[i := (shrink_to h p n).1.2]> ps).
Proof.
  intros Hacc Hi Hn. unfold shrink_to.
  destruct (control_ p) as [c|] eqn:Hc; cbn; [|by rewrite list_insert_id].
  destruct (bytes_ p <? n) eqn:En; cbn; reflect_bools; [by rewrite list_insert_id|].
  destruct (h !! c) as [k|] eqn:Hk; cbn; [|by rewrite list_insert_id].
  pose proof (contrib_le_level h ps i p c k Hacc Hi Hk) as Hle.
  unfold contrib in Hle; cbn in Hle. rewrite decide_True in Hle by done.
  pose proof (proj1 Hacc c k Hk) as (_ & Hm & Hok). cbn in Hm, Hok. unfold in_u64 in *.
  rewrite (u64_small (bytes_ p - n)) by (unfold in_u64; lia).
  rewrite (proj2 (Z.ltb_ge _ _)) by lia. rewrite u64_small by (unfold in_u64; lia). cbn.
  eapply accounted_replace; [done|done|by apply shifted_insert| | |].
  - intros c'. unfold contrib; cbn. rewrite Hc. do 2 case_decide; simplify_eq; lia.
  - pose proof (Forall_lookup_1 _ _ _ _ (proj2 Hacc) Hi) as (_ & _ & Hlt).
    unfold permit_wf in *; cbn in *. split_and!; [lia|congruence|].
    intros c' Hc'. rewrite length_insert. apply Hlt. congruence.
  - intros c' k' Hk'. pose proof (proj1 Hacc c' k' Hk') as (_ & Hm' & _). cbn in *.
    case_decide; subst; [|lia]. assert (k' = k) as -> by congruence. lia.
Qed.

Lemma budget_step_accounted w op :
  accounted (controls w) (permits w) -> budget_op_ok op ->
  accounted (controls (budget_step w op)) (permits (budget_step w op)).
Proof.
  intros Hacc Hop. destruct op as [c n i|i n|i|dst src]; cbn in *.
  - destruct (permits w !! i) as [p|] eqn:Hi; [|done].
    destruct (controls w !! c) as [k|] eqn:Hk.
    2:{ unfold budget_try_acquire. by rewrite Hk. }
    pose proof (acquire_assign_accounted (controls w) (permits w) c k n i p Hacc Hk Hi Hop) as H.
    cbn in H. destruct (budget_try_acquire _ _ _) as [h [q|]]; [|done]. cbn in H.
    unfold move_assign. destruct (release h p) as [h' p'] eqn:Hr; cbn in *.
    by rewrite permit_eta.
  - destruct (permits w !! i) as [p|] eqn:Hi; [|done].
    pose proof (shrink_accounted _ _ _ _ n Hacc Hi Hop) as H.
    by destruct (shrink_to _ _ _) as [[h p'] b].
  - destruct (permits w !! i) as [p|] eqn:Hi; [|done].
    pose proof (release_accounted _ _ _ _ Hacc Hi) as H. cbn in H.
    by destruct (release _ _) as [h p'].
  - destruct (permits w !! dst) as [p|] eqn:Hd; [|done].
    destruct (permits w !! src) as [q|] eqn:Hs; [|done].
    destruct (decide (dst = src)) as [|Hne]; [done|].
    pose proof (assign_accounted _ _ _ _ _ _ Hacc Hne Hd Hs) as H. cbn in H.
    unfold move_assign. destruct (release _ _) as [h p']; cbn in *. by rewrite permit_eta.
Qed.

Lemma run_budget_accounted w ops :
  accounted (controls w) (permits w) -> Forall budget_op_ok ops ->
  accounted (controls (run_budget w ops)) (permits (run_budget w ops)).
Proof.
  intros Hacc Hops. revert w Hacc. induction Hops as [|op ops Hop _ IH]; intros w Hacc; [done|].
  apply (IH (budget_step w op)). by apply budget_step_accounted.
Qed.

Lemma fresh_world_accounted limits n :
  Forall in_u64 limits ->
  accounted (controls (fresh_world limits n)) (permits (fresh_world limits n)).
Proof.
  intros H. unfold fresh_world; cbn [controls permits].
  refine (fresh_accounted (C := BufferBudgetControl) (P := BufferBudgetPermit) _ n _).
  apply Forall_fmap. eapply Forall_impl; [exact H|]. intros m Hm. cbn. unfold in_u64 in *. lia.
Qed.

(** ** Properties *)

(** The budget's books always balance.  Starting from fresh budgets, after any
    sequence of acquisitions, shrinks, moves, releases and destructions of any number
    of permit variables, the bytes a budget counts are exactly the bytes its live
    permits hold, they are never above the limit, and when no permit is left holding
    the budget it counts zero: nothing leaks and nothing is returned twice. *)
Theorem budget_books_balance limits n ops c k :
  Forall in_u64 limits -> Forall budget_op_ok ops ->
  let w := run_budget (fresh_world limits n) ops in
  controls w !! c = Some k ->
  current_bytes k =
    sumZ (fun p => if decide (control_ p = Some c) then bytes_ p else 0) (permits w) /\
  0 <= current_bytes k <= max_bytes k /\
  (Forall (fun p => control_ p <> Some c) (permits w) -> current_bytes k = 0).
Proof.
  intros Hl Hops w Hk.
  pose proof (run_budget_accounted _ ops (fresh_world_accounted limits n Hl) Hops) as Hacc.
  fold w in Hacc. pose proof (level_bounds _ _ _ _ Hacc Hk) as Hb.
  destruct (proj1 Hacc c k Hk) as (E & _). cbn in *. split_and!; [done|lia|lia|].
  intros Hnone. rewrite E. clear -Hnone. induction Hnone as [|p ps Hp _ IH]; cbn; [done|].
  rewrite IH. unfold contrib; cbn. by rewrite decide_False.
Qed.

(** While the books balance, acquiring succeeds exactly when the request fits in
    what is left, and then reserves exactly the request; otherwise the state is
    unchanged. *)
Theorem budget_acquire_exact heap ps c k n :
  accounted heap ps -> heap !! c = Some k -> in_u64 n ->
  if decide (current_bytes k + n <= max_bytes k) then
    budget_try_acquire heap c n =
      (<[c := mkControl (max_bytes k) (current_bytes k + n)]> heap,
       Some (mkBudgetPermit (Some c) n))
  else budget_try_acquire heap c n = (heap, None).
Proof.
  intros Hacc Hk Hn. pose proof (level_bounds _ _ _ _ Hacc Hk) as Hb.
  pose proof (proj1 Hacc c k Hk) as (_ & _ & Hok). cbn in *. unfold in_u64 in *.
  unfold budget_try_acquire. rewrite Hk, u64_small by (unfold in_u64; lia).
  case_decide.
  - rewrite (proj2 (Z.ltb_ge _ _)) by lia. rewrite u64_small; [done|]. unfold in_u64; lia.
  - by rewrite (proj2 (Z.ltb_lt _ _)) by lia.
Qed.

(** A body that respects the limits always fits its reservation.  When the plan
    asks for a reservation and it is granted, the reservation is within the body
    limit, and shrinking it to the size the parser finally delivered succeeds, leaves
    exactly that size reserved, and returns the rest: the "budget shrink failed" path
    of the session cannot be taken. *)
Theorem planned_reservation_shrinks heap ps c k content_length limit permit slot actual :
  let plan := plan_body_reservation content_length false limit in
  accounted heap ps -> heap !! c = Some k -> in_u64 limit ->
  (forall n, content_length = Some n -> in_u64 n /\ actual = n) ->
  0 <= actual <= limit ->
  plan_kind plan = reserve ->
  ps !! slot = Some permit -> permit = mkBudgetPermit (Some c) (plan_bytes plan) ->
  plan_bytes plan <= limit /\
  shrink_to heap permit actual =
    (<[c := mkControl (max_bytes k) (current_bytes k - (plan_bytes plan - actual))]> heap,
     mkBudgetPermit (Some c) actual, true).
Proof.
  intros plan Hacc Hk Hl Hcl Hact Hkind Hslot ->.
  assert (Hb : actual <= plan_bytes plan <= limit).
  { subst plan. unfold plan_body_reservation in *. destruct content_length as [n|]; cbn in *; [|lia].
    destruct (Hcl n eq_refl) as [_ ->]. destruct (limit <? n); cbn in *; [done|lia]. }
  clearbody plan. split; [lia|].
  pose proof (contrib_le_level heap ps slot _ c k Hacc Hslot Hk) as Hle.
  unfold contrib in Hle; cbn in Hle. rewrite decide_True in Hle by done.
  pose proof (proj1 Hacc c k Hk) as (_ & Hm & Hok). cbn in Hm, Hok. unfold in_u64 in *.
  unfold shrink_to; cbn. rewrite (proj2 (Z.ltb_ge _ _)) by lia. rewrite Hk.
  rewrite (u64_small (plan_bytes plan - actual)) by (unfold in_u64; lia).
  rewrite (proj2 (Z.ltb_ge _ _)) by lia. by rewrite u64_small by (unfold in_u64; lia).
Qed.

(** ** The account of one budget *)

Lemma lent_empty_permit c : lent c empty_BudgetPermit.
Proof. exact (lent_empty c). Qed.

Lemma account_reserve c limit h n amount :
  account c limit h n -> 0 <= amount ->
  match budget_try_acquire h c amount with
  | (h', Some p) => lent c p /\ account c limit h' (bytes_ p + n)
  | (h', None) => h' = h
  end.
Proof.
  intros Ha Hn. destruct (decide (in_u64 amount)) as [Hv|Hv].
  - pose proof (account_acquire c limit h n amount Ha Hv) as H. cbn in H.
    by destruct (budget_try_acquire h c amount) as [h' [p|]].
  - destruct Ha as (k & Hk & _). unfold budget_try_acquire. rewrite Hk.
    pose proof (u64_range (max_bytes k - current_bytes k)) as Hr. unfold in_u64 in *.
    by rewrite (proj2 (Z.ltb_lt _ _)) by lia.
Qed.

Lemma account_free c limit h n p :
  lent c p -> 0 <= n -> account c limit h (bytes_ p + n) -> account c limit (release h p).1 n.
Proof. exact (account_release c limit h p n). Qed.

Lemma account_shrink c limit h n p amount :
  0 <= amount -> lent c p -> 0 <= n -> account c limit h (bytes_ p + n) ->
  let '(h', p', _) := shrink_to h p amount in lent c p' /\ account c limit h' (bytes_ p' + n).
Proof.
  intros Hv Hp Hn Ha. unfold shrink_to. destruct (control_ p) as [c'|] eqn:Ec; [|done].
  destruct (bytes_ p <? amount) eqn:E; [done|]. reflect_bools.
  assert (c' = c) as -> by (destruct Hp as [_ [Ho|[Ho _]]]; cbn in Ho; congruence).
  pose proof Ha as (k & Hk & Hlev & Hlim & Hr & Hok). cbn in *. rewrite Hk. unfold in_u64 in Hok.
  rewrite (u64_small (bytes_ p - amount)) by (unfold in_u64; lia).
  rewrite (proj2 (Z.ltb_ge _ _)) by lia. split; [split; [done|by left]|].
  pose proof (shifted_insert h c k (mkControl (max_bytes k) (u64 (current_bytes k - (bytes_ p - amount)))) Hk eq_refl) as Hs.
  apply (account_shifted _ _ _ _ _ _ Ha) in Hs; cbv beta in *; cbn [current_bytes] in *; rewrite decide_True, u64_small in *
    by (done || unfold in_u64; lia); [|lia].
  cbn [bytes_]. by replace (bytes_ p + n + (current_bytes k - (bytes_ p - amount) - current_bytes k)) with (amount + n) in Hs by lia.
Qed.

(** ** Witnesses *)

Definition sample_ops : list BudgetOp :=
  [OpAcquire 0 600 0; OpAcquire 0 500 1; OpMove 2 0; OpShrink 2 100; OpAcquire 0 500 1;
   OpRelease 2].

Example sample_budget_run :
  run_budget (fresh_world [1000] 3) sample_ops =
  mkBudgetWorld [mkControl 1000 500]
    [mkBudgetPermit None 0; mkBudgetPermit (Some 0%nat) 500; mkBudgetPermit None 0].
Proof. vm_compute. reflexivity. Qed.

Lemma budget_books_balance_witness :
  current_bytes (mkControl 1000 500) =
    sumZ (fun p => if decide (control_ p = Some 0%nat) then bytes_ p else 0)
      (permits (run_budget (fresh_world [1000] 3) sample_ops)) /\
  0 <= 500 <= 1000 /\
  (Forall (fun p => control_ p <> Some 0%nat) (permits (run_budget (fresh_world [1000] 3) sample_ops))
   -> 500 = 0).
Proof.
  apply (budget_books_balance [1000] 3 sample_ops 0 (mkControl 1000 500)).
  - repeat constructor; unfold in_u64; lia.
  - repeat constructor; unfold budget_op_ok, in_u64; lia.
  - vm_compute. reflexivity.
Defined.

(** A world with one live permit of 700 bytes on a 1000-byte budget. *)
Definition one_live : BudgetWorld := run_budget (fresh_world [1000] 1) [OpAcquire 0 700 0].

Lemma one_live_accounted : accounted (controls one_live) (permits one_live).
Proof.
  apply run_budget_accounted.
  - apply fresh_world_accounted. repeat constructor; unfold in_u64; lia.
  - repeat constructor; unfold budget_op_ok, in_u64; lia.
Qed.

Lemma budget_acquire_exact_witness :
  if decide (700 + 300 <= 1000) then
    budget_try_acquire (controls one_live) 0 300 =
      (<[0%nat := mkControl 1000 (700 + 300)]> (controls one_live),
       Some (mkBudgetPermit (Some 0%nat) 300))
  else budget_try_acquire (controls one_live) 0 300 = (controls one_live, None).
Proof.
  apply (budget_acquire_exact (controls one_live) (permits one_live) 0 (mkControl 1000 700) 300).
  - apply one_live_accounted.
  - vm_compute. reflexivity.
  - unfold in_u64; lia.
Defined.

Lemma planned_reservation_shrinks_witness :
  700 <= 700 /\
  shrink_to (controls one_live) (mkBudgetPermit (Some 0%nat) 700) 12 =
    (<[0%nat := mkControl 1000 (700 - (700 - 12))]> (controls one_live),
     mkBudgetPermit (Some 0%nat) 12, true).
Proof.
  apply (planned_reservation_shrinks (controls one_live) (permits one_live) 0
           (mkControl 1000 700) None 700 (mkBudgetPermit (Some 0%nat) 700) 0 12).
  - apply one_live_accounted.
  - vm_compute. reflexivity.
  - unfold in_u64; lia.
  - intros n Hn. discriminate Hn.
  - lia.
  - reflexivity.
  - vm_compute. reflexivity.
  - reflexivity.
Defined.
