(* ===== verification/ServerState.v ===== *)
(** * The server's small state machines
      (src/http_server_internal.hpp, src/http_server.cpp lines 44-310)

    [DrainState] counts sessions through a graceful shutdown, [AcceptCapacityState]
    decides when to accept, [ShutdownSignalState] turns signals into actions,
    [ProxyAdmissionState]/[ProxyPermit] lend proxy slots, [RuntimeFailureState]
    makes the failure report unique, and four functions classify completions. *)

From S2P Require Import Prelude Errors Permits.

Local Open Scope Z_scope.

(** ** Enumerations *)

Inductive HttpWriteDisposition :=
  | write_success | expected_cancellation | client_disconnected | unexpected_error.
Inductive AcceptRetryDisposition := retry | retry_stopped | retry_fatal.
Inductive AcceptCapacityAction := action_none | start_accept | pause | resume_and_start.
Inductive ServerDrainPhase := running | draining | force_stopping | completed.
Inductive DrainStartResult := unchanged | started | drain_completed.
Inductive DrainTimerDisposition := timer_ignored | timer_timed_out | timer_fatal.
Inductive SessionPhase := handshaking | reading | proxying | writing | closing | finished.
Inductive SessionDrainDisposition := close_immediately | wait_for_current | drain_ignored.
Inductive ShutdownSignalDisposition := sig_begin_drain | sig_force_stop | sig_ignored | sig_fatal.

#[export] Instance ServerDrainPhase_eq_dec : EqDecision ServerDrainPhase.
Proof. solve_decision. Defined.
#[export] Instance AcceptCapacityAction_eq_dec : EqDecision AcceptCapacityAction.
Proof. solve_decision. Defined.
#[export] Instance DrainStartResult_eq_dec : EqDecision DrainStartResult.
Proof. solve_decision. Defined.
#[export] Instance SessionPhase_eq_dec : EqDecision SessionPhase.
Proof. solve_decision. Defined.
#[export] Instance ShutdownSignalDisposition_eq_dec : EqDecision ShutdownSignalDisposition.
Proof. solve_decision. Defined.

Definition phase_is (p q : ServerDrainPhase) : bool := bool_decide (p = q).

(** ** Completion classifiers *)

Definition classify_http_write_result (error : error_code) (stopping : bool)
    : HttpWriteDisposition :=
  if stopping || error_is error operation_aborted then expected_cancellation
  else if negb (failed error) then write_success
  else if error_is error broken_pipe || error_is error connection_aborted
          || error_is error connection_reset || error_is error eof
  then client_disconnected
  else unexpected_error.

Definition classify_accept_retry_completion (error : error_code) (stopping : bool)
    : AcceptRetryDisposition :=
  if stopping then retry_stopped else if failed error then retry_fatal else retry.

Definition classify_drain_timer_completion (error : error_code) (phase : ServerDrainPhase)
    : DrainTimerDisposition :=
  if negb (phase_is phase draining) then timer_ignored
  else if negb (failed error) then timer_timed_out
  else timer_fatal.

Definition classify_session_drain (phase : SessionPhase) : SessionDrainDisposition :=
  match phase with
  | handshaking | reading => close_immediately
  | proxying | writing | closing => wait_for_current
  | finished => drain_ignored
  end.

(** ** ShutdownSignalState *)

Record ShutdownSignalState := mkSignals {
  draining_ : bool;
  force_requested_ : bool;
  completed_ : bool }.

Definition initial_signals : ShutdownSignalState := mkSignals false false false.

Definition on_wait_completion (s : ShutdownSignalState) (error : error_code)
    : ShutdownSignalDisposition * ShutdownSignalState :=
  if failed error then
    if completed_ s && error_is error operation_aborted then (sig_ignored, s)
    else (sig_fatal, s)
  else if completed_ s || force_requested_ s then (sig_ignored, s)
  else if negb (draining_ s) then
    (sig_begin_drain, mkSignals true (force_requested_ s) (completed_ s))
  else (sig_force_stop, mkSignals (draining_ s) true (completed_ s)).

Definition mark_completed (s : ShutdownSignalState) : ShutdownSignalState :=
  mkSignals (draining_ s) (force_requested_ s) true.

(** ** DrainState *)

Record DrainState := mkDrain {
  phase_ : ServerDrainPhase;
  active_sessions_ : Z }.

Definition initial_DrainState : DrainState := mkDrain running 0.

Definition drain_session_started (d : DrainState) : DrainState :=
  if phase_is (phase_ d) running
  then mkDrain (phase_ d) (u64 (active_sessions_ d + 1)) else d.

(** Returns whether this was the last session of a drain. *)
Definition drain_session_finished (d : DrainState) : bool * DrainState :=
  if active_sessions_ d =? 0 then (false, d)
  else
    let active := u64 (active_sessions_ d - 1) in
    if (active =? 0) && (phase_is (phase_ d) draining || phase_is (phase_ d) force_stopping)
    then (true, mkDrain completed active)
    else (false, mkDrain (phase_ d) active).

Definition transition_to (d : DrainState) (phase : ServerDrainPhase)
    : DrainStartResult * DrainState :=
  if active_sessions_ d =? 0 then (drain_completed, mkDrain completed (active_sessions_ d))
  else (started, mkDrain phase (active_sessions_ d)).

Definition drain_begin_drain (d : DrainState) : DrainStartResult * DrainState :=
  if negb (phase_is (phase_ d) running) then (unchanged, d) else transition_to d draining.

Definition begin_force_stop (d : DrainState) : DrainStartResult * DrainState :=
  if phase_is (phase_ d) force_stopping || phase_is (phase_ d) completed then (unchanged, d)
  else transition_to d force_stopping.

(** ** AcceptCapacityState *)

Record AcceptCapacityState := mkAccept {
  max_connections_ : Z;
  active_connections_ : Z;
  accept_pending_ : bool;
  retry_pending_ : bool;
  paused_ : bool;
  stopped_ : bool }.

Definition make_AcceptCapacityState (limit : Z) : AcceptCapacityState :=
  mkAccept limit 0 false false false false.

Definition next_action (a : AcceptCapacityState) : AcceptCapacityAction * AcceptCapacityState :=
  if stopped_ a || accept_pending_ a || retry_pending_ a then (action_none, a)
  else if max_connections_ a <=? active_connections_ a then
    if paused_ a then (action_none, a)
    else (pause, mkAccept (max_connections_ a) (active_connections_ a)
                   (accept_pending_ a) (retry_pending_ a) true (stopped_ a))
  else if paused_ a then
    (resume_and_start, mkAccept (max_connections_ a) (active_connections_ a)
                         true (retry_pending_ a) false (stopped_ a))
  else
    (start_accept, mkAccept (max_connections_ a) (active_connections_ a)
                     true (retry_pending_ a) (paused_ a) (stopped_ a)).

Definition accept_completed (a : AcceptCapacityState) : AcceptCapacityState :=
  mkAccept (max_connections_ a) (active_connections_ a) false (retry_pending_ a)
    (paused_ a) (stopped_ a).
Definition retry_scheduled (a : AcceptCapacityState) : AcceptCapacityState :=
  mkAccept (max_connections_ a) (active_connections_ a) (accept_pending_ a) true
    (paused_ a) (stopped_ a).
Definition retry_completed (a : AcceptCapacityState) : AcceptCapacityState :=
  mkAccept (max_connections_ a) (active_connections_ a) (accept_pending_ a) false
    (paused_ a) (stopped_ a).
Definition accept_session_started (a : AcceptCapacityState) : AcceptCapacityState :=
  mkAccept (max_connections_ a) (u64 (active_connections_ a + 1)) (accept_pending_ a)
    (retry_pending_ a) (paused_ a) (stopped_ a).
Definition accept_session_finished (a : AcceptCapacityState) : AcceptCapacityState :=
  if 0 <? active_connections_ a then
    mkAccept (max_connections_ a) (u64 (active_connections_ a - 1)) (accept_pending_ a)
      (retry_pending_ a) (paused_ a) (stopped_ a)
  else a.
Definition accept_stop (a : AcceptCapacityState) : AcceptCapacityState :=
  mkAccept (max_connections_ a) (active_connections_ a) (accept_pending_ a)
    (retry_pending_ a) (paused_ a) true.

(** ** RuntimeFailureState *)

Record RuntimeFailureState := mkFailure { claimed_ : bool }.

Definition claim (s : RuntimeFailureState) : bool * RuntimeFailureState :=
  if claimed_ s then (false, s) else (true, mkFailure true).

(** The actions act on a world [W]; [report] may throw (its boolean), the other three
    are [noexcept]. *)
Definition run_accept_retry_failure_actions {W} (s : RuntimeFailureState)
    (report : W -> W * bool) (fallback stop notify : W -> W) (w : W)
    : RuntimeFailureState * W :=
  let '(claimed, s') := claim s in
  if negb claimed then (s', w)
  else
    let '(w1, threw) := report w in
    let w2 := if threw then fallback w1 else w1 in
    (s', notify (stop w2)).

(** ** ProxyAdmissionState and ProxyPermit *)

Record ProxyAdmissionState := mkProxies {
  max_proxies_ : Z;
  active_proxies_ : Z }.

Record ProxyPermit := mkProxyPermit { state_ : option nat }.

Definition make_ProxyAdmissionState (limit : Z) : ProxyAdmissionState := mkProxies limit 0.

(** [state] may be a null pointer. *)
Definition proxy_try_acquire (heap : list ProxyAdmissionState) (state : option nat)
    : list ProxyAdmissionState * option ProxyPermit :=
  match state with
  | None => (heap, None)
  | Some c =>
      match heap !! c with
      | None => (heap, None)
      | Some s =>
          if max_proxies_ s <=? active_proxies_ s then (heap, None)
          else (<[c := mkProxies (max_proxies_ s) (u64 (active_proxies_ s + 1))]> heap,
                Some (mkProxyPermit (Some c)))
      end
  end.

Definition proxy_state_release (s : ProxyAdmissionState) : ProxyAdmissionState :=
  if 0 <? active_proxies_ s then mkProxies (max_proxies_ s) (u64 (active_proxies_ s - 1)) else s.

Definition permit_release (heap : list ProxyAdmissionState) (p : ProxyPermit)
    : list ProxyAdmissionState * ProxyPermit :=
  match state_ p with
  | None => (heap, p)
  | Some c =>
      (match heap !! c with
       | Some s => <[c := proxy_state_release s]> heap
       | None => heap
       end, mkProxyPermit None)
  end.

(** Between two distinct objects; a self-assignment does nothing. *)
Definition permit_move_assign (heap : list ProxyAdmissionState) (this other : ProxyPermit)
    : list ProxyAdmissionState * ProxyPermit * ProxyPermit :=
  let '(heap', _) := permit_release heap this in
  (heap', mkProxyPermit (state_ other), mkProxyPermit None).

Definition owns_capacity (p : ProxyPermit) : bool :=
  match state_ p with Some _ => true | None => false end.

(** ** Drain: runs *)

Inductive DrainEvent := ev_session_started | ev_session_finished | ev_begin_drain | ev_force_stop.

(** One call, with 1 when it tells the server that the drain has completed. *)
Definition drain_event (d : DrainState) (ev : DrainEvent) : Z * DrainState :=
  match ev with
  | ev_session_started => (0, drain_session_started d)
  | ev_session_finished =>
      let '(done, d') := drain_session_finished d in ((if done then 1 else 0), d')
  | ev_begin_drain =>
      let '(r, d') := drain_begin_drain d in
      ((if decide (r = drain_completed) then 1 else 0), d')
  | ev_force_stop =>
      let '(r, d') := begin_force_stop d in
      ((if decide (r = drain_completed) then 1 else 0), d')
  end.

Fixpoint run_drain (d : DrainState) (evs : list DrainEvent) : Z * DrainState :=
  match evs with
  | [] => (0, d)
  | ev :: rest =>
      let '(n, d') := drain_event d ev in
      let '(m, d'') := run_drain d' rest in (n + m, d'')
  end.

(** A drain in progress has a session to wait for; a finished one has none. *)
Definition drain_ok (d : DrainState) : Prop :=
  0 <= active_sessions_ d /\
  match phase_ d with
  | running => True
  | draining | force_stopping => 0 < active_sessions_ d
  | completed => active_sessions_ d = 0
  end.

Definition phase_rank (p : ServerDrainPhase) : Z :=
  match p with running => 0 | draining => 1 | force_stopping => 2 | completed => 3 end.

Definition is_completed (p : ServerDrainPhase) : Z := if decide (p = completed) then 1 else 0.

Lemma drain_event_spec d ev n d' :
  drain_ok d -> active_sessions_ d + 1 < 2 ^ 64 -> drain_event d ev = (n, d') ->
  drain_ok d' /\ active_sessions_ d' <= active_sessions_ d + 1 /\
  phase_rank (phase_ d) <= phase_rank (phase_ d') /\
  is_completed (phase_ d) + n = is_completed (phase_ d').
Proof.
  destruct d as [p a]. unfold drain_ok; cbn [phase_ active_sessions_].
  intros [Ha Hp] Hlt E.
  assert (E1 : u64 (a + 1) = a + 1) by (apply u64_small; unfold in_u64; lia).
  destruct (Z.eq_dec a 0) as [->|Hn].
  - destruct p, ev; cbn in E; injection E as <- <-; cbn; (lia || (split_and!; (lia || done))).
  - assert (E2 : u64 (a - 1) = a - 1) by (apply u64_small; unfold in_u64; lia).
    destruct ev; cbn in E; unfold drain_session_started, drain_session_finished,
      drain_begin_drain, begin_force_stop, transition_to in E;
      cbn [phase_ active_sessions_] in E;
      rewrite ?E1, ?E2, ?(proj2 (Z.eqb_neq a 0) Hn) in E;
      destruct p; cbn in E; rewrite ?(proj2 (Z.eqb_neq a 0) Hn) in E;
      try (destruct (a - 1 =? 0) eqn:Hz; reflect_bools); cbn in E;
      injection E as <- <-; cbn; split_and!; (lia || done).
Qed.

Lemma run_drain_spec d evs n d' :
  drain_ok d -> active_sessions_ d + Z.of_nat (length evs) < 2 ^ 64 ->
  run_drain d evs = (n, d') ->
  drain_ok d' /\ phase_rank (phase_ d) <= phase_rank (phase_ d') /\
  is_completed (phase_ d) + n = is_completed (phase_ d').
Proof.
  revert d n d'. induction evs as [|ev evs IH]; intros d n d' Hok Hlt; cbn [run_drain length] in *.
  - intros [= <- <-]. split_and!; (done || lia).
  - destruct (drain_event d ev) as [n1 d1] eqn:E1. destruct (run_drain d1 evs) as [n2 d2] eqn:E2.
    intros [= <- <-].
    destruct (drain_event_spec d ev n1 d1 Hok ltac:(lia) E1) as (Hok1 & Ha & Hr & Hn).
    destruct (IH d1 n2 d2 Hok1 ltac:(lia) E2) as (? & ? & ?). split_and!; (done || lia).
Qed.

Lemma finish_more p a :
  p = draining \/ p = force_stopping -> 1 < a < 2 ^ 64 ->
  drain_event (mkDrain p a) ev_session_finished = (0, mkDrain p (a - 1)).
Proof.
  intros Hp Ha. cbn [drain_event]. unfold drain_session_finished; cbn [active_sessions_ phase_].
  rewrite (proj2 (Z.eqb_neq a 0)) by lia. rewrite u64_small by (unfold in_u64; lia).
  by rewrite (proj2 (Z.eqb_neq (a - 1) 0)) by lia.
Qed.

Lemma finish_last p :
  p = draining \/ p = force_stopping ->
  drain_event (mkDrain p 1) ev_session_finished = (1, mkDrain completed 0).
Proof. by intros [-> | ->]. Qed.

Lemma finish_some p k a :
  p = draining \/ p = force_stopping -> Z.of_nat k < a < 2 ^ 64 ->
  run_drain (mkDrain p a) (replicate k ev_session_finished) = (0, mkDrain p (a - Z.of_nat k)).
Proof.
  intros Hp. revert a. induction k as [|k IH]; intros a Ha; cbn [replicate run_drain].
  - by rewrite Z.sub_0_r.
  - rewrite finish_more by (done || lia). rewrite IH by lia. do 2 f_equal; lia.
Qed.

Lemma run_drain_app d evs evs' :
  run_drain d (evs ++ evs') =
    let '(n, d') := run_drain d evs in
    let '(m, d'') := run_drain d' evs' in (n + m, d'').
Proof.
  revert d. induction evs as [|ev evs IH]; intros d; cbn [app run_drain].
  - by destruct (run_drain d evs').
  - destruct (drain_event d ev) as [n d1]. rewrite IH. destruct (run_drain d1 evs) as [n1 d2].
    destruct (run_drain d2 evs') as [n2 d3]. f_equal. lia.
Qed.

(** Graceful shutdown completes exactly once.  Over any sequence of session
    starts and ends, drain and force-stop requests on a new server, the phase never
    moves backwards, the server is told once that the drain is complete if and only if
    it is, a drain still in progress has a live session, and a completed one has none. *)
Theorem drain_completes_once evs n d :
  Z.of_nat (length evs) < 2 ^ 64 ->
  run_drain initial_DrainState evs = (n, d) ->
  n = is_completed (phase_ d) /\
  match phase_ d with
  | running => 0 <= active_sessions_ d
  | draining | force_stopping => 0 < active_sessions_ d
  | completed => active_sessions_ d = 0
  end.
Proof.
  intros Hlen Hrun.
  destruct (run_drain_spec initial_DrainState evs n d) as (Hok & _ & Hn); [|done|done|].
  - by split.
  - destruct Hok as [? ?]. change (0 + n = is_completed (phase_ d)) in Hn. split; [lia|]. by destruct (phase_ d).
Qed.

(** A drain terminates: once draining (or force stopping), ending the sessions that
    are left completes it, exactly when the last one ends. *)
Theorem drain_terminates p a :
  0 < a < 2 ^ 64 -> p = draining \/ p = force_stopping ->
  run_drain (mkDrain p a) (replicate (Z.to_nat a) ev_session_finished) = (1, mkDrain completed 0) /\
  forall k, Z.of_nat k < a ->
    run_drain (mkDrain p a) (replicate k ev_session_finished) = (0, mkDrain p (a - Z.of_nat k)).
Proof.
  intros Ha Hp. split; [|intros; apply finish_some; (done || lia)].
  replace (Z.to_nat a) with (Z.to_nat (a - 1) + 1)%nat by lia.
  rewrite replicate_add, run_drain_app, finish_some by (done || lia).
  replace (a - _) with 1 by lia. cbn [replicate run_drain]. by rewrite finish_last.
Qed.

(** ** Accept capacity: the server's protocol

    The events of [HttpServer::Impl] that touch the state, with the calls each one
    makes, in the order of the source: [drive_accept], the two outcomes of
    [on_accept], [on_accept_retry_timer], [remove_session] and [stop_accepting].  An
    accept completion or a retry expiry only happens when one was started, and only a
    counted session can end. *)

Inductive AcceptEvent :=
  | acc_drive | acc_accepted | acc_accept_failed | acc_retry_fired | acc_session_ended | acc_stop.

Definition accept_enabled (a : AcceptCapacityState) (ev : AcceptEvent) : bool :=
  match ev with
  | acc_drive | acc_stop => true
  | acc_accepted | acc_accept_failed => accept_pending_ a
  | acc_retry_fired => retry_pending_ a
  | acc_session_ended => 0 <? active_connections_ a
  end.

Definition accept_event (a : AcceptCapacityState) (ev : AcceptEvent) : AcceptCapacityState :=
  match ev with
  | acc_drive => (next_action a).2
  | acc_accepted =>
      if stopped_ a then accept_completed a
      else (next_action (accept_session_started (accept_completed a))).2
  | acc_accept_failed =>
      if stopped_ a then accept_completed a
      else retry_scheduled (accept_completed a)
  | acc_retry_fired => (next_action (retry_completed a)).2
  | acc_session_ended => (next_action (accept_session_finished a)).2
  | acc_stop => accept_stop a
  end.

Inductive accept_reachable (limit : Z) : AcceptCapacityState -> Prop :=
  | accept_start :
      accept_reachable limit (accept_event (make_AcceptCapacityState limit) acc_drive)
  | accept_step a ev :
      accept_reachable limit a -> accept_enabled a ev = true ->
      accept_reachable limit (accept_event a ev).

Definition pending_count (a : AcceptCapacityState) : Z :=
  (if accept_pending_ a then 1 else 0).

(** Room is kept for the accept in flight, and something will accept again. *)
Definition accept_ok (limit : Z) (a : AcceptCapacityState) : Prop :=
  max_connections_ a = limit /\
  0 <= active_connections_ a /\
  active_connections_ a + pending_count a <= limit /\
  (accept_pending_ a && retry_pending_ a = false) /\
  (paused_ a = true -> accept_pending_ a = false /\ retry_pending_ a = false) /\
  (stopped_ a = false ->
     accept_pending_ a = true \/ retry_pending_ a = true \/
     (paused_ a = true /\ active_connections_ a = limit)).

Lemma accept_event_ok limit a ev :
  0 < limit < 2 ^ 64 -> accept_ok limit a -> accept_enabled a ev = true ->
  accept_ok limit (accept_event a ev).
Proof.
  intros Hl (Hm & H0 & Hc & Hx & Hp & Hs) Hen.
  destruct a as [m n ap rp pa st]; unfold accept_ok, pending_count in *; cbn in *; subst m.
  assert (Hn : n <= limit) by (destruct ap; lia).
  assert (E1 : n < limit -> u64 (n + 1) = n + 1) by (intros; apply u64_small; unfold in_u64; lia).
  assert (E2 : 0 < n -> u64 (n - 1) = n - 1) by (intros; apply u64_small; unfold in_u64; lia).
  destruct ev; cbn in *; unfold next_action, accept_session_finished; cbn;
    destruct st, ap, rp, pa; cbn in *; try discriminate; try (rewrite E1 by lia);
    reflect_bools; cbn;
    try (rewrite (proj2 (Z.ltb_lt 0 n)) by lia; rewrite E2 by lia; cbn);
    try (destruct (limit <=? _) eqn:E; cbn); reflect_bools;
    intuition (first [lia | congruence]).
Qed.

Lemma accept_reachable_ok limit a :
  0 < limit < 2 ^ 64 -> accept_reachable limit a -> accept_ok limit a.
Proof.
  intros Hl. induction 1 as [|a ev _ IH Hen]; [|by apply accept_event_ok].
  unfold accept_event, next_action, make_AcceptCapacityState, accept_ok, pending_count; cbn.
  rewrite (proj2 (Z.leb_gt limit 0)) by lia. cbn. intuition (first [lia | congruence]).
Qed.

(** The connection limit and the accept loop.  In every state the server can
    reach, live connections plus the accept in flight never exceed the configured
    limit, at most one accept or retry is pending, and, until accepting is stopped, no
    wake-up is lost: an accept is in flight, a retry timer is armed, or the server is
    paused exactly because it is full. *)
Theorem accept_limit_and_progress limit a :
  0 < limit < 2 ^ 64 -> accept_reachable limit a ->
  0 <= active_connections_ a /\
  active_connections_ a + (if accept_pending_ a then 1 else 0) <= limit /\
  ~ (accept_pending_ a = true /\ retry_pending_ a = true) /\
  (stopped_ a = false ->
     accept_pending_ a = true \/ retry_pending_ a = true \/
     (paused_ a = true /\ active_connections_ a = limit)).
Proof.
  intros Hl Hr. destruct (accept_reachable_ok limit a Hl Hr) as (_ & H0 & Hc & Hx & _ & Hs).
  split_and!; [done|done| |done]. intros [E1 E2]. by rewrite E1, E2 in Hx.
Qed.

(** A full server pauses once and resumes with the next free slot: asked again
    while paused it does nothing, and the first call after a session ends both resumes
    and starts an accept. *)
Theorem pause_then_resume a :
  stopped_ a = false -> accept_pending_ a = false -> retry_pending_ a = false ->
  paused_ a = false -> active_connections_ a = max_connections_ a ->
  0 < max_connections_ a < 2 ^ 64 ->
  let '(act1, a1) := next_action a in
  let '(act2, a2) := next_action a1 in
  let '(act3, a3) := next_action (accept_session_finished a2) in
  act1 = pause /\ act2 = action_none /\ a2 = a1 /\ act3 = resume_and_start /\
  paused_ a3 = false /\ accept_pending_ a3 = true.
Proof.
  destruct a as [m n ap rp pa st]; cbn. intros -> -> -> -> -> Hm.
  unfold next_action, accept_session_finished; cbn. rewrite Z.leb_refl. cbn.
  rewrite Z.leb_refl. cbn. rewrite (proj2 (Z.ltb_lt 0 m)) by lia. cbn.
  rewrite u64_small by (unfold in_u64; lia). rewrite (proj2 (Z.leb_gt m (m - 1))) by lia. done.
Qed.

(** ** Signals: runs *)

Inductive SignalEvent := signal_wait (error : error_code) | signal_completed.

Fixpoint run_signals (s : ShutdownSignalState) (evs : list SignalEvent)
    : list ShutdownSignalDisposition :=
  match evs with
  | [] => []
  | signal_wait e :: rest =>
      let '(d, s') := on_wait_completion s e in d :: run_signals s' rest
  | signal_completed :: rest => run_signals (mark_completed s) rest
  end.

Definition is_shutdown_action (d : ShutdownSignalDisposition) : bool :=
  match d with sig_begin_drain | sig_force_stop => true | _ => false end.

(** The actions still possible from a state. *)
Definition remaining_actions (s : ShutdownSignalState) : list ShutdownSignalDisposition :=
  if completed_ s || force_requested_ s then []
  else if draining_ s then [sig_force_stop] else [sig_begin_drain; sig_force_stop].

Lemma run_signals_prefix s evs :
  List.filter is_shutdown_action (run_signals s evs) `prefix_of` remaining_actions s.
Proof.
  revert s. induction evs as [|[e|] evs IH]; intros [d f c]; cbn [run_signals List.filter].
  - apply prefix_nil.
  - unfold on_wait_completion. destruct (failed e).
    { destruct (_ && _)%bool; cbn [List.filter is_shutdown_action]; apply IH. }
    unfold remaining_actions. cbn [completed_ force_requested_ draining_].
    destruct c; [cbn; apply (IH (mkSignals d f true))|].
    destruct f; [cbn; apply (IH (mkSignals d true false))|].
    destruct d; cbn.
    + apply prefix_cons. apply (IH (mkSignals true true false)).
    + apply prefix_cons. apply (IH (mkSignals true false false)).
  - eapply transitivity; [apply IH|]. unfold mark_completed, remaining_actions; cbn.
    apply prefix_nil.
Qed.

(** Signals drive shutdown at most once each way and in order.  Whatever sequence
    of wait completions arrives, interleaved with the completion mark, the actions taken
    are a prefix of "begin drain, then force stop". *)
Theorem signal_actions_ordered evs :
  List.filter is_shutdown_action (run_signals initial_signals evs)
    `prefix_of` [sig_begin_drain; sig_force_stop].
Proof. apply run_signals_prefix. Qed.

(** After completion a signal does nothing, the cancelled wait is ignored and any
    other wait error is fatal; before it every wait error is fatal, including a
    cancellation nobody asked for. *)
Theorem signal_errors_classified s e :
  (on_wait_completion s e).1 =
    match e with
    | no_error =>
        match remaining_actions s with d :: _ => d | [] => sig_ignored end
    | operation_aborted => if completed_ s then sig_ignored else sig_fatal
    | _ => sig_fatal
    end /\
  (on_wait_completion s e).2 =
    (if decide (e = no_error) then
       match remaining_actions s with
       | sig_begin_drain :: _ => mkSignals true (force_requested_ s) (completed_ s)
       | _ :: _ => mkSignals (draining_ s) true (completed_ s)
       | [] => s
       end
     else s).
Proof. destruct s as [[] [] []], e; done. Qed.

(** ** Runtime failure *)

(** a runtime failure is reported once: the first claim runs report, the fallback
    only if the report threw, then stop, then notify, in that order, and every later
    claim runs nothing. *)
Theorem failure_actions_once {W} (report : W -> W * bool) (fallback stop notify : W -> W) w :
  let '(s1, w1) := run_accept_retry_failure_actions (mkFailure false) report fallback stop notify w in
  w1 = notify (stop (if (report w).2 then fallback (report w).1 else (report w).1)) /\
  run_accept_retry_failure_actions s1 report fallback stop notify w1 = (s1, w1).
Proof. unfold run_accept_retry_failure_actions. cbn. destruct (report w) as [w1 []]; done. Qed.

(** ** Completion classifiers *)

(** a finished write is a success only when there is no error and the session is not
    stopping; a cancellation (or a stopping session) is always expected; the four
    connection-loss codes are the client leaving; anything else is unexpected. *)
Theorem write_result_table error stopping :
  classify_http_write_result error stopping =
    match stopping, error with
    | true, _ | _, operation_aborted => expected_cancellation
    | false, no_error => write_success
    | false, (broken_pipe | connection_aborted | connection_reset | eof) => client_disconnected
    | false, _ => unexpected_error
    end.
Proof. by destruct stopping, error. Qed.

(** a drain deadline acts only while draining, and a session is closed at once by a
    drain exactly when it has no request being served. *)
Theorem drain_timer_and_session_table error phase sphase stopping :
  (classify_drain_timer_completion error phase = timer_timed_out <->
     phase = draining /\ error = no_error) /\
  (classify_drain_timer_completion error phase = timer_fatal <->
     phase = draining /\ error <> no_error) /\
  (classify_session_drain sphase = close_immediately <->
     sphase = handshaking \/ sphase = reading) /\
  (classify_accept_retry_completion error stopping = retry_fatal <->
     stopping = false /\ error <> no_error).
Proof.
  split_and!.
  - destruct phase, error; vm_compute; naive_solver.
  - destruct phase, error; vm_compute; naive_solver.
  - destruct sphase; vm_compute; naive_solver.
  - destruct stopping, error; vm_compute; naive_solver.
Qed.

(** ** Proxy slots as a ledger *)

#[export] Instance proxy_ledger : Ledger ProxyAdmissionState ProxyPermit := {
  ld_level := active_proxies_;
  ld_limit := max_proxies_;
  ld_owner := state_;
  ld_amount p := if owns_capacity p then 1 else 0;
  ld_empty := mkProxyPermit None;
  ld_valid n := n = 1;
  ld_limit_ok := in_u64;
  ld_release := permit_release;
  ld_acquire heap c _ := proxy_try_acquire heap (Some c) }.

Lemma proxy_shifted_insert (h : list ProxyAdmissionState) c k k' d :
  h !! c = Some k -> max_proxies_ k' = max_proxies_ k ->
  (forall c', d c' = if decide (c' = c) then active_proxies_ k' - active_proxies_ k else 0) ->
  shifted h (<[c := k']> h) d.
Proof.
  intros Hk Hm Hd. split; [apply length_insert|]. intros c' x Hx. rewrite Hd.
  destruct (decide (c' = c)) as [->|Hne].
  - rewrite list_lookup_insert_eq in Hx by (by apply lookup_lt_Some in Hk).
    injection Hx as <-. exists k. cbn. split_and!; [done|lia|done].
  - rewrite list_lookup_insert_ne in Hx by done. exists x. cbn. split_and!; [done|lia|done].
Qed.

#[export] Instance proxy_ledger_laws : LedgerLaws ProxyAdmissionState ProxyPermit.
Proof.
  split.
  - done.
  - done.
  - intros h [[c|]]; cbn; intros _ Hc _; (split; [|done]).
    + destruct (h !! c) as [k|] eqn:Hk.
      * destruct (Hc c k eq_refl Hk) as [Hle Hok]. unfold in_u64 in Hok.
        apply (proxy_shifted_insert _ _ k); [done| |].
        -- unfold proxy_state_release. by case_ifs.
        -- intros c'. unfold proxy_state_release, contrib; cbn.
           rewrite (proj2 (Z.ltb_lt _ _)) by lia. cbn. rewrite u64_small by (unfold in_u64; lia).
           do 2 case_decide; simplify_eq; lia.
      * split; [done|]. intros c' k' Hk'. exists k'. cbn. unfold contrib; cbn.
        rewrite decide_False by congruence. split_and!; [done|lia|done].
    + split; [done|]. intros c k Hk. exists k. unfold contrib. rewrite decide_False by done.
      split_and!; [done|lia|done].
  - intros h c k n Hk Hr Hok ->. cbn in *. unfold in_u64 in *. rewrite Hk.
    destruct (_ <=? _) eqn:E; reflect_bools; cbn; [split; [lia|done]|].
    split_and!; [lia|lia|done|done|]. apply (proxy_shifted_insert _ _ k); [done|done|].
    intros c'. cbn. rewrite u64_small by (unfold in_u64; lia). unfold contrib; cbn.
    do 2 case_decide; simplify_eq; lia.
Qed.

Record ProxyWorld := mkProxyWorld {
  admissions : list ProxyAdmissionState;
  proxy_permits : list ProxyPermit }.

Inductive ProxyOp :=
  | ProxyAcquire (state : nat) (slot : nat)   (* slot = std::move(acquired permit) *)
  | ProxyRelease (slot : nat)                 (* release(), reset() or destruction *)
  | ProxyMove (dst src : nat).

Definition proxy_step (w : ProxyWorld) (op : ProxyOp) : ProxyWorld :=
  match op with
  | ProxyAcquire state slot =>
      match proxy_permits w !! slot, proxy_try_acquire (admissions w) (Some state) with
      | Some old, (heap, Some fresh) =>
          let '(heap', new, _) := permit_move_assign heap old fresh in
          mkProxyWorld heap' (<[slot := new]> (proxy_permits w))
      | _, _ => w
      end
  | ProxyRelease slot =>
      match proxy_permits w !! slot with
      | Some p => let '(heap, p') := permit_release (admissions w) p in
                  mkProxyWorld heap (<[slot := p']> (proxy_permits w))
      | None => w
      end
  | ProxyMove dst src =>
      match proxy_permits w !! dst, proxy_permits w !! src with
      | Some this, Some other =>
          if decide (dst = src) then w
          else let '(heap, this', other') := permit_move_assign (admissions w) this other in
               mkProxyWorld heap (<[src := other']> (<[dst := this']> (proxy_permits w)))
      | _, _ => w
      end
  end.

Lemma proxy_permit_eta (p : ProxyPermit) : mkProxyPermit (state_ p) = p.
Proof. by destruct p. Qed.

Lemma proxy_step_accounted w op :
  accounted (admissions w) (proxy_permits w) ->
  accounted (admissions (proxy_step w op)) (proxy_permits (proxy_step w op)).
Proof.
  intros Hacc. destruct op as [c i|i|dst src]; cbn in *.
  - destruct (proxy_permits w !! i) as [p|] eqn:Hi; [|done].
    destruct (admissions w !! c) as [k|] eqn:Hk; [|done].
    pose proof (acquire_assign_accounted (admissions w) (proxy_permits w) c k 1 i p
      Hacc Hk Hi eq_refl) as H. cbn in H. rewrite Hk in H.
    destruct (max_proxies_ k <=? active_proxies_ k); [done|]. cbn in H. unfold permit_move_assign.
    by destruct (permit_release _ p).
  - destruct (proxy_permits w !! i) as [p|] eqn:Hi; [|done].
    pose proof (release_accounted _ _ _ _ Hacc Hi) as H. cbn in H.
    by destruct (permit_release _ _).
  - destruct (proxy_permits w !! dst) as [p|] eqn:Hd; [|done].
    destruct (proxy_permits w !! src) as [q|] eqn:Hs; [|done].
    destruct (decide (dst = src)) as [|Hne]; [done|].
    pose proof (assign_accounted _ _ _ _ _ _ Hacc Hne Hd Hs) as H. cbn in H.
    unfold permit_move_assign. destruct (permit_release _ _); cbn in *. by rewrite proxy_permit_eta.
Qed.

Lemma run_proxy_accounted w ops :
  accounted (admissions w) (proxy_permits w) ->
  accounted (admissions (foldl proxy_step w ops)) (proxy_permits (foldl proxy_step w ops)).
Proof.
  revert w. induction ops as [|op ops IH]; intros w Hacc; [done|].
  apply (IH (proxy_step w op)). by apply proxy_step_accounted.
Qed.

(** Proxy slots are never oversubscribed and never leak: after any sequence of
    acquisitions, moves and releases of any number of permits, the active count of each
    admission state is the number of permits that own it, at most the limit, and zero
    when none does. *)
Theorem proxy_slots_balance limit n ops k :
  in_u64 limit ->
  let w := foldl proxy_step
             (mkProxyWorld [make_ProxyAdmissionState limit] (replicate n (mkProxyPermit None))) ops in
  admissions w !! 0%nat = Some k ->
  active_proxies_ k =
    Z.of_nat (countb (fun p => bool_decide (state_ p = Some 0%nat)) (proxy_permits w)) /\
  0 <= active_proxies_ k <= max_proxies_ k.
Proof.
  intros Hl w Hk.
  assert (Hacc : accounted (admissions w) (proxy_permits w)).
  { apply run_proxy_accounted. cbn [admissions proxy_permits].
    refine (fresh_accounted (C := ProxyAdmissionState) (P := ProxyPermit) _ n _).
    constructor; [|done]. cbn. unfold in_u64 in *. lia. }
  split; [|exact (level_bounds _ _ _ _ Hacc Hk)].
  destruct (proj1 Hacc _ k Hk) as (E & _). cbn in E. rewrite E.
  generalize (proxy_permits w). intros ps. induction ps as [|[s] ps IH]; [done|].
  rewrite countb_cons. cbn [sumZ]. rewrite IH. unfold contrib; cbn [ld_owner proxy_ledger state_].
  destruct (decide (s = Some 0%nat)) as [->|Hne].
  - rewrite bool_decide_eq_true_2 by done. cbn [ld_amount proxy_ledger owns_capacity state_]. lia.
  - rewrite bool_decide_eq_false_2 by done. lia.
Qed.

(** ** Witnesses *)

Definition sample_drain : list DrainEvent :=
  [ev_session_started; ev_session_started; ev_begin_drain; ev_session_started;
   ev_session_finished; ev_session_finished; ev_force_stop].

Lemma drain_completes_once_witness :
  1 = is_completed (phase_ (mkDrain completed 0)) /\ 0 = 0.
Proof.
  apply (drain_completes_once sample_drain 1 (mkDrain completed 0)).
  - cbn. lia.
  - vm_compute. reflexivity.
Defined.

Lemma drain_terminates_witness :
  run_drain (mkDrain draining 3) (replicate (Z.to_nat 3) ev_session_finished)
    = (1, mkDrain completed 0) /\
  forall k, Z.of_nat k < 3 ->
    run_drain (mkDrain draining 3) (replicate k ev_session_finished)
      = (0, mkDrain draining (3 - Z.of_nat k)).
Proof. apply (drain_terminates draining 3); [lia|left; reflexivity]. Defined.

(** Two connections accepted with a limit of two: paused and full. *)
Definition full_server : AcceptCapacityState := mkAccept 2 2 false false true false.

Lemma full_server_reachable : accept_reachable 2 full_server.
Proof.
  change full_server with
    (accept_event (accept_event (accept_event (make_AcceptCapacityState 2) acc_drive)
       acc_accepted) acc_accepted).
  do 2 (apply accept_step; [|vm_compute; reflexivity]). apply accept_start.
Qed.

Lemma accept_limit_and_progress_witness :
  0 <= 2 /\ 2 + 0 <= 2 /\ ~ (false = true /\ false = true) /\
  (false = false -> false = true \/ false = true \/ (true = true /\ 2 = 2)).
Proof.
  apply (accept_limit_and_progress 2 full_server); [lia|apply full_server_reachable].
Defined.

Lemma pause_then_resume_witness :
  let '(act1, a1) := next_action (mkAccept 2 2 false false false false) in
  let '(act2, a2) := next_action a1 in
  let '(act3, a3) := next_action (accept_session_finished a2) in
  act1 = pause /\ act2 = action_none /\ a2 = a1 /\ act3 = resume_and_start /\
  paused_ a3 = false /\ accept_pending_ a3 = true.
Proof.
  apply (pause_then_resume (mkAccept 2 2 false false false false)); cbn; try reflexivity. lia.
Defined.

Definition sample_proxy_ops : list ProxyOp :=
  [ProxyAcquire 0 0; ProxyAcquire 0 1; ProxyAcquire 0 2; ProxyMove 2 0; ProxyRelease 1].

Lemma proxy_slots_balance_witness :
  let w := foldl proxy_step
             (mkProxyWorld [make_ProxyAdmissionState 2] (replicate 3 (mkProxyPermit None)))
             sample_proxy_ops in
  active_proxies_ (mkProxies 2 1) =
    Z.of_nat (countb (fun p => bool_decide (state_ p = Some 0%nat)) (proxy_permits w)) /\
  0 <= 1 <= 2.
Proof.
  apply (proxy_slots_balance 2 3 sample_proxy_ops (mkProxies 2 1)).
  - unfold in_u64; lia.
  - vm_compute. reflexivity.
Defined.
