(* ===== verification/HealthState.v ===== *)
(** * Upstream health and probe scheduling
      (src/health_check.hpp lines 24-76, src/health_state.cpp)

    [UpstreamHealthState] keeps, per route and upstream slot, whether the slot is
    selectable and two saturating streak counters.  [ProbeSchedule] hands out due
    probe slots in rotation, at most four in flight.  Times are steady-clock ticks
    (signed 64-bit nanoseconds), intervals are milliseconds. *)

From S2P Require Import Prelude ConfigTypes.

Local Open Scope Z_scope.

(** ** UpstreamHealthState *)

Inductive HealthTransition := transition_unchanged | transition_unhealthy | transition_healthy.

#[export] Instance HealthTransition_eq_dec : EqDecision HealthTransition.
Proof. solve_decision. Defined.

Record HealthSlot := mkHealthSlot {
  healthy : bool;
  failures : Z;
  successes : Z }.

(** [Slot{}]: every slot starts out available. *)
Definition fresh_slot : HealthSlot := mkHealthSlot true 0 0.

Record HealthRoute := mkHealthRoute {
  hr_config : option HealthCheckConfig;
  hr_slots : list HealthSlot }.

Record UpstreamHealthState := mkHealth { health_routes_ : list HealthRoute }.

Definition make_UpstreamHealthState (routes : list RouteConfig) : UpstreamHealthState :=
  mkHealth ((fun route => mkHealthRoute (health_check route)
                            (replicate (length (upstreams route)) fresh_slot)) <$> routes).

Definition available (h : UpstreamHealthState) (route upstream : nat) : result bool :=
  r ← vec_at (health_routes_ h) route;
  slot ← vec_at (hr_slots r) upstream;
  Ok (healthy slot).

(** The effect of one probe outcome on one slot. *)
Definition record_slot (settings : HealthCheckConfig) (slot : HealthSlot) (success : bool)
    : HealthTransition * HealthSlot :=
  if success then
    let s := Z.min (u32 (successes slot + 1)) (healthy_threshold settings) in
    if negb (healthy slot) && (s =? healthy_threshold settings)
    then (transition_healthy, mkHealthSlot true 0 s)
    else (transition_unchanged, mkHealthSlot (healthy slot) 0 s)
  else
    let f := Z.min (u32 (failures slot + 1)) (unhealthy_threshold settings) in
    if healthy slot && (f =? unhealthy_threshold settings)
    then (transition_unhealthy, mkHealthSlot false f 0)
    else (transition_unchanged, mkHealthSlot (healthy slot) f 0).

Definition record (h : UpstreamHealthState) (route upstream : nat) (success : bool)
    : result (HealthTransition * UpstreamHealthState) :=
  r ← vec_at (health_routes_ h) route;
  slot ← vec_at (hr_slots r) upstream;
  match hr_config r with
  | None => Ok (transition_unchanged, h)
  | Some settings =>
      let '(transition, slot') := record_slot settings slot success in
      Ok (transition,
          mkHealth (<[route := mkHealthRoute (hr_config r) (<[upstream := slot']> (hr_slots r))]>
                      (health_routes_ h)))
  end.

(** ** ProbeSchedule *)

Definition max_in_flight : Z := 4.
(** One millisecond in ticks of the steady clock. *)
Definition ticks_per_ms : Z := 1000000.

Record ProbeSlot := mkProbeSlot {
  interval : Z;      (* milliseconds *)
  due : Z;           (* ticks *)
  in_flight : bool }.

Record ProbeSchedule := mkSchedule {
  slots_ : list ProbeSlot;
  cursor_ : nat;
  active_ : Z;
  sched_stopped_ : bool }.

Fixpoint make_slots (intervals : list Z) (now : Z) : result (list ProbeSlot) :=
  match intervals with
  | [] => Ok []
  | i :: rest =>
      if (i <? 100) || (60000 <? i)
      then Throw (invalid_argument "probe interval must be positive")
      else slots ← make_slots rest now; Ok (mkProbeSlot i now false :: slots)
  end.

Definition make_ProbeSchedule (intervals : list Z) (now : Z) : result ProbeSchedule :=
  slots ← make_slots intervals now; Ok (mkSchedule slots 0 0 false).

(** [now + interval], saturating at [time_point::max()]. *)
Definition next_due_time (now interval : Z) : Z :=
  if s64_max - interval * ticks_per_ms <? now then s64_max else now + interval * ticks_per_ms.

(** The body of the loop for [visited] further slots, from the current cursor. *)
Fixpoint take_due_loop (fuel : nat) (s : ProbeSchedule) (now : Z) : option nat * ProbeSchedule :=
  match fuel with
  | O => (None, s)
  | S fuel =>
      let index := cursor_ s in
      let cursor := if (cursor_ s + 1 =? length (slots_ s))%nat then 0%nat else (cursor_ s + 1)%nat in
      match slots_ s !! index with
      | None => (None, s)   (* the cursor is always a valid index: see [schedule_ok] *)
      | Some slot =>
          if negb (in_flight slot) && (due slot <=? now) then
            (Some index,
             mkSchedule (<[index := mkProbeSlot (interval slot)
                                      (next_due_time now (interval slot)) true]> (slots_ s))
               cursor (u64 (active_ s + 1)) (sched_stopped_ s))
          else
            take_due_loop fuel (mkSchedule (slots_ s) cursor (active_ s) (sched_stopped_ s)) now
      end
  end.

Definition take_due (s : ProbeSchedule) (now : Z) : option nat * ProbeSchedule :=
  if sched_stopped_ s || (active_ s =? max_in_flight) then (None, s)
  else take_due_loop (length (slots_ s)) s now.

Definition complete (s : ProbeSchedule) (slot : nat) : result ProbeSchedule :=
  entry ← vec_at (slots_ s) slot;
  if in_flight entry
  then Ok (mkSchedule (<[slot := mkProbeSlot (interval entry) (due entry) false]> (slots_ s))
             (cursor_ s) (u64 (active_ s - 1)) (sched_stopped_ s))
  else Ok s.

Definition earlier_due (next : option Z) (slot : ProbeSlot) : option Z :=
  if negb (in_flight slot) && (match next with None => true | Some d => due slot <? d end)
  then Some (due slot) else next.

Definition next_due (s : ProbeSchedule) : option Z :=
  if sched_stopped_ s || (active_ s =? max_in_flight) then None
  else foldl earlier_due None (slots_ s).

Definition active (s : ProbeSchedule) : Z := active_ s.

Definition schedule_stop (s : ProbeSchedule) : ProbeSchedule :=
  mkSchedule ((fun slot => mkProbeSlot (interval slot) (due slot) false) <$> slots_ s)
    (cursor_ s) 0 true.

(** ** Health: the declarative specification

    A history lists probe outcomes, the most recent first. *)

Definition run_slot (settings : HealthCheckConfig) (history : list bool) : HealthSlot :=
  foldr (fun success slot => (record_slot settings slot success).2) fresh_slot history.

(** [n] consecutive outcomes [b] somewhere in the history. *)
Definition has_run (b : bool) (n : nat) (history : list bool) : Prop :=
  exists newer older, history = newer ++ replicate n b ++ older.

(** Length of the streak of [b] at the recent end. *)
Fixpoint streak (b : bool) (history : list bool) : nat :=
  match history with
  | x :: rest => if Bool.eqb x b then S (streak b rest) else 0
  | [] => 0
  end.

Definition thresholds_ok (settings : HealthCheckConfig) : Prop :=
  1 <= unhealthy_threshold settings <= 10 /\ 1 <= healthy_threshold settings <= 10.

(** Unavailable: enough consecutive failures, not yet followed by enough consecutive
    successes. *)
Definition ideal_unhealthy (settings : HealthCheckConfig) (history : list bool) : Prop :=
  exists newer older,
    history = newer ++ replicate (Z.to_nat (unhealthy_threshold settings)) false ++ older /\
    ~ has_run true (Z.to_nat (healthy_threshold settings)) newer.

Lemma streak_prefix b n l : (n <= streak b l)%nat <-> exists older, l = replicate n b ++ older.
Proof.
  revert n. induction l as [|x l IH]; intros [|n]; cbn.
  - split; [by exists []|lia].
  - split; [lia|]. by intros [? ?].
  - split; [by eexists|lia].
  - destruct (Bool.eqb x b) eqn:E.
    + apply Bool.eqb_prop in E as ->. rewrite <- Nat.succ_le_mono, IH.
      split; intros [o Ho]; exists o; congruence.
    + split; [lia|]. intros [o Ho]. injection Ho as -> _. by destruct b.
Qed.

Lemma has_run_cons b n x l :
  has_run b n (x :: l) <-> has_run b n l \/ (n <= streak b (x :: l))%nat.
Proof.
  rewrite streak_prefix. split.
  - intros ([|y p] & q & E); [right; by eexists|]. injection E as <- ->. left. by exists p, q.
  - intros [(p & q & ->)|[q ->]]; [by exists (x :: p), q|by exists [], q].
Qed.

Lemma streak_other b x l : x <> b -> streak b (x :: l) = 0%nat.
Proof. by destruct x, b. Qed.
Lemma streak_same b l : streak b (b :: l) = S (streak b l).
Proof. by destruct b. Qed.

(** The counters are the streaks, capped at their thresholds. *)
Lemma run_slot_counters settings history :
  thresholds_ok settings ->
  let slot := run_slot settings history in
  failures slot = Z.min (Z.of_nat (streak false history)) (unhealthy_threshold settings) /\
  successes slot = Z.min (Z.of_nat (streak true history)) (healthy_threshold settings).
Proof.
  intros [Hu Hh]. induction history as [|b l [IHf IHs]]; [cbn; lia|].
  cbn [run_slot foldr]. fold (run_slot settings l). unfold record_slot.
  destruct b; case_ifs; cbn [snd failures successes];
    rewrite u32_small by (unfold in_u32; lia); cbn [streak Bool.eqb];
    rewrite ?IHf, ?IHs; split; lia.
Qed.

Lemma ideal_unhealthy_nil settings : thresholds_ok settings -> ~ ideal_unhealthy settings [].
Proof.
  intros [Hu _] (p & q & E & _). destruct (Z.to_nat _) as [|n] eqn:En; [lia|].
  by destruct p.
Qed.

(** The one-step law of the specification, by the four cases of the code. *)
Lemma ideal_unhealthy_cons settings b l :
  thresholds_ok settings ->
  ideal_unhealthy settings (b :: l) <->
  if b then ideal_unhealthy settings l /\
            (streak true (true :: l) < Z.to_nat (healthy_threshold settings))%nat
  else ideal_unhealthy settings l \/
       (Z.to_nat (unhealthy_threshold settings) <= streak false (false :: l))%nat.
Proof.
  intros [Hu Hh]. unfold ideal_unhealthy.
  set (U := Z.to_nat (unhealthy_threshold settings)).
  set (H := Z.to_nat (healthy_threshold settings)).
  assert (HU : (0 < U)%nat) by lia. assert (HH : (0 < H)%nat) by lia. clearbody U H. clear Hu Hh.
  destruct b.
  - split.
    + intros ([|x p] & q & E & Hno); [destruct U; [lia|done]|].
      injection E as <- ->. rewrite has_run_cons in Hno.
      split; [exists p, q; tauto|]. destruct (Nat.lt_ge_cases (streak true (true :: p)) H); [|tauto].
      clear -H0 HU. rewrite !streak_same in *. enough (streak true (p ++ replicate U false ++ q) = streak true p) by lia.
      destruct U as [|U]; [lia|]. clear. induction p as [|[] p IH]; cbn; [done|by f_equal|done].
    + intros [(p & q & E & Hno) Hs]. exists (true :: p), q. split; [by rewrite E|].
      rewrite has_run_cons. intros [?|Hle]; [done|].
      apply streak_prefix in Hle as [o Ho].
      enough (H <= streak true (true :: l))%nat by lia. apply streak_prefix.
      exists (o ++ replicate U false ++ q). rewrite E. change (true :: p ++ ?r) with ((true :: p) ++ r).
      by rewrite Ho, <- app_assoc.
  - split.
    + intros ([|x p] & q & E & Hno).
      * right. apply streak_prefix. by exists q.
      * injection E as <- ->. rewrite has_run_cons in Hno. left. exists p, q. tauto.
    + intros [(p & q & E & Hno)|Hle].
      * exists (false :: p), q. split; [by rewrite E|].
        rewrite has_run_cons, streak_other by done. intros [?|?]; [done|lia].
      * apply streak_prefix in Hle as [o Ho]. exists [], o. split; [done|].
        intros (p & q & E). destruct H; [lia|]. by destruct p.
Qed.

Lemma run_slot_healthy settings history :
  thresholds_ok settings ->
  healthy (run_slot settings history) = false <-> ideal_unhealthy settings history.
Proof.
  intros Hok. induction history as [|b l IH].
  - split; [done|]. intros H. by apply ideal_unhealthy_nil in H.
  - destruct (run_slot_counters settings l Hok) as [Hf Hs]. pose proof Hok as [Hu Hh].
    cbn [run_slot foldr]. fold (run_slot settings l). unfold record_slot.
    destruct b; rewrite ideal_unhealthy_cons by done; cbv iota; rewrite <- IH, !streak_same.
    + rewrite u32_small by (unfold in_u32; lia). rewrite Hs.
      destruct (healthy (run_slot settings l)); cbn; [naive_solver|].
      destruct (_ =? _) eqn:E; reflect_bools; cbn; (split; [|intros [_ ?]; (done || (exfalso; lia))]).
      * done.
      * split; [done|lia].
    + rewrite u32_small by (unfold in_u32; lia). rewrite Hf.
      destruct (healthy (run_slot settings l)); cbn.
      * destruct (_ =? _) eqn:E; reflect_bools; cbn; (split; [|intros [?|?]; (done || (exfalso; lia))]).
        -- right. lia.
        -- done.
      * naive_solver.
Qed.

(** ** Health: the whole table *)

Definition slot_at (h : UpstreamHealthState) (route upstream : nat) : option HealthSlot :=
  match health_routes_ h !! route with Some r => hr_slots r !! upstream | None => None end.
Definition settings_at (h : UpstreamHealthState) (route : nat) : option HealthCheckConfig :=
  match health_routes_ h !! route with Some r => hr_config r | None => None end.

Record ProbeOutcome := mkOutcome { po_route : nat; po_upstream : nat; po_success : bool }.

Fixpoint run_records (h : UpstreamHealthState) (outcomes : list ProbeOutcome)
    : result UpstreamHealthState :=
  match outcomes with
  | [] => Ok h
  | o :: rest =>
      r ← record h (po_route o) (po_upstream o) (po_success o);
      run_records r.2 rest
  end.

Definition concerns (route upstream : nat) (o : ProbeOutcome) : bool :=
  (po_route o =? route)%nat && (po_upstream o =? upstream)%nat.

(** The outcomes of one slot, the most recent first. *)
Definition history_of (route upstream : nat) (outcomes : list ProbeOutcome) : list bool :=
  rev (po_success <$> List.filter (concerns route upstream) outcomes).

Lemma available_slot_at h r u b :
  available h r u = Ok b <-> exists slot, slot_at h r u = Some slot /\ healthy slot = b.
Proof.
  unfold available, slot_at, vec_at. destruct (health_routes_ h !! r) as [rt|]; cbn; [|naive_solver].
  destruct (hr_slots rt !! u); cbn; naive_solver.
Qed.

Lemma record_slot_at h r u b t h' :
  record h r u b = Ok (t, h') ->
  (forall r', settings_at h' r' = settings_at h r') /\
  forall r' u',
    slot_at h' r' u' =
      if decide (r' = r /\ u' = u) then
        match settings_at h r with
        | Some settings => (fun slot => (record_slot settings slot b).2) <$> slot_at h r u
        | None => slot_at h r u
        end
      else slot_at h r' u'.
Proof.
  unfold record, settings_at, slot_at, vec_at.
  destruct (health_routes_ h !! r) as [rt|] eqn:Hr; cbn; [|done].
  destruct (hr_slots rt !! u) as [slot|] eqn:Hu; cbn; [|done].
  destruct (hr_config rt) as [settings|] eqn:Hc; cbn.
  2:{ intros [= <- <-]. split; [done|]. intros r' u'. case_decide as E; [|done].
      destruct E as [-> ->]. by rewrite Hr. }
  destruct (record_slot settings slot b) as [t' slot'] eqn:Es; cbn. intros [= <- <-].
  pose proof (lookup_lt_Some _ _ _ Hr). pose proof (lookup_lt_Some _ _ _ Hu). split.
  - intros r'. cbn. destruct (decide (r' = r)) as [->|Hne].
    + by rewrite list_lookup_insert_eq, Hr, Hc by done.
    + by rewrite list_lookup_insert_ne by done.
  - intros r' u'. cbn. destruct (decide (r' = r)) as [->|Hne].
    + rewrite list_lookup_insert_eq, Hr by done; cbn. destruct (decide (u' = u)) as [->|Hne'].
      * rewrite list_lookup_insert_eq by done. by rewrite decide_True by done.
      * rewrite list_lookup_insert_ne by done. by rewrite decide_False by naive_solver.
    + rewrite list_lookup_insert_ne by done. by rewrite decide_False by naive_solver.
Qed.

Definition step_slot (settings : option HealthCheckConfig) (b : bool) (slot : HealthSlot)
    : HealthSlot :=
  match settings with Some c => (record_slot c slot b).2 | None => slot end.

Lemma run_records_slot h outcomes h' r u slot :
  run_records h outcomes = Ok h' -> slot_at h r u = Some slot ->
  settings_at h' r = settings_at h r /\
  slot_at h' r u = Some (foldr (step_slot (settings_at h r)) slot (history_of r u outcomes)).
Proof.
  revert h slot. induction outcomes as [|[r1 u1 b] outcomes IH]; intros h slot.
  { cbn. intros [= <-] ?. done. }
  cbn [run_records po_route po_upstream po_success].
  destruct (record h r1 u1 b) as [[t h1]|] eqn:E1; [|done]. intros Hrun Hslot. cbn in Hrun.
  destruct (record_slot_at h r1 u1 b t h1 E1) as [Hset Hat]. specialize (Hat r u).
  assert (Hh : history_of r u (mkOutcome r1 u1 b :: outcomes) =
    history_of r u outcomes ++ (if decide (r = r1 /\ u = u1) then [b] else [])).
  { unfold history_of, concerns. cbn [List.filter po_route po_upstream].
    destruct (decide (r = r1 /\ u = u1)) as [[<- <-]|Hne].
    - by rewrite !Nat.eqb_refl.
    - replace ((r1 =? r)%nat && (u1 =? u)%nat) with false; [by rewrite app_nil_r|].
      symmetry. apply andb_false_iff. rewrite !Nat.eqb_neq. lia. }
  rewrite Hh, foldr_app. case_decide as Ec.
  - destruct Ec as [<- <-]. rewrite Hslot in Hat.
    assert (Hs1 : slot_at h1 r u = Some (step_slot (settings_at h r) b slot))
      by (by destruct (settings_at h r)).
    destruct (IH h1 _ Hrun Hs1) as [-> ->]. by rewrite Hset.
  - rewrite Hslot in Hat. destruct (IH h1 _ Hrun Hat) as [-> ->]. by rewrite Hset.
Qed.

Lemma make_health_slot_at routes r u route :
  routes !! r = Some route -> (u < length (upstreams route))%nat ->
  slot_at (make_UpstreamHealthState routes) r u = Some fresh_slot /\
  settings_at (make_UpstreamHealthState routes) r = health_check route.
Proof.
  intros Hr Hu. unfold slot_at, settings_at, make_UpstreamHealthState; cbn.
  rewrite list_lookup_fmap, Hr; cbn. by rewrite lookup_replicate_2.
Qed.

Lemma run_slot_step settings history :
  foldr (step_slot (Some settings)) fresh_slot history = run_slot settings history.
Proof. done. Qed.

(** C23: selection sees exactly the hysteresis the configuration asks for.  After any
    sequence of recorded probe outcomes over any slots, a slot of a health-checked
    route is unavailable if and only if that slot's own outcomes contain
    [unhealthy_threshold] consecutive failures not followed by [healthy_threshold]
    consecutive successes; a slot of a route without health check is always available. *)
Theorem availability_is_hysteresis routes outcomes h r u route :
  run_records (make_UpstreamHealthState routes) outcomes = Ok h ->
  routes !! r = Some route -> (u < length (upstreams route))%nat ->
  match health_check route with
  | Some settings =>
      thresholds_ok settings ->
      exists b, available h r u = Ok b /\
        (b = false <-> ideal_unhealthy settings (history_of r u outcomes))
  | None => available h r u = Ok true
  end.
Proof.
  intros Hrun Hr Hu. destruct (make_health_slot_at routes r u route Hr Hu) as [Hs Hc].
  destruct (run_records_slot _ outcomes h r u _ Hrun Hs) as [_ Hat]. rewrite Hc in Hat.
  destruct (health_check route) as [settings|].
  - intros Hok. eexists. split; [apply available_slot_at; by eexists|].
    rewrite run_slot_step. by apply run_slot_healthy.
  - apply available_slot_at. eexists; split; [done|].
    clear Hat. induction (history_of r u outcomes) as [|b l IH]; [done|exact IH].
Qed.

(** Recording an outcome never throws on a configured slot, changes
    only the named slot, keeps both counters within their thresholds (so the 32-bit
    increments never wrap), and reports a transition exactly when availability flips. *)
Theorem record_effect h r u b settings slot :
  settings_at h r = Some settings -> slot_at h r u = Some slot -> thresholds_ok settings ->
  0 <= failures slot <= unhealthy_threshold settings ->
  0 <= successes slot <= healthy_threshold settings ->
  exists t h' slot',
    record h r u b = Ok (t, h') /\ slot_at h' r u = Some slot' /\
    (forall r' u', (r', u') <> (r, u) -> slot_at h' r' u' = slot_at h r' u') /\
    0 <= failures slot' <= unhealthy_threshold settings /\
    0 <= successes slot' <= healthy_threshold settings /\
    t = (if Bool.eqb (healthy slot) (healthy slot') then transition_unchanged
         else if healthy slot' then transition_healthy else transition_unhealthy).
Proof.
  intros Hset Hslot [Hu Hh] Hf Hs.
  assert (Hrec : exists t h', record h r u b = Ok (t, h') /\ t = (record_slot settings slot b).1).
  { unfold record, settings_at, slot_at, vec_at in *. destruct (health_routes_ h !! r) as [rt|]; [|done].
    cbn. rewrite Hslot; cbn. rewrite Hset. destruct (record_slot settings slot b) as [t s].
    by eexists _, _. }
  destruct Hrec as (t & h' & Hrec & ->). destruct (record_slot_at _ _ _ _ _ _ Hrec) as [_ Hat].
  eexists _, h', (record_slot settings slot b).2. split; [done|]. split.
  { rewrite Hat, decide_True, Hset, Hslot by done. done. }
  split; [intros r' u' Hne; rewrite Hat, decide_False; [done|]; intros [-> ->]; done|].
  unfold record_slot. rewrite !u32_small by (unfold in_u32; lia).
  destruct b, (healthy slot); cbn; case_ifs; reflect_bools; cbn; split_and!; (done || lia).
Qed.

(** ** Probe schedule: invariant *)

Definition probe_slot_ok (slot : ProbeSlot) : Prop := 100 <= interval slot <= 60000.

Definition schedule_ok (s : ProbeSchedule) : Prop :=
  Forall probe_slot_ok (slots_ s) /\
  (cursor_ s < length (slots_ s) \/ (length (slots_ s) = 0 /\ cursor_ s = 0))%nat /\
  active_ s = Z.of_nat (countb in_flight (slots_ s)) /\
  active_ s <= max_in_flight /\
  (sched_stopped_ s = true -> active_ s = 0).

Definition eligible (now : Z) (slot : ProbeSlot) : bool :=
  negb (in_flight slot) && (due slot <=? now).

(** The index [k] places after the cursor, in rotation. *)
Definition rotate (s : ProbeSchedule) (k : nat) : nat :=
  (cursor_ s + k) mod length (slots_ s).

Definition advance_cursor (s : ProbeSchedule) (k : nat) : ProbeSchedule :=
  mkSchedule (slots_ s) (rotate s k) (active_ s) (sched_stopped_ s).

Lemma cursor_step c n : (c < n -> (if c + 1 =? n then 0 else c + 1) = (c + 1) mod n)%nat.
Proof.
  intros Hc. destruct (c + 1 =? n)%nat eqn:E; reflect_bools.
  - subst. by rewrite Nat.Div0.mod_same.
  - by rewrite Nat.mod_small by lia.
Qed.

Lemma rotate_0 s : (cursor_ s < length (slots_ s))%nat -> rotate s 0 = cursor_ s.
Proof. intros. unfold rotate. rewrite Nat.add_0_r. by apply Nat.mod_small. Qed.

Lemma rotate_advance s j k : rotate (advance_cursor s j) k = rotate s (j + k).
Proof.
  unfold rotate, advance_cursor; cbn [slots_ cursor_]. unfold rotate.
  rewrite Nat.Div0.add_mod_idemp_l. f_equal. lia.
Qed.

(** What the loop over [fuel] slots finds: the first eligible slot in rotation. *)
Lemma take_due_loop_spec fuel s now :
  (cursor_ s < length (slots_ s))%nat ->
  match take_due_loop fuel s now with
  | (Some i, s') =>
      exists k slot, (k < fuel)%nat /\ i = rotate s k /\
        slots_ s !! i = Some slot /\ eligible now slot = true /\
        (forall j, (j < k)%nat -> exists sl, slots_ s !! rotate s j = Some sl /\ eligible now sl = false) /\
        s' = mkSchedule
               (<[i := mkProbeSlot (interval slot) (next_due_time now (interval slot)) true]> (slots_ s))
               (rotate s (k + 1)) (u64 (active_ s + 1)) (sched_stopped_ s)
  | (None, s') =>
      (forall j, (j < fuel)%nat -> exists sl, slots_ s !! rotate s j = Some sl /\ eligible now sl = false) /\
      s' = advance_cursor s fuel
  end.
Proof.
  revert s. induction fuel as [|fuel IH]; intros s Hc; cbn [take_due_loop].
  { split; [lia|]. destruct s; unfold advance_cursor; f_equal. symmetry. by apply rotate_0. }
  rewrite cursor_step by done. fold (rotate s 1).
  destruct (lookup_lt_is_Some_2 (slots_ s) (cursor_ s) Hc) as [slot Hslot]. rewrite Hslot.
  fold (eligible now slot). destruct (eligible now slot) eqn:El.
  - exists 0%nat, slot. rewrite rotate_0 by done. split_and!; (done || lia).
  - fold (advance_cursor s 1).
    assert (Hc1 : (cursor_ (advance_cursor s 1) < length (slots_ (advance_cursor s 1)))%nat)
      by (unfold advance_cursor, rotate; cbn [slots_ cursor_]; apply Nat.mod_upper_bound; lia).
    specialize (IH (advance_cursor s 1) Hc1).
    assert (H0 : exists sl, slots_ s !! rotate s 0 = Some sl /\ eligible now sl = false)
      by (rewrite rotate_0 by done; by exists slot).
    destruct (take_due_loop fuel (advance_cursor s 1) now) as [[i|] s'].
    + destruct IH as (k & sl & Hk & -> & Hsl & Hel & Hbefore & ->).
      setoid_rewrite rotate_advance in Hbefore. rewrite !rotate_advance in *.
      exists (1 + k)%nat, sl. split_and!; try (done || lia).
      intros [|j] Hj; [done|]. apply Hbefore. lia.
    + destruct IH as [Hall ->]. setoid_rewrite rotate_advance in Hall. split.
      * intros [|j] Hj; [done|]. apply Hall. lia.
      * unfold advance_cursor at 1 3; cbn. by rewrite rotate_advance.
Qed.

(** Rotation reaches every slot. *)
Lemma rotate_surjective s i :
  (cursor_ s < length (slots_ s))%nat -> (i < length (slots_ s))%nat ->
  exists k, (k < length (slots_ s))%nat /\ rotate s k = i.
Proof.
  intros Hc Hi. set (n := length (slots_ s)) in *.
  exists ((i + (n - cursor_ s)) mod n)%nat. split; [apply Nat.mod_upper_bound; lia|].
  unfold rotate. fold n. rewrite Nat.Div0.add_mod_idemp_r.
  replace (cursor_ s + (i + (n - cursor_ s)))%nat with (i + 1 * n)%nat by lia.
  rewrite Nat.Div0.mod_add. by apply Nat.mod_small.
Qed.

Lemma cursor_valid s :
  schedule_ok s -> slots_ s <> [] -> (cursor_ s < length (slots_ s))%nat.
Proof. intros (_ & [?|[H _]] & _) Hne; [done|]. by destruct (slots_ s). Qed.

Lemma take_due_open s now :
  sched_stopped_ s = false -> active_ s <> max_in_flight ->
  take_due s now = take_due_loop (length (slots_ s)) s now.
Proof. intros Hs Ha. unfold take_due. by rewrite Hs, (proj2 (Z.eqb_neq _ _) Ha). Qed.

Lemma take_due_closed s now :
  sched_stopped_ s = true \/ active_ s = max_in_flight -> take_due s now = (None, s).
Proof. unfold take_due. intros [-> | ->]; [done|]. by rewrite orb_true_r. Qed.

(** Either nothing may be taken, or nothing is eligible, or the first eligible slot in
    rotation is taken. *)
Lemma take_due_cases s now :
  schedule_ok s ->
  ((sched_stopped_ s = true \/ active_ s = max_in_flight) /\ take_due s now = (None, s)) \/
  (sched_stopped_ s = false /\ active_ s < max_in_flight /\
   ((Forall (fun slot => eligible now slot = false) (slots_ s) /\ take_due s now = (None, s)) \/
    exists i slot, slots_ s !! i = Some slot /\ eligible now slot = true /\
      take_due s now =
        (Some i, mkSchedule
           (<[i := mkProbeSlot (interval slot) (next_due_time now (interval slot)) true]> (slots_ s))
           ((i + 1) mod length (slots_ s)) (active_ s + 1) false) /\
      exists k, i = rotate s k /\
        forall j, (j < k)%nat -> exists sl, slots_ s !! rotate s j = Some sl /\ eligible now sl = false)).
Proof.
  intros Hok. destruct (sched_stopped_ s) eqn:Hs; [left; split; [by left|by apply take_due_closed; left]|].
  destruct (Z.eq_dec (active_ s) max_in_flight) as [Ha|Ha];
    [left; split; [by right|by apply take_due_closed; right]|].
  right. pose proof Hok as (_ & _ & Hcount & Hmax & _). split_and!; [done|lia|].
  rewrite take_due_open by done. destruct (slots_ s) as [|sl0 rest] eqn:Hslots; [by left|].
  rewrite <- Hslots in *. assert (Hc : (cursor_ s < length (slots_ s))%nat)
    by (apply cursor_valid; [done|congruence]).
  pose proof (take_due_loop_spec (length (slots_ s)) s now Hc) as Hl.
  destruct (take_due_loop _ _ _) as [[i|] s'].
  - right. destruct Hl as (k & slot & Hk & -> & Hsl & Hel & Hbefore & ->).
    exists (rotate s k), slot. split_and!; [done|done| |by exists k].
    do 2 f_equal.
    + unfold rotate. rewrite Nat.Div0.add_mod_idemp_l. f_equal. lia.
    + apply u64_small. unfold in_u64, max_in_flight in *. lia.
    + done.
  - left. destruct Hl as [Hall ->]. split.
    + apply Forall_lookup_2. intros i sl Hi. pose proof (lookup_lt_Some _ _ _ Hi).
      destruct (rotate_surjective s i Hc ltac:(done)) as (k & Hk & <-).
      destruct (Hall k Hk) as (sl' & Hsl' & ?). congruence.
    + f_equal. unfold advance_cursor. destruct s as [sl c a st]; unfold rotate; cbn in *.
      f_equal. rewrite <- (Nat.mul_1_l (length sl)) at 1. rewrite Nat.Div0.mod_add.
      by apply Nat.mod_small.
Qed.

Lemma take_due_ok s now : schedule_ok s -> schedule_ok (take_due s now).2.
Proof.
  intros Hok.
  destruct (take_due_cases s now Hok) as [[_ ->]|(Hs & Ha & [[_ ->]|(i & slot & Hi & Hel & -> & _)])];
    [done|done|].
  destruct Hok as (Hf & Hc & Hcount & _). unfold schedule_ok; cbn [slots_ cursor_ active_ sched_stopped_ snd].
  pose proof (lookup_lt_Some _ _ _ Hi). rewrite !length_insert.
  split; [apply Forall_insert; [done|by apply (Forall_lookup_1 _ _ _ _ Hf Hi)]|].
  split; [left; apply Nat.mod_upper_bound; lia|].
  apply andb_true_iff in Hel as [Hin _]. apply negb_true_iff in Hin.
  pose proof (countb_insert in_flight (slots_ s) i slot
    (mkProbeSlot (interval slot) (next_due_time now (interval slot)) true) Hi) as Hci.
  rewrite Hin in Hci. cbn [in_flight] in Hci. unfold max_in_flight in *. split_and!; [lia|lia|done].
Qed.

Lemma complete_ok s i s' : schedule_ok s -> complete s i = Ok s' -> schedule_ok s'.
Proof.
  intros Hok. unfold complete. destruct (vec_at (slots_ s) i) as [entry|] eqn:Hi; [|done]; cbn.
  apply vec_at_Ok in Hi. destruct (in_flight entry) eqn:Hin; [|by intros [= <-]].
  intros [= <-]. destruct Hok as (Hf & Hc & Hcount & Hmax & Hstop).
  pose proof (countb_pos in_flight _ _ _ Hi Hin) as Hpos.
  pose proof (countb_insert in_flight (slots_ s) i entry
    (mkProbeSlot (interval entry) (due entry) false) Hi) as Hci.
  rewrite Hin in Hci. cbn [in_flight] in Hci. unfold max_in_flight in *.
  unfold schedule_ok; cbn [slots_ cursor_ active_ sched_stopped_].
  rewrite u64_small by (unfold in_u64; lia). rewrite !length_insert.
  split_and!; [|done|lia|unfold max_in_flight; lia|].
  - apply Forall_insert; [done|by apply (Forall_lookup_1 _ _ _ _ Hf Hi)].
  - intros E. specialize (Hstop E). lia.
Qed.

Lemma schedule_stop_ok s : schedule_ok s -> schedule_ok (schedule_stop s).
Proof.
  intros (Hf & Hc & _). unfold schedule_ok, schedule_stop; cbn [slots_ cursor_ active_ sched_stopped_].
  rewrite !length_fmap. split_and!; [|done| |done|done].
  - apply Forall_fmap. eapply Forall_impl; [exact Hf|done].
  - rewrite countb_zero; [done|]. apply Forall_fmap. by apply Forall_true.
Qed.

Lemma make_slots_ok intervals now slots :
  make_slots intervals now = Ok slots ->
  Forall probe_slot_ok slots /\ Forall (fun slot => in_flight slot = false) slots.
Proof.
  revert slots. induction intervals as [|i rest IH]; intros slots; cbn; [by intros [= <-]|].
  destruct (_ || _)%bool eqn:E; [done|]. destruct (make_slots rest now) as [sl|]; cbn; [|done].
  intros [= <-]. destruct (IH sl eq_refl). reflect_bools.
  split; constructor; (done || unfold probe_slot_ok; cbn; lia).
Qed.

Lemma make_schedule_ok intervals now s : make_ProbeSchedule intervals now = Ok s -> schedule_ok s.
Proof.
  unfold make_ProbeSchedule. destruct (make_slots intervals now) as [sl|] eqn:E; cbn; [|done].
  intros [= <-]. apply make_slots_ok in E as [Hf Hin].
  unfold schedule_ok; cbn [slots_ cursor_ active_ sched_stopped_].
  rewrite countb_zero by done. split_and!; try done. destruct sl; cbn; lia.
Qed.

(** The schedules the health checker can reach. *)
Inductive schedule_reachable : ProbeSchedule -> Prop :=
  | sched_make intervals now s :
      make_ProbeSchedule intervals now = Ok s -> schedule_reachable s
  | sched_take s now : schedule_reachable s -> schedule_reachable (take_due s now).2
  | sched_complete s i s' :
      schedule_reachable s -> complete s i = Ok s' -> schedule_reachable s'
  | sched_stop s : schedule_reachable s -> schedule_reachable (schedule_stop s).

Lemma schedule_reachable_ok s : schedule_reachable s -> schedule_ok s.
Proof.
  induction 1 as [intervals now s H|s now _ IH|s i s' _ IH H|s _ IH].
  - by eapply make_schedule_ok.
  - by apply take_due_ok.
  - by eapply complete_ok.
  - by apply schedule_stop_ok.
Qed.

(** ** Properties of the schedule *)

(** At most four probes are in flight, and the count is exact.  In every reachable
    schedule [active] is the number of slots marked in flight, never above four, zero
    once stopped, and the rotation cursor is a valid index. *)
Theorem probes_in_flight_bounded s :
  schedule_reachable s ->
  active s = Z.of_nat (countb in_flight (slots_ s)) /\ active s <= 4 /\
  (slots_ s <> [] -> (cursor_ s < length (slots_ s))%nat) /\
  (sched_stopped_ s = true -> active s = 0).
Proof.
  intros Hr. pose proof (schedule_reachable_ok s Hr) as Hok.
  pose proof Hok as (_ & _ & Hc & Hm & Hs). split_and!; [done|done| |done].
  intros. by apply cursor_valid.
Qed.

(** [take_due] is work-conserving and fair.  On a reachable schedule it returns a
    slot exactly when probing is open and some slot is idle and due; the slot returned
    is the first such one in rotation from the cursor, the next search starts just
    after it, its next due time is one interval later (saturating at the end of the
    clock), and no other slot changes. *)
Theorem take_due_fair s now :
  schedule_reachable s ->
  match take_due s now with
  | (None, s') =>
      s' = s /\ (sched_stopped_ s = true \/ active s = 4 \/
                Forall (fun slot => eligible now slot = false) (slots_ s))
  | (Some i, s') =>
      exists k slot, i = rotate s k /\ slots_ s !! i = Some slot /\ eligible now slot = true /\
        (forall j, (j < k)%nat -> exists sl, slots_ s !! rotate s j = Some sl /\ eligible now sl = false) /\
        slots_ s' !! i =
          Some (mkProbeSlot (interval slot)
                  (Z.min s64_max (now + interval slot * ticks_per_ms)) true) /\
        (forall j, j <> i -> slots_ s' !! j = slots_ s !! j) /\
        cursor_ s' = ((i + 1) mod length (slots_ s))%nat /\ active s' = active s + 1
  end.
Proof.
  intros Hr. pose proof (schedule_reachable_ok s Hr) as Hok.
  destruct (take_due_cases s now Hok) as
    [[Hcl ->]|(Hs & Ha & [[Hall ->]|(i & slot & Hi & Hel & -> & k & Hk & Hbefore)])].
  - split; [done|]. destruct Hcl; [by left|by right; left].
  - split; [done|]. by right; right.
  - exists k, slot. cbn [slots_ cursor_]. split_and!; try done.
    + rewrite list_lookup_insert_eq by (by apply lookup_lt_Some in Hi).
      do 2 f_equal. unfold next_due_time, s64_max, ticks_per_ms. case_ifs; reflect_bools; lia.
    + intros j Hj. by rewrite list_lookup_insert_ne.
Qed.

(** The scan of [next_due] finds a lower bound of the idle due times ... *)
Lemma next_due_lower slots next :
  (forall d, next = Some d -> exists t, foldl earlier_due next slots = Some t /\ t <= d) /\
  Forall (fun slot => in_flight slot = false ->
            exists t, foldl earlier_due next slots = Some t /\ t <= due slot) slots.
Proof.
  revert next. induction slots as [|slot slots IH]; intros next; cbn [foldl].
  { split; [|constructor]. intros d ->. exists d. split; [done|lia]. }
  destruct (IH (earlier_due next slot)) as [Hn Hall]. split; [|constructor; [|exact Hall]].
  - intros d ->. destruct (in_flight slot) eqn:Hin; unfold earlier_due in Hn at 1; rewrite Hin in Hn;
      cbn in Hn; [by apply Hn|].
    destruct (due slot <? d) eqn:E; reflect_bools; [|by apply Hn].
    destruct (Hn _ eq_refl) as (t & Ht & Hle). exists t. split; [done|lia].
  - intros Hin. unfold earlier_due in Hn at 1. rewrite Hin in Hn. cbn in Hn.
    destruct next as [d|]; [|by apply Hn].
    destruct (due slot <? d) eqn:E; reflect_bools; [by apply Hn|].
    destruct (Hn _ eq_refl) as (t & Ht & Hle). exists t. split; [done|lia].
Qed.

(** ... that one of them attains. *)
Lemma next_due_attained slots next t :
  foldl earlier_due next slots = Some t ->
  next = Some t \/ exists i slot, slots !! i = Some slot /\ in_flight slot = false /\ due slot = t.
Proof.
  revert next. induction slots as [|slot slots IH]; intros next; cbn [foldl]; [by left|].
  intros H. destruct (IH _ H) as [E|(i & sl & Hi & Hsl)]; [|right; by exists (S i), sl].
  unfold earlier_due in E. destruct (in_flight slot) eqn:Hin; cbn in E; [by left|].
  destruct (match next with None => true | Some d => due slot <? d end); [|by left].
  right. exists 0%nat, slot. split_and!; [done|done|congruence].
Qed.

(** The timer armed from [next_due] is exact.  On a reachable schedule, before the
    time it names nothing can be taken, at or after it something can; and when it names
    no time, nothing can ever be taken without a completion, so no wake-up is lost. *)
Theorem next_due_exact s :
  schedule_reachable s ->
  match next_due s with
  | Some t =>
      (forall now, now < t -> (take_due s now).1 = None) /\
      (forall now, t <= now -> exists i, (take_due s now).1 = Some i)
  | None => forall now, (take_due s now).1 = None
  end.
Proof.
  intros Hr. pose proof (schedule_reachable_ok s Hr) as Hok. unfold next_due.
  destruct (sched_stopped_ s) eqn:Hs; [intros now; by rewrite take_due_closed by (by left)|].
  destruct (active_ s =? max_in_flight) eqn:Ha; reflect_bools; cbn [orb].
  { intros now. by rewrite take_due_closed by (by right). }
  destruct (next_due_lower (slots_ s) None) as [_ Hlow].
  assert (Hnone : forall now, (forall i slot, slots_ s !! i = Some slot -> in_flight slot = false ->
                                now < due slot) -> (take_due s now).1 = None).
  { intros now H. destruct (take_due_cases s now Hok) as
      [[_ ->]|(_ & _ & [[_ ->]|(i & slot & Hi & Hel & _)])]; [done|done|].
    apply andb_true_iff in Hel as [Hin Hd]. reflect_bools. specialize (H i slot Hi Hin). lia. }
  destruct (foldl earlier_due None (slots_ s)) as [t|] eqn:E.
  - split; intros now Hnow.
    + apply Hnone. intros i slot Hi Hin.
      destruct (Forall_lookup_1 _ _ _ _ Hlow Hi Hin) as (t' & [= ->] & ?). lia.
    + apply next_due_attained in E as [?|(i & slot & Hi & Hin & <-)]; [done|].
      destruct (take_due_cases s now Hok) as
        [[[?|?] _]|(_ & _ & [[Hall _]|(j & sl & _ & _ & -> & _)])]; [congruence|done| |by eexists].
      pose proof (Forall_lookup_1 _ _ _ _ Hall Hi) as Hel. unfold eligible in Hel.
      rewrite Hin, (proj2 (Z.leb_le _ _)) in Hel by done. done.
  - intros now. apply Hnone. intros i slot Hi Hin.
    by destruct (Forall_lookup_1 _ _ _ _ Hlow Hi Hin) as (t' & ? & ?).
Qed.

(** ** Witnesses *)

Definition sample_settings : HealthCheckConfig := mkHealthCheck (L "/up") 5000 1000 3 2.
Definition sample_route : RouteConfig :=
  mkRoute (L "/api") [mkUpstream (L "a") 80 3000 http; mkUpstream (L "b") 80 3000 http]
    false None (Some sample_settings) None false.

Definition sample_outcomes : list ProbeOutcome :=
  (fun b => mkOutcome 0 1 b) <$> [false; false; false; true].

Definition sample_health : UpstreamHealthState :=
  mkHealth [mkHealthRoute (Some sample_settings) [fresh_slot; mkHealthSlot false 0 1]].

Lemma availability_is_hysteresis_witness :
  available sample_health 0 1 = Ok false /\
  ideal_unhealthy sample_settings (history_of 0 1 sample_outcomes).
Proof.
  destruct (availability_is_hysteresis [sample_route] sample_outcomes sample_health 0 1 sample_route)
    as (b & Hb & Hi); [vm_compute; reflexivity|reflexivity|cbn; lia|split; cbn; lia|].
  split; [reflexivity|]. apply Hi. vm_compute in Hb. by injection Hb.
Defined.

Lemma record_effect_witness :
  exists t h' slot',
    record sample_health 0 1 true = Ok (t, h') /\ slot_at h' 0 1 = Some slot' /\
    (forall r' u', (r', u') <> (0%nat, 1%nat) -> slot_at h' r' u' = slot_at sample_health r' u') /\
    0 <= failures slot' <= unhealthy_threshold sample_settings /\
    0 <= successes slot' <= healthy_threshold sample_settings /\
    t = (if Bool.eqb (healthy (mkHealthSlot false 0 1)) (healthy slot') then transition_unchanged
         else if healthy slot' then transition_healthy else transition_unhealthy).
Proof.
  apply (record_effect sample_health 0 1 true sample_settings (mkHealthSlot false 0 1)).
  - reflexivity.
  - reflexivity.
  - split; cbn; lia.
  - cbn. lia.
  - cbn. lia.
Defined.

Definition sample_schedule : ProbeSchedule :=
  mkSchedule [mkProbeSlot 5000 0 false; mkProbeSlot 100 0 false] 0 0 false.

Lemma sample_schedule_reachable : schedule_reachable sample_schedule.
Proof. apply (sched_make [5000; 100] 0). vm_compute. reflexivity. Qed.

Lemma probes_in_flight_bounded_witness :
  active sample_schedule = Z.of_nat (countb in_flight (slots_ sample_schedule)) /\
  active sample_schedule <= 4 /\
  (slots_ sample_schedule <> [] ->
     (cursor_ sample_schedule < length (slots_ sample_schedule))%nat) /\
  (sched_stopped_ sample_schedule = true -> active sample_schedule = 0).
Proof. apply (probes_in_flight_bounded sample_schedule), sample_schedule_reachable. Defined.

Lemma take_due_fair_witness :
  exists k slot, 0%nat = rotate sample_schedule k /\
    slots_ sample_schedule !! 0%nat = Some slot /\ eligible 7 slot = true.
Proof.
  pose proof (take_due_fair sample_schedule 7 sample_schedule_reachable) as H.
  destruct H as (k & slot & Hk & Hs & He & _). exists k, slot. split_and!; assumption.
Defined.

Lemma next_due_exact_witness :
  (forall now, now < 0 -> (take_due sample_schedule now).1 = None) /\
  (forall now, 0 <= now -> exists i, (take_due sample_schedule now).1 = Some i).
Proof. exact (next_due_exact sample_schedule sample_schedule_reachable). Defined.
