(* ===== verification/UpstreamPool.v ===== *)
(** * The upstream connection pool (src/upstream_pool.hpp, src/upstream_pool.cpp)

    An [UpstreamConnection] is held by exactly one [unique_ptr] at a time: an idle slot
    of the pool, or the exchange that leased it.  The operations are those of the
    source; each returns, beside the new pool, the connections it destroyed (their
    destructor closes the socket).  What the operating system would answer about a
    socket is an argument: [sockets] gives the observable state of a connection's
    socket at the time of the call, and [arm_fails] whether the cleanup timer throws
    when armed.  Times are steady-clock ticks. *)

From S2P Require Import Prelude ConfigTypes Errors.

Local Open Scope Z_scope.

(** ** UpstreamConnection *)

Record UpstreamConnection := mkConnection {
  conn_id : nat;                (* the object's identity *)
  backend_ : UpstreamConfig;
  context_ : TlsHandle;
  has_tls : bool }.             (* [tls_ != nullptr] *)

#[export] Instance UpstreamConnection_eq_dec : EqDecision UpstreamConnection.
Proof. solve_decision. Defined.

(** The constructor: HTTPS without a validated trust context is refused. *)
Definition make_UpstreamConnection (id : nat) (backend : UpstreamConfig) (context : TlsHandle)
    : result UpstreamConnection :=
  if bool_decide (scheme backend = https) then
    match context with
    | None => Throw (invalid_argument "HTTPS connection requires validated trust")
    | Some _ => Ok (mkConnection id backend context true)
    end
  else Ok (mkConnection id backend context false).

(** What the socket layer answers: [socket.is_open()], [SSL_has_pending(...) != 0], and
    [socket.available(error)] with its error. *)
Record SocketState := mkSocket {
  is_open : bool;
  ssl_pending : bool;
  available_error : error_code;
  available_bytes : Z }.

Definition Sockets : Type := UpstreamConnection -> SocketState.

Definition matches (c : UpstreamConnection) (backend : UpstreamConfig) (context : TlsHandle) : bool :=
  text_eqb (host (backend_ c)) (host backend) && (port (backend_ c) =? port backend) &&
  bool_decide (scheme (backend_ c) = scheme backend) && bool_decide (context_ c = context).

Definition clean (sockets : Sockets) (c : UpstreamConnection) : bool :=
  let socket := sockets c in
  if negb (is_open socket) || (has_tls c && ssl_pending socket) then false
  else negb (failed (available_error socket)) && (available_bytes socket =? 0).

(** [close()]: the diagnostics written, given the results of cancel, shutdown and
    close; the descriptor is closed whatever they answer. *)
Definition close (socket : SocketState) (cancelled shutdown closed : error_code)
    : list (string * error_code) * SocketState :=
  if negb (is_open socket) then ([], socket)
  else
    ((if failed cancelled && negb (error_is cancelled not_connected)
      then [("http_upstream_pool_cancel_failed"%string, cancelled)] else []) ++
     (if failed shutdown && negb (error_is shutdown not_connected)
      then [("http_upstream_pool_shutdown_failed"%string, shutdown)] else []) ++
     (if failed closed then [("http_upstream_pool_close_failed"%string, closed)] else []),
     mkSocket false (ssl_pending socket) (available_error socket) (available_bytes socket)).

(** ** UpstreamPool *)

Definition max_idle : nat := 32.
Definition idle_timeout : Z := 30000000000.

Record Idle := mkIdle {
  connection : UpstreamConnection;
  deadline : Z }.

Record UpstreamPool := mkPool {
  idle_ : list (option Idle);
  timer_pending_ : bool;
  pool_stopped_ : bool;
  cleanup_expiry_ : Z }.        (* the time [cleanup_] was last armed for *)

Definition make_UpstreamPool : UpstreamPool := mkPool (replicate max_idle None) false false 0.

Fixpoint expire_loop (now : Z) (entries : list (option Idle))
    : list UpstreamConnection * list (option Idle) :=
  match entries with
  | [] => ([], [])
  | None :: rest => let '(dead, rest') := expire_loop now rest in (dead, None :: rest')
  | Some slot :: rest =>
      let '(dead, rest') := expire_loop now rest in
      if deadline slot <=? now then (connection slot :: dead, None :: rest')
      else (dead, Some slot :: rest')
  end.

Definition expire (p : UpstreamPool) (now : Z) : list UpstreamConnection * UpstreamPool :=
  let '(dead, entries) := expire_loop now (idle_ p) in
  (dead, mkPool entries (timer_pending_ p) (pool_stopped_ p) (cleanup_expiry_ p)).

Fixpoint take_loop (sockets : Sockets) (backend : UpstreamConfig) (context : TlsHandle)
    (entries : list (option Idle))
    : option UpstreamConnection * list UpstreamConnection * list (option Idle) :=
  match entries with
  | [] => (None, [], [])
  | None :: rest =>
      let '(lease, dead, rest') := take_loop sockets backend context rest in
      (lease, dead, None :: rest')
  | Some slot :: rest =>
      if matches (connection slot) backend context then
        if negb (clean sockets (connection slot)) then
          let '(lease, dead, rest') := take_loop sockets backend context rest in
          (lease, connection slot :: dead, None :: rest')
        else (Some (connection slot), [], None :: rest)
      else
        let '(lease, dead, rest') := take_loop sockets backend context rest in
        (lease, dead, Some slot :: rest')
  end.

Definition take (sockets : Sockets) (p : UpstreamPool) (backend : UpstreamConfig)
    (context : TlsHandle) (now : Z)
    : option UpstreamConnection * list UpstreamConnection * UpstreamPool :=
  if pool_stopped_ p then (None, [], p)
  else
    let '(dead1, p) := expire p now in
    let '(lease, dead2, entries) := take_loop sockets backend context (idle_ p) in
    (lease, dead1 ++ dead2,
     mkPool entries (timer_pending_ p) (pool_stopped_ p) (cleanup_expiry_ p)).

(** The idle entries' connections, in slot order. *)
Fixpoint idle_connections (entries : list (option Idle)) : list UpstreamConnection :=
  match entries with
  | [] => []
  | Some slot :: rest => connection slot :: idle_connections rest
  | None :: rest => idle_connections rest
  end.

Definition pool_stop (p : UpstreamPool) : list UpstreamConnection * UpstreamPool :=
  if pool_stopped_ p then ([], p)
  else (idle_connections (idle_ p),
        mkPool ((fun _ => None) <$> idle_ p) (timer_pending_ p) true (cleanup_expiry_ p)).

Definition earliest (next : option Z) (entry : option Idle) : option Z :=
  match entry with
  | None => next
  | Some slot =>
      match next with
      | None => Some (deadline slot)
      | Some d => if deadline slot <? d then Some (deadline slot) else next
      end
  end.

(** [None] when arming the timer throws. *)
Definition arm_cleanup (arm_fails : bool) (p : UpstreamPool) : option UpstreamPool :=
  if pool_stopped_ p || timer_pending_ p then Some p
  else match foldl earliest None (idle_ p) with
       | None => Some p
       | Some d => if arm_fails then None
                   else Some (mkPool (idle_ p) true (pool_stopped_ p) d)
       end.

(** The handler of [catch (...)]: an unarmed pool is stopped. *)
Definition arm_or_stop (arm_fails : bool) (p : UpstreamPool)
    : list UpstreamConnection * UpstreamPool :=
  match arm_cleanup arm_fails p with
  | Some p' => ([], p')
  | None => pool_stop p
  end.

Definition idle_deadline (now : Z) : Z :=
  if s64_max - idle_timeout <? now then s64_max else now + idle_timeout.

(** The first empty slot, if any, gets the connection. *)
Fixpoint fill_first (entry : Idle) (entries : list (option Idle)) : option (list (option Idle)) :=
  match entries with
  | [] => None
  | None :: rest => Some (Some entry :: rest)
  | Some slot :: rest => cons (Some slot) <$> fill_first entry rest
  end.

(** [connection] may be a null lease. *)
Definition put (sockets : Sockets) (arm_fails : bool) (p : UpstreamPool)
    (lease : option UpstreamConnection) (now : Z) : list UpstreamConnection * UpstreamPool :=
  match lease with
  | None => ([], p)
  | Some c =>
      if pool_stopped_ p || negb (clean sockets c) then ([c], p)
      else
        let '(dead, p) := expire p now in
        match fill_first (mkIdle c (idle_deadline now)) (idle_ p) with
        | None => (dead ++ [c], p)
        | Some entries =>
            let '(dead', p') :=
              arm_or_stop arm_fails
                (mkPool entries (timer_pending_ p) (pool_stopped_ p) (cleanup_expiry_ p)) in
            (dead ++ dead', p')
        end
  end.

(** The completion of the cleanup timer's wait, at time [now]. *)
Definition on_cleanup_timer (arm_fails : bool) (p : UpstreamPool) (error : error_code) (now : Z)
    : list UpstreamConnection * UpstreamPool :=
  if pool_stopped_ p then ([], p)
  else
    let p := mkPool (idle_ p) false (pool_stopped_ p) (cleanup_expiry_ p) in
    if failed error then
      if negb (error_is error operation_aborted) then pool_stop p else ([], p)
    else
      let '(dead, p) := expire p now in
      let '(dead', p') := arm_or_stop arm_fails p in
      (dead ++ dead', p').

Definition idle_count (p : UpstreamPool) : nat :=
  countb (fun entry => match entry with Some _ => true | None => false end) (idle_ p).

(** ** Lemmas on the slot loops *)

Lemma idle_connections_app l k :
  idle_connections (l ++ k) = idle_connections l ++ idle_connections k.
Proof. induction l as [|[s|] l IH]; cbn; [done|by rewrite IH|done]. Qed.

Lemma idle_connections_None n : idle_connections (replicate n None) = [].
Proof. by induction n. Qed.

Lemma idle_connections_clear entries :
  idle_connections ((fun _ : option Idle => None) <$> entries) = [].
Proof. induction entries as [|[slot|] rest IH]; done. Qed.

(** What one pass of [expire] keeps and destroys. *)
Definition expired (now : Z) (entry : option Idle) : bool :=
  match entry with Some slot => deadline slot <=? now | None => false end.
Definition keep_unexpired (now : Z) (entry : option Idle) : option Idle :=
  if expired now entry then None else entry.

Lemma expire_loop_spec now entries :
  expire_loop now entries =
  (idle_connections (List.filter (expired now) entries), keep_unexpired now <$> entries).
Proof.
  induction entries as [|[slot|] rest IH]; [done| |]; cbn; rewrite IH; [|done].
  change (keep_unexpired now (Some slot)) with
    (if deadline slot <=? now then None else Some slot).
  by destruct (deadline slot <=? now).
Qed.

Lemma filter_keep_perm now entries :
  idle_connections entries ≡ₚ
  idle_connections (List.filter (expired now) entries) ++
  idle_connections (keep_unexpired now <$> entries).
Proof.
  induction entries as [|[slot|] rest IH]; [done| |]; cbn; [|exact IH].
  change (keep_unexpired now (Some slot)) with
    (if deadline slot <=? now then None else Some slot).
  destruct (deadline slot <=? now); cbn; rewrite IH at 1; [done|]. apply Permutation_middle.
Qed.

Lemma expire_conserves p now dead p' :
  expire p now = (dead, p') ->
  idle_connections (idle_ p) ≡ₚ dead ++ idle_connections (idle_ p').
Proof.
  unfold expire. rewrite expire_loop_spec. intros [= <- <-]. apply filter_keep_perm.
Qed.

(** A usable idle entry for a request to [backend]. *)
Definition usable (sockets : Sockets) (backend : UpstreamConfig) (context : TlsHandle)
    (entry : option Idle) : bool :=
  match entry with
  | Some slot => matches (connection slot) backend context && clean sockets (connection slot)
  | None => false
  end.

Lemma take_loop_conserves sockets backend context entries lease dead entries' :
  take_loop sockets backend context entries = (lease, dead, entries') ->
  idle_connections entries ≡ₚ option_list lease ++ dead ++ idle_connections entries' /\
  length entries' = length entries.
Proof.
  revert lease dead entries'. induction entries as [|[slot|] rest IH]; cbn;
    intros lease dead entries' E.
  - by injection E as <- <- <-.
  - destruct (take_loop sockets backend context rest) as [[l d] r] eqn:T.
    destruct (IH _ _ _ eq_refl) as [IHp IHl].
    destruct (matches _ _ _).
    + destruct (clean _ _); injection E as <- <- <-; cbn; [done|].
      rewrite IHp. split; [|lia]. rewrite Permutation_middle. by rewrite app_comm_cons.
    + injection E as <- <- <-. cbn. rewrite IHp. split; [|lia].
      rewrite !app_assoc. apply Permutation_middle.
  - destruct (take_loop sockets backend context rest) as [[l d] r] eqn:T.
    destruct (IH _ _ _ eq_refl) as [IHp IHl].
    injection E as <- <- <-. cbn. split; [done|lia].
Qed.

(** The loop leases the first usable entry and nothing else; every entry of another
    backend stays where it is. *)
Lemma take_loop_first sockets backend context entries :
  (take_loop sockets backend context entries).1.1 =
  connection <$> (List.find (usable sockets backend context) entries ≫= id).
Proof.
  induction entries as [|[slot|] rest IH]; [done| |]; cbn;
    destruct (take_loop sockets backend context rest) as [[l d] r] eqn:T; cbn in *.
  - destruct (matches _ _ _); cbn; [|exact IH]. destruct (clean _ _); cbn; [done|exact IH].
  - exact IH.
Qed.

Lemma take_loop_others sockets backend context entries i slot :
  entries !! i = Some (Some slot) ->
  matches (connection slot) backend context = false ->
  (take_loop sockets backend context entries).2 !! i = Some (Some slot).
Proof.
  revert i. induction entries as [|[s|] rest IH]; intros i Hi Hm; [done| |]; cbn;
    destruct (take_loop sockets backend context rest) as [[l d] r] eqn:T; cbn in *;
    destruct i as [|i]; cbn in *.
  - injection Hi as ->. by rewrite Hm.
  - destruct (matches (connection s) _ _); [destruct (clean _ _)|]; cbn; auto.
  - done.
  - auto.
Qed.

Lemma take_loop_subset sockets backend context entries i slot :
  (take_loop sockets backend context entries).2 !! i = Some (Some slot) ->
  entries !! i = Some (Some slot).
Proof.
  revert i. induction entries as [|[s|] rest IH]; intros i Hi; [done| |]; cbn in *;
    destruct (take_loop sockets backend context rest) as [[l d] r] eqn:T; cbn in *.
  - destruct (matches (connection s) _ _); [destruct (clean _ _)|]; destruct i as [|i];
      cbn in *; by auto.
  - destruct i as [|i]; cbn in *; by auto.
Qed.

Lemma fill_first_spec entry entries entries' :
  fill_first entry entries = Some entries' ->
  exists i, entries !! i = Some None /\ entries' = <[i := Some entry]> entries.
Proof.
  revert entries'. induction entries as [|[slot|] rest IH]; intros entries' E; cbn in E.
  - done.
  - apply fmap_Some in E as (r & Hr & ->). destruct (IH _ Hr) as (i & Hi & ->).
    by exists (S i).
  - injection E as <-. by exists 0%nat.
Qed.

Lemma idle_connections_insert entries i entry :
  entries !! i = Some None ->
  idle_connections (<[i := Some entry]> entries) ≡ₚ connection entry :: idle_connections entries.
Proof.
  revert i. induction entries as [|[slot|] rest IH]; intros [|i] Hi; cbn in *; try done.
  - rewrite (IH i) by done. apply perm_swap.
  - by rewrite (IH i).
Qed.

(** ** Conservation: a connection is in exactly one place *)

Lemma pool_stop_conserves p dead p' :
  pool_stop p = (dead, p') ->
  idle_connections (idle_ p) ≡ₚ dead ++ idle_connections (idle_ p').
Proof.
  unfold pool_stop. destruct (pool_stopped_ p); intros [= <- <-]; [done|].
  cbn [idle_]. by rewrite idle_connections_clear, app_nil_r.
Qed.

Lemma arm_cleanup_idle arm_fails p p' :
  arm_cleanup arm_fails p = Some p' -> idle_ p' = idle_ p /\ pool_stopped_ p' = pool_stopped_ p.
Proof.
  unfold arm_cleanup. destruct (_ || _); [by intros [= <-]|].
  destruct (foldl _ _ _); [|by intros [= <-]].
  destruct arm_fails; [done|]. by intros [= <-].
Qed.

Lemma arm_or_stop_conserves arm_fails p dead p' :
  arm_or_stop arm_fails p = (dead, p') ->
  idle_connections (idle_ p) ≡ₚ dead ++ idle_connections (idle_ p').
Proof.
  unfold arm_or_stop. destruct (arm_cleanup arm_fails p) as [q|] eqn:E.
  - apply arm_cleanup_idle in E as [E _]. intros [= <- <-]. by rewrite E.
  - apply pool_stop_conserves.
Qed.

Lemma take_conserves sockets p backend context now lease dead p' :
  take sockets p backend context now = (lease, dead, p') ->
  idle_connections (idle_ p) ≡ₚ option_list lease ++ dead ++ idle_connections (idle_ p').
Proof.
  unfold take. destruct (pool_stopped_ p); [by intros [= <- <- <-]|].
  destruct (expire p now) as [dead1 q] eqn:E1.
  destruct (take_loop _ _ _ _) as [[l dead2] entries] eqn:E2. intros [= <- <- <-].
  apply expire_conserves in E1 as ->. apply take_loop_conserves in E2 as [-> _].
  cbn [idle_]. rewrite !app_assoc. f_equiv. f_equiv. apply Permutation_app_comm.
Qed.

Lemma put_conserves sockets arm_fails p lease now dead p' :
  put sockets arm_fails p lease now = (dead, p') ->
  option_list lease ++ idle_connections (idle_ p) ≡ₚ dead ++ idle_connections (idle_ p').
Proof.
  unfold put. destruct lease as [c|]; [|by intros [= <- <-]].
  destruct (_ || _); [by intros [= <- <-]|].
  destruct (expire p now) as [dead1 q] eqn:E1. apply expire_conserves in E1.
  destruct (fill_first _ _) as [entries|] eqn:E2.
  - destruct (arm_or_stop _ _) as [dead2 r] eqn:E3. intros [= <- <-].
    apply arm_or_stop_conserves in E3. cbn [idle_] in E3.
    apply fill_first_spec in E2 as (i & Hi & ->).
    rewrite (idle_connections_insert _ _ _ Hi) in E3. cbn [connection] in E3.
    rewrite <- app_assoc, <- E3, E1. cbn. apply Permutation_middle.
  - intros [= <- <-]. rewrite E1. cbn. rewrite <- app_assoc. cbn. apply Permutation_middle.
Qed.

Lemma on_cleanup_timer_conserves arm_fails p error now dead p' :
  on_cleanup_timer arm_fails p error now = (dead, p') ->
  idle_connections (idle_ p) ≡ₚ dead ++ idle_connections (idle_ p').
Proof.
  unfold on_cleanup_timer. destruct (pool_stopped_ p); [by intros [= <- <-]|].
  destruct (failed error).
  - destruct (negb _); [|by intros [= <- <-]].
    intros E%pool_stop_conserves. exact E.
  - destruct (expire _ now) as [dead1 q] eqn:E1.
    destruct (arm_or_stop _ _) as [dead2 r] eqn:E2. intros [= <- <-].
    apply expire_conserves in E1. apply arm_or_stop_conserves in E2. cbn [idle_] in E1.
    by rewrite E1, E2, app_assoc.
Qed.

(** The pool together with the leases out of it. *)
Record PoolWorld := mkPoolWorld {
  pool : UpstreamPool;
  leased : list UpstreamConnection;       (* held by exchanges *)
  destroyed : list UpstreamConnection;
  created : list UpstreamConnection }.

Inductive PoolOp :=
  | PoolConnect (backend : UpstreamConfig) (context : TlsHandle)
  | PoolTake (sockets : Sockets) (backend : UpstreamConfig) (context : TlsHandle) (now : Z)
  | PoolPut (sockets : Sockets) (arm_fails : bool) (i : nat) (now : Z)
  | PoolDrop (i : nat)
  | PoolExpire (now : Z)
  | PoolTimer (arm_fails : bool) (error : error_code) (now : Z)
  | PoolStop.

Definition with_pool (w : PoolWorld) (leases : list UpstreamConnection)
    (outcome : list UpstreamConnection * UpstreamPool) : PoolWorld :=
  mkPoolWorld outcome.2 leases (outcome.1 ++ destroyed w) (created w).

Definition pool_step (w : PoolWorld) (op : PoolOp) : PoolWorld :=
  match op with
  | PoolConnect backend context =>
      match make_UpstreamConnection (length (created w)) backend context with
      | Ok c => mkPoolWorld (pool w) (c :: leased w) (destroyed w) (c :: created w)
      | Throw _ => w
      end
  | PoolTake sockets backend context now =>
      let '(lease, dead, p) := take sockets (pool w) backend context now in
      with_pool w (option_list lease ++ leased w) (dead, p)
  | PoolPut sockets arm_fails i now =>
      match leased w !! i with
      | Some c => with_pool w (delete i (leased w)) (put sockets arm_fails (pool w) (Some c) now)
      | None => w
      end
  | PoolDrop i =>
      match leased w !! i with
      | Some c => with_pool w (delete i (leased w)) ([c], pool w)
      | None => w
      end
  | PoolExpire now => with_pool w (leased w) (expire (pool w) now)
  | PoolTimer arm_fails err now =>
      with_pool w (leased w) (on_cleanup_timer arm_fails (pool w) err now)
  | PoolStop => with_pool w (leased w) (pool_stop (pool w))
  end.

Definition fresh_pool_world : PoolWorld := mkPoolWorld make_UpstreamPool [] [] [].
Definition run_pool (w : PoolWorld) (ops : list PoolOp) : PoolWorld := foldl pool_step w ops.

Definition everywhere (w : PoolWorld) : list UpstreamConnection :=
  idle_connections (idle_ (pool w)) ++ leased w ++ destroyed w.

Definition conserved (w : PoolWorld) : Prop :=
  everywhere w ≡ₚ created w /\ conn_id <$> created w = reverse (seq 0 (length (created w))).

Lemma with_pool_conserved w leases back dead p :
  conserved w ->
  leased w ++ idle_connections (idle_ (pool w)) ≡ₚ
    leases ++ dead ++ idle_connections (idle_ p) ->
  back = (dead, p) ->
  conserved (with_pool w leases back).
Proof.
  intros [H1 H2] Hp ->. split; [|exact H2]. rewrite <- H1.
  unfold everywhere. cbn. rewrite !app_assoc. f_equiv.
  rewrite (Permutation_app_comm (idle_connections (idle_ (pool w)))), Hp.
  rewrite (Permutation_app_comm (idle_connections (idle_ p)) leases), <- !app_assoc.
  f_equiv. apply Permutation_app_comm.
Qed.

Lemma make_UpstreamConnection_id id backend context c :
  make_UpstreamConnection id backend context = Ok c -> conn_id c = id.
Proof.
  unfold make_UpstreamConnection. destruct (bool_decide _); [|by intros [= <-]].
  destruct context; [|done]. by intros [= <-].
Qed.

Lemma pool_step_conserved w op : conserved w -> conserved (pool_step w op).
Proof.
  intros H. destruct op as [backend context|sockets backend context now|sockets af i now|i|now|af err now|];
    cbn [pool_step].
  - destruct (make_UpstreamConnection _ _ _) as [c|] eqn:E; [|done].
    apply make_UpstreamConnection_id in E. destruct H as [H1 H2].
    split; unfold everywhere in *; cbn.
    + rewrite <- H1. symmetry. apply Permutation_middle.
    + rewrite H2, E. by rewrite <- (reverse_snoc (seq 0 _) _), <- seq_S.
  - destruct (take _ _ _ _ _) as [[lease dead] p] eqn:E. apply take_conserves in E.
    refine (with_pool_conserved _ _ _ _ _ H _ eq_refl).
    rewrite E, !app_assoc. do 2 f_equiv. apply Permutation_app_comm.
  - destruct (leased w !! i) as [c|] eqn:Hi; [|done].
    destruct (put _ _ _ _ _) as [dead p] eqn:E. apply put_conserves in E.
    refine (with_pool_conserved _ _ _ _ _ H _ eq_refl).
    rewrite <- E, (delete_Permutation _ _ _ Hi) at 1. cbn. apply Permutation_middle.
  - destruct (leased w !! i) as [c|] eqn:Hi; [|done].
    refine (with_pool_conserved _ _ _ _ _ H _ eq_refl).
    rewrite (delete_Permutation _ _ _ Hi) at 1. cbn. apply Permutation_middle.
  - destruct (expire _ _) as [dead p] eqn:E. apply expire_conserves in E.
    refine (with_pool_conserved _ _ _ _ _ H _ eq_refl). by rewrite E.
  - destruct (on_cleanup_timer _ _ _ _) as [dead p] eqn:E. apply on_cleanup_timer_conserves in E.
    refine (with_pool_conserved _ _ _ _ _ H _ eq_refl). by rewrite E.
  - destruct (pool_stop _) as [dead p] eqn:E. apply pool_stop_conserves in E.
    refine (with_pool_conserved _ _ _ _ _ H _ eq_refl). by rewrite E.
Qed.

Lemma run_pool_conserved w ops : conserved w -> conserved (run_pool w ops).
Proof. revert w. induction ops as [|op ops IH]; intros w H; [done|]. by apply IH, pool_step_conserved. Qed.

(** ** The slots and the cleanup timer *)

(** The slot array keeps its size, and a stopped pool is empty. *)
Definition pool_shape (p : UpstreamPool) : Prop :=
  length (idle_ p) = max_idle /\ (pool_stopped_ p = true -> idle_connections (idle_ p) = []).

Lemma idle_connections_elem entries c :
  c ∈ idle_connections entries <-> exists i slot, entries !! i = Some (Some slot) /\ connection slot = c.
Proof.
  induction entries as [|[s|] rest IH]; cbn.
  - split; [by intros ?%elem_of_nil|]. by intros (i & s & Hi & _).
  - rewrite elem_of_cons, IH. split.
    + intros [->|(i & s' & Hi & Hs)]; [by exists 0%nat, s|by exists (S i), s'].
    + intros ([|i] & s' & Hi & Hs); cbn in Hi; [left; congruence|right; eauto].
  - rewrite IH. split.
    + intros (i & s' & Hi & Hs). by exists (S i), s'.
    + intros ([|i] & s' & Hi & Hs); cbn in Hi; [done|eauto].
Qed.

Lemma idle_connections_nil entries :
  idle_connections entries = [] <-> forall (i : nat) slot, entries !! i <> Some (Some slot).
Proof.
  split.
  - intros E i slot Hi. assert (H : connection slot ∈ idle_connections entries)
      by (apply idle_connections_elem; eauto). rewrite E in H. by apply elem_of_nil in H.
  - intros H. destruct (idle_connections entries) as [|c l] eqn:E; [done|].
    assert (Hc : c ∈ idle_connections entries) by (rewrite E; left).
    apply idle_connections_elem in Hc as (i & s & Hi & _). by destruct (H i s).
Qed.

Lemma keep_unexpired_lookup now (entries : list (option Idle)) (i : nat) slot :
  (keep_unexpired now <$> entries) !! i = Some (Some slot) <->
  entries !! i = Some (Some slot) /\ now < deadline slot.
Proof.
  rewrite list_lookup_fmap, fmap_Some. unfold keep_unexpired. split.
  - intros ([s|] & Hi & E); cbn in E; [|done].
    destruct (deadline s <=? now) eqn:D; [done|]. injection E as ->. reflect_bools. split; [done|lia].
  - intros [Hi Hd]. exists (Some slot). split; [done|]. cbn.
    by replace (deadline slot <=? now) with false by (symmetry; apply Z.leb_gt; lia).
Qed.

(** Every idle deadline satisfies [P], and the timer guards them all. *)
Definition timer_guards (p : UpstreamPool) : Prop :=
  forall i slot, idle_ p !! i = Some (Some slot) ->
    timer_pending_ p = true /\ cleanup_expiry_ p <= deadline slot.

Definition pool_timed (clock : Z) (p : UpstreamPool) : Prop :=
  timer_guards p /\
  (timer_pending_ p = true -> cleanup_expiry_ p <= idle_deadline clock) /\
  (forall i slot, idle_ p !! i = Some (Some slot) -> deadline slot <= idle_deadline clock).

Lemma idle_deadline_mono a b : a <= b -> idle_deadline a <= idle_deadline b.
Proof. unfold idle_deadline, idle_timeout, s64_max. case_ifs; reflect_bools; lia. Qed.

(** Keeping a subset of the entries keeps the invariants. *)
Lemma pool_timed_subset clock now p entries :
  pool_timed clock p -> clock <= now ->
  (forall (i : nat) slot, entries !! i = Some (Some slot) -> idle_ p !! i = Some (Some slot)) ->
  pool_timed now (mkPool entries (timer_pending_ p) (pool_stopped_ p) (cleanup_expiry_ p)).
Proof.
  intros (G & T & D) Hc Hs. pose proof (idle_deadline_mono _ _ Hc).
  repeat split; cbn in *.
  - by eapply G, Hs.
  - by eapply G, Hs.
  - intros Ht. specialize (T Ht). lia.
  - intros i slot Hi. specialize (D i slot (Hs _ _ Hi)). lia.
Qed.

Lemma expire_entries p now :
  (expire p now).2 =
  mkPool (keep_unexpired now <$> idle_ p) (timer_pending_ p) (pool_stopped_ p) (cleanup_expiry_ p).
Proof. unfold expire. by rewrite expire_loop_spec. Qed.

Lemma expire_timed clock now p :
  pool_timed clock p -> clock <= now -> pool_timed now (expire p now).2.
Proof.
  intros H Hc. rewrite expire_entries. eapply pool_timed_subset; [done..|].
  intros i slot Hi. by apply keep_unexpired_lookup in Hi as [? _].
Qed.

Lemma foldl_earliest (entries : list (option Idle)) next d :
  foldl earliest next entries = Some d ->
  (forall e, next = Some e -> d <= e) /\
  (forall (i : nat) slot, entries !! i = Some (Some slot) -> d <= deadline slot) /\
  (next = Some d \/ exists i slot, entries !! i = Some (Some slot) /\ deadline slot = d).
Proof.
  revert next. induction entries as [|x rest IH]; intros next E; cbn in E.
  { split; [intros e He; rewrite E in He; injection He; lia|]. split; [done|by left]. }
  destruct (IH _ E) as (H1 & H2 & H3). split; [|split].
  - intros e ->. destruct x as [s|]; cbn in H1; [|by apply H1].
    destruct (deadline s <? e) eqn:D; [|by apply H1]. specialize (H1 _ eq_refl). reflect_bools. lia.
  - intros [|i] slot Hi; cbn in Hi; [|by eapply H2].
    injection Hi as ->. cbn in H1. destruct next as [e|]; [|by apply H1].
    destruct (deadline slot <? e) eqn:D; [by apply H1|]. specialize (H1 _ eq_refl). reflect_bools. lia.
  - destruct H3 as [H3|(i & s & Hi & Hs)]; [|right; by exists (S i), s].
    destruct x as [s|]; cbn in H3; [|by left].
    destruct next as [e|]; [destruct (deadline s <? e)|];
      first [by left | right; exists 0%nat, s; split; [done|congruence]].
Qed.

Lemma foldl_earliest_None (entries : list (option Idle)) next :
  foldl earliest next entries = None ->
  next = None /\ forall (i : nat) slot, entries !! i <> Some (Some slot).
Proof.
  revert next. induction entries as [|x rest IH]; intros next E; cbn in E; [done|].
  destruct (IH _ E) as [H1 H2]. destruct x as [s|]; cbn in H1.
  - destruct next as [e|]; [destruct (deadline s <? e)|]; done.
  - split; [done|]. intros [|i] slot Hi; [done|]. by eapply H2.
Qed.

(** Arming establishes the guard, given bounded deadlines. *)
Lemma arm_cleanup_timed now arm_fails p p' :
  pool_stopped_ p = false ->
  (timer_pending_ p = true -> pool_timed now p) ->
  (forall i slot, idle_ p !! i = Some (Some slot) -> deadline slot <= idle_deadline now) ->
  arm_cleanup arm_fails p = Some p' -> pool_timed now p'.
Proof.
  unfold arm_cleanup. intros Hs Ht Hd. rewrite Hs. cbn.
  destruct (timer_pending_ p) eqn:P; [intros [= <-]; by apply Ht|].
  destruct (foldl earliest None (idle_ p)) as [d|] eqn:E.
  - destruct arm_fails; [done|]. intros [= <-].
    destruct (foldl_earliest _ _ _ E) as (_ & H2 & H3).
    split; [|split]; cbn.
    + intros i slot Hi. cbn in *. split; [done|by eapply H2].
    + intros _. destruct H3 as [|(i & s & Hi & <-)]; [done|by eapply Hd].
    + exact Hd.
  - intros [= <-]. destruct (foldl_earliest_None _ _ E) as [_ H].
    split; [|split].
    + intros i slot Hi. by destruct (H i slot).
    + congruence.
    + exact Hd.
Qed.

Lemma empty_timed now p :
  (forall i slot, idle_ p !! i <> Some (Some slot)) ->
  (timer_pending_ p = true -> cleanup_expiry_ p <= idle_deadline now) -> pool_timed now p.
Proof.
  intros H T. split; [|split]; [| done |]; intros i slot Hi; by destruct (H i slot).
Qed.

Lemma pool_stop_timed clock now p :
  pool_timed clock p -> clock <= now -> pool_timed now (pool_stop p).2.
Proof.
  intros H Hc. unfold pool_stop. destruct p as [entries t s e]. cbn. destruct s.
  - cbn. by apply (pool_timed_subset clock now (mkPool entries t true e) entries).
  - apply empty_timed; cbn.
    + apply idle_connections_nil, idle_connections_clear.
    + intros ->. destruct H as (_ & T & _). specialize (T eq_refl). cbn in T.
      pose proof (idle_deadline_mono _ _ Hc). lia.
Qed.

Lemma arm_or_stop_timed now arm_fails p :
  pool_stopped_ p = false ->
  (timer_pending_ p = true -> pool_timed now p) ->
  (forall i slot, idle_ p !! i = Some (Some slot) -> deadline slot <= idle_deadline now) ->
  pool_timed now (arm_or_stop arm_fails p).2.
Proof.
  intros Hs Ht Hd. unfold arm_or_stop. destruct (arm_cleanup arm_fails p) as [q|] eqn:E.
  - by eapply arm_cleanup_timed.
  - unfold pool_stop. rewrite Hs. cbn. apply empty_timed; cbn.
    + apply idle_connections_nil, idle_connections_clear.
    + intros P. destruct (Ht P) as (_ & T & _). auto.
Qed.

Lemma put_timed clock sockets arm_fails p lease now :
  pool_timed clock p -> clock <= now ->
  pool_timed now (put sockets arm_fails p lease now).2.
Proof.
  intros H Hc.
  assert (Hn : pool_timed now p)
    by (destruct p as [es t s e]; by apply (pool_timed_subset clock now (mkPool es t s e) es)).
  unfold put. destruct lease as [c|]; [|done].
  destruct (pool_stopped_ p || negb (clean sockets c)) eqn:S; [done|]. reflect_bools.
  pose proof (expire_timed clock now p H Hc) as Hq. rewrite (surjective_pairing (expire p now)).
  assert (Hs : pool_stopped_ (expire p now).2 = false) by (by rewrite expire_entries).
  set (q := (expire p now).2) in *. clearbody q.
  destruct (fill_first _ _) as [entries|] eqn:E; [|done].
  apply fill_first_spec in E as (i & Hi & ->).
  rewrite (surjective_pairing (arm_or_stop _ _)). cbn [snd].
  assert (Hd : forall j slot, <[i:=Some (mkIdle c (idle_deadline now))]> (idle_ q) !! j = Some (Some slot) ->
                slot = mkIdle c (idle_deadline now) \/ idle_ q !! j = Some (Some slot)).
  { intros j slot Hj. apply list_lookup_insert_Some in Hj as [(_ & E & _)|[_ E]]; [left|by right].
    by injection E. }
  destruct Hq as (G & T & D). apply arm_or_stop_timed; cbn; [done| |].
  - intros P. split; [|split]; cbn; [| exact T |].
    + intros j slot Hj. apply Hd in Hj as [->|Hj]; cbn; [by auto|].
      by apply (G j).
    + intros j slot Hj. apply Hd in Hj as [->|Hj]; cbn; [lia|by eapply D].
  - intros j slot Hj. apply Hd in Hj as [->|Hj]; cbn; [lia|by eapply D].
Qed.

Lemma take_timed clock sockets p backend context now :
  pool_timed clock p -> clock <= now ->
  pool_timed now (take sockets p backend context now).2.
Proof.
  intros H Hc. unfold take. destruct (pool_stopped_ p) eqn:S.
  - cbn. destruct p as [es t s e]. by apply (pool_timed_subset clock now (mkPool es t s e) es).
  - pose proof (expire_timed clock now p H Hc) as Hq. rewrite (surjective_pairing (expire p now)).
    set (q := (expire p now).2) in *. clearbody q.
    pose proof (take_loop_subset sockets backend context (idle_ q)) as Hsub.
    destruct (take_loop _ _ _ _) as [[l dead2] entries] eqn:E2. cbn in *.
    eapply pool_timed_subset; [done|lia|]. eauto.
Qed.

Lemma on_cleanup_timer_timed clock arm_fails p err now :
  pool_timed clock p -> clock <= now ->
  (pool_stopped_ p = false -> error_is err operation_aborted = false) ->
  pool_timed now (on_cleanup_timer arm_fails p err now).2.
Proof.
  intros H Hc Herr. unfold on_cleanup_timer. destruct (pool_stopped_ p) eqn:S.
  { cbn. destruct p as [es t s e]. by apply (pool_timed_subset clock now (mkPool es t s e) es). }
  rewrite (Herr eq_refl). cbn [negb]. destruct (failed err).
  { unfold pool_stop. cbn. apply empty_timed; [|done].
    apply idle_connections_nil, idle_connections_clear. }
  rewrite (surjective_pairing (expire _ now)), expire_entries. cbn [snd idle_ timer_pending_ pool_stopped_ cleanup_expiry_].
  rewrite (surjective_pairing (arm_or_stop _ _)). cbn [snd].
  apply arm_or_stop_timed; cbn; [done|done|].
  intros i slot Hi. apply keep_unexpired_lookup in Hi as [Hi _].
  destruct H as (_ & _ & D). specialize (D _ _ Hi). pose proof (idle_deadline_mono _ _ Hc). lia.
Qed.

(** ** The shape *)

Lemma pool_stop_shape p : pool_shape p -> pool_shape (pool_stop p).2.
Proof.
  unfold pool_stop. intros [Hl Hs]. destruct (pool_stopped_ p) eqn:S; cbn.
  - split; [done|]. intros _. by apply Hs.
  - split; cbn; [by rewrite length_fmap|]. intros _. apply idle_connections_clear.
Qed.

Lemma arm_or_stop_shape arm_fails p : pool_shape p -> pool_shape (arm_or_stop arm_fails p).2.
Proof.
  intros H. unfold arm_or_stop. destruct (arm_cleanup arm_fails p) as [q|] eqn:E.
  - apply arm_cleanup_idle in E as [E1 E2]. unfold pool_shape. cbn. by rewrite E1, E2.
  - by apply pool_stop_shape.
Qed.

Lemma expire_shape p now : pool_shape p -> pool_shape (expire p now).2.
Proof.
  intros [Hl Hs]. rewrite expire_entries. split; cbn; [by rewrite length_fmap|].
  intros E%Hs. apply idle_connections_nil. intros i slot [Hi _]%keep_unexpired_lookup.
  rewrite idle_connections_nil in E. by eapply E.
Qed.

Lemma put_shape sockets arm_fails p lease now :
  pool_shape p -> pool_shape (put sockets arm_fails p lease now).2.
Proof.
  intros H. unfold put. destruct lease as [c|]; [|done].
  destruct (pool_stopped_ p || _) eqn:S; [done|]. reflect_bools.
  pose proof (expire_shape p now H) as Hq. rewrite (surjective_pairing (expire p now)).
  assert (Hs : pool_stopped_ (expire p now).2 = false) by (by rewrite expire_entries).
  set (q := (expire p now).2) in *. clearbody q.
  destruct (fill_first _ _) as [entries|] eqn:E; [|done].
  apply fill_first_spec in E as (i & Hi & ->).
  rewrite (surjective_pairing (arm_or_stop _ _)). cbn [snd]. apply arm_or_stop_shape.
  split; cbn; [|congruence]. rewrite length_insert. apply Hq.
Qed.

Lemma take_shape sockets p backend context now :
  pool_shape p -> pool_shape (take sockets p backend context now).2.
Proof.
  intros H. unfold take. destruct (pool_stopped_ p) eqn:S; [done|].
  pose proof (expire_shape p now H) as Hq. rewrite (surjective_pairing (expire p now)).
  assert (Hs : pool_stopped_ (expire p now).2 = false) by (by rewrite expire_entries).
  set (q := (expire p now).2) in *. clearbody q.
  destruct (take_loop _ _ _ _) as [[l dead2] entries] eqn:E2. cbn.
  apply take_loop_conserves in E2 as [_ E2]. split; cbn; [|congruence].
  rewrite E2. apply Hq.
Qed.

Lemma on_cleanup_timer_shape arm_fails p err now :
  pool_shape p -> pool_shape (on_cleanup_timer arm_fails p err now).2.
Proof.
  intros H. unfold on_cleanup_timer. destruct (pool_stopped_ p) eqn:S; [done|].
  assert (Hq : pool_shape (mkPool (idle_ p) false false (cleanup_expiry_ p))) by (by split; [apply H|]).
  destruct (failed err).
  - destruct (negb _); [by apply pool_stop_shape|done].
  - rewrite (surjective_pairing (expire _ now)).
    rewrite (surjective_pairing (arm_or_stop _ _)). cbn [snd].
    by apply arm_or_stop_shape, expire_shape.
Qed.

Lemma pool_step_shape w op : pool_shape (pool w) -> pool_shape (pool (pool_step w op)).
Proof.
  intros H. destruct op as [backend context|sockets backend context now|sockets af i now|i|now|af err now|];
    cbn [pool_step].
  - by destruct (make_UpstreamConnection _ _ _).
  - pose proof (take_shape sockets _ backend context now H) as Hs.
    by destruct (take _ _ _ _ _) as [[lease dead] p].
  - destruct (leased w !! i); [|done]. by apply put_shape.
  - by destruct (leased w !! i).
  - by apply expire_shape.
  - by apply on_cleanup_timer_shape.
  - by apply pool_stop_shape.
Qed.

Lemma run_pool_shape w ops : pool_shape (pool w) -> pool_shape (pool (run_pool w ops)).
Proof. revert w. induction ops as [|op ops IH]; intros w H; [done|]. by apply IH, pool_step_shape. Qed.

Lemma fresh_pool_shape : pool_shape make_UpstreamPool.
Proof. done. Qed.

(** Times given to the operations, and the timer's promise: [operation_aborted] reaches
    the callback only after [cancel], which only [stop] calls. *)
Definition op_time (op : PoolOp) : option Z :=
  match op with
  | PoolTake _ _ _ now | PoolPut _ _ _ now | PoolExpire now | PoolTimer _ _ now => Some now
  | PoolConnect _ _ | PoolDrop _ | PoolStop => None
  end.

Inductive pool_reachable : Z -> PoolWorld -> Prop :=
  | pool_reach_fresh clock : pool_reachable clock fresh_pool_world
  | pool_reach_step clock w op :
      pool_reachable clock w ->
      (forall now, op_time op = Some now -> clock <= now) ->
      (forall af err now, op = PoolTimer af err now -> pool_stopped_ (pool w) = false ->
         error_is err operation_aborted = false) ->
      pool_reachable (default clock (op_time op)) (pool_step w op).

Lemma pool_reachable_timed clock w : pool_reachable clock w -> pool_timed clock (pool w).
Proof.
  induction 1 as [clock|clock w op _ IH Ht He].
  { apply empty_timed; [|done]. apply idle_connections_nil, idle_connections_None. }
  destruct op as [backend context|sockets backend context now|sockets af i now|i|now|af err now|];
    cbn [pool_step op_time default] in *.
  - by destruct (make_UpstreamConnection _ _ _).
  - pose proof (take_timed clock sockets _ backend context now IH (Ht _ eq_refl)) as Hs.
    by destruct (take _ _ _ _ _) as [[lease dead] p].
  - specialize (Ht _ eq_refl). destruct (leased w !! i).
    + by apply (put_timed clock).
    + destruct (pool w) as [es t s e].
      by apply (pool_timed_subset clock now (mkPool es t s e) es).
  - by destruct (leased w !! i).
  - by apply (expire_timed clock); [|apply Ht].
  - apply (on_cleanup_timer_timed clock); [done|by apply Ht|by eapply He].
  - by apply (pool_stop_timed clock).
Qed.

(** A connection speaks TLS, with its context, exactly when its backend is HTTPS. *)
Definition well_typed (c : UpstreamConnection) : Prop :=
  has_tls c = bool_decide (scheme (backend_ c) = https) /\
  (scheme (backend_ c) = https -> context_ c <> None).

Lemma make_UpstreamConnection_typed id backend context c :
  make_UpstreamConnection id backend context = Ok c -> well_typed c.
Proof.
  unfold make_UpstreamConnection, well_typed.
  destruct (bool_decide (scheme backend = https)) eqn:E.
  - destruct context; [|done]. intros [= <-]. cbn. by rewrite E.
  - intros [= <-]. cbn. rewrite E. split; [done|]. by apply bool_decide_eq_false in E.
Qed.

Lemma run_pool_created_typed w ops :
  Forall well_typed (created w) -> Forall well_typed (created (run_pool w ops)).
Proof.
  revert w. induction ops as [|op ops IH]; intros w H; [done|]. apply IH.
  destruct op; cbn [pool_step]; try done.
  - destruct (make_UpstreamConnection _ _ _) as [c|] eqn:E; [|done].
    apply make_UpstreamConnection_typed in E. by constructor.
  - by destruct (take _ _ _ _ _) as [[lease dead] p].
  - by destruct (leased w !! i).
  - by destruct (leased w !! i).
Qed.

Lemma fresh_conserved : conserved fresh_pool_world.
Proof. done. Qed.

Lemma run_typed ops i slot :
  idle_ (pool (run_pool fresh_pool_world ops)) !! i = Some (Some slot) -> well_typed (connection slot).
Proof.
  intros Hi. pose proof (run_pool_created_typed fresh_pool_world ops (Forall_nil_2 _)) as H.
  rewrite Forall_forall in H. apply H.
  rewrite <- (proj1 (run_pool_conserved _ ops fresh_conserved)).
  apply elem_of_app. left. apply idle_connections_elem. eauto.
Qed.

Lemma find_usable sockets backend context (entries : list (option Idle)) slot :
  List.find (usable sockets backend context) entries = Some (Some slot) ->
  (exists i : nat, entries !! i = Some (Some slot)) /\
  matches (connection slot) backend context = true /\ clean sockets (connection slot) = true.
Proof.
  intros E. apply List.find_some in E as [Hin Hu]. cbn in Hu. reflect_bools.
  apply list_elem_of_In, list_elem_of_lookup_1 in Hin. done.
Qed.

Lemma matches_true c backend context :
  matches c backend context = true ->
  host (backend_ c) = host backend /\ port (backend_ c) = port backend /\
  scheme (backend_ c) = scheme backend /\ context_ c = context.
Proof.
  unfold matches. rewrite !andb_true_iff, text_eqb_true, Z.eqb_eq, !bool_decide_eq_true. tauto.
Qed.

Lemma fill_first_None entry (entries : list (option Idle)) :
  fill_first entry entries = None <-> length (idle_connections entries) = length entries.
Proof.
  assert (Hle : forall l, (length (idle_connections l) <= length l)%nat)
    by (induction l as [|[s|] l IHl]; cbn; lia).
  induction entries as [|[s|] rest IH]; cbn; [done| |].
  - rewrite fmap_None, IH. lia.
  - split; [done|]. specialize (Hle rest). lia.
Qed.

Lemma arm_or_stop_cases arm_fails p dead q (i : nat) slot :
  pool_stopped_ p = false -> idle_ p !! i = Some (Some slot) ->
  arm_or_stop arm_fails p = (dead, q) ->
  (dead = [] /\ pool_stopped_ q = false /\ timer_pending_ q = true /\ idle_ q = idle_ p) \/
  (arm_fails = true /\ pool_stopped_ q = true /\ idle_connections (idle_ q) = []).
Proof.
  unfold arm_or_stop, arm_cleanup. intros S Hi. rewrite S. cbn [orb].
  destruct (timer_pending_ p) eqn:T; [intros [= <- <-]; by left|].
  destruct (foldl earliest None _) as [d|] eqn:Fd.
  - destruct arm_fails; [|intros [= <- <-]; by left].
    unfold pool_stop. rewrite S. intros [= <- <-]. right. cbn.
    by rewrite idle_connections_clear.
  - exfalso. apply foldl_earliest_None in Fd as [_ Fd]. by eapply Fd.
Qed.

(** ** The pool's properties *)

(** C24: a transport is in exactly one place.  After any sequence of connects, takes,
    puts, dropped leases, expiries, timer callbacks and stops, with any answers of the
    socket layer, the connections ever created are precisely those idle in the pool,
    those leased to an exchange and those destroyed, none of them twice; the pool holds
    at most 32, and none once stopped. *)
Theorem pool_lease_exclusive (ops : list PoolOp) :
  let w := run_pool fresh_pool_world ops in
  idle_connections (idle_ (pool w)) ++ leased w ++ destroyed w ≡ₚ created w /\
  NoDup (conn_id <$> idle_connections (idle_ (pool w)) ++ leased w ++ destroyed w) /\
  (length (idle_connections (idle_ (pool w))) <= 32)%nat /\
  (pool_stopped_ (pool w) = true -> idle_connections (idle_ (pool w)) = []).
Proof.
  intros w. destruct (run_pool_conserved _ ops fresh_conserved) as [H1 H2].
  destruct (run_pool_shape fresh_pool_world ops fresh_pool_shape) as [H3 H4].
  fold w in H1, H2, H3, H4. split; [exact H1|]. split; [|split; [|exact H4]].
  - unfold everywhere in H1. rewrite H1, H2, reverse_Permutation. apply NoDup_ListNoDup, seq_NoDup.
  - change 32%nat with max_idle. rewrite <- H3. generalize (idle_ (pool w)).
    induction l as [|[s|] l IHl]; cbn; lia.
Qed.

(** A reused transport is the right one.  In any run, a lease that [take] returns
    was idle, unexpired, clean now, for the same host, port, scheme and trust context,
    and it speaks TLS exactly when the backend asks for HTTPS; the entries left are
    unexpired old ones, those of other backends included; and when [take] finds nothing
    in a running pool, no unexpired matching idle connection was clean. *)
Theorem take_returns_matching (ops : list PoolOp) sockets backend context now lease dead p' :
  let p := pool (run_pool fresh_pool_world ops) in
  take sockets p backend context now = (lease, dead, p') ->
  (forall c, lease = Some c ->
     (exists i slot, idle_ p !! i = Some (Some slot) /\ connection slot = c /\ now < deadline slot) /\
     clean sockets c = true /\ host (backend_ c) = host backend /\
     port (backend_ c) = port backend /\ context_ c = context /\
     has_tls c = bool_decide (scheme backend = https) /\
     (scheme backend = https -> context <> None)) /\
  (lease = None -> pool_stopped_ p = false ->
     forall i slot, idle_ p !! i = Some (Some slot) -> now < deadline slot ->
       matches (connection slot) backend context = true -> clean sockets (connection slot) = false) /\
  (pool_stopped_ p = false -> forall i slot,
     idle_ p' !! i = Some (Some slot) -> idle_ p !! i = Some (Some slot) /\ now < deadline slot) /\
  (forall i slot, idle_ p !! i = Some (Some slot) -> now < deadline slot ->
     matches (connection slot) backend context = false -> idle_ p' !! i = Some (Some slot)).
Proof.
  intros p. unfold take. destruct (pool_stopped_ p) eqn:S.
  { intros [= <- <- <-]. by split_and!. }
  rewrite (surjective_pairing (expire p now)), expire_entries. cbn [idle_].
  pose proof (take_loop_first sockets backend context (keep_unexpired now <$> idle_ p)) as F.
  pose proof (take_loop_subset sockets backend context (keep_unexpired now <$> idle_ p)) as Sub.
  pose proof (take_loop_others sockets backend context (keep_unexpired now <$> idle_ p)) as Oth.
  destruct (take_loop _ _ _ _) as [[l dead2] entries] eqn:E. intros [= <- <- <-].
  cbn [fst snd idle_] in *. split_and!.
  - intros c ->. symmetry in F. apply fmap_Some in F as (slot & F & ->).
    apply bind_Some in F as (o & F & Ho). cbn in Ho. subst o.
    apply find_usable in F as ((i & Hi) & Hm & Hc).
    apply keep_unexpired_lookup in Hi as [Hi Hd].
    apply matches_true in Hm as (M1 & M2 & M3 & M4).
    destruct (run_typed ops i slot Hi) as [W1 W2]. rewrite M3 in W1, W2. rewrite M4 in W2.
    split_and!; eauto.
  - intros -> _ i slot Hi Hd Hm. symmetry in F.
    destruct (clean sockets (connection slot)) eqn:C; [|done]. exfalso.
    destruct (List.find _ _) as [o|] eqn:Fi.
    + destruct o as [s|]; [done|]. apply List.find_some in Fi as [_ Fi]. done.
    + eapply List.find_none in Fi; [|apply list_elem_of_In, list_elem_of_lookup_2 with i;
        by apply keep_unexpired_lookup]. cbn in Fi. by rewrite Hm, C in Fi.
  - intros _ i slot Hi. by apply Sub, keep_unexpired_lookup in Hi.
  - intros i slot Hi Hd Hm. apply Oth; [|done]. by apply keep_unexpired_lookup.
Qed.

(** What [put] does with a lease.  A null lease changes nothing; a stopped pool or
    a connection with pending data destroys it; otherwise expired entries go, and the
    connection is kept with a 30-second deadline unless 32 live entries remain (then it
    is destroyed and no idle entry is evicted) or the cleanup timer cannot be armed
    (then the pool stops and everything idle is destroyed). *)
Theorem put_effect (ops : list PoolOp) sockets arm_fails lease now dead p' :
  let p := pool (run_pool fresh_pool_world ops) in
  let live := idle_connections (keep_unexpired now <$> idle_ p) in
  put sockets arm_fails p lease now = (dead, p') ->
  (lease = None -> dead = [] /\ p' = p) /\
  forall c, lease = Some c ->
    (pool_stopped_ p || negb (clean sockets c) = true -> dead = [c] /\ p' = p) /\
    (pool_stopped_ p || negb (clean sockets c) = false ->
      (length live = 32%nat -> c ∈ dead /\ idle_connections (idle_ p') = live /\ pool_stopped_ p' = false) /\
      (length live <> 32%nat ->
        (pool_stopped_ p' = false /\ timer_pending_ p' = true /\
         idle_connections (idle_ p') ≡ₚ c :: live /\
         exists i, idle_ p' !! i = Some (Some (mkIdle c (idle_deadline now)))) \/
        (arm_fails = true /\ pool_stopped_ p' = true /\ idle_connections (idle_ p') = [] /\
         dead ≡ₚ c :: idle_connections (idle_ p)))).
Proof.
  intros p live E. split.
  { intros ->. by injection E as <- <-. }
  intros c ->. pose proof E as Cons. apply put_conserves in Cons. cbn [option_list] in Cons.
  pose proof (proj1 (run_pool_shape fresh_pool_world ops fresh_pool_shape)) as Hl. fold p in Hl.
  unfold put in E. destruct (pool_stopped_ p || negb (clean sockets c)) eqn:G.
  { split; [|done]. intros _. by injection E as <- <-. }
  split; [done|]. intros _. reflect_bools.
  rewrite (surjective_pairing (expire p now)), expire_entries in E. cbn [idle_] in E.
  assert (Hlive : fill_first (mkIdle c (idle_deadline now)) (keep_unexpired now <$> idle_ p) = None <->
                  length live = 32%nat)
    by (rewrite fill_first_None, length_fmap, Hl; done).
  destruct (fill_first _ _) as [entries|] eqn:F.
  - split; [intros Hn; by apply Hlive in Hn|intros _].
    apply fill_first_spec in F as (i & Hi & ->).
    destruct (arm_or_stop _ _) as [dead2 q] eqn:A. injection E as E1 <-.
    pose proof (idle_connections_insert _ _ (mkIdle c (idle_deadline now)) Hi) as Ins.
    assert (Hat : <[i:=Some (mkIdle c (idle_deadline now))]> (keep_unexpired now <$> idle_ p) !! i =
                  Some (Some (mkIdle c (idle_deadline now))))
      by (apply list_lookup_insert_eq; by eapply lookup_lt_Some).
    eapply arm_or_stop_cases in A as [(-> & A1 & A2 & A3)|(A1 & A2 & A3)]; [..|exact H|exact Hat].
    + left. rewrite A3. split_and!; eauto.
    + right. rewrite A3, app_nil_r in Cons. split_and!; [done..|]. by rewrite <- Cons.
  - split; [intros _|intros Hn; destruct Hn; by apply Hlive].
    injection E as <- <-. cbn. split; [|done]. apply elem_of_app. right. by left.
Qed.

(** No idle transport outlives its deadline.  With a monotone clock and any timer
    failures, whenever something is idle the cleanup timer is pending and armed no later
    than its deadline, which is at most 30 seconds away; and when the timer fires,
    every entry due is destroyed, and the rest is guarded again or the pool is stopped. *)
Theorem idle_always_guarded clock w :
  pool_reachable clock w ->
  (forall i slot, idle_ (pool w) !! i = Some (Some slot) ->
     timer_pending_ (pool w) = true /\ cleanup_expiry_ (pool w) <= deadline slot /\
     deadline slot <= idle_deadline clock) /\
  (forall arm_fails now dead p', clock <= now ->
     on_cleanup_timer arm_fails (pool w) no_error now = (dead, p') ->
     forall i slot, idle_ p' !! i = Some (Some slot) ->
       now < deadline slot /\ timer_pending_ p' = true /\ cleanup_expiry_ p' <= deadline slot).
Proof.
  intros R. pose proof (pool_reachable_timed _ _ R) as H. split.
  - intros i slot Hi. destruct H as (G & T & D). split_and!; [by eapply G| by eapply G |by eapply D].
  - intros af now dead p' Hc E i slot Hi.
    pose proof (on_cleanup_timer_timed clock af (pool w) no_error now H Hc (fun _ => eq_refl)) as H'.
    rewrite E in H'. cbn in H'. destruct H' as (G & _ & _). destruct (G _ _ Hi) as [G1 G2].
    split; [|done]. unfold on_cleanup_timer in E.
    destruct (pool_stopped_ (pool w)) eqn:S.
    { injection E as _ <-. exfalso. assert (Sh : pool_shape (pool w)).
      { clear -R. induction R; [apply fresh_pool_shape|by apply pool_step_shape]. }
      apply Sh in S. rewrite idle_connections_nil in S. by destruct (S i slot). }
    cbn [failed] in E. replace (failed no_error) with false in E by done.
    rewrite (surjective_pairing (expire _ now)), expire_entries in E. cbn in E.
    unfold arm_or_stop in E. destruct (arm_cleanup _ _) as [q|] eqn:A.
    + injection E as _ <-. apply arm_cleanup_idle in A as [A _]. rewrite A in Hi. cbn in Hi.
      by apply keep_unexpired_lookup in Hi as [_ ?].
    + unfold pool_stop in E. cbn in E. injection E as _ <-. cbn in Hi.
      apply list_lookup_fmap_Some in Hi as (? & ? & ?). done.
Qed.

(** ** Witnesses *)

Definition sample_backend : UpstreamConfig := mkUpstream (L "api.internal") 443 3000 https.
Definition ready_sockets : Sockets := fun _ => mkSocket true false no_error 0.
Definition sample_pool_ops : list PoolOp :=
  [PoolConnect sample_backend (Some 7%nat); PoolPut ready_sockets false 0 100].

Lemma take_returns_matching_witness :
  let p := pool (run_pool fresh_pool_world sample_pool_ops) in
  exists c p', take ready_sockets p sample_backend (Some 7%nat) 200 = (Some c, [], p') /\
    conn_id c = 0%nat /\ has_tls c = true /\ clean ready_sockets c = true.
Proof.
  intros p.
  destruct (take ready_sockets p sample_backend (Some 7%nat) 200) as [[lease dead] p'] eqn:E.
  pose proof (take_returns_matching sample_pool_ops ready_sockets sample_backend (Some 7%nat) 200
                lease dead p' E) as (H & _).
  vm_compute in E. injection E as E1 E2 E3.
  specialize (H (mkConnection 0 sample_backend (Some 7%nat) true)). subst lease dead.
  destruct (H eq_refl) as (_ & Hc & _ & _ & _ & Ht & _).
  eexists _, p'. split; [reflexivity|]. split; [reflexivity|]. by split.
Defined.

Lemma put_effect_witness :
  let c := mkConnection 1 sample_backend (Some 7%nat) true in
  let p := pool (run_pool fresh_pool_world sample_pool_ops) in
  idle_connections (idle_ (put ready_sockets false p (Some c) 300).2) ≡ₚ
  [c; mkConnection 0 sample_backend (Some 7%nat) true].
Proof.
  intros c p.
  destruct (put_effect sample_pool_ops ready_sockets false (Some c) 300 _ _
              (surjective_pairing _)) as [_ H].
  destruct (H c eq_refl) as [_ H2]. destruct (H2 eq_refl) as [_ H3].
  assert (Hn : length (idle_connections (keep_unexpired 300 <$> idle_ p)) <> 32%nat)
    by (vm_compute; discriminate).
  destruct (H3 Hn) as [(_ & _ & Hp & _)|(Hf & _)]; [exact Hp|discriminate].
Defined.

Lemma idle_always_guarded_witness :
  let w := run_pool fresh_pool_world sample_pool_ops in
  timer_pending_ (pool w) = true /\ cleanup_expiry_ (pool w) = 30000000100 /\
  idle_connections (idle_ (on_cleanup_timer false (pool w) no_error 30000000100).2) = [].
Proof.
  intros w.
  assert (R : pool_reachable 100 w).
  { apply (pool_reach_step 0 _ (PoolPut ready_sockets false 0 100)); cbn [op_time].
    - apply (pool_reach_step 0 _ (PoolConnect sample_backend (Some 7%nat))); [apply pool_reach_fresh|done|done].
    - intros now [= <-]. lia.
    - done. }
  destruct (idle_always_guarded 100 w R) as [H1 H2].
  destruct (H1 0%nat _ eq_refl) as (T & _ & _). split; [exact T|]. split; [reflexivity|].
  apply idle_connections_nil. intros i slot Hi.
  assert (Hc : 100 <= 30000000100) by lia.
  destruct (H2 false 30000000100 _ _ Hc (surjective_pairing _) i slot Hi) as (Hd & _ & _).
  revert Hi Hd. do 32 (destruct i as [|i]; [by vm_compute|]). by vm_compute.
Defined.
