(* ===== verification/ApiKeyAuth.v ===== *)
(** * API keys (src/api_key_auth.hpp, src/api_key_auth.cpp)

    SHA-256 is OpenSSL's: [evp_digest] is what [EVP_Digest] writes for a key, [None] when
    it fails or reports another length.  What the gate relies on, where it does, is that
    distinct keys do not collide; it is a hypothesis of the theorems that need it. *)

From S2P Require Import Prelude Text Http ConfigTypes.

Definition upper_digit_or_underscore (c : ascii) : bool :=
  is_upper c || is_digit c || ascii_eqb c "_".

Definition reference_prefix : text := L "APIGATE_AUTH_KEY_".

Definition valid_api_key_reference (reference : text) : bool :=
  if negb (starts_with reference_prefix reference) then false
  else
    let reference := drop (length reference_prefix) reference in
    negb (bool_decide (reference = [])) && (length reference <=? 64) &&
    forallb upper_digit_or_underscore reference.

Definition key_character (c : ascii) : bool :=
  upper_digit_or_underscore c || is_lower c || ascii_eqb c "-".

Definition valid_api_key (key : text) : bool :=
  (32 <=? length key) && (length key <=? 256) && forallb key_character key.

(** The loop that compares the whole configured set. *)
Fixpoint compare_digests (digests : list ApiKeyDigest) (candidate : ApiKeyDigest)
    (index remaining : nat) (matched : bool) : bool :=
  match remaining with
  | O => matched
  | S remaining =>
      compare_digests digests candidate (S index) remaining
        (matched || bool_decide (digests !! index = Some candidate))
  end.

Definition matches_api_key_digest (config : ApiKeyAuthConfig) (candidate : ApiKeyDigest) : bool :=
  if (key_count config =? 0) || (length (digests config) <? key_count config) then false
  else compare_digests (digests config) candidate 0 (key_count config) false.

Section Auth.
Context {B : BeastHttp}.
(** [EVP_Digest] with [EVP_sha256]. *)
Variable evp_digest : text -> option ApiKeyDigest.

Definition hash_api_key (key : text) : result ApiKeyDigest :=
  match evp_digest key with
  | Some digest => Ok digest
  | None => Throw (runtime_error "API key digest calculation failed")
  end.

Definition is_space (c : ascii) : bool := ascii_eqb c " ".

(** The credential of an Authorization value: after the scheme and the spaces that end
    it. *)
Definition bearer_credential (value : text) : option text :=
  match sv_find " " value with
  | None => None
  | Some separator =>
      if negb (iequals (take separator value) (L "Bearer")) then None
      else
        let value := drop separator value in
        match sv_find_first_not is_space value with
        | None => None
        | Some credential => Some (drop credential value)
        end
  end.

Definition authenticate_api_key (config : ApiKeyAuthConfig) (request : HttpRequest) : result bool :=
  match values_of (L "Authorization") (rq_fields request) with
  | [value] =>
      match bearer_credential value with
      | None => Ok false
      | Some value =>
          if negb (valid_api_key value) then Ok false
          else
            candidate ← hash_api_key value;
            Ok (matches_api_key_digest config candidate)
      end
  | _ => Ok false
  end.

End Auth.

(** ** Lemmas *)

Lemma compare_digests_spec ds candidate index remaining matched :
  compare_digests ds candidate index remaining matched = true <->
  matched = true \/ exists i, index <= i < index + remaining /\ ds !! i = Some candidate.
Proof.
  revert index matched. induction remaining as [|n IH]; intros index matched; cbn.
  - split; [by left|]. intros [?|(i & ? & _)]; [done|lia].
  - rewrite IH, orb_true_iff, bool_decide_eq_true. split.
    + intros [[?|?]|(i & ? & ?)]; [by left|right; exists index; split; [lia|done]|].
      right. exists i. split; [lia|done].
    + intros [?|(i & Hi & Hd)]; [by left; left|].
      destruct (decide (i = index)) as [->|]; [by left; right|]. right. exists i. split; [lia|done].
Qed.

(** Without a bound on the position, only the configured digests matter. *)
Lemma matches_spec config candidate :
  key_count config <= length (digests config) ->
  matches_api_key_digest config candidate = true <->
  candidate ∈ take (key_count config) (digests config).
Proof.
  intros Hc. unfold matches_api_key_digest.
  replace (length (digests config) <? key_count config) with false by (symmetry; apply Nat.ltb_ge; lia).
  rewrite orb_false_r. destruct (key_count config =? 0) eqn:E; reflect_bools.
  - rewrite E. cbn. split; [done|]. by intros ?%elem_of_nil.
  - rewrite compare_digests_spec, list_elem_of_lookup. split.
    + intros [|(i & Hi & Hd)]; [done|]. exists i. by rewrite lookup_take_lt by lia.
    + intros (i & Hi). right. exists i. apply lookup_take_Some in Hi as [Hd Hi].
      split; [lia|done].
Qed.

(** The credential grammar: the scheme in any case, at least one space, then what does
    not start with a space. *)
Definition bearer_value (value key : text) : Prop :=
  exists scheme n c rest, value = scheme ++ replicate (S n) (" "%char) ++ key /\
    to_lower scheme = to_lower (L "Bearer") /\ key = c :: rest /\ c <> " "%char.

Lemma lower_keeps_space s : (" "%char) ∈ s -> (" "%char) ∈ to_lower s.
Proof. intros H. apply list_elem_of_fmap. by exists " "%char. Qed.

Lemma bearer_no_space s : to_lower s = to_lower (L "Bearer") -> (" "%char) ∉ s.
Proof.
  intros E H%lower_keeps_space. rewrite E in H. vm_compute in H.
  repeat (apply elem_of_cons in H as [H|H]; [done|]). by apply elem_of_nil in H.
Qed.

Lemma sv_find_first_not_spaces n c k :
  c <> " "%char -> sv_find_first_not is_space (replicate n (" "%char) ++ c :: k) = Some n.
Proof.
  intros H. induction n as [|n IH]; cbn [sv_find_first_not replicate app].
  - destruct (is_space c) eqn:E; [|done]. by apply ascii_eqb_true in E.
  - by rewrite IH.
Qed.

Lemma sv_find_first_not_Some s n :
  sv_find_first_not is_space s = Some n ->
  exists c rest, s = replicate n (" "%char) ++ c :: rest /\ c <> " "%char /\ drop n s = c :: rest.
Proof.
  revert n. induction s as [|c s IH]; intros n E; cbn in E; [done|].
  destruct (is_space c) eqn:D.
  - apply fmap_Some in E as (m & Hm & ->). apply ascii_eqb_true in D as ->.
    destruct (IH _ Hm) as (c & rest & -> & ? & ?). by exists c, rest.
  - injection E as <-. exists c, s. split; [done|]. split; [|done]. by apply ascii_eqb_false.
Qed.

Lemma key_character_not_space c : key_character c = true -> c <> " "%char.
Proof. by intros H ->. Qed.

Lemma valid_api_key_head key :
  valid_api_key key = true -> exists c rest, key = c :: rest /\ c <> " "%char.
Proof.
  unfold valid_api_key. intros H. reflect_bools. destruct key as [|c rest]; [cbn in *; lia|].
  cbn in *. reflect_bools. eauto using key_character_not_space.
Qed.

Section AuthLemmas.
Context {B : BeastHttp} {BL : BeastLaws B}.
Variable evp_digest : text -> option ApiKeyDigest.

Lemma bearer_credential_spec value key :
  bearer_credential value = Some key <-> bearer_value value key.
Proof.
  unfold bearer_credential. split.
  - destruct (sv_find " " value) as [sep|] eqn:F; [|done].
    apply sv_find_Some in F as [F1 F2].
    destruct (iequals (take sep value) (L "Bearer")) eqn:I; [cbn [negb]|done].
    destruct (sv_find_first_not is_space (drop sep value)) as [cred|] eqn:C; [|done].
    intros [= <-]. apply sv_find_first_not_Some in C as (c & rest & E & Hc & Ed).
    apply iequals_lower in I. rewrite Ed.
    assert (Hs : exists n, cred = S n).
    { destruct cred as [|n]; [|by exists n]. exfalso. cbn in E.
      apply (f_equal (fun l => l !! 0)) in E. rewrite lookup_drop, Nat.add_0_r, F1 in E.
      cbn in E. congruence. }
    destruct Hs as [n ->]. exists (take sep value), n, c, rest.
    split; [|done]. by rewrite <- E, take_drop.
  - intros (sch & n & c & rest & -> & Hs & -> & Hc).
    pose proof (sv_find_app " " sch (replicate n (" "%char) ++ c :: rest) (bearer_no_space _ Hs)) as F.
    cbn [replicate app] in *. rewrite F, take_app_length, drop_app_length.
    apply iequals_lower in Hs. rewrite Hs. cbn [negb].
    pose proof (sv_find_first_not_spaces (S n) c rest Hc) as G. cbn [replicate app] in G. rewrite G.
    f_equal. exact (drop_app_length' (replicate (S n) " "%char) (c :: rest) (S n) ltac:(by rewrite length_replicate)).
Qed.

End AuthLemmas.

(** ** Properties *)

(** C25: who gets in.  A request authenticates exactly when it has a single
    Authorization field, of the form Bearer (in any case), one or more spaces, key, the
    key has 32 to 256 characters of the key alphabet, and its digest is one of the
    route's; with several Authorization fields, or none, it never does.  It throws only
    when the digest cannot be computed. *)
Theorem authenticate_iff {B : BeastHttp} {BL : BeastLaws B} evp_digest config request :
  key_count config <= length (digests config) ->
  (authenticate_api_key evp_digest config request = Ok true <->
   exists value key digest,
     values_of (L "Authorization") (rq_fields request) = [value] /\
     bearer_value value key /\ valid_api_key key = true /\ evp_digest key = Some digest /\
     digest ∈ take (key_count config) (digests config)) /\
  (forall e, authenticate_api_key evp_digest config request = Throw e <->
     e = runtime_error "API key digest calculation failed" /\
     exists value key,
       values_of (L "Authorization") (rq_fields request) = [value] /\
       bearer_value value key /\ valid_api_key key = true /\ evp_digest key = None).
Proof.
  intros Hc. unfold authenticate_api_key, hash_api_key.
  destruct (values_of (L "Authorization") (rq_fields request)) as [|value [|v2 vs]];
    [split; [|intros e]; (split; [done|]); naive_solver| |
     split; [|intros e]; (split; [done|]); naive_solver].
  destruct (bearer_credential value) as [key|] eqn:C.
  2:{ split; [|intros e]; (split; [done|]).
      - intros (v & k & d & [= <-] & Hb & _). apply bearer_credential_spec in Hb. congruence.
      - intros (_ & v & k & [= <-] & Hb & _). apply bearer_credential_spec in Hb. congruence. }
  assert (Hkey : forall k, bearer_value value k -> k = key)
    by (intros k Hk%bearer_credential_spec; congruence).
  apply bearer_credential_spec in C.
  destruct (valid_api_key key) eqn:V; cbn [negb].
  2:{ split; [|intros e]; (split; [done|]).
      - intros (v & k & d & [= <-] & Hb%Hkey & Hv & _). congruence.
      - intros (_ & v & k & [= <-] & Hb%Hkey & Hv & _). congruence. }
  destruct (evp_digest key) as [digest|] eqn:D; cbn.
  - split; [|intros e].
    + split.
      * intros [= M]. apply matches_spec in M; [|done]. by exists value, key, digest.
      * intros (v & k & d & [= <-] & Hb%Hkey & Hv & Hd & Hin). subst k.
        rewrite D in Hd. injection Hd as <-. f_equal. by apply matches_spec.
    + split; [done|]. intros (_ & v & k & [= <-] & Hb%Hkey & Hv & Hd). congruence.
  - split; [|intros e].
    + split; [done|]. intros (v & k & d & [= <-] & Hb%Hkey & Hv & Hd & Hin). congruence.
    + split.
      * intros [= <-]. split; [done|]. by exists value, key.
      * by intros (-> & _).
Qed.

(** ** Witness *)

Definition sample_digest (key : text) : option ApiKeyDigest :=
  Some (take 32 (key ++ empty_digest)).
Definition sample_key : text := L "0123456789abcdef0123456789ABCDEF_-".
Definition sample_auth : ApiKeyAuthConfig :=
  mkApiKeyAuth [take 32 sample_key; empty_digest; empty_digest; empty_digest] 1.
Definition sample_auth_request : @HttpRequest list_beast :=
  @mkRequest list_beast get (L "/") 11 [(L "authorization", L "bEARER   0123456789abcdef0123456789ABCDEF_-")] [].

Lemma authenticate_iff_witness :
  authenticate_api_key sample_digest sample_auth sample_auth_request = Ok true /\
  exists value key digest,
    values_of (L "Authorization") (rq_fields sample_auth_request) = [value] /\
    bearer_value value key /\ valid_api_key key = true /\ sample_digest key = Some digest /\
    digest ∈ take (key_count sample_auth) (digests sample_auth).
Proof.
  assert (E : authenticate_api_key sample_digest sample_auth sample_auth_request = Ok true)
    by (vm_compute; reflexivity).
  split; [exact E|].
  apply (authenticate_iff (BL := list_beast_laws) sample_digest sample_auth sample_auth_request);
    [cbn; lia|exact E].
Defined.
