(* ===== verification/HttpHandler.v ===== *)
(** * Local responses and route selection (src/http_handler.cpp,
    include/apigate/http_handler.hpp)

    [select_http_route] decides whether a request is proxied and to which route;
    [handle_http_request] answers the rest.  JSON bodies are trees; [dump] is
    nlohmann::json's serialiser. *)

From S2P Require Import Prelude Text Http ConfigTypes.

Local Open Scope Z_scope.

(** The JSON values the responses are built from. *)
Inductive Json :=
  | json_string (s : text)
  | json_object (members : list (text * Json)).

Inductive GatewayFailure :=
  bad_gateway | gateway_timeout | gateway_overloaded | buffer_capacity_exhausted | no_healthy_upstream.

Record SelectedUpstream := mkSelectedUpstream {
  su_upstream : UpstreamConfig;
  su_prefix : text;
  su_strip_prefix : bool;
  su_route_index : option nat;
  su_strip_authorization : bool;
  su_stream_response : bool }.

Record SelectedRoute := mkSelectedRoute {
  sr_upstreams : list UpstreamConfig;
  sr_prefix : text;
  sr_strip_prefix : bool;
  sr_route_index : option nat;
  sr_auth : option ApiKeyAuthConfig;
  sr_stream_response : bool }.

(** ** Targets *)

Definition request_path (target : text) : text := sv_prefix (sv_find "?" target) target.

Definition is_supported_proxy_target (target : text) : bool :=
  negb (bool_decide (target = [])) && bool_decide (head target = Some ("/"%char)) &&
  bool_decide (sv_find "#" target = None).

Definition is_supported_proxy_method (method : verb) : bool :=
  verb_is method get || verb_is method post || verb_is method put_verb || verb_is method patch.

Inductive RouteClass := healthz | readyz | unmatched.
#[export] Instance RouteClass_eq_dec : EqDecision RouteClass.
Proof. solve_decision. Defined.

Definition classify_http_route (target : text) : RouteClass :=
  let path := request_path target in
  if text_eqb path (L "/healthz") then healthz
  else if text_eqb path (L "/readyz") then readyz
  else unmatched.

Definition class_is (a b : RouteClass) : bool := bool_decide (a = b).

Definition is_metrics_target (config : AppConfig) (target : text) : bool :=
  metrics_enabled config && text_eqb (request_path target) (L "/metrics").

(** [prefix] covers [path] up to a segment boundary. *)
Definition prefix_covers (prefix path : text) : bool :=
  starts_with prefix path &&
  (text_eqb prefix (L "/") || (length path =? length prefix)%nat ||
   bool_decide (path !! length prefix = Some ("/"%char))).

Section Handler.
Context {B : BeastHttp}.
Variable dump : Json -> text.

Definition requests_upgrade (request : HttpRequest) : bool :=
  has_field (L "Upgrade") (rq_fields request).

(** The loop of [select_http_route]: the routes from [index] on, the selection so far
    and the length of its prefix. *)
Fixpoint select_loop (routes : list RouteConfig) (path : text) (index : nat)
    (selected : option SelectedRoute) (longest : nat) : option SelectedRoute :=
  match routes with
  | [] => selected
  | route :: rest =>
      let prefix := rt_prefix route in
      if (longest <? length prefix)%nat && prefix_covers prefix path then
        select_loop rest path (S index)
          (Some (mkSelectedRoute (upstreams route) (rt_prefix route) (strip_prefix route)
                   (Some index) (auth route) (stream_response route)))
          (length prefix)
      else select_loop rest path (S index) selected longest
  end.

Definition select_http_route (config : AppConfig) (request : HttpRequest) : option SelectedRoute :=
  if negb (is_supported_proxy_method (rq_method request)) then None
  else
    let target := rq_target request in
    if negb (class_is (classify_http_route target) unmatched) || is_metrics_target config target
    then None
    else if negb (is_supported_proxy_target target) || requests_upgrade request ||
            (verb_is (rq_method request) get && negb (bool_decide (rq_body request = [])))
    then None
    else
      match upstream config with
      | Some upstream => Some (mkSelectedRoute [upstream] [] false None None false)
      | None => select_loop (routes config) (request_path target) 0 None 0
      end.

Definition should_proxy_http_request (config : AppConfig) (request : HttpRequest) : bool :=
  bool_decide (is_Some (select_http_route config request)).

(** ** Responses *)

Definition HttpResponse_of (status : Z) (version : Z) : HttpResponse :=
  mkResponse status [] version no_fields [].

Definition make_json_response (request : HttpRequest) (status : Z) (body : Json) : HttpResponse :=
  let response := HttpResponse_of status (rq_version request) in
  let response := rs_set (L "Server") (L "ApiGate") response in
  let response := rs_set (L "Content-Type") (L "application/json") response in
  let response := rs_set (L "Cache-Control") (L "no-store") response in
  let response := rs_keep_alive (request_keep_alive request) response in
  let response := rs_with_body (dump body) response in
  rs_prepare response.

Definition make_metrics_response (request : HttpRequest) (body : text) : HttpResponse :=
  let response := HttpResponse_of 200 (rq_version request) in
  let response := rs_set (L "Server") (L "ApiGate") response in
  let response := rs_set (L "Content-Type") (L "text/plain; version=0.0.4; charset=utf-8") response in
  let response := rs_set (L "Cache-Control") (L "no-store") response in
  let response := rs_keep_alive (request_keep_alive request) response in
  let response := rs_with_body body response in
  rs_prepare response.

(** [{"error": {"code": ..., "message": ...}}] *)
Definition error_body (code message : string) : Json :=
  json_object [(L "error", json_object [(L "code", json_string (L code));
                                        (L "message", json_string (L message))])].

Definition make_method_not_allowed (request : HttpRequest) (proxy_enabled : bool) : HttpResponse :=
  let allowed := if proxy_enabled then L "GET, POST, PUT, PATCH" else L "GET" in
  let message := if proxy_enabled then "method is not supported"%string
                 else "only GET is supported"%string in
  let response := make_json_response request 405 (error_body "method_not_allowed" message) in
  rs_set (L "Allow") allowed response.

Definition status_body (status : string) (service : text) : Json :=
  json_object [(L "status", json_string (L status)); (L "service", json_string service)].

Definition handle_http_request (config : AppConfig) (request : HttpRequest) : HttpResponse :=
  let target := rq_target request in
  let route := classify_http_route target in
  let proxy_enabled := bool_decide (is_Some (upstream config)) ||
                       negb (bool_decide (routes config = [])) in
  let body_empty := bool_decide (rq_body request = []) in
  let is_get := verb_is (rq_method request) get in
  if is_metrics_target config target then
    if negb is_get then make_method_not_allowed request false
    else if negb body_empty || requests_upgrade request then
      make_json_response request 400 (error_body "unsupported_request" "invalid metrics request")
    else make_metrics_response request []
  else if negb (class_is route unmatched) && negb is_get then make_method_not_allowed request false
  else if negb (is_supported_proxy_method (rq_method request)) then
    make_method_not_allowed request proxy_enabled
  else if proxy_enabled && requests_upgrade request then
    make_json_response request 400 (error_body "unsupported_request" "request cannot be proxied")
  else if class_is route healthz then
    make_json_response request 200 (status_body "ok" (service_name config))
  else if class_is route readyz then
    make_json_response request 200 (status_body "ready" (service_name config))
  else if negb proxy_enabled && negb is_get then make_method_not_allowed request false
  else if proxy_enabled && (negb (is_supported_proxy_target target) || (is_get && negb body_empty)) then
    make_json_response request 400 (error_body "unsupported_request" "request cannot be proxied")
  else make_json_response request 404 (error_body "not_found" "route not found").

Definition make_authentication_failed_response (request : HttpRequest) : HttpResponse :=
  let response := make_json_response request 401
                    (error_body "authentication_failed" "authentication failed") in
  rs_set (L "WWW-Authenticate")
    (L "Bearer realm=" ++ ["034"%char] ++ L "ApiGate" ++ ["034"%char]) response.

Definition make_rate_limited_response (request : HttpRequest) (retry_after_seconds : Z) : HttpResponse :=
  let response := make_json_response request 429
                    (error_body "rate_limited" "request rate limit is exceeded") in
  rs_set (L "Retry-After") (dec retry_after_seconds) response.

Definition make_gateway_error_response (request : HttpRequest) (failure : GatewayFailure) : HttpResponse :=
  match failure with
  | no_healthy_upstream =>
      make_json_response request 503 (error_body "no_healthy_upstream" "no healthy upstream is available")
  | gateway_timeout =>
      make_json_response request 504 (error_body "gateway_timeout" "upstream request timed out")
  | gateway_overloaded =>
      make_json_response request 503 (error_body "gateway_overloaded" "proxy capacity is exhausted")
  | buffer_capacity_exhausted =>
      make_json_response request 503 (error_body "gateway_overloaded" "buffer capacity is exhausted")
  | bad_gateway => make_json_response request 502 (error_body "bad_gateway" "upstream request failed")
  end.

End Handler.

(** ** Route selection *)

(** The prefix covers the path: it is followed by nothing or by a new segment. *)
Definition covers (prefix path : text) : Prop :=
  exists rest, path = prefix ++ rest /\
    (prefix = L "/" \/ rest = [] \/ exists segment, rest = "/"%char :: segment).

Lemma prefix_covers_spec prefix path : prefix_covers prefix path = true <-> covers prefix path.
Proof.
  unfold prefix_covers, covers. rewrite andb_true_iff, starts_with_true, !orb_true_iff,
    text_eqb_true, Nat.eqb_eq, bool_decide_eq_true. split.
  - intros [[rest ->] H]. exists rest. split; [done|]. rewrite length_app in H.
    destruct H as [[H|H]|H]; [by left| |].
    + right. left. destruct rest; [done|cbn in H; lia].
    + right. right. rewrite lookup_app_r, Nat.sub_diag in H by done.
      destruct rest as [|c rest]; [done|]. injection H as ->. by exists rest.
  - intros (rest & -> & H). split; [by exists rest|].
    destruct H as [H|[->|[segment ->]]]; [by left; left|left; right|right].
    + by rewrite app_nil_r.
    + rewrite lookup_app_r, Nat.sub_diag by done. done.
Qed.

Definition selected_as (index : nat) (route : RouteConfig) : SelectedRoute :=
  mkSelectedRoute (upstreams route) (rt_prefix route) (strip_prefix route)
    (Some index) (auth route) (stream_response route).

(** [i] is the first of the longest non-empty covering prefixes. *)
Definition best_route (rs : list RouteConfig) (path : text) (i : nat) (route : RouteConfig) : Prop :=
  rs !! i = Some route /\ covers (rt_prefix route) path /\ rt_prefix route <> [] /\
  forall j other, rs !! j = Some other -> covers (rt_prefix other) path ->
    (length (rt_prefix other) < length (rt_prefix route))%nat \/
    (length (rt_prefix other) = length (rt_prefix route) /\ (i <= j)%nat).

Definition outranks (rs : list RouteConfig) (path : text) (i : nat) (route : RouteConfig) : Prop :=
  forall j other, rs !! j = Some other -> covers (rt_prefix other) path ->
    (length (rt_prefix other) < length (rt_prefix route))%nat \/
    (length (rt_prefix other) = length (rt_prefix route) /\ (i <= j)%nat).

Lemma select_loop_spec rs path index selected longest :
  (select_loop rs path index selected longest = selected /\
   forall j other, rs !! j = Some other -> covers (rt_prefix other) path ->
     (length (rt_prefix other) <= longest)%nat) \/
  (exists i route, select_loop rs path index selected longest = Some (selected_as (index + i) route) /\
     rs !! i = Some route /\ covers (rt_prefix route) path /\
     (longest < length (rt_prefix route))%nat /\ outranks rs path i route).
Proof.
  revert index selected longest. induction rs as [|route rs IH]; intros index selected longest.
  { left. by split. }
  cbn [select_loop]. fold (selected_as index route).
  destruct (_ && _) eqn:E.
  - right. apply andb_true_iff in E as [E1 E2]. apply Nat.ltb_lt in E1. apply prefix_covers_spec in E2.
    destruct (IH (S index) (Some (selected_as index route)) (length (rt_prefix route)))
      as [[-> Hno]|(i & r & -> & H1 & H2 & H3 & Hmax)].
    + exists 0%nat, route. rewrite Nat.add_0_r. split_and!; [done..|].
      intros [|j] other Hj Hc; [injection Hj as <-; right; lia|].
      specialize (Hno j other Hj Hc). lia.
    + exists (S i), r. rewrite Nat.add_succ_r. split_and!; [done..|lia|].
      intros [|j] other Hj Hc; [injection Hj as <-; left; lia|].
      destruct (Hmax j other Hj Hc); [by left|right; lia].
  - assert (Hout : covers (rt_prefix route) path -> (length (rt_prefix route) <= longest)%nat).
    { intros Hc%prefix_covers_spec. rewrite Hc, andb_true_r in E. apply Nat.ltb_ge in E. lia. }
    destruct (IH (S index) selected longest) as [[-> Hno]|(i & r & -> & H1 & H2 & H3 & Hmax)].
    + left. split; [done|]. intros [|j] other Hj Hc; [injection Hj as <-; auto|eauto].
    + right. exists (S i), r. rewrite Nat.add_succ_r. split_and!; [done..|].
      intros [|j] other Hj Hc; [injection Hj as <-; specialize (Hout Hc); left; lia|].
      destruct (Hmax j other Hj Hc); [by left|right; lia].
Qed.

Section HandlerLemmas.
Context {B : BeastHttp} {BL : BeastLaws B}.
Variable dump : Json -> text.

(** The requests that may leave the gateway, whatever the routes. *)
Definition proxyable (config : AppConfig) (request : HttpRequest) : Prop :=
  is_supported_proxy_method (rq_method request) = true /\
  request_path (rq_target request) <> L "/healthz" /\
  request_path (rq_target request) <> L "/readyz" /\
  ~ (metrics_enabled config = true /\ request_path (rq_target request) = L "/metrics") /\
  is_supported_proxy_target (rq_target request) = true /\
  values_of (L "Upgrade") (rq_fields request) = [] /\
  (rq_method request = get -> rq_body request = []).

Lemma class_unmatched target :
  class_is (classify_http_route target) unmatched = true <->
  request_path target <> L "/healthz" /\ request_path target <> L "/readyz".
Proof.
  unfold classify_http_route. case_ifs.
  - apply text_eqb_true in Heqb. split; [done|]. by intros [? _].
  - apply text_eqb_true in Heqb0. split; [done|]. by intros [_ ?].
  - apply text_eqb_false in Heqb, Heqb0. by split.
Qed.

Lemma metrics_target_spec config target :
  is_metrics_target config target = true <->
  metrics_enabled config = true /\ request_path target = L "/metrics".
Proof. unfold is_metrics_target. by rewrite andb_true_iff, text_eqb_true. Qed.

Lemma requests_upgrade_false request :
  requests_upgrade request = false <-> values_of (L "Upgrade") (rq_fields request) = [].
Proof.
  unfold requests_upgrade. rewrite has_field_values, negb_false_iff, bool_decide_eq_true. done.
Qed.

Lemma verb_is_true a b : verb_is a b = true <-> a = b.
Proof. apply bool_decide_eq_true. Qed.

(** The guards of [select_http_route]. *)
Lemma select_proxyable config request :
  proxyable config request ->
  select_http_route config request =
  match upstream config with
  | Some upstream => Some (mkSelectedRoute [upstream] [] false None None false)
  | None => select_loop (routes config) (request_path (rq_target request)) 0 None 0
  end.
Proof.
  intros (H1 & H2 & H3 & H4 & H5 & H6 & H7). unfold select_http_route. rewrite H1.
  rewrite (proj2 (class_unmatched _) (conj H2 H3)).
  apply requests_upgrade_false in H6. rewrite H5, H6.
  destruct (is_metrics_target _ _) eqn:M; [by apply metrics_target_spec in M|]. cbn [negb orb].
  destruct (verb_is (rq_method request) get) eqn:G; [|done].
  apply verb_is_true in G. rewrite (H7 G). done.
Qed.

Lemma select_Some_proxyable config request s :
  select_http_route config request = Some s -> proxyable config request.
Proof.
  unfold select_http_route. destruct (is_supported_proxy_method _) eqn:H1; [cbn [negb]|done].
  destruct (class_is _ _) eqn:C; [cbn [negb orb]|done]. apply class_unmatched in C as [H2 H3].
  destruct (is_metrics_target _ _) eqn:M; [done|].
  destruct (is_supported_proxy_target _) eqn:H5; [cbn [negb orb]|done].
  destruct (requests_upgrade request) eqn:U; [done|cbn [orb]].
  destruct (_ && _) eqn:G; [done|]. intros _. split_and!; [done..| |done| |].
  - intros Hm. apply metrics_target_spec in Hm. congruence.
  - by apply requests_upgrade_false.
  - intros Hg. apply andb_false_iff in G as [G|G].
    + exfalso. rewrite Hg in G. done.
    + apply negb_false_iff, bool_decide_eq_true in G. done.
Qed.

Definition proxy_enabled (config : AppConfig) : Prop := upstream config <> None \/ routes config <> [].

Lemma proxy_enabled_bool config :
  bool_decide (is_Some (upstream config)) || negb (bool_decide (routes config = [])) = true <->
  proxy_enabled config.
Proof.
  unfold proxy_enabled. rewrite orb_true_iff, negb_true_iff, bool_decide_eq_true, bool_decide_eq_false.
  by rewrite not_eq_None_Some.
Qed.

Lemma classify_cases target :
  (classify_http_route target = healthz /\ request_path target = L "/healthz") \/
  (classify_http_route target = readyz /\ request_path target = L "/readyz") \/
  (classify_http_route target = unmatched /\ request_path target <> L "/healthz" /\
   request_path target <> L "/readyz").
Proof.
  unfold classify_http_route. case_ifs.
  - left. by apply text_eqb_true in Heqb.
  - right; left. by apply text_eqb_true in Heqb0.
  - right; right. by apply text_eqb_false in Heqb, Heqb0.
Qed.

Lemma decide_own config target :
  {(metrics_enabled config = true /\ request_path target = L "/metrics") \/
   request_path target = L "/healthz" \/ request_path target = L "/readyz"} +
  {~ ((metrics_enabled config = true /\ request_path target = L "/metrics") \/
      request_path target = L "/healthz" \/ request_path target = L "/readyz")}.
Proof. exact (decide _). Qed.

(** The last tests of [handle_http_request], for a request to no endpoint of its own. *)
Lemma unmatched_answers config request :
  let own := (metrics_enabled config = true /\ request_path (rq_target request) = L "/metrics") \/
             request_path (rq_target request) = L "/healthz" \/
             request_path (rq_target request) = L "/readyz" in
  let response := handle_http_request dump config request in
  ~ own -> select_http_route config request = None ->
  (rs_status response = 405 /\ rq_method request <> get /\
     (upstream config = None /\ routes config = [] \/
      is_supported_proxy_method (rq_method request) = false)) \/
  (rs_status response = 404 /\ upstream config = None /\
     (routes config = [] \/ proxyable config request)) \/
  (rs_status response = 400 /\ proxy_enabled config /\ ~ proxyable config request).
Proof.
  intros own response Hown Hsel. unfold response, handle_http_request.
  destruct (is_metrics_target config (rq_target request)) eqn:M.
  { apply metrics_target_spec in M. destruct Hown. by left. }
  destruct (classify_cases (rq_target request)) as [[_ C]|[[_ C]|(C & C1 & C2)]];
    [destruct Hown; by right; left|destruct Hown; by right; right|]. rewrite C. cbn [class_is].
  pose proof (proxy_enabled_bool config) as PE. set (pe := _ || _) in *. clearbody pe.
  change (class_is unmatched unmatched) with true. change (class_is unmatched healthz) with false.
  change (class_is unmatched readyz) with false. cbn [negb andb].
  destruct (is_supported_proxy_method (rq_method request)) eqn:S; cbn [negb].
  2:{ left. split; [done|]. split; [|by right]. intros E. by rewrite E in S. }
  destruct (requests_upgrade request) eqn:U.
  { destruct pe; cbn [andb negb].
    - right; right. split; [done|]. split; [by apply PE|]. intros (_ & _ & _ & _ & _ & U' & _).
      apply requests_upgrade_false in U'. congruence.
    - assert (Hno : upstream config = None /\ routes config = []).
      { unfold proxy_enabled in PE. destruct (upstream config), (routes config); naive_solver. }
      destruct Hno as [N1 N2]. destruct (verb_is (rq_method request) get) eqn:G; cbn [negb].
      + right; left. split; [done|]. split; [done|by left].
      + left. split; [done|]. split; [by apply bool_decide_eq_false in G|by left]. }
  rewrite andb_false_r. destruct pe; cbn [andb negb].
  - destruct (is_supported_proxy_target (rq_target request)) eqn:T; cbn [negb orb].
    2:{ right; right. split; [done|]. split; [by apply PE|]. intros (_ & _ & _ & _ & T' & _). congruence. }
    destruct (verb_is (rq_method request) get && negb (bool_decide (rq_body request = []))) eqn:G.
    { right; right. split; [done|]. split; [by apply PE|]. intros (_ & _ & _ & _ & _ & _ & G').
      apply andb_true_iff in G as [G1 G2]. apply verb_is_true in G1.
      apply negb_true_iff, bool_decide_eq_false in G2. auto. }
    assert (P : proxyable config request).
    { split_and!; [done..| |done| |].
      - intros Hm. apply Hown. by left.
      - by apply requests_upgrade_false.
      - intros Hg. rewrite Hg in G. cbn in G. by apply negb_false_iff, bool_decide_eq_true in G. }
    right; left. split; [done|]. split; [|by right].
    rewrite select_proxyable in Hsel by done. by destruct (upstream config).
  - assert (Hno : upstream config = None /\ routes config = []).
    { unfold proxy_enabled in PE. destruct (upstream config), (routes config); naive_solver. }
    destruct Hno as [N1 N2]. destruct (verb_is (rq_method request) get) eqn:G; cbn [negb].
    + right; left. split; [done|]. split; [done|by left].
    + left. split; [done|]. split; [by apply bool_decide_eq_false in G|by left].
Qed.

(** ** Properties *)

(** C26: routing is longest-prefix on segment boundaries.  A request is proxied only if
    it is a GET (without body), POST, PUT or PATCH, not an upgrade, to a path other than
    the gateway's own endpoints; without a single upstream, it then goes to the first of
    the routes with the longest prefix that covers its path up to a segment boundary,
    with that route's backends, key set and flags, and to none exactly when no
    non-empty prefix covers it. *)
Theorem select_longest_prefix config request :
  upstream config = None ->
  (forall s, select_http_route config request = Some s ->
     proxyable config request /\
     exists i route, s = selected_as i route /\ routes config !! i = Some route /\
       covers (rt_prefix route) (request_path (rq_target request)) /\
       outranks (routes config) (request_path (rq_target request)) i route) /\
  (proxyable config request -> select_http_route config request = None ->
     forall i route, routes config !! i = Some route ->
       covers (rt_prefix route) (request_path (rq_target request)) -> rt_prefix route = []).
Proof.
  intros Hu. split.
  - intros s E. pose proof (select_Some_proxyable _ _ _ E) as P. split; [done|].
    rewrite select_proxyable, Hu in E by done.
    destruct (select_loop_spec (routes config) (request_path (rq_target request)) 0 None 0)
      as [[Hn _]|(i & route & Hs & H1 & H2 & _ & H3)]; [congruence|].
    exists i, route. rewrite Hs in E. injection E as <-. done.
  - intros P E i route Hi Hc. rewrite select_proxyable, Hu in E by done.
    destruct (select_loop_spec (routes config) (request_path (rq_target request)) 0 None 0)
      as [[_ Hn]|(j & r & Hs & _)]; [|congruence].
    specialize (Hn i route Hi Hc). destruct (rt_prefix route); [done|cbn in Hn; lia].
Qed.

(** Nothing falls between the proxy and the local answers.  A request that is not
    proxied gets 200, 400, 404 or 405: 200 only for a GET of an endpoint of the gateway
    itself; 405 only for a method the target does not take; 404 only when routing was
    tried and found no route (or there is no proxy at all), never with a single upstream
    configured; and 400 otherwise. *)
Theorem local_answers_classified config request :
  select_http_route config request = None ->
  let response := handle_http_request dump config request in
  let own := (metrics_enabled config = true /\ request_path (rq_target request) = L "/metrics") \/
             request_path (rq_target request) = L "/healthz" \/
             request_path (rq_target request) = L "/readyz" in
  (rs_status response = 200 /\ own /\ rq_method request = get) \/
  (rs_status response = 405 /\ rq_method request <> get /\
     (own \/ upstream config = None /\ routes config = [] \/
      is_supported_proxy_method (rq_method request) = false)) \/
  (rs_status response = 404 /\ ~ own /\ upstream config = None /\
     (routes config = [] \/ proxyable config request)) \/
  (rs_status response = 400 /\ (own \/ proxy_enabled config /\ ~ proxyable config request)).
Proof.
  intros Hsel response own.
  destruct (decide_own config (rq_target request)) as [Ho|Ho].
  - fold own in Ho. unfold response, handle_http_request.
    destruct (is_metrics_target config (rq_target request)) eqn:M.
    { destruct (verb_is (rq_method request) get) eqn:G; cbn [negb].
      - apply verb_is_true in G. destruct (_ || _); [by right; right; right; split; [|left]|by left].
      - apply bool_decide_eq_false in G. right; left. by split_and!; [..|left]. }
    destruct (classify_cases (rq_target request)) as [[C _]|[[C _]|(_ & C1 & C2)]].
    3:{ destruct Ho as [Ho%metrics_target_spec|[?|?]]; congruence. }
    all: rewrite C; destruct (verb_is (rq_method request) get) eqn:G; cbn [class_is negb andb].
    all: try (apply bool_decide_eq_false in G; right; left; by split_and!; [..|left]).
    all: apply verb_is_true in G; rewrite G; cbn [is_supported_proxy_method].
    all: change (negb (is_supported_proxy_method get)) with false; cbv iota.
    all: destruct (_ && requests_upgrade request); [by right; right; right; split; [|left]|by left].
  - destruct (unmatched_answers config request Ho Hsel) as [(H1 & H2 & H3)|[(H1 & H2 & H3)|(H1 & H2 & H3)]].
    + right; left. by split_and!; [..|right].
    + right; right; left. done.
    + right; right; right. by split; [|right].
Qed.

(** ** Responses *)

(** The responses the gateway makes itself. *)
Inductive local_response (config : AppConfig) (request : HttpRequest) : HttpResponse -> Prop :=
  | local_handled : local_response config request (handle_http_request dump config request)
  | local_metrics body : local_response config request (make_metrics_response request body)
  | local_unauthorized :
      local_response config request (make_authentication_failed_response dump request)
  | local_limited n : local_response config request (make_rate_limited_response dump request n)
  | local_gateway failure :
      local_response config request (make_gateway_error_response dump request failure).

(** What every one of them carries. *)
Definition well_formed_reply (request : HttpRequest) (response : HttpResponse) : Prop :=
  rs_version response = rq_version request /\
  response_keep_alive response = request_keep_alive request /\
  values_of (L "Server") (rs_fields response) = [L "ApiGate"] /\
  values_of (L "Cache-Control") (rs_fields response) = [L "no-store"] /\
  (rs_body response <> [] ->
   values_of (L "Content-Length") (rs_fields response) = [dec (Z.of_nat (length (rs_body response)))]) /\
  (rs_status response = 401 -> exists v, values_of (L "WWW-Authenticate") (rs_fields response) = [v]) /\
  (rs_status response = 405 -> exists v, values_of (L "Allow") (rs_fields response) = [v]) /\
  (rs_status response = 429 -> exists n, values_of (L "Retry-After") (rs_fields response) = [dec n]).

Lemma body_positive (body : text) : body <> [] -> 0 < Z.of_nat (length body).
Proof. destruct body; cbn; [done|lia]. Qed.

Ltac reply_fields Hv :=
  split_and!; [done|eapply set_keep_alive_get; [exact Hv|]; field_values; reflexivity
              |field_values; done|field_values; done|..].

Lemma json_reply request status body :
  rq_version request = 10 \/ rq_version request = 11 -> body_allowed (a_response status) = true ->
  status <> 401 -> status <> 405 -> status <> 429 -> well_formed_reply request (make_json_response dump request status body).
Proof.
  intros Hv Ha S1 S2 S3. unfold make_json_response, HttpResponse_of, rs_set, rs_keep_alive, rs_with_body,
    rs_prepare. cbn [rs_status rs_version rs_fields rs_body rs_reason].
  unfold well_formed_reply, response_keep_alive. cbn [rs_status rs_version rs_fields rs_body rs_reason].
  reply_fields Hv; [|done..].
  intros Hb. by apply prepare_fields_length, body_positive.
Qed.

Lemma json_reply_with name value request status body :
  rq_version request = 10 \/ rq_version request = 11 ->
  name = L "Allow" /\ status = 405 \/ name = L "WWW-Authenticate" /\ status = 401 \/
  name = L "Retry-After" /\ status = 429 /\ (exists n, value = dec n) ->
  well_formed_reply request (rs_set name value (make_json_response dump request status body)).
Proof.
  intros Hv Hn. unfold make_json_response, HttpResponse_of, rs_set, rs_keep_alive, rs_with_body,
    rs_prepare. cbn [rs_status rs_version rs_fields rs_body rs_reason].
  unfold well_formed_reply, response_keep_alive. cbn [rs_status rs_version rs_fields rs_body rs_reason].
  destruct Hn as [[-> ->]|[[-> ->]|(-> & -> & n & ->)]]; reply_fields Hv.
  all: try (intros Hb; rewrite set_field_others by (apply iequals_false_lower; reflexivity);
            by apply prepare_fields_length, body_positive).
  all: try done; intros _; eexists; apply set_field_values.
Qed.

Lemma metrics_reply request body :
  rq_version request = 10 \/ rq_version request = 11 ->
  well_formed_reply request (make_metrics_response request body).
Proof.
  intros Hv. unfold make_metrics_response, HttpResponse_of, rs_set, rs_keep_alive, rs_with_body,
    rs_prepare. cbn [rs_status rs_version rs_fields rs_body rs_reason].
  unfold well_formed_reply, response_keep_alive. cbn [rs_status rs_version rs_fields rs_body rs_reason].
  reply_fields Hv; [|done..].
  intros Hb. by apply prepare_fields_length, body_positive.
Qed.

Lemma not_allowed_reply request enabled :
  rq_version request = 10 \/ rq_version request = 11 ->
  well_formed_reply request (make_method_not_allowed dump request enabled).
Proof. intros Hv. apply json_reply_with; [done|by left]. Qed.

(** Every response the gateway makes itself is well formed: it answers in the
    request's HTTP version, keeps the connection alive exactly when the request asked
    for it, names the server once, forbids caching, declares the length of its body,
    and carries the field its status requires (Allow on 405, WWW-Authenticate on 401,
    the advised delay on 429). *)
Theorem local_responses_well_formed config request response :
  rq_version request = 10 \/ rq_version request = 11 ->
  local_response config request response -> well_formed_reply request response.
Proof.
  intros Hv [| | | |failure].
  - unfold handle_http_request.
    repeat match goal with
    | |- well_formed_reply _ (if ?b then _ else _) => destruct b
    end; auto using not_allowed_reply, metrics_reply; by apply json_reply.
  - by apply metrics_reply.
  - apply json_reply_with; [done|]. right; by left.
  - apply json_reply_with; [done|]. right; right. eauto.
  - destruct failure; by apply json_reply.
Qed.
End HandlerLemmas.

(** ** Witnesses *)

Definition sample_dump (j : Json) : text := L "{}".
Definition api_route : RouteConfig :=
  mkRoute (L "/api") [mkUpstream (L "a") 80 3000 http] true None None None false.
Definition api_v1_route : RouteConfig :=
  mkRoute (L "/api/v1") [mkUpstream (L "b") 80 3000 http] false None None None false.
Definition routed_config : AppConfig := {|
  service_name := L "api-gate"; environment := L "development"; log_level := info;
  listen_address := L "127.0.0.1"; listen_port := 8080; max_connections := 256;
  max_concurrent_proxies := 32; max_in_flight_bytes := 67108864; shutdown_grace_ms := 5000;
  metrics_enabled := false; upstream_keep_alive := false; upstream := None;
  routes := [api_route; api_v1_route]; upstream_tls_context := None; downstream_tls_context := None |}.
Definition get_of (target : string) : @HttpRequest list_beast :=
  @mkRequest list_beast get (L target) 11 [(L "Host", L "x")] [].

Lemma select_longest_prefix_witness :
  select_http_route routed_config (get_of "/api/v1?q") = Some (selected_as 1 api_v1_route) /\
  exists i route, selected_as 1 api_v1_route = selected_as i route /\
    routes routed_config !! i = Some route /\ covers (rt_prefix route) (L "/api/v1").
Proof.
  destruct (select_longest_prefix routed_config (get_of "/api/v1?q") eq_refl)
    as [H _].
  assert (E : select_http_route routed_config (get_of "/api/v1?q") = Some (selected_as 1 api_v1_route))
    by (vm_compute; reflexivity).
  destruct (H _ E) as (_ & i & route & H1 & H2 & H3 & _). split; [exact E|].
  exists i, route. exact (conj H1 (conj H2 H3)).
Defined.

Lemma local_answers_classified_witness :
  select_http_route routed_config (get_of "/apix") = None /\
  rs_status (handle_http_request sample_dump routed_config (get_of "/apix")) = 404.
Proof.
  assert (E : select_http_route routed_config (get_of "/apix") = None) by (vm_compute; reflexivity).
  split; [exact E|].
  destruct (local_answers_classified sample_dump routed_config (get_of "/apix") E)
    as [(H & _)|[(H & _)|[(H & _)|(H & _)]]]; [vm_compute in H; discriminate..|exact H|vm_compute in H; discriminate].
Defined.

Lemma local_responses_well_formed_witness :
  values_of (L "Server") (rs_fields (make_authentication_failed_response sample_dump (get_of "/api"))) =
    [L "ApiGate"].
Proof.
  destruct (local_responses_well_formed (BL := list_beast_laws) sample_dump routed_config (get_of "/api") _
              (or_intror eq_refl) (local_unauthorized sample_dump routed_config (get_of "/api")))
    as (_ & _ & H & _). exact H.
Defined.
