(* ===== verification/Admission.v ===== *)
(** * Proxy admission (src/route_proxy_admission.hpp, src/route_proxy_admission.cpp)

    One instance per server decides, for a request already routed, whether it may be
    proxied and to which backend: rate limit, then proxy slot, then rotation over the
    available backends.  The proxy slots are a heap of [ProxyAdmissionState]s shared
    with the permits; the health state is shared with the prober, so its current value
    is an argument. *)

From S2P Require Import Prelude ConfigTypes RateLimit Permits ServerState HealthState HttpHandler.

Local Open Scope Z_scope.

Record RouteProxyAdmissionResult := mkAdmissionResult {
  ar_rate_limit : RateLimitDecision;
  ar_permit : option ProxyPermit;
  ar_upstream : option SelectedUpstream;
  ar_no_healthy_upstream : bool }.

Record RouteProxyAdmission := mkAdmission {
  rate_limits_ : RouteRateLimits;
  proxies_ : option nat;
  next_upstream_ : list nat }.

(** The constructor, with the health state it creates. *)
Definition make_RouteProxyAdmission (routes : list RouteConfig) (proxies : option nat) (now : Z)
    : result (RouteProxyAdmission * UpstreamHealthState) :=
  limits ← make_RouteRateLimits routes now;
  match proxies with
  | None => Throw (invalid_argument "proxy admission state must not be empty")
  | Some _ => Ok (mkAdmission limits proxies (replicate (length routes) 0%nat),
                  make_UpstreamHealthState routes)
  end.

(** The loop that skips unavailable slots; [remaining] is the size less [visited]. *)
Fixpoint pick_loop (health : UpstreamHealthState) (route size remaining index : nat)
    : result (option nat) :=
  match remaining with
  | O => Ok None
  | S remaining =>
      up ← available health route index;
      if (up : bool) then Ok (Some index)
      else pick_loop health route size remaining (if (index + 1 =? size)%nat then 0%nat else (index + 1)%nat)
  end.

Definition selected_upstream (route : SelectedRoute) (backend : UpstreamConfig) : SelectedUpstream :=
  mkSelectedUpstream backend (sr_prefix route) (sr_strip_prefix route) (sr_route_index route)
    (bool_decide (is_Some (sr_auth route))) (sr_stream_response route).

(** The choice of a backend once a slot is held.  The index into the span is in range
    whenever this returns ([admission_ok]). *)
Definition choose_upstream (health : UpstreamHealthState) (adm : RouteProxyAdmission)
    (route : SelectedRoute) : result (option SelectedUpstream * RouteProxyAdmission) :=
  let size := length (sr_upstreams route) in
  if (size =? 0)%nat || (16 <? size)%nat then
    Throw (logic_error "route requires 1-16 upstream slots")
  else
    match sr_route_index route with
    | None =>
        backend ← vec_at (sr_upstreams route) 0;
        Ok (Some (selected_upstream route backend), adm)
    | Some i =>
        next ← vec_at (next_upstream_ adm) i;
        if (size <=? next)%nat then Throw (logic_error "route upstream position is invalid")
        else
          picked ← pick_loop health i size size next;
          match picked with
          | None => Ok (None, adm)
          | Some index =>
              backend ← vec_at (sr_upstreams route) index;
              Ok (Some (selected_upstream route backend),
                  mkAdmission (rate_limits_ adm) (proxies_ adm)
                    (<[i := if (index =? size - 1)%nat then 0%nat else (index + 1)%nat]>
                       (next_upstream_ adm)))
          end
    end.

(** From the proxy slot on; a permit is released when the function throws or finds no
    backend. *)
Definition admit_proxy (heap : list ProxyAdmissionState) (health : UpstreamHealthState)
    (adm : RouteProxyAdmission) (decision : RateLimitDecision) (route : SelectedRoute)
    : list ProxyAdmissionState * RouteProxyAdmission * result RouteProxyAdmissionResult :=
  let '(heap, permit) := proxy_try_acquire heap (proxies_ adm) in
  match permit with
  | None => (heap, adm, Ok (mkAdmissionResult decision None None false))
  | Some p =>
      match choose_upstream health adm route with
      | Throw e => ((permit_release heap p).1, adm, Throw e)
      | Ok (None, adm) =>
          ((permit_release heap p).1, adm, Ok (mkAdmissionResult decision None None true))
      | Ok (Some chosen, adm) =>
          (heap, adm, Ok (mkAdmissionResult decision (Some p) (Some chosen) false))
      end
  end.

Definition admission_try_acquire (heap : list ProxyAdmissionState) (health : UpstreamHealthState)
    (adm : RouteProxyAdmission) (route : SelectedRoute) (now : Z)
    : list ProxyAdmissionState * RouteProxyAdmission * result RouteProxyAdmissionResult :=
  match sr_route_index route with
  | None => admit_proxy heap health adm default_decision route
  | Some i =>
      match route_try_acquire (rate_limits_ adm) i now with
      | Throw e => (heap, adm, Throw e)
      | Ok (decision, limits) =>
          let adm := mkAdmission limits (proxies_ adm) (next_upstream_ adm) in
          if negb (allowed decision) then
            (heap, adm, Ok (mkAdmissionResult decision None None false))
          else admit_proxy heap health adm decision route
      end
  end.

(** ** Invariant *)

(** Consistency with the routes the server was built from. *)
Record admission_ok (routes : list RouteConfig) (heap : list ProxyAdmissionState)
    (health : UpstreamHealthState) (adm : RouteProxyAdmission) : Prop := {
  ok_upstreams : forall i route, routes !! i = Some route ->
    (1 <= length (upstreams route) <= 16)%nat;
  ok_buckets : length (buckets_ (rate_limits_ adm)) = length routes;
  ok_next : forall i route, routes !! i = Some route ->
    exists next, next_upstream_ adm !! i = Some next /\ (next < length (upstreams route))%nat;
  ok_health : forall i route, routes !! i = Some route ->
    forall u, (u < length (upstreams route))%nat -> exists b, available health i u = Ok b;
  ok_slots : exists c s, proxies_ adm = Some c /\ heap !! c = Some s /\
    0 <= active_proxies_ s <= max_proxies_ s /\ in_u64 (max_proxies_ s) }.

Definition up (health : UpstreamHealthState) (i u : nat) : bool :=
  match available health i u with Ok b => b | Throw _ => false end.

(** [k] is the first available slot at or after [next], cyclically. *)
Definition first_up (health : UpstreamHealthState) (i size next k : nat) : Prop :=
  exists j, (j < size)%nat /\ k = ((next + j) mod size)%nat /\ up health i k = true /\
    forall j', (j' < j)%nat -> up health i ((next + j') mod size)%nat = false.

Lemma wrap_next index size :
  (index < size)%nat ->
  (if (index + 1 =? size)%nat then 0%nat else (index + 1)%nat) = ((index + 1) mod size)%nat.
Proof.
  intros H. destruct (Nat.eqb_spec (index + 1) size) as [<-|E].
  - by rewrite Nat.Div0.mod_same.
  - rewrite Nat.mod_small; lia.
Qed.

Lemma wrap_last index size :
  (index < size)%nat ->
  (if (index =? size - 1)%nat then 0%nat else (index + 1)%nat) = ((index + 1) mod size)%nat.
Proof.
  intros H. rewrite <- wrap_next by done.
  destruct (Nat.eqb_spec index (size - 1)), (Nat.eqb_spec (index + 1) size); lia.
Qed.

Lemma pick_loop_spec health i size remaining index :
  (forall u, (u < size)%nat -> exists b, available health i u = Ok b) -> (index < size)%nat ->
  (exists j, (j < remaining)%nat /\ pick_loop health i size remaining index = Ok (Some ((index + j) mod size)%nat) /\
     up health i ((index + j) mod size)%nat = true /\
     forall j', (j' < j)%nat -> up health i ((index + j') mod size)%nat = false) \/
  (pick_loop health i size remaining index = Ok None /\
   forall j, (j < remaining)%nat -> up health i ((index + j) mod size)%nat = false).
Proof.
  intros Hav. revert index. induction remaining as [|remaining IH]; intros index Hi; cbn [pick_loop].
  { right. split; [done|lia]. }
  destruct (Hav index Hi) as [b Hb]. rewrite Hb. cbn [mbind result_bind].
  assert (Hup : up health i ((index + 0) mod size)%nat = b)
    by (unfold up; rewrite Nat.add_0_r, Nat.mod_small by done; by rewrite Hb).
  destruct b.
  - left. exists 0%nat. split; [lia|].
    rewrite Nat.add_0_r, Nat.mod_small in Hup by done. rewrite Nat.add_0_r, Nat.mod_small by done.
    split; [done|]. split; [done|lia].
  - rewrite wrap_next by done.
    assert (Hs : forall j, (((index + 1) mod size + j) mod size)%nat = ((index + S j) mod size)%nat).
    { intros j. rewrite Nat.Div0.add_mod_idemp_l. f_equal. lia. }
    destruct (IH ((index + 1) mod size)%nat) as [(j & H1 & H2 & H3 & H4)|[H1 H2]];
      [apply Nat.mod_upper_bound; lia|left|right].
    + exists (S j). rewrite <- (Hs j). split; [lia|]. split; [done|]. split; [done|].
      intros [|j'] Hj'; [done|]. rewrite <- (Hs j'). apply H4. lia.
    + split; [done|]. intros [|j] Hj; [done|]. rewrite <- (Hs j). apply H2. lia.
Qed.

(** Every slot is at some cyclic distance from any position. *)
Lemma cyclic_surjective size next u :
  (u < size)%nat -> (next < size)%nat -> exists j, (j < size)%nat /\ ((next + j) mod size)%nat = u.
Proof.
  intros Hu Hn. destruct (le_lt_dec next u).
  - exists (u - next)%nat. split; [lia|]. rewrite Nat.mod_small; lia.
  - exists (size - next + u)%nat. split; [lia|].
    replace (next + (size - next + u))%nat with (u + 1 * size)%nat by lia.
    rewrite Nat.Div0.mod_add. by apply Nat.mod_small.
Qed.

Lemma choose_upstream_spec routes heap health adm i route :
  admission_ok routes heap health adm -> routes !! i = Some route ->
  exists next, next_upstream_ adm !! i = Some next /\ (next < length (upstreams route))%nat /\
  ((exists k backend, first_up health i (length (upstreams route)) next k /\
      upstreams route !! k = Some backend /\
      choose_upstream health adm (selected_as i route) =
        Ok (Some (selected_upstream (selected_as i route) backend),
            mkAdmission (rate_limits_ adm) (proxies_ adm)
              (<[i := ((k + 1) mod length (upstreams route))%nat]> (next_upstream_ adm)))) \/
   ((forall u, (u < length (upstreams route))%nat -> up health i u = false) /\
    choose_upstream health adm (selected_as i route) = Ok (None, adm))).
Proof.
  intros [Hn _ Hx Hh _] Hr. specialize (Hn _ _ Hr). destruct (Hx _ _ Hr) as (next & Hnext & Hlt).
  specialize (Hh _ _ Hr). exists next. split; [done|]. split; [done|].
  unfold choose_upstream. cbn [sr_upstreams selected_as sr_route_index].
  set (size := length (upstreams route)) in *.
  replace ((size =? 0)%nat) with false by (symmetry; apply Nat.eqb_neq; lia).
  replace ((16 <? size)%nat) with false by (symmetry; apply Nat.ltb_ge; lia). cbn [orb].
  replace (vec_at (next_upstream_ adm) i) with (Ok next) by (unfold vec_at; by rewrite Hnext).
  cbn [mbind result_bind].
  replace ((size <=? next)%nat) with false by (symmetry; apply Nat.leb_gt; lia).
  destruct (pick_loop_spec health i size size next Hh Hlt) as [(j & H1 & H2 & H3 & H4)|[H1 H2]].
  - left. set (k := ((next + j) mod size)%nat) in *.
    assert (Hk : (k < size)%nat) by (apply Nat.mod_upper_bound; lia).
    destruct (lookup_lt_is_Some_2 (upstreams route) k Hk) as [backend Hb].
    exists k, backend. split; [by exists j|]. split; [done|]. rewrite H2. cbn [mbind result_bind].
    replace (vec_at (upstreams route) k) with (Ok backend) by (unfold vec_at; by rewrite Hb).
    cbn [mbind result_bind]. by rewrite wrap_last.
  - right. rewrite H1. cbn [mbind result_bind]. split; [|done].
    intros u Hu. destruct (cyclic_surjective size next u Hu Hlt) as (j & Hj & <-). by apply H2.
Qed.

(** Taking a slot and giving it back restores the books. *)
Lemma acquire_release heap c s :
  heap !! c = Some s -> 0 <= active_proxies_ s < max_proxies_ s -> in_u64 (max_proxies_ s) ->
  proxy_try_acquire heap (Some c) =
    (<[c := mkProxies (max_proxies_ s) (active_proxies_ s + 1)]> heap, Some (mkProxyPermit (Some c))) /\
  (permit_release (<[c := mkProxies (max_proxies_ s) (active_proxies_ s + 1)]> heap)
     (mkProxyPermit (Some c))).1 = heap.
Proof.
  intros Hc Ha Hm. unfold in_u64 in Hm. unfold proxy_try_acquire. rewrite Hc.
  replace (max_proxies_ s <=? active_proxies_ s) with false by (symmetry; apply Z.leb_gt; lia).
  rewrite u64_small by (unfold in_u64; lia). split; [done|].
  unfold permit_release. cbn [state_].
  rewrite list_lookup_insert_eq by (by eapply lookup_lt_Some). cbn [fst].
  rewrite list_insert_insert_eq. apply list_insert_id. rewrite Hc. f_equal.
  unfold proxy_state_release. cbn [active_proxies_ max_proxies_].
  replace (0 <? active_proxies_ s + 1) with true by (symmetry; apply Z.ltb_lt; lia).
  rewrite u64_small by (unfold in_u64; lia). destruct s. cbn. f_equal. lia.
Qed.

(** The four outcomes of an admission, with the state each leaves. *)
Definition admission_outcome (heap : list ProxyAdmissionState) (health : UpstreamHealthState)
    (adm : RouteProxyAdmission) (i : nat) (route : RouteConfig) (d : RateLimitDecision)
    (limits : RouteRateLimits) (c : nat) (s : ProxyAdmissionState)
    (outcome : list ProxyAdmissionState * RouteProxyAdmission * result RouteProxyAdmissionResult) : Prop :=
  let adm' := mkAdmission limits (proxies_ adm) (next_upstream_ adm) in
  (allowed d = false /\ outcome = (heap, adm', Ok (mkAdmissionResult d None None false))) \/
  (allowed d = true /\ active_proxies_ s = max_proxies_ s /\
   outcome = (heap, adm', Ok (mkAdmissionResult d None None false))) \/
  (allowed d = true /\ active_proxies_ s < max_proxies_ s /\
   (forall u, (u < length (upstreams route))%nat -> up health i u = false) /\
   outcome = (heap, adm', Ok (mkAdmissionResult d None None true))) \/
  (allowed d = true /\ active_proxies_ s < max_proxies_ s /\
   exists next k backend, next_upstream_ adm !! i = Some next /\
     first_up health i (length (upstreams route)) next k /\ upstreams route !! k = Some backend /\
     outcome =
       (<[c := mkProxies (max_proxies_ s) (active_proxies_ s + 1)]> heap,
        mkAdmission limits (proxies_ adm)
          (<[i := ((k + 1) mod length (upstreams route))%nat]> (next_upstream_ adm)),
        Ok (mkAdmissionResult d (Some (mkProxyPermit (Some c)))
              (Some (selected_upstream (selected_as i route) backend)) false))).

Lemma route_limits_ok (limits : RouteRateLimits) i now :
  (i < length (buckets_ limits))%nat ->
  exists d limits', route_try_acquire limits i now = Ok (d, limits') /\
    length (buckets_ limits') = length (buckets_ limits).
Proof.
  intros Hi. destruct (lookup_lt_is_Some_2 _ _ Hi) as [b Hb]. unfold route_try_acquire, vec_at.
  rewrite Hb. cbn [mbind result_bind]. destruct b as [b|]; [|by eexists _, _].
  destruct (try_acquire b now) as [d b']. eexists _, _. split; [done|]. apply length_insert.
Qed.

Lemma admission_ok_limits routes heap health adm limits :
  admission_ok routes heap health adm -> length (buckets_ limits) = length (buckets_ (rate_limits_ adm)) ->
  admission_ok routes heap health (mkAdmission limits (proxies_ adm) (next_upstream_ adm)).
Proof. intros [H1 H2 H3 H4 H5] Hl. split; cbn; [done|congruence|done..]. Qed.

Lemma admission_cases routes heap health adm i route now :
  admission_ok routes heap health adm -> routes !! i = Some route ->
  exists d limits c s, route_try_acquire (rate_limits_ adm) i now = Ok (d, limits) /\
    length (buckets_ limits) = length (buckets_ (rate_limits_ adm)) /\
    proxies_ adm = Some c /\ heap !! c = Some s /\
    admission_outcome heap health adm i route d limits c s
      (admission_try_acquire heap health adm (selected_as i route) now).
Proof.
  intros Hok Hr. pose proof Hok as [_ Hb _ _ (c & s & Hp & Hc & Ha & Hm)].
  assert (Hi : (i < length (buckets_ (rate_limits_ adm)))%nat)
    by (rewrite Hb; by eapply lookup_lt_Some).
  destruct (route_limits_ok _ i now Hi) as (d & limits & Hd & Hl).
  exists d, limits, c, s. split_and!; [done..|]. unfold admission_outcome.
  unfold admission_try_acquire. cbn [sr_route_index selected_as]. rewrite Hd.
  destruct (allowed d) eqn:A; cbn [negb]; [right|by left].
  pose proof (admission_ok_limits _ _ _ _ limits Hok Hl) as Hok'.
  unfold admit_proxy. cbn [proxies_]. rewrite Hp.
  destruct (decide (active_proxies_ s = max_proxies_ s)) as [E|E].
  { left. split; [done|]. split; [done|]. unfold proxy_try_acquire. rewrite Hc.
    by replace (max_proxies_ s <=? active_proxies_ s) with true by (symmetry; apply Z.leb_le; lia). }
  right. destruct (acquire_release heap c s Hc ltac:(lia) Hm) as [E1 E2]. rewrite E1.
  destruct (choose_upstream_spec _ _ _ _ i route Hok' Hr) as (next & Hn & Hlt & [Hs|[Hno Hs]]).
  - right. destruct Hs as (k & backend & Hf & Hk & Hs). cbn [next_upstream_] in *.
    split; [done|]. split; [lia|]. exists next, k, backend. split_and!; [done..|].
    rewrite Hp in Hs. rewrite Hs. done.
  - left. rewrite Hp in Hs. rewrite Hs, E2. split_and!; [done|lia|done|done].
Qed.

(** The invariant survives, whatever the outcome. *)
Lemma admission_preserves routes heap health adm i route now heap' adm' r :
  admission_ok routes heap health adm -> routes !! i = Some route ->
  admission_try_acquire heap health adm (selected_as i route) now = (heap', adm', r) ->
  admission_ok routes heap' health adm'.
Proof.
  intros Hok Hr E. destruct (admission_cases _ _ _ _ _ _ now Hok Hr)
    as (d & limits & c & s & _ & Hl & Hp & Hc & Hout).
  pose proof (admission_ok_limits _ _ _ _ limits Hok Hl) as Hok'. rewrite E in Hout.
  destruct Hout as [(_ & [= -> -> ->])|[(_ & _ & [= -> -> ->])|[(_ & _ & _ & [= -> -> ->])|
    (_ & Ha & next & k & backend & Hn & (j & _ & Hk & _) & _ & [= -> -> ->])]]]; [done..|].
  destruct Hok' as [H1 H2 H3 H4 (c' & s' & Hp' & Hc' & Ha' & Hm')]. cbn in *.
  assert (c' = c) as -> by congruence. assert (s' = s) as -> by congruence.
  split; cbn; [done|done| |done|].
  - intros i' route' Hr'. destruct (H3 _ _ Hr') as (next' & Hn' & Hlt').
    destruct (decide (i' = i)) as [->|Hne].
    + assert (route' = route) as -> by congruence. specialize (H1 _ _ Hr).
      eexists. split; [apply list_lookup_insert_eq; by eapply lookup_lt_Some|].
      apply Nat.mod_upper_bound. lia.
    + exists next'. by rewrite list_lookup_insert_ne.
  - eexists c, _. split; [done|]. split; [apply list_lookup_insert_eq; by eapply lookup_lt_Some|].
    cbn. split; [lia|done].
Qed.

(** ** Rotation *)

(** Requests served one after the other on one route: each is admitted at its time and
    its permit is released before the next. *)
Fixpoint serve (heap : list ProxyAdmissionState) (health : UpstreamHealthState)
    (adm : RouteProxyAdmission) (route : SelectedRoute) (times : list Z)
    : list (result RouteProxyAdmissionResult) :=
  match times with
  | [] => []
  | now :: times =>
      let '(heap, adm, r) := admission_try_acquire heap health adm route now in
      let heap := match r with
                  | Ok a => match ar_permit a with Some p => (permit_release heap p).1 | None => heap end
                  | Throw _ => heap
                  end in
      r :: serve heap health adm route times
  end.

Definition chosen (r : result RouteProxyAdmissionResult) : option UpstreamConfig :=
  match r with Ok a => su_upstream <$> ar_upstream a | Throw _ => None end.

(** One served request: the books are as before, and if a backend was chosen the
    rotation moved just past it. *)
Lemma serve_step routes heap health adm i route now times :
  admission_ok routes heap health adm -> routes !! i = Some route ->
  exists adm' r, serve heap health adm (selected_as i route) (now :: times) =
      r :: serve heap health adm' (selected_as i route) times /\
    admission_ok routes heap health adm' /\
    forall b, chosen r = Some b ->
      exists next k, next_upstream_ adm !! i = Some next /\
        first_up health i (length (upstreams route)) next k /\ upstreams route !! k = Some b /\
        next_upstream_ adm' !! i = Some ((k + 1) mod length (upstreams route))%nat.
Proof.
  intros Hok Hr. cbn [serve].
  destruct (admission_try_acquire heap health adm (selected_as i route) now) as [[heap' adm'] r] eqn:E.
  pose proof (admission_preserves _ _ _ _ _ _ _ _ _ _ Hok Hr E) as Hok'.
  destruct (admission_cases _ _ _ _ _ _ now Hok Hr) as (d & limits & c & s & _ & Hl & Hp & Hc & Hout).
  rewrite E in Hout. exists adm', r. pose proof Hok as [_ _ H3 _ (c' & s' & Hp' & Hc' & Ha' & Hm')].
  assert (c' = c) as -> by congruence. assert (s' = s) as -> by congruence.
  destruct Hout as [(_ & [= -> -> ->])|[(_ & _ & [= -> -> ->])|[(_ & _ & _ & [= -> -> ->])|
    (_ & Ha & next & k & backend & Hn & Hf & Hk & [= -> -> ->])]]]; [by split; [|split]..|].
  cbn [ar_permit]. destruct (acquire_release heap c s Hc ltac:(lia) Hm') as [_ E2]. rewrite E2.
  split; [done|]. split.
  - destruct Hok' as [G1 G2 G3 G4 _]. split; [done..|]. cbn. eauto 10.
  - intros b [= <-]. exists next, k. split_and!; [done..|]. cbn.
    apply list_lookup_insert_eq. by eapply lookup_lt_Some.
Qed.

(** The cyclic distance to a wanted slot shrinks at each choice that misses it. *)
Lemma first_up_distance health i size next k j u :
  first_up health i size next k -> (next < size)%nat -> (j < size)%nat ->
  u = ((next + j) mod size)%nat -> up health i u = true ->
  k = u \/ exists j', (j' < j)%nat /\ u = (((k + 1) mod size + j') mod size)%nat.
Proof.
  intros (m & Hm & -> & Hup & Hbefore) Hn Hj -> Hu.
  destruct (Nat.lt_trichotomy j m) as [Hlt|[->|Hlt]].
  - rewrite Hbefore in Hu by done. done.
  - by left.
  - right. exists (j - m - 1)%nat. split; [lia|].
    rewrite Nat.Div0.add_mod_idemp_l, <- Nat.add_assoc, Nat.Div0.add_mod_idemp_l. f_equal. lia.
Qed.

Lemma serve_reaches routes heap health i route u b times : forall adm next j,
  admission_ok routes heap health adm -> routes !! i = Some route ->
  upstreams route !! u = Some b -> up health i u = true ->
  next_upstream_ adm !! i = Some next -> (j < length (upstreams route))%nat ->
  u = ((next + j) mod length (upstreams route))%nat -> (j < length times)%nat ->
  Forall (fun r => is_Some (chosen r)) (serve heap health adm (selected_as i route) times) ->
  exists r, r ∈ serve heap health adm (selected_as i route) times /\ chosen r = Some b.
Proof.
  induction times as [|now times IH]; intros adm next j Hok Hr Hb Hu Hn Hj Eu Hlen Hall;
    [cbn in Hlen; lia|].
  destruct (serve_step _ _ _ _ _ _ now times Hok Hr) as (adm' & r & E & Hok' & Hstep).
  rewrite E in Hall |- *. apply Forall_cons_1 in Hall as [[b' Hb'] Hall].
  destruct (Hstep b' Hb') as (next0 & k & Hn0 & Hf & Hk & Hn').
  assert (next0 = next) as -> by congruence.
  destruct (ok_next _ _ _ _ Hok _ _ Hr) as (n2 & Hn2 & Hlt). assert (n2 = next) as -> by congruence.
  destruct (first_up_distance _ _ _ _ _ _ _ Hf Hlt Hj Eu Hu) as [->|(j' & Hj' & Eu')].
  - exists r. split; [left|congruence].
  - destruct (IH adm' ((k + 1) mod length (upstreams route))%nat j') as (r' & Hin & Hc'); [done..|lia|done|cbn in Hlen; lia|done|].
    exists r'. split; [by right|done].
Qed.

(** ** Properties *)

(** Admission on every branch.  For a server built from valid routes, admitting a
    request on its route never throws, and: when the route's bucket refuses, only the
    bucket has changed; otherwise a token is spent (and never refunded), and when the
    proxy slots are exhausted nothing else has changed; when no backend of the route is
    available the slot taken is given back and the result says so; else the result holds
    exactly one more slot and the first available backend from the route's position on,
    cyclically, and only that route's position moves, to just past it. *)
Theorem admission_effect routes heap health adm i route now :
  admission_ok routes heap health adm -> routes !! i = Some route ->
  exists d limits c s, route_try_acquire (rate_limits_ adm) i now = Ok (d, limits) /\
    proxies_ adm = Some c /\ heap !! c = Some s /\
    admission_outcome heap health adm i route d limits c s
      (admission_try_acquire heap health adm (selected_as i route) now) /\
    admission_ok routes (admission_try_acquire heap health adm (selected_as i route) now).1.1 health
      (admission_try_acquire heap health adm (selected_as i route) now).1.2.
Proof.
  intros Hok Hr. destruct (admission_cases _ _ _ _ _ _ now Hok Hr)
    as (d & limits & c & s & H1 & _ & H2 & H3 & H4).
  exists d, limits, c, s. split_and!; [done..|].
  destruct (admission_try_acquire _ _ _ _ _) as [[heap' adm'] r] eqn:E.
  exact (admission_preserves _ _ _ _ _ _ _ _ _ _ Hok Hr E).
Qed.

(** C27: the rotation is fair.  While the health of a route does not change, every
    available backend of the route is chosen at least once in any run of as many
    successful admissions as the route has backends, from any position. *)
Theorem rotation_fair routes heap health adm i route u b times :
  admission_ok routes heap health adm -> routes !! i = Some route ->
  upstreams route !! u = Some b -> up health i u = true ->
  (length (upstreams route) <= length times)%nat ->
  Forall (fun r => is_Some (chosen r)) (serve heap health adm (selected_as i route) times) ->
  exists r, r ∈ serve heap health adm (selected_as i route) times /\ chosen r = Some b.
Proof.
  intros Hok Hr Hb Hu Hlen Hall. destruct (ok_next _ _ _ _ Hok _ _ Hr) as (next & Hn & Hlt).
  destruct (cyclic_surjective _ next u (lookup_lt_Some _ _ _ Hb) Hlt) as (j & Hj & E).
  by apply (serve_reaches routes heap health i route u b times adm next j); try done; lia.
Qed.

(** ** The server's admission satisfies the invariant *)

Lemma make_buckets_length routes now buckets :
  make_buckets routes now = Ok buckets -> length buckets = length routes.
Proof.
  revert buckets. induction routes as [|r routes IH]; intros buckets E; cbn in E; [by injection E as <-|].
  apply bind_Ok in E as (b & _ & E). apply bind_Ok in E as (bs & E & [= <-]). cbn. by rewrite (IH bs).
Qed.

Lemma make_admission_ok routes c s heap now adm health :
  make_RouteProxyAdmission routes (Some c) now = Ok (adm, health) ->
  (forall i route, routes !! i = Some route -> (1 <= length (upstreams route) <= 16)%nat) ->
  heap !! c = Some s -> 0 <= active_proxies_ s <= max_proxies_ s -> in_u64 (max_proxies_ s) ->
  admission_ok routes heap health adm.
Proof.
  unfold make_RouteProxyAdmission. intros E Hu Hc Ha Hm. apply bind_Ok in E as (limits & El & [= <- <-]).
  unfold make_RouteRateLimits in El. destruct (make_buckets routes now) as [buckets|] eqn:Eb; [|done].
  injection El as <-. split; cbn; [done|by apply make_buckets_length in Eb| | |eauto 10].
  - intros i route Hr. exists 0%nat. split.
    + apply lookup_replicate_2. by eapply lookup_lt_Some.
    + specialize (Hu _ _ Hr). lia.
  - intros i route Hr u Hlt. unfold available, vec_at. cbn [health_routes_ make_UpstreamHealthState].
    rewrite list_lookup_fmap, Hr. cbn. rewrite lookup_replicate_2 by done. by eexists.
Qed.

(** ** Witnesses *)

Definition pool_route : RouteConfig :=
  mkRoute (L "/pool") [mkUpstream (L "a") 80 3000 http; mkUpstream (L "b") 80 3000 http]
    false None None None false.
Definition pool_admission : RouteProxyAdmission := mkAdmission (mkRouteRateLimits [None]) (Some 0%nat) [0%nat].
Definition pool_health : UpstreamHealthState := make_UpstreamHealthState [pool_route].
Definition pool_heap : list ProxyAdmissionState := [make_ProxyAdmissionState 1].

Lemma pool_admission_ok : admission_ok [pool_route] pool_heap pool_health pool_admission.
Proof.
  eapply (make_admission_ok [pool_route] 0 (make_ProxyAdmissionState 1) pool_heap 0).
  - reflexivity.
  - intros [|i] route E; [|done]. assert (route = pool_route) as -> by (cbn in E; congruence).
    vm_compute. split; repeat constructor.
  - reflexivity.
  - split; vm_compute; discriminate.
  - split; [vm_compute; discriminate|reflexivity].
Qed.

Lemma admission_effect_witness :
  exists d limits c s, route_try_acquire (rate_limits_ pool_admission) 0 5 = Ok (d, limits) /\
    proxies_ pool_admission = Some c /\ pool_heap !! c = Some s /\
    admission_outcome pool_heap pool_health pool_admission 0 pool_route d limits c s
      (admission_try_acquire pool_heap pool_health pool_admission (selected_as 0 pool_route) 5).
Proof.
  destruct (admission_effect [pool_route] pool_heap pool_health pool_admission 0 pool_route 5
              pool_admission_ok eq_refl) as (d & limits & c & s & H1 & H2 & H3 & H4 & _).
  exists d, limits, c, s. exact (conj H1 (conj H2 (conj H3 H4))).
Defined.

Lemma rotation_fair_witness :
  exists r, r ∈ serve pool_heap pool_health pool_admission (selected_as 0 pool_route) [5; 6] /\
    chosen r = Some (mkUpstream (L "b") 80 3000 http).
Proof.
  apply (rotation_fair [pool_route] pool_heap pool_health pool_admission 0 pool_route 1 _ [5; 6]
           pool_admission_ok); try reflexivity.
  repeat constructor; vm_compute; by eexists.
Defined.
