(* ===== verification/ProxyMessage.v ===== *)
(** * Forwarded messages (src/http_proxy.cpp, the functions before the exchange)

    What is sent upstream for a request, and downstream for a response: rewritten
    target, hop-by-hop and forwarding fields removed, Host, Server, Connection and
    framing rewritten. *)

From S2P Require Import Prelude Text Http ConfigTypes HttpHandler.

Local Open Scope Z_scope.

(** ** Field names *)

Definition is_ows (c : ascii) : bool := ascii_eqb c " " || ascii_eqb c "009".

(** [find_last_not_of(" \t")], as the length of what it keeps. *)
Fixpoint trim_end (s : text) : text :=
  match s with
  | [] => []
  | c :: rest =>
      match trim_end rest with
      | [] => if is_ows c then [] else [c]
      | rest' => c :: rest'
      end
  end.

Definition trim_http_token (value : text) : text :=
  match sv_find_first_not is_ows value with
  | None => []
  | Some first => to_lower (trim_end (drop first value))
  end.

(** The comma-separated parts of a field value: the loop over [find(',', begin)].  Every
    iteration consumes at least one character or is the last. *)
Fixpoint comma_parts (fuel : nat) (value : text) : list text :=
  match fuel with
  | O => []
  | S fuel =>
      match sv_find "," value with
      | None => [value]
      | Some n => take n value :: comma_parts fuel (drop (S n) value)
      end
  end.

Definition value_tokens (value : text) : list text :=
  List.filter (fun token => negb (bool_decide (token = [])))
    (trim_http_token <$> comma_parts (S (length value)) value).

Section Fields.
Context {B : BeastHttp}.

(** The set of the tokens nominated by the Connection fields. *)
Fixpoint tokens_of (fields : list (text * text)) : list text :=
  match fields with
  | [] => []
  | field :: rest =>
      if named (L "Connection") field then value_tokens field.2 ++ tokens_of rest else tokens_of rest
  end.

Definition connection_tokens (f : fields) : gset text := list_to_set (tokens_of (field_list f)).

End Fields.

Definition hop_by_hop_names : list text :=
  [L "connection"; L "keep-alive"; L "te"; L "trailer"; L "transfer-encoding"; L "upgrade";
   L "proxy-connection"; L "proxy-authenticate"; L "proxy-authorization"].

Definition is_hop_by_hop (name : text) (dynamic_tokens : gset text) : bool :=
  let normalized := to_lower name in
  existsb (text_eqb normalized) hop_by_hop_names || bool_decide (normalized ∈ dynamic_tokens).

Definition is_forwarding_metadata (name : text) : bool :=
  starts_with (L "x-forwarded-") (to_lower name).

(** ** Authority and target *)

Definition make_upstream_authority (host : text) (port : Z) : text :=
  let ipv6_literal := bool_decide (is_Some (sv_find ":" host)) in
  let port_text := dec port in
  if ipv6_literal then "["%char :: host ++ L "]:" ++ port_text
  else host ++ ":"%char :: port_text.

(** [target.remove_prefix] needs a target at least as long; selection guarantees it. *)
Definition rewrite_target (selected : SelectedUpstream) (target : text) : text :=
  if su_strip_prefix selected && negb (bool_decide (su_prefix selected = [])) &&
     negb (text_eqb (su_prefix selected) (L "/"))
  then
    let target := drop (length (su_prefix selected)) target in
    if bool_decide (target = []) || bool_decide (head target = Some ("?"%char))
    then "/"%char :: target else target
  else target.

(** ** Messages *)

Section Messages.
Context {B : BeastHttp}.

(** The fields of the request that are not forwarded. *)
Definition drops_upstream (selected : SelectedUpstream) (dynamic_tokens : gset text)
    (field : text * text) : bool :=
  (su_strip_authorization selected && named (L "Authorization") field) ||
  is_hop_by_hop field.1 dynamic_tokens || is_forwarding_metadata field.1 ||
  named (L "Host") field || named (L "Content-Length") field || named (L "Expect") field.

(** The loop [for (const auto& field : ...) { if (...) continue; message.insert(...); }] *)
Fixpoint copy_fields (drops : text * text -> bool) (source : list (text * text)) (f : fields) : fields :=
  match source with
  | [] => f
  | field :: rest =>
      if drops field then copy_fields drops rest f
      else copy_fields drops rest (insert_field field.1 field.2 f)
  end.

Definition make_upstream_request (selected : SelectedUpstream) (request : HttpRequest)
    (keep_alive : bool) : HttpRequest :=
  let config := su_upstream selected in
  let upstream := mkRequest (rq_method request) (rewrite_target selected (rq_target request)) 11
                    no_fields [] in
  let dynamic_tokens := connection_tokens (rq_fields request) in
  let upstream := mkRequest (rq_method upstream) (rq_target upstream) (rq_version upstream)
                    (copy_fields (drops_upstream selected dynamic_tokens)
                       (field_list (rq_fields request)) (rq_fields upstream)) (rq_body upstream) in
  let upstream := rq_set (L "Host") (make_upstream_authority (host config) (port config)) upstream in
  let upstream := rq_keep_alive keep_alive upstream in
  let upstream := rq_with_body (rq_body request) upstream in
  if negb (verb_is (rq_method request) get) then
    rq_content_length (Z.of_nat (length (rq_body upstream))) upstream
  else if negb (bool_decide (rq_body request = [])) then rq_prepare upstream
  else upstream.

Definition drops_downstream (dynamic_tokens : gset text) (field : text * text) : bool :=
  is_hop_by_hop field.1 dynamic_tokens || named (L "Server") field ||
  named (L "Content-Length") field.

(** The header is that of a response without its body. *)
Definition make_downstream_header (request : HttpRequest) (upstream_response : HttpResponse)
    : HttpResponse :=
  let response := mkResponse (rs_status upstream_response) [] (rq_version request) no_fields [] in
  let response := mkResponse (rs_status response) (rs_reason upstream_response) (rs_version response)
                    (rs_fields response) (rs_body response) in
  let dynamic_tokens := connection_tokens (rs_fields upstream_response) in
  let response := mkResponse (rs_status response) (rs_reason response) (rs_version response)
                    (copy_fields (drops_downstream dynamic_tokens)
                       (field_list (rs_fields upstream_response)) (rs_fields response))
                    (rs_body response) in
  let response := rs_set (L "Server") (L "ApiGate") response in
  rs_keep_alive (request_keep_alive request) response.

Definition make_downstream_response (request : HttpRequest) (upstream_response : HttpResponse)
    : HttpResponse :=
  let response := make_downstream_header request upstream_response in
  let response := rs_with_body (rs_body upstream_response) response in
  rs_prepare response.

End Messages.

(** ** Lemmas *)

Section Lemmas.
Context {B : BeastHttp} {BL : BeastLaws B}.

Lemma copy_fields_values drops source f name :
  values_of name (copy_fields drops source f) =
  values_of name f ++ (snd <$> List.filter (fun x => negb (drops x) && named name x) source).
Proof.
  revert f. induction source as [|[n v] source IH]; intros f; cbn [copy_fields List.filter].
  { by rewrite app_nil_r. }
  destruct (drops (n, v)); cbn [negb andb]; [apply IH|].
  rewrite IH, insert_field_values, <- app_assoc. f_equal. unfold named at 2. cbn [fst snd].
  by destruct (iequals n name).
Qed.

(** When [drops] decides by name, a name is copied whole or not at all. *)
Lemma copy_fields_by_name drops source f name (d : bool) :
  (forall x, named name x = true -> drops x = d) ->
  values_of name (copy_fields drops source f) =
  values_of name f ++ (if d then [] else snd <$> List.filter (named name) source).
Proof.
  intros H. rewrite copy_fields_values. f_equal. induction source as [|x source IH]; cbn; [by destruct d|].
  destruct (named name x) eqn:E; [rewrite (H x E)|rewrite andb_false_r, IH; by destruct d].
  destruct d; cbn; rewrite IH; done.
Qed.

(** The names that are not forwarded upstream, up to case. *)
Definition dropped_name (selected : SelectedUpstream) (request : HttpRequest) (name : text) : bool :=
  (su_strip_authorization selected && iequals name (L "Authorization")) ||
  is_hop_by_hop name (connection_tokens (rq_fields request)) || is_forwarding_metadata name ||
  iequals name (L "Host") || iequals name (L "Content-Length") || iequals name (L "Expect").

Lemma iequals_lower_eq a b : iequals a b = true -> to_lower a = to_lower b.
Proof. apply iequals_lower. Qed.

Lemma drops_upstream_name selected request name x :
  named name x = true ->
  drops_upstream selected (connection_tokens (rq_fields request)) x = dropped_name selected request name.
Proof.
  unfold named, drops_upstream, dropped_name, is_hop_by_hop, is_forwarding_metadata, named.
  intros E. pose proof (iequals_lower_eq _ _ E) as ->.
  by rewrite !(iequals_trans _ _ _ E).
Qed.

Definition dropped_response_name (response : HttpResponse) (name : text) : bool :=
  is_hop_by_hop name (connection_tokens (rs_fields response)) || iequals name (L "Server") ||
  iequals name (L "Content-Length").

Lemma drops_downstream_name response name x :
  named name x = true ->
  drops_downstream (connection_tokens (rs_fields response)) x = dropped_response_name response name.
Proof.
  unfold named, drops_downstream, dropped_response_name, is_hop_by_hop, named.
  intros E. pose proof (iequals_lower_eq _ _ E) as ->.
  by rewrite !(iequals_trans _ _ _ E).
Qed.

(** The copied fields, with Host and Connection written. *)
Definition upstream_base (selected : SelectedUpstream) (request : HttpRequest) (keep_alive : bool) : fields :=
  set_keep_alive 11 keep_alive
    (set_field (L "Host")
       (make_upstream_authority (host (su_upstream selected)) (port (su_upstream selected)))
       (copy_fields (drops_upstream selected (connection_tokens (rq_fields request)))
          (field_list (rq_fields request)) no_fields)).

Lemma make_upstream_request_fields selected request keep_alive :
  rq_fields (make_upstream_request selected request keep_alive) =
  if negb (verb_is (rq_method request) get) then
    set_content_length (Z.of_nat (length (rq_body request))) (upstream_base selected request keep_alive)
  else if negb (bool_decide (rq_body request = [])) then
    prepare_fields (a_request (rq_method request)) 11 (Z.of_nat (length (rq_body request)))
      (upstream_base selected request keep_alive)
  else upstream_base selected request keep_alive.
Proof.
  unfold make_upstream_request. cbn [rq_method rq_target rq_version rq_fields rq_body rq_set
    rq_keep_alive rq_with_body].
  by destruct (verb_is (rq_method request) get), (bool_decide (rq_body request = [])).
Qed.

Lemma upstream_base_values selected request keep_alive name :
  iequals (L "Host") name = false -> iequals (L "Connection") name = false ->
  values_of name (upstream_base selected request keep_alive) =
  if dropped_name selected request name then [] else values_of name (rq_fields request).
Proof.
  intros Hh Hc. unfold upstream_base.
  rewrite set_keep_alive_others, set_field_others by done.
  rewrite (copy_fields_by_name _ _ _ _ (dropped_name selected request name)), values_of_empty.
  - done.
  - intros x Hx. by apply drops_upstream_name.
Qed.

Lemma hop_dropped selected request name :
  In (to_lower name) hop_by_hop_names -> dropped_name selected request name = true.
Proof.
  intros H. unfold dropped_name, is_hop_by_hop.
  replace (existsb (text_eqb (to_lower name)) hop_by_hop_names) with true.
  - cbn. by rewrite !orb_true_r.
  - symmetry. apply existsb_exists. exists (to_lower name). split; [done|apply text_eqb_refl].
Qed.

Lemma base_framing selected request keep_alive :
  values_of (L "Transfer-Encoding") (upstream_base selected request keep_alive) = [] /\
  values_of (L "Content-Length") (upstream_base selected request keep_alive) = [].
Proof.
  rewrite !upstream_base_values by (apply iequals_false_lower; reflexivity). split.
  - rewrite hop_dropped; [done|]. vm_compute. tauto.
  - replace (dropped_name selected request (L "Content-Length")) with true; [done|].
    symmetry. unfold dropped_name. rewrite iequals_refl. by rewrite !orb_true_r.
Qed.

(** A gateway-written name read off the final fields. *)
Lemma upstream_values_other selected request keep_alive name :
  iequals (L "Content-Length") name = false -> iequals (L "Transfer-Encoding") name = false ->
  values_of name (rq_fields (make_upstream_request selected request keep_alive)) =
  values_of name (upstream_base selected request keep_alive).
Proof.
  intros H1 H2. rewrite make_upstream_request_fields. case_ifs.
  - by apply set_content_length_others.
  - by apply prepare_fields_others.
  - done.
Qed.

(** ** Tokens *)

Lemma tokens_of_spec (l : list (text * text)) token :
  token ∈ tokens_of l <-> exists field, field ∈ l /\ named (L "Connection") field = true /\
                                        token ∈ value_tokens field.2.
Proof.
  induction l as [|x l IH]; cbn.
  - split; [by intros ?%elem_of_nil|]. by intros (f & ?%elem_of_nil & _).
  - destruct (named (L "Connection") x) eqn:N.
    + rewrite elem_of_app, IH. split.
      * intros [H|(f & H1 & H2)]; [exists x; split; [left|done]|exists f; split; [by right|done]].
      * intros (f & [->|H]%elem_of_cons & H1 & H2); [by left|right; eauto].
    + rewrite IH. split.
      * intros (f & H1 & H2). exists f. split; [by right|done].
      * intros (f & [->|H]%elem_of_cons & H1 & H2); [congruence|eauto].
Qed.

Lemma connection_tokens_spec (f : fields) token :
  token ∈ connection_tokens f <->
  exists value, value ∈ values_of (L "Connection") f /\ token ∈ value_tokens value.
Proof.
  unfold connection_tokens. rewrite elem_of_list_to_set, tokens_of_spec. split.
  - intros ([n v] & H1 & H2 & H3). exists v. split; [|done]. apply values_of_elem. by exists n.
  - intros (v & (n & H1 & H2)%values_of_elem & H3). by exists (n, v).
Qed.

End Lemmas.

(** ** The grammar of Connection tokens *)

Lemma separator_split (c : ascii) a b p d :
  c ∉ a -> a ++ c :: b = p ++ c :: d ->
  (p = a /\ b = d) \/ exists p', p = a ++ c :: p' /\ b = p' ++ c :: d.
Proof.
  revert p. induction a as [|x a IH]; intros [|y p] Ha E; cbn in E.
  - injection E as ->. by left.
  - injection E as -> ->. right. by exists p.
  - injection E as -> _. by destruct Ha; left.
  - injection E as -> E. apply not_elem_of_cons in Ha as [_ Ha].
    destruct (IH p Ha E) as [[-> ->]|(p' & -> & ->)]; [by left|right; by exists p'].
Qed.

(** [mid] is a comma-delimited part of [value]. *)
Definition part_of (value mid : text) : Prop :=
  exists pre post, value = pre ++ mid ++ post /\ (","%char) ∉ mid /\
    (pre = [] \/ exists p, pre = p ++ [","%char]) /\ (post = [] \/ exists q, post = ","%char :: q).

Lemma comma_parts_spec fuel value mid :
  (length value < fuel)%nat -> mid ∈ comma_parts fuel value <-> part_of value mid.
Proof.
  revert value. induction fuel as [|fuel IH]; intros value Hf; [lia|]. cbn [comma_parts].
  destruct (sv_find "," value) as [n|] eqn:F.
  - apply sv_find_split in F as [E Hc]. set (a := take n value) in *. set (b := drop (S n) value) in *.
    assert (Hb : (length b < fuel)%nat).
    { apply (f_equal length) in E. rewrite length_app in E. cbn in E. lia. }
    clearbody a b. subst value. rewrite elem_of_cons, (IH b Hb). split.
    + intros [->|(pre & post & -> & H1 & H2 & H3)].
      * exists [], (","%char :: b). split_and!; [done|done|by left|right; by exists b].
      * exists (a ++ ","%char :: pre), post. split_and!; [by rewrite <- app_assoc|done| |done].
        right. destruct H2 as [->|[p ->]]; [by exists a|]. exists (a ++ ","%char :: p).
        by rewrite <- app_assoc.
    + intros (pre & post & E & H1 & [->|[p ->]] & H3).
      * left. destruct H3 as [->|[q ->]].
        -- exfalso. apply H1. cbn in E. rewrite app_nil_r in E. rewrite <- E.
           apply elem_of_app. right. left.
        -- by apply separator_inj in E as [-> _].
      * right. rewrite <- app_assoc in E. cbn in E.
        destruct (separator_split _ _ _ _ _ Hc E) as [[_ ->]|(p' & _ & ->)].
        -- exists [], post. split_and!; [done|done|by left|done].
        -- exists (p' ++ [","%char]), post. split_and!; [by rewrite <- app_assoc|done|right; by exists p'|done].
  - apply sv_find_None in F. rewrite list_elem_of_singleton. split.
    + intros ->. exists [], []. rewrite app_nil_r. split_and!; [done|done|by left|by left].
    + intros (pre & post & -> & _ & [->|[p ->]] & [->|[q ->]]); cbn in *.
      * by rewrite app_nil_r.
      * exfalso. apply F. rewrite !elem_of_app, elem_of_cons. tauto.
      * exfalso. apply F. rewrite !elem_of_app, list_elem_of_singleton. tauto.
      * exfalso. apply F. rewrite !elem_of_app, list_elem_of_singleton. tauto.
Qed.

(** [core] is [mid] without the spaces and tabs around it. *)
Definition trimmed (mid core : text) : Prop :=
  exists l r, mid = l ++ core ++ r /\
    Forall (fun c => is_ows c = true) l /\ Forall (fun c => is_ows c = true) r /\
    (forall c rest, core = c :: rest -> is_ows c = false) /\
    (forall c init, core = init ++ [c] -> is_ows c = false).

Lemma trim_end_spec s :
  exists r, s = trim_end s ++ r /\ Forall (fun c => is_ows c = true) r /\
    (forall c init, trim_end s = init ++ [c] -> is_ows c = false).
Proof.
  induction s as [|c s (r & E & H1 & H2)]; cbn.
  { exists []. split_and!; [done|done|]. by intros c [|? ?] ?. }
  destruct (trim_end s) as [|d s'] eqn:T.
  - destruct (is_ows c) eqn:O.
    + exists (c :: r). split_and!; [by rewrite E|by constructor|]. by intros d [|? ?] ?.
    + exists r. split_and!; [by rewrite E|done|]. intros d [|x init] Hi; [by injection Hi as ->|].
      injection Hi as _ Hi. by destruct init.
  - exists r. split_and!; [by rewrite E|done|]. intros d' [|x init] Hi; [done|].
    injection Hi as <- Hi. by apply (H2 d' init).
Qed.

Lemma find_first_not_spec p s n :
  sv_find_first_not p s = Some n ->
  exists c rest, drop n s = c :: rest /\ p c = false /\ Forall (fun c => p c = true) (take n s).
Proof.
  revert n. induction s as [|c s IH]; intros n E; cbn in E; [done|]. destruct (p c) eqn:D.
  - apply fmap_Some in E as (m & Hm & ->). destruct (IH _ Hm) as (c' & rest & ? & ? & ?).
    exists c', rest. cbn. split_and!; [done|done|by constructor].
  - injection E as <-. exists c, s. split_and!; [done|done|constructor].
Qed.

Lemma find_first_not_None p s : sv_find_first_not p s = None -> Forall (fun c => p c = true) s.
Proof.
  induction s as [|c s IH]; cbn; [constructor|]. destruct (p c) eqn:D; [|done].
  intros E%fmap_None. constructor; auto.
Qed.

Lemma trim_http_token_trimmed mid : exists core, trim_http_token mid = to_lower core /\ trimmed mid core.
Proof.
  unfold trim_http_token. destruct (sv_find_first_not is_ows mid) as [n|] eqn:F.
  - destruct (find_first_not_spec _ _ _ F) as (c & rest & Ed & Hc & Hl).
    destruct (trim_end_spec (drop n mid)) as (r & Er & Hr & Hlast).
    exists (trim_end (drop n mid)). split; [done|]. exists (take n mid), r. split_and!; [|done..| |done].
    + by rewrite <- Er, take_drop.
    + intros d rest' E. rewrite E in Er. rewrite Ed in Er. injection Er as <- _. done.
  - exists []. split; [done|]. exists mid, []. rewrite app_nil_r.
    split_and!; [done|by apply find_first_not_None|done..|by intros c [|? ?] ?].
Qed.

Lemma find_first_not_app p l c rest :
  Forall (fun c => p c = true) l -> p c = false ->
  sv_find_first_not p (l ++ c :: rest) = Some (length l).
Proof. intros H Hc. induction H as [|x l Hx _ IH]; cbn; [by rewrite Hc|]. by rewrite Hx, IH. Qed.

Lemma find_first_not_all p l : Forall (fun c => p c = true) l -> sv_find_first_not p l = None.
Proof. induction 1 as [|x l Hx _ IH]; cbn; [done|]. by rewrite Hx, IH. Qed.

Lemma trim_end_all r : Forall (fun c => is_ows c = true) r -> trim_end r = [].
Proof. induction 1 as [|x l Hx _ IH]; cbn; [done|]. by rewrite IH, Hx. Qed.

Lemma trim_end_app core r :
  Forall (fun c => is_ows c = true) r -> (forall c init, core = init ++ [c] -> is_ows c = false) ->
  trim_end (core ++ r) = core.
Proof.
  intros Hr. induction core as [|c core IH]; intros H; cbn; [by apply trim_end_all|].
  rewrite IH.
  - destruct core as [|d core]; [|done]. by rewrite (H c []).
  - intros d init ->. by apply (H d (c :: init)).
Qed.

Lemma trim_of mid core : trimmed mid core -> trim_http_token mid = to_lower core.
Proof.
  intros (l & r & -> & Hl & Hr & Hf & Hla). unfold trim_http_token. destruct core as [|c core].
  - rewrite find_first_not_all; [done|]. by apply Forall_app.
  - rewrite <- app_comm_cons, find_first_not_app by eauto.
    rewrite drop_app_length, app_comm_cons. by rewrite trim_end_app.
Qed.

(** The tokens a Connection value nominates, by the grammar. *)
Definition nominates (value token : text) : Prop :=
  token <> [] /\ exists mid core, part_of value mid /\ trimmed mid core /\ token = to_lower core.

Lemma value_tokens_spec value token : token ∈ value_tokens value <-> nominates value token.
Proof.
  unfold value_tokens, nominates. rewrite list_elem_of_In, filter_In, <- list_elem_of_In.
  rewrite list_elem_of_fmap, negb_true_iff, bool_decide_eq_false. split.
  - intros ((mid & -> & Hm) & Hn). split; [done|].
    apply comma_parts_spec in Hm; [|lia]. destruct (trim_http_token_trimmed mid) as (core & -> & Ht).
    eauto.
  - intros (Hn & mid & core & Hp & Ht & ->). split; [|done]. exists mid.
    split; [by rewrite (trim_of _ _ Ht)|]. apply comma_parts_spec; [lia|done].
Qed.

Section Sanitised.
Context {B : BeastHttp} {BL : BeastLaws B}.

(** End-to-end fields: not hop-by-hop, neither by name nor by nomination. *)
Definition end_to_end (f : fields) (name : text) : Prop :=
  ~ In (to_lower name) hop_by_hop_names /\
  ~ exists value, value ∈ values_of (L "Connection") f /\ nominates value (to_lower name).

(** What may be forwarded upstream. *)
Definition forwardable (selected : SelectedUpstream) (request : HttpRequest) (name : text) : Prop :=
  end_to_end (rq_fields request) name /\
  ~ (su_strip_authorization selected = true /\ to_lower name = to_lower (L "Authorization")) /\
  ~ (exists rest, to_lower name = L "x-forwarded-" ++ rest) /\
  to_lower name <> to_lower (L "Host") /\ to_lower name <> to_lower (L "Content-Length") /\
  to_lower name <> to_lower (L "Expect").

Lemma hop_by_hop_spec name (f : fields) :
  is_hop_by_hop name (connection_tokens f) = false <-> end_to_end f name.
Proof.
  unfold is_hop_by_hop, end_to_end. rewrite orb_false_iff, bool_decide_eq_false, connection_tokens_spec.
  setoid_rewrite value_tokens_spec.
  assert (E : existsb (text_eqb (to_lower name)) hop_by_hop_names = false <->
              ~ In (to_lower name) hop_by_hop_names).
  { rewrite <- not_true_iff_false, existsb_exists. split; intros H1 H2; apply H1.
    - exists (to_lower name). split; [done|apply text_eqb_refl].
    - destruct H2 as (x & Hx & E%text_eqb_true). by rewrite E. }
  by rewrite E.
Qed.

Lemma iequals_false a b : iequals a b = false <-> to_lower a <> to_lower b.
Proof. rewrite iequals_lower_of. apply bool_decide_eq_false. Qed.

Lemma dropped_name_spec selected request name :
  dropped_name selected request name = false <-> forwardable selected request name.
Proof.
  unfold dropped_name, forwardable. rewrite !orb_false_iff, hop_by_hop_spec, !iequals_false.
  unfold is_forwarding_metadata. rewrite andb_false_iff, iequals_false.
  rewrite <- (not_true_iff_false (starts_with _ _)), starts_with_true.
  destruct (su_strip_authorization selected); intuition congruence.
Qed.

(** Names the gateway writes itself. *)
Definition rewritten (name : text) : Prop :=
  to_lower name = to_lower (L "Host") \/ to_lower name = to_lower (L "Connection") \/
  to_lower name = to_lower (L "Content-Length") \/ to_lower name = to_lower (L "Transfer-Encoding").

Lemma not_rewritten name : ~ rewritten name ->
  iequals (L "Host") name = false /\ iequals (L "Connection") name = false /\
  iequals (L "Content-Length") name = false /\ iequals (L "Transfer-Encoding") name = false.
Proof. unfold rewritten. rewrite !iequals_false. intros H. repeat split; intros E; apply H; rewrite E; tauto. Qed.

(** C28: what the backend receives.  The upstream request keeps the method and the body,
    is HTTP/1.1 with the backend's authority as its only Host and the connection
    persistence asked for; every other field of the client's request is forwarded with
    all its values in order, unless it is hop-by-hop (by name or nominated by a
    Connection field), X-Forwarded-*, Expect, or Authorization on a route that strips
    it, and then not at all; and its framing is unambiguous: no Transfer-Encoding, and
    exactly one Content-Length, that of the body, or none for a GET without body. *)
Theorem upstream_request_sanitised selected request keep_alive :
  let up := make_upstream_request selected request keep_alive in
  rq_method up = rq_method request /\ rq_body up = rq_body request /\ rq_version up = 11 /\
  request_keep_alive up = keep_alive /\
  values_of (L "Host") (rq_fields up) =
    [make_upstream_authority (host (su_upstream selected)) (port (su_upstream selected))] /\
  (forall name, ~ rewritten name ->
     (forwardable selected request name -> values_of name (rq_fields up) = values_of name (rq_fields request)) /\
     (~ forwardable selected request name -> values_of name (rq_fields up) = [])) /\
  values_of (L "Transfer-Encoding") (rq_fields up) = [] /\
  values_of (L "Content-Length") (rq_fields up) =
    (if decide (rq_method request = get /\ rq_body request = []) then []
     else [dec (Z.of_nat (length (rq_body request)))]).
Proof.
  intros up.
  assert (Hshape : rq_method up = rq_method request /\ rq_body up = rq_body request /\ rq_version up = 11)
    by (unfold up, make_upstream_request; case_ifs; done).
  destruct Hshape as (S1 & S2 & S3). destruct (base_framing selected request keep_alive) as [F1 F2].
  split_and!; [done..| | | | |].
  - unfold request_keep_alive. rewrite S3. eapply set_keep_alive_get; [by right|].
    unfold up. rewrite upstream_values_other by (apply iequals_false_lower; reflexivity). reflexivity.
  - unfold up. rewrite upstream_values_other by (apply iequals_false_lower; reflexivity).
    unfold upstream_base. by field_values.
  - intros name (N1 & N2 & N3 & N4)%not_rewritten. unfold up.
    rewrite upstream_values_other, upstream_base_values by done.
    rewrite <- dropped_name_spec. by destruct (dropped_name selected request name).
  - unfold up. rewrite make_upstream_request_fields. case_ifs; [by apply set_content_length_framing| |done].
    apply prepare_fields_framing; [|done]. apply body_positive. by apply negb_true_iff, bool_decide_eq_false in Heqb0.
  - unfold up. rewrite make_upstream_request_fields.
    destruct (verb_is (rq_method request) get) eqn:G; cbn [negb].
    + apply verb_is_true in G. destruct (bool_decide (rq_body request = [])) eqn:E; cbn [negb].
      * apply bool_decide_eq_true in E. by rewrite decide_True by done.
      * apply bool_decide_eq_false in E. rewrite decide_False by tauto.
        by apply prepare_fields_length, body_positive.
    + rewrite decide_False; [apply set_content_length_value|]. intros [E _]. rewrite E in G. done.
Qed.

(** What may be passed back downstream. *)
Definition returnable (response : HttpResponse) (name : text) : Prop :=
  end_to_end (rs_fields response) name /\ to_lower name <> to_lower (L "Server") /\
  to_lower name <> to_lower (L "Content-Length").

Lemma dropped_response_spec response name :
  dropped_response_name response name = false <-> returnable response name.
Proof.
  unfold dropped_response_name, returnable. rewrite !orb_false_iff, hop_by_hop_spec, !iequals_false. tauto.
Qed.

(** The copied fields of a response. *)
Lemma downstream_header_values request response name :
  iequals (L "Server") name = false -> iequals (L "Connection") name = false ->
  values_of name (rs_fields (make_downstream_header request response)) =
  if dropped_response_name response name then [] else values_of name (rs_fields response).
Proof.
  intros H1 H2. unfold make_downstream_header, rs_set, rs_keep_alive.
  cbn [rs_status rs_reason rs_version rs_fields rs_body].
  rewrite set_keep_alive_others, set_field_others by done.
  rewrite (copy_fields_by_name _ _ _ _ (dropped_response_name response name)), values_of_empty.
  - done.
  - intros x Hx. by apply drops_downstream_name.
Qed.

(** C29: what the client receives.  A proxied response keeps the backend's status,
    reason and body, answers in the client's version and persistence, names ApiGate as
    the only server, and carries every other end-to-end field of the backend with all
    its values, no hop-by-hop field, and the length of its body when it has one and its
    status may have one (Beast throws otherwise). *)
Theorem downstream_response_sanitised request response :
  rq_version request = 10 \/ rq_version request = 11 ->
  let down := make_downstream_response request response in
  rs_status down = rs_status response /\ rs_reason down = rs_reason response /\
  rs_body down = rs_body response /\ rs_version down = rq_version request /\
  response_keep_alive down = request_keep_alive request /\
  values_of (L "Server") (rs_fields down) = [L "ApiGate"] /\
  (forall name, to_lower name <> to_lower (L "Server") -> ~ rewritten name ->
     (returnable response name -> values_of name (rs_fields down) = values_of name (rs_fields response)) /\
     (~ returnable response name -> values_of name (rs_fields down) = [])) /\
  (rs_body response <> [] -> body_allowed (a_response (rs_status response)) = true ->
   values_of (L "Content-Length") (rs_fields down) = [dec (Z.of_nat (length (rs_body response)))] /\
   values_of (L "Transfer-Encoding") (rs_fields down) = []).
Proof.
  intros Hv down. unfold down, make_downstream_response.
  pose proof (downstream_header_values request response) as Hvals.
  set (h := make_downstream_header request response) in *.
  assert (Hh : rs_status h = rs_status response /\ rs_reason h = rs_reason response /\
    rs_version h = rq_version request /\ values_of (L "Server") (rs_fields h) = [L "ApiGate"] /\
    response_keep_alive h = request_keep_alive request).
  { split_and!; [done..| |].
    - unfold h, make_downstream_header, rs_set, rs_keep_alive. cbn [rs_fields rs_version]. by field_values.
    - unfold h, make_downstream_header, response_keep_alive, rs_set, rs_keep_alive.
      cbn [rs_fields rs_version]. by apply set_keep_alive_reads. }
  destruct Hh as (E1 & E2 & E3 & E4 & E5). clearbody h. unfold rs_prepare, rs_with_body.
  unfold response_keep_alive in *. cbn [rs_status rs_reason rs_version rs_fields rs_body].
  rewrite E3 in *. split_and!; [done..| | | |].
  - rewrite <- E5. apply get_keep_alive_reads. by field_values.
  - by field_values.
  - intros name Hs (N1 & N2 & N3 & N4)%not_rewritten. rewrite prepare_fields_others by done.
    assert (Hs' : iequals (L "Server") name = false) by (apply iequals_false; congruence).
    rewrite (Hvals name Hs' N2), <- dropped_response_spec. by destruct (dropped_response_name response name).
  - intros Hb Ha. pose proof (body_positive _ Hb) as Hpos. split; [by rewrite E1; apply prepare_fields_length|].
    apply prepare_fields_framing; [done|].
    rewrite Hvals by (apply iequals_false_lower; reflexivity).
    replace (dropped_response_name response (L "Transfer-Encoding")) with true; [done|].
    symmetry. apply not_false_iff_true. rewrite dropped_response_spec. intros ((H & _) & _).
    apply H. vm_compute. tauto.
Qed.

End Sanitised.

(** ** Authority *)

(** Hosts as the configuration admits them: an IPv6 literal, which has colons and no
    bracket, or a name or IPv4 address, which has neither. *)
Definition authority_host (h : text) : Prop := ("["%char) ∉ h /\ ("]"%char) ∉ h.

Lemma authority_ipv6 h p : (":"%char) ∈ h ->
  make_upstream_authority h p = "["%char :: (h ++ "]"%char :: ":"%char :: dec p).
Proof.
  intros H. unfold make_upstream_authority. rewrite bool_decide_eq_true_2; [done|].
  destruct (sv_find ":" h) eqn:E; [by eexists|]. by apply sv_find_None in E.
Qed.

Lemma authority_plain h p : (":"%char) ∉ h ->
  make_upstream_authority h p = h ++ ":"%char :: dec p.
Proof.
  intros H. unfold make_upstream_authority. apply sv_find_None in H. by rewrite H.
Qed.

(** How a recipient reads an authority with a port (RFC 3986, section 3.2): an IP literal ends
    at the bracket that closes it, any other host at the first colon. *)
Definition parse_authority (authority : text) : option (text * text) :=
  match authority with
  | [] => None
  | c :: rest =>
      if ascii_eqb c "[" then
        n ← sv_find "]" rest;
        match drop (S n) rest with
        | colon :: port => if ascii_eqb colon ":" then Some (take n rest, port) else None
        | [] => None
        end
      else
        n ← sv_find ":" authority;
        Some (take n authority, drop (S n) authority)
  end.

Lemma parse_authority_literal h p :
  ("]"%char) ∉ h -> parse_authority ("["%char :: (h ++ "]"%char :: ":"%char :: p)) = Some (h, p).
Proof.
  intros H. cbn [parse_authority]. rewrite sv_find_app by done. cbn [mbind option_bind].
  rewrite drop_separator, take_app_length. done.
Qed.

Lemma parse_authority_name h p :
  head h <> Some ("["%char) -> (":"%char) ∉ h -> parse_authority (h ++ ":"%char :: p) = Some (h, p).
Proof.
  intros Hh H. pose proof (sv_find_app ":" h p H) as F. unfold parse_authority.
  destruct (h ++ ":"%char :: p) as [|c rest] eqn:E; [by destruct h|].
  replace (ascii_eqb c "[") with false.
  - rewrite F. cbn [mbind option_bind]. by rewrite <- E, drop_separator, take_app_length.
  - symmetry. apply ascii_eqb_false. intros ->. destruct h; [discriminate E|]. by injection E as -> _; destruct Hh.
Qed.

Lemma authority_parsed h p : authority_host h -> parse_authority (make_upstream_authority h p) = Some (h, dec p).
Proof.
  intros [B1 B2]. destruct (decide ((":"%char) ∈ h)) as [C|C].
  - rewrite authority_ipv6 by done. by apply parse_authority_literal.
  - rewrite authority_plain by done. apply parse_authority_name; [|done].
    intros Hh. destruct h as [|c h]; [done|]. injection Hh as ->. by destruct B1; left.
Qed.

(** C30: the Host sent upstream names the backend.  A recipient that reads it as RFC 3986 says
    finds the host and the decimal port of the backend, IPv6 literals included, so that two
    backends with the same authority have the same host and port. *)
Theorem authority_unambiguous h p :
  authority_host h -> in_u16 p ->
  parse_authority (make_upstream_authority h p) = Some (h, dec p) /\
  forall h' p', authority_host h' -> in_u16 p' ->
    make_upstream_authority h' p' = make_upstream_authority h p -> h' = h /\ p' = p.
Proof.
  intros H P. split; [by apply authority_parsed|]. intros h' p' H' P' E.
  pose proof (authority_parsed h' p' H') as E'. rewrite E, (authority_parsed h p H) in E'. injection E' as -> E'.
  split; [done|]. symmetry. unfold in_u16 in *. apply dec_inj; (lia || done).
Qed.

(** ** Target *)

(** Prefix stripping.  For a request the router sent to a route that strips its
    prefix, the target forwarded is the original one with exactly that prefix removed
    (query included), made absolute again when the prefix ended the path; otherwise the
    target is forwarded byte for byte.  Either way it starts with a slash. *)
Theorem target_rewritten {B : BeastHttp} config request s b :
  select_http_route config request = Some s ->
  let su := mkSelectedUpstream b (sr_prefix s) (sr_strip_prefix s) (sr_route_index s)
              (bool_decide (is_Some (sr_auth s))) (sr_stream_response s) in
  head (rewrite_target su (rq_target request)) = Some ("/"%char) /\
  if sr_strip_prefix s && negb (text_eqb (sr_prefix s) (L "/")) then
    exists rest, rq_target request = sr_prefix s ++ rest /\
      (rewrite_target su (rq_target request) = rest \/
       rewrite_target su (rq_target request) = "/"%char :: rest /\
       (rest = [] \/ exists query, rest = "?"%char :: query))
  else rewrite_target su (rq_target request) = rq_target request.
Proof.
  intros E su. pose proof (select_Some_proxyable _ _ _ E) as P.
  rewrite (select_proxyable _ _ P) in E.
  assert (Hslash : head (rq_target request) = Some ("/"%char)).
  { destruct P as (_ & _ & _ & _ & T & _). unfold is_supported_proxy_target in T.
    apply andb_true_iff in T as [T _]. apply andb_true_iff in T as [_ T]. by apply bool_decide_eq_true in T. }
  unfold rewrite_target, su. cbn [su_strip_prefix su_prefix].
  destruct (upstream config) as [u|].
  { injection E as <-. cbn. done. }
  destruct (select_loop_spec (routes config) (request_path (rq_target request)) 0 None 0)
    as [[En _]|(i & route & Es & H1 & (rest & Hrest & Hb) & H3 & _)]; [congruence|].
  rewrite Es in E. injection E as <-. cbn [sr_strip_prefix sr_prefix selected_as].
  assert (Hn : rt_prefix route <> []) by (intros En; rewrite En in H3; cbn in H3; lia).
  rewrite (bool_decide_eq_false_2 _ Hn). cbn [negb]. rewrite andb_true_r.
  destruct (strip_prefix route && negb (text_eqb (rt_prefix route) (L "/"))) eqn:St; [|done].
  apply andb_true_iff in St as [_ St]. apply negb_true_iff, text_eqb_false in St.
  set (target := rq_target request) in *.
  assert (Ht : exists tail, target = rt_prefix route ++ rest ++ tail /\ (tail = [] \/ exists q, tail = "?"%char :: q)).
  { unfold request_path in Hrest. destruct (sv_find "?" target) as [n|] eqn:F; cbn [sv_prefix] in Hrest.
    - apply sv_find_split in F as [F _]. exists ("?"%char :: drop (S n) target). split; [|right; eauto].
      rewrite app_assoc, <- Hrest. exact F.
    - exists []. split; [by rewrite app_nil_r|by left]. }
  destruct Ht as (tail & Ht & Htail). clearbody target.
  assert (Hd : drop (length (rt_prefix route)) target = rest ++ tail) by (rewrite Ht; apply drop_app_length).
  rewrite Hd. destruct Hb as [Hb|[->|[seg ->]]]; [done| |].
  - cbn [app]. destruct Htail as [->|[q ->]]; cbn; (split; [done|]).
    + exists []. split; [by rewrite Ht|]. right. split; [done|by left].
    + exists ("?"%char :: q). split; [by rewrite Ht|]. right. split; [done|right; by exists q].
  - cbn. split; [done|]. eexists. split; [exact Ht|]. by left.
Qed.

(** ** Witnesses *)

Definition client_request : @HttpRequest list_beast :=
  @mkRequest list_beast post (L "/api/items?x=1") 11
    [(L "Host", L "gate"); (L "Connection", L "close, X-Secret"); (L "x-secret", L "1");
     (L "Transfer-Encoding", L "chunked"); (L "Accept", L "*/*"); (L "Accept", L "text/html")]
    (L "hello").
Definition backend_choice : SelectedUpstream :=
  mkSelectedUpstream (mkUpstream (L "::1") 8080 3000 http) (L "/api") true (Some 0%nat) false false.

Lemma upstream_request_sanitised_witness :
  let up := make_upstream_request backend_choice client_request false in
  values_of (L "Host") (rq_fields up) = [L "[::1]:8080"] /\
  values_of (L "Transfer-Encoding") (rq_fields up) = [] /\
  values_of (L "Content-Length") (rq_fields up) = [L "5"].
Proof.
  intros up.
  destruct (upstream_request_sanitised (BL := list_beast_laws) backend_choice client_request false)
    as (_ & _ & _ & _ & Hhost & _ & Hte & Hcl).
  split; [exact Hhost|]. split; [exact Hte|].
  rewrite decide_False in Hcl; [exact Hcl|]. intros [H _]. discriminate H.
Defined.

Lemma downstream_response_sanitised_witness :
  let response := @mkResponse list_beast 200 (L "OK") 11 [(L "Server", L "nginx"); (L "ETag", L "1")] (L "hi") in
  let down := make_downstream_response client_request response in
  values_of (L "Server") (rs_fields down) = [L "ApiGate"] /\
  values_of (L "Content-Length") (rs_fields down) = [L "2"].
Proof.
  intros response down.
  destruct (downstream_response_sanitised (BL := list_beast_laws) client_request response (or_intror eq_refl))
    as (_ & _ & _ & _ & _ & Hs & _ & Hl).
  split; [exact Hs|]. apply Hl; [discriminate|reflexivity].
Defined.

Lemma authority_unambiguous_witness :
  make_upstream_authority (L "::1") 443 = L "[::1]:443" /\
  parse_authority (make_upstream_authority (L "::1") 443) = Some (L "::1", L "443").
Proof.
  split; [reflexivity|].
  destruct (authority_unambiguous (L "::1") 443) as [H _]; [|split; [discriminate|reflexivity]|exact H].
  by split; vm_compute; repeat (apply not_elem_of_cons; split; [done|]); apply not_elem_of_nil.
Defined.

Lemma target_rewritten_witness :
  let s := selected_as 0 api_route in
  select_http_route routed_config (get_of "/api?q=1") = Some s /\
  rewrite_target (mkSelectedUpstream (mkUpstream (L "a") 80 3000 http) (sr_prefix s) (sr_strip_prefix s)
    (sr_route_index s) (bool_decide (is_Some (sr_auth s))) (sr_stream_response s)) (L "/api?q=1") = L "/?q=1" /\
  head (rewrite_target (mkSelectedUpstream (mkUpstream (L "a") 80 3000 http) (sr_prefix s) (sr_strip_prefix s)
    (sr_route_index s) (bool_decide (is_Some (sr_auth s))) (sr_stream_response s)) (L "/api?q=1")) = Some ("/"%char).
Proof.
  intros s.
  assert (E : select_http_route routed_config (get_of "/api?q=1") = Some s) by (vm_compute; reflexivity).
  split; [exact E|]. split; [reflexivity|].
  exact (proj1 (target_rewritten routed_config (get_of "/api?q=1") s (mkUpstream (L "a") 80 3000 http) E)).
Defined.
