(* ===== verification/Metrics.v ===== *)
(** * Metrics (src/metrics.hpp, src/metrics.cpp)

    Fixed counters that saturate, the Prometheus exposition with its size limit, and the
    per-request observation that feeds each counter at most once.  A [double] is a
    [spec_float] of the binary64 format; [double_chars] is [std::to_chars] of a double,
    which needs at most 64 characters. *)

From Stdlib Require Import Floats.SpecFloat.
From S2P Require Import Prelude Text ConfigTypes Permits BufferBudget ServerState HealthState.

Local Open Scope Z_scope.

(** ** Failure stages and rejections *)

Inductive ProxyFailureStage :=
  resolve | connect | handshake | write | read | timeout | response_too_large | invalid_response.
#[export] Instance ProxyFailureStage_eq_dec : EqDecision ProxyFailureStage.
Proof. solve_decision. Defined.

Definition stage_to_string (stage : ProxyFailureStage) : text :=
  match stage with
  | resolve => L "resolve"
  | connect => L "connect"
  | handshake => L "handshake"
  | write => L "write"
  | read => L "read"
  | timeout => L "timeout"
  | response_too_large => L "response_too_large"
  | invalid_response => L "invalid_response"
  end.

Inductive RejectionReason :=
  reject_rate_limit | reject_proxy_capacity | reject_buffer_capacity | reject_no_healthy_upstream.

(** The enumerators' values. *)
Definition reason_index (r : RejectionReason) : nat :=
  match r with
  | reject_rate_limit => 0
  | reject_proxy_capacity => 1
  | reject_buffer_capacity => 2
  | reject_no_healthy_upstream => 3
  end.

Definition rejection_names : list text :=
  [L "rate_limit"; L "proxy_capacity"; L "buffer_capacity"; L "no_healthy_upstream"].
Definition failure_stages : list ProxyFailureStage :=
  [resolve; connect; handshake; write; read; timeout; response_too_large; invalid_response].

(** ** Doubles *)

Definition double_add : spec_float -> spec_float -> spec_float := SFadd 53 1024.
Definition double_sub : spec_float -> spec_float -> spec_float := SFsub 53 1024.
Definition double_div : spec_float -> spec_float -> spec_float := SFdiv 53 1024.
Definition double_of_Z (z : Z) : spec_float := binary_normalize 53 1024 z 0 false.
Definition double_zero : spec_float := S754_zero false.
Definition double_max : spec_float := S754_finite false 9007199254740991 971.
Definition isfinite (x : spec_float) : bool :=
  match x with S754_zero _ | S754_finite _ _ _ => true | _ => false end.

(** [duration<double>(t).count()] for a clock of nanoseconds. *)
Definition seconds_of (ticks : Z) : spec_float :=
  double_div (double_of_Z ticks) (double_of_Z 1000000000).

(** ** Metrics *)

Record Metrics := mkMetrics {
  responses_ : list Z;             (* 501 slots *)
  rejections_ : list Z;
  failures_ : list Z;
  processing_count_ : Z;
  processing_sum_ : spec_float }.

Definition make_Metrics : Metrics :=
  mkMetrics (replicate 501 0) (replicate 4 0) (replicate 8 0) 0 double_zero.

Definition saturating_increment (value : Z) : Z := if value =? u64_max then value else u64 (value + 1).

Definition increment_at (counters : list Z) (i : nat) : list Z := alter saturating_increment i counters.

Definition response (m : Metrics) (status : Z) : Metrics :=
  let i := Z.to_nat (if (100 <=? status) && (status <=? 599) then status - 100 else 500) in
  mkMetrics (increment_at (responses_ m) i) (rejections_ m) (failures_ m)
    (processing_count_ m) (processing_sum_ m).

Definition rejection (m : Metrics) (reason : RejectionReason) : Metrics :=
  let index := reason_index reason in
  if (index <? length (rejections_ m))%nat then
    mkMetrics (responses_ m) (increment_at (rejections_ m) index) (failures_ m)
      (processing_count_ m) (processing_sum_ m)
  else m.

(** The index of [stage], by the loop over [failure_stages]. *)
Fixpoint find_stage (stage : ProxyFailureStage) (stages : list ProxyFailureStage) (index : nat) : option nat :=
  match stages with
  | [] => None
  | s :: rest => if bool_decide (stage = s) then Some index else find_stage stage rest (S index)
  end.

Definition upstream_failure (m : Metrics) (stage : ProxyFailureStage) : Metrics :=
  match find_stage stage failure_stages 0 with
  | None => m
  | Some i =>
      mkMetrics (responses_ m) (rejections_ m) (increment_at (failures_ m) i)
        (processing_count_ m) (processing_sum_ m)
  end.

Definition processing (m : Metrics) (seconds : spec_float) : Metrics :=
  if negb (isfinite seconds) || SFltb seconds double_zero then m
  else
    mkMetrics (responses_ m) (rejections_ m) (failures_ m)
      (saturating_increment (processing_count_ m))
      (if SFltb (double_sub double_max (processing_sum_ m)) seconds then double_max
       else double_add (processing_sum_ m) seconds).

(** ** Exposition *)

Definition max_output_bytes : Z := 128 * 1024.

Definition append (output piece : text) : result text :=
  if max_output_bytes - Z.of_nat (length output) <? Z.of_nat (length piece) then
    Throw (length_error "metrics output exceeds limit")
  else Ok (output ++ piece).

(** Several [append]s in sequence. *)
Fixpoint appends (output : text) (pieces : list text) : result text :=
  match pieces with
  | [] => Ok output
  | piece :: rest => output ← append output piece; appends output rest
  end.

Definition quote : text := ["034"%char].
Definition newline : text := ["010"%char].

(** [number] of an unsigned integer never fails: twenty digits fit the buffer. *)
Definition number (value : Z) : text := dec value.

Definition family (name type help : text) : list text :=
  [L "# HELP apigate_"; name; L " "; help; newline ++ L "# TYPE apigate_"; name; L " "; type; newline].

Definition gauge (name help : text) (value : Z) : list text :=
  family name (L "gauge") help ++ [L "apigate_"; name; L " "; number value; newline].

(** The loops over the counters, from [index] on. *)
Fixpoint response_lines (index : nat) (counters : list Z) : list text :=
  match counters with
  | [] => []
  | value :: rest =>
      [L "apigate_http_responses_total{status=" ++ quote;
       if (index =? 500)%nat then L "other" else number (Z.of_nat index + 100);
       quote ++ L "} "; number value; newline] ++ response_lines (S index) rest
  end.

Fixpoint labelled_lines (prefix : text) (labels : list text) (counters : list Z) : list text :=
  match counters, labels with
  | value :: rest, label :: labels =>
      [prefix ++ quote; label; quote ++ L "} "; number value; newline] ++ labelled_lines prefix labels rest
  | _, _ => []
  end.

(** The availability of the slots of one route, [remaining] of them from [slot] on. *)
Fixpoint slot_lines (health : UpstreamHealthState) (route slot remaining : nat) (output : text) : result text :=
  match remaining with
  | O => Ok output
  | S remaining =>
      output ← appends output [L "apigate_upstream_available{route_index=" ++ quote; number (Z.of_nat route);
                               quote ++ L ",upstream_index=" ++ quote; number (Z.of_nat slot); quote ++ L "} "];
      up ← available health route slot;
      output ← appends output [number (if (up : bool) then 1 else 0); newline];
      slot_lines health route (S slot) remaining output
  end.

Fixpoint route_lines (health : UpstreamHealthState) (index : nat) (routes : list RouteConfig)
    (output : text) : result text :=
  match routes with
  | [] => Ok output
  | route :: rest =>
      let slots := length (upstreams route) in
      if (16 <? slots)%nat then Throw (length_error "metrics upstream limit exceeded")
      else
        output ← slot_lines health index 0 slots output;
        route_lines health (S index) rest output
  end.

(** What [render] appends before the sum of processing times. *)
Definition counter_pieces (m : Metrics) : list text :=
  family (L "http_responses_total") (L "counter")
    (L "Final responses generated, not delivery acknowledgements; excludes metrics requests.") ++
  response_lines 0 (responses_ m) ++
  family (L "rejections_total") (L "counter")
    (L "Local admission rejections; excludes metrics requests.") ++
  labelled_lines (L "apigate_rejections_total{reason=") rejection_names (rejections_ m) ++
  family (L "upstream_failures_total") (L "counter")
    (L "Business proxy failures; excludes health probes and normal cancellation.") ++
  labelled_lines (L "apigate_upstream_failures_total{stage=") (stage_to_string <$> failure_stages)
    (failures_ m) ++
  family (L "request_processing_seconds") (L "summary")
    (L "Complete request dispatch to response ready (streaming: header ready); excludes " ++
     L "upload, downstream write, " ++
     L "early parse rejections, cancellation without response and metrics requests. " ++
     L "Population differs from http_responses_total.") ++
  [L "apigate_request_processing_seconds_sum "].

(** What it appends between that sum and the availabilities. *)
Definition gauge_pieces (m : Metrics) (connections : AcceptCapacityState)
    (proxies : ProxyAdmissionState) (budget : BufferBudgetControl) : list text :=
  [newline ++ L "apigate_request_processing_seconds_count "; number (processing_count_ m); newline] ++
  gauge (L "active_connections") (L "Current downstream connections, including the scraper.")
    (active_connections_ connections) ++
  gauge (L "max_connections") (L "Downstream connection limit.") (max_connections_ connections) ++
  gauge (L "active_proxies") (L "Current business proxy permits.") (active_proxies_ proxies) ++
  gauge (L "max_concurrent_proxies") (L "Business proxy permit limit.") (max_proxies_ proxies) ++
  gauge (L "in_flight_body_bytes") (L "Current business body reservation bytes.")
    (current_bytes budget) ++
  gauge (L "max_in_flight_body_bytes") (L "Business body reservation limit, not an RSS limit.")
    (max_bytes budget) ++
  family (L "upstream_available") (L "gauge")
    (L "Slot eligible for selection; not proof of health or reachability.").

Section Render.
(** [std::to_chars] of a double into the 64-character buffer. *)
Variable double_chars : spec_float -> option text.

Definition number_double (output : text) (value : spec_float) : result text :=
  match double_chars value with
  | Some t => append output t
  | None => Throw (runtime_error "metrics number conversion failed")
  end.

Definition render (m : Metrics) (config : AppConfig) (connections : AcceptCapacityState)
    (proxies : ProxyAdmissionState) (budget : BufferBudgetControl) (health : UpstreamHealthState)
    : result text :=
  if (32 <? length (routes config))%nat then Throw (length_error "metrics route limit exceeded")
  else
    output ← appends [] (counter_pieces m);
    output ← number_double output (processing_sum_ m);
    output ← appends output (gauge_pieces m connections proxies budget);
    route_lines health 0 (routes config) output.

End Render.

(** ** RequestObservation *)

Record RequestObservation := mkObservation {
  started_ : option Z;
  excluded_ : bool;
  obs_completed_ : bool;
  rejected_ : bool;
  failed_ : bool }.

Definition fresh_observation : RequestObservation := mkObservation None false false false false.

Definition exclude (o : RequestObservation) (excluded : bool) : RequestObservation :=
  mkObservation (started_ o) excluded (obs_completed_ o) (rejected_ o) (failed_ o).

Definition begin_ (o : RequestObservation) (now : Z) : RequestObservation :=
  if bool_decide (started_ o = None) && negb (obs_completed_ o) then
    mkObservation (Some now) (excluded_ o) (obs_completed_ o) (rejected_ o) (failed_ o)
  else o.

(** [metrics] may be null. *)
Definition finish (o : RequestObservation) (metrics : option Metrics) (status : Z) (now : Z)
    : bool * RequestObservation * option Metrics :=
  if obs_completed_ o then (false, o, metrics)
  else
    let o := mkObservation (started_ o) (excluded_ o) true (rejected_ o) (failed_ o) in
    (true, o,
     match metrics with
     | Some m =>
         if negb (excluded_ o) then
           let m := response m status in
           match started_ o with
           | Some start => Some (processing m (double_sub (seconds_of now) (seconds_of start)))
           | None => Some m
           end
         else Some m
     | None => None
     end).

Definition reject (o : RequestObservation) (metrics : option Metrics) (reason : RejectionReason)
    : RequestObservation * option Metrics :=
  match metrics with
  | Some m =>
      if negb (excluded_ o) && negb (obs_completed_ o) && negb (rejected_ o) then
        (mkObservation (started_ o) (excluded_ o) (obs_completed_ o) true (failed_ o),
         Some (rejection m reason))
      else (o, metrics)
  | None => (o, metrics)
  end.

Definition fail_stream (o : RequestObservation) (metrics : option Metrics) (stage : ProxyFailureStage)
    : RequestObservation * option Metrics :=
  match metrics with
  | Some m =>
      if negb (excluded_ o) && negb (failed_ o) then
        (mkObservation (started_ o) (excluded_ o) (obs_completed_ o) (rejected_ o) true,
         Some (upstream_failure m stage))
      else (o, metrics)
  | None => (o, metrics)
  end.

Definition fail (o : RequestObservation) (metrics : option Metrics) (stage : ProxyFailureStage)
    : RequestObservation * option Metrics :=
  if negb (obs_completed_ o) then fail_stream o metrics stage else (o, metrics).

(** ** Counters *)

Inductive MetricEvent :=
  | ev_response (status : Z)
  | ev_rejection (reason : RejectionReason)
  | ev_failure (stage : ProxyFailureStage)
  | ev_processing (seconds : spec_float).

Definition metric_event (m : Metrics) (ev : MetricEvent) : Metrics :=
  match ev with
  | ev_response status => response m status
  | ev_rejection reason => rejection m reason
  | ev_failure stage => upstream_failure m stage
  | ev_processing seconds => processing m seconds
  end.

Definition run_metrics (evs : list MetricEvent) : Metrics := foldl metric_event make_Metrics evs.

(** A saturated count. *)
Definition saturated (n : nat) : Z := Z.min u64_max (Z.of_nat n).

Definition status_slot (status : Z) : nat :=
  Z.to_nat (if (100 <=? status) && (status <=? 599) then status - 100 else 500).

(** The slots of the stages, in the order of the exposition. *)
Definition stage_index (stage : ProxyFailureStage) : nat :=
  match stage with
  | resolve => 0 | connect => 1 | handshake => 2 | write => 3
  | read => 4 | timeout => 5 | response_too_large => 6 | invalid_response => 7
  end.

Definition counts_response (i : nat) (ev : MetricEvent) : bool :=
  match ev with ev_response status => (status_slot status =? i)%nat | _ => false end.
Definition counts_rejection (i : nat) (ev : MetricEvent) : bool :=
  match ev with ev_rejection reason => (reason_index reason =? i)%nat | _ => false end.
Definition counts_failure (i : nat) (ev : MetricEvent) : bool :=
  match ev with ev_failure stage => (stage_index stage =? i)%nat | _ => false end.
Definition counts_processing (ev : MetricEvent) : bool :=
  match ev with
  | ev_processing seconds => isfinite seconds && negb (SFltb seconds double_zero)
  | _ => false
  end.

Lemma saturating_saturated n : saturating_increment (saturated n) = saturated (S n).
Proof.
  unfold saturating_increment, saturated, u64_max. destruct (_ =? _) eqn:E; reflect_bools; [lia|].
  rewrite u64_small by (unfold in_u64; lia). lia.
Qed.

(** [counters] holds, in each slot, the saturated number of the events it counts. *)
Definition counted (counts : nat -> MetricEvent -> bool) (counters : list Z) (n : nat)
    (evs : list MetricEvent) : Prop :=
  length counters = n /\ forall i, (i < n)%nat -> counters !! i = Some (saturated (countb (counts i) evs)).

Lemma countb_snoc {A} (p : A -> bool) l x : countb p (l ++ [x]) = (countb p l + if p x then 1 else 0)%nat.
Proof. rewrite countb_app, countb_cons. cbn. lia. Qed.

Lemma counted_same counts counters n evs ev :
  counted counts counters n evs -> (forall i, (i < n)%nat -> counts i ev = false) ->
  counted counts counters n (evs ++ [ev]).
Proof.
  intros [Hl H] Hno. split; [done|]. intros i Hi. rewrite countb_snoc, (Hno i Hi), Nat.add_0_r. auto.
Qed.

Lemma counted_increment counts counters n evs ev k :
  counted counts counters n evs -> (forall i, counts i ev = (k =? i)%nat) ->
  counted counts (increment_at counters k) n (evs ++ [ev]).
Proof.
  intros [Hl H] Hk. unfold increment_at. split; [by rewrite length_alter|].
  intros i Hi. rewrite countb_snoc, Hk. destruct (Nat.eqb_spec k i) as [->|Hne].
  - rewrite list_lookup_alter_eq, (H i Hi). cbn. by rewrite saturating_saturated, Nat.add_1_r.
  - rewrite list_lookup_alter_ne by done. by rewrite (H i Hi), Nat.add_0_r.
Qed.

Lemma find_stage_index stage : find_stage stage failure_stages 0 = Some (stage_index stage).
Proof. by destruct stage. Qed.

Lemma run_metrics_snoc evs ev : run_metrics (evs ++ [ev]) = metric_event (run_metrics evs) ev.
Proof. unfold run_metrics. by rewrite foldl_app. Qed.

Lemma counted_fresh counts n : counted counts (replicate n 0) n [].
Proof. split; [apply length_replicate|]. intros i Hi. by apply lookup_replicate_2. Qed.

Lemma run_metrics_counted evs :
  counted counts_response (responses_ (run_metrics evs)) 501 evs /\
  counted counts_rejection (rejections_ (run_metrics evs)) 4 evs /\
  counted counts_failure (failures_ (run_metrics evs)) 8 evs /\
  processing_count_ (run_metrics evs) = saturated (countb counts_processing evs).
Proof.
  induction evs as [|ev evs (I1 & I2 & I3 & I4)] using rev_ind.
  { split_and!; [apply counted_fresh..|done]. }
  rewrite run_metrics_snoc. set (m := run_metrics evs) in *. clearbody m.
  destruct ev as [status|reason|stage|seconds]; cbn [metric_event].
  - split_and!; cbn [response responses_ rejections_ failures_ processing_count_].
    + by apply counted_increment.
    + by apply counted_same.
    + by apply counted_same.
    + rewrite countb_snoc. cbn. by rewrite Nat.add_0_r.
  - unfold rejection. rewrite (proj1 I2).
    replace (reason_index reason <? 4)%nat with true by (by destruct reason).
    split_and!; cbn [responses_ rejections_ failures_ processing_count_].
    + by apply counted_same.
    + by apply counted_increment.
    + by apply counted_same.
    + rewrite countb_snoc. cbn. by rewrite Nat.add_0_r.
  - unfold upstream_failure. rewrite find_stage_index.
    split_and!; cbn [responses_ rejections_ failures_ processing_count_].
    + by apply counted_same.
    + by apply counted_same.
    + by apply counted_increment.
    + rewrite countb_snoc. cbn. by rewrite Nat.add_0_r.
  - rewrite countb_snoc. unfold processing, counts_processing at 2.
    assert (K1 : counted counts_response (responses_ m) 501 (evs ++ [ev_processing seconds])) by (by apply counted_same).
    assert (K2 : counted counts_rejection (rejections_ m) 4 (evs ++ [ev_processing seconds])) by (by apply counted_same).
    assert (K3 : counted counts_failure (failures_ m) 8 (evs ++ [ev_processing seconds])) by (by apply counted_same).
    destruct (isfinite seconds), (SFltb seconds double_zero);
      cbn [negb orb andb responses_ rejections_ failures_ processing_count_]; rewrite ?Nat.add_0_r; try done.
    rewrite Nat.add_1_r, I4, saturating_saturated. done.
Qed.

Lemma status_slot_lt status : (status_slot status < 501)%nat.
Proof.
  unfold status_slot. destruct (_ && _) eqn:E; [reflect_bools; lia|]. clear. by apply Nat.ltb_lt.
Qed.

Lemma stage_index_lt stage : (stage_index stage < 8)%nat.
Proof. apply Nat.ltb_lt. by destruct stage. Qed.

(** C31: the counters count.  After any sequence of responses, rejections, failures and
    processing times, each response slot holds the number of responses with its status
    (the last slot those outside 100-599), each rejection and failure slot the number of
    events of its reason or stage, and the processing count the number of finite
    non-negative durations, all saturating at 2^64 - 1. *)
Theorem metrics_count_exactly evs :
  let m := run_metrics evs in
  (forall i, (i < 501)%nat -> responses_ m !! i = Some (saturated (countb (counts_response i) evs))) /\
  (forall i, (i < 4)%nat -> rejections_ m !! i = Some (saturated (countb (counts_rejection i) evs))) /\
  (forall i, (i < 8)%nat -> failures_ m !! i = Some (saturated (countb (counts_failure i) evs))) /\
  processing_count_ m = saturated (countb counts_processing evs) /\
  (forall status, exists v, responses_ m !! status_slot status = Some v) /\
  (forall stage, exists v, failures_ m !! stage_index stage = Some v).
Proof.
  intros m. destruct (run_metrics_counted evs) as ([L1 H1] & [L2 H2] & [L3 H3] & H4). subst m.
  split_and!; [done..| |].
  - intros status. rewrite H1; [by eexists|]. apply status_slot_lt.
  - intros stage. rewrite H3; [by eexists|]. apply stage_index_lt.
Qed.

(** ** Size of the exposition *)

Definition size (s : text) : Z := Z.of_nat (length s).
Definition total (pieces : list text) : Z := size (concat pieces).

(** Evaluate the sizes of literal pieces. *)
Ltac literal_sizes :=
  change (size quote) with 1; change (size newline) with 1;
  repeat match goal with
  | |- context [size (L ?s)] =>
      let v := eval vm_compute in (size (L s)) in change (size (L s)) with v
  end.

Lemma size_app a b : size (a ++ b) = size a + size b.
Proof. unfold size. rewrite length_app. lia. Qed.
Lemma size_nonneg a : 0 <= size a.
Proof. unfold size. lia. Qed.
Lemma total_app a b : total (a ++ b) = total a + total b.
Proof. unfold total. by rewrite concat_app, size_app. Qed.
Lemma total_cons a b : total (a :: b) = size a + total b.
Proof. unfold total. cbn. by rewrite size_app. Qed.
Lemma total_nil : total [] = 0.
Proof. done. Qed.
Lemma total_nonneg a : 0 <= total a.
Proof. apply size_nonneg. Qed.

Lemma append_fits output piece :
  size output + size piece <= max_output_bytes -> append output piece = Ok (output ++ piece).
Proof.
  intros H. unfold append. fold (size output) (size piece).
  by replace (max_output_bytes - size output <? size piece) with false by (symmetry; apply Z.ltb_ge; lia).
Qed.

Lemma appends_fit output pieces :
  size output + total pieces <= max_output_bytes -> appends output pieces = Ok (output ++ concat pieces).
Proof.
  revert output. induction pieces as [|p pieces IH]; intros output H; cbn [appends].
  { cbn. by rewrite app_nil_r. }
  rewrite total_cons in H. pose proof (total_nonneg pieces).
  rewrite append_fits by lia. cbn [mbind result_bind]. rewrite IH by (rewrite size_app; lia).
  cbn. by rewrite app_assoc.
Qed.

Lemma number_size v : in_u64 v -> size (number v) <= 20.
Proof. intros H. destruct (dec_spec v (dec_enough v H)) as (_ & Hl & _). unfold size, number. lia. Qed.

(** The lines of the exposition that carry one value. *)
Definition status_label (index : nat) : text :=
  if (index =? 500)%nat then L "other" else number (Z.of_nat index + 100).
Definition response_line (index : nat) (value : Z) : text :=
  (L "apigate_http_responses_total{status=" ++ quote) ++ status_label index ++ (quote ++ L "} ") ++
  number value ++ newline.
Definition slot_line (health : UpstreamHealthState) (route slot : nat) : text :=
  (L "apigate_upstream_available{route_index=" ++ quote) ++ number (Z.of_nat route) ++
  (quote ++ L ",upstream_index=" ++ quote) ++ number (Z.of_nat slot) ++ (quote ++ L "} ") ++
  number (match available health route slot with Ok true => 1 | _ => 0 end) ++ newline.

Lemma status_label_size index : (index < 501)%nat -> size (status_label index) <= 20.
Proof.
  intros H. unfold status_label. destruct (_ =? _)%nat; [by vm_compute|].
  apply number_size. unfold in_u64. lia.
Qed.

Lemma response_line_size index value :
  (index < 501)%nat -> in_u64 value -> size (response_line index value) <= 90.
Proof.
  intros Hi Hv. unfold response_line. rewrite !size_app.
  pose proof (status_label_size index Hi). pose proof (number_size value Hv).
  literal_sizes. lia.
Qed.

Lemma response_lines_concat index counters :
  concat (response_lines index counters) =
  concat (imap (fun i v => response_line (index + i) v) counters).
Proof.
  revert index. induction counters as [|v counters IH]; intros index; [done|].
  assert (E : imap (fun i v => response_line (S index + i) v) counters =
              imap ((fun i v => response_line (index + i) v) ∘ S) counters)
    by (apply imap_ext; intros i x _; cbn; by rewrite Nat.add_succ_r).
  cbn [response_lines imap concat app]. rewrite IH, E, Nat.add_0_r.
  unfold response_line at 2. unfold status_label. by rewrite <- !app_assoc.
Qed.

Lemma total_imap_bound {A} (f : nat -> A -> text) (l : list A) bound :
  (forall i x, l !! i = Some x -> size (f i x) <= bound) -> total (imap f l) <= bound * Z.of_nat (length l).
Proof.
  revert f. induction l as [|x l IH]; intros f H; [change (total (imap f [])) with 0; cbn [length]; lia|].
  cbn [imap length]. rewrite total_cons. specialize (IH (f ∘ S) (fun i y Hi => H (S i) y Hi)).
  pose proof (H 0%nat x eq_refl). lia.
Qed.

Lemma response_lines_total counters :
  length counters = 501%nat -> Forall in_u64 counters -> total (response_lines 0 counters) <= 45090.
Proof.
  intros Hl Hu. unfold total. rewrite response_lines_concat. fold (total (imap (fun i v => response_line (0 + i) v) counters)).
  rewrite (total_imap_bound _ counters 90), Hl; [done|].
  intros i v Hi. apply response_line_size; [|by rewrite Forall_lookup in Hu; eapply Hu].
  apply lookup_lt_Some in Hi. cbn. lia.
Qed.

Lemma labelled_lines_total prefix labels counters :
  Forall in_u64 counters -> Forall (fun l => size l <= 30) labels ->
  total (labelled_lines prefix labels counters) <= (size prefix + 55) * Z.of_nat (length counters).
Proof.
  intros Hu. revert labels. induction Hu as [|v counters Hv _ IH]; intros labels Hl.
  { replace (labelled_lines prefix labels []) with (@nil text) by (by destruct labels).
    rewrite total_nil. cbn [length]. lia. }
  destruct Hl as [|l labels Hl Hls]; cbn [labelled_lines].
  { rewrite total_nil. pose proof (size_nonneg prefix). nia. }
  specialize (IH labels Hls). rewrite total_app, !total_cons, !size_app, total_nil. pose proof (number_size v Hv).
  literal_sizes. cbn [length]. rewrite Nat2Z.inj_succ, Z.mul_succ_r. lia.
Qed.

Lemma slot_line_size health route slot :
  (route < 32)%nat -> (slot < 16)%nat -> size (slot_line health route slot) <= 130.
Proof.
  intros Hr Hs. unfold slot_line. rewrite !size_app.
  assert (H1 : size (number (Z.of_nat route)) <= 20) by (apply number_size; unfold in_u64; lia).
  assert (H2 : size (number (Z.of_nat slot)) <= 20) by (apply number_size; unfold in_u64; lia).
  assert (H3 : size (number (match available health route slot with Ok true => 1 | _ => 0 end)) <= 20)
    by (apply number_size; unfold in_u64; destruct (available _ _ _) as [[]|]; lia).
  literal_sizes. lia.
Qed.

(** The slots of a route are written in order, one line each. *)
Definition slots_text (health : UpstreamHealthState) (route slot n : nat) : text :=
  concat ((fun i => slot_line health route i) <$> seq slot n).

Lemma slots_text_size health route slot n :
  (route < 32)%nat -> (slot + n <= 16)%nat -> size (slots_text health route slot n) <= 130 * Z.of_nat n.
Proof.
  intros Hr. revert slot. induction n as [|n IH]; intros slot Hs; [done|].
  unfold slots_text. cbn [seq fmap list_fmap concat]. rewrite size_app.
  fold (slots_text health route (S slot) n). specialize (IH (S slot) ltac:(lia)).
  pose proof (slot_line_size health route slot Hr ltac:(lia)). lia.
Qed.

Lemma slot_lines_spec health route slot n output :
  (route < 32)%nat -> (slot + n <= 16)%nat ->
  (forall u, (u < slot + n)%nat -> exists b, available health route u = Ok b) ->
  size output + 130 * Z.of_nat n <= max_output_bytes ->
  slot_lines health route slot n output = Ok (output ++ slots_text health route slot n).
Proof.
  intros Hr. revert slot output. induction n as [|n IH]; intros slot output Hs Hav Hsz; cbn [slot_lines].
  { unfold slots_text. cbn. by rewrite app_nil_r. }
  destruct (Hav slot ltac:(lia)) as [b Hb].
  pose proof (slot_line_size health route slot Hr ltac:(lia)) as Hline.
  unfold slot_line in Hline. rewrite Hb in Hline |- *.
  replace (match @Ok bool b with Ok true => 1 | _ => 0 end) with (if b then 1 else 0) in Hline by (by destruct b).
  rewrite !size_app in Hline. pose proof (size_nonneg (number (if b then 1 else 0))).
  rewrite appends_fit by (rewrite !total_cons, total_nil, !size_app; change (size newline) with 1 in *; lia).
  cbn [mbind result_bind].
  rewrite appends_fit by (rewrite !size_app, !total_cons, total_nil; unfold total; cbn [concat]; rewrite !size_app;
    change (size []) with 0; change (size newline) with 1 in *; lia).
  cbn [mbind result_bind]. rewrite IH.
  - f_equal. unfold slots_text. cbn [seq fmap list_fmap concat]. unfold slot_line at 2. rewrite Hb.
    replace (match @Ok bool b with Ok true => 1 | _ => 0 end) with (if b then 1 else 0) by (by destruct b).
    cbn [concat]. by rewrite ?app_nil_r, <- !app_assoc.
  - lia.
  - intros u Hu. apply Hav. lia.
  - cbn [concat]. rewrite !size_app. change (size []) with 0. lia.
Qed.

Definition infix_of (x y : text) : Prop := exists a b, y = a ++ x ++ b.

Lemma infix_app_l x y z : infix_of x y -> infix_of x (z ++ y).
Proof. intros (a & b & ->). exists (z ++ a), b. by rewrite <- !app_assoc. Qed.
Lemma infix_app_r x y z : infix_of x y -> infix_of x (y ++ z).
Proof. intros (a & b & ->). exists a, (b ++ z). by rewrite <- !app_assoc. Qed.
Lemma infix_concat x l : x ∈ l -> infix_of x (concat l).
Proof.
  induction 1 as [x l|x y l _ IH]; cbn.
  - by exists [], (concat l).
  - by apply infix_app_l.
Qed.

Definition routes_text (health : UpstreamHealthState) (index : nat) (routes : list RouteConfig) : text :=
  concat (imap (fun i route => slots_text health (index + i) 0 (length (upstreams route))) routes).

Lemma route_lines_spec health routes index output :
  (index + length routes <= 32)%nat ->
  (forall i route, routes !! i = Some route -> (length (upstreams route) <= 16)%nat /\
     forall u, (u < length (upstreams route))%nat -> exists b, available health (index + i) u = Ok b) ->
  size output + 2080 * Z.of_nat (length routes) <= max_output_bytes ->
  route_lines health index routes output = Ok (output ++ routes_text health index routes) /\
  size (routes_text health index routes) <= 2080 * Z.of_nat (length routes).
Proof.
  revert index output. induction routes as [|route routes IH]; intros index output Hi Hr Hsz; cbn [route_lines].
  { unfold routes_text. cbn. by rewrite app_nil_r. }
  destruct (Hr 0%nat route eq_refl) as [Hn Hav]. rewrite Nat.add_0_r in Hav. cbn [length] in *.
  replace ((16 <? length (upstreams route))%nat) with false by (symmetry; apply Nat.ltb_ge; lia).
  pose proof (slots_text_size health index 0 (length (upstreams route)) ltac:(lia) ltac:(lia)) as Hsl.
  rewrite slot_lines_spec; [|lia|lia|exact Hav|lia]. cbn [mbind result_bind].
  assert (E : routes_text health index (route :: routes) =
              slots_text health index 0 (length (upstreams route)) ++ routes_text health (S index) routes).
  { unfold routes_text. cbn [imap concat]. rewrite Nat.add_0_r. apply (f_equal (app _)), (f_equal (@concat _)).
    apply imap_ext. intros i x _. cbn [compose]. by rewrite Nat.add_succ_r. }
  destruct (IH (S index) (output ++ slots_text health index 0 (length (upstreams route)))) as [IH1 IH2].
  - lia.
  - intros i r Hir. destruct (Hr (S i) r Hir) as [H1 H2]. split; [done|].
    intros u Hu. rewrite Nat.add_succ_comm. by apply H2.
  - rewrite size_app. lia.
  - rewrite IH1, E, app_assoc, size_app. split; [done|lia].
Qed.

Lemma family_total name type help :
  total (family name type help) = 2 * size name + size type + size help + 34.
Proof. unfold family. rewrite !total_cons, total_nil, !size_app. literal_sizes. lia. Qed.

Lemma gauge_total name help v :
  in_u64 v -> total (gauge name help v) <= 3 * size name + size help + 80.
Proof.
  intros Hv. unfold gauge. rewrite total_app, family_total, !total_cons, total_nil. literal_sizes.
  pose proof (number_size v Hv). lia.
Qed.

Lemma saturated_u64 n : in_u64 (saturated n).
Proof. unfold saturated, in_u64, u64_max. lia. Qed.

Lemma counted_u64 counts counters n evs : counted counts counters n evs -> Forall in_u64 counters.
Proof.
  intros [Hl H]. apply Forall_lookup. intros i v Hi.
  rewrite H in Hi by (apply lookup_lt_Some in Hi; lia). injection Hi as <-. apply saturated_u64.
Qed.

Lemma counter_pieces_total evs : total (counter_pieces (run_metrics evs)) <= 50000.
Proof.
  set (m := run_metrics evs). destruct (run_metrics_counted evs) as (I1 & I2 & I3 & _).
  fold m in I1, I2, I3. unfold counter_pieces. rewrite !total_app, !family_total, total_cons, total_nil.
  pose proof (response_lines_total _ (proj1 I1) (counted_u64 _ _ _ _ I1)) as H1.
  pose proof (labelled_lines_total (L "apigate_rejections_total{reason=") rejection_names _
                (counted_u64 _ _ _ _ I2)) as H2.
  pose proof (labelled_lines_total (L "apigate_upstream_failures_total{stage=")
                (stage_to_string <$> failure_stages) _ (counted_u64 _ _ _ _ I3)) as H3.
  rewrite (proj1 I2) in H2. rewrite (proj1 I3) in H3.
  specialize (H2 ltac:(repeat constructor; vm_compute; discriminate)).
  specialize (H3 ltac:(repeat constructor; vm_compute; discriminate)).
  revert H2 H3. rewrite !size_app. literal_sizes. lia.
Qed.

(** The numbers the server lends to [render] are 64-bit. *)
Definition lent_ok (connections : AcceptCapacityState) (proxies : ProxyAdmissionState)
    (budget : BufferBudgetControl) : Prop :=
  in_u64 (active_connections_ connections) /\ in_u64 (max_connections_ connections) /\
  in_u64 (active_proxies_ proxies) /\ in_u64 (max_proxies_ proxies) /\
  in_u64 (current_bytes budget) /\ in_u64 (max_bytes budget).

Lemma gauge_pieces_total evs connections proxies budget :
  lent_ok connections proxies budget ->
  total (gauge_pieces (run_metrics evs) connections proxies budget) <= 2000.
Proof.
  intros (L1 & L2 & L3 & L4 & L5 & L6). destruct (run_metrics_counted evs) as (_ & _ & _ & I4).
  pose proof (number_size (processing_count_ (run_metrics evs)) ltac:(rewrite I4; apply saturated_u64)) as Hn.
  unfold gauge_pieces. rewrite !total_app, family_total, !total_cons, total_nil, !size_app.
  pose proof (gauge_total (L "active_connections") (L "Current downstream connections, including the scraper.") _ L1) as G1.
  pose proof (gauge_total (L "max_connections") (L "Downstream connection limit.") _ L2) as G2.
  pose proof (gauge_total (L "active_proxies") (L "Current business proxy permits.") _ L3) as G3.
  pose proof (gauge_total (L "max_concurrent_proxies") (L "Business proxy permit limit.") _ L4) as G4.
  pose proof (gauge_total (L "in_flight_body_bytes") (L "Current business body reservation bytes.") _ L5) as G5.
  pose proof (gauge_total (L "max_in_flight_body_bytes") (L "Business body reservation limit, not an RSS limit.") _ L6) as G6.
  revert G1 G2 G3 G4 G5 G6. literal_sizes. lia.
Qed.

Lemma response_line_written (m : Metrics) i v :
  responses_ m !! i = Some v -> infix_of (response_line i v) (concat (counter_pieces m)).
Proof.
  intros Hi. unfold counter_pieces. rewrite concat_app. apply infix_app_l.
  rewrite concat_app. apply infix_app_r. rewrite response_lines_concat. apply infix_concat.
  apply list_elem_of_lookup. exists i. rewrite list_lookup_imap, Hi. done.
Qed.

Lemma slot_line_written health (routes : list RouteConfig) i route u :
  routes !! i = Some route -> (u < length (upstreams route))%nat ->
  infix_of (slot_line health i u) (routes_text health 0 routes).
Proof.
  intros Hi Hu.
  assert (H : infix_of (slots_text health i 0 (length (upstreams route))) (routes_text health 0 routes)).
  { apply infix_concat, list_elem_of_lookup. exists i. rewrite list_lookup_imap, Hi. done. }
  destruct H as (a & b & ->). apply infix_app_l, infix_app_r. apply infix_concat.
  apply list_elem_of_fmap. exists u. split; [done|]. apply list_elem_of_In, in_seq. lia.
Qed.

Section RenderTheorem.
Variable double_chars : spec_float -> option text.

(** Scraping never fails on a valid configuration.  With at most 32 routes of at
    most 16 backends, whatever the counters have reached, [render] returns a text within
    its 128 KiB limit, which has a line for each of the 501 response slots and for each
    configured backend with its availability; beyond those limits it throws. *)
Theorem render_complete evs config connections proxies budget health t :
  double_chars (processing_sum_ (run_metrics evs)) = Some t -> (length t <= 64)%nat ->
  lent_ok connections proxies budget ->
  (forall i route, routes config !! i = Some route ->
     forall u, (u < length (upstreams route))%nat -> exists b, available health i u = Ok b) ->
  (length (routes config) <= 32)%nat ->
  (forall i route, routes config !! i = Some route -> (length (upstreams route) <= 16)%nat) ->
  exists out, render double_chars (run_metrics evs) config connections proxies budget health = Ok out /\
    size out <= max_output_bytes /\
    (forall i v, responses_ (run_metrics evs) !! i = Some v -> infix_of (response_line i v) out) /\
    (forall i route u, routes config !! i = Some route -> (u < length (upstreams route))%nat ->
       infix_of (slot_line health i u) out).
Proof.
  intros Ht Hl Hlent Hh H32 H16. unfold render.
  replace ((32 <? length (routes config))%nat) with false by (symmetry; apply Nat.ltb_ge; lia).
  pose proof (counter_pieces_total evs) as Hc.
  pose proof (gauge_pieces_total evs connections proxies budget Hlent) as Hg.
  set (m := run_metrics evs) in *. unfold max_output_bytes in *.
  rewrite appends_fit by (change (size []) with 0; unfold max_output_bytes; lia). cbn [app mbind result_bind].
  unfold number_double. rewrite Ht. fold (total (counter_pieces m)) in *.
  rewrite append_fits by (unfold max_output_bytes, total, size in *; lia). cbn [mbind result_bind].
  rewrite appends_fit by (rewrite size_app; unfold max_output_bytes, total, size in *; lia).
  cbn [mbind result_bind].
  destruct (route_lines_spec health (routes config) 0
              ((concat (counter_pieces m) ++ t) ++ concat (gauge_pieces m connections proxies budget)))
    as [R1 R2].
  - lia.
  - intros i route Hr. split; [by eapply H16|by apply Hh].
  - rewrite !size_app. unfold max_output_bytes, total, size in *. lia.
  - eexists. split; [exact R1|]. split; [|split].
    + rewrite !size_app. unfold total, size in *. lia.
    + intros i v Hi. do 3 apply infix_app_r. by apply response_line_written.
    + intros i route u Hi Hu. apply infix_app_l. by eapply slot_line_written.
Qed.
End RenderTheorem.

(** ** One request *)

Inductive ObsOp :=
  | obs_exclude (excluded : bool)
  | obs_begin (now : Z)
  | obs_finish (status : Z) (now : Z)
  | obs_reject (reason : RejectionReason)
  | obs_fail (stage : ProxyFailureStage)
  | obs_fail_stream (stage : ProxyFailureStage).

(** One call; the events it fed to the metrics, in order, and what [finish] returned. *)
Definition obs_step (o : RequestObservation) (metrics : option Metrics) (op : ObsOp)
    : RequestObservation * option Metrics * bool :=
  match op with
  | obs_exclude excluded => (exclude o excluded, metrics, false)
  | obs_begin now => (begin_ o now, metrics, false)
  | obs_finish status now =>
      let '(first, o, metrics) := finish o metrics status now in (o, metrics, first)
  | obs_reject reason => let '(o, metrics) := reject o metrics reason in (o, metrics, false)
  | obs_fail stage => let '(o, metrics) := fail o metrics stage in (o, metrics, false)
  | obs_fail_stream stage => let '(o, metrics) := fail_stream o metrics stage in (o, metrics, false)
  end.

Fixpoint run_obs (o : RequestObservation) (metrics : option Metrics) (ops : list ObsOp)
    : RequestObservation * option Metrics * list bool :=
  match ops with
  | [] => (o, metrics, [])
  | op :: ops =>
      let '(o, metrics, first) := obs_step o metrics op in
      let '(o, metrics, firsts) := run_obs o metrics ops in (o, metrics, first :: firsts)
  end.

Definition is_finish (op : ObsOp) : bool := match op with obs_finish _ _ => true | _ => false end.

(** What a request may still add to the metrics. *)
Definition may_add (o : RequestObservation) (m m' : Metrics) : Prop :=
  (responses_ m' = responses_ m \/
   obs_completed_ o = false /\ exists status, responses_ m' = responses_ (response m status)) /\
  (rejections_ m' = rejections_ m \/
   obs_completed_ o = false /\ rejected_ o = false /\
   exists reason, rejections_ m' = rejections_ (rejection m reason)) /\
  (failures_ m' = failures_ m \/
   failed_ o = false /\ exists stage, failures_ m' = failures_ (upstream_failure m stage)).

(** The flags only ever rise, and each is set by the addition it allows once. *)
Lemma obs_step_flags o m op o' m' first :
  obs_step o (Some m) op = (o', m', first) ->
  exists m1, m' = Some m1 /\ may_add o m m1 /\
    first = (is_finish op && negb (obs_completed_ o)) /\
    obs_completed_ o' = obs_completed_ o || is_finish op /\
    (rejected_ o = true -> rejected_ o' = true) /\ (failed_ o = true -> failed_ o' = true) /\
    (responses_ m1 = responses_ m \/ obs_completed_ o' = true) /\
    (rejections_ m1 = rejections_ m \/ rejected_ o' = true) /\
    (failures_ m1 = failures_ m \/ failed_ o' = true).
Proof.
  destruct o as [st ex co re fa]. unfold may_add.
  destruct op as [b|now|status now|reason|stage|stage]; cbn [obs_step].
  - intros [= <- <- <-]. exists m. cbn. rewrite orb_false_r. split_and!; auto.
  - unfold begin_. intros [= <- <- <-]. exists m. case_ifs; cbn; rewrite orb_false_r; split_and!; auto.
  - unfold finish. cbn. destruct co; intros [= <- <- <-]; [exists m; cbn; split_and!; auto|].
    destruct ex; cbn; [exists m; split_and!; auto|].
    destruct st as [start|]; eexists; (split; [done|]); unfold processing; case_ifs; cbn;
      split_and!; eauto 6.
  - unfold reject. cbn.
    assert (Hr : responses_ (rejection m reason) = responses_ m /\ failures_ (rejection m reason) = failures_ m)
      by (unfold rejection; by case_ifs).
    destruct Hr. destruct ex, co, re; cbn; intros [= <- <- <-]; eexists; (split; [done|]); cbn;
      split_and!; eauto 6.
  - unfold fail, fail_stream. cbn.
    assert (Hr : responses_ (upstream_failure m stage) = responses_ m /\
                 rejections_ (upstream_failure m stage) = rejections_ m)
      by (unfold upstream_failure; by destruct (find_stage _ _ _)).
    destruct Hr. destruct ex, co, fa; cbn; intros [= <- <- <-]; eexists; (split; [done|]); cbn;
      split_and!; eauto 6.
  - unfold fail_stream. cbn.
    assert (Hr : responses_ (upstream_failure m stage) = responses_ m /\
                 rejections_ (upstream_failure m stage) = rejections_ m)
      by (unfold upstream_failure; by destruct (find_stage _ _ _)).
    destruct Hr. destruct ex, co, fa; cbn; intros [= <- <- <-]; eexists; (split; [done|]); cbn;
      split_and!; eauto 6.
Qed.

Lemma run_obs_adds o m ops o' m' firsts :
  run_obs o (Some m) ops = (o', m', firsts) ->
  exists m1, m' = Some m1 /\ may_add o m m1 /\
    countb id firsts = (if negb (obs_completed_ o) && existsb is_finish ops then 1 else 0)%nat.
Proof.
  revert o m firsts. induction ops as [|op ops IH]; intros o m firsts E; cbn [run_obs] in E.
  { injection E as <- <- <-. exists m. split_and!; [done|unfold may_add; tauto|].
    by rewrite andb_false_r. }
  destruct (obs_step o (Some m) op) as [[o1 m1'] first] eqn:S.
  destruct (obs_step_flags _ _ _ _ _ _ S) as (m1 & -> & (A1 & A2 & A3) & -> & C & Hr & Hf & B1 & B2 & B3).
  destruct (run_obs o1 (Some m1) ops) as [[o2 m2] fs] eqn:R. injection E as <- <- <-.
  destruct (IH _ _ _ R) as (m2' & -> & (D1 & D2 & D3) & Hc). exists m2'. split; [done|].
  rewrite countb_cons, Hc, C. cbn [existsb id]. split.
  - unfold may_add. split_and!.
    + destruct D1 as [->|(E1 & s & ->)]; [done|]. destruct B1 as [B1|B1]; [|congruence].
      right. rewrite C in E1. apply orb_false_iff in E1 as [E1 _]. split; [done|]. exists s. cbn. by rewrite B1.
    + destruct D2 as [->|(E1 & E2 & r & ->)]; [done|]. destruct B2 as [B2|B2]; [|congruence].
      right. rewrite C in E1. apply orb_false_iff in E1 as [E1 _]. split; [done|].
      split; [destruct (rejected_ o); [by rewrite Hr in E2|done]|]. exists r.
      unfold rejection. rewrite B2. case_ifs; cbn; by rewrite ?B2.
    + destruct D3 as [->|(E1 & s & ->)]; [done|]. destruct B3 as [B3|B3]; [|congruence].
      right. split; [destruct (failed_ o); [by rewrite Hf in E1|done]|]. exists s.
      unfold upstream_failure. destruct (find_stage _ _ _); cbn; by rewrite B3.
  - by destruct (obs_completed_ o), (is_finish op), (existsb is_finish ops).
Qed.

(** A request is observed once.  Whatever calls a session makes on one observation,
    in any order and number, the metrics count at most one response, at most one
    rejection and at most one upstream failure for it, and [finish] returns true exactly
    once if it is called at all, so that one completion is logged. *)
Theorem observation_once m ops o' m' firsts :
  run_obs fresh_observation (Some m) ops = (o', m', firsts) ->
  exists m1, m' = Some m1 /\
    (responses_ m1 = responses_ m \/ exists status, responses_ m1 = responses_ (response m status)) /\
    (rejections_ m1 = rejections_ m \/ exists reason, rejections_ m1 = rejections_ (rejection m reason)) /\
    (failures_ m1 = failures_ m \/ exists stage, failures_ m1 = failures_ (upstream_failure m stage)) /\
    countb id firsts = (if existsb is_finish ops then 1 else 0)%nat.
Proof.
  intros E. destruct (run_obs_adds _ _ _ _ _ _ E) as (m1 & -> & (A1 & A2 & A3) & Hc).
  exists m1. split; [done|]. split_and!; [|naive_solver|naive_solver|done].
  destruct A1 as [?|(_ & s & ?)]; eauto.
Qed.

(** ** Witnesses *)

Lemma observation_once_witness :
  exists m1, (run_obs fresh_observation (Some make_Metrics)
      [obs_begin 5; obs_reject reject_rate_limit; obs_finish 429 7; obs_finish 500 8]).1.2 = Some m1 /\
    countb id [false; false; true; false] = 1%nat.
Proof.
  destruct (run_obs fresh_observation (Some make_Metrics)
      [obs_begin 5; obs_reject reject_rate_limit; obs_finish 429 7; obs_finish 500 8]) as [[o' m'] firsts] eqn:E.
  destruct (observation_once _ _ _ _ _ E) as (m1 & -> & _ & _ & _ & Hc).
  exists m1. split; [reflexivity|]. vm_compute in E. injection E as _ _ <-. exact Hc.
Defined.

Definition metrics_route : RouteConfig :=
  mkRoute (L "/m") [mkUpstream (L "a") 80 3000 http] false None None None false.
Definition metrics_config : AppConfig := {|
  service_name := L "api-gate"; environment := L "development"; log_level := info;
  listen_address := L "127.0.0.1"; listen_port := 8080; max_connections := 256;
  max_concurrent_proxies := 32; max_in_flight_bytes := 67108864; shutdown_grace_ms := 5000;
  metrics_enabled := true; upstream_keep_alive := false; upstream := None;
  routes := [metrics_route]; upstream_tls_context := None; downstream_tls_context := None |}.

Lemma render_complete_witness :
  exists out, render (fun _ => Some (L "0")) (run_metrics [ev_response 200]) metrics_config
      (mkAccept 256 1 true false false false) (mkProxies 32 0) (mkControl 100 0)
      (make_UpstreamHealthState [metrics_route]) = Ok out /\ size out <= max_output_bytes.
Proof.
  destruct (render_complete (fun _ => Some (L "0")) [ev_response 200] metrics_config
              (mkAccept 256 1 true false false false) (mkProxies 32 0) (mkControl 100 0)
              (make_UpstreamHealthState [metrics_route]) (L "0")) as (out & H1 & H2 & _).
  - reflexivity.
  - vm_compute. lia.
  - split_and!; (split; [discriminate|reflexivity]).
  - intros [|i] route E; [|done]. intros [|u] Hu; [by eexists|].
    exfalso. cbn in E. injection E as <-. cbn in Hu. lia.
  - cbn. lia.
  - intros [|i] route E; [|done]. cbn in E. injection E as <-. cbn. lia.
  - exists out. split; [exact H1|exact H2].
Defined.
