(* ===== verification/ConfigScalars.v ===== *)
(** * Configuration values (src/config.cpp, the scalar parsers)

    Each environment value is validated by its own function; an invalid one throws
    [ConfigError] with a fixed text that never contains the value.  IP address syntax is
    Boost.Asio's: [make_address] is [ip::make_address(...).to_string()], [None] on error. *)

From S2P Require Import Prelude Text ConfigTypes.

Local Open Scope Z_scope.

Definition max_label_length : nat := 64.
Definition max_hostname_length : nat := 253.
Definition max_timeout_ms : Z := 60000.
Definition max_in_flight_bytes_limit : Z := 1073741824.

Definition u16_max : Z := 65535.
Definition u32_max : Z := 4294967295.

(** [std::getenv]: the value of a variable, if set. *)
Definition Environment : Type := string -> option text.

Definition read_environment (environment : Environment) (name : string) : result (option text) :=
  match environment name with
  | None => Ok None
  | Some [] => Throw (ConfigError (name ++ " must not be empty"))
  | Some value => Ok (Some value)
  end.

Definition label_character (c : ascii) : bool :=
  is_alnum c || ascii_eqb c "-" || ascii_eqb c "_" || ascii_eqb c ".".

Definition validate_label (value : text) (variable_name : string) : result unit :=
  let valid_character := forallb label_character value in
  if (max_label_length <? length value)%nat || negb valid_character then
    Throw (ConfigError (variable_name ++
             " must be 1-64 characters using letters, digits, '.', '_' or '-'"))
  else Ok tt.

Definition parse_log_level (value : text) : result LogLevel :=
  if text_eqb value (L "trace") then Ok trace
  else if text_eqb value (L "debug") then Ok debug
  else if text_eqb value (L "info") then Ok info
  else if text_eqb value (L "warn") then Ok warn
  else if text_eqb value (L "error") then Ok error
  else if text_eqb value (L "critical") then Ok critical
  else Throw (ConfigError
    "APIGATE_LOG_LEVEL must be one of trace, debug, info, warn, error or critical").

(** [to_string(LogLevel)] *)
Definition level_to_string (level : LogLevel) : text :=
  match level with
  | trace => L "trace"
  | debug => L "debug"
  | info => L "info"
  | warn => L "warn"
  | error => L "error"
  | critical => L "critical"
  end.

Definition parse_listen_port (value : text) : result Z :=
  match from_chars u32_max value with
  | (Some port, []) =>
      if u16_max <? port then
        Throw (ConfigError "APIGATE_LISTEN_PORT must be an integer from 0 to 65535")
      else Ok (u16 port)
  | _ => Throw (ConfigError "APIGATE_LISTEN_PORT must be an integer from 0 to 65535")
  end.

Definition parse_upstream_port (value : text) : result Z :=
  match from_chars u32_max value with
  | (Some port, []) =>
      if (port =? 0) || (u16_max <? port) then
        Throw (ConfigError "APIGATE_UPSTREAM_PORT must be an integer from 1 to 65535")
      else Ok (u16 port)
  | _ => Throw (ConfigError "APIGATE_UPSTREAM_PORT must be an integer from 1 to 65535")
  end.

Definition parse_capacity_limit (value : text) (variable_name : string) : result Z :=
  match from_chars u32_max value with
  | (Some limit, []) =>
      if (limit =? 0) || (u16_max <? limit) then
        Throw (ConfigError (variable_name ++ " must be an integer from 1 to 65535"))
      else Ok (u16 limit)
  | _ => Throw (ConfigError (variable_name ++ " must be an integer from 1 to 65535"))
  end.

Definition parse_bounded_milliseconds (value : text) (variable_name : string) : result Z :=
  match from_chars u32_max value with
  | (Some timeout, []) =>
      if (timeout =? 0) || (max_timeout_ms <? timeout) then
        Throw (ConfigError (variable_name ++ " must be an integer from 1 to 60000"))
      else Ok timeout
  | _ => Throw (ConfigError (variable_name ++ " must be an integer from 1 to 60000"))
  end.

Definition parse_max_in_flight_bytes (value : text) : result Z :=
  match from_chars u64_max value with
  | (Some bytes, []) =>
      if (bytes =? 0) || (max_in_flight_bytes_limit <? bytes) then
        Throw (ConfigError "APIGATE_MAX_IN_FLIGHT_BYTES must be an integer from 1 to 1073741824")
      else Ok bytes
  | _ => Throw (ConfigError "APIGATE_MAX_IN_FLIGHT_BYTES must be an integer from 1 to 1073741824")
  end.

(** ** Host names *)

Definition hostname_error : exn :=
  ConfigError "APIGATE_UPSTREAM_HOST must be a valid hostname or IP address".

Definition bad_label (label_length : nat) (starts_with_hyphen : bool) (previous : ascii) : bool :=
  (label_length =? 0)%nat || (63 <? label_length)%nat || starts_with_hyphen || ascii_eqb previous "-".

(** The loop over the characters, with the locals it carries. *)
Fixpoint hostname_loop (value : text) (label_length : nat) (label_starts_with_hyphen : bool)
    (previous : ascii) : result unit :=
  match value with
  | [] => if bad_label label_length label_starts_with_hyphen previous then Throw hostname_error else Ok tt
  | character :: rest =>
      if ascii_eqb character "." then
        if bad_label label_length label_starts_with_hyphen previous then Throw hostname_error
        else hostname_loop rest 0 false character
      else if is_alnum character || ascii_eqb character "-" then
        hostname_loop rest (S label_length)
          (if (label_length =? 0)%nat then ascii_eqb character "-" else label_starts_with_hyphen)
          character
      else Throw hostname_error
  end.

(** [front()] and [back()] need a non-empty value; every caller has checked it. *)
Definition validate_dns_hostname (value : text) : result unit :=
  if (max_hostname_length <? length value)%nat || bool_decide (head value = Some ("."%char)) ||
     bool_decide (last value = Some ("."%char))
  then Throw hostname_error
  else hostname_loop value 0 false "000".

Section Address.
Variable make_address : text -> option text.

Definition parse_listen_address (value : text) : result text :=
  match make_address value with
  | Some address => Ok address
  | None => Throw (ConfigError "APIGATE_LISTEN_ADDRESS must be a valid IPv4 or IPv6 address")
  end.

Definition parse_upstream_host (value : text) : result text :=
  match make_address value with
  | Some address => Ok address
  | None =>
      _ ← validate_dns_hostname value;
      Ok value
  end.

End Address.

(** ** Route prefixes *)

Definition segment_character (c : ascii) : bool :=
  is_lower c || is_upper c || is_digit c ||
  ascii_eqb c "-" || ascii_eqb c "." || ascii_eqb c "_" || ascii_eqb c "~".

Definition bad_segment (segment : text) : bool :=
  bool_decide (segment = []) || text_eqb segment (L ".") || text_eqb segment (L "..") ||
  negb (forallb segment_character segment).

Definition segment_error : exn :=
  ConfigError "APIGATE_ROUTES prefix contains an invalid path segment".

(** The loop over the segments of what follows the first slash; each iteration but the
    last consumes a slash. *)
Fixpoint prefix_loop (fuel : nat) (rest : text) : result unit :=
  match fuel with
  | O => Ok tt
  | S fuel =>
      let stop := sv_find "/" rest in
      let segment := sv_prefix stop rest in
      if bad_segment segment then Throw segment_error
      else match stop with
           | None => Ok tt
           | Some n => prefix_loop fuel (drop (S n) rest)
           end
  end.

Definition validate_route_prefix (prefix : text) : result unit :=
  if bool_decide (prefix = []) || negb (bool_decide (head prefix = Some ("/"%char))) then
    Throw (ConfigError "APIGATE_ROUTES prefix must start with '/'")
  else if text_eqb prefix (L "/") then Ok tt
  else prefix_loop (length prefix) (drop 1 prefix).

(** ** What the validators accept *)

Definition host_character (c : ascii) : bool := is_alnum c || ascii_eqb c "-".

(** A label of RFC 1123. *)
Definition valid_label (label : text) : Prop :=
  (1 <= length label <= 63)%nat /\ Forall (fun c => host_character c = true) label /\
  head label <> Some ("-"%char) /\ last label <> Some ("-"%char).

Definition valid_hostname (value : text) : Prop :=
  (length value <= 253)%nat /\
  exists labels, labels <> [] /\ value = join "." labels /\ Forall valid_label labels.

Lemma host_no_dot label : Forall (fun c => host_character c = true) label -> ("."%char) ∉ label.
Proof. intros H Hin. rewrite Forall_forall in H. by specialize (H _ Hin). Qed.

Lemma valid_label_no_dot label : valid_label label -> ("."%char) ∉ label.
Proof. intros (_ & H & _). by apply host_no_dot. Qed.

(** The locals describe the label read so far. *)
Definition label_state (cur : text) (label_length : nat) (hyphen : bool) (previous : ascii) : Prop :=
  label_length = length cur /\ hyphen = bool_decide (head cur = Some ("-"%char)) /\
  match last cur with Some c => previous = c | None => previous <> "-"%char end.

Lemma bad_label_spec cur n hyphen previous :
  Forall (fun c => host_character c = true) cur -> label_state cur n hyphen previous ->
  bad_label n hyphen previous = false <-> valid_label cur.
Proof.
  intros Hc (-> & -> & Hp). unfold bad_label, valid_label.
  rewrite !orb_false_iff, Nat.eqb_neq, Nat.ltb_ge, bool_decide_eq_false, ascii_eqb_false.
  assert (Hl : previous <> "-"%char <-> last cur <> Some ("-"%char))
    by (destruct (last cur); [subst; split; congruence|by split]).
  rewrite Hl. split; [intros [[[? ?] ?] ?]|intros ((? & ?) & ? & ? & ?)]; split_and!; try done; lia.
Qed.

Lemma hostname_loop_spec value cur n hyphen previous :
  Forall (fun c => host_character c = true) cur -> label_state cur n hyphen previous ->
  hostname_loop value n hyphen previous = Ok tt <->
  exists labels, labels <> [] /\ cur ++ value = join "." labels /\ Forall valid_label labels.
Proof.
  revert cur n hyphen previous. induction value as [|c value IH]; intros cur n hyphen previous Hc Hs;
    cbn [hostname_loop]; pose proof (bad_label_spec cur n hyphen previous Hc Hs) as Hb;
    pose proof (host_no_dot _ Hc) as Hdot.
  - rewrite app_nil_r. destruct (bad_label n hyphen previous) eqn:E.
    + split; [done|]. intros (labels & Hn & F & Hv).
      pose proof (join_single _ _ _ Hdot Hn F) as ->.
      apply Forall_cons_1 in Hv as [Hv _]. by apply Hb in Hv.
    + split; [intros _|done]. exists [cur]. split_and!; [done|done|]. constructor; [by apply Hb|done].
  - destruct (ascii_eqb c ".") eqn:D.
    + apply ascii_eqb_true in D as ->.
      assert (Hnil : label_state [] 0 false ("."%char)) by (by split).
      destruct (bad_label n hyphen previous) eqn:E.
      * split; [done|]. intros (labels & Hn & F & Hv).
        apply join_first in F as (labels' & -> & _); [|done| |done].
        -- apply Forall_cons_1 in Hv as [Hv _]. by apply Hb in Hv.
        -- eapply Forall_impl; [exact Hv|]. apply valid_label_no_dot.
      * rewrite (IH [] 0%nat false ("."%char) (Forall_nil_2 _) Hnil). cbn [app]. split.
        -- intros (labels & Hn & -> & Hv). exists (cur :: labels). split; [done|].
           rewrite join_cons by done. split; [done|]. constructor; [by apply Hb|done].
        -- intros (labels & Hn & F & Hv).
           apply join_first in F as (labels' & -> & Hn' & ->); [|done| |done].
           ++ apply Forall_cons_1 in Hv as [_ Hv]. by exists labels'.
           ++ eapply Forall_impl; [exact Hv|]. apply valid_label_no_dot.
    + change (is_alnum c || ascii_eqb c "-") with (host_character c).
      destruct (host_character c) eqn:H.
      * assert (Hs' : label_state (cur ++ [c]) (S n)
          (if (n =? 0)%nat then ascii_eqb c "-" else hyphen) c).
        { destruct Hs as (-> & -> & Hp). split_and!.
          - rewrite length_app. cbn. lia.
          - destruct cur as [|d cur]; cbn; [|done]. apply eq_true_iff_eq.
            rewrite ascii_eqb_true, bool_decide_eq_true. split; congruence.
          - by rewrite last_snoc. }
        assert (Hc' : Forall (fun c => host_character c = true) (cur ++ [c]))
          by (apply Forall_app; split; [done|by constructor]).
        rewrite (IH (cur ++ [c]) _ _ _ Hc' Hs'), <- app_assoc. done.
      * split; [done|]. intros (labels & Hn & F & Hv). exfalso.
        assert (Hin : c ∈ join "." labels) by (rewrite <- F; apply elem_of_app; right; left).
        clear -Hin Hv H D. induction Hv as [|l [|l' ls] Hl Hls IH]; [by apply elem_of_nil in Hin| |].
        -- cbn in Hin. destruct Hl as (_ & Hl & _). rewrite Forall_forall in Hl.
           specialize (Hl _ Hin). congruence.
        -- rewrite join_cons in Hin by done. apply elem_of_app in Hin as [Hin|[Hin|Hin]%elem_of_cons].
           ++ destruct Hl as (_ & Hl & _). rewrite Forall_forall in Hl. specialize (Hl _ Hin). congruence.
           ++ by apply ascii_eqb_false in D.
           ++ by apply IH.
Qed.

Lemma join_not_nil labels : labels <> [] -> Forall valid_label labels -> join "." labels <> [].
Proof.
  intros Hn Hv. destruct Hv as [|l [|l' ls] ((Hl & _) & _) _]; [done| |].
  - cbn. destruct l; [cbn in Hl; lia|done].
  - rewrite join_cons by done. by destruct l.
Qed.

Lemma join_last labels : labels <> [] -> Forall valid_label labels -> last (join "." labels) <> Some ("."%char).
Proof.
  intros Hn Hv. induction Hv as [|l [|l' ls] Hl Hls IH]; [done| |].
  - cbn. intros (init & E)%last_Some. apply (valid_label_no_dot _ Hl). rewrite E. apply elem_of_app.
    right. left.
  - rewrite join_cons by done. rewrite last_app_cons, last_cons.
    destruct (last (join "." (l' :: ls))) eqn:E; [by apply IH|].
    apply last_None in E. by apply join_not_nil in E.
Qed.

Lemma join_head labels : labels <> [] -> Forall valid_label labels -> head (join "." labels) <> Some ("."%char).
Proof.
  intros Hn Hv E. destruct (join "." labels) as [|c rest] eqn:J; [done|]. injection E as ->.
  destruct (join_first "." [] rest labels) as (labels' & -> & _).
  - apply not_elem_of_nil.
  - eapply Forall_impl; [exact Hv|]. apply valid_label_no_dot.
  - done.
  - by rewrite J.
  - apply Forall_cons_1 in Hv as [((Hl & _) & _) _]. cbn in Hl. lia.
Qed.

Lemma validate_hostname_spec value :
  value <> [] -> validate_dns_hostname value = Ok tt <-> valid_hostname value.
Proof.
  intros Hne. unfold validate_dns_hostname, valid_hostname.
  assert (Hs : label_state [] 0 false ("000"%char)) by (by split).
  pose proof (hostname_loop_spec value [] 0%nat false ("000"%char) (Forall_nil_2 _) Hs) as H. cbn [app] in H.
  destruct (_ || _) eqn:G.
  - split; [done|]. intros [Hl (labels & Hn & -> & Hv)]. exfalso.
    rewrite !orb_true_iff, !bool_decide_eq_true, Nat.ltb_lt in G. unfold max_hostname_length in G.
    destruct G as [[G|G]|G]; [lia| |]; [by apply join_head in G|by apply join_last in G].
  - rewrite H. rewrite !orb_false_iff, Nat.ltb_ge in G. destruct G as [[G _] _].
    unfold max_hostname_length in G. tauto.
Qed.

(** A segment of a route prefix: unreserved characters, and no dot segment. *)
Definition valid_segment (segment : text) : Prop :=
  segment <> [] /\ segment <> L "." /\ segment <> L ".." /\
  Forall (fun c => segment_character c = true) segment.

Definition valid_prefix (prefix : text) : Prop :=
  prefix = L "/" \/
  exists segments, segments <> [] /\ prefix = "/"%char :: join "/" segments /\ Forall valid_segment segments.

Lemma bad_segment_spec segment : bad_segment segment = false <-> valid_segment segment.
Proof.
  unfold bad_segment, valid_segment. rewrite !orb_false_iff, !text_eqb_false, bool_decide_eq_false,
    negb_false_iff, forallb_Forall. tauto.
Qed.

Lemma valid_segment_no_slash segment : valid_segment segment -> ("/"%char) ∉ segment.
Proof. intros (_ & _ & _ & H) Hin. rewrite Forall_forall in H. by specialize (H _ Hin). Qed.

Lemma prefix_loop_spec fuel rest :
  (length rest < fuel)%nat ->
  prefix_loop fuel rest = Ok tt <->
  exists segments, segments <> [] /\ rest = join "/" segments /\ Forall valid_segment segments.
Proof.
  revert rest. induction fuel as [|fuel IH]; intros rest Hf; [lia|]. cbn [prefix_loop].
  destruct (sv_find "/" rest) as [n|] eqn:F; cbn [sv_prefix].
  - apply sv_find_split in F as [E Hc]. set (a := take n rest) in *. set (b := drop (S n) rest) in *.
    assert (Hb : (length b < fuel)%nat) by (apply (f_equal length) in E; rewrite length_app in E; cbn in E; lia).
    clearbody a b. subst rest. destruct (bad_segment a) eqn:B.
    + split; [done|]. intros (segs & Hn & F & Hv).
      apply join_first in F as (segs' & -> & _); [|done| |done].
      * apply Forall_cons_1 in Hv as [Hv _]. apply bad_segment_spec in Hv. congruence.
      * eapply Forall_impl; [exact Hv|]. apply valid_segment_no_slash.
    + apply bad_segment_spec in B. rewrite (IH b Hb). split.
      * intros (segs & Hn & -> & Hv). exists (a :: segs). rewrite join_cons by done.
        split_and!; [done|done|by constructor].
      * intros (segs & Hn & F & Hv).
        apply join_first in F as (segs' & -> & Hn' & ->); [|done| |done].
        -- apply Forall_cons_1 in Hv as [_ Hv]. by exists segs'.
        -- eapply Forall_impl; [exact Hv|]. apply valid_segment_no_slash.
  - apply sv_find_None in F. destruct (bad_segment rest) eqn:B.
    + split; [done|]. intros (segs & Hn & E & Hv). pose proof (join_single _ _ _ F Hn E) as ->.
      apply Forall_cons_1 in Hv as [Hv _]. apply bad_segment_spec in Hv. congruence.
    + split; [intros _|done]. apply bad_segment_spec in B. exists [rest].
      split_and!; [done|done|by constructor].
Qed.

Lemma validate_prefix_spec prefix : validate_route_prefix prefix = Ok tt <-> valid_prefix prefix.
Proof.
  unfold validate_route_prefix, valid_prefix. destruct prefix as [|c rest].
  { cbn. split; [done|]. intros [H|(s & _ & H & _)]; done. }
  rewrite bool_decide_eq_false_2 by done. cbn [orb head].
  destruct (bool_decide (Some c = Some ("/"%char))) eqn:H; cbn [negb].
  - apply bool_decide_eq_true in H. injection H as ->.
    destruct (text_eqb ("/"%char :: rest) (L "/")) eqn:E.
    + apply text_eqb_true in E. rewrite E. split; [by left|done].
    + apply text_eqb_false in E.
      change (prefix_loop (S (length rest)) rest = Ok tt <->
              "/"%char :: rest = L "/" \/ exists s, s <> [] /\ "/"%char :: rest = "/"%char :: join "/" s /\
                Forall valid_segment s).
      rewrite prefix_loop_spec by lia. split.
      * intros (s & Hn & -> & Hv). right. by exists s.
      * intros [?|(s & Hn & [= ->] & Hv)]; [done|by exists s].
  - apply bool_decide_eq_false in H. split; [done|].
    intros [E|(s & _ & E & _)]; injection E as -> _; done.
Qed.

(** ** Properties *)

(** Names and prefixes are validated by their grammar.  A host name is accepted
    exactly when it has at most 253 characters and is a dot-separated list of labels of
    1 to 63 letters, digits and inner hyphens; a route prefix exactly when it is the
    root or a list of non-empty unreserved segments without dot segments (so without
    trailing slash, query, fragment or percent escape). *)
Theorem hostname_and_prefix_grammar value :
  (value <> [] -> validate_dns_hostname value = Ok tt <-> valid_hostname value) /\
  (validate_route_prefix value = Ok tt <-> valid_prefix value).
Proof. split; [apply validate_hostname_spec|apply validate_prefix_spec]. Qed.

(** Decimal digits only, read as a number. *)
Definition reads_as (value : text) (n : Z) : Prop :=
  value <> [] /\ Forall (fun c => is_digit c = true) value /\ digits_value value = n.

Lemma from_chars_reads maximum value n :
  from_chars maximum value = (Some n, []) <-> reads_as value n /\ n <= maximum.
Proof. rewrite from_chars_all. unfold reads_as. tauto. Qed.

Lemma reads_as_nonneg value n : reads_as value n -> 0 <= n.
Proof. intros (_ & H & <-). by apply digits_value_nonneg. Qed.

(** The common shape of the five numeric parsers. *)
Lemma bounded_number maximum value (outside : Z -> bool) (convert : Z -> Z) e (low high n : Z) :
  high <= maximum -> (forall k, 0 <= k -> outside k = false <-> low <= k <= high) ->
  (forall k, low <= k <= high -> convert k = k) ->
  (match from_chars maximum value with
   | (Some k, []) => if outside k then Throw e else Ok (convert k)
   | _ => Throw e
   end = Ok n <-> reads_as value n /\ low <= n <= high).
Proof.
  intros Hm Ho Hc. destruct (from_chars maximum value) as [[k|] [|c tail]] eqn:F.
  - apply from_chars_reads in F as [Hr Hk]. pose proof (reads_as_nonneg _ _ Hr) as Hp.
    specialize (Ho k Hp). destruct (outside k).
    + split; [done|]. intros [Hr' Hn]. exfalso. destruct Hr as (_ & _ & E1), Hr' as (_ & _ & E2).
      assert (k = n) as -> by congruence. by apply Ho in Hn.
    + destruct (proj1 Ho eq_refl) as [Ha Hb]. rewrite Hc by done. split.
      * by intros [= <-].
      * intros [(_ & _ & <-) _]. by destruct Hr as (_ & _ & ->).
  - split; [done|]. intros [Hr Hn]. exfalso.
    assert (X : from_chars maximum value = (Some n, [])) by (apply from_chars_reads; split; [done|lia]).
    congruence.
  - split; [done|]. intros [Hr Hn]. exfalso.
    assert (X : from_chars maximum value = (Some n, [])) by (apply from_chars_reads; split; [done|lia]).
    congruence.
  - split; [done|]. intros [Hr Hn]. exfalso.
    assert (X : from_chars maximum value = (Some n, [])) by (apply from_chars_reads; split; [done|lia]).
    congruence.
Qed.

Ltac range_test := intros k Hk; cbn beta; rewrite ?orb_false_iff, ?Z.eqb_neq, Z.ltb_ge; lia.

Lemma numeric_parsers value name n :
  (parse_listen_port value = Ok n <-> reads_as value n /\ 0 <= n <= 65535) /\
  (parse_upstream_port value = Ok n <-> reads_as value n /\ 1 <= n <= 65535) /\
  (parse_capacity_limit value name = Ok n <-> reads_as value n /\ 1 <= n <= 65535) /\
  (parse_bounded_milliseconds value name = Ok n <-> reads_as value n /\ 1 <= n <= 60000) /\
  (parse_max_in_flight_bytes value = Ok n <-> reads_as value n /\ 1 <= n <= 1073741824).
Proof.
  assert (H16 : forall low k, 0 <= low -> low <= k <= 65535 -> u16 k = k)
    by (intros low k Hl Hk; apply u16_small; unfold in_u16; lia).
  split_and!.
  - apply (bounded_number u32_max value (fun k => u16_max <? k) u16); [done| |intros k; by apply (H16 0)].
    unfold u16_max; range_test.
  - apply (bounded_number u32_max value (fun k => (k =? 0) || (u16_max <? k)) u16); [done| |intros k; by apply (H16 1)].
    unfold u16_max; range_test.
  - apply (bounded_number u32_max value (fun k => (k =? 0) || (u16_max <? k)) u16); [done| |intros k; by apply (H16 1)].
    unfold u16_max; range_test.
  - apply (bounded_number u32_max value (fun k => (k =? 0) || (max_timeout_ms <? k)) (fun k => k)); [done| |done].
    unfold max_timeout_ms; range_test.
  - apply (bounded_number u64_max value (fun k => (k =? 0) || (max_in_flight_bytes_limit <? k)) (fun k => k));
      [done| |done]. unfold max_in_flight_bytes_limit; range_test.
Qed.

Lemma numeric_parsers_throw value name :
  throws_config (parse_listen_port value) /\ throws_config (parse_upstream_port value) /\
  throws_config (parse_capacity_limit value name) /\ throws_config (parse_bounded_milliseconds value name) /\
  throws_config (parse_max_in_flight_bytes value).
Proof.
  unfold parse_listen_port, parse_upstream_port, parse_capacity_limit, parse_bounded_milliseconds,
    parse_max_in_flight_bytes.
  split_and!; destruct (from_chars _ value) as [[n|] [|]]; throws.
Qed.

(** Numeric settings.  Each numeric parser accepts exactly the decimal numerals
    (digits only, no sign, no space, nothing after) whose value is in its range, and
    returns that value unchanged: no overflow and no truncation to the narrower type. *)
Theorem numeric_settings_exact value name n :
  (parse_listen_port value = Ok n <-> reads_as value n /\ 0 <= n <= 65535) /\
  (parse_upstream_port value = Ok n <-> reads_as value n /\ 1 <= n <= 65535) /\
  (parse_capacity_limit value name = Ok n <-> reads_as value n /\ 1 <= n <= 65535) /\
  (parse_bounded_milliseconds value name = Ok n <-> reads_as value n /\ 1 <= n <= 60000) /\
  (parse_max_in_flight_bytes value = Ok n <-> reads_as value n /\ 1 <= n <= 1073741824).
Proof. apply numeric_parsers. Qed.

(** The level names read back. *)
Lemma level_roundtrip level : parse_log_level (level_to_string level) = Ok level.
Proof. by destruct level. Qed.
