(* ===== verification/ConfigRoutes.v ===== *)
(** * The route table (src/config.cpp, [route_integer] to [parse_routes])

    The JSON text is parsed by nlohmann::json, which reports each event of the text to a
    callback before the document is available.  [json_events] is what it reports for a
    text and [json_document] the document, [None] on a syntax error.  The callback is a
    state machine over the events ([scan]); the document is then validated entry by
    entry.  The key digest is the parameter of [ApiKeyAuth], the address syntax that of
    [ConfigScalars]. *)

From S2P Require Import Prelude Text ConfigTypes ApiKeyAuth ConfigScalars.

Local Open Scope Z_scope.

(** ** JSON values *)

(** A number the parser found unsigned, negative, or not an integer; an object is its
    members in iteration order. *)
Inductive JValue :=
  | j_null
  | j_bool (b : bool)
  | j_unsigned (n : Z)
  | j_negative (n : Z)
  | j_float
  | j_string (s : text)
  | j_array (elements : list JValue)
  | j_object (members : list (text * JValue)).

Definition is_object (v : JValue) : bool := match v with j_object _ => true | _ => false end.
Definition is_array (v : JValue) : bool := match v with j_array _ => true | _ => false end.
Definition is_string (v : JValue) : bool := match v with j_string _ => true | _ => false end.
Definition is_boolean (v : JValue) : bool := match v with j_bool _ => true | _ => false end.

Fixpoint find_member (key : text) (members : list (text * JValue)) : option JValue :=
  match members with
  | [] => None
  | (k, v) :: rest => if text_eqb k key then Some v else find_member key rest
  end.

(** [contains(key)], false on what is not an object. *)
Definition member (key : string) (v : JValue) : option JValue :=
  match v with j_object members => find_member (L key) members | _ => None end.
Definition contains (key : string) (v : JValue) : bool := bool_decide (is_Some (member key v)).

(** [at(key)] *)
Definition json_at (key : string) (v : JValue) : result JValue :=
  match member key v with Some x => Ok x | None => Throw (out_of_range "json") end.

(** The keys of [items()]. *)
Definition item_keys (v : JValue) : list text := match v with j_object members => members.*1 | _ => [] end.

(** ** The parser callback *)

Inductive json_event :=
  | object_start
  | object_end
  | array_start
  | array_end
  | key_event (name : text)
  | value_event (v : JValue).

Record ScanState := mkScan {
  keys_ : list (gset text);         (* three sets *)
  route_key : text;
  object_count : Z;
  upstream_count : Z;
  in_upstreams : bool;
  auth_key : text;
  in_key_envs : bool;
  reference_count : Z }.

Definition initial_scan : ScanState := mkScan [∅; ∅; ∅] [] 0 0 false [] false 0.

Definition set_keys (s : ScanState) (i : nat) (keys : gset text) : ScanState :=
  mkScan (<[i := keys]> (keys_ s)) (route_key s) (object_count s) (upstream_count s) (in_upstreams s)
    (auth_key s) (in_key_envs s) (reference_count s).

Definition key_is (k : text) (name : string) : bool := text_eqb k (L name).

Definition scan_array_start (s : ScanState) (depth : Z) : result ScanState :=
  if depth =? 0 then Ok s
  else if (depth =? 2) && key_is (route_key s) "upstreams" then
    Ok (mkScan (keys_ s) (route_key s) (object_count s) 0 true (auth_key s) (in_key_envs s)
          (reference_count s))
  else if (depth =? 3) && key_is (route_key s) "auth" && key_is (auth_key s) "api_key_envs" then
    Ok (mkScan (keys_ s) (route_key s) (object_count s) (upstream_count s) (in_upstreams s)
          (auth_key s) true 0)
  else Throw (ConfigError "APIGATE_ROUTES contains an invalid nested array").

Definition scan_array_end (s : ScanState) (depth : Z) : ScanState :=
  mkScan (keys_ s) (route_key s) (object_count s) (upstream_count s)
    (if depth =? 2 then false else in_upstreams s) (auth_key s)
    (if depth =? 3 then false else in_key_envs s) (reference_count s).

Definition scan_value (s : ScanState) (depth : Z) (v : JValue) : result ScanState :=
  if (depth =? 4) && in_key_envs s then
    match v with
    | j_string (_ :: _) =>
        let s' := mkScan (keys_ s) (route_key s) (object_count s) (upstream_count s) (in_upstreams s)
                    (auth_key s) (in_key_envs s) (reference_count s + 1) in
        if Z.of_nat max_keys <? reference_count s + 1 then
          Throw (ConfigError "APIGATE_ROUTES auth requires 1-4 nonempty key references")
        else Ok s'
    | _ => Throw (ConfigError "APIGATE_ROUTES auth requires 1-4 nonempty key references")
    end
  else Ok s.

Definition scan_object_start (s : ScanState) (depth : Z) : result ScanState :=
  if depth =? 1 then
    if 32 <? object_count s + 1 then
      Throw (ConfigError "APIGATE_ROUTES must contain at most 32 route objects")
    else
      Ok (set_keys (mkScan (keys_ s) (route_key s) (object_count s + 1) (upstream_count s)
                      (in_upstreams s) (auth_key s) (in_key_envs s) (reference_count s)) 0 ∅)
  else if (depth =? 2) && (key_is (route_key s) "rate_limit" || key_is (route_key s) "health_check" ||
                           key_is (route_key s) "auth") then
    Ok (set_keys (mkScan (keys_ s) (route_key s) (object_count s) (upstream_count s) (in_upstreams s)
                    [] (in_key_envs s) (reference_count s)) 1 ∅)
  else if (depth =? 3) && in_upstreams s && key_is (route_key s) "upstreams" then
    if 16 <? upstream_count s + 1 then
      Throw (ConfigError "APIGATE_ROUTES upstreams must contain at most 16 entries")
    else
      Ok (set_keys (mkScan (keys_ s) (route_key s) (object_count s) (upstream_count s + 1)
                      (in_upstreams s) (auth_key s) (in_key_envs s) (reference_count s)) 2 ∅)
  else Throw (ConfigError "APIGATE_ROUTES contains an invalid nested object").

(** The duplicate test of a key at [depth]; [keys_] has three sets. *)
Definition insert_key (s : ScanState) (depth : Z) (name : text) : result ScanState :=
  if (depth <? 2) || (4 <? depth) then
    Throw (ConfigError "APIGATE_ROUTES contains a duplicate object field")
  else
    let i := Z.to_nat (depth - 2) in
    keys ← vec_at (keys_ s) i;
    if bool_decide (name ∈ keys) then
      Throw (ConfigError "APIGATE_ROUTES contains a duplicate object field")
    else Ok (set_keys s i ({[name]} ∪ keys)).

Definition with_auth_key (s : ScanState) (name : text) : ScanState :=
  mkScan (keys_ s) (route_key s) (object_count s) (upstream_count s) (in_upstreams s)
    name (in_key_envs s) (reference_count s).
Definition with_route_key (s : ScanState) (name : text) : ScanState :=
  mkScan (keys_ s) name (object_count s) (upstream_count s) (in_upstreams s)
    (auth_key s) (in_key_envs s) (reference_count s).

Definition scan_key (s : ScanState) (depth : Z) (name : text) : result ScanState :=
  s ← (if (depth =? 3) && key_is (route_key s) "auth" then
         if negb (key_is name "api_key_env") && negb (key_is name "api_key_envs") then
           Throw (ConfigError "APIGATE_ROUTES auth contains an unknown field")
         else Ok (with_auth_key s name)
       else Ok s);
  s ← insert_key s depth name;
  Ok (if depth =? 2 then with_route_key s name else s).

Definition scan_event (s : ScanState) (event : Z * json_event) : result ScanState :=
  let depth := event.1 in
  match event.2 with
  | array_start => scan_array_start s depth
  | array_end => Ok (scan_array_end s depth)
  | value_event v => scan_value s depth v
  | object_start => scan_object_start s depth
  | object_end => Ok s
  | key_event name => scan_key s depth name
  end.

Fixpoint scan (s : ScanState) (events : list (Z * json_event)) : result ScanState :=
  match events with
  | [] => Ok s
  | event :: rest => s ← scan_event s event; scan s rest
  end.

(** ** Fields *)

Definition route_integer (value : JValue) (maximum : Z) : result Z :=
  match value with
  | j_unsigned n =>
      if (n =? 0) || (maximum <? n) then
        Throw (ConfigError "APIGATE_ROUTES integer field is out of range")
      else Ok n
  | j_negative n =>
      if n <? 0 then Throw (ConfigError "APIGATE_ROUTES integer field must be a positive integer")
      else if (u64 n =? 0) || (maximum <? u64 n) then
        Throw (ConfigError "APIGATE_ROUTES integer field is out of range")
      else Ok (u64 n)
  | _ => Throw (ConfigError "APIGATE_ROUTES integer field must be a positive integer")
  end.

Section Routes.
Variable make_address : text -> option text.
Variable evp_digest : text -> option ApiKeyDigest.
Variable environment : Environment.
Variable json_events : text -> list (Z * json_event).
Variable json_document : text -> option JValue.

Definition host_error : exn := ConfigError "APIGATE_ROUTES host must be a valid hostname or IP address".

(** The [try] block: every [ConfigError] becomes the route error. *)
Definition route_host (host : text) : result text :=
  match (if bool_decide (host = []) then Throw (ConfigError "empty host")
         else parse_upstream_host make_address host) with
  | Ok validated => Ok validated
  | Throw (ConfigError _) => Throw host_error
  | Throw e => Throw e
  end.

Definition parse_scheme (entry : JValue) : result UpstreamScheme :=
  match member "scheme" entry with
  | None => Ok http
  | Some (j_string value) =>
      if text_eqb value (L "https") then Ok https
      else if text_eqb value (L "http") then Ok http
      else Throw (ConfigError "APIGATE_ROUTES scheme must be http or https")
  | Some _ => Throw (ConfigError "APIGATE_ROUTES scheme must be http or https")
  end.

Definition parse_timeout (entry : JValue) : result Z :=
  match member "timeout_ms" entry with
  | Some value => u32 <$> route_integer value 60000
  | None => Ok 3000
  end.

Definition parse_route_upstream (entry : JValue) : result UpstreamConfig :=
  match is_object entry && contains "host" entry && contains "port" entry, member "host" entry with
  | true, Some (j_string host) =>
      validated_host ← route_host host;
      port_value ← json_at "port" entry;
      port ← route_integer port_value 65535;
      timeout ← parse_timeout entry;
      scheme ← parse_scheme entry;
      Ok (mkUpstream validated_host (u16 port) timeout scheme)
  | _, _ => Throw (ConfigError "APIGATE_ROUTES upstream requires string host and integer port")
  end.

Definition allowed_keys (allowed : list string) (v : JValue) : bool :=
  forallb (fun key => existsb (key_is key) allowed) (item_keys v).

Definition route_fields : list string :=
  ["prefix"; "host"; "port"; "timeout_ms"; "strip_prefix"; "rate_limit"; "upstreams"; "scheme";
   "health_check"; "auth"; "stream_response"]%string.

Fixpoint parse_pool (pool : list JValue) : result (list UpstreamConfig) :=
  match pool with
  | [] => Ok []
  | backend :: rest =>
      _ ← ensure (is_object backend) (ConfigError "APIGATE_ROUTES upstream entry must be an object");
      _ ← ensure (allowed_keys ["host"; "port"; "timeout_ms"; "scheme"]%string backend)
            (ConfigError "APIGATE_ROUTES upstream entry contains an unknown field");
      upstream ← parse_route_upstream backend;
      upstreams ← parse_pool rest;
      Ok (upstream :: upstreams)
  end.

Definition parse_upstreams (entry : JValue) : result (list UpstreamConfig) :=
  match member "upstreams" entry with
  | Some pool =>
      _ ← ensure (negb (contains "host" entry || contains "port" entry || contains "timeout_ms" entry ||
                        contains "scheme" entry))
            (ConfigError "APIGATE_ROUTES upstreams conflicts with route-level upstream fields");
      match pool with
      | j_array backends =>
          _ ← ensure (negb (bool_decide (backends = [])) && (length backends <=? 16)%nat)
                (ConfigError "APIGATE_ROUTES upstreams must contain 1-16 upstream objects");
          parse_pool backends
      | _ => Throw (ConfigError "APIGATE_ROUTES upstreams must contain 1-16 upstream objects")
      end
  | None => upstream ← parse_route_upstream entry; Ok [upstream]
  end.

Definition parse_flag (name : string) (message : string) (entry : JValue) : result bool :=
  match member name entry with
  | None => Ok false
  | Some (j_bool b) => Ok b
  | Some _ => Throw (ConfigError message)
  end.

Definition parse_rate_limit (entry : JValue) : result (option RateLimitConfig) :=
  match member "rate_limit" entry with
  | None => Ok None
  | Some limit =>
      _ ← ensure (is_object limit && (length (item_keys limit) =? 2)%nat &&
                  contains "requests_per_second" limit && contains "burst" limit)
            (ConfigError "APIGATE_ROUTES rate_limit requires only requests_per_second and burst");
      rate_value ← json_at "requests_per_second" limit;
      rate ← route_integer rate_value 1000000;
      burst_value ← json_at "burst" limit;
      burst ← route_integer burst_value 1000000;
      Ok (Some (mkRateLimit (u32 rate) (u32 burst)))
  end.

Definition path_character_bad (c : ascii) : bool :=
  (char_code c <=? 32)%N || (char_code c =? 127)%N || ascii_eqb c "?" || ascii_eqb c "#".

(** The [integer] lambda: a field of the health check, its default and its bounds. *)
Definition health_integer (health : JValue) (field : string) (default_value minimum maximum : Z) : result Z :=
  number ← match member field health with
           | Some value => route_integer value maximum
           | None => Ok default_value
           end;
  if number <? minimum then Throw (ConfigError "APIGATE_ROUTES health_check number is out of range")
  else Ok (u32 number).

Definition parse_health_check (entry : JValue) : result (option HealthCheckConfig) :=
  match member "health_check" entry with
  | None => Ok None
  | Some health =>
      match is_object health, member "path" health with
      | true, Some (j_string path) =>
          _ ← ensure (allowed_keys ["path"; "interval_ms"; "timeout_ms"; "unhealthy_threshold";
                                    "healthy_threshold"]%string health)
                (ConfigError "APIGATE_ROUTES health_check contains an unknown field");
          _ ← ensure (negb (bool_decide (path = []) || negb (bool_decide (head path = Some ("/"%char))) ||
                            existsb path_character_bad path))
                (ConfigError "APIGATE_ROUTES health_check path must be a path without query or fragment");
          interval ← health_integer health "interval_ms" 5000 100 60000;
          timeout ← health_integer health "timeout_ms" 1000 50 60000;
          unhealthy ← health_integer health "unhealthy_threshold" 3 1 10;
          healthy ← health_integer health "healthy_threshold" 2 1 10;
          _ ← ensure (negb (interval <? timeout))
                (ConfigError "APIGATE_ROUTES health_check timeout must not exceed interval");
          Ok (Some (mkHealthCheck path interval timeout unhealthy healthy))
      | _, _ => Throw (ConfigError "APIGATE_ROUTES health_check requires a path string")
      end
  end.

(** The references of a key array. *)
Fixpoint parse_references (values : list JValue) : result (list text) :=
  match values with
  | [] => Ok []
  | j_string (c :: name) :: rest => references ← parse_references rest; Ok ((c :: name) :: references)
  | _ :: _ => Throw (ConfigError "APIGATE_ROUTES auth requires 1-4 nonempty key references")
  end.

Definition auth_references (settings : JValue) : result (list text) :=
  match member "api_key_env" settings with
  | Some (j_string reference) => Ok [reference]
  | Some _ => Throw (ConfigError "APIGATE_ROUTES auth requires an api_key_env string")
  | None =>
      match member "api_key_envs" settings with
      | Some (j_array values) =>
          _ ← ensure (negb (bool_decide (values = [])) && (length values <=? max_keys)%nat)
                (ConfigError "APIGATE_ROUTES auth requires 1-4 nonempty key references");
          parse_references values
      | _ => Throw (ConfigError "APIGATE_ROUTES auth requires 1-4 nonempty key references")
      end
  end.

(** [configured.digests[configured.key_count++] = digest] *)
Definition add_digest (configured : ApiKeyAuthConfig) (digest : ApiKeyDigest) : ApiKeyAuthConfig :=
  mkApiKeyAuth (<[key_count configured := digest]> (digests configured)) (S (key_count configured)).

(** [getenv] of a reference, whose bytes are a C string. *)
Definition reference_value (reference : text) : option text :=
  environment (String.string_of_list_ascii reference).

Fixpoint configure_keys (references : list text) (unique : gset text) (configured : ApiKeyAuthConfig)
    : result ApiKeyAuthConfig :=
  match references with
  | [] => Ok configured
  | reference :: rest =>
      _ ← ensure (valid_api_key_reference reference)
            (ConfigError "APIGATE_ROUTES auth key reference is invalid");
      _ ← ensure (negb (bool_decide (reference ∈ unique)))
            (ConfigError "authentication key configuration contains duplicates");
      match reference_value reference with
      | Some key_value =>
          _ ← ensure (valid_api_key key_value)
                (ConfigError "referenced authentication key is missing or invalid");
          digest ← match hash_api_key evp_digest key_value with
                   | Ok digest => Ok digest
                   | Throw _ => Throw (ConfigError "authentication key configuration failed")
                   end;
          _ ← ensure (negb (matches_api_key_digest configured digest))
                (ConfigError "authentication key configuration contains duplicates");
          configure_keys rest ({[reference]} ∪ unique) (add_digest configured digest)
      | None => Throw (ConfigError "referenced authentication key is missing or invalid")
      end
  end.

Definition parse_auth (entry : JValue) : result (option ApiKeyAuthConfig) :=
  match member "auth" entry with
  | None => Ok None
  | Some settings =>
      _ ← ensure (is_object settings && (length (item_keys settings) =? 1)%nat &&
                  (contains "api_key_env" settings || contains "api_key_envs" settings))
            (ConfigError "APIGATE_ROUTES auth requires exactly one key reference field");
      references ← auth_references settings;
      configured ← configure_keys references ∅ default_ApiKeyAuthConfig;
      Ok (Some configured)
  end.

(** One entry of the table, given the prefixes seen before. *)
Definition parse_entry (prefixes : gset text) (entry : JValue) : result (gset text * RouteConfig) :=
  _ ← ensure (is_object entry && contains "prefix" entry)
        (ConfigError "APIGATE_ROUTES entry requires prefix and an upstream configuration");
  _ ← ensure (allowed_keys route_fields entry)
        (ConfigError "APIGATE_ROUTES entry contains an unknown field");
  match member "prefix" entry with
  | Some (j_string prefix) =>
      _ ← validate_route_prefix prefix;
      _ ← ensure (negb (bool_decide (prefix ∈ prefixes)))
            (ConfigError "APIGATE_ROUTES contains a duplicate prefix");
      upstreams ← parse_upstreams entry;
      strip ← parse_flag "strip_prefix" "APIGATE_ROUTES strip_prefix must be a boolean" entry;
      rate_limit ← parse_rate_limit entry;
      health_check ← parse_health_check entry;
      auth ← parse_auth entry;
      streaming ← parse_flag "stream_response" "APIGATE_ROUTES stream_response must be a boolean" entry;
      Ok ({[prefix]} ∪ prefixes, mkRoute prefix upstreams strip rate_limit health_check auth streaming)
  | _ => Throw (ConfigError "APIGATE_ROUTES prefix must be a string")
  end.

Fixpoint parse_entries (prefixes : gset text) (entries : list JValue) : result (list RouteConfig) :=
  match entries with
  | [] => Ok []
  | entry :: rest =>
      parsed ← parse_entry prefixes entry;
      routes ← parse_entries parsed.1 rest;
      Ok (parsed.2 :: routes)
  end.

(** [Json::parse(value, callback)] in its [try] block: a [ConfigError] of the callback
    passes through. *)
Definition parse_document (value : text) : result JValue :=
  _ ← scan initial_scan (json_events value);
  match json_document value with
  | Some document => Ok document
  | None => Throw (ConfigError "APIGATE_ROUTES must contain valid JSON")
  end.

Definition parse_routes (value : text) : result (list RouteConfig) :=
  _ ← ensure (Z.of_nat (length value) <=? 64 * 1024)
        (ConfigError "APIGATE_ROUTES must not exceed 65536 bytes");
  document ← parse_document value;
  match document with
  | j_array entries =>
      _ ← ensure (negb (bool_decide (entries = [])) && (length entries <=? 32)%nat)
            (ConfigError "APIGATE_ROUTES must contain 1-32 route objects");
      parse_entries ∅ entries
  | _ => Throw (ConfigError "APIGATE_ROUTES must contain 1-32 route objects")
  end.

End Routes.

(** ** What a valid table satisfies *)

Definition upstream_valid (make_address : text -> option text) (u : UpstreamConfig) : Prop :=
  ((exists value, make_address value = Some (host u)) \/ valid_hostname (host u)) /\
  1 <= port u <= 65535 /\ 1 <= timeout_ms u <= 60000.

Definition rate_limit_valid (c : RateLimitConfig) : Prop :=
  1 <= requests_per_second c <= 1000000 /\ 1 <= burst c <= 1000000.

Definition health_check_valid (c : HealthCheckConfig) : Prop :=
  (exists rest, hc_path c = "/"%char :: rest) /\
  Forall (fun ch => path_character_bad ch = false) (hc_path c) /\
  100 <= hc_interval_ms c <= 60000 /\ 50 <= hc_timeout_ms c <= hc_interval_ms c /\
  1 <= unhealthy_threshold c <= 10 /\ 1 <= healthy_threshold c <= 10.

(** Between one and four distinct digests, each that of a valid key of the environment. *)
Definition auth_valid (evp_digest : text -> option ApiKeyDigest) (environment : Environment)
    (c : ApiKeyAuthConfig) : Prop :=
  (1 <= key_count c <= 4)%nat /\ length (digests c) = 4%nat /\
  NoDup (take (key_count c) (digests c)) /\
  Forall (fun digest => exists name key, environment name = Some key /\ valid_api_key key = true /\
                        evp_digest key = Some digest) (take (key_count c) (digests c)).

Definition route_valid (make_address : text -> option text)
    (evp_digest : text -> option ApiKeyDigest) (environment : Environment) (r : RouteConfig) : Prop :=
  valid_prefix (rt_prefix r) /\ (1 <= length (upstreams r) <= 16)%nat /\
  Forall (upstream_valid make_address) (upstreams r) /\
  (forall c, rate_limit r = Some c -> rate_limit_valid c) /\
  (forall c, health_check r = Some c -> health_check_valid c) /\
  (forall c, auth r = Some c -> auth_valid evp_digest environment c).

Definition table_valid (make_address : text -> option text)
    (evp_digest : text -> option ApiKeyDigest) (environment : Environment) (rs : list RouteConfig) : Prop :=
  (1 <= length rs <= 32)%nat /\ NoDup (rt_prefix <$> rs) /\
  Forall (route_valid make_address evp_digest environment) rs.

(** Undo the binds of a successful parse. *)
Ltac invert_ok :=
  repeat match goal with
  | H : (_ ≫= _) = Ok _ |- _ => apply bind_Ok in H as (? & ? & H)
  | H : ensure _ _ = Ok _ |- _ => apply ensure_Ok in H
  | H : Ok _ = Ok _ |- _ => injection H as H
  | H : Throw _ = Ok _ |- _ => discriminate H
  end.

Lemma route_integer_spec v maximum n :
  route_integer v maximum = Ok n -> (forall k, v = j_unsigned k -> 0 <= k) -> 1 <= n <= maximum.
Proof.
  unfold route_integer. intros H Hu. destruct v; try done.
  - destruct (_ || _) eqn:E; [done|]. injection H as <-. reflect_bools. specialize (Hu _ eq_refl). lia.
  - destruct (n0 <? 0) eqn:Neg; [done|]. destruct (_ || _) eqn:E; [done|]. injection H as <-. reflect_bools.
    pose proof (u64_range n0) as Hr. unfold in_u64 in Hr. lia.
Qed.

(** The parser's unsigned numbers are not negative. *)
Fixpoint well_numbered (v : JValue) : Prop :=
  match v with
  | j_unsigned n => 0 <= n
  | j_array l => (fix all l := match l with [] => True | x :: l => well_numbered x /\ all l end) l
  | j_object l => (fix all l := match l with [] => True | x :: l => well_numbered x.2 /\ all l end) l
  | _ => True
  end.

Lemma find_member_numbered key members v :
  well_numbered (j_object members) -> find_member key members = Some v -> well_numbered v.
Proof.
  induction members as [|[k x] members IH]; [done|]. intros [H1 H2]. cbn.
  destruct (text_eqb k key); [by intros [= <-]|]. by apply IH.
Qed.

Lemma member_numbered key entry v : well_numbered entry -> member key entry = Some v -> well_numbered v.
Proof. destruct entry; try done. intros H. by apply find_member_numbered. Qed.

Lemma json_at_member key entry v : json_at key entry = Ok v -> member key entry = Some v.
Proof. unfold json_at. destruct (member key entry); [by intros [= <-]|done]. Qed.

Lemma numbered_unsigned v k : well_numbered v -> v = j_unsigned k -> 0 <= k.
Proof. by intros H ->. Qed.

Lemma u32_range_small n : 0 <= n <= 1000000 -> u32 n = n.
Proof. intros H. apply u32_small. unfold in_u32. lia. Qed.

Lemma existsb_false {A} (p : A -> bool) l : existsb p l = false <-> Forall (fun x => p x = false) l.
Proof.
  induction l as [|x l IH]; cbn; [by split|]. rewrite orb_false_iff, Forall_cons, IH. done.
Qed.

Section RoutesValid.
Variable make_address : text -> option text.
Variable evp_digest : text -> option ApiKeyDigest.
Variable environment : Environment.

Lemma route_host_valid h v :
  route_host make_address h = Ok v -> (exists value, make_address value = Some v) \/ valid_hostname v.
Proof.
  unfold route_host. destruct (bool_decide (h = [])) eqn:E; [done|]. apply bool_decide_eq_false in E.
  unfold parse_upstream_host. destruct (make_address h) as [a|] eqn:A.
  - intros [= <-]. left. by exists h.
  - destruct (validate_dns_hostname h) as [[]|[]] eqn:V; cbn; try done. intros [= <-].
    right. by apply validate_hostname_spec.
Qed.

Lemma parse_timeout_valid entry n :
  well_numbered entry -> parse_timeout entry = Ok n -> 1 <= n <= 60000.
Proof.
  intros Hw. unfold parse_timeout. destruct (member "timeout_ms" entry) as [t|] eqn:T; [|intros [= <-]; lia].
  destruct (route_integer t 60000) as [k|] eqn:R; [|done]. intros [= <-].
  apply route_integer_spec in R; [rewrite u32_range_small; lia|].
  intros j. apply numbered_unsigned. by eapply member_numbered.
Qed.

Lemma parse_route_upstream_valid entry u :
  well_numbered entry -> parse_route_upstream make_address entry = Ok u -> upstream_valid make_address u.
Proof.
  intros Hw. unfold parse_route_upstream.
  destruct (is_object entry && contains "host" entry && contains "port" entry); [|done].
  destruct (member "host" entry) as [[]|]; try done. intros H. invert_ok. subst u. unfold upstream_valid. cbn.
  assert (Hp : 1 <= x1 <= 65535).
  { eapply route_integer_spec; [done|]. intros k. apply numbered_unsigned.
    eapply member_numbered; [exact Hw|]. by apply json_at_member. }
  split_and!; [by eapply route_host_valid|..].
  1,2: rewrite u16_small by (unfold in_u16; lia); lia.
  all: by eapply parse_timeout_valid.
Qed.

Lemma parse_pool_valid pool us :
  well_numbered (j_array pool) -> parse_pool make_address pool = Ok us ->
  length us = length pool /\ Forall (upstream_valid make_address) us.
Proof.
  revert us. induction pool as [|b pool IH]; intros us Hw H; cbn [parse_pool] in H.
  - injection H as <-. done.
  - destruct Hw as [Hb Hw]. invert_ok. subst us. destruct (IH _ Hw ltac:(eassumption)) as [Hl Hv].
    split; [cbn; lia|]. constructor; [by eapply parse_route_upstream_valid|done].
Qed.

Lemma parse_upstreams_valid entry us :
  well_numbered entry -> parse_upstreams make_address entry = Ok us ->
  (1 <= length us <= 16)%nat /\ Forall (upstream_valid make_address) us.
Proof.
  intros Hw. unfold parse_upstreams. destruct (member "upstreams" entry) as [pool|] eqn:M.
  - intros H. invert_ok. destruct pool; try done. invert_ok. reflect_bools.
    apply parse_pool_valid in H as [-> Hv]; [|by eapply member_numbered].
    split; [|done]. apply bool_decide_eq_false in H1. destruct elements; [done|cbn in *; lia].
  - intros H. invert_ok. subst us. split; [cbn; lia|]. constructor; [|constructor].
    by eapply parse_route_upstream_valid.
Qed.

Lemma parse_rate_limit_valid entry c :
  well_numbered entry -> parse_rate_limit entry = Ok (Some c) -> rate_limit_valid c.
Proof.
  intros Hw. unfold parse_rate_limit. destruct (member "rate_limit" entry) as [limit|] eqn:M; [|done].
  intros H. invert_ok. subst c. unfold rate_limit_valid. cbn.
  pose proof (member_numbered _ _ _ Hw M) as Hl.
  assert (Hn : forall key v n, json_at key limit = Ok v -> route_integer v 1000000 = Ok n -> 1 <= n <= 1000000).
  { intros key v n Hv Hn. eapply route_integer_spec; [done|]. intros k. apply numbered_unsigned.
    eapply member_numbered; [exact Hl|]. by apply json_at_member. }
  repeat match goal with
  | HI : route_integer _ _ = Ok _ |- _ => eapply Hn in HI; [|by eassumption]
  end.
  rewrite !u32_range_small by lia. done.
Qed.

Lemma health_integer_valid health field d lo hi n :
  well_numbered health -> health_integer health field d lo hi = Ok n ->
  lo <= d <= hi -> 0 <= lo -> hi <= 1000000 -> lo <= n <= hi.
Proof.
  intros Hw. unfold health_integer. intros H Hd Hlo Hhi. invert_ok.
  assert (Hx : 0 <= x <= hi).
  { destruct (member field health) as [v|] eqn:M; [|injection H0 as <-; lia].
    apply route_integer_spec in H0; [lia|]. intros k. apply numbered_unsigned. by eapply member_numbered. }
  destruct (x <? lo) eqn:E; [done|]. injection H as <-. reflect_bools. rewrite u32_range_small; lia.
Qed.

Lemma parse_health_check_valid entry c :
  well_numbered entry -> parse_health_check entry = Ok (Some c) -> health_check_valid c.
Proof.
  intros Hw. unfold parse_health_check. destruct (member "health_check" entry) as [health|] eqn:M; [|done].
  pose proof (member_numbered _ _ _ Hw M) as Hh.
  destruct (is_object health); [|done]. destruct (member "path" health) as [[]|]; try done.
  intros H. invert_ok. subst c. unfold health_check_valid. cbn. reflect_bools.
  repeat match goal with
  | HI : health_integer _ _ _ _ _ = Ok _ |- _ => eapply health_integer_valid in HI; [|done|lia|lia|lia]
  | HB : bool_decide (_ = _) = true |- _ => apply bool_decide_eq_true in HB
  | HE : existsb path_character_bad _ = false |- _ => apply existsb_false in HE
  end.
  split_and!; try lia; [|done].
  match goal with HB : head s = Some _ |- _ =>
    destruct s as [|ch rest]; [done|]; injection HB as -> end.
  by exists rest.
Qed.

(** What holds of the configuration while the references are read. *)
Definition auth_partial (c : ApiKeyAuthConfig) : Prop :=
  (key_count c <= 4)%nat /\ length (digests c) = 4%nat /\
  NoDup (take (key_count c) (digests c)) /\
  Forall (fun digest => exists name key, environment name = Some key /\ valid_api_key key = true /\
                        evp_digest key = Some digest) (take (key_count c) (digests c)).

Lemma add_digest_partial c digest name key :
  auth_partial c -> (key_count c < 4)%nat -> matches_api_key_digest c digest = false ->
  environment name = Some key -> valid_api_key key = true -> evp_digest key = Some digest ->
  auth_partial (add_digest c digest).
Proof.
  intros (Hk & Hl & Hn & Hf) Hlt Hm He Hv Hd. unfold auth_partial, add_digest. cbn [key_count digests].
  assert (Htake : take (S (key_count c)) (<[key_count c := digest]> (digests c)) =
                  take (key_count c) (digests c) ++ [digest]).
  { rewrite (take_S_r _ _ digest) by (apply list_lookup_insert_eq; lia).
    by rewrite take_insert_ge by lia. }
  rewrite Htake, length_insert. split_and!; [lia|done| |].
  - apply NoDup_app. split; [done|]. split; [|apply NoDup_singleton].
    intros x Hx ->%list_elem_of_singleton. apply not_true_iff_false in Hm. apply Hm.
    apply matches_spec; [lia|done].
  - apply Forall_app. split; [done|]. constructor; [|done]. by exists name, key.
Qed.

Lemma configure_keys_valid references unique c c' :
  auth_partial c -> (key_count c + length references <= 4)%nat ->
  configure_keys evp_digest environment references unique c = Ok c' ->
  auth_partial c' /\ key_count c' = (key_count c + length references)%nat.
Proof.
  revert unique c. induction references as [|reference rest IH]; intros unique c Hp Hlen H; cbn in H, Hlen.
  - injection H as <-. split; [done|]. cbn. lia.
  - invert_ok. destruct (reference_value environment reference) as [key|] eqn:Hr; [|done]. invert_ok.
    reflect_bools. unfold hash_api_key in *.
    destruct (evp_digest key) as [d|] eqn:Hd; [|done]. crush_hyps.
    apply IH in H as [Hp' Hc']; [split; [done|]; cbn in *; lia| |cbn; lia].
    eapply add_digest_partial; eauto. lia.
Qed.

Lemma parse_references_length values references :
  parse_references values = Ok references -> length references = length values.
Proof.
  revert references. induction values as [|v values IH]; intros references H; cbn in H.
  - by injection H as <-.
  - destruct v as [| | | | |[|c s]| |]; try done. invert_ok. subst references. cbn. f_equal. by apply IH.
Qed.

Lemma auth_references_length settings references :
  auth_references settings = Ok references -> (1 <= length references <= 4)%nat.
Proof.
  unfold auth_references. destruct (member "api_key_env" settings) as [[]|]; try done.
  - intros [= <-]. cbn. lia.
  - destruct (member "api_key_envs" settings) as [[]|]; try done. intros H. invert_ok.
    apply parse_references_length in H as ->. reflect_bools.
    match goal with HB : bool_decide _ = false |- _ => apply bool_decide_eq_false in HB end.
    unfold max_keys in *. destruct elements; [done|]. cbn in *. lia.
Qed.

Lemma parse_auth_valid entry c :
  parse_auth evp_digest environment entry = Ok (Some c) -> auth_valid evp_digest environment c.
Proof.
  unfold parse_auth. destruct (member "auth" entry) as [settings|]; [|done]. intros H. invert_ok. subst c.
  match goal with HR : auth_references _ = Ok _ |- _ => apply auth_references_length in HR end.
  match goal with HC : configure_keys _ _ _ _ _ = Ok _ |- _ => apply configure_keys_valid in HC as [Hp Hk] end.
  - destruct Hp as (? & ? & ? & ?). cbn in Hk. split; [lia|done].
  - split_and!; [cbn; lia|done|apply NoDup_nil_2|constructor].
  - cbn. lia.
Qed.

Lemma parse_entry_valid prefixes entry prefixes' r :
  well_numbered entry -> parse_entry make_address evp_digest environment prefixes entry = Ok (prefixes', r) ->
  route_valid make_address evp_digest environment r /\ rt_prefix r ∉ prefixes /\
  prefixes' = {[rt_prefix r]} ∪ prefixes.
Proof.
  intros Hw H. unfold parse_entry in H. invert_ok. destruct (member "prefix" entry) as [[]|]; try done.
  invert_ok. subst. reflect_bools.
  match goal with HB : bool_decide _ = false |- _ => apply bool_decide_eq_false in HB end.
  match goal with HU : parse_upstreams _ _ = Ok _ |- _ => apply parse_upstreams_valid in HU as [? ?]; [|done] end.
  split_and!; [|done|done]. split_and!; cbn; try done; try lia.
  - apply validate_prefix_spec. by match goal with HV : validate_route_prefix _ = Ok ?u |- _ => destruct u end.
  - intros c ->. by eapply parse_rate_limit_valid.
  - intros c ->. by eapply parse_health_check_valid.
  - intros c ->. by eapply parse_auth_valid.
Qed.

Lemma parse_entries_valid entries prefixes rs :
  well_numbered (j_array entries) ->
  parse_entries make_address evp_digest environment prefixes entries = Ok rs ->
  length rs = length entries /\ NoDup (rt_prefix <$> rs) /\
  Forall (fun r => rt_prefix r ∉ prefixes) rs /\
  Forall (route_valid make_address evp_digest environment) rs.
Proof.
  revert prefixes rs. induction entries as [|entry rest IH]; intros prefixes rs Hw H; cbn [parse_entries] in H.
  - injection H as <-. split_and!; [done|apply NoDup_nil_2|constructor..].
  - destruct Hw as [He Hw]. invert_ok. subst rs. destruct x as [prefixes' r].
    match goal with HE : parse_entry _ _ _ _ _ = Ok _ |- _ =>
      apply parse_entry_valid in HE as (Hr & Hnew & ->); [|done] end.
    match goal with HE : parse_entries _ _ _ _ _ = Ok _ |- _ =>
      apply IH in HE as (Hl & Hnd & Hout & Hv); [|done] end.
    cbn. split_and!; [lia| | |by constructor].
    + constructor; [|done]. rewrite list_elem_of_fmap. intros (r' & Heq & Hr').
      rewrite Forall_forall in Hout. specialize (Hout r' Hr'). set_solver.
    + constructor; [done|]. eapply Forall_impl; [exact Hout|]. cbn. set_solver.
Qed.

End RoutesValid.

(** ** Errors: nothing but [ConfigError] escapes *)

Lemma throws_json_at key v : contains key v = true -> throws_config (json_at key v).
Proof. unfold contains, json_at. intros [x ->]%bool_decide_eq_true. done. Qed.

Lemma insert_key_spec s depth name s' :
  insert_key s depth name = Ok s' ->
  2 <= depth <= 4 /\ exists keys, keys_ s !! Z.to_nat (depth - 2) = Some keys /\ name ∉ keys /\
    s' = set_keys s (Z.to_nat (depth - 2)) ({[name]} ∪ keys).
Proof.
  unfold insert_key. destruct ((depth <? 2) || (4 <? depth)) eqn:E; [done|]. reflect_bools. intros Hok.
  apply bind_Ok in Hok as (keys & Hk & Hok). apply vec_at_Ok in Hk.
  destruct (bool_decide (name ∈ keys)) eqn:D; [done|]. apply bool_decide_eq_false in D.
  injection Hok as <-. split; [lia|]. by exists keys.
Qed.

Lemma auth_field_keys s (b b1 b2 : bool) e name s' :
  (if b then if b1 && b2 then Throw e else Ok (with_auth_key s name) else Ok s) = Ok s' -> keys_ s' = keys_ s.
Proof. destruct b, b1, b2; cbn; intros H; by crush_hyps. Qed.

Lemma scan_key_spec s depth name s' :
  scan_key s depth name = Ok s' ->
  2 <= depth <= 4 /\ exists keys, keys_ s !! Z.to_nat (depth - 2) = Some keys /\ name ∉ keys /\
    keys_ s' = <[Z.to_nat (depth - 2) := {[name]} ∪ keys]> (keys_ s).
Proof.
  unfold scan_key. intros H. apply bind_Ok in H as (s1 & H1 & H). apply bind_Ok in H as (s2 & H2 & H).
  apply auth_field_keys in H1 as Hk.
  apply insert_key_spec in H2 as (Hd & keys & Hl & Hn & ->). rewrite Hk in Hl.
  split; [done|]. exists keys. split_and!; [done..|]. destruct (depth =? 2); crush_hyps; cbn; by rewrite Hk.
Qed.

(** The other events only ever clear the set of the object they open. *)
Definition opens (depth : Z) (e : json_event) (i : nat) : bool :=
  match e with object_start => depth =? Z.of_nat i + 1 | _ => false end.

Lemma scan_event_spec s depth e s' :
  scan_event s (depth, e) = Ok s' -> (forall name, e <> key_event name) ->
  length (keys_ s') = length (keys_ s) /\
  (forall i, opens depth e i = false -> keys_ s' !! i = keys_ s !! i) /\
  (e = object_start -> 1 <= depth <= 3 /\ keys_ s' = <[Z.to_nat (depth - 1) := ∅]> (keys_ s)).
Proof.
  intros H Hk. unfold scan_event in H. cbn [fst snd] in H.
  destruct e as [| | | |name|v]; [|by crush_hyps| |by crush_hyps|by edestruct Hk|].
  - unfold scan_object_start in H.
    assert (Hi : exists i, (i < 3)%nat /\ depth = Z.of_nat i + 1 /\ keys_ s' = <[i := ∅]> (keys_ s)).
    { destruct (depth =? 1) eqn:D1; reflect_bools.
      { destruct (_ <? object_count s + 1); crush_hyps. exists 0%nat. split_and!; [lia..|done]. }
      destruct ((depth =? 2) && _) eqn:D2; reflect_bools; [crush_hyps; exists 1%nat; split_and!; [lia..|done]|].
      destruct ((depth =? 3) && _ && _) eqn:D3; reflect_bools; [|done].
      destruct (_ <? upstream_count s + 1); crush_hyps. exists 2%nat. split_and!; [lia..|done]. }
    destruct Hi as (i & Hi & -> & ->). replace (Z.to_nat (Z.of_nat i + 1 - 1)) with i by lia.
    split_and!; [by rewrite length_insert|..]; [|intros _; split; [lia|done]].
    intros j Hj. cbn in Hj. apply list_lookup_insert_ne. apply Z.eqb_neq in Hj. lia.
  - unfold scan_array_start in H. destruct (depth =? 0); [by crush_hyps|].
    destruct (_ =? 2), (_ =? 3), (key_is _ _), (key_is _ _), (key_is _ _); cbn in H; by crush_hyps.
  - unfold scan_value in H. destruct ((_ =? 4) && _); [|by crush_hyps].
    destruct v as [| | | | |[]| |]; try done. cbv zeta in H. destruct (_ <? reference_count s + 1); by crush_hyps.
Qed.

Lemma scan_event_keys s e s' : scan_event s e = Ok s' -> length (keys_ s) = 3%nat -> length (keys_ s') = 3%nat.
Proof.
  destruct e as [d e]. intros H Hl.
  destruct e as [| | | |name|v]; try (apply scan_event_spec in H as [-> _]; done).
  apply scan_key_spec in H as (_ & keys & _ & _ & ->). by rewrite length_insert.
Qed.

Lemma insert_key_throws s depth name : length (keys_ s) = 3%nat -> throws_config (insert_key s depth name).
Proof.
  intros Hl. unfold insert_key. destruct ((depth <? 2) || (4 <? depth)) eqn:E; [apply throws_Throw|]. reflect_bools.
  destruct (vec_at_lt (keys_ s) (Z.to_nat (depth - 2))) as [keys ->]; [lia|]. cbn. throws.
Qed.

Lemma scan_event_throws s e : length (keys_ s) = 3%nat -> throws_config (scan_event s e).
Proof.
  intros Hl. destruct e as [d []]; unfold scan_event; cbn [fst snd]; try apply throws_Ok;
    unfold scan_array_start, scan_value, scan_object_start, scan_key; throws.
  match goal with HS : _ = Ok _ |- _ => apply auth_field_keys in HS end. apply insert_key_throws. congruence.
Qed.

Lemma scan_throws events s : length (keys_ s) = 3%nat -> throws_config (scan s events).
Proof.
  revert s. induction events as [|e events IH]; intros s Hl; [done|]. cbn [scan].
  apply throws_bind; [by apply scan_event_throws|]. intros s' Hs'. eapply IH, scan_event_keys; eauto.
Qed.

Section RoutesThrow.
Variable make_address : text -> option text.
Variable evp_digest : text -> option ApiKeyDigest.
Variable environment : Environment.

Lemma route_integer_throws v maximum : throws_config (route_integer v maximum).
Proof. unfold route_integer. throws. Qed.

Lemma hostname_throws h : throws_config (validate_dns_hostname h).
Proof.
  unfold validate_dns_hostname, hostname_error. destruct (_ || _); [apply throws_Throw|].
  generalize 0%nat, false, "000"%char. induction h as [|c h IH]; intros n hyphen previous; cbn; throws; apply IH.
Qed.

Lemma prefix_throws p : throws_config (validate_route_prefix p).
Proof.
  unfold validate_route_prefix. destruct (_ || _); [apply throws_Throw|]. destruct (text_eqb _ _); [done|].
  generalize (drop 1 p). induction (length p) as [|n IH]; intros rest; cbn; [done|]. cbv zeta.
  throws. apply IH.
Qed.

Lemma route_host_throws h : throws_config (route_host make_address h).
Proof.
  assert (Hv := hostname_throws h). unfold route_host, parse_upstream_host.
  destruct (bool_decide _); [apply throws_Throw|]. destruct (make_address h); [done|].
  destruct (validate_dns_hostname h) as [|e]; [done|]. destruct Hv as [w ->]. cbn. eauto.
Qed.

Lemma parse_route_upstream_throws entry : throws_config (parse_route_upstream make_address entry).
Proof.
  unfold parse_route_upstream, parse_timeout, parse_scheme.
  destruct (is_object entry && _ && _) eqn:E; [|apply throws_Throw]. reflect_bools.
  destruct (member "host" entry) as [[]|]; throws;
    auto using route_host_throws, throws_json_at, route_integer_throws.
Qed.

Lemma parse_pool_throws pool : throws_config (parse_pool make_address pool).
Proof.
  induction pool as [|b pool IH]; cbn [parse_pool]; throws; auto using parse_route_upstream_throws.
Qed.

Lemma parse_rate_limit_throws entry : throws_config (parse_rate_limit entry).
Proof.
  unfold parse_rate_limit. destruct (member "rate_limit" entry) as [limit|]; [|done].
  apply throws_bind; [apply throws_ensure|]. intros [] H. apply ensure_Ok in H. reflect_bools. throws;
    auto using throws_json_at, route_integer_throws.
Qed.

Lemma parse_health_check_throws entry : throws_config (parse_health_check entry).
Proof. unfold parse_health_check, health_integer. throws; auto using route_integer_throws. Qed.

Lemma configure_keys_throws references unique c :
  throws_config (configure_keys evp_digest environment references unique c).
Proof.
  revert unique c. induction references as [|r rest IH]; intros unique c; cbn [configure_keys]; throws. apply IH.
Qed.

Lemma parse_references_throws values : throws_config (parse_references values).
Proof. induction values as [|v values IH]; cbn; throws. all: done. Qed.

Lemma parse_auth_throws entry : throws_config (parse_auth evp_digest environment entry).
Proof.
  unfold parse_auth, auth_references. throws; auto using parse_references_throws, configure_keys_throws.
Qed.

Lemma parse_entry_throws prefixes entry :
  throws_config (parse_entry make_address evp_digest environment prefixes entry).
Proof.
  unfold parse_entry, parse_upstreams, parse_flag. throws;
    auto using prefix_throws, parse_pool_throws, parse_route_upstream_throws, parse_rate_limit_throws,
      parse_health_check_throws, parse_auth_throws.
Qed.

Lemma parse_entries_throws prefixes entries :
  throws_config (parse_entries make_address evp_digest environment prefixes entries).
Proof.
  revert prefixes. induction entries as [|e entries IH]; intros prefixes; cbn [parse_entries]; throws.
  - apply parse_entry_throws.
  - apply IH.
Qed.

Lemma parse_routes_throws json_events json_document value :
  throws_config (parse_routes make_address evp_digest environment json_events json_document value).
Proof.
  unfold parse_routes, parse_document. throws; auto using parse_entries_throws. by apply scan_throws.
Qed.

End RoutesThrow.

Lemma parse_routes_table make_address evp_digest environment json_events json_document value rs :
  (forall document, json_document value = Some document -> well_numbered document) ->
  parse_routes make_address evp_digest environment json_events json_document value = Ok rs ->
  table_valid make_address evp_digest environment rs.
Proof.
  intros Hw H.
  unfold parse_routes, parse_document in H. invert_ok. destruct x0 as [| | | | | |entries|]; try done. invert_ok.
  destruct (json_document value) as [document|]; [|done]. crush_hyps.
  apply parse_entries_valid in H as (Hl & Hn & _ & Hv); [|by apply Hw]. reflect_bools.
  match goal with HB : bool_decide _ = false |- _ => apply bool_decide_eq_false in HB end.
  split; [|done]. rewrite Hl. destruct entries; [done|]. cbn in *. lia.
Qed.

(** C34: the route table is parsed or refused: whatever the text, [parse_routes] returns a
    table that satisfies every bound of the configuration (1 to 32 routes with distinct,
    well-formed prefixes; 1 to 16 upstreams per route, each with a host that is an address
    or a DNS name, a port and a timeout in range; rate limits, health checks and
    authentication settings in range, the digests being those of distinct valid keys of the
    environment), or throws [ConfigError] and nothing else.  The JSON library reports an
    unsigned number only for a number that is not negative. *)
Theorem parse_routes_valid make_address evp_digest environment json_events json_document value :
  (forall document, json_document value = Some document -> well_numbered document) ->
  match parse_routes make_address evp_digest environment json_events json_document value with
  | Ok rs => table_valid make_address evp_digest environment rs
  | Throw e => exists what, e = ConfigError what
  end.
Proof.
  intros Hw. pose proof (parse_routes_throws make_address evp_digest environment json_events json_document value) as Ht.
  destruct (parse_routes _ _ _ _ _ _) as [rs|e] eqn:H; [|exact Ht]. by eapply parse_routes_table.
Qed.

(** ** What the callback establishes

    The JSON library keeps the last of several members of the same name; the callback is
    what rules such documents out.  [events_of] is the depth the library reports: that of
    the values enclosing an event, with the members and elements of a value one deeper. *)

Inductive syntax :=
  | syntax_value (v : JValue)
  | syntax_array (elements : list syntax)
  | syntax_object (members : list (text * syntax)).

Fixpoint events_of (depth : nat) (t : syntax) : list (Z * json_event) :=
  match t with
  | syntax_value v => [(Z.of_nat depth, value_event v)]
  | syntax_array elements =>
      (Z.of_nat depth, array_start)
      :: (fix all l := match l with [] => [] | x :: l => events_of (S depth) x ++ all l end) elements
      ++ [(Z.of_nat depth, array_end)]
  | syntax_object members =>
      (Z.of_nat depth, object_start)
      :: (fix all l := match l with
                       | [] => []
                       | (k, x) :: l => (Z.of_nat (S depth), key_event k) :: events_of (S depth) x ++ all l
                       end) members
      ++ [(Z.of_nat depth, object_end)]
  end.

Fixpoint elements_events (depth : nat) (l : list syntax) : list (Z * json_event) :=
  match l with [] => [] | x :: l => events_of depth x ++ elements_events depth l end.
Fixpoint members_events (depth : nat) (l : list (text * syntax)) : list (Z * json_event) :=
  match l with
  | [] => []
  | m :: l => (Z.of_nat depth, key_event m.1) :: events_of depth m.2 ++ members_events depth l
  end.

(** No object has two members of one name, and containers nest at most [n] deep. *)
Fixpoint unambiguous (n : nat) (t : syntax) : Prop :=
  match t, n with
  | syntax_value _, _ => True
  | syntax_array _, O | syntax_object _, O => False
  | syntax_array elements, S n =>
      (fix all l := match l with [] => True | x :: l => unambiguous n x /\ all l end) elements
  | syntax_object members, S n =>
      NoDup members.*1 /\
      (fix all l := match l with [] => True | x :: l => unambiguous n x.2 /\ all l end) members
  end.

Lemma syntax_induction (P : syntax -> Prop) :
  (forall v, P (syntax_value v)) ->
  (forall l, Forall P l -> P (syntax_array l)) ->
  (forall l, Forall (fun m => P m.2) l -> P (syntax_object l)) ->
  forall t, P t.
Proof.
  intros Hv Ha Ho. fix IH 1. intros [v|l|l]; [apply Hv|apply Ha|apply Ho].
  - induction l as [|x l IHl]; constructor; [apply IH|exact IHl].
  - induction l as [|x l IHl]; constructor; [apply IH|exact IHl].
Qed.

Lemma events_array depth l :
  events_of depth (syntax_array l) =
  (Z.of_nat depth, array_start) :: elements_events (S depth) l ++ [(Z.of_nat depth, array_end)].
Proof. cbn [events_of]. do 2 f_equal. induction l as [|x l IH]; [done|]. cbn. by rewrite IH. Qed.

Lemma events_object depth l :
  events_of depth (syntax_object l) =
  (Z.of_nat depth, object_start) :: members_events (S depth) l ++ [(Z.of_nat depth, object_end)].
Proof. cbn [events_of]. do 2 f_equal. induction l as [|[k x] l IH]; [done|]. cbn. by rewrite IH. Qed.

Lemma unambiguous_array n l : Forall (unambiguous n) l -> unambiguous (S n) (syntax_array l).
Proof. cbn. by induction 1. Qed.

Lemma unambiguous_object n l :
  NoDup l.*1 -> Forall (fun m => unambiguous n m.2) l -> unambiguous (S n) (syntax_object l).
Proof. cbn. intros Hn Hf. split; [done|]. clear Hn. by induction Hf. Qed.

Lemma scan_app s events1 events2 s' :
  scan s (events1 ++ events2) = Ok s' <-> exists m, scan s events1 = Ok m /\ scan m events2 = Ok s'.
Proof.
  revert s. induction events1 as [|e events1 IH]; intros s; cbn [app scan].
  - split; [by exists s|]. by intros (m & [= <-] & H).
  - rewrite bind_Ok. setoid_rewrite IH. setoid_rewrite bind_Ok. naive_solver.
Qed.

(** The sets of the objects that enclose a value at [depth] are left alone by it. *)
Definition keeps (depth : nat) (s s' : ScanState) : Prop :=
  length (keys_ s') = length (keys_ s) /\ forall i, (S i < depth)%nat -> keys_ s' !! i = keys_ s !! i.

Lemma keeps_weaken depth depth' s s' : (depth <= depth')%nat -> keeps depth' s s' -> keeps depth s s'.
Proof. intros Hd [L K]. split; [done|]. intros i Hi. apply K. lia. Qed.

Lemma keeps_trans depth s1 s2 s3 : keeps depth s1 s2 -> keeps depth s2 s3 -> keeps depth s1 s3.
Proof. intros [L1 K1] [L2 K2]. split; [congruence|]. intros i Hi. by rewrite K2, K1. Qed.

Lemma array_depth s depth s' : scan_event s (Z.of_nat depth, array_start) = Ok s' -> (depth <= 3)%nat.
Proof.
  unfold scan_event, scan_array_start. cbn [fst snd]. intros H.
  destruct (Z.of_nat depth =? 0) eqn:D0; reflect_bools; [lia|].
  destruct (Z.of_nat depth =? 2) eqn:D2; reflect_bools; [lia|].
  destruct (Z.of_nat depth =? 3) eqn:D3; reflect_bools; [lia|]. done.
Qed.

Lemma event_keeps depth e s s' :
  scan_event s (Z.of_nat depth, e) = Ok s' -> (forall name, e <> key_event name) -> keeps depth s s'.
Proof.
  intros H Hk. apply scan_event_spec in H as (Hl & Hf & _); [|done]. split; [done|]. intros i Hi.
  apply Hf. destruct e; try done. cbn. apply Z.eqb_neq. lia.
Qed.

(** What an accepted value at [depth] satisfies. *)
Definition accepted (depth : nat) (t : syntax) : Prop :=
  forall s s', scan s (events_of depth t) = Ok s' ->
  length (keys_ s) = 3%nat -> keeps depth s s' /\ unambiguous (4 - depth) t.

Lemma elements_accepted depth l s s' :
  Forall (accepted depth) l -> scan s (elements_events depth l) = Ok s' -> length (keys_ s) = 3%nat ->
  keeps depth s s' /\ Forall (unambiguous (4 - depth)) l.
Proof.
  intros Hl. revert s. induction Hl as [|x l Hx Hl IH]; intros s H Hk; cbn [elements_events] in H.
  - injection H as <-. by repeat split.
  - apply scan_app in H as (m & H1 & H2). destruct (Hx _ _ H1 Hk) as [K1 U1].
    assert (Hm : length (keys_ m) = 3%nat) by (destruct K1; congruence).
    destruct (IH _ H2 Hm) as [K2 U2]. split; [by eapply keeps_trans|by constructor].
Qed.

(** The members of an object: the set of its level grows by their names. *)
Lemma members_accepted o l s s' keys :
  Forall (fun m => accepted (S (S o)) m.2) l ->
  scan s (members_events (S (S o)) l) = Ok s' -> length (keys_ s) = 3%nat -> keys_ s !! o = Some keys ->
  keeps (S o) s s' /\ NoDup l.*1 /\ Forall (fun m => m.1 ∉ keys) l /\
  Forall (fun m => unambiguous (4 - S (S o)) m.2) l.
Proof.
  intros Hl. revert s keys. induction Hl as [|[k x] l Hx Hl IH]; intros s keys H Hk Ho; cbn [members_events] in H.
  - injection H as <-. split_and!; [by repeat split|apply NoDup_nil_2|constructor..].
  - cbn [scan fst snd] in H. apply bind_Ok in H as (s1 & H1 & H). apply scan_app in H as (m & H2 & H3).
    apply scan_key_spec in H1 as (_ & keys' & Hkeys & Hnew & Hs1).
    cbn [fst] in Hkeys, Hs1. replace (Z.to_nat (Z.of_nat (S (S o)) - 2)) with o in * by lia.
    rewrite Ho in Hkeys. injection Hkeys as <-.
    assert (Hl1 : length (keys_ s1) = 3%nat) by (by rewrite Hs1, length_insert).
    destruct (Hx _ _ H2 Hl1) as [K1 U1].
    assert (Hm : keys_ m !! o = Some ({[k]} ∪ keys)).
    { rewrite (proj2 K1) by lia. rewrite Hs1. apply list_lookup_insert_eq. apply lookup_lt_Some in Ho. lia. }
    destruct (IH _ _ H3 ltac:(destruct K1; congruence) Hm) as (K2 & Hn & Hout & U2).
    split_and!; [|cbn; constructor; [|done]| |by constructor].
    + destruct K1 as [L1 K1], K2 as [L2 K2]. split; [congruence|]. intros i Hi.
      rewrite K2, K1, Hs1 by lia. apply list_lookup_insert_ne. lia.
    + intros ((k' & x') & Hk' & Hin)%list_elem_of_fmap. cbn in Hk'. subst k'.
      rewrite Forall_forall in Hout. specialize (Hout _ Hin). cbn in Hout. set_solver.
    + constructor; [done|]. eapply Forall_impl; [exact Hout|]. cbn. set_solver.
Qed.

Lemma syntax_accepted t depth : accepted depth t.
Proof.
  revert depth. induction t as [v|l IH|l IH] using syntax_induction; intros depth s s' H Hk.
  - cbn [events_of scan] in H. apply bind_Ok in H as (s1 & H1 & [= <-]).
    split; [by eapply event_keeps|]. by destruct (4 - depth)%nat.
  - rewrite events_array in H. cbn [scan] in H. apply bind_Ok in H as (s1 & H1 & H).
    apply scan_app in H as (s2 & H2 & H3). cbn [scan] in H3. apply bind_Ok in H3 as (s3 & H3 & [= <-]).
    pose proof (event_keeps _ _ _ _ H1 ltac:(done)) as K1. pose proof (event_keeps _ _ _ _ H3 ltac:(done)) as K3.
    apply array_depth in H1.
    apply elements_accepted in H2 as [K2 U]; [|eapply Forall_impl; [exact IH|]; intros x Hx; apply Hx|
                                              destruct K1; congruence].
    split; [by eapply keeps_trans, keeps_trans; [|eapply keeps_weaken, K2; lia|]|].
    replace (4 - depth)%nat with (S (4 - S depth)) by lia. by apply unambiguous_array.
  - rewrite events_object in H. cbn [scan] in H. apply bind_Ok in H as (s1 & H1 & H).
    apply scan_app in H as (s2 & H2 & H3). cbn [scan] in H3. apply bind_Ok in H3 as (s3 & H3 & [= <-]).
    pose proof (event_keeps _ _ _ _ H1 ltac:(done)) as K1. pose proof (event_keeps _ _ _ _ H3 ltac:(done)) as K3.
    apply scan_event_spec in H1 as (_ & _ & Hopen); [|done]. destruct (Hopen eq_refl) as [Hd Hset].
    destruct depth as [|o]; [lia|]. replace (Z.to_nat (Z.of_nat (S o) - 1)) with o in Hset by lia.
    eapply members_accepted in H2 as (K2 & Hn & _ & U);
      [|eapply Forall_impl; [exact IH|]; intros x Hx; apply Hx|by rewrite Hset, length_insert|
        rewrite Hset; apply list_lookup_insert_eq; lia].
    split; [by eapply keeps_trans, keeps_trans; [|exact K2|]|].
    replace (4 - S o)%nat with (S (4 - S (S o))) by lia. by apply unambiguous_object.
Qed.

(** C35: a route table whose text has, in any object, two members of the same name, or
    containers nested more than four deep, is refused: what the JSON library would silently
    resolve to the last member never reaches the validation of the document. *)
Theorem accepted_routes_unambiguous make_address evp_digest environment json_events json_document value t rs :
  json_events value = events_of 0 t ->
  parse_routes make_address evp_digest environment json_events json_document value = Ok rs ->
  unambiguous 4 t.
Proof.
  intros He H. unfold parse_routes, parse_document in H. invert_ok.
  match goal with HS : scan _ _ = Ok _ |- _ => rewrite He in HS; by apply syntax_accepted in HS as [_ U] end.
Qed.

(** ** A concrete table *)

Definition sample_members : list (text * JValue) :=
  [(L "prefix", j_string (L "/api")); (L "host", j_string (L "backend.internal")); (L "port", j_unsigned 9000);
   (L "rate_limit", j_object [(L "requests_per_second", j_unsigned 50); (L "burst", j_unsigned 100)])].
Definition sample_document : JValue := j_array [j_object sample_members].
Definition sample_syntax : syntax :=
  syntax_array [syntax_object
    [(L "prefix", syntax_value (j_string (L "/api"))); (L "host", syntax_value (j_string (L "backend.internal")));
     (L "port", syntax_value (j_unsigned 9000));
     (L "rate_limit", syntax_object [(L "requests_per_second", syntax_value (j_unsigned 50));
                                     (L "burst", syntax_value (j_unsigned 100))])]].
Definition sample_routes : list RouteConfig :=
  [mkRoute (L "/api") [mkUpstream (L "backend.internal") 9000 3000 http] false (Some (mkRateLimit 50 100))
     None None false].
Definition sample_parse (value : text) : result (list RouteConfig) :=
  parse_routes (fun _ => None) (fun _ => None) (fun _ => None) (fun _ => events_of 0 sample_syntax)
    (fun _ => Some sample_document) value.

Lemma parse_routes_valid_witness :
  sample_parse (L "[...]") = Ok sample_routes /\
  match sample_parse (L "[...]") with
  | Ok rs => table_valid (fun _ => None) (fun _ => None) (fun _ => None) rs
  | Throw e => exists what, e = ConfigError what
  end.
Proof.
  split; [by vm_compute|].
  apply (parse_routes_valid (fun _ => None) (fun _ => None) (fun _ => None) (fun _ => events_of 0 sample_syntax)
           (fun _ => Some sample_document) (L "[...]")).
  intros document [= <-]. cbn. repeat split; lia.
Defined.

Lemma accepted_routes_unambiguous_witness :
  sample_parse (L "[...]") = Ok sample_routes /\ unambiguous 4 sample_syntax.
Proof.
  split; [by vm_compute|].
  apply (accepted_routes_unambiguous (fun _ => None) (fun _ => None) (fun _ => None)
           (fun _ => events_of 0 sample_syntax) (fun _ => Some sample_document) (L "[...]") _ sample_routes).
  - reflexivity.
  - by vm_compute.
Defined.
