(* ===== verification/Tls.v ===== *)
(** * TLS contexts (src/downstream_tls.cpp, src/upstream_tls.cpp, src/upstream_tls.hpp)

    ALPN selection reads the client's protocol list from a raw buffer; the two context
    constructors configure an OpenSSL context step by step.  What OpenSSL and the file
    system answer is a parameter; the settings of a context are recorded in
    [TlsContext]. *)

From S2P Require Import Prelude Text ConfigTypes.

Local Open Scope Z_scope.

(** ** ALPN selection *)

Inductive alpn_result :=
  | TLSEXT_ERR_OK (output output_length : Z)
  | TLSEXT_ERR_ALERT_FATAL.

(** A read at an index of the input, [None] beyond it. *)
Definition read_byte (input : text) (i : Z) : option Z :=
  c ← input !! Z.to_nat i; Some (Z.of_N (char_code c)).

(** [memcmp(input + offset, expected, size) == 0], [None] when it would read beyond. *)
Definition memcmp_equal (input : text) (offset : Z) (expected : text) : option bool :=
  let bytes := take (length expected) (drop (Z.to_nat offset) input) in
  if (length bytes =? length expected)%nat then Some (text_eqb bytes expected) else None.

(** The loop; [None] is a read outside the buffer, or no fuel. *)
Fixpoint alpn_loop (fuel : nat) (input : text) (input_length offset : Z) : option alpn_result :=
  match fuel with
  | O => None
  | S fuel =>
      if offset <? input_length then
        len ← read_byte input offset;
        let offset := u32 (offset + 1) in
        if (len =? 0) || (u32 (input_length - offset) <? len) then Some TLSEXT_ERR_ALERT_FATAL
        else
          found ← (if len =? 8 then memcmp_equal input offset (L "http/1.1") else Some false);
          if (found : bool) then Some (TLSEXT_ERR_OK offset len)
          else alpn_loop fuel input input_length (u32 (offset + len))
      else Some TLSEXT_ERR_ALERT_FATAL
  end.

Definition select_http11 (input : text) : option alpn_result :=
  alpn_loop (S (length input)) input (Z.of_nat (length input)) 0.

(** ** Contexts *)

Inductive VerifyMode := verify_none | verify_peer.
Inductive AlpnPolicy := alpn_unset | alpn_select_http11 | alpn_offer (protocols : text).

Definition TLS1_2_VERSION : Z := 771.

Record TlsContext := mkTlsContext {
  min_proto_version : option Z;
  max_early_data : option Z;
  no_renegotiation : bool;
  alpn : AlpnPolicy;
  session_cache_off : bool;
  verify_mode : VerifyMode;
  password_callback : bool;
  certificate_chain : option text;
  private_key : option text;
  verify_files : list text }.

(** A fresh context has an empty trust store and verifies nothing. *)
Definition new_context : TlsContext :=
  mkTlsContext None None false alpn_unset false verify_none false None None [].

(** The two contexts the program makes; a call both constructors make is answered for each. *)
Inductive TlsSide := downstream_side | upstream_side.

(** What the library and the file system answer.  [Throw] is any exception. *)
Class TlsWorld := {
  construct_context : TlsSide -> result unit;
  set_min_proto_version_ok : TlsSide -> bool;
  set_max_early_data_ok : bool;
  set_alpn_protos_ok : bool;
  load_certificate_chain : text -> result unit;
  (** Whether the password callback ran while the key was read. *)
  load_private_key : text -> result bool;
  private_key_matches : text -> text -> bool;
  load_verify_file : text -> result unit;
  is_regular_file : text -> result bool }.

Section Contexts.
Context {W : TlsWorld}.

Definition downstream_failure : exn :=
  ConfigError "downstream TLS certificate and unencrypted matching key could not be loaded".

(** The body of the [try] block. *)
Definition build_downstream (cert key : text) : result TlsContext :=
  _ ← construct_context downstream_side;
  _ ← ensure (set_min_proto_version_ok downstream_side && set_max_early_data_ok)
        (ConfigError "downstream TLS policy initialization failed");
  _ ← load_certificate_chain cert;
  password_requested ← load_private_key key;
  _ ← ensure (negb (password_requested || negb (private_key_matches cert key)))
        (ConfigError "downstream TLS key is encrypted or does not match");
  Ok (mkTlsContext (Some TLS1_2_VERSION) (Some 0) true alpn_select_http11 false verify_none true
        (Some cert) (Some key) []).

Definition make_downstream_tls_context (certificate key : option text) : result (option TlsContext) :=
  match certificate, key with
  | None, None => Ok None
  | Some cert, Some key =>
      _ ← ensure (negb (bool_decide (cert = []) || bool_decide (key = [])))
            (ConfigError "downstream TLS certificate and key must not be empty");
      match build_downstream cert key with
      | Ok context => Ok (Some context)
      | Throw _ => Throw downstream_failure
      end
  | _, _ => Throw (ConfigError "APIGATE_TLS_CERT_FILE and APIGATE_TLS_KEY_FILE must be set together")
  end.

(** [{8, 'h', 't', 't', 'p', '/', '1', '.', '1'}] *)
Definition http11 : text := ascii_of_nat 8 :: L "http/1.1".

Definition bundles : list text :=
  [L "/etc/ssl/certs/ca-certificates.crt"; L "/etc/pki/tls/certs/ca-bundle.crt"; L "/etc/ssl/cert.pem"].

(** The first bundle that is a regular file is loaded. *)
Fixpoint load_bundle (candidates : list text) : result text :=
  match candidates with
  | [] => Throw (ConfigError "system upstream CA bundle is unavailable")
  | bundle :: rest =>
      regular ← is_regular_file bundle;
      if (regular : bool) then
        _ ← load_verify_file bundle;
        Ok bundle
      else load_bundle rest
  end.

Definition upstream_failure : exn :=
  ConfigError "upstream TLS trust configuration could not be loaded".

Definition build_upstream (ca_file : option text) : result TlsContext :=
  _ ← construct_context upstream_side;
  _ ← ensure (set_min_proto_version_ok upstream_side) (ConfigError "upstream TLS policy initialization failed");
  _ ← ensure set_alpn_protos_ok (ConfigError "upstream TLS policy initialization failed");
  trust ← match ca_file with
          | Some file =>
              _ ← load_verify_file file;
              Ok file
          | None => load_bundle bundles
          end;
  Ok (mkTlsContext (Some TLS1_2_VERSION) None false (alpn_offer http11) true verify_peer false
        None None [trust]).

Definition make_upstream_tls_context (ca_file : option text) (https_enabled : bool)
    : result (option TlsContext) :=
  match ca_file, https_enabled with
  | None, false => Ok None
  | _, _ =>
      match build_upstream ca_file with
      | Ok context => Ok (Some context)
      | Throw _ => Throw upstream_failure
      end
  end.

End Contexts.

(** ** The identity of an upstream stream *)

Record TlsStream := mkTlsStream {
  verified_host : option text;
  server_name : option text }.

(** [set_server_name] is [SSL_set_tlsext_host_name], false on failure; [is_address] says
    that the host is an address literal, for which no name is sent. *)
Definition configure_upstream_tls_identity (is_address set_server_name : text -> bool)
    (stream : TlsStream) (host : text) : TlsStream * bool :=
  let stream := mkTlsStream (Some host) (server_name stream) in
  if is_address host then (stream, true)
  else if set_server_name host then (mkTlsStream (Some host) (Some host), true)
  else (stream, false).

(** ** The protocol list of the wire

    RFC 7301: each name is preceded by its length, from 1 to 255. *)

Definition encode_name (name : text) : text := ascii_of_N (N.of_nat (length name)) :: name.
Definition encode_protocols (names : list text) : text := concat (encode_name <$> names).
Definition valid_name (name : text) : Prop := (1 <= length name <= 255)%nat.

Lemma read_byte_encoded name before after i :
  valid_name name -> i = Z.of_nat (length before) ->
  read_byte (before ++ encode_name name ++ after) i = Some (Z.of_nat (length name)).
Proof.
  intros Hv ->. unfold read_byte. rewrite Nat2Z.id, lookup_app_r, Nat.sub_diag by lia. cbn.
  unfold char_code. rewrite N_ascii_embedding; [f_equal; lia|]. unfold valid_name in Hv. lia.
Qed.

Lemma read_byte_Some input i : 0 <= i < Z.of_nat (length input) -> exists b, read_byte input i = Some b /\ 0 <= b < 256.
Proof.
  intros Hi. unfold read_byte. destruct (lookup_lt_is_Some_2 input (Z.to_nat i)) as [c ->]; [lia|]. cbn.
  exists (Z.of_N (char_code c)). split; [done|]. unfold char_code. pose proof (N_ascii_bounded c). lia.
Qed.

(** What remains of the list is a name, malformed, or nothing. *)
Inductive list_view : text -> Prop :=
  | view_end : list_view []
  | view_name name rest : valid_name name -> list_view (encode_name name ++ rest)
  | view_malformed c rest :
      (char_code c = 0 \/ N.of_nat (length rest) < char_code c)%N -> list_view (c :: rest).

Lemma view input : list_view input.
Proof.
  destruct input as [|c rest]; [constructor|].
  destruct (decide (char_code c = 0 \/ N.of_nat (length rest) < char_code c)%N) as [H|H]; [by apply view_malformed|].
  set (n := N.to_nat (char_code c)).
  assert (Hn : valid_name (take n rest)).
  { pose proof (N_ascii_bounded c). unfold valid_name, n, char_code in *. rewrite length_take. lia. }
  assert (E : encode_name (take n rest) ++ drop n rest = c :: rest).
  { unfold encode_name. rewrite length_take. cbn [app]. rewrite take_drop. f_equal.
    replace (N.of_nat (n `min` length rest)) with (char_code c) by (unfold n in *; lia).
    apply ascii_N_embedding. }
  rewrite <- E. by constructor.
Qed.

Lemma encode_name_inj name1 name2 rest1 rest2 :
  valid_name name1 -> valid_name name2 -> encode_name name1 ++ rest1 = encode_name name2 ++ rest2 ->
  name1 = name2 /\ rest1 = rest2.
Proof.
  unfold valid_name, encode_name. intros H1 H2 E. cbn [app] in E. injection E as E0 E.
  assert (Hl : length name1 = length name2).
  { apply (f_equal N_of_ascii) in E0. rewrite !N_ascii_embedding in E0 by lia. lia. }
  by apply app_inj_1 in E.
Qed.

Lemma malformed_not_name c rest name tail :
  (char_code c = 0 \/ N.of_nat (length rest) < char_code c)%N -> valid_name name ->
  c :: rest <> encode_name name ++ tail.
Proof.
  unfold valid_name, encode_name, char_code. intros Hc Hv E. cbn [app] in E. injection E as -> ->.
  rewrite N_ascii_embedding, length_app in Hc by lia. lia.
Qed.

Definition http_1_1 : text := L "http/1.1".

Lemma http_valid : valid_name http_1_1.
Proof. unfold valid_name. change (length http_1_1) with 8%nat. lia. Qed.

(** Where the loop stops: [off] is the position, in what remains, of the first
    [http/1.1] after well-formed other names. *)
Definition selects (input : text) (off : Z) : Prop :=
  exists names rest, input = encode_protocols names ++ encode_name http_1_1 ++ rest /\
    Forall valid_name names /\ http_1_1 ∉ names /\ off = Z.of_nat (length (encode_protocols names)) + 1.

Lemma selects_here rest : selects (encode_name http_1_1 ++ rest) 1.
Proof. exists [], rest. split_and!; [done|constructor|apply not_elem_of_nil|done]. Qed.

Lemma selects_cons name rest off :
  valid_name name -> name <> http_1_1 ->
  selects (encode_name name ++ rest) off <-> selects rest (off - Z.of_nat (S (length name))).
Proof.
  intros Hv Hne. split; intros (names & tail & E & Hf & Hn & Ho).
  - destruct names as [|n names].
    { cbn in E. apply encode_name_inj in E as [? _]; [done|done|apply http_valid]. }
    unfold encode_protocols in E, Ho. cbn [fmap list_fmap concat] in E, Ho. rewrite <- app_assoc in E.
    apply Forall_cons_1 in Hf as [Hfn Hf]. apply encode_name_inj in E as [-> ->]; [|done..].
    exists names, tail. split_and!; [done|done|set_solver|]. rewrite length_app in Ho. cbn in Ho.
    unfold encode_protocols. lia.
  - exists (name :: names), tail. subst rest. split_and!; [|by constructor|set_solver|].
    + unfold encode_protocols. cbn [fmap list_fmap concat]. by rewrite <- app_assoc.
    + unfold encode_protocols in *. cbn [fmap list_fmap concat]. rewrite length_app. cbn. lia.
Qed.

Lemma selects_nil off : ~ selects [] off.
Proof. intros (names & rest & E & _). destruct names; discriminate E. Qed.

Lemma selects_malformed c rest off :
  (char_code c = 0 \/ N.of_nat (length rest) < char_code c)%N -> ~ selects (c :: rest) off.
Proof.
  intros Hc ([|name names] & tail & E & Hf & _).
  - revert E. apply malformed_not_name; [done|apply http_valid].
  - apply Forall_cons_1 in Hf as [Hf _]. unfold encode_protocols in E. cbn [fmap list_fmap concat] in E.
    rewrite <- app_assoc in E. revert E. by apply malformed_not_name.
Qed.

(** One iteration, on each form of what remains. *)
Lemma alpn_end fuel input :
  alpn_loop (S fuel) input (Z.of_nat (length input)) (Z.of_nat (length input)) = Some TLSEXT_ERR_ALERT_FATAL.
Proof. cbn [alpn_loop]. by rewrite Z.ltb_irrefl. Qed.

Lemma alpn_malformed fuel before c rest :
  let input := before ++ c :: rest in
  Z.of_nat (length input) < 2 ^ 32 -> (char_code c = 0 \/ N.of_nat (length rest) < char_code c)%N ->
  alpn_loop (S fuel) input (Z.of_nat (length input)) (Z.of_nat (length before)) = Some TLSEXT_ERR_ALERT_FATAL.
Proof.
  intros input Hlen Hc. assert (Hl : length input = (length before + S (length rest))%nat).
  { unfold input. by rewrite length_app. }
  cbn [alpn_loop]. replace (Z.of_nat (length before) <? Z.of_nat (length input)) with true
    by (symmetry; apply Z.ltb_lt; lia).
  unfold read_byte, input. rewrite Nat2Z.id, lookup_app_r, Nat.sub_diag by lia. cbn [lookup list_lookup mbind option_bind].
  fold input. rewrite (u32_small (Z.of_nat (length before) + 1)), u32_small by (unfold in_u32; lia).
  replace (_ || _) with true; [done|]. symmetry. apply orb_true_iff. rewrite Z.eqb_eq, Z.ltb_lt. lia.
Qed.

Lemma memcmp_name before name rest :
  length name = 8%nat ->
  memcmp_equal (before ++ encode_name name ++ rest) (Z.of_nat (length before) + 1) http_1_1 =
  Some (bool_decide (name = http_1_1)).
Proof.
  intros Hn. unfold memcmp_equal. replace (Z.to_nat _) with (S (length before)) by lia.
  unfold encode_name. cbn [app]. rewrite drop_app_ge, Nat.sub_succ_l, Nat.sub_diag by lia. cbn [drop]. rewrite drop_0.
  change (length http_1_1) with 8%nat. rewrite take_app_le, take_ge, Hn by lia. done.
Qed.

Lemma alpn_name fuel before name rest :
  let input := before ++ encode_name name ++ rest in
  Z.of_nat (length input) < 2 ^ 32 -> valid_name name ->
  alpn_loop (S fuel) input (Z.of_nat (length input)) (Z.of_nat (length before)) =
  if bool_decide (name = http_1_1) then Some (TLSEXT_ERR_OK (Z.of_nat (length before) + 1) 8)
  else alpn_loop fuel input (Z.of_nat (length input)) (Z.of_nat (length (before ++ encode_name name))).
Proof.
  intros input Hlen Hv. assert (Hl : length input = (length before + S (length name + length rest))%nat).
  { unfold input, encode_name. rewrite !length_app. cbn. lia. }
  pose proof Hv as Hv'. unfold valid_name in Hv'.
  cbn [alpn_loop]. replace (Z.of_nat (length before) <? Z.of_nat (length input)) with true
    by (symmetry; apply Z.ltb_lt; lia).
  rewrite (read_byte_encoded name before rest _ Hv eq_refl : read_byte input _ = _). cbn [mbind option_bind].
  rewrite (u32_small (Z.of_nat (length before) + 1)), !u32_small by (unfold in_u32; lia).
  replace (_ || _) with false by (symmetry; apply orb_false_iff; rewrite Z.eqb_neq, Z.ltb_ge; lia).
  assert (Hmem : (if Z.of_nat (length name) =? 8
                  then memcmp_equal input (Z.of_nat (length before) + 1) (L "http/1.1")
                  else Some false) = Some (bool_decide (name = http_1_1))).
  { destruct (_ =? 8) eqn:E; reflect_bools; [apply memcmp_name; lia|].
    f_equal. symmetry. apply bool_decide_eq_false. intros ->. by apply E. }
  rewrite Hmem. destruct (bool_decide (name = http_1_1)) eqn:D.
  - apply bool_decide_eq_true in D as ->. done.
  - cbn [mbind option_bind]. apply (f_equal (alpn_loop _ _ _)).
    rewrite length_app. unfold encode_name. cbn [length]. lia.
Qed.

Lemma alpn_loop_spec fuel before rest :
  Z.of_nat (length (before ++ rest)) < 2 ^ 32 -> (length rest < fuel)%nat ->
  match alpn_loop fuel (before ++ rest) (Z.of_nat (length (before ++ rest))) (Z.of_nat (length before)) with
  | Some (TLSEXT_ERR_OK off len) => len = 8 /\ selects rest (off - Z.of_nat (length before))
  | Some TLSEXT_ERR_ALERT_FATAL => forall off, ~ selects rest off
  | None => False
  end.
Proof.
  revert before rest. induction fuel as [|fuel IH]; intros before rest Hlen Hf; [lia|].
  destruct (view rest) as [|name rest Hv|c rest Hc].
  - rewrite app_nil_r, alpn_end. apply selects_nil.
  - rewrite alpn_name by done. destruct (bool_decide (name = http_1_1)) eqn:D.
    + apply bool_decide_eq_true in D as ->. split; [done|].
      replace (_ - _) with 1 by lia. apply selects_here.
    + apply bool_decide_eq_false in D. rewrite app_assoc in *.
      assert (Hlen' : length (encode_name name ++ rest) = S (length name + length rest)).
      { unfold encode_name. cbn. by rewrite length_app. }
      specialize (IH (before ++ encode_name name) rest Hlen ltac:(lia)).
      assert (Hb : length (before ++ encode_name name) = (length before + S (length name))%nat).
      { by rewrite length_app. }
      destruct (alpn_loop _ _ _ _) as [[off len|]|]; [| |done].
      * destruct IH as [-> IH]. split; [done|]. rewrite selects_cons by done.
        replace (off - Z.of_nat (length before) - Z.of_nat (S (length name)))
          with (off - Z.of_nat (length (before ++ encode_name name))) by lia. done.
      * intros off. rewrite selects_cons by done. apply IH.
  - rewrite alpn_malformed by done. intros off. by apply selects_malformed.
Qed.

(** C36: ALPN selection is safe and exact on every buffer a client can send: the loop
    terminates without reading outside the buffer or wrapping its offset, selects the
    first [http/1.1] that follows well-formed other names, pointing at its eight bytes,
    and is a fatal alert exactly when there is none. *)
Theorem alpn_selection_exact input :
  Z.of_nat (length input) < 2 ^ 32 ->
  match select_http11 input with
  | Some (TLSEXT_ERR_OK off len) => len = 8 /\ selects input off
  | Some TLSEXT_ERR_ALERT_FATAL => forall off, ~ selects input off
  | None => False
  end.
Proof.
  intros Hlen. pose proof (alpn_loop_spec (S (length input)) [] input Hlen ltac:(lia)) as H.
  unfold select_http11. change (Z.of_nat (length [])) with 0 in H. cbn [app] in H.
  destruct (alpn_loop _ _ _ _) as [[off len|]|]; [|done..]. by rewrite Z.sub_0_r in H.
Qed.

Lemma alpn_selection_exact_witness :
  let input := encode_protocols [L "h2"; L "http/1.1"] in
  select_http11 input = Some (TLSEXT_ERR_OK 4 8) /\ 8 = 8 /\ selects input 4.
Proof.
  cbv zeta. split; [by vm_compute|].
  exact (alpn_selection_exact (encode_protocols [L "h2"; L "http/1.1"]) ltac:(vm_compute; reflexivity)).
Defined.

(** ** The policy of the contexts *)

(** A downstream context exists exactly when both files are configured, and then it
    carries the whole policy: TLS 1.2 at least, no early data, no renegotiation, HTTP/1.1
    only, no password prompt, and the configured certificate with an unencrypted key that
    matches it.  Every failure is one of three fixed texts. *)
Theorem downstream_tls_policy `{TlsWorld} certificate key :
  match make_downstream_tls_context certificate key with
  | Ok None => certificate = None /\ key = None
  | Ok (Some c) =>
      exists cert_file key_file, certificate = Some cert_file /\ key = Some key_file /\
      cert_file <> [] /\ key_file <> [] /\
      min_proto_version c = Some TLS1_2_VERSION /\ max_early_data c = Some 0 /\ no_renegotiation c = true /\
      alpn c = alpn_select_http11 /\ password_callback c = true /\ verify_mode c = verify_none /\
      certificate_chain c = Some cert_file /\ private_key c = Some key_file /\
      load_private_key key_file = Ok false /\ private_key_matches cert_file key_file = true
  | Throw e =>
      (e = ConfigError "APIGATE_TLS_CERT_FILE and APIGATE_TLS_KEY_FILE must be set together" /\
       (is_Some certificate <-> key = None)) \/
      (e = ConfigError "downstream TLS certificate and key must not be empty" /\
       (certificate = Some [] \/ key = Some [])) \/ e = downstream_failure
  end.
Proof.
  destruct certificate as [cert|], key as [key|]; cbn [make_downstream_tls_context].
  - destruct (ensure _ _) as [u|e] eqn:E; cbn [mbind result_bind].
    + apply ensure_Ok in E. reflect_bools.
      repeat match goal with HB : bool_decide _ = false |- _ => apply bool_decide_eq_false in HB end.
      destruct (build_downstream cert key) as [c|e] eqn:B; [|by right; right].
      unfold build_downstream in B. repeat (apply bind_Ok in B as (? & ? & B)). injection B as <-.
      repeat match goal with HE : ensure _ _ = Ok _ |- _ => apply ensure_Ok in HE end. reflect_bools.
      exists cert, key. cbn. subst. split_and!; congruence.
    + right. left. unfold ensure in E. destruct (negb _) eqn:N; [done|]. injection E as <-. split; [done|].
      apply negb_false_iff, orb_true_iff in N as [N|N]; apply bool_decide_eq_true in N as ->; tauto.
  - left. split; [done|]. split; eauto.
  - left. split; [done|]. split; [by intros []|done].
  - done.
Qed.

Section UpstreamPolicy.
Context {W : TlsWorld}.

Lemma load_bundle_first candidates trust :
  load_bundle candidates = Ok trust ->
  load_verify_file trust = Ok tt /\ exists skipped later, candidates = skipped ++ trust :: later /\
    is_regular_file trust = Ok true /\ Forall (fun bundle => is_regular_file bundle = Ok false) skipped.
Proof.
  revert trust. induction candidates as [|b candidates IH]; intros trust B; [done|]. cbn [load_bundle] in B.
  apply bind_Ok in B as ([] & Hr & B).
  - apply bind_Ok in B as ([] & Hl & [= <-]). split; [done|]. by exists [], candidates.
  - destruct (IH _ B) as (? & skipped & later & -> & ? & ?). split; [done|].
    exists (b :: skipped), later. split_and!; [done..|]. by constructor.
Qed.

(** The single trust source of a context. *)
Definition trusts (ca_file : option text) (trust : text) : Prop :=
  load_verify_file trust = Ok tt /\
  match ca_file with
  | Some file => trust = file
  | None => exists skipped later, bundles = skipped ++ trust :: later /\ is_regular_file trust = Ok true /\
              Forall (fun bundle => is_regular_file bundle = Ok false) skipped
  end.

Lemma build_upstream_policy ca_file c :
  build_upstream ca_file = Ok c ->
  exists trust, trusts ca_file trust /\
    c = mkTlsContext (Some TLS1_2_VERSION) None false (alpn_offer http11) true verify_peer false None None [trust].
Proof.
  unfold build_upstream. intros B. apply bind_Ok in B as (? & _ & B). apply bind_Ok in B as (? & _ & B).
  apply bind_Ok in B as (? & _ & B). apply bind_Ok in B as (trust & Ht & [= <-]).
  exists trust. split; [|done]. destruct ca_file as [file|].
  - apply bind_Ok in Ht as ([] & Hl & [= <-]). done.
  - by apply load_bundle_first.
Qed.

End UpstreamPolicy.

(** An upstream context exists exactly when a trust file is configured or an upstream
    uses HTTPS, and then it verifies the peer with a single trust source: the configured
    file alone, or else the first system bundle that is a regular file; it requires TLS 1.2,
    caches no session, and offers HTTP/1.1 only, in the form the downstream side selects.
    Every failure is the same fixed text, which names no path. *)
Theorem upstream_tls_policy `{TlsWorld} ca_file https_enabled :
  match make_upstream_tls_context ca_file https_enabled with
  | Ok None => ca_file = None /\ https_enabled = false
  | Ok (Some c) =>
      (is_Some ca_file \/ https_enabled = true) /\
      min_proto_version c = Some TLS1_2_VERSION /\ verify_mode c = verify_peer /\ session_cache_off c = true /\
      (exists offered, alpn c = alpn_offer offered /\ select_http11 offered = Some (TLSEXT_ERR_OK 1 8)) /\
      exists trust, verify_files c = [trust] /\ trusts ca_file trust
  | Throw e => e = upstream_failure
  end.
Proof.
  unfold make_upstream_tls_context.
  assert (Hb : forall c, build_upstream ca_file = Ok c -> exists trust, trusts ca_file trust /\
    c = mkTlsContext (Some TLS1_2_VERSION) None false (alpn_offer http11) true verify_peer false None None [trust])
    by apply build_upstream_policy.
  assert (Hoffer : select_http11 http11 = Some (TLSEXT_ERR_OK 1 8)) by (by vm_compute).
  destruct ca_file as [file|], https_enabled; try done;
    (destruct (build_upstream _) as [c|e]; [|done]); destruct (Hb c eq_refl) as (trust & Ht & ->);
    cbn; (split; [eauto|]); split_and!; eauto.
Qed.
