(* ===== verification/ConfigLoad.v ===== *)
(** * Loading the configuration (src/config.cpp, [load_config_from_environment])

    The settings are read from the environment in a fixed order and the first invalid one
    aborts with [ConfigError].  The TLS contexts the configuration shares are allocated in
    a store: a handle of [AppConfig] is the position of its context. *)

From S2P Require Import Prelude Text ConfigTypes ApiKeyAuth ConfigScalars ConfigRoutes Tls.

Local Open Scope Z_scope.

(** [std::make_shared] of a context; no context is a null pointer. *)
Definition allocate (store : list TlsContext) (context : option TlsContext) : list TlsContext * TlsHandle :=
  match context with
  | Some c => (store ++ [c], Some (length store))
  | None => (store, None)
  end.

(** [enabled != "true" && enabled != "false"] *)
Definition parse_switch (message : string) (enabled : text) : result bool :=
  if negb (text_eqb enabled (L "true")) && negb (text_eqb enabled (L "false"))
  then Throw (ConfigError message)
  else Ok (text_eqb enabled (L "true")).

Definition parse_label (name : string) (value : text) : result text :=
  _ ← validate_label value name; Ok value.

Definition has_https (rs : list RouteConfig) : bool :=
  existsb (fun r => existsb (fun u => bool_decide (scheme u = https)) (upstreams r)) rs.

Definition has_auth (rs : list RouteConfig) : bool := existsb (fun r => bool_decide (is_Some (auth r))) rs.

Section Load.
Context {W : TlsWorld}.
Variable make_address : text -> option text.
Variable evp_digest : text -> option ApiKeyDigest.
Variable json_events : text -> list (Z * json_event).
Variable json_document : text -> option JValue.
Variable environment : Environment.

(** A variable that, when set, is parsed into a field. *)
Definition setting {A} (name : string) (default : A) (parse : text -> result A) : result A :=
  value ← read_environment environment name;
  match value with
  | Some value => parse value
  | None => Ok default
  end.

(** [raw_environment(name) != nullptr] *)
Definition is_set (name : string) : bool := bool_decide (is_Some (environment name)).

(** The settings both forms of the upstream configuration share. *)
Definition load_settings (downstream : TlsHandle) : result AppConfig :=
  let d := default_AppConfig in
  keep_alive ← setting "APIGATE_UPSTREAM_KEEP_ALIVE" (upstream_keep_alive d)
                 (parse_switch "APIGATE_UPSTREAM_KEEP_ALIVE must be true or false");
  metrics ← setting "APIGATE_METRICS_ENABLED" (metrics_enabled d)
              (parse_switch "APIGATE_METRICS_ENABLED must be true or false");
  service ← setting "APIGATE_SERVICE_NAME" (service_name d) (parse_label "APIGATE_SERVICE_NAME");
  env ← setting "APIGATE_ENVIRONMENT" (ConfigTypes.environment d) (parse_label "APIGATE_ENVIRONMENT");
  level ← setting "APIGATE_LOG_LEVEL" (log_level d) parse_log_level;
  address ← setting "APIGATE_LISTEN_ADDRESS" (listen_address d) (parse_listen_address make_address);
  lport ← setting "APIGATE_LISTEN_PORT" (listen_port d) parse_listen_port;
  connections ← setting "APIGATE_MAX_CONNECTIONS" (max_connections d)
                  (fun v => parse_capacity_limit v "APIGATE_MAX_CONNECTIONS");
  proxies ← setting "APIGATE_MAX_CONCURRENT_PROXIES" (max_concurrent_proxies d)
              (fun v => parse_capacity_limit v "APIGATE_MAX_CONCURRENT_PROXIES");
  bytes ← setting "APIGATE_MAX_IN_FLIGHT_BYTES" (max_in_flight_bytes d) parse_max_in_flight_bytes;
  grace ← setting "APIGATE_SHUTDOWN_GRACE_MS" (shutdown_grace_ms d)
            (fun v => parse_bounded_milliseconds v "APIGATE_SHUTDOWN_GRACE_MS");
  Ok (mkAppConfig service env level address lport connections proxies bytes grace metrics keep_alive
        (upstream d) (routes d) None downstream).

Definition with_routes (c : AppConfig) (rs : list RouteConfig) (trust : TlsHandle) : AppConfig :=
  mkAppConfig (service_name c) (ConfigTypes.environment c) (log_level c) (listen_address c) (listen_port c)
    (max_connections c) (max_concurrent_proxies c) (max_in_flight_bytes c) (shutdown_grace_ms c)
    (metrics_enabled c) (upstream_keep_alive c) (upstream c) rs trust (downstream_tls_context c).

Definition with_upstream (c : AppConfig) (u : option UpstreamConfig) (trust : TlsHandle) : AppConfig :=
  mkAppConfig (service_name c) (ConfigTypes.environment c) (log_level c) (listen_address c) (listen_port c)
    (max_connections c) (max_concurrent_proxies c) (max_in_flight_bytes c) (shutdown_grace_ms c)
    (metrics_enabled c) (upstream_keep_alive c) u (routes c) trust (downstream_tls_context c).

(** The route table form. *)
Definition load_routes (config : AppConfig) (store : list TlsContext) (value : text)
    : result (AppConfig * list TlsContext) :=
  rs ← parse_routes make_address evp_digest environment json_events json_document value;
  _ ← ensure (negb (bool_decide (downstream_tls_context config = None) && has_auth rs))
        (ConfigError "protected routes require downstream TLS");
  ca_file ← read_environment environment "APIGATE_UPSTREAM_CA_FILE";
  context ← make_upstream_tls_context ca_file (has_https rs);
  let '(store, trust) := allocate store context in
  Ok (with_routes config rs trust, store).

(** The single upstream form. *)
Definition load_upstream (config : AppConfig) (store : list TlsContext) : result (AppConfig * list TlsContext) :=
  upstream_host ← read_environment environment "APIGATE_UPSTREAM_HOST";
  upstream_port ← read_environment environment "APIGATE_UPSTREAM_PORT";
  upstream_timeout ← read_environment environment "APIGATE_UPSTREAM_TIMEOUT_MS";
  _ ← ensure (negb (negb (Bool.eqb (bool_decide (is_Some upstream_host)) (bool_decide (is_Some upstream_port))) ||
                    bool_decide (is_Some upstream_timeout) && negb (bool_decide (is_Some upstream_host))))
        (ConfigError ("APIGATE_UPSTREAM_HOST and APIGATE_UPSTREAM_PORT must be set together; " ++
                      "APIGATE_UPSTREAM_TIMEOUT_MS requires both"));
  legacy ← match upstream_host, upstream_port with
           | Some h, Some p =>
               validated_host ← parse_upstream_host make_address h;
               validated_port ← parse_upstream_port p;
               timeout ← match upstream_timeout with
                         | Some t => parse_bounded_milliseconds t "APIGATE_UPSTREAM_TIMEOUT_MS"
                         | None => Ok 3000
                         end;
               Ok (Some (mkUpstream validated_host validated_port timeout http))
           | _, _ => Ok None
           end;
  ca_file ← read_environment environment "APIGATE_UPSTREAM_CA_FILE";
  context ← make_upstream_tls_context ca_file false;
  let '(store, trust) := allocate store context in
  Ok (with_upstream config legacy trust, store).

(** The order in which the two arguments of [make_downstream_tls_context] are read is the
    compiler's; it decides only which of two errors is reported. *)
Definition load_config_from_environment : result (AppConfig * list TlsContext) :=
  certificate ← read_environment environment "APIGATE_TLS_CERT_FILE";
  key ← read_environment environment "APIGATE_TLS_KEY_FILE";
  context ← make_downstream_tls_context certificate key;
  let '(store, downstream) := allocate [] context in
  config ← load_settings downstream;
  _ ← ensure (negb (is_set "APIGATE_ROUTES" &&
                    (is_set "APIGATE_UPSTREAM_HOST" || is_set "APIGATE_UPSTREAM_PORT" ||
                     is_set "APIGATE_UPSTREAM_TIMEOUT_MS")))
        (ConfigError "APIGATE_ROUTES conflicts with legacy upstream variables");
  table ← read_environment environment "APIGATE_ROUTES";
  match table with
  | Some value => load_routes config store value
  | None => load_upstream config store
  end.

End Load.

(** ** What a loaded configuration satisfies *)

Definition label_ok (t : text) : Prop := (1 <= length t <= 64)%nat /\ Forall (fun c => label_character c = true) t.

(** The roles of the two contexts. *)
Definition server_policy (c : TlsContext) : Prop :=
  min_proto_version c = Some TLS1_2_VERSION /\ alpn c = alpn_select_http11 /\
  is_Some (certificate_chain c) /\ is_Some (private_key c).
Definition client_policy (c : TlsContext) : Prop :=
  min_proto_version c = Some TLS1_2_VERSION /\ alpn c = alpn_offer http11 /\ verify_mode c = verify_peer /\
  length (verify_files c) = 1%nat.

Definition points_to (store : list TlsContext) (handle : TlsHandle) (policy : TlsContext -> Prop) : Prop :=
  forall h, handle = Some h -> exists c, store !! h = Some c /\ policy c.

Definition settings_valid (make_address : text -> option text) (c : AppConfig) : Prop :=
  label_ok (service_name c) /\ label_ok (ConfigTypes.environment c) /\
  (listen_address c = L "127.0.0.1" \/ exists value, make_address value = Some (listen_address c)) /\
  0 <= listen_port c <= 65535 /\ 1 <= max_connections c <= 65535 /\
  1 <= max_concurrent_proxies c <= 65535 /\ 1 <= max_in_flight_bytes c <= 1073741824 /\
  1 <= shutdown_grace_ms c <= 60000.

Definition config_valid (make_address : text -> option text) (evp_digest : text -> option ApiKeyDigest)
    (environment : Environment) (c : AppConfig) (store : list TlsContext) : Prop :=
  settings_valid make_address c /\
  (routes c = [] \/ table_valid make_address evp_digest environment (routes c) /\ upstream c = None) /\
  (forall u, upstream c = Some u -> upstream_valid make_address u /\ scheme u = http) /\
  (has_auth (routes c) = true -> is_Some (downstream_tls_context c)) /\
  (has_https (routes c) = true -> is_Some (upstream_tls_context c)) /\
  points_to store (downstream_tls_context c) server_policy /\
  points_to store (upstream_tls_context c) client_policy.

(** Walk through a computation to what holds of its result and of its exception. *)
Definition yields {A} (P : A -> Prop) (r : result A) : Prop :=
  match r with Ok a => P a | Throw e => exists what, e = ConfigError what end.

Lemma yields_bind {A B} (P : A -> Prop) (Q : B -> Prop) m (f : A -> result B) :
  yields P m -> (forall a, P a -> yields Q (f a)) -> yields Q (m ≫= f).
Proof. destruct m; cbn; [|done]. intros Hp Hq. by apply Hq. Qed.

Lemma yields_ensure c what : yields (fun _ => c = true) (ensure c (ConfigError what)).
Proof. destruct c; cbn; eauto. Qed.

Lemma yields_intro {A} (P : A -> Prop) r : throws_config r -> (forall a, r = Ok a -> P a) -> yields P r.
Proof. destruct r; cbn; [|done]. intros _ H. by apply H. Qed.

Section LoadValid.
Context {W : TlsWorld}.
Variable make_address : text -> option text.
Variable evp_digest : text -> option ApiKeyDigest.
Variable json_events : text -> list (Z * json_event).
Variable json_document : text -> option JValue.
Variable environment : Environment.

Lemma read_environment_yields name :
  yields (fun v => forall t, v = Some t -> t <> [] /\ environment name = Some t)
    (read_environment environment name).
Proof.
  unfold read_environment. destruct (environment name) as [[|c t]|] eqn:E; cbn; [eauto|..].
  - intros t' [= <-]. done.
  - done.
Qed.

Lemma setting_yields {A} (P : A -> Prop) name d parse :
  P d -> (forall value, value <> [] -> yields P (parse value)) -> yields P (setting environment name d parse).
Proof.
  intros Hd Hp. unfold setting. eapply yields_bind; [apply read_environment_yields|]. intros [t|] Ht; [|done].
  apply Hp. by destruct (Ht t eq_refl).
Qed.

Lemma label_yields name value : value <> [] -> yields label_ok (parse_label name value).
Proof.
  intros Hne. unfold parse_label, validate_label. destruct (_ || _) eqn:E; cbn; [eauto|].
  reflect_bools. unfold max_label_length in *. split; [destruct value; [done|cbn in *; lia]|].
  by apply forallb_Forall.
Qed.

(** The numeric parsers return numbers in their range. *)
Lemma number_yields (low high : Z) r value :
  throws_config r -> (forall n, r = Ok n <-> reads_as value n /\ low <= n <= high) ->
  yields (fun n => low <= n <= high) r.
Proof. intros Ht Hp. apply yields_intro; [done|]. intros n Hn. by apply Hp. Qed.

Lemma listen_port_yields value : yields (fun n => 0 <= n <= 65535) (parse_listen_port value).
Proof. eapply number_yields; [apply (numeric_parsers_throw value "")|]. intros n. apply (numeric_parsers value ""). Qed.
Lemma upstream_port_yields value : yields (fun n => 1 <= n <= 65535) (parse_upstream_port value).
Proof. eapply number_yields; [apply (numeric_parsers_throw value "")|]. intros n. apply (numeric_parsers value ""). Qed.
Lemma capacity_yields value name : yields (fun n => 1 <= n <= 65535) (parse_capacity_limit value name).
Proof. eapply number_yields; [apply numeric_parsers_throw|]. intros n. apply numeric_parsers. Qed.
Lemma milliseconds_yields value name : yields (fun n => 1 <= n <= 60000) (parse_bounded_milliseconds value name).
Proof. eapply number_yields; [apply numeric_parsers_throw|]. intros n. apply numeric_parsers. Qed.
Lemma bytes_yields value : yields (fun n => 1 <= n <= 1073741824) (parse_max_in_flight_bytes value).
Proof. eapply number_yields; [apply (numeric_parsers_throw value "")|]. intros n. apply (numeric_parsers value ""). Qed.

Lemma switch_yields what value : yields (fun _ => True) (parse_switch what value).
Proof. unfold parse_switch. destruct (_ && _); cbn; eauto. Qed.

Lemma level_yields value : yields (fun _ => True) (parse_log_level value).
Proof. unfold parse_log_level. repeat (destruct (text_eqb _ _); [done|]). cbn. eauto. Qed.

Lemma address_yields value :
  yields (fun a => a = L "127.0.0.1" \/ exists value, make_address value = Some a)
    (parse_listen_address make_address value).
Proof. unfold parse_listen_address. destruct (make_address value) eqn:E; cbn; eauto. Qed.

Lemma upstream_host_yields h :
  h <> [] -> yields (fun v => (exists value, make_address value = Some v) \/ valid_hostname v)
    (parse_upstream_host make_address h).
Proof.
  intros Hne. unfold parse_upstream_host. destruct (make_address h) as [a|] eqn:E; cbn; [eauto|].
  pose proof (hostname_throws h) as Ht. pose proof (proj1 (validate_hostname_spec h Hne)) as Hv.
  destruct (validate_dns_hostname h) as [[]|e]; cbn; [|done]. right. by apply Hv.
Qed.

Lemma downstream_yields certificate key :
  yields (fun c => forall ctx, c = Some ctx -> server_policy ctx) (make_downstream_tls_context certificate key).
Proof.
  destruct certificate as [cert|], key as [key|]; cbn; eauto; [|done].
  eapply yields_bind; [apply yields_ensure|]. intros _ _.
  destruct (build_downstream cert key) as [ctx|] eqn:B; cbn; [|unfold downstream_failure; eauto].
  intros ? [= <-]. unfold build_downstream in B. repeat (apply bind_Ok in B as (? & _ & B)). injection B as <-.
  repeat split; eauto.
Qed.

Lemma upstream_tls_yields ca_file https_enabled :
  yields (fun c => (https_enabled = true -> is_Some c) /\ forall ctx, c = Some ctx -> client_policy ctx)
    (make_upstream_tls_context ca_file https_enabled).
Proof.
  assert (H : forall ctx, build_upstream ca_file = Ok ctx -> client_policy ctx).
  { intros ctx (trust & _ & ->)%build_upstream_policy. done. }
  unfold make_upstream_tls_context, upstream_failure.
  destruct ca_file, https_enabled; try done; (destruct (build_upstream _) as [ctx|]; cbn; [|eauto]);
    (split; [eauto|]); intros ? [= <-]; by apply H.
Qed.

Lemma settings_yields downstream :
  yields (fun c => settings_valid make_address c /\ upstream c = None /\ routes c = [] /\
                   downstream_tls_context c = downstream /\ upstream_tls_context c = None)
    (load_settings make_address environment downstream).
Proof.
  unfold load_settings.
  eapply yields_bind; [apply (setting_yields (fun _ => True)); [exact I|intros; apply switch_yields]|intros keep_alive _].
  eapply yields_bind; [apply (setting_yields (fun _ => True)); [exact I|intros; apply switch_yields]|intros metrics _].
  eapply yields_bind; [apply (setting_yields label_ok); [|by apply label_yields]|intros service Hs].
  { split; [vm_compute; lia|by apply forallb_Forall]. }
  eapply yields_bind; [apply (setting_yields label_ok); [|by apply label_yields]|intros env He].
  { split; [vm_compute; lia|by apply forallb_Forall]. }
  eapply yields_bind; [apply (setting_yields (fun _ => True)); [exact I|intros; apply level_yields]|intros level _].
  eapply yields_bind; [apply (setting_yields (fun a => a = L "127.0.0.1" \/ exists value, make_address value = Some a)); [by left|intros; apply address_yields]|intros address Ha].
  eapply yields_bind; [apply (setting_yields (fun n => 0 <= n <= 65535)); [cbn; lia|intros; apply listen_port_yields]|intros lport Hp].
  eapply yields_bind; [apply (setting_yields (fun n => 1 <= n <= 65535)); [cbn; lia|intros; apply capacity_yields]|intros connections Hc].
  eapply yields_bind; [apply (setting_yields (fun n => 1 <= n <= 65535)); [cbn; lia|intros; apply capacity_yields]|intros proxies Hx].
  eapply yields_bind; [apply (setting_yields (fun n => 1 <= n <= 1073741824)); [cbn; lia|intros; apply bytes_yields]|intros bytes Hb].
  eapply yields_bind; [apply (setting_yields (fun n => 1 <= n <= 60000)); [cbn; lia|intros; apply milliseconds_yields]|intros grace Hg].
  cbn [yields]. split; [|done]. unfold settings_valid. cbn. repeat (split; [assumption|]). assumption.
Qed.

(** The store grows: a context allocated now is the one its handle denotes. *)
Lemma allocate_points store context store' handle policy :
  allocate store context = (store', handle) -> (forall c, context = Some c -> policy c) ->
  points_to store' handle policy /\ (is_Some handle <-> is_Some context) /\
  forall h other, points_to store h other -> points_to store' h other.
Proof.
  intros E Hp. destruct context as [c|]; cbn in E; injection E as <- <-.
  - split_and!.
    + intros h [= <-]. exists c. split; [by rewrite lookup_app_r, Nat.sub_diag|by apply Hp].
    + split; eauto.
    + intros h other Ho i Hi. destruct (Ho i Hi) as (c' & Hl & Hc'). exists c'. split; [|done].
      by apply lookup_app_l_Some.
  - split_and!; [done|split; intros []; done|done].
Qed.

Lemma load_routes_yields config store value :
  (forall value document, json_document value = Some document -> well_numbered document) ->
  settings_valid make_address config -> upstream config = None ->
  points_to store (downstream_tls_context config) server_policy ->
  yields (fun r => config_valid make_address evp_digest environment r.1 r.2)
    (load_routes make_address evp_digest json_events json_document environment config store value).
Proof.
  intros Hw Hs Hu Hd. unfold load_routes.
  eapply (yields_bind (table_valid make_address evp_digest environment)).
  { apply yields_intro; [apply parse_routes_throws|]. intros rs. apply parse_routes_table, Hw. }
  intros rs Hrs. eapply yields_bind; [apply yields_ensure|]. intros ? Hauth.
  eapply yields_bind; [apply read_environment_yields|]. intros ca_file _.
  eapply yields_bind; [apply upstream_tls_yields|]. intros context [Hhttps Hctx].
  destruct (allocate store context) as [store' trust] eqn:E.
  eapply (allocate_points _ _ _ _ client_policy) in E as (Ht & Hiff & Hold); [|done].
  cbn [yields fst snd]. split_and!; [done|by right|by cbn; rewrite Hu| | |by apply Hold|done].
  - intros Ha. change (has_auth rs = true) in Ha. rewrite Ha, andb_true_r in Hauth. apply negb_true_iff, bool_decide_eq_false in Hauth.
    change (is_Some (downstream_tls_context config)). destruct (downstream_tls_context config); [eauto|done].
  - cbn. intros Hh. by apply Hiff, Hhttps.
Qed.

Lemma load_upstream_yields config store :
  settings_valid make_address config -> routes config = [] ->
  points_to store (downstream_tls_context config) server_policy ->
  yields (fun r => config_valid make_address evp_digest environment r.1 r.2)
    (load_upstream make_address environment config store).
Proof.
  intros Hs Hr Hd. unfold load_upstream.
  eapply yields_bind; [apply read_environment_yields|]. intros h Hh.
  eapply yields_bind; [apply read_environment_yields|]. intros p _.
  eapply yields_bind; [apply read_environment_yields|]. intros t _.
  eapply yields_bind; [apply yields_ensure|]. intros _ _.
  eapply (yields_bind (fun o => forall u, o = Some u -> upstream_valid make_address u /\ scheme u = http)).
  { destruct h as [h|]; [|done]. destruct p as [p|]; [|done].
    eapply yields_bind; [apply upstream_host_yields; by destruct (Hh h eq_refl)|]. intros vh Hvh.
    eapply yields_bind; [apply upstream_port_yields|].
    intros vp Hvp. eapply (yields_bind (fun n => 1 <= n <= 60000)).
    { destruct t as [t|]; [apply milliseconds_yields|cbn; lia]. }
    intros n Hn. cbn [yields]. by intros u [= <-]. }
  intros legacy Hl. eapply yields_bind; [apply read_environment_yields|]. intros ca_file _.
  eapply yields_bind; [apply upstream_tls_yields|]. intros context [_ Hctx].
  destruct (allocate store context) as [store' trust] eqn:E.
  eapply (allocate_points _ _ _ _ client_policy) in E as (Ht & Hiff & Hold); [|done].
  cbn [yields fst snd]. split_and!; [done|by left|done| | |by apply Hold|done]; cbn; by rewrite Hr.
Qed.

Lemma load_config_yields :
  (forall value document, json_document value = Some document -> well_numbered document) ->
  yields (fun r => config_valid make_address evp_digest environment r.1 r.2)
    (load_config_from_environment make_address evp_digest json_events json_document environment).
Proof.
  intros Hw. unfold load_config_from_environment.
  eapply yields_bind; [apply read_environment_yields|]. intros certificate _.
  eapply yields_bind; [apply read_environment_yields|]. intros key _.
  eapply yields_bind; [apply downstream_yields|]. intros context Hctx.
  destruct (allocate [] context) as [store downstream] eqn:E.
  apply (allocate_points _ _ _ _ server_policy) in E as (Hd & _); [|done].
  eapply yields_bind; [apply settings_yields|]. intros config (Hs & Hu & Hr & Hdown & _). subst downstream.
  eapply yields_bind; [apply yields_ensure|]. intros _ _.
  eapply yields_bind; [apply read_environment_yields|]. intros [value|] _.
  - by apply load_routes_yields.
  - by apply load_upstream_yields.
Qed.

End LoadValid.

(** C37: the configuration is loaded whole or refused: [load_config_from_environment]
    throws nothing but [ConfigError], and what it returns satisfies every bound of the
    configuration, labels to ports to the route table; it has routes or a single upstream,
    not both; a route that authenticates implies a downstream TLS context, an HTTPS upstream
    implies an upstream one, and each context has the policy of its own role. *)
Theorem load_config_valid `{TlsWorld} make_address evp_digest json_events json_document environment :
  (forall value document, json_document value = Some document -> well_numbered document) ->
  match load_config_from_environment make_address evp_digest json_events json_document environment with
  | Ok (c, store) => config_valid make_address evp_digest environment c store
  | Throw e => exists what, e = ConfigError what
  end.
Proof.
  intros Hw. pose proof (load_config_yields make_address evp_digest json_events json_document environment Hw) as Hy.
  by destruct (load_config_from_environment _ _ _ _ _) as [[c store]|e].
Qed.

(** An environment with a route table and downstream TLS, in a world where every call of
    the TLS library succeeds. *)
Definition sample_world : TlsWorld := {|
  construct_context _ := Ok tt;
  set_min_proto_version_ok _ := true;
  set_max_early_data_ok := true;
  set_alpn_protos_ok := true;
  load_certificate_chain _ := Ok tt;
  load_private_key _ := Ok false;
  private_key_matches _ _ := true;
  load_verify_file _ := Ok tt;
  is_regular_file _ := Ok true |}.

Definition sample_environment : Environment := fun name =>
  if bool_decide (name = "APIGATE_ROUTES"%string) then Some (L "[...]")
  else if bool_decide (name = "APIGATE_TLS_CERT_FILE"%string) then Some (L "/etc/gate/cert.pem")
  else if bool_decide (name = "APIGATE_TLS_KEY_FILE"%string) then Some (L "/etc/gate/key.pem")
  else if bool_decide (name = "APIGATE_MAX_CONNECTIONS"%string) then Some (L "512")
  else None.

Definition sample_load : result (AppConfig * list TlsContext) :=
  load_config_from_environment (W := sample_world) (fun _ => None) (fun _ => None)
    (fun _ => events_of 0 sample_syntax) (fun _ => Some sample_document) sample_environment.

Lemma load_config_valid_witness :
  match sample_load with
  | Ok (c, store) =>
      max_connections c = 512 /\ routes c = sample_routes /\ downstream_tls_context c = Some 0%nat /\
      length store = 1%nat
  | Throw _ => False
  end /\
  match sample_load with
  | Ok (c, store) => config_valid (fun _ => None) (fun _ => None) sample_environment c store
  | Throw e => exists what, e = ConfigError what
  end.
Proof.
  split; [by vm_compute|].
  apply (load_config_valid (H := sample_world) (fun _ => None) (fun _ => None)
           (fun _ => events_of 0 sample_syntax) (fun _ => Some sample_document) sample_environment).
  intros value document [= <-]. cbn. repeat split; lia.
Defined.
