(* ===== verification/HealthCheck.v ===== *)
(** * Health checks (src/health_check.cpp)

    [Probe] is one bounded GET: a chain of asynchronous operations under one deadline.
    [HealthChecks] keeps a probe per target, starts those that are due, records their
    outcomes and arms a timer for the next one.  A state holds the operations whose
    handler has not run ([pb_pending]) and the wait of the timer; an event is one handler
    run by the executor.  What initiating an operation answers is an argument of each
    event. *)

From S2P Require Import Prelude Text ConfigTypes Errors Http HealthState ProxyMessage.

Local Open Scope Z_scope.

(** ** Probe *)

Record ProbeTarget := mkTarget {
  tg_route : nat;
  tg_upstream : nat;
  tg_backend : UpstreamConfig;
  tg_health : HealthCheckConfig }.

Inductive ProbeOp := op_deadline | op_resolve | op_connect | op_handshake | op_write | op_read_header.

#[export] Instance ProbeOp_eq_dec : EqDecision ProbeOp.
Proof. solve_decision. Defined.

Record Probe := mkProbe {
  pb_target : ProbeTarget;
  pb_tls : bool;                  (* [tls_ != nullptr] *)
  pb_done : bool;
  pb_completion : bool;           (* [completion_] is not empty *)
  pb_pending : list ProbeOp }.

(** What the network layer answers to initiating an operation and to configuring the TLS
    identity; [Throw] is an exception. *)
Record Answers := mkAnswers {
  initiate : ProbeOp -> result unit;
  identity : text -> result bool }.

(** The outcome given to the completion callback. *)
Definition Report : Type := bool * string.

Definition make_Probe (target : ProbeTarget) (context : TlsHandle) (completion : bool) : result Probe :=
  _ ← ensure completion (invalid_argument "health probe completion must not be empty");
  if bool_decide (scheme (tg_backend target) = https) then
    match context with
    | None => Throw (invalid_argument "HTTPS probe requires validated trust")
    | Some _ => Ok (mkProbe target true false completion [])
    end
  else Ok (mkProbe target false false completion []).

(** [close] cancels the operations: their handlers still run, with an error. *)
Definition probe_cancel (p : Probe) : Probe :=
  if pb_done p then p else mkProbe (pb_target p) (pb_tls p) true false (pb_pending p).

Definition probe_finish (success : bool) (reason : string) (p : Probe) : Probe * option Report :=
  if pb_done p then (p, None)
  else (mkProbe (pb_target p) (pb_tls p) true false (pb_pending p),
        if pb_completion p then Some (success, if success then "probe_succeeded"%string else reason) else None).

(** An action of a handler: it may finish the probe or initiate an operation, and may
    throw. *)
Definition Action : Type := Probe -> Probe * option Report * result unit.

Definition act_finish (success : bool) (reason : string) : Action := fun p =>
  let '(p, report) := probe_finish success reason p in (p, report, Ok tt).

Definition act_begin (a : Answers) (op : ProbeOp) : Action := fun p =>
  match initiate a op with
  | Ok _ => (mkProbe (pb_target p) (pb_tls p) (pb_done p) (pb_completion p) (pb_pending p ++ [op]), None, Ok tt)
  | Throw e => (p, None, Throw e)
  end.

Definition guarded (action : Action) (p : Probe) : Probe * option Report :=
  if pb_done p then (p, None)
  else
    let '(p, report, r) := action p in
    match r with
    | Ok _ => (p, report)
    | Throw _ => probe_finish false "exception" p
    end.

Definition probe_start (a : Answers) (p : Probe) : Probe * option Report :=
  guarded (fun p =>
    let '(p, report, r) := act_begin a op_deadline p in
    match r with
    | Ok _ => act_begin a op_resolve p
    | Throw e => (p, report, Throw e)
    end) p.

Definition connected (a : Answers) (e : error_code) : Action := fun p =>
  if failed e then act_finish false "connect" p
  else if negb (pb_tls p) then act_begin a op_write p
  else
    match identity a (host (tg_backend (pb_target p))) with
    | Throw e => (p, None, Throw e)
    | Ok false => act_finish false "handshake" p
    | Ok true => act_begin a op_handshake p
    end.

(** A handler with the error it is given; the last with the status of the response. *)
Inductive ProbeEvent :=
  | on_deadline (e : error_code)
  | on_resolved (e : error_code)
  | on_connected (e : error_code)
  | on_handshake (e : error_code)
  | on_written (e : error_code)
  | on_header (e : error_code) (status : Z).

Definition event_op (event : ProbeEvent) : ProbeOp :=
  match event with
  | on_deadline _ => op_deadline
  | on_resolved _ => op_resolve
  | on_connected _ => op_connect
  | on_handshake _ => op_handshake
  | on_written _ => op_write
  | on_header _ _ => op_read_header
  end.

Definition event_action (a : Answers) (event : ProbeEvent) : Action :=
  match event with
  | on_deadline e => fun p =>
      if negb (failed e) then act_finish false "timeout" p
      else if negb (error_is e operation_aborted) then act_finish false "timer" p
      else (p, None, Ok tt)
  | on_resolved e =>
      if failed e then act_finish false "resolve" else act_begin a op_connect
  | on_connected e => connected a e
  | on_handshake e =>
      if failed e then act_finish false "handshake" else act_begin a op_write
  | on_written e =>
      if failed e then act_finish false "write" else act_begin a op_read_header
  | on_header e status =>
      if failed e then act_finish false "read"
      else act_finish ((200 <=? status) && (status <=? 299)) "status"
  end.

(** The handler of [event] runs: its operation is over. *)
Definition probe_handle (a : Answers) (event : ProbeEvent) (p : Probe) : Probe * option Report :=
  guarded (event_action a event)
    (mkProbe (pb_target p) (pb_tls p) (pb_done p) (pb_completion p)
       (List.filter (fun op => negb (bool_decide (op = event_op event))) (pb_pending p))).

(** The request of a probe. *)
Section ProbeRequest.
Context {B : BeastHttp}.

Definition probe_request (target : ProbeTarget) : HttpRequest :=
  let request := mkRequest get (hc_path (tg_health target)) 11 no_fields [] in
  let request := rq_set (L "Host")
                   (make_upstream_authority (host (tg_backend target)) (port (tg_backend target))) request in
  rq_set (L "Connection") (L "close") request.

End ProbeRequest.

(** ** HealthChecks *)

(** A logged transition: which one, of which slot, and why. *)
Definition Transition : Type := HealthTransition * (nat * nat) * string.

Record HealthChecks := mkChecks {
  targets_ : list ProbeTarget;
  probes_ : list (option Probe);
  schedule_ : ProbeSchedule;
  state_ : UpstreamHealthState;       (* shared with admission *)
  context_ : TlsHandle;
  timer_ : option Z;                  (* the wait of the timer *)
  posted_ : bool;                     (* the posted [pump] has not run *)
  hc_started_ : bool;
  hc_stopped_ : bool;
  pumping_ : bool;
  on_failure_calls : nat;
  transition_log : list Transition }.

Definition set_schedule (schedule : ProbeSchedule) (s : HealthChecks) : HealthChecks :=
  mkChecks (targets_ s) (probes_ s) schedule (state_ s) (context_ s) (timer_ s) (posted_ s)
    (hc_started_ s) (hc_stopped_ s) (pumping_ s) (on_failure_calls s) (transition_log s).
Definition set_probe (slot : nat) (probe : option Probe) (s : HealthChecks) : HealthChecks :=
  mkChecks (targets_ s) (<[slot := probe]> (probes_ s)) (schedule_ s) (state_ s) (context_ s) (timer_ s)
    (posted_ s) (hc_started_ s) (hc_stopped_ s) (pumping_ s) (on_failure_calls s) (transition_log s).
Definition set_state (state : UpstreamHealthState) (s : HealthChecks) : HealthChecks :=
  mkChecks (targets_ s) (probes_ s) (schedule_ s) state (context_ s) (timer_ s) (posted_ s)
    (hc_started_ s) (hc_stopped_ s) (pumping_ s) (on_failure_calls s) (transition_log s).
Definition set_timer (timer : option Z) (s : HealthChecks) : HealthChecks :=
  mkChecks (targets_ s) (probes_ s) (schedule_ s) (state_ s) (context_ s) timer (posted_ s)
    (hc_started_ s) (hc_stopped_ s) (pumping_ s) (on_failure_calls s) (transition_log s).
Definition set_posted (posted : bool) (s : HealthChecks) : HealthChecks :=
  mkChecks (targets_ s) (probes_ s) (schedule_ s) (state_ s) (context_ s) (timer_ s) posted
    (hc_started_ s) (hc_stopped_ s) (pumping_ s) (on_failure_calls s) (transition_log s).
Definition set_started (s : HealthChecks) : HealthChecks :=
  mkChecks (targets_ s) (probes_ s) (schedule_ s) (state_ s) (context_ s) (timer_ s) (posted_ s)
    true (hc_stopped_ s) (pumping_ s) (on_failure_calls s) (transition_log s).
Definition set_pumping (pumping : bool) (s : HealthChecks) : HealthChecks :=
  mkChecks (targets_ s) (probes_ s) (schedule_ s) (state_ s) (context_ s) (timer_ s) (posted_ s)
    (hc_started_ s) (hc_stopped_ s) pumping (on_failure_calls s) (transition_log s).
Definition log_transition (entry : Transition) (s : HealthChecks) : HealthChecks :=
  mkChecks (targets_ s) (probes_ s) (schedule_ s) (state_ s) (context_ s) (timer_ s) (posted_ s)
    (hc_started_ s) (hc_stopped_ s) (pumping_ s) (on_failure_calls s) (transition_log s ++ [entry]).

(** The targets of a configuration: every upstream of every route that has a check. *)
Definition route_targets (route : nat) (entry : RouteConfig) : list ProbeTarget :=
  match health_check entry with
  | None => []
  | Some settings => imap (fun upstream backend => mkTarget route upstream backend settings) (upstreams entry)
  end.

Definition all_targets (routes : list RouteConfig) : list ProbeTarget := concat (imap route_targets routes).

Definition make_HealthChecks (config : AppConfig) (state : option UpstreamHealthState) (now : Z)
    : result HealthChecks :=
  match state with
  | None => Throw (invalid_argument "health check callbacks/state must not be empty")
  | Some state =>
      let targets := all_targets (routes config) in
      schedule ← make_ProbeSchedule ((fun t => hc_interval_ms (tg_health t)) <$> targets) now;
      Ok (mkChecks targets (replicate (length targets) None) schedule state (upstream_tls_context config)
            None false false false false 0 [])
  end.

Definition checks_stop (s : HealthChecks) : HealthChecks :=
  if hc_stopped_ s then s
  else mkChecks (targets_ s) (replicate (length (probes_ s)) None) (schedule_stop (schedule_ s)) (state_ s)
         (context_ s) None (posted_ s) (hc_started_ s) true (pumping_ s) (on_failure_calls s) (transition_log s).

Definition checks_failed (s : HealthChecks) : HealthChecks :=
  if hc_stopped_ s then s
  else
    let s := checks_stop s in
    mkChecks (targets_ s) (probes_ s) (schedule_ s) (state_ s) (context_ s) (timer_ s) (posted_ s)
      (hc_started_ s) (hc_stopped_ s) (pumping_ s) (S (on_failure_calls s)) (transition_log s).

Definition transition_is (a b : HealthTransition) : bool := bool_decide (a = b).

(** The completion of the probe of a slot; [pump] is the pump called last.  The vectors
    are indexed in range ([checks_ok]). *)
Definition completed (pump : HealthChecks -> option HealthChecks) (index : nat) (report : Report)
    (s : HealthChecks) : option HealthChecks :=
  if hc_stopped_ s then Some s
  else
    match complete (schedule_ s) index with
    | Throw _ => Some (checks_failed s)
    | Ok schedule =>
        let s := set_probe index None (set_schedule schedule s) in
        match targets_ s !! index with
        | None => Some s
        | Some target =>
            match record (state_ s) (tg_route target) (tg_upstream target) report.1 with
            | Throw _ => Some (checks_failed s)
            | Ok (transition, state) =>
                let s := set_state state s in
                pump (if negb (transition_is transition transition_unchanged)
                      then log_transition (transition, (tg_route target, tg_upstream target), report.2) s
                      else s)
            end
        end
    end.

(** The loop of [pump]; [clock k] is the [k]-th reading of the clock and [answers k] what
    the [k]-th probe meets.  A probe may complete while it is started: [pumping_] is set,
    so its [pump] returns at once.  [None] is no fuel. *)
Fixpoint pump_loop (fuel : nat) (clock : nat -> Z) (answers : nat -> Answers) (k : nat) (s : HealthChecks)
    : option (HealthChecks * result unit) :=
  match fuel with
  | O => None
  | S fuel =>
      let '(index, schedule) := take_due (schedule_ s) (clock k) in
      let s := set_schedule schedule s in
      match index with
      | None => Some (s, Ok tt)
      | Some slot =>
          match targets_ s !! slot with
          | None => Some (s, Ok tt)
          | Some target =>
              match make_Probe target (context_ s) true with
              | Throw e => Some (s, Throw e)
              | Ok probe =>
                  let '(probe, report) := probe_start (answers k) probe in
                  let s := set_probe slot (Some probe) s in
                  s ← match report with
                      | Some report => completed Some slot report s
                      | None => Some s
                      end;
                  pump_loop fuel clock answers (S k) s
              end
          end
      end
  end.

(** What a pump meets: the clock, the network, and the timer.  The readings of the clock span
    at most [pw_span] times the shortest interval of a target, which is 100 ms. *)
Record PumpWorld := mkPumpWorld {
  pw_span : nat;
  pw_clock : nat -> Z;
  pw_answers : nat -> Answers;
  pw_arm : result unit }.

Definition pump (fuel : nat) (w : PumpWorld) (s : HealthChecks) : option HealthChecks :=
  if hc_stopped_ s || pumping_ s then Some s
  else
    '(s, r) ← pump_loop fuel (pw_clock w) (pw_answers w) 0 (set_pumping true s);
    let s :=
      match r with
      | Throw _ => checks_failed s
      | Ok _ =>
          match next_due (schedule_ s) with
          | None => s
          | Some due =>
              match pw_arm w with
              | Ok _ => set_timer (Some due) s
              | Throw _ => checks_failed s
              end
          end
      end in
    Some (set_pumping false s).

(** [start] posts the first pump; [posting] is the answer. *)
Definition checks_start (posting : result unit) (s : HealthChecks) : HealthChecks * result unit :=
  if hc_started_ s || hc_stopped_ s || bool_decide (targets_ s = []) then (s, Ok tt)
  else
    let s := set_started s in
    match posting with
    | Ok _ => (set_posted true s, Ok tt)
    | Throw e => (s, Throw e)
    end.

(** The fuel of a pump: a slot that is taken is not due again for 100 ms. *)
Definition pump_fuel (w : PumpWorld) (s : HealthChecks) : nat := S (pw_span w * length (slots_ (schedule_ s))).

(** ** The events of the executor *)

Inductive ChecksEvent :=
  | ev_start (posting : result unit)
  | ev_posted (w : PumpWorld)
  | ev_timer (e : error_code) (w : PumpWorld)
  | ev_probe (slot : nat) (a : Answers) (event : ProbeEvent) (w : PumpWorld)
  | ev_stop.

(** The handler of a wait.  A wait replaced or cancelled reports [operation_aborted]; any
    other outcome is that of the current wait. *)
Definition on_timer (e : error_code) (w : PumpWorld) (s : HealthChecks) : option HealthChecks :=
  if error_is e operation_aborted then Some s
  else match timer_ s with
       | None => Some s
       | Some _ =>
           let s := set_timer None s in
           if negb (failed e) then pump (pump_fuel w s) w s else Some (checks_failed s)
       end.

(** A handler of the probe of a slot runs when its operation is pending.  The handlers of
    a probe that was reset find it done, and do nothing. *)
Definition on_probe (slot : nat) (a : Answers) (event : ProbeEvent) (w : PumpWorld) (s : HealthChecks)
    : option HealthChecks :=
  match probes_ s !! slot with
  | Some (Some probe) =>
      if bool_decide (event_op event ∈ pb_pending probe) then
        let '(probe, report) := probe_handle a event probe in
        let s := set_probe slot (Some probe) s in
        match report with
        | Some report => completed (fun s => pump (pump_fuel w s) w s) slot report s
        | None => Some s
        end
      else Some s
  | _ => Some s
  end.

Definition checks_step (s : HealthChecks) (event : ChecksEvent) : option HealthChecks :=
  match event with
  | ev_start posting => Some (checks_start posting s).1
  | ev_posted w =>
      if posted_ s then let s := set_posted false s in pump (pump_fuel w s) w s else Some s
  | ev_timer e w => on_timer e w s
  | ev_probe slot a event w => on_probe slot a event w s
  | ev_stop => Some (checks_stop s)
  end.

(** ** A probe reports once *)

(** A handler runs for a pending operation; a wait is aborted only by [close]. *)
Definition probe_enabled (p : Probe) (event : ProbeEvent) : Prop :=
  event_op event ∈ pb_pending p /\ (event = on_deadline operation_aborted -> pb_done p = true).

(** A probe that is not done has its deadline and one transport operation pending. *)
Definition probe_live (p : Probe) : Prop :=
  pb_done p = false ->
  pb_completion p = true /\ exists op, op <> op_deadline /\ pb_pending p = [op_deadline; op].

(** A successful outcome is that of a response with a 2xx status. *)
Definition success_is (event : ProbeEvent) (report : Report) : Prop :=
  report.1 = true -> exists status, event = on_header no_error status /\ 200 <= status <= 299.

Lemma make_Probe_fresh target context p :
  make_Probe target context true = Ok p ->
  pb_done p = false /\ pb_completion p = true /\ pb_pending p = [] /\ pb_target p = target.
Proof.
  unfold make_Probe, ensure. cbn [mbind result_bind]. destruct (bool_decide _); [destruct context|]; cbn;
    try done; by intros [= <-].
Qed.

Lemma make_Probe_Ok target context :
  (scheme (tg_backend target) = https -> is_Some context) -> exists p, make_Probe target context true = Ok p.
Proof.
  intros H. unfold make_Probe, ensure. cbn [mbind result_bind]. destruct (bool_decide _) eqn:E; [|eauto].
  apply bool_decide_eq_true in E. destruct (H E) as [c ->]. eauto.
Qed.

Lemma probe_start_cases a target context p0 :
  make_Probe target context true = Ok p0 ->
  let '(p, report) := probe_start a p0 in
  (report = None /\ pb_done p = false /\ probe_live p) \/
  (report = Some (false, "exception"%string) /\ pb_done p = true).
Proof.
  intros (Hd & Hc & Hp & _)%make_Probe_fresh. unfold probe_start, guarded. rewrite Hd. unfold act_begin, probe_finish.
  destruct (initiate a op_deadline); cbn.
  - destruct (initiate a op_resolve); cbn; rewrite Hd, ?Hc; [left|by right].
    split_and!; [done..|]. intros _. cbn. rewrite Hp. split; [done|]. by exists op_resolve.
  - rewrite Hd, Hc. by right.
Qed.

Definition remains (event : ProbeEvent) (p : Probe) : Probe :=
  mkProbe (pb_target p) (pb_tls p) (pb_done p) (pb_completion p)
    (List.filter (fun op => negb (bool_decide (op = event_op event))) (pb_pending p)).

(** What an action does on a probe that is not done, its own operation being over. *)
Definition action_ok (event : ProbeEvent) (p : Probe) (outcome : Probe * option Report * result unit) : Prop :=
  let '(p', report, r) := outcome in
  match r with
  | Throw _ => report = None /\ pb_done p' = false /\ pb_completion p' = true
  | Ok _ =>
      (exists rep, report = Some rep /\ pb_done p' = true /\ success_is event rep) \/
      (report = None /\ pb_done p' = false /\ pb_completion p' = true /\
       exists op, op <> op_deadline /\ pb_pending p' = pb_pending p ++ [op])
  end.

Lemma act_finish_ok event p success reason :
  pb_done p = false -> pb_completion p = true ->
  (success = true -> exists status, event = on_header no_error status /\ 200 <= status <= 299) ->
  action_ok event p (act_finish success reason p).
Proof.
  intros Hd Hc Hs. unfold act_finish, probe_finish, action_ok. rewrite Hd, Hc. left. eexists.
  split_and!; [done..|]. exact Hs.
Qed.

Lemma act_begin_ok event p a op :
  pb_done p = false -> pb_completion p = true -> op <> op_deadline -> action_ok event p (act_begin a op p).
Proof.
  intros Hd Hc Hop. unfold act_begin, action_ok. destruct (initiate a op); [right|done].
  split_and!; [done..|]. by exists op.
Qed.

Lemma event_action_ok a event p :
  pb_done p = false -> pb_completion p = true -> event <> on_deadline operation_aborted ->
  action_ok event p (event_action a event p).
Proof.
  intros Hd Hc Hne. destruct event as [e|e|e|e|e|e status]; cbn [event_action].
  - destruct (failed e) eqn:F; cbn [negb]; [|by apply act_finish_ok].
    destruct (error_is e operation_aborted) eqn:A; cbn [negb]; [|by apply act_finish_ok].
    apply error_is_true in A as ->. done.
  - destruct (failed e); [by apply act_finish_ok|by apply act_begin_ok].
  - unfold connected. destruct (failed e); [by apply act_finish_ok|].
    destruct (pb_tls p); cbn [negb]; [|by apply act_begin_ok].
    destruct (identity a _) as [[]|]; [by apply act_begin_ok|by apply act_finish_ok|done].
  - destruct (failed e); [by apply act_finish_ok|by apply act_begin_ok].
  - destruct (failed e); [by apply act_finish_ok|by apply act_begin_ok].
  - destruct (failed e) eqn:F; [by apply act_finish_ok|]. apply failed_false in F as ->.
    apply act_finish_ok; [done..|]. intros H. reflect_bools. by exists status.
Qed.

Lemma filter_pending event op :
  op <> op_deadline -> event_op event ∈ [op_deadline; op] -> event_op event <> op_deadline ->
  List.filter (fun o => negb (bool_decide (o = event_op event))) [op_deadline; op] = [op_deadline].
Proof.
  intros Hop Hin Hne. assert (event_op event = op) as -> by set_solver. cbn [List.filter].
  rewrite bool_decide_eq_false_2 by done. by rewrite bool_decide_eq_true_2.
Qed.

Lemma deadline_finishes a e p :
  pb_done p = false -> e <> operation_aborted -> pb_done (event_action a (on_deadline e) p).1.1 = true.
Proof.
  intros Hd Hne. cbn [event_action]. unfold act_finish, probe_finish. rewrite Hd.
  destruct (failed e); cbn [negb]; [|done]. destruct (error_is e operation_aborted) eqn:E; [|done].
  by apply error_is_true in E.
Qed.

Lemma probe_handle_cases a event p :
  probe_live p -> probe_enabled p event ->
  let '(p', report) := probe_handle a event p in
  (pb_done p = true /\ report = None /\ pb_done p' = true) \/
  (pb_done p = false /\ report = None /\ pb_done p' = false /\ probe_live p' /\ event_op event <> op_deadline) \/
  (pb_done p = false /\ pb_done p' = true /\ exists rep, report = Some rep /\ success_is event rep).
Proof.
  intros Hlive [Hin Habort]. unfold probe_handle. fold (remains event p). unfold guarded.
  replace (pb_done (remains event p)) with (pb_done p) by done.
  destruct (pb_done p) eqn:Hd; [left; by rewrite <- Hd|].
  destruct (Hlive Hd) as (Hc & op & Hop & Hp). rewrite Hp in Hin.
  assert (Hne : event <> on_deadline operation_aborted) by (intros E; by specialize (Habort E)).
  pose proof (event_action_ok a event (remains event p) Hd Hc Hne) as Hok.
  assert (Hdl : event_op event = op_deadline -> pb_done (event_action a event (remains event p)).1.1 = true).
  { destruct event as [e| | | | |]; try done. intros _. apply deadline_finishes; [done|congruence]. }
  destruct (event_action a event (remains event p)) as [[p' report] [u|x]]; cbn in Hok, Hdl.
  - destruct Hok as [(rep & -> & Hd' & Hs)|(-> & Hd' & Hc' & op' & Hop' & Hp')].
    + right; right. split_and!; [done..|]. by exists rep.
    + right; left. assert (Hnd : event_op event <> op_deadline) by (intros E; specialize (Hdl E); congruence).
      split_and!; try done. intros _. split; [done|]. exists op'. split; [done|].
      rewrite Hp'. unfold remains. cbn [pb_pending]. by rewrite Hp, (filter_pending event op).
  - destruct Hok as (-> & Hd' & Hc'). unfold probe_finish. rewrite Hd', Hc'. right; right.
    split_and!; [done..|]. by eexists.
Qed.

(** What can happen to a probe, with what it has reported. *)
Inductive probe_trace : Probe -> list Report -> Prop :=
  | trace_start target context a p :
      make_Probe target context true = Ok p ->
      probe_trace (probe_start a p).1 (option_list (probe_start a p).2)
  | trace_event a event p reports :
      probe_trace p reports -> probe_enabled p event ->
      probe_trace (probe_handle a event p).1 (reports ++ option_list (probe_handle a event p).2)
  | trace_cancel p reports : probe_trace p reports -> probe_trace (probe_cancel p) reports.

Lemma probe_trace_ok p reports :
  probe_trace p reports ->
  probe_live p /\ (pb_done p = false -> reports = []) /\ (length reports <= 1)%nat.
Proof.
  induction 1 as [target context a p H|a event p reports _ (Hl & Hr & Hn) He|p reports _ (Hl & Hr & Hn)].
  - apply (probe_start_cases a) in H. destruct (probe_start a p) as [p' report].
    destruct H as [(-> & Hd & Hlive)|[-> Hd]]; cbn; split_and!; try done; [lia| |congruence].
    intros E. congruence.
  - pose proof (probe_handle_cases a event p Hl He) as H. destruct (probe_handle a event p) as [p' report].
    destruct H as [(Hd & -> & Hd')|[(Hd & -> & Hd' & Hl' & _)|(Hd & Hd' & rep & -> & _)]]; cbn.
    + rewrite app_nil_r. split_and!; [intros E; congruence|congruence|done].
    + rewrite app_nil_r. split_and!; [done|by intros _; apply Hr|done].
    + rewrite (Hr Hd). cbn. split_and!; [intros E; congruence|congruence|done].
  - unfold probe_cancel. destruct (pb_done p) eqn:Hd; [by split_and!; try congruence|].
    split_and!; [done|done|done].
Qed.

(** A health probe reports at most once, and something always ends it: until it is
    done it has reported nothing, its deadline is pending beside exactly one transport
    operation, and the deadline, whatever its error, makes it done; once it is done or
    cancelled no handler reports any more; and the only report of success is that of a
    response header with a 2xx status. *)
Theorem probe_reports_once p reports :
  probe_trace p reports ->
  (length reports <= 1)%nat /\
  (pb_done p = false -> reports = [] /\ exists op, op <> op_deadline /\ pb_pending p = [op_deadline; op]) /\
  forall a event, probe_enabled p event ->
    let '(p', report) := probe_handle a event p in
    (pb_done p = true -> report = None) /\
    (event_op event = op_deadline -> pb_done p' = true) /\
    (forall rep, report = Some rep -> success_is event rep).
Proof.
  intros H. destruct (probe_trace_ok _ _ H) as (Hl & Hr & Hn). split; [done|]. split.
  { intros Hd. split; [by apply Hr|]. by apply Hl. }
  intros a event He. pose proof (probe_handle_cases a event p Hl He) as Hh.
  destruct (probe_handle a event p) as [p' report].
  destruct Hh as [(Hd & -> & Hd')|[(Hd & -> & Hd' & _ & Hne)|(Hd & Hd' & rep & -> & Hs)]].
  - by split_and!.
  - split_and!; [done|done|done].
  - split_and!; [congruence|done|]. by intros ? [= <-].
Qed.

(** ** The checker: invariant *)

(** The invariant between events, and inside a handler with the slot [hole] being handled:
    a slot is in flight exactly when it has a probe, which is alive. *)
Record checks_inv (rs : list RouteConfig) (hole : option nat) (s : HealthChecks) : Prop := {
  ci_schedule : schedule_ok (schedule_ s);
  ci_targets : targets_ s = all_targets rs;
  ci_probes : length (probes_ s) = length (targets_ s);
  ci_slots : length (slots_ (schedule_ s)) = length (targets_ s);
  ci_alive i p : hole <> Some i -> probes_ s !! i = Some (Some p) -> pb_done p = false /\ probe_live p;
  ci_agree i slot : hole <> Some i -> slots_ (schedule_ s) !! i = Some slot ->
    in_flight slot = true <-> exists p, probes_ s !! i = Some (Some p);
  ci_state : exists outcomes, run_records (make_UpstreamHealthState rs) outcomes = Ok (state_ s);
  ci_stopped : hc_stopped_ s = sched_stopped_ (schedule_ s);
  ci_timer : hc_stopped_ s = true -> timer_ s = None;
  ci_failures : (on_failure_calls s <= 1)%nat /\ (on_failure_calls s <> 0%nat -> hc_stopped_ s = true);
  ci_started : hc_started_ s = true -> targets_ s <> [] }.

Lemma run_records_app h outcomes1 outcomes2 h1 h2 :
  run_records h outcomes1 = Ok h1 -> run_records h1 outcomes2 = Ok h2 -> run_records h (outcomes1 ++ outcomes2) = Ok h2.
Proof.
  revert h. induction outcomes1 as [|o rest IH]; intros h H1 H2; cbn in *; [by injection H1 as <-|].
  apply bind_Ok in H1 as (x & Hx & H1). rewrite Hx. cbn. by apply IH.
Qed.

Lemma all_targets_In rs i t :
  all_targets rs !! i = Some t ->
  exists route, rs !! tg_route t = Some route /\ upstreams route !! tg_upstream t = Some (tg_backend t) /\
    health_check route = Some (tg_health t).
Proof.
  intros H%list_elem_of_lookup_2. unfold all_targets in H. apply list_elem_of_In, in_concat in H as (l & Hl & Ht).
  apply list_elem_of_In, list_elem_of_lookup in Hl as (r & Hl). rewrite list_lookup_imap in Hl.
  destruct (rs !! r) as [route|] eqn:Hr; cbn in Hl; [|done]. injection Hl as <-.
  unfold route_targets in Ht. destruct (health_check route) as [settings|] eqn:Hc; [|done].
  apply list_elem_of_In, list_elem_of_lookup in Ht as (u & Hu). rewrite list_lookup_imap in Hu.
  destruct (upstreams route !! u) as [backend|] eqn:Hb; cbn in Hu; [|done]. injection Hu as <-. cbn. eauto.
Qed.

(** A configured target can always be recorded. *)
Lemma record_target rs h outcomes t i b :
  all_targets rs !! i = Some t -> run_records (make_UpstreamHealthState rs) outcomes = Ok h ->
  exists x h', record h (tg_route t) (tg_upstream t) b = Ok (x, h').
Proof.
  intros Ht Hrun. apply all_targets_In in Ht as (route & Hr & Hu & _).
  destruct (make_health_slot_at rs _ _ _ Hr (lookup_lt_Some _ _ _ Hu)) as [Hs _].
  destruct (run_records_slot _ _ _ _ _ _ Hrun Hs) as [_ Hat].
  unfold record, slot_at, vec_at in *. destruct (health_routes_ h !! tg_route t) as [rt|]; [|done]. cbn.
  rewrite Hat. cbn. destruct (hr_config rt); [destruct (record_slot _ _ _)|]; eauto.
Qed.

(** What the handlers leave alone. *)
Definition same_frame (s s' : HealthChecks) : Prop :=
  targets_ s' = targets_ s /\ context_ s' = context_ s /\ timer_ s' = timer_ s /\ posted_ s' = posted_ s /\
  hc_started_ s' = hc_started_ s /\ hc_stopped_ s' = hc_stopped_ s /\ pumping_ s' = pumping_ s /\
  on_failure_calls s' = on_failure_calls s.

Lemma same_frame_refl s : same_frame s s.
Proof. done. Qed.
Lemma same_frame_trans s1 s2 s3 : same_frame s1 s2 -> same_frame s2 s3 -> same_frame s1 s3.
Proof. unfold same_frame. intuition congruence. Qed.

(** The completion of a slot in flight ends with [pump], the slot being idle again. *)
Lemma completed_spec rs pump i report s slot :
  checks_inv rs (Some i) s -> hc_stopped_ s = false ->
  slots_ (schedule_ s) !! i = Some slot -> in_flight slot = true ->
  exists s', completed pump i report s = pump s' /\ checks_inv rs None s' /\ same_frame s s' /\
    slots_ (schedule_ s') = <[i := mkProbeSlot (interval slot) (due slot) false]> (slots_ (schedule_ s)).
Proof.
  intros Hinv Hns Hslot Hfl. unfold completed. rewrite Hns.
  assert (Hcomp : exists schedule, complete (schedule_ s) i = Ok schedule /\
    slots_ schedule = <[i := mkProbeSlot (interval slot) (due slot) false]> (slots_ (schedule_ s)) /\
    sched_stopped_ schedule = sched_stopped_ (schedule_ s)).
  { unfold complete, vec_at. rewrite Hslot. cbn. rewrite Hfl. by eexists. }
  destruct Hcomp as (schedule & Hc & Hslots & Hst). rewrite Hc.
  pose proof (complete_ok _ _ _ (ci_schedule _ _ _ Hinv) Hc) as Hok.
  assert (Hi : (i < length (targets_ s))%nat) by (rewrite <- (ci_slots _ _ _ Hinv); by eapply lookup_lt_Some).
  destruct (lookup_lt_is_Some_2 _ _ Hi) as [t Ht].
  cbn [targets_ set_probe set_schedule state_]. rewrite Ht.
  destruct (ci_state _ _ _ Hinv) as [outcomes Hrun].
  rewrite (ci_targets _ _ _ Hinv) in Ht.
  destruct (record_target _ _ _ _ _ report.1 Ht Hrun) as (x & h' & Hrec). rewrite Hrec.
  set (s1 := set_state h' (set_probe i None (set_schedule schedule s))).
  assert (H1 : checks_inv rs None s1).
  { destruct Hinv as [? ? Hp Hs Hal Hag ? Hstop Htm Hf Hsta]. constructor; cbn; try done.
    - by rewrite length_insert.
    - by rewrite Hslots, length_insert.
    - intros j p _ Hj. destruct (decide (j = i)) as [->|Hne].
      + rewrite list_lookup_insert_eq in Hj by lia. done.
      + rewrite list_lookup_insert_ne in Hj by done. apply (Hal j); [congruence|done].
    - intros j sl _ Hj. rewrite Hslots in Hj. destruct (decide (j = i)) as [->|Hne].
      + rewrite list_lookup_insert_eq in Hj by lia. injection Hj as <-. cbn.
        rewrite list_lookup_insert_eq by lia. split; [done|]. by intros (p & ?).
      + rewrite list_lookup_insert_ne in Hj by done. rewrite list_lookup_insert_ne by done. apply Hag; congruence.
    - exists (outcomes ++ [mkOutcome (tg_route t) (tg_upstream t) report.1]).
      eapply run_records_app; [exact Hrun|]. cbn. by rewrite Hrec.
    - congruence. }
  eexists. split; [reflexivity|].
  destruct (negb _); (split; [|by split]); [|exact H1]. by destruct H1.
Qed.

(** A probe that is alive fills the hole of its slot. *)
Lemma fill_hole rs i p s slot :
  checks_inv rs (Some i) s -> slots_ (schedule_ s) !! i = Some slot -> in_flight slot = true ->
  probes_ s !! i = Some (Some p) -> pb_done p = false -> probe_live p -> checks_inv rs None s.
Proof.
  intros [? ? ? ? Hal Hag ? ? ? ? ?] Hslot Hfl Hp Hd Hl. constructor; try done.
  - intros j q _ Hj. destruct (decide (j = i)) as [->|]; [|apply (Hal j); congruence].
    rewrite Hp in Hj. by injection Hj as <-.
  - intros j sl _ Hj. destruct (decide (j = i)) as [->|]; [|apply Hag; congruence].
    rewrite Hslot in Hj. injection Hj as <-. split; [by exists p|done].
Qed.

Lemma checks_stop_inv rs hole s :
  checks_inv rs hole s -> hc_stopped_ s = false -> checks_inv rs None (checks_stop s).
Proof.
  intros [Hs ? ? Hl ? ? ? ? ? Hf ?] Hns. unfold checks_stop. rewrite Hns. constructor; cbn; try done.
  - by apply schedule_stop_ok.
  - by rewrite length_replicate.
  - by rewrite length_fmap.
  - intros j p _ Hj. by apply lookup_replicate in Hj as [? _].
  - intros j sl _ Hj. rewrite list_lookup_fmap in Hj. destruct (slots_ (schedule_ s) !! j); [|done].
    injection Hj as <-. cbn. split; [done|]. intros (q & Hq). by apply lookup_replicate in Hq as [? _].
  - by destruct Hf.
Qed.

Lemma checks_failed_inv rs hole s :
  checks_inv rs hole s -> hc_stopped_ s = false -> checks_inv rs None (checks_failed s).
Proof.
  intros Hinv Hns. unfold checks_failed. rewrite Hns.
  assert (Hz : on_failure_calls s = 0%nat).
  { destruct (ci_failures _ _ _ Hinv) as [_ H]. destruct (on_failure_calls s); [done|].
    rewrite H in Hns by done. done. }
  pose proof (checks_stop_inv _ _ _ Hinv Hns) as Hs. destruct Hs. constructor; cbn; try done.
  unfold checks_stop in *. rewrite Hns in *. cbn in *. rewrite Hz. split; [lia|done].
Qed.

Lemma checks_failed_inv_None rs s : checks_inv rs None s -> checks_inv rs None (checks_failed s).
Proof.
  intros H. destruct (hc_stopped_ s) eqn:E; [unfold checks_failed; by rewrite E|by eapply checks_failed_inv].
Qed.

Lemma set_inv_flags rs s timer posted pumping :
  checks_inv rs None s -> (hc_stopped_ s = true -> timer = None) ->
  checks_inv rs None (set_timer timer (set_posted posted (set_pumping pumping s))).
Proof. intros [] Ht. by constructor. Qed.

(** ** The checker: the pump *)

Definition shortest : Z := 100 * ticks_per_ms.

(** The readings of one pump lie within its span, however long, before the end of the clock. *)
Definition within (latest : Z) (span : nat) (now : Z) : Prop := latest - Z.of_nat span * shortest < now <= latest.
Definition spanned (w : PumpWorld) : Prop :=
  exists latest, latest < s64_max /\ forall k, within latest (pw_span w) (pw_clock w k).

(** Taking a due slot and starting its probe: the slot has a probe, or is idle again. *)

(** How often a slot can still be taken. *)
Definition turns (latest : Z) (span : nat) (slot : ProbeSlot) : Z :=
  if due slot <=? latest then Z.min (Z.of_nat span) ((latest - due slot) / shortest + 1) else 0.

Lemma turns_range latest span slot : 0 <= turns latest span slot <= Z.of_nat span.
Proof.
  unfold turns. destruct (_ <=? _) eqn:E; [|lia]. reflect_bools.
  assert (0 <= (latest - due slot) / shortest) by (apply Z.div_pos; unfold shortest, ticks_per_ms; lia). lia.
Qed.

Lemma turns_total latest span slots : sumZ (turns latest span) slots <= Z.of_nat (span * length slots).
Proof.
  induction slots as [|slot rest IH]; cbn [sumZ length]; [lia|]. pose proof (turns_range latest span slot). lia.
Qed.

Lemma turns_taken latest span now slot fl :
  latest < s64_max -> within latest span now -> due slot <= now -> 100 <= interval slot ->
  turns latest span (mkProbeSlot (interval slot) (next_due_time now (interval slot)) fl) + 1 <= turns latest span slot.
Proof.
  intros Hl [Hlo Hhi] Hd Hi. unfold turns. cbn [due]. rewrite (proj2 (Z.leb_le (due slot) _)) by lia.
  assert (Hs : 0 < shortest) by (unfold shortest, ticks_per_ms; lia).
  assert (Hold : (latest - now) / shortest <= (latest - due slot) / shortest) by (apply Z.div_le_mono; lia).
  assert (Hspan : (latest - now) / shortest < Z.of_nat span) by (apply Z.div_lt_upper_bound; lia).
  assert (Hpos : 0 <= (latest - now) / shortest) by (apply Z.div_pos; lia).
  destruct (_ <=? _) eqn:E; [|lia]. reflect_bools.
  assert (Hnew : now + shortest <= next_due_time now (interval slot)).
  { unfold next_due_time in *. unfold shortest, ticks_per_ms in *. case_ifs; reflect_bools; lia. }
  assert ((latest - next_due_time now (interval slot)) / shortest <= (latest - now) / shortest - 1); [|lia].
  replace ((latest - now) / shortest - 1) with ((latest - now + (-1) * shortest) / shortest)
    by (rewrite Z.div_add by lia; lia).
  apply Z.div_le_mono; lia.
Qed.

Lemma take_due_effect s now i s' :
  schedule_ok s -> take_due s now = (Some i, s') ->
  sched_stopped_ s = false /\ exists slot, slots_ s !! i = Some slot /\ eligible now slot = true /\
    slots_ s' = <[i := mkProbeSlot (interval slot) (next_due_time now (interval slot)) true]> (slots_ s) /\
    sched_stopped_ s' = false /\ probe_slot_ok slot.
Proof.
  intros Hok E.
  destruct (take_due_cases s now Hok) as [[_ H]|(Hs & _ & [[_ H]|(j & slot & Hj & He & H & _)])];
    rewrite H in E; [done|done|]. injection E as -> <-. split; [done|]. exists slot. split_and!; try done.
  by eapply Forall_lookup_1; [apply Hok|].
Qed.

(** One iteration on a slot taken. *)
Lemma start_slot rs s now i schedule t a p :
  checks_inv rs None s -> take_due (schedule_ s) now = (Some i, schedule) ->
  targets_ s !! i = Some t -> make_Probe t (context_ s) true = Ok p ->
  let s1 := set_probe i (Some (probe_start a p).1) (set_schedule schedule s) in
  exists s2,
    match (probe_start a p).2 with Some report => completed Some i report s1 | None => Some s1 end = Some s2 /\
    checks_inv rs None s2 /\ same_frame s s2 /\
    exists fl slot, slots_ (schedule_ s) !! i = Some slot /\ eligible now slot = true /\ probe_slot_ok slot /\
      slots_ (schedule_ s2) =
        <[i := mkProbeSlot (interval slot) (next_due_time now (interval slot)) fl]> (slots_ (schedule_ s)).
Proof.
  intros Hinv Htake Ht Hp s1. pose proof (probe_start_cases a _ _ _ Hp) as Hcases.
  pose proof (take_due_ok (schedule_ s) now (ci_schedule _ _ _ Hinv)) as Hok. rewrite Htake in Hok. cbn in Hok.
  destruct (take_due_effect _ _ _ _ (ci_schedule _ _ _ Hinv) Htake) as (Hns & slot & Hslot & Hel & Hslots & Hst & Hpo).
  pose proof (lookup_lt_Some _ _ _ Hslot) as Hi.
  assert (Hns' : hc_stopped_ s = false) by (by rewrite (ci_stopped _ _ _ Hinv)).
  set (taken := mkProbeSlot (interval slot) (next_due_time now (interval slot)) true) in *.
  assert (Htaken : slots_ (schedule_ s1) !! i = Some taken).
  { cbn. rewrite Hslots. by apply list_lookup_insert_eq. }
  assert (Hone : probes_ s1 !! i = Some (Some (probe_start a p).1)).
  { cbn. apply list_lookup_insert_eq. rewrite (ci_probes _ _ _ Hinv), <- (ci_slots _ _ _ Hinv). done. }
  assert (H1 : checks_inv rs (Some i) s1).
  { destruct Hinv as [? ? Hpr Hsl Hal Hag ? Hstop Htm Hf Hsta]. constructor; cbn; try done.
    - by rewrite length_insert.
    - by rewrite Hslots, length_insert.
    - intros j q Hj Hq. rewrite list_lookup_insert_ne in Hq by congruence. by apply (Hal j).
    - intros j sl Hj Hsl'. rewrite Hslots, list_lookup_insert_ne in Hsl' by congruence.
      rewrite list_lookup_insert_ne by congruence. by apply Hag.
    - congruence. }
  destruct (probe_start a p) as [q report]. cbn in Hone. cbn [fst snd] in *.
  destruct Hcases as [(-> & Hd & Hl)|[-> Hd]].
  - exists s1. split; [done|]. split; [by eapply fill_hole|]. split; [by split|]. by exists true, slot.
  - destruct (completed_spec rs Some i (false, "exception"%string) s1 taken H1 Hns' Htaken eq_refl)
      as (s2 & -> & Hi2 & Hf2 & Hs2).
    exists s2. split; [done|]. split; [done|]. split; [by eapply same_frame_trans; [|exact Hf2]|].
    exists false, slot. split_and!; try done. rewrite Hs2. cbn. rewrite Hslots. by rewrite list_insert_insert_eq.
Qed.

Lemma pump_loop_spec rs latest span fuel clock answers k s :
  latest < s64_max -> (forall k, within latest span (clock k)) ->
  checks_inv rs None s -> sumZ (turns latest span) (slots_ (schedule_ s)) < Z.of_nat fuel ->
  exists s' r, pump_loop fuel clock answers k s = Some (s', r) /\ same_frame s s' /\
    match r with
    | Ok _ => checks_inv rs None s'
    | Throw _ => hc_stopped_ s' = false /\ exists i, checks_inv rs (Some i) s'
    end.
Proof.
  intros Hlate Hclock. revert k s. induction fuel as [|fuel IH]; intros k s Hinv Hfuel.
  { pose proof (sumZ_nonneg (turns latest span) (slots_ (schedule_ s))) as Hz.
    specialize (Hz (fun slot _ => proj1 (turns_range latest span slot))). lia. }
  cbn [pump_loop].
  pose proof (take_due_ok (schedule_ s) (clock k) (ci_schedule _ _ _ Hinv)) as Hok.
  destruct (take_due (schedule_ s) (clock k)) as [[i|] schedule] eqn:Htake.
  - destruct (take_due_effect _ _ _ _ (ci_schedule _ _ _ Hinv) Htake) as (Hns & slot & Hslot & Hel & Hslots & Hst & Hpo).
    assert (Hi : (i < length (targets_ s))%nat) by (rewrite <- (ci_slots _ _ _ Hinv); by eapply lookup_lt_Some).
    destruct (lookup_lt_is_Some_2 _ _ Hi) as [t Ht]. cbn [targets_ set_schedule context_]. rewrite Ht.
    destruct (make_Probe t (context_ s) true) as [p|e] eqn:Hp.
    + destruct (start_slot rs s (clock k) i schedule t (answers k) p Hinv Htake Ht Hp)
        as (s2 & E & Hi2 & Hf2 & fl & slot' & Hslot' & _ & _ & Hs2).
      destruct (probe_start (answers k) p) as [q report]. cbn in E. rewrite E. cbn [mbind option_bind].
      assert (slot' = slot) as -> by congruence.
      destruct (IH (S k) s2 Hi2) as (s' & r & Hloop & Hinv' & Hf'); [|eexists _, _; split; [exact Hloop|]; split;
        [by eapply same_frame_trans|done]].
      rewrite Hs2, (sumZ_insert _ _ _ _ _ Hslot).
      apply andb_true_iff in Hel as [_ Hel]. reflect_bools.
      pose proof (turns_taken latest span (clock k) slot fl Hlate (Hclock k) Hel (proj1 Hpo)). lia.
    + eexists _, _. split; [reflexivity|]. split; [by split|]. split; [cbn; by rewrite (ci_stopped _ _ _ Hinv)|].
      exists i. destruct Hinv as [? ? ? Hsl Hal Hag ? Hstop ? ? ?]. constructor; cbn; try done.
      * by rewrite Hslots, length_insert.
      * intros j q _ Hq. by apply (Hal j).
      * intros j sl Hj Hsl'. rewrite Hslots, list_lookup_insert_ne in Hsl' by congruence. by apply Hag.
      * congruence.
  - assert (schedule = schedule_ s) as ->.
    { destruct (take_due_cases (schedule_ s) (clock k) (ci_schedule _ _ _ Hinv)) as
        [[_ H]|(_ & _ & [[_ H]|(j & slot & _ & _ & H & _)])]; rewrite H in Htake; [by injection Htake..|done]. }
    eexists _, _. split; [reflexivity|]. split; [by split|]. by destruct s.
Qed.

(** The timer waits for the next due slot. *)
Definition armed (s : HealthChecks) : Prop := forall t, next_due (schedule_ s) = Some t -> timer_ s = Some t.

Lemma pump_spec rs w s :
  spanned w -> checks_inv rs None s -> pumping_ s = false ->
  exists s', pump (pump_fuel w s) w s = Some s' /\ checks_inv rs None s' /\ pumping_ s' = false /\
    targets_ s' = targets_ s /\ posted_ s' = posted_ s /\ (hc_stopped_ s' = true \/ armed s').
Proof.
  intros (latest & Hlate & Hclock) Hinv Hp. unfold pump. rewrite Hp, orb_false_r.
  destruct (hc_stopped_ s) eqn:Hns; [exists s; split_and!; auto|].
  destruct (pump_loop_spec rs latest (pw_span w) (pump_fuel w s) (pw_clock w) (pw_answers w) 0 (set_pumping true s))
    as (s1 & r & -> & Hf & Hr); [done|done| |unfold pump_fuel; cbn -[Nat.mul]; pose proof (turns_total latest (pw_span w) (slots_ (schedule_ s))); lia|].
  { by destruct Hinv. }
  destruct Hf as (Ht & _ & _ & Hpo & _ & Hst & _ & _). cbn in Ht, Hpo, Hst.
  cbn [mbind option_bind]. eexists. split; [reflexivity|].
  destruct r as [u|e].
  - destruct (next_due (schedule_ s1)) as [due|] eqn:Hdue.
    + destruct (pw_arm w).
      * split; [destruct Hr; constructor; cbn; try done; congruence|]. split_and!; [done..|].
        right. intros t Hn. cbn in *. congruence.
      * split; [by destruct (checks_failed_inv_None _ _ Hr)|]. unfold checks_failed. rewrite Hst, Hns.
        unfold checks_stop. rewrite Hst, Hns. cbn. split_and!; auto.
    + split; [by destruct Hr|]. split_and!; [done..|]. right. intros t Hn. cbn in Hn. congruence.
  - destruct Hr as (_ & i & Hr). rewrite Hns in Hst.
    split; [by destruct (checks_failed_inv _ _ _ Hr Hst)|]. unfold checks_failed. rewrite Hst.
    unfold checks_stop. rewrite Hst. cbn. split_and!; auto.
Qed.

(** ** The checker: reachable states *)

(** What the executor can run next: [start] succeeds in posting, and a probe handler is
    enabled.  The clock of a pump is within its span, as that of a pump that returns always
    is for some span. *)
Definition checks_enabled (s : HealthChecks) (event : ChecksEvent) : Prop :=
  match event with
  | ev_start posting => posting = Ok tt
  | ev_posted w | ev_timer _ w => spanned w
  | ev_probe slot _ event w =>
      spanned w /\ forall p, probes_ s !! slot = Some (Some p) -> probe_enabled p event
  | ev_stop => True
  end.

Inductive checks_reachable (config : AppConfig) : HealthChecks -> Prop :=
  | checks_make now s :
      make_HealthChecks config (Some (make_UpstreamHealthState (routes config))) now = Ok s ->
      checks_reachable config s
  | checks_next s event s' :
      checks_reachable config s -> checks_enabled s event -> checks_step s event = Some s' ->
      checks_reachable config s'.

Definition checks_ok (config : AppConfig) (s : HealthChecks) : Prop :=
  checks_inv (routes config) None s /\ pumping_ s = false /\
  (hc_started_ s = true -> hc_stopped_ s = true \/ posted_ s = true \/ armed s).

Lemma make_slots_length intervals now slots : make_slots intervals now = Ok slots -> length slots = length intervals.
Proof.
  revert slots. induction intervals as [|i rest IH]; intros slots; cbn; [by intros [= <-]|].
  destruct (_ || _); [done|]. intros H. apply bind_Ok in H as (l & Hl & [= <-]). cbn. by rewrite (IH l).
Qed.

Lemma make_checks_ok config now s :
  make_HealthChecks config (Some (make_UpstreamHealthState (routes config))) now = Ok s -> checks_ok config s.
Proof.
  unfold make_HealthChecks. intros H. apply bind_Ok in H as (schedule & Hs & [= <-]).
  pose proof (make_schedule_ok _ _ _ Hs) as Hok. unfold make_ProbeSchedule in Hs.
  apply bind_Ok in Hs as (slots & Hs & [= <-]). pose proof (make_slots_ok _ _ _ Hs) as [_ Hidle].
  apply make_slots_length in Hs. rewrite length_fmap in Hs.
  split; [|done].
  constructor; cbn; try done.
  - by rewrite length_replicate.
  - intros i p _ Hp. by apply lookup_replicate in Hp as [? _].
  - intros i slot _ Hi. rewrite (Forall_lookup_1 _ _ _ _ Hidle Hi). split; [done|].
    intros (p & Hp). by apply lookup_replicate in Hp as [? _].
  - by exists [].
  - split; [lia|done].
Qed.

(** Every enabled handler returns, and keeps the invariant. *)
Lemma pump_ok config w s :
  spanned w -> checks_inv (routes config) None s -> pumping_ s = false ->
  exists s', pump (pump_fuel w s) w s = Some s' /\ checks_ok config s'.
Proof.
  intros Hq Hinv Hp. destruct (pump_spec _ _ _ Hq Hinv Hp) as (s' & Hs' & Hi & Hpu & _ & _ & Ha).
  exists s'. split; [done|]. split_and!; [done|done|tauto].
Qed.

Lemma on_probe_ok config s slot a event w :
  checks_ok config s -> checks_enabled s (ev_probe slot a event w) ->
  exists s', on_probe slot a event w s = Some s' /\ checks_ok config s'.
Proof.
  intros Hok [Hq He]. pose proof Hok as (Hinv & Hp & Ha). unfold on_probe.
  destruct (probes_ s !! slot) as [[p|]|] eqn:Hslot; [|by eauto..].
  destruct (bool_decide _); [|by eauto]. specialize (He p eq_refl).
  destruct (ci_alive _ _ _ Hinv slot p ltac:(done) Hslot) as [Hd Hl].
  assert (Hi : (slot < length (slots_ (schedule_ s)))%nat).
  { rewrite (ci_slots _ _ _ Hinv), <- (ci_probes _ _ _ Hinv). by eapply lookup_lt_Some. }
  destruct (lookup_lt_is_Some_2 _ _ Hi) as [sl Hsl].
  assert (Hfl : in_flight sl = true) by (apply (ci_agree _ _ _ Hinv slot sl); [done..|by exists p]).
  pose proof (probe_handle_cases a event p Hl He) as Hcases.
  destruct (probe_handle a event p) as [q report]. set (s1 := set_probe slot (Some q) s).
  assert (Hq1 : probes_ s1 !! slot = Some (Some q)).
  { cbn. apply list_lookup_insert_eq. by eapply lookup_lt_Some. }
  assert (H1 : checks_inv (routes config) (Some slot) s1).
  { destruct Hinv as [? ? Hpr ? Hal Hag ? ? ? ? ?]. constructor; cbn; try done.
    - by rewrite length_insert.
    - intros j r Hj Hr. rewrite list_lookup_insert_ne in Hr by congruence. by apply (Hal j).
    - intros j x Hj Hx. rewrite list_lookup_insert_ne by congruence. by apply Hag. }
  destruct Hcases as [(? & _ & _)|[(_ & -> & Hd' & Hl' & _)|(_ & Hd' & rep & -> & _)]]; [congruence| |].
  - exists s1. split; [done|]. split_and!; [by eapply fill_hole|done|]. exact Ha.
  - assert (Hns : hc_stopped_ s1 = false).
    { cbn. destruct (hc_stopped_ s) eqn:E; [|done]. destruct (ci_schedule _ _ _ Hinv) as (_ & _ & Hc & _ & Hst).
      rewrite (ci_stopped _ _ _ Hinv) in E. specialize (Hst E).
      pose proof (countb_pos in_flight _ _ _ Hsl Hfl). lia. }
    destruct (completed_spec _ (fun s => pump (pump_fuel w s) w s) slot rep s1 sl H1 Hns Hsl Hfl)
      as (s2 & -> & H2 & Hf & _).
    apply pump_ok; [done|done|]. destruct Hf as (_ & _ & _ & _ & _ & _ & -> & _). done.
Qed.

Lemma checks_step_ok config s event :
  checks_ok config s -> checks_enabled s event -> exists s', checks_step s event = Some s' /\ checks_ok config s'.
Proof.
  intros Hok He. pose proof Hok as (Hinv & Hp & Ha). destruct event as [posting|w|e w|slot a event w|]; cbn [checks_step].
  - cbn in He. subst posting. eexists. split; [reflexivity|]. unfold checks_start.
    destruct (hc_started_ s || hc_stopped_ s || bool_decide (targets_ s = [])) eqn:E; [done|].
    reflect_bools. match goal with HB : bool_decide _ = false |- _ => apply bool_decide_eq_false in HB end. cbn [fst]. split_and!; [|done|auto].
    destruct Hinv. by constructor.
  - destruct (posted_ s); [|by eauto]. apply pump_ok; [done| |done]. by destruct Hinv.
  - unfold on_timer. destruct (error_is e operation_aborted); [by eauto|].
    destruct (timer_ s) as [t|] eqn:Ht; [|by eauto].
    assert (H1 : checks_inv (routes config) None (set_timer None s)) by (by destruct Hinv).
    destruct (negb (failed e)); [by apply pump_ok|]. eexists. split; [reflexivity|].
    assert (Hns : hc_stopped_ (set_timer None s) = false).
    { cbn. destruct (hc_stopped_ s) eqn:E; [|done]. rewrite (ci_timer _ _ _ Hinv E) in Ht. done. }
    split_and!; [by apply checks_failed_inv_None| |].
    + unfold checks_failed. rewrite Hns. unfold checks_stop. by rewrite Hns.
    + intros _. left. unfold checks_failed. rewrite Hns. unfold checks_stop. by rewrite Hns.
  - by apply on_probe_ok.
  - eexists. split; [reflexivity|]. unfold checks_stop. destruct (hc_stopped_ s) eqn:E; [done|].
    split_and!; [|done|by left]. pose proof (checks_stop_inv _ _ _ Hinv E) as H. unfold checks_stop in H.
    by rewrite E in H.
Qed.

Lemma checks_reachable_ok config s : checks_reachable config s -> checks_ok config s.
Proof.
  induction 1 as [now s H|s event s' _ IH He Hs]; [by eapply make_checks_ok|].
  destruct (checks_step_ok _ _ _ IH He) as (s2 & Hs2 & Hok). congruence.
Qed.

Lemma countb_agree {A B} (p : A -> bool) (q : B -> bool) l k :
  length l = length k -> (forall i x y, l !! i = Some x -> k !! i = Some y -> p x = q y) -> countb p l = countb q k.
Proof.
  revert k. induction l as [|x l IH]; intros [|y k] Hl H; try done. rewrite !countb_cons.
  rewrite (H 0%nat x y eq_refl eq_refl), (IH k); [done|by injection Hl|]. intros i. apply (H (S i)).
Qed.

Lemma countb_exists {A} (p : A -> bool) l : (0 < countb p l)%nat -> exists i x, l !! i = Some x /\ p x = true.
Proof.
  induction l as [|x l IH]; [cbn; lia|]. rewrite countb_cons. destruct (p x) eqn:E; [by exists 0%nat, x|].
  intros H. destruct IH as (i & y & Hi & Hy); [lia|]. by exists (S i), y.
Qed.

(** No due time to wait for: something is in flight. *)
Lemma next_due_none s :
  schedule_ok s -> sched_stopped_ s = false -> next_due s = None -> slots_ s <> [] ->
  exists i slot, slots_ s !! i = Some slot /\ in_flight slot = true.
Proof.
  intros (_ & _ & Hc & _ & _) Hs Hn Hne. unfold next_due in Hn. rewrite Hs in Hn. cbn [orb] in Hn.
  destruct (active_ s =? max_in_flight) eqn:Ha; reflect_bools.
  - apply countb_exists. unfold max_in_flight in *. lia.
  - destruct (slots_ s) as [|slot rest] eqn:Hslots; [done|]. exists 0%nat, slot. split; [done|].
    destruct (in_flight slot) eqn:Hf; [done|].
    destruct (next_due_lower (slot :: rest) None) as [_ Hlow]. apply Forall_cons_1 in Hlow as [Hlow _].
    destruct (Hlow Hf) as (t & Ht & _). congruence.
Qed.

(** A stopped checker has no probe left, and nothing restarts it. *)
Lemma stopped_no_probe rs s :
  checks_inv rs None s -> hc_stopped_ s = true -> Forall (fun p => p = None) (probes_ s).
Proof.
  intros Hinv E. apply Forall_lookup_2. intros i [p|] Hi; [|done]. exfalso.
  assert (Hlt : (i < length (slots_ (schedule_ s)))%nat).
  { rewrite (ci_slots _ _ _ Hinv), <- (ci_probes _ _ _ Hinv). by eapply lookup_lt_Some. }
  destruct (lookup_lt_is_Some_2 _ _ Hlt) as [slot Hslot].
  assert (Hf : in_flight slot = true) by (apply (ci_agree _ _ _ Hinv i slot); [done..|by exists p]).
  pose proof (ci_schedule _ _ _ Hinv) as (_ & _ & Hc & _ & Hst). rewrite (ci_stopped _ _ _ Hinv) in E.
  specialize (Hst E). pose proof (countb_pos in_flight _ _ _ Hslot Hf). lia.
Qed.

Lemma stopped_step config s event s' :
  checks_ok config s -> hc_stopped_ s = true -> checks_step s event = Some s' ->
  hc_stopped_ s' = true /\ on_failure_calls s' = on_failure_calls s.
Proof.
  intros (Hinv & _) E Hs. destruct event as [posting|w|e w|slot a event w|]; cbn [checks_step] in Hs.
  - injection Hs as <-. unfold checks_start. by rewrite E, orb_true_r.
  - destruct (posted_ s); [|by injection Hs as <-]. unfold pump in Hs. cbn in Hs. rewrite E in Hs.
    by injection Hs as <-.
  - unfold on_timer in Hs. rewrite (ci_timer _ _ _ Hinv E) in Hs. destruct (error_is _ _); by injection Hs as <-.
  - unfold on_probe in Hs. destruct (probes_ s !! slot) as [[p|]|] eqn:Hp; [|by injection Hs as <-..].
    pose proof (Forall_lookup_1 _ _ _ _ (stopped_no_probe _ _ Hinv E) Hp). done.
  - injection Hs as <-. unfold checks_stop. by rewrite E.
Qed.

(** C33: the health checker tracks its probes exactly.  In every reachable state a target
    is in flight in the schedule exactly when it has a live probe, at most four are; the
    state shared with admission is the initial one updated by recorded outcomes of
    configured slots and nothing else; once stopped there is no probe and no timer; and the
    failure callback ran at most once, after stopping. *)
Theorem health_checks_exact config s :
  checks_reachable config s ->
  (forall i slot, slots_ (schedule_ s) !! i = Some slot ->
     in_flight slot = true <-> exists p, probes_ s !! i = Some (Some p) /\ pb_done p = false) /\
  (countb (fun p => bool_decide (is_Some p)) (probes_ s) <= 4)%nat /\
  (exists outcomes, run_records (make_UpstreamHealthState (routes config)) outcomes = Ok (state_ s)) /\
  (hc_stopped_ s = true -> Forall (fun p => p = None) (probes_ s) /\ timer_ s = None) /\
  (on_failure_calls s <= 1)%nat /\ (on_failure_calls s = 1%nat -> hc_stopped_ s = true).
Proof.
  intros (Hinv & _)%checks_reachable_ok.
  assert (Hiff : forall i slot, slots_ (schedule_ s) !! i = Some slot ->
    in_flight slot = true <-> exists p, probes_ s !! i = Some (Some p) /\ pb_done p = false).
  { intros i slot Hi. rewrite (ci_agree _ _ _ Hinv i slot) by done. split; [|naive_solver].
    intros (p & Hp). exists p. split; [done|]. by eapply (ci_alive _ _ _ Hinv). }
  pose proof (ci_schedule _ _ _ Hinv) as (_ & _ & Hc & Hm & Hst).
  assert (Hcount : countb (fun p => bool_decide (is_Some p)) (probes_ s) = countb in_flight (slots_ (schedule_ s))).
  { apply countb_agree; [by rewrite (ci_probes _ _ _ Hinv), (ci_slots _ _ _ Hinv)|].
    intros i p slot Hp Hslot. apply eq_bool_prop_intro. rewrite bool_decide_spec, Is_true_true, (Hiff _ _ Hslot).
    split; [intros [q ->]; exists q; split; [done|]; by eapply (ci_alive _ _ _ Hinv)|].
    intros (q & Hq & _). exists q. congruence. }
  split_and!; [exact Hiff|unfold max_in_flight in *; lia|apply (ci_state _ _ _ Hinv)| |apply (ci_failures _ _ _ Hinv)|].
  - intros E. split; [by eapply stopped_no_probe|by apply (ci_timer _ _ _ Hinv)].
  - intros E. apply (ci_failures _ _ _ Hinv). lia.
Qed.

(** C32: the health checker never stalls.  Every handler the executor can run returns; and
    a checker that was started, is not stopped and has run its posted pump either waits on
    its timer for exactly the next due slot, or has nothing to start and a live probe whose
    deadline is pending. *)
Theorem health_checks_progress config s :
  checks_reachable config s ->
  (forall event, checks_enabled s event -> is_Some (checks_step s event)) /\
  (hc_started_ s = true -> hc_stopped_ s = false -> posted_ s = false ->
   match next_due (schedule_ s) with
   | Some t => timer_ s = Some t
   | None => exists i p, probes_ s !! i = Some (Some p) /\ pb_done p = false /\ op_deadline ∈ pb_pending p
   end).
Proof.
  intros H%checks_reachable_ok. split.
  { intros event He. destruct (checks_step_ok _ _ _ H He) as (s' & -> & _). eauto. }
  destruct H as (Hinv & Hp & Ha). intros Hst Hns Hpo.
  destruct (Ha Hst) as [?|[?|Harm]]; [congruence..|].
  destruct (next_due (schedule_ s)) as [t|] eqn:Hn; [by apply Harm|].
  assert (Hslot : exists i slot, slots_ (schedule_ s) !! i = Some slot /\ in_flight slot = true).
  { eapply next_due_none; [apply (ci_schedule _ _ _ Hinv)|by rewrite <- (ci_stopped _ _ _ Hinv)|done|].
    intros E. apply (ci_started _ _ _ Hinv Hst), nil_length_inv. by rewrite <- (ci_slots _ _ _ Hinv), E. }
  destruct Hslot as (i & slot & Hi & Hfl). apply (ci_agree _ _ _ Hinv i slot) in Hfl as (p & Hpr); [|done..].
  destruct (ci_alive _ _ _ Hinv i p ltac:(done) Hpr) as [Hd Hl].
  exists i, p. split_and!; [done..|]. destruct (Hl Hd) as (_ & op & _ & ->). by left.
Qed.

(** ** A concrete checker: two targets, both probes started *)

Definition sample_answers : Answers := mkAnswers (fun _ => Ok tt) (fun _ => Ok true).
Definition sample_pump : PumpWorld := mkPumpWorld 1 (fun _ => 5) (fun _ => sample_answers) (Ok tt).
Definition sample_config : AppConfig :=
  mkAppConfig (L "gate") (L "test") info (L "127.0.0.1") 8080 256 32 67108864 5000 false false None
    [sample_route] None None.

Definition sample_initial : HealthChecks :=
  mkChecks (all_targets [sample_route]) [None; None]
    (mkSchedule [mkProbeSlot 5000 0 false; mkProbeSlot 5000 0 false] 0 0 false)
    (make_UpstreamHealthState [sample_route]) None None false false false false 0 [].

Definition sample_started : HealthChecks := default sample_initial (checks_step sample_initial (ev_start (Ok tt))).
Definition sample_running : HealthChecks :=
  default sample_initial (checks_step sample_started (ev_posted sample_pump)).

Lemma sample_spanned : spanned sample_pump.
Proof. exists 5. split; [done|]. intros k. unfold within, shortest, ticks_per_ms. cbn. lia. Qed.

Lemma sample_running_reachable : checks_reachable sample_config sample_running.
Proof.
  assert (H0 : checks_reachable sample_config sample_initial) by (apply (checks_make _ 0); by vm_compute).
  assert (H1 : checks_reachable sample_config sample_started).
  { apply (checks_next _ sample_initial (ev_start (Ok tt))); [exact H0|done|by vm_compute]. }
  apply (checks_next _ sample_started (ev_posted sample_pump)); [exact H1|exact sample_spanned|by vm_compute].
Qed.

Definition sample_target : ProbeTarget :=
  mkTarget 0 0 (mkUpstream (L "a") 80 3000 http) sample_settings.
Definition sample_probe : Probe := mkProbe sample_target false false true [op_deadline; op_read_header].

Lemma sample_probe_trace : probe_trace sample_probe [].
Proof.
  assert (H : forall event p q, probe_trace p [] -> probe_enabled p event ->
            probe_handle sample_answers event p = (q, None) -> probe_trace q []).
  { intros event p q Hp He E. pose proof (trace_event sample_answers event p [] Hp He) as T. by rewrite E in T. }
  set (at_op op := mkProbe sample_target false false true [op_deadline; op]).
  assert (H1 : probe_trace (at_op op_resolve) []).
  { apply (trace_start sample_target None sample_answers (mkProbe sample_target false false true [])). by vm_compute. }
  assert (H2 : probe_trace (at_op op_connect) []).
  { apply (H (on_resolved no_error) _ _ H1); [split; [set_solver|done]|by vm_compute]. }
  assert (H3 : probe_trace (at_op op_write) []).
  { apply (H (on_connected no_error) _ _ H2); [split; [set_solver|done]|by vm_compute]. }
  apply (H (on_written no_error) _ _ H3); [split; [set_solver|done]|by vm_compute].
Qed.

Lemma probe_reports_once_witness :
  probe_handle sample_answers (on_header no_error 204) sample_probe =
    (mkProbe sample_target false true false [op_deadline], Some (true, "probe_succeeded"%string)) /\
  success_is (on_header no_error 204) (true, "probe_succeeded"%string).
Proof.
  split; [by vm_compute|].
  destruct (probe_reports_once sample_probe [] sample_probe_trace) as (_ & _ & H).
  specialize (H sample_answers (on_header no_error 204)).
  apply H; [split; [set_solver|done]|reflexivity].
Defined.

Lemma health_checks_exact_witness :
  countb (fun p => bool_decide (is_Some p)) (probes_ sample_running) = 2%nat /\
  (countb (fun p => bool_decide (is_Some p)) (probes_ sample_running) <= 4)%nat.
Proof.
  split; [by vm_compute|].
  exact (proj1 (proj2 (health_checks_exact sample_config sample_running sample_running_reachable))).
Defined.

Lemma health_checks_progress_witness :
  next_due (schedule_ sample_running) = None /\
  exists i p, probes_ sample_running !! i = Some (Some p) /\ pb_done p = false /\ op_deadline ∈ pb_pending p.
Proof.
  split; [by vm_compute|].
  pose proof (proj2 (health_checks_progress sample_config sample_running sample_running_reachable)
                eq_refl eq_refl eq_refl) as H.
  exact H.
Defined.
