(* ===== verification/Server.v ===== *)
(** * The server (src/http_server.cpp, [HttpServer::Impl])

    The server accepts connections within a limit, keeps the set of live sessions, and
    shuts down gracefully: it stops accepting, lets the sessions end within a deadline
    and reports completion once.  A session calls back into the server when it closes, and
    closing one may start an accept, complete the drain, or fail the server.  What a
    session promises is the interface [SessionInterface]; it is the session that reads and
    writes the state shared by the sessions. *)

From S2P Require Import Prelude Text ConfigTypes Errors HealthState HealthCheck ServerState.

Local Open Scope Z_scope.

(** ** What the server expects of a session *)

(** What a session reads of the server's own state. *)
Record ServerView := mkView {
  view_connections : AcceptCapacityState;
  view_health : UpstreamHealthState }.

(** An operation returns the shared state, the session, and whether the close callback was
    called.  [session_handler] relates the states around a handler the executor runs. *)
Class SessionInterface := {
  Shared : Type;
  Session : Type;
  (* What the constructor makes; what holds of a session that is live, or over. *)
  session_made : Session -> Prop;
  session_ok : bool -> Session -> Prop;
  (* What the world answers while a session starts. *)
  SessionWorld : Type;
  session_start : SessionWorld -> ServerView -> Shared -> Session -> Shared * Session * bool * result unit;
  session_begin_drain : ServerView -> Shared -> Session -> Shared * Session * bool;
  session_stop : ServerView -> Shared -> Session -> Shared * Session * bool;
  session_handler : ServerView -> Shared -> Session -> Shared * Session * bool -> Prop;
  (* The handlers an ended session has yet to run; the destructor runs after the last. *)
  session_left : Session -> nat;
  session_destroy : Shared -> Session -> Shared;
  stop_upstream_pool : Shared -> Shared;
  upstream_pool_stopped : Shared -> bool }.

(** The close callback is called exactly when the session stops being live; [stop] always
    closes; no session restarts the pool. *)
Definition closes_exactly {Session Shared} (ok : bool -> Session -> Prop) (stopped : Shared -> bool)
    (w : Shared) (s : Session) (outcome : Shared * Session * bool) : Prop :=
  ok true s -> ok (negb outcome.2) outcome.1.2 /\ (stopped w = true -> stopped outcome.1.1 = true).

Class SessionLaws (I : SessionInterface) := {
  made_ok s : session_made s -> session_ok true s;
  start_closes answers v w s : session_made s ->
    closes_exactly session_ok upstream_pool_stopped w s (session_start answers v w s).1;
  begin_drain_closes v w s : closes_exactly session_ok upstream_pool_stopped w s (session_begin_drain v w s);
  stop_closes v w s :
    closes_exactly session_ok upstream_pool_stopped w s (session_stop v w s) /\
    (session_ok true s -> (session_stop v w s).2 = true);
  handler_closes v w s outcome :
    session_handler v w s outcome -> closes_exactly session_ok upstream_pool_stopped w s outcome;
  handler_ended v w s outcome :
    session_handler v w s outcome -> session_ok false s ->
    session_ok false outcome.1.2 /\ outcome.2 = false /\ session_left s = S (session_left outcome.1.2) /\
    (upstream_pool_stopped w = true -> upstream_pool_stopped outcome.1.1 = true);
  destroy_keeps w s : upstream_pool_stopped (session_destroy w s) = upstream_pool_stopped w;
  stop_pool_stops w : upstream_pool_stopped (stop_upstream_pool w) = true }.

(** ** State *)

Record Listener := mkListener {
  ls_open : bool;
  ls_accept_wait : bool;         (* the handler of an accept has not run *)
  ls_retry_wait : bool;          (* nor that of the retry timer *)
  ls_started : bool;             (* [started_] *)
  ls_stop_logged : bool }.       (* [listener_stop_logged_] *)

Record Completion := mkCompletion {
  cp_timer_wait : bool;          (* the handler of the drain timer has not run *)
  cp_enabled : bool;             (* [drain_completion_enabled_] *)
  cp_claimed : bool;             (* [drain_callback_claimed_] *)
  cp_forced : bool;              (* [drain_forced_] *)
  drain_callbacks : nat;
  failure_callbacks : nat }.

(** What the operating system, the logger and the application's callback answer. *)
Record ServerWorld := mkServerWorld {
  sw_accept : result unit;
  sw_timer : result unit;
  sw_log : result unit;
  sw_callback : result unit }.

Section Server.
Context {I : SessionInterface}.

Record Server := mkServer {
  sv_drain : DrainState;
  sv_accept : AcceptCapacityState;
  sv_failure : RuntimeFailureState;
  sv_sessions : gmap nat Session;
  sv_next : nat;                 (* the identity of the next session *)
  sv_shared : Shared;
  sv_checks : HealthChecks;
  sv_listener : Listener;
  sv_completion : Completion;
  sv_departed : gmap nat Session }.   (* ended, and kept by handlers that have not run *)

Definition set_drain (d : DrainState) (s : Server) : Server :=
  mkServer d (sv_accept s) (sv_failure s) (sv_sessions s) (sv_next s) (sv_shared s) (sv_checks s)
    (sv_listener s) (sv_completion s) (sv_departed s).
Definition set_accept (a : AcceptCapacityState) (s : Server) : Server :=
  mkServer (sv_drain s) a (sv_failure s) (sv_sessions s) (sv_next s) (sv_shared s) (sv_checks s)
    (sv_listener s) (sv_completion s) (sv_departed s).
Definition set_failure (f : RuntimeFailureState) (s : Server) : Server :=
  mkServer (sv_drain s) (sv_accept s) f (sv_sessions s) (sv_next s) (sv_shared s) (sv_checks s)
    (sv_listener s) (sv_completion s) (sv_departed s).
Definition set_sessions (l : gmap nat Session) (s : Server) : Server :=
  mkServer (sv_drain s) (sv_accept s) (sv_failure s) l (sv_next s) (sv_shared s) (sv_checks s)
    (sv_listener s) (sv_completion s) (sv_departed s).
Definition set_next (n : nat) (s : Server) : Server :=
  mkServer (sv_drain s) (sv_accept s) (sv_failure s) (sv_sessions s) n (sv_shared s) (sv_checks s)
    (sv_listener s) (sv_completion s) (sv_departed s).
Definition set_shared (w : Shared) (s : Server) : Server :=
  mkServer (sv_drain s) (sv_accept s) (sv_failure s) (sv_sessions s) (sv_next s) w (sv_checks s)
    (sv_listener s) (sv_completion s) (sv_departed s).
Definition set_checks (c : HealthChecks) (s : Server) : Server :=
  mkServer (sv_drain s) (sv_accept s) (sv_failure s) (sv_sessions s) (sv_next s) (sv_shared s) c
    (sv_listener s) (sv_completion s) (sv_departed s).
Definition set_listener (l : Listener) (s : Server) : Server :=
  mkServer (sv_drain s) (sv_accept s) (sv_failure s) (sv_sessions s) (sv_next s) (sv_shared s) (sv_checks s)
    l (sv_completion s) (sv_departed s).
Definition set_completion (c : Completion) (s : Server) : Server :=
  mkServer (sv_drain s) (sv_accept s) (sv_failure s) (sv_sessions s) (sv_next s) (sv_shared s) (sv_checks s)
    (sv_listener s) c (sv_departed s).
Definition set_departed (l : gmap nat Session) (s : Server) : Server :=
  mkServer (sv_drain s) (sv_accept s) (sv_failure s) (sv_sessions s) (sv_next s) (sv_shared s) (sv_checks s)
    (sv_listener s) (sv_completion s) l.

Definition set_accept_wait (b : bool) (l : Listener) : Listener :=
  mkListener (ls_open l) b (ls_retry_wait l) (ls_started l) (ls_stop_logged l).
Definition set_retry_wait (b : bool) (l : Listener) : Listener :=
  mkListener (ls_open l) (ls_accept_wait l) b (ls_started l) (ls_stop_logged l).
Definition set_timer_wait (b : bool) (c : Completion) : Completion :=
  mkCompletion b (cp_enabled c) (cp_claimed c) (cp_forced c) (drain_callbacks c) (failure_callbacks c).
Definition set_enabled (b : bool) (c : Completion) : Completion :=
  mkCompletion (cp_timer_wait c) b (cp_claimed c) (cp_forced c) (drain_callbacks c) (failure_callbacks c).
Definition set_forced (c : Completion) : Completion :=
  mkCompletion (cp_timer_wait c) (cp_enabled c) (cp_claimed c) true (drain_callbacks c) (failure_callbacks c).

Definition view_of (s : Server) : ServerView := mkView (sv_accept s) (HealthCheck.state_ (sv_checks s)).

(** ** Accepting *)

(** [drive_accept]; the two log calls swallow their exceptions. *)
Definition drive_accept (w : ServerWorld) (s : Server) : Server * result unit :=
  if negb (phase_is (phase_ (sv_drain s)) running) then (s, Ok tt)
  else
    let '(action, accept) := next_action (sv_accept s) in
    let s := set_accept accept s in
    match action with
    | action_none | pause => (s, Ok tt)
    | resume_and_start | start_accept =>
        match sw_accept w with
        | Ok _ => (set_listener (set_accept_wait true (sv_listener s)) s, Ok tt)
        | Throw e => (s, Throw e)
        end
    end.

Definition stop_accepting (s : Server) : Server :=
  let s := set_shared (stop_upstream_pool (sv_shared s)) s in
  let s := set_checks (checks_stop (sv_checks s)) s in
  let s := set_accept (accept_stop (sv_accept s)) s in
  let l := sv_listener s in
  set_listener (mkListener false (ls_accept_wait l) (ls_retry_wait l) (ls_started l)
                  (ls_started l || ls_stop_logged l)) s.

(** ** Ending sessions

    [fail] is [fail_runtime]. *)

Definition finish_drain (fail : Server -> Server) (w : ServerWorld) (s : Server) : Server :=
  let c := sv_completion s in
  if cp_claimed c || negb (cp_enabled c) then s
  else
    let s := set_completion (mkCompletion (cp_timer_wait c) (cp_enabled c) true (cp_forced c)
                               (S (drain_callbacks c)) (failure_callbacks c)) s in
    match sw_callback w with
    | Ok _ => s
    | Throw _ => fail s
    end.

(** The session is erased; its pending handlers keep it. *)
Definition depart (fail : Server -> Server) (w : ServerWorld) (id : nat) (session : Session) (s : Server) : Server :=
  let s := set_departed (<[id := session]> (sv_departed s)) (set_sessions (delete id (sv_sessions s)) s) in
  let s := set_accept (accept_session_finished (sv_accept s)) s in
  let '(last, drain) := drain_session_finished (sv_drain s) in
  let s := set_drain drain s in
  if last then
    if cp_enabled (sv_completion s) then finish_drain fail w s else s
  else
    let '(s, r) := drive_accept w s in
    match r with
    | Ok _ => s
    | Throw _ => fail s
    end.

Definition remove_session (fail : Server -> Server) (w : ServerWorld) (id : nat) (s : Server) : Server :=
  match sv_sessions s !! id with
  | None => s
  | Some session => depart fail w id session s
  end.

(** The outcome of an operation of session [id]: its state is kept, and it is removed when
    it called its close callback. *)
Definition session_outcome (fail : Server -> Server) (w : ServerWorld) (id : nat)
    (outcome : Shared * Session * bool) (s : Server) : Server :=
  let '(shared, session, closed) := outcome in
  let s := set_sessions (<[id := session]> (sv_sessions s)) (set_shared shared s) in
  if closed then remove_session fail w id s else s.

(** While there is a session, the first one is stopped. *)
Fixpoint stop_sessions (fuel : nat) (fail : Server -> Server) (w : ServerWorld) (s : Server) : option Server :=
  match map_to_list (sv_sessions s) with
  | [] => Some s
  | (id, session) :: _ =>
      match fuel with
      | O => None
      | S fuel =>
          stop_sessions fuel fail w
            (session_outcome fail w id (session_stop (view_of s) (sv_shared s) session) s)
      end
  end.

(** The fuel is the number of sessions; the loop does not run out of it. *)
Definition stop_all_sessions (fail : Server -> Server) (w : ServerWorld) (s : Server) : Server :=
  default s (stop_sessions (size (sv_sessions s)) fail w s).

(** ** Stopping and failing *)

Definition server_stop (fail : Server -> Server) (w : ServerWorld) (s : Server) : Server :=
  let s := set_completion (set_enabled false (sv_completion s)) s in
  let '(r, drain) := begin_force_stop (sv_drain s) in
  match r with
  | unchanged => s
  | _ => stop_all_sessions fail w (stop_accepting (set_drain drain s))
  end.

(** Once claimed, a nested failure returns at once. *)
Definition fail_runtime (w : ServerWorld) (s : Server) : Server :=
  let '(claimed, failure) := claim (sv_failure s) in
  if negb claimed then s
  else
    let s := server_stop (fun s => s) w (set_failure failure s) in
    let c := sv_completion s in
    set_completion (mkCompletion (cp_timer_wait c) (cp_enabled c) (cp_claimed c) (cp_forced c)
                      (drain_callbacks c) (S (failure_callbacks c))) s.

(** [force_stop_drain] and [force_stop_after_timeout] from the transition on. *)
Definition force_stop (w : ServerWorld) (s : Server) : Server :=
  let '(r, drain) := begin_force_stop (sv_drain s) in
  match r with
  | unchanged => s
  | _ =>
      let s := set_drain drain s in
      let s := set_completion (set_forced (sv_completion s)) s in
      let s := stop_all_sessions (fail_runtime w) w (stop_accepting s) in
      match r with
      | drain_completed => finish_drain (fail_runtime w) w s
      | _ => s
      end
  end.

Definition force_stop_drain (w : ServerWorld) (s : Server) : Server :=
  if negb (phase_is (phase_ (sv_drain s)) draining) then s else force_stop w s.

(** ** Draining *)

(** The snapshot is walked; a session that has been removed is finished, and ignores the
    call. *)
Fixpoint drain_sessions (w : ServerWorld) (snapshot : list nat) (s : Server) : Server :=
  match snapshot with
  | [] => s
  | id :: rest =>
      drain_sessions w rest
        match sv_sessions s !! id with
        | Some session =>
            session_outcome (fail_runtime w) w id (session_begin_drain (view_of s) (sv_shared s) session) s
        | None => s
        end
  end.

Definition begin_drain_impl (w : ServerWorld) (s : Server) : Server * result unit :=
  let '(r, drain) := drain_begin_drain (sv_drain s) in
  match r with
  | unchanged => (s, Ok tt)
  | _ =>
      let s := set_drain drain s in
      let s := set_completion (set_enabled true (sv_completion s)) s in
      let s := stop_accepting s in
      match r with
      | drain_completed => (finish_drain (fail_runtime w) w s, Ok tt)
      | _ =>
          let s := drain_sessions w (map_to_list (sv_sessions s)).*1 s in
          if negb (phase_is (phase_ (sv_drain s)) draining) then (s, Ok tt)
          else
            match sw_timer w with
            | Ok _ => (set_completion (set_timer_wait true (sv_completion s)) s, Ok tt)
            | Throw e => (s, Throw e)
            end
      end
  end.

Definition begin_drain (w : ServerWorld) (s : Server) : Server :=
  let '(s, r) := begin_drain_impl w s in
  match r with
  | Ok _ => s
  | Throw _ => fail_runtime w s
  end.

Definition on_drain_timer (w : ServerWorld) (e : error_code) (s : Server) : Server :=
  match classify_drain_timer_completion e (phase_ (sv_drain s)) with
  | timer_ignored => s
  | timer_timed_out => force_stop w s
  | timer_fatal => fail_runtime w s
  end.

(** ** Handlers *)

(** The session that was accepted is kept and counted. *)
Definition opened (session : Session) (s : Server) : Server :=
  set_drain (drain_session_started (sv_drain s))
    (set_accept (accept_session_started (sv_accept s))
       (set_next (S (sv_next s)) (set_sessions (<[sv_next s := session]> (sv_sessions s)) s))).

(** [made] is the construction of the session, which may throw. *)
Definition on_accept (w : ServerWorld) (e : error_code) (made : result Session) (answers : SessionWorld) (s : Server)
    : Server * result unit :=
  let s := set_accept (accept_completed (sv_accept s)) s in
  if negb (phase_is (phase_ (sv_drain s)) running) then (s, Ok tt)
  else if failed e then
    match sw_log w with
    | Throw x => (s, Throw x)
    | Ok _ =>
        let s := set_accept (retry_scheduled (sv_accept s)) s in
        match sw_timer w with
        | Ok _ => (set_listener (set_retry_wait true (sv_listener s)) s, Ok tt)
        | Throw x => (s, Throw x)
        end
    end
  else
    match made with
    | Throw x => (s, Throw x)
    | Ok session =>
        let id := sv_next s in
        let s := opened session s in
        let '(outcome, r) := session_start answers (view_of s) (sv_shared s) session in
        let s := session_outcome (fail_runtime w) w id outcome s in
        match r with
        | Throw x => (s, Throw x)
        | Ok _ => drive_accept w s
        end
    end.

(** A handler whose exceptions fail the server. *)
Definition handled (w : ServerWorld) (outcome : Server * result unit) : Server :=
  match outcome.2 with
  | Ok _ => outcome.1
  | Throw _ => fail_runtime w outcome.1
  end.

Definition on_accept_retry_timer (w : ServerWorld) (e : error_code) (s : Server) : Server :=
  let s := set_accept (retry_completed (sv_accept s)) s in
  match classify_accept_retry_completion e (negb (phase_is (phase_ (sv_drain s)) running)) with
  | retry => handled w (drive_accept w s)
  | retry_stopped => s
  | retry_fatal => fail_runtime w s
  end.

(** The opening of the listener: the address or [open] is refused, or the acceptor is open and
    one of the calls that follow throws. *)
Inductive ListenOutcome :=
  | listening
  | unopened (e : exn)
  | unbound (e : exn).

(** [posting] is the answer to the post of the health checks. *)
Definition server_start (w : ServerWorld) (listen : ListenOutcome) (posting : result unit) (s : Server) : Server * result unit :=
  if ls_started (sv_listener s) then (s, Ok tt)
  else
    let l := sv_listener s in
    match listen with
    | unopened x => (s, Throw x)
    | unbound x =>
        (set_listener (mkListener true (ls_accept_wait l) (ls_retry_wait l) (ls_started l) (ls_stop_logged l)) s, Throw x)
    | listening =>
        let s := set_listener (mkListener true (ls_accept_wait l) (ls_retry_wait l) true (ls_stop_logged l)) s in
        match sw_log w with
        | Throw x => (s, Throw x)
        | Ok _ =>
            let '(s, r) := drive_accept w s in
            match r with
            | Throw x => (s, Throw x)
            | Ok _ =>
                let '(checks, r) := checks_start posting (sv_checks s) in
                (set_checks checks s, r)
            end
        end
    end.

(** [~Impl] *)
Definition destroy_server (w : ServerWorld) (s : Server) : Server := server_stop (fail_runtime w) w s.

(** A step of the health checks, whose failure callback fails the server. *)
Definition on_checks (w : ServerWorld) (event : ChecksEvent) (s : Server) : option Server :=
  checks ← checks_step (sv_checks s) event;
  let called := negb (on_failure_calls checks =? on_failure_calls (sv_checks s))%nat in
  let s := set_checks checks s in
  Some (if called then fail_runtime w s else s).

(** The members of a new server; [checks] was made for its configuration. *)
Definition make_Server (config : AppConfig) (shared : Shared) (checks : HealthChecks) : Server :=
  mkServer initial_DrainState (make_AcceptCapacityState (max_connections config)) (mkFailure false) ∅ 0 shared
    checks (mkListener false false false false false) (mkCompletion false false false false 0 0) ∅.

(** ** Events

    One event is one handler the executor runs, or one call of the application.  A [start]
    that throws is followed by the destructor, and the event is both: nothing runs between
    them, since the application that made the call returns, or throws, at once. *)

Inductive ServerEvent :=
  | sv_start_call (w : ServerWorld) (listen : ListenOutcome) (posting : result unit)
  | sv_begin_drain (w : ServerWorld)
  | sv_force_stop (w : ServerWorld)
  | sv_stop (w : ServerWorld)
  | sv_accepted (w : ServerWorld) (e : error_code) (made : result Session) (answers : SessionWorld)
  | sv_retry_timer (w : ServerWorld) (e : error_code)
  | sv_drain_timer (w : ServerWorld) (e : error_code)
  | sv_session (w : ServerWorld) (id : nat) (outcome : Shared * Session * bool)
  | sv_ended (w : ServerWorld) (id : nat) (outcome : Shared * Session * bool)
  | sv_destroyed (w : ServerWorld) (id : nat)
  | sv_checks_event (w : ServerWorld) (event : ChecksEvent).

Definition server_step (s : Server) (event : ServerEvent) : option Server :=
  match event with
  | sv_start_call w listen posting =>
      let '(s, r) := server_start w listen posting s in
      Some match r with Ok _ => s | Throw _ => destroy_server w s end
  | sv_begin_drain w => Some (begin_drain w s)
  | sv_force_stop w => Some (force_stop_drain w s)
  | sv_stop w => Some (server_stop (fail_runtime w) w s)
  | sv_accepted w e made answers =>
      let s := set_listener (set_accept_wait false (sv_listener s)) s in
      Some (handled w (on_accept w e made answers s))
  | sv_retry_timer w e =>
      let s := set_listener (set_retry_wait false (sv_listener s)) s in
      Some (on_accept_retry_timer w e s)
  | sv_drain_timer w e =>
      let s := set_completion (set_timer_wait false (sv_completion s)) s in
      Some (on_drain_timer w e s)
  | sv_session w id outcome => Some (session_outcome (fail_runtime w) w id outcome s)
  | sv_ended w id (shared, session, _) => Some (set_departed (<[id := session]> (sv_departed s)) (set_shared shared s))
  | sv_destroyed w id =>
      match sv_departed s !! id with
      | Some session =>
          Some (set_departed (delete id (sv_departed s)) (set_shared (session_destroy (sv_shared s) session) s))
      | None => Some s
      end
  | sv_checks_event w event => on_checks w event s
  end.

(** What can happen next: the application starts the server first, a handler runs for a
    pending operation, a session handler for a live session; the executor takes the work
    posted to it. *)
Definition server_enabled (s : Server) (event : ServerEvent) : Prop :=
  match event with
  | sv_start_call _ _ posting => posting = Ok tt /\ phase_ (sv_drain s) = running
  | sv_accepted _ _ made _ =>
      ls_accept_wait (sv_listener s) = true /\ forall session, made = Ok session -> session_made session
  | sv_retry_timer _ _ => ls_retry_wait (sv_listener s) = true
  | sv_drain_timer _ _ => cp_timer_wait (sv_completion s) = true
  | sv_session _ id outcome =>
      exists session, sv_sessions s !! id = Some session /\ session_handler (view_of s) (sv_shared s) session outcome
  | sv_ended _ id outcome =>
      exists session, sv_departed s !! id = Some session /\ session_handler (view_of s) (sv_shared s) session outcome
  | sv_destroyed _ id => exists session, sv_departed s !! id = Some session /\ session_left session = 0%nat
  | sv_checks_event _ (ev_start _ | ev_stop) => False
  | sv_checks_event _ event => checks_enabled (sv_checks s) event
  | sv_begin_drain _ | sv_force_stop _ | sv_stop _ => True
  end.

Inductive server_reachable (config : AppConfig) : Server -> Prop :=
  | server_make now shared checks :
      make_HealthChecks config (Some (make_UpstreamHealthState (routes config))) now = Ok checks ->
      server_reachable config (make_Server config shared checks)
  | server_next s event s' :
      server_reachable config s -> server_enabled s event -> server_step s event = Some s' ->
      server_reachable config s'.

End Server.

(** ** The connection count at every point of a handler *)

(** [accept_ok] less its progress clause. *)
Definition accept_bounds (limit : Z) (a : AcceptCapacityState) : Prop :=
  max_connections_ a = limit /\ 0 <= active_connections_ a /\ active_connections_ a + pending_count a <= limit /\
  (accept_pending_ a && retry_pending_ a = false) /\
  (paused_ a = true -> accept_pending_ a = false /\ retry_pending_ a = false).

Lemma accept_ok_bounds limit a : accept_ok limit a -> accept_bounds limit a.
Proof. unfold accept_ok, accept_bounds. tauto. Qed.

Lemma next_action_ok limit a : accept_bounds limit a -> accept_ok limit (next_action a).2.
Proof.
  destruct a as [m n ap rp pa st]. unfold accept_bounds, accept_ok, pending_count, next_action. cbn.
  intros (-> & H0 & Hc & Hx & Hp).
  destruct st, ap, rp, pa; cbn in *; try discriminate; try (destruct (limit <=? n) eqn:E; cbn); reflect_bools;
    intuition (first [lia | congruence]).
Qed.

Lemma next_action_active a : active_connections_ (next_action a).2 = active_connections_ a.
Proof. unfold next_action. by case_ifs. Qed.

Lemma next_action_stopped a : stopped_ (next_action a).2 = stopped_ a.
Proof. unfold next_action. by case_ifs. Qed.

(** An accept is pending after [next_action] when it asked for one, or was pending. *)
Lemma next_action_pending a :
  retry_pending_ (next_action a).2 = retry_pending_ a /\
  accept_pending_ (next_action a).2 =
    match (next_action a).1 with start_accept | resume_and_start => true | _ => accept_pending_ a end.
Proof. unfold next_action. by case_ifs. Qed.

Lemma finished_bounds limit a :
  limit < 2 ^ 64 -> accept_bounds limit a -> 0 < active_connections_ a ->
  accept_bounds limit (accept_session_finished a) /\
  active_connections_ (accept_session_finished a) = active_connections_ a - 1.
Proof.
  intros Hl (Hm & H0 & Hc & Hx & Hp) Hpos. unfold accept_session_finished, pending_count in *.
  rewrite (proj2 (Z.ltb_lt _ _)) by done. unfold accept_bounds, pending_count. cbn.
  rewrite u64_small by (unfold in_u64; destruct (accept_pending_ a); lia).
  split_and!; try done; try lia; by apply Hp.
Qed.

Lemma completed_bounds limit a :
  accept_bounds limit a -> accept_bounds limit (accept_completed a).
Proof.
  intros (Hm & H0 & Hc & Hx & Hp). unfold accept_bounds, pending_count in *. cbn.
  destruct (accept_pending_ a); split_and!; try done; try lia; by apply Hp.
Qed.

Lemma started_bounds limit a :
  limit < 2 ^ 64 -> accept_bounds limit a -> accept_pending_ a = true ->
  accept_bounds limit (accept_session_started (accept_completed a)) /\
  active_connections_ (accept_session_started (accept_completed a)) = active_connections_ a + 1.
Proof.
  intros Hl (Hm & H0 & Hc & Hx & Hp) Hpe. unfold accept_bounds, pending_count in *. cbn. rewrite Hpe in *.
  rewrite u64_small by (unfold in_u64; lia). split_and!; try done; try lia; by apply Hp.
Qed.


Lemma finished_drain d :
  drain_ok d -> 0 < active_sessions_ d < 2 ^ 64 ->
  drain_ok (drain_session_finished d).2 /\
  active_sessions_ (drain_session_finished d).2 = active_sessions_ d - 1 /\
  if (drain_session_finished d).1
  then phase_ (drain_session_finished d).2 = completed /\ (phase_ d = draining \/ phase_ d = force_stopping)
  else phase_ (drain_session_finished d).2 = phase_ d /\ phase_ d <> completed.
Proof.
  destruct d as [p a]. unfold drain_ok, drain_session_finished. cbn. intros [H0 Hp] Ha.
  rewrite (proj2 (Z.eqb_neq a 0)) by lia. rewrite u64_small by (unfold in_u64; lia).
  destruct p; unfold phase_is; repeat case_bool_decide; try done; destruct (a - 1 =? 0) eqn:E;
    reflect_bools; cbn; split_and!; (lia || auto || congruence).
Qed.

Lemma force_stop_cases d :
  drain_ok d -> phase_ d = running \/ phase_ d = draining ->
  drain_ok (begin_force_stop d).2 /\ active_sessions_ (begin_force_stop d).2 = active_sessions_ d /\
  (((begin_force_stop d).1 = started /\ phase_ (begin_force_stop d).2 = force_stopping) \/
   ((begin_force_stop d).1 = drain_completed /\ phase_ (begin_force_stop d).2 = completed)).
Proof.
  destruct d as [p a]. unfold drain_ok, begin_force_stop, transition_to. cbn. intros [H0 Hp] [-> | ->]; cbn;
    unfold phase_is; repeat case_bool_decide; try done; destruct (a =? 0) eqn:E; reflect_bools; cbn; split_and!; (lia || auto).
Qed.

Lemma begin_drain_cases d :
  drain_ok d -> phase_ d = running ->
  drain_ok (drain_begin_drain d).2 /\ active_sessions_ (drain_begin_drain d).2 = active_sessions_ d /\
  (((drain_begin_drain d).1 = started /\ phase_ (drain_begin_drain d).2 = draining) \/
   ((drain_begin_drain d).1 = drain_completed /\ phase_ (drain_begin_drain d).2 = completed)).
Proof.
  destruct d as [p a]. unfold drain_ok, drain_begin_drain, transition_to. cbn. intros [H0 Hp] ->. cbn.
  unfold phase_is; repeat case_bool_decide; try done; destruct (a =? 0) eqn:E; reflect_bools; cbn; split_and!; (lia || auto).
Qed.

(** ** The invariant *)

Section Proofs.
Context {I : SessionInterface} {laws : SessionLaws I}.
Context (config : AppConfig) (limited : 0 < max_connections config < 2 ^ 64).

Implicit Types (s : Server) (w : ServerWorld).

Definition sv_phase (s : Server) : ServerDrainPhase := phase_ (sv_drain s).

(** Nothing is accepted, probed, or kept in the pool any more. *)
Definition quiet (s : Server) : Prop :=
  stopped_ (sv_accept s) = true /\ hc_stopped_ (sv_checks s) = true /\
  upstream_pool_stopped (sv_shared s) = true /\ ls_open (sv_listener s) = false.

(** What holds at every point of a handler. *)
Record inv (s : Server) : Prop := {
  inv_drain : drain_ok (sv_drain s);
  inv_active : active_sessions_ (sv_drain s) = Z.of_nat (size (sv_sessions s));
  inv_accept : accept_bounds (max_connections config) (sv_accept s);
  inv_connections : active_connections_ (sv_accept s) = Z.of_nat (size (sv_sessions s));
  inv_all_sessions :
    map_Forall (fun id session => (id < sv_next s)%nat /\ session_ok true session) (sv_sessions s) /\
    map_Forall (fun id session => (id < sv_next s)%nat /\ session_ok false session /\ sv_sessions s !! id = None)
      (sv_departed s);
  inv_running : sv_phase s = running -> stopped_ (sv_accept s) = false;
  inv_quiet : sv_phase s <> running -> quiet s;
  inv_callbacks : drain_callbacks (sv_completion s) = if cp_claimed (sv_completion s) then 1%nat else 0%nat;
  inv_claimed : cp_claimed (sv_completion s) = true -> sv_phase s = completed;
  inv_checks : checks_ok config (sv_checks s) }.

(** What is known of the failure flag, of the number of failure callbacks, and of whether
    the completion has been or will be reported. *)
Definition Knowledge : Type := RuntimeFailureState -> nat -> bool -> Prop.

Definition known (K : Knowledge) (s : Server) : Prop :=
  let c := sv_completion s in K (sv_failure s) (failure_callbacks c) (cp_enabled c || cp_claimed c).

Definition exact (R : bool -> Prop) : Knowledge := fun f n reports =>
  n = (if claimed_ f then 1%nat else 0%nat) /\ R reports.

Definition any (reports : bool) : Prop := True.
Definition reporting (reports : bool) : Prop := reports = true.

Definition settled (s : Server) : Prop :=
  sv_phase s = completed -> cp_enabled (sv_completion s) = true -> cp_claimed (sv_completion s) = true.

(** The waits of the accept loop. *)
Definition waits (s : Server) : Prop :=
  sv_phase s = running ->
  ls_accept_wait (sv_listener s) = accept_pending_ (sv_accept s) /\
  ls_retry_wait (sv_listener s) = retry_pending_ (sv_accept s) /\
  ls_open (sv_listener s) = ls_started (sv_listener s).

(** Everything is closed and the completion has been reported. *)
Definition halted (K : Knowledge) (s : Server) : Prop :=
  inv s /\ sv_phase s = completed /\ settled s /\ known K s.

(** [fail] can be called when everything is closed. *)
Definition fails (K : Knowledge) (fail : Server -> Server) : Prop :=
  forall s, halted K s -> halted K (fail s).

(** [fail_runtime] can be called. *)
Definition stoppable (s : Server) : Prop :=
  inv s /\ known (exact any) s /\ settled s /\ sv_phase s <> force_stopping /\
  (sv_phase s <> completed -> claimed_ (sv_failure s) = false).

(** Between two operations of a handler. *)
Definition point (s : Server) : Prop :=
  stoppable s /\ waits s /\ (sv_phase s = draining -> cp_enabled (sv_completion s) = true).

(** The accept loop makes progress. *)
Definition ready (s : Server) : Prop :=
  sv_phase s = running -> ls_started (sv_listener s) = true -> accept_ok (max_connections config) (sv_accept s).

(** Between two handlers. *)
Definition server_ok (s : Server) : Prop :=
  point s /\ ready s /\ (sv_phase s = draining -> cp_timer_wait (sv_completion s) = true).

Lemma inv_sessions s : inv s -> map_Forall (fun id session => (id < sv_next s)%nat /\ session_ok true session) (sv_sessions s).
Proof. intros H. apply H. Qed.

Lemma inv_small s id session :
  inv s -> sv_sessions s !! id = Some session ->
  0 < active_sessions_ (sv_drain s) < 2 ^ 64 /\ 0 < active_connections_ (sv_accept s).
Proof.
  intros H E. destruct (inv_accept s H) as (_ & _ & Hb & _). rewrite (inv_active s H), (inv_connections s H) in *.
  assert (size (sv_sessions s) <> 0)%nat by (intros E0%map_size_empty_iff; by rewrite E0 in E).
  unfold pending_count in Hb. case_match; lia.
Qed.

Lemma inv_set_shared s shared :
  inv s -> (upstream_pool_stopped (sv_shared s) = true -> upstream_pool_stopped shared = true) ->
  inv (set_shared shared s).
Proof.
  intros H Hs. destruct H as [? ? ? ? ? ? Hq ? ? ?]. constructor; try done.
  intros Hp. destruct (Hq Hp) as (? & ? & ? & ?). split_and!; [done..| |done]. by apply Hs.
Qed.

Lemma inv_set_completion s c :
  inv s -> cp_claimed c = cp_claimed (sv_completion s) -> drain_callbacks c = drain_callbacks (sv_completion s) ->
  inv (set_completion c s).
Proof. intros [] E1 E2. constructor; cbn; rewrite ?E1, ?E2; done. Qed.

Lemma inv_set_failure s f : inv s -> inv (set_failure f s).
Proof. by intros []. Qed.

(** A session that has been removed. *)
Definition removed (id : nat) (session : Session) (s : Server) : Server :=
  set_drain (drain_session_finished (sv_drain s)).2
    (set_accept (accept_session_finished (sv_accept s))
       (set_departed (<[id := session]> (sv_departed s)) (set_sessions (delete id (sv_sessions s)) s))).

Lemma depart_eq fail w id session s :
  depart fail w id session s =
    if (drain_session_finished (sv_drain s)).1 then
      if cp_enabled (sv_completion s) then finish_drain fail w (removed id session s) else removed id session s
    else match (drive_accept w (removed id session s)).2 with
         | Ok _ => (drive_accept w (removed id session s)).1
         | Throw _ => fail (drive_accept w (removed id session s)).1
         end.
Proof.
  unfold depart. cbn. unfold removed.
  destruct (drain_session_finished (sv_drain s)) as [[] d]; cbn; [done|]. by destruct (drive_accept w _).
Qed.

Lemma removed_inv id s was session :
  inv s -> sv_sessions s !! id = Some was -> session_ok false session ->
  inv (removed id session s) /\ (waits s -> waits (removed id session s)) /\
  if (drain_session_finished (sv_drain s)).1
  then sv_phase (removed id session s) = completed /\ (sv_phase s = draining \/ sv_phase s = force_stopping)
  else sv_phase (removed id session s) = sv_phase s /\ sv_phase s <> completed.
Proof.
  intros H E Hend. destruct (inv_small s id was H E) as [Ha Hc].
  destruct (finished_drain (sv_drain s) (inv_drain s H) Ha) as (Hok & Hn & Hp).
  destruct (finished_bounds (max_connections config) (sv_accept s)) as [Hb Hm]; [lia|apply H|done|].
  assert (Hsize : (size (delete id (sv_sessions s)) = size (sv_sessions s) - 1)%nat)
    by (rewrite map_size_delete_Some by (by exists was); lia).
  assert (Hst : stopped_ (accept_session_finished (sv_accept s)) = stopped_ (sv_accept s) /\
                accept_pending_ (accept_session_finished (sv_accept s)) = accept_pending_ (sv_accept s) /\
                retry_pending_ (accept_session_finished (sv_accept s)) = retry_pending_ (sv_accept s))
    by (unfold accept_session_finished; by case_ifs).
  destruct Hst as (Hst & Hpe & Hre).
  pose proof (inv_active s H) as Hs1. pose proof (inv_connections s H) as Hs2.
  assert (Hmono : phase_ (drain_session_finished (sv_drain s)).2 = running <-> sv_phase s = running).
  { unfold sv_phase. destruct (drain_session_finished (sv_drain s)).1; destruct Hp as [-> Hp]; [|done].
    split; [done|]. intros E0. rewrite E0 in Hp. by destruct Hp. }
  split_and!.
  - destruct H as [? ? ? ? [Hlive Hdep] Hrun Hquiet ? Hclaim ?]. constructor; unfold sv_phase, quiet in *; cbn; try done.
    + lia.
    + lia.
    + split; [by apply map_Forall_delete|]. apply map_Forall_insert_2.
      * split_and!; [by apply (Hlive id was)|done|apply lookup_delete_eq].
      * intros i x Hi. destruct (Hdep i x Hi) as (? & ? & Hnone). split_and!; try done.
        destruct (decide (i = id)) as [->|]; [apply lookup_delete_eq|by rewrite lookup_delete_ne].
    + rewrite Hst. tauto.
    + rewrite Hst. tauto.
    + intros Hx. specialize (Hclaim Hx). destruct (drain_session_finished _).1; destruct Hp as [-> Hp]; done.
  - unfold waits, sv_phase. cbn. rewrite Hpe, Hre. tauto.
  - done.
Qed.

Lemma drive_accept_spec w s :
  inv s ->
  inv (drive_accept w s).1 /\ sv_drain (drive_accept w s).1 = sv_drain s /\
  sv_completion (drive_accept w s).1 = sv_completion s /\ sv_failure (drive_accept w s).1 = sv_failure s /\
  ls_started (sv_listener (drive_accept w s).1) = ls_started (sv_listener s) /\
  match (drive_accept w s).2 with
  | Ok _ => waits s -> waits (drive_accept w s).1 /\ ready (drive_accept w s).1
  | Throw _ => sv_phase s = running
  end.
Proof.
  intros H. unfold drive_accept. destruct (phase_is (phase_ (sv_drain s)) running) eqn:Ep; cbn [negb].
  2: { apply bool_decide_eq_false in Ep. cbn. split_and!; try done. }
  apply bool_decide_eq_true in Ep.
  pose proof (next_action_ok _ _ (inv_accept s H)) as Hok. pose proof (next_action_active (sv_accept s)) as Ha.
  pose proof (next_action_stopped (sv_accept s)) as Hst. pose proof (next_action_pending (sv_accept s)) as [Hr Hpe].
  destruct (next_action (sv_accept s)) as [action accept]. cbn in *.
  assert (Hinv : inv (set_accept accept s)).
  { destruct H. constructor; unfold sv_phase, quiet in *; cbn; rewrite ?Hst; try done.
    - by apply accept_ok_bounds.
    - lia. }
  assert (Hready : forall l, ready (set_listener l (set_accept accept s))) by (intros l _ _; exact Hok).
  assert (Hquiet : forall l, inv (set_listener l (set_accept accept s))).
  { intros l. destruct Hinv. constructor; try done. }
  assert (Hwaits : forall l, waits s -> ls_accept_wait l = accept_pending_ accept ->
            ls_retry_wait l = ls_retry_wait (sv_listener s) -> ls_open l = ls_open (sv_listener s) ->
            ls_started l = ls_started (sv_listener s) -> waits (set_listener l (set_accept accept s))).
  { intros l Hw E1 E2 E3 E4. destruct (Hw Ep) as (? & ? & ?). unfold waits. cbn. rewrite E1, E2, E3, E4, Hr. done. }
  destruct action; try destruct (sw_accept w); cbn; split_and!; auto.
  all: intros Hw; destruct (Hw Ep) as (Hw1 & Hw2 & Hw3).
  1, 3: split; [apply (Hwaits (sv_listener s))|apply (Hready (sv_listener s))]; (done || congruence).
  all: split; [apply Hwaits|apply Hready]; cbn; (done || congruence).
Qed.

Lemma halted_intro (K : Knowledge) s :
  inv s -> sv_phase s = completed -> known K s ->
  (cp_enabled (sv_completion s) = true -> cp_claimed (sv_completion s) = true) -> halted K s.
Proof. intros H Hp HK He. split_and!; try done. by intros _. Qed.

Lemma finish_drain_halted K fail w s :
  fails K fail -> inv s -> sv_phase s = completed -> known K s -> halted K (finish_drain fail w s).
Proof.
  intros Hf H Hp HK. unfold finish_drain.
  destruct (cp_claimed (sv_completion s)) eqn:Ec; cbn [orb]; [by apply halted_intro|].
  destruct (cp_enabled (sv_completion s)) eqn:Ee; cbn [negb]; [|apply halted_intro; congruence].
  set (c := mkCompletion _ _ _ _ _ _).
  assert (Hh : halted K (set_completion c s)).
  { apply halted_intro; try done.
    - pose proof (inv_callbacks s H) as E. rewrite Ec in E. destruct H. constructor; try done. cbn. by rewrite E.
    - unfold known in *. subst c. cbn in *. by rewrite Ee in *. }
  destruct (sw_callback w); [done|by apply Hf].
Qed.

(** Removing a session while the server closes. *)
Lemma depart_closing K fail w id s was session :
  fails K fail -> inv s -> known K s -> sv_phase s <> running ->
  sv_sessions s !! id = Some was -> session_ok false session ->
  halted K (depart fail w id session s) \/
  (depart fail w id session s = removed id session s /\ inv (removed id session s) /\
   sv_phase (removed id session s) = sv_phase s).
Proof.
  intros Hf H HK Hp E Hend. rewrite depart_eq.
  destruct (removed_inv id s was session H E Hend) as (Hinv & Hw & Hcase). destruct (drain_session_finished _).1.
  - destruct Hcase as [Hc _]. left. destruct (cp_enabled (sv_completion s)) eqn:Ee.
    + by apply finish_drain_halted.
    + apply halted_intro; try done. cbn. congruence.
  - destruct Hcase as [Hc _]. right. unfold drive_accept.
    assert (phase_is (phase_ (sv_drain (removed id session s))) running = false) as ->; [|done].
    apply bool_decide_eq_false. unfold sv_phase in *. congruence.
Qed.

Lemma halted_empty K s : halted K s -> sv_sessions s = ∅.
Proof.
  intros (H & Hp & _). apply map_size_empty_iff. pose proof (inv_active s H). destruct (inv_drain s H) as [_ Hd].
  unfold sv_phase in Hp. rewrite Hp in Hd. lia.
Qed.

Lemma stop_sessions_empty fuel fail w s : sv_sessions s = ∅ -> stop_sessions fuel fail w s = Some s.
Proof. intros E. destruct fuel; cbn; by rewrite E, map_to_list_empty. Qed.

(** An operation of a session that closes it removes it. *)
Lemma outcome_closed fail w id shared session s :
  session_outcome fail w id (shared, session, true) s = depart fail w id session (set_shared shared s).
Proof.
  unfold session_outcome, remove_session. cbn. rewrite lookup_insert_eq, !depart_eq. unfold removed. cbn.
  by rewrite delete_insert_eq.
Qed.

(** The loop that stops the sessions ends, with everything closed. *)
Lemma stop_sessions_halts K fail w n s :
  fails K fail -> inv s -> known K s -> sv_phase s = force_stopping -> size (sv_sessions s) = n ->
  exists s', stop_sessions n fail w s = Some s' /\ halted K s'.
Proof.
  intros Hf. revert s. induction n as [|n IH]; intros s H HK Hp Hn.
  { destruct (inv_drain s H) as [_ Hd]. pose proof (inv_active s H). unfold sv_phase in Hp. rewrite Hp in Hd. lia. }
  cbn. destruct (map_to_list (sv_sessions s)) as [|[id session] rest] eqn:E.
  { apply map_to_list_empty_iff in E. by rewrite E, map_size_empty in Hn. }
  assert (Hl : sv_sessions s !! id = Some session) by (apply elem_of_map_to_list; rewrite E; by left).
  destruct (inv_sessions s H id session Hl) as [_ Hlive].
  destruct (stop_closes (view_of s) (sv_shared s) session) as [Hcl Hstop]. specialize (Hcl Hlive). specialize (Hstop Hlive).
  destruct (session_stop (view_of s) (sv_shared s) session) as [[shared session'] closed]. cbn in Hcl, Hstop. subst closed.
  rewrite outcome_closed. destruct Hcl as [Hend Hpool]. cbn in Hend.
  assert (Hi : inv (set_shared shared s)) by (by apply inv_set_shared).
  destruct (depart_closing K fail w id (set_shared shared s) session session') as [Hh|(-> & Hr & Hpr)];
    try done; [change (sv_phase s <> running); congruence| |].
  - exists (depart fail w id session' (set_shared shared s)). split; [|done].
    apply stop_sessions_empty. by eapply halted_empty.
  - apply IH; try done; [by rewrite Hpr|]. cbn. rewrite map_size_delete_Some by (by exists session). cbn. lia.
Qed.

Lemma stop_all_halts K fail w s :
  fails K fail -> inv s -> known K s -> sv_phase s = force_stopping -> halted K (stop_all_sessions fail w s).
Proof.
  intros Hf H HK Hp. unfold stop_all_sessions.
  destruct (stop_sessions_halts K fail w (size (sv_sessions s)) s) as (s' & -> & Hh); done.
Qed.

Lemma stop_all_empty fail w s : sv_sessions s = ∅ -> stop_all_sessions fail w s = s.
Proof. intros E. unfold stop_all_sessions. by rewrite stop_sessions_empty. Qed.

(** Leaving the running or the draining phase. *)
Lemma closing_inv d c s :
  inv s -> sv_phase s <> completed -> drain_ok d -> active_sessions_ d = active_sessions_ (sv_drain s) ->
  phase_ d <> running ->
  cp_claimed c = cp_claimed (sv_completion s) -> drain_callbacks c = drain_callbacks (sv_completion s) ->
  inv (stop_accepting (set_completion c (set_drain d s))).
Proof.
  intros H Hp Hd Ha Hr E1 E2.
  assert (Hc : checks_ok config (checks_stop (sv_checks s)) /\ hc_stopped_ (checks_stop (sv_checks s)) = true).
  { destruct (checks_step_ok config (sv_checks s) ev_stop) as (s' & Hs & Hok); [apply H|done|].
    injection Hs as <-. split; [done|]. unfold checks_stop. by destruct (hc_stopped_ (sv_checks s)) eqn:?. }
  destruct H as [? ? Hacc ? ? ? ? Hcb Hclaim ?]. constructor; unfold sv_phase, quiet in *; cbn; try done.
  - congruence.
  - intros _. split_and!; [done|apply Hc|apply stop_pool_stops|done].
  - by rewrite E1, E2.
  - rewrite E1. intros Hx. by destruct Hp; apply Hclaim.
  - apply Hc.
Qed.

Lemma running_or_draining s :
  sv_phase s <> force_stopping -> sv_phase s <> completed -> sv_phase s = running \/ sv_phase s = draining.
Proof. destruct (sv_phase s); auto; done. Qed.

Lemma server_stop_halts K fail w s :
  fails K fail -> inv s -> known K (set_completion (set_enabled false (sv_completion s)) s) ->
  sv_phase s <> force_stopping -> halted K (server_stop fail w s).
Proof.
  intros Hf H HK Hp. unfold server_stop. cbn.
  destruct (decide (sv_phase s = completed)) as [Hc|Hc].
  - unfold begin_force_stop. unfold sv_phase in Hc. rewrite Hc. cbn.
    apply halted_intro; try done. by apply inv_set_completion.
  - destruct (force_stop_cases (sv_drain s)) as (Hok & Ha & Hcase); [apply H|by apply running_or_draining|].
    destruct (begin_force_stop (sv_drain s)) as [r d]. cbn in Hok, Ha, Hcase.
    assert (Hi : inv (stop_accepting (set_drain d (set_completion (set_enabled false (sv_completion s)) s)))).
    { apply closing_inv; try done. by destruct Hcase as [[_ ->]|[_ ->]]. }
    destruct Hcase as [[-> Hd]|[-> Hd]].
    + by apply stop_all_halts.
    + assert (Hh : halted K (stop_accepting (set_drain d (set_completion (set_enabled false (sv_completion s)) s))))
        by (by apply halted_intro).
      rewrite stop_all_empty; [done|by apply (halted_empty K)].
Qed.

(** ** Failing *)

Lemma halted_point s : halted (exact any) s -> point s.
Proof.
  intros (H & Hp & Hs & HK). unfold point, stoppable, waits. rewrite Hp. by split_and!.
Qed.

Lemma fail_runtime_halts R w s :
  stoppable s -> R (cp_claimed (sv_completion s)) -> halted (exact R) (fail_runtime w s).
Proof.
  intros (H & [HK _] & Hs & Hp & Hf) HR. unfold fail_runtime, claim.
  destruct (claimed_ (sv_failure s)) eqn:E; cbn [negb].
  - assert (Hc : sv_phase s = completed) by (destruct (decide (sv_phase s = completed)); [done|by discriminate Hf]).
    split_and!; try done. split; [by rewrite HK, E|]. specialize (Hs Hc).
    by destruct (cp_enabled (sv_completion s)); [rewrite Hs in * by done|].
  - destruct (server_stop_halts (fun f n reports => f = mkFailure true /\ n = 0%nat /\ R reports) (fun s => s) w
                (set_failure (mkFailure true) s)) as (Hi & Hc & Hset & Hfl & Hn & Hr); try done.
    + by intros ?.
    + by apply inv_set_failure.
    + set (stopped := server_stop _ _ _) in *. clearbody stopped. apply halted_intro; try done.
      * by apply inv_set_completion.
      * split; [|done]. cbn. by rewrite Hfl, Hn.
      * by apply Hset.
Qed.

Lemma halted_any R s : halted (exact R) s -> halted (exact any) s.
Proof. intros (H & Hp & Hs & HK & _). by split_and!. Qed.

Lemma fail_runtime_fails R w : fails (exact R) (fail_runtime w).
Proof.
  intros s Hh. apply fail_runtime_halts; [by apply (halted_point s), (halted_any R)|].
  destruct Hh as (_ & Hp & Hs & _ & HR). specialize (Hs Hp).
  by destruct (cp_enabled (sv_completion s)); [rewrite Hs in * by done|].
Qed.

Lemma fail_runtime_point w s : stoppable s -> halted (exact any) (fail_runtime w s).
Proof. intros H. by apply fail_runtime_halts. Qed.

Lemma force_stop_halts R w s :
  stoppable s -> sv_phase s <> completed -> R (cp_enabled (sv_completion s)) -> halted (exact R) (force_stop w s).
Proof.
  intros (H & [HK _] & _ & Hp & Hf) Hc HR. unfold force_stop.
  destruct (force_stop_cases (sv_drain s)) as (Hok & Ha & Hcase); [apply H|by apply running_or_draining|].
  destruct (begin_force_stop (sv_drain s)) as [r d]. cbn in Hok, Ha, Hcase.
  assert (Hi : inv (stop_accepting (set_completion (set_forced (sv_completion s)) (set_drain d s)))).
  { apply closing_inv; try done. by destruct Hcase as [[_ ->]|[_ ->]]. }
  assert (Hk : known (exact R) (stop_accepting (set_completion (set_forced (sv_completion s)) (set_drain d s)))).
  { split; [done|]. cbn. destruct (cp_claimed (sv_completion s)) eqn:Ec; [|by rewrite orb_false_r].
    by destruct Hc; apply (inv_claimed s H). }
  destruct Hcase as [[-> Hd]|[-> Hd]]; cbn [sv_completion set_drain].
  - by apply stop_all_halts; [apply fail_runtime_fails|..].
  - rewrite stop_all_empty.
    + by apply finish_drain_halted; [apply fail_runtime_fails|..].
    + apply map_size_empty_iff. pose proof (inv_active _ Hi) as Hx. destruct (inv_drain _ Hi) as [_ Hy].
      cbn in Hx, Hy. rewrite Hd in Hy. cbn. lia.
Qed.

(** ** Sessions *)

(** An operation of a handler leaves the phase as it is or closes everything. *)
Definition moved (s s' : Server) : Prop :=
  sv_phase s' = completed \/
  (sv_phase s' = sv_phase s /\ sv_completion s' = sv_completion s /\
   ls_started (sv_listener s') = ls_started (sv_listener s)).

Lemma moved_trans s1 s2 s3 : moved s1 s2 -> moved s2 s3 -> moved s1 s3.
Proof. unfold moved. intros [] []; intuition congruence. Qed.

Lemma halted_moved R s s' : halted (exact R) s' -> point s' /\ ready s' /\ moved s s'.
Proof.
  intros H. apply halted_any in H. split_and!; [by apply halted_point| |by left; apply H].
  intros Hp. destruct H as (_ & Hc & _). congruence.
Qed.

Lemma drive_stoppable w s : stoppable s -> stoppable (drive_accept w s).1.
Proof.
  intros (H & Hst). destruct (drive_accept_spec w s H) as (Hi & Hd & Hc & Hf & _).
  unfold stoppable, known, settled, sv_phase in *. by rewrite Hd, Hc, Hf.
Qed.

(** A drive of the accept loop whose exceptions fail the server. *)
Lemma driven_ok w s :
  stoppable s -> waits s -> (sv_phase s = draining -> cp_enabled (sv_completion s) = true) ->
  let s' := handled w (drive_accept w s) in point s' /\ ready s' /\ moved s s'.
Proof.
  intros Hst Hw He. destruct (drive_accept_spec w s) as (Hi & Hd & Hc & Hf & Hl & Hr); [apply Hst|].
  pose proof (drive_stoppable w s Hst) as Hst'. unfold handled. destruct (drive_accept w s) as [s' r]. cbn in *.
  destruct r.
  - destruct (Hr Hw) as [Hw' Hready]. split_and!; try done.
    + unfold point, sv_phase in *. by rewrite Hd, Hc.
    + right. unfold sv_phase. by rewrite Hd, Hc.
  - by apply (halted_moved any), fail_runtime_point.
Qed.

Lemma depart_ok w id s was session :
  point s -> sv_sessions s !! id = Some was -> session_ok false session ->
  let s' := depart (fail_runtime w) w id session s in point s' /\ ready s' /\ moved s s'.
Proof.
  intros (Hst & Hw & He) E Hend. pose proof Hst as (H & HK & Hset & Hp & Hf).
  destruct (removed_inv id s was session H E Hend) as (Hinv & Hw' & Hcase).
  destruct (decide (sv_phase s = running)) as [Hr|Hr].
  - cbn zeta. rewrite depart_eq. destruct (drain_session_finished _).1.
    { rewrite Hr in Hcase. by destruct Hcase as [_ [|]]. }
    destruct Hcase as [Hc _].
    assert (Hst1 : stoppable (removed id session s)) by (unfold stoppable, settled; rewrite Hc; by split_and!).
    destruct (driven_ok w (removed id session s)) as (Hp1 & Hr1 & Hm1); [done|by apply Hw'|by rewrite Hc|].
    split_and!; [done|done|]. eapply moved_trans; [|exact Hm1]. by right.
  - cbn zeta. destruct (depart_closing (exact any) (fail_runtime w) w id s was session) as [Hh|(-> & Hr' & Hc)];
      try done; [apply fail_runtime_fails|by eapply halted_moved|].
    split_and!; try (by right); [|by unfold ready; rewrite Hc].
    unfold point, stoppable, settled, waits. rewrite Hc. by split_and!.
Qed.

Lemma outcome_ok w id s session outcome :
  point s -> sv_sessions s !! id = Some session ->
  closes_exactly session_ok upstream_pool_stopped (sv_shared s) session outcome ->
  let s' := session_outcome (fail_runtime w) w id outcome s in point s' /\ (ready s -> ready s') /\ moved s s'.
Proof.
  intros Hpt E Hcl. pose proof Hpt as ((H & Hrest) & Hw & He).
  destruct (inv_sessions s H id session E) as [Hlt Hlive]. destruct (Hcl Hlive) as [Hc Hpool].
  destruct outcome as [[shared session'] closed]. cbn in Hc, Hpool.
  assert (Hi : inv (set_shared shared s)) by (by apply inv_set_shared).
  destruct closed.
  - rewrite outcome_closed.
    destruct (depart_ok w id (set_shared shared s) session session') as (Hp' & Hr' & Hm); try done.
  - cbn. split_and!; try done; [|by right]. split_and!; try done. split; [|done].
    destruct Hi as [? Ha ? Hn [Hs Hd] ? ? ? ? ?]. constructor; try done; cbn in *.
    + rewrite map_size_insert_Some; [done|by exists session].
    + rewrite map_size_insert_Some; [done|by exists session].
    + split; [by apply map_Forall_insert_2|]. intros i x Hi. destruct (Hd i x Hi) as (? & ? & Hnone).
      split_and!; try done. rewrite lookup_insert_ne; [done|]. intros ->. congruence.
Qed.

Lemma drain_sessions_ok w snapshot s :
  point s -> sv_phase s <> running -> point (drain_sessions w snapshot s) /\ moved s (drain_sessions w snapshot s).
Proof.
  revert s. induction snapshot as [|id rest IH]; intros s Hpt Hr; cbn.
  { split; [done|by right]. }
  destruct (sv_sessions s !! id) as [session|] eqn:E; [|by apply IH].
  destruct (outcome_ok w id s session (session_begin_drain (view_of s) (sv_shared s) session)) as (Hp & _ & Hm);
    [done..|apply begin_drain_closes|].
  destruct (IH (session_outcome (fail_runtime w) w id (session_begin_drain (view_of s) (sv_shared s) session) s))
    as [Hp' Hm']; [done| |].
  - destruct Hm as [Hm|[Hm _]]; congruence.
  - split; [done|by eapply moved_trans].
Qed.

(** ** Handlers *)

Lemma halted_ok R s : halted (exact R) s -> server_ok s.
Proof.
  intros H. destruct (halted_moved R s s H) as (Hp & Hr & _). split_and!; [done..|].
  intros Hd. destruct H as (_ & Hc & _). congruence.
Qed.

Lemma point_set_timer b s : point s -> point (set_completion (set_timer_wait b (sv_completion s)) s).
Proof. intros ((H & ?) & ?). split; [split; [by apply inv_set_completion|done]|done]. Qed.

Lemma begin_drain_ok w s : server_ok s -> server_ok (begin_drain w s).
Proof.
  intros Hok. pose proof Hok as (((H & [HK _] & Hs & Hp & Hf) & Hw & He) & Hr & Ht).
  unfold begin_drain, begin_drain_impl.
  destruct (decide (sv_phase s = running)) as [Hrun|Hrun].
  2: { assert (E : drain_begin_drain (sv_drain s) = (unchanged, sv_drain s)); [|by rewrite E].
       unfold drain_begin_drain, phase_is. by rewrite bool_decide_eq_false_2. }
  destruct (begin_drain_cases (sv_drain s)) as (Hd & Ha & Hcase); [apply H|done|].
  destruct (drain_begin_drain (sv_drain s)) as [r d]. cbn in Hd, Ha, Hcase.
  set (s1 := stop_accepting (set_completion (set_enabled true (sv_completion s)) (set_drain d s))).
  assert (Hi : inv s1).
  { apply closing_inv; try done; [congruence|]. by destruct Hcase as [[_ ->]|[_ ->]]. }
  destruct Hcase as [[-> Hph]|[-> Hph]].
  2: { eapply halted_ok, finish_drain_halted; [apply (fail_runtime_fails any)|done..]. }
  assert (Hpt : point s1).
  { assert (Hp1 : sv_phase s1 = draining) by done. unfold point, stoppable, settled, waits. rewrite Hp1.
    split_and!; try done. intros _. apply Hf. congruence. }
  destruct (drain_sessions_ok w (map_to_list (sv_sessions s1)).*1 s1) as [Hp2 Hm]; [done|by unfold sv_phase; cbn; rewrite Hph|].
  cbn [sv_completion set_drain] in *. fold s1. set (s2 := drain_sessions w _ s1) in *. clearbody s2.
  destruct (phase_is (phase_ (sv_drain s2)) draining) eqn:E; cbn [negb].
  - apply bool_decide_eq_true in E. destruct (sw_timer w).
    + split_and!; [by apply point_set_timer| |done]. intros Hx. unfold sv_phase in Hx. cbn in Hx. congruence.
    + by eapply halted_ok, fail_runtime_point, Hp2.
  - apply bool_decide_eq_false in E. split_and!; [done|..]; intros Hx; [|done].
    destruct Hm as [Hm|[Hm _]]; unfold sv_phase in *; [congruence|]. cbn in Hm. congruence.
Qed.

Lemma on_drain_timer_ok w e s :
  server_ok s -> server_ok (on_drain_timer w e (set_completion (set_timer_wait false (sv_completion s)) s)).
Proof.
  intros (Hp & Hr & Ht). pose proof (point_set_timer false s Hp) as Hp'.
  unfold on_drain_timer, classify_drain_timer_completion. cbn.
  destruct (phase_is (phase_ (sv_drain s)) draining) eqn:E; cbn [negb].
  - apply bool_decide_eq_true in E. destruct (failed e); cbn [negb].
    + by eapply halted_ok, fail_runtime_point, Hp'.
    + eapply halted_ok, (force_stop_halts any); [by apply Hp'|unfold sv_phase; cbn; congruence|done].
  - apply bool_decide_eq_false in E. by split_and!.
Qed.

Lemma moved_ok w s s' : point s' /\ ready s' /\ moved s s' -> (sv_phase s = draining -> cp_timer_wait (sv_completion s) = true) -> server_ok s'.
Proof.
  intros (Hp & Hr & Hm) Ht. split_and!; [done..|]. intros Hd.
  destruct Hm as [Hm|(Hm & -> & _)]; [congruence|]. apply Ht. congruence.
Qed.

(** A change of the connection count, and of the waits, while the server runs. *)
Lemma stoppable_accept a l s :
  stoppable s -> sv_phase s = running -> accept_bounds (max_connections config) a ->
  active_connections_ a = active_connections_ (sv_accept s) -> stopped_ a = stopped_ (sv_accept s) ->
  stoppable (set_accept a (set_listener l s)).
Proof.
  intros (H & Hrest) Hp Hb Ha Hst. split; [|done]. destruct H.
  constructor; unfold sv_phase, quiet in *; cbn; rewrite ?Hst, ?Ha; done.
Qed.

Lemma opened_point a session s :
  point s -> sv_phase s = running -> session_ok true session ->
  accept_bounds (max_connections config) a -> accept_pending_ a = true -> sv_accept s = accept_completed a ->
  point (opened session s) /\ sv_phase (opened session s) = running.
Proof.
  intros ((H & Hrest) & Hw & He) Hp Hlive Hb Hpe Ea.
  destruct (started_bounds (max_connections config) a) as [Hb' Ha']; [lia|done|done|].
  assert (Ed : drain_session_started (sv_drain s) = mkDrain running (active_sessions_ (sv_drain s) + 1)).
  { unfold drain_session_started, sv_phase, phase_is in *. rewrite bool_decide_eq_true_2 by done. rewrite Hp.
    f_equal. apply u64_small. pose proof (inv_active s H). pose proof (inv_connections s H) as Hc.
    rewrite Ea in Hc. cbn in Hc. destruct Hb as (_ & ? & Hb & _). unfold pending_count, in_u64 in *.
    rewrite Hpe in Hb. lia. }
  assert (Hnone : sv_sessions s !! sv_next s = None).
  { destruct (sv_sessions s !! sv_next s) eqn:E; [|done]. destruct (inv_sessions s H _ _ E). lia. }
  assert (Hr : sv_phase (opened session s) = running) by (unfold opened, sv_phase; cbn; by rewrite Ed).
  split; [|done]. unfold point, stoppable, settled, waits. rewrite Hr.
  rewrite Hp in Hrest. destruct Hrest as (? & _ & _ & Hf). unfold waits in Hw. rewrite Hp in Hw.
  split_and!; try done.
  destruct H as [Hd Hn ? Hc [Hs Hgone] ? ? ? Hcl ?]. unfold opened in *. rewrite Ed in *.
  constructor; unfold sv_phase in *; cbn in *; try done.
  - split; [|done]. destruct Hd. cbn. lia.
  - rewrite map_size_insert_None by done. lia.
  - by rewrite Ea.
  - rewrite map_size_insert_None by done. rewrite Ea in *. cbn in *. lia.
  - split.
    + apply map_Forall_insert_2; [by split; [lia|]|]. intros id x Hx. destruct (Hs id x Hx). split; [lia|done].
    + intros id x Hx. destruct (Hgone id x Hx) as (? & ? & ?). split_and!; [lia|done|].
      by rewrite lookup_insert_ne by lia.
  - intros _. rewrite Ea in *. tauto.
  - intros Hx. specialize (Hcl Hx). congruence.
Qed.

Lemma retry_bounds limit a :
  accept_bounds limit a -> accept_pending_ a = true -> accept_ok limit (retry_scheduled (accept_completed a)).
Proof.
  destruct a as [m n ap rp pa st]. unfold accept_bounds, accept_ok, pending_count. cbn.
  intros (? & ? & ? & ? & Hp) ->. split_and!; try done; try lia; auto.
  intros Hx. by destruct (Hp Hx).
Qed.

Lemma on_accept_ok w e made answers s :
  server_ok s -> ls_accept_wait (sv_listener s) = true ->
  (forall session, made = Ok session -> session_made session) ->
  server_ok (handled w (on_accept w e made answers (set_listener (set_accept_wait false (sv_listener s)) s))).
Proof.
  intros (((H & Hrest) & Hw & He) & Hr & Ht) Hwait Hmade. unfold on_accept. cbn [sv_accept sv_drain set_listener set_accept].
  set (s1 := set_accept _ _). destruct (phase_is (phase_ (sv_drain s)) running) eqn:Ep; cbn [negb].
  2: { apply bool_decide_eq_false in Ep. split_and!; try done. split_and!; try done. split; [|done].
       destruct H as [? ? ? ? ? ? Hq ? ? ?]. constructor; try done. by apply completed_bounds. }
  apply bool_decide_eq_true in Ep. destruct (Hw Ep) as (Hw1 & Hw2 & Hw3). rewrite Hwait in Hw1. symmetry in Hw1.
  assert (Hst : stoppable s1) by (apply stoppable_accept; try done; apply completed_bounds, H).
  assert (Hpt : point s1) by (split_and!; try done; by unfold waits, sv_phase; cbn; rewrite Ep).
  destruct (failed e).
  { destruct (sw_log w); [|by eapply halted_ok, fail_runtime_point]. destruct (sw_timer w).
    - cbn. split_and!; [split_and!|..]; try done.
      + apply (stoppable_accept _ _ s); try done.
        by apply accept_ok_bounds, (retry_bounds _ (sv_accept s)); [apply H|].
      + intros _ _. apply retry_bounds; [apply H|done].
    - eapply halted_ok, fail_runtime_point. apply (stoppable_accept _ _ s); try done.
      by apply accept_ok_bounds, (retry_bounds _ (sv_accept s)); [apply H|]. }
  destruct made as [session|x]; [|by eapply halted_ok, fail_runtime_point].
  specialize (Hmade session eq_refl).
  destruct (opened_point (sv_accept s) session s1) as [Hpo Hro]; try done; [by apply made_ok|apply H|].
  set (s2 := opened session s1) in *.
  pose proof (start_closes answers (view_of s2) (sv_shared s2) session Hmade) as Hcl.
  destruct (session_start answers (view_of s2) (sv_shared s2) session) as [outcome r]. cbn in Hcl.
  destruct (outcome_ok w (sv_next s1) s2 session outcome) as (Hp3 & _ & Hm3); [done|apply lookup_insert_eq|done|].
  set (s3 := session_outcome _ _ _ _ _) in *. clearbody s3. destruct r.
  - apply (moved_ok w s3); [apply driven_ok; apply Hp3|]. intros Hx.
    destruct Hm3 as [Hm3|[Hm3 _]]; congruence.
  - eapply halted_ok, fail_runtime_point, Hp3.
Qed.

Lemma on_accept_retry_timer_ok w e s :
  server_ok s -> ls_retry_wait (sv_listener s) = true ->
  server_ok (on_accept_retry_timer w e (set_listener (set_retry_wait false (sv_listener s)) s)).
Proof.
  intros (((H & Hrest) & Hw & He) & Hr & Ht) Hwait. unfold on_accept_retry_timer.
  cbn [sv_accept sv_drain set_listener set_accept]. set (s1 := set_accept _ _).
  assert (Hb : accept_bounds (max_connections config) (retry_completed (sv_accept s))).
  { destruct (inv_accept s H) as (? & ? & ? & ? & Hpa). unfold accept_bounds, pending_count in *. cbn.
    split_and!; try done; [by rewrite andb_false_r|]. intros Hx. by destruct (Hpa Hx). }
  unfold classify_accept_retry_completion. destruct (phase_is (phase_ (sv_drain s)) running) eqn:Ep; cbn [negb].
  2: { apply bool_decide_eq_false in Ep. split_and!; try done. split_and!; try done. split; [|done].
       destruct H as [? ? ? ? ? ? Hq ? ? ?]. by constructor. }
  apply bool_decide_eq_true in Ep. destruct (Hw Ep) as (Hw1 & Hw2 & Hw3).
  assert (Hst : stoppable s1) by (by apply stoppable_accept).
  destruct (failed e); [by eapply halted_ok, fail_runtime_point|].
  apply (moved_ok w s1); [|done]. by apply driven_ok.
Qed.

Lemma inv_set_checks c s :
  inv s -> checks_ok config c -> (hc_stopped_ (sv_checks s) = true -> hc_stopped_ c = true) -> inv (set_checks c s).
Proof.
  intros [? ? ? ? ? ? Hq ? ? ?] Hc Hs. constructor; try done. intros Hp. destruct (Hq Hp) as (? & ? & ? & ?).
  split_and!; try done. by apply Hs.
Qed.

Lemma server_stop_ok w s : stoppable s -> halted (exact any) (server_stop (fail_runtime w) w s).
Proof. intros (H & HK & _ & Hp & _). by apply server_stop_halts; [apply fail_runtime_fails|..]. Qed.

(** A start that throws leaves a server that can be stopped. *)
Lemma server_start_cases w listen s :
  server_ok s -> sv_phase s = running ->
  match server_start w listen (Ok tt) s with
  | (s', Ok _) => server_ok s'
  | (s', Throw _) => stoppable s'
  end.
Proof.
  intros Hok Hrun. pose proof Hok as (((H & Hrest) & Hw & He) & Hr & Ht). unfold server_start.
  destruct (ls_started (sv_listener s)) eqn:Es; [done|].
  assert (Hst : forall l, stoppable (set_listener l s)).
  { intros l. split; [|done]. destruct H as [? ? ? ? ? ? Hq ? ? ?]. constructor; try done. }
  destruct listen; [|done|apply Hst]. set (s1 := set_listener _ s). specialize (Hst _ : stoppable s1).
  assert (Hw1 : waits s1) by (intros _; destruct (Hw Hrun) as (? & ? & _); done).
  destruct (sw_log w); [|done].
  pose proof (driven_ok w s1 Hst Hw1 He) as Hdr. pose proof (drive_stoppable w s1 Hst) as Hst2. unfold handled in Hdr.
  destruct (drive_accept w s1) as [s2 r]. cbn in Hdr, Hst2. destruct r; [|done].
  assert (Hs2 : server_ok s2) by (by apply (moved_ok w s1)).
  destruct Hs2 as (((H2 & Hrest2) & Hw2 & He2) & Hr2 & Ht2).
  destruct (checks_step_ok config (sv_checks s2) (ev_start (Ok tt))) as (c & Hc & Hcok); [apply H2|done|].
  cbn in Hc. injection Hc as Hc.
  assert (Er : (checks_start (Ok tt) (sv_checks s2)).2 = Ok tt) by (unfold checks_start; by case_ifs).
  assert (Estop : hc_stopped_ (sv_checks s2) = true -> hc_stopped_ c = true).
  { subst c. unfold checks_start. by case_ifs. }
  destruct (checks_start (Ok tt) (sv_checks s2)) as [c' r]. cbn in Hc, Er. subst c' r.
  split_and!; try done. split_and!; try done. split; [by apply inv_set_checks|done].
Qed.

Lemma server_start_ok w listen posting s :
  server_ok s -> posting = Ok tt -> sv_phase s = running ->
  exists s', server_step s (sv_start_call w listen posting) = Some s' /\ server_ok s'.
Proof.
  intros Hok -> Hrun. pose proof (server_start_cases w listen s Hok Hrun) as H. cbn [server_step].
  destruct (server_start w listen (Ok tt) s) as [s' [u|e]]; eexists; (split; [done|]); [done|].
  eapply halted_ok, server_stop_ok, H.
Qed.

Lemma on_checks_ok w event s :
  server_ok s -> server_enabled s (sv_checks_event w event) ->
  exists s', on_checks w event s = Some s' /\ server_ok s'.
Proof.
  intros (((H & Hrest) & Hw & He) & Hr & Ht) Hen.
  assert (Hen' : checks_enabled (sv_checks s) event) by (by destruct event).
  destruct (checks_step_ok config (sv_checks s) event) as (c & Hc & Hcok); [apply H|done|].
  unfold on_checks. rewrite Hc. cbn. eexists. split; [done|].
  assert (Hi : inv (set_checks c s)).
  { apply inv_set_checks; [done..|]. intros Hx. by apply (stopped_step config (sv_checks s) event c); [apply H|..]. }
  destruct (negb _).
  - by eapply halted_ok, fail_runtime_point.
  - split_and!; try done.
Qed.

(** The sessions that ended only change what is shared. *)
Lemma departed_ok l shared s :
  server_ok s -> (upstream_pool_stopped (sv_shared s) = true -> upstream_pool_stopped shared = true) ->
  map_Forall (fun id session => (id < sv_next s)%nat /\ session_ok false session /\ sv_sessions s !! id = None) l ->
  server_ok (set_departed l (set_shared shared s)).
Proof.
  intros (((H & Hrest) & Hw & He) & Hr & Ht) Hpool Hl. split_and!; try done. split_and!; try done. split; [|done].
  destruct H as [? ? ? ? [Hs _] ? Hq ? ? ?]. constructor; try done.
  intros Hp. destruct (Hq Hp) as (? & ? & ? & ?). split_and!; try done. by apply Hpool.
Qed.

(** Every handler returns, and keeps the invariant. *)
Lemma server_step_ok s event :
  server_ok s -> server_enabled s event -> exists s', server_step s event = Some s' /\ server_ok s'.
Proof.
  intros Hok Hen. pose proof Hok as (((H & Hrest) & Hw & He) & Hr & Ht).
  destruct event as [w listen posting|w|w|w|w e made answers|w e|w e|w id outcome|w id outcome|w id|w event]; cbn in Hen.
  - apply server_start_ok; [done|apply Hen..].
  - eexists. split; [done|]. by apply begin_drain_ok.
  - eexists. split; [done|]. unfold force_stop_drain. destruct (phase_is _ _) eqn:E; cbn [negb]; [|done].
    apply bool_decide_eq_true in E. eapply halted_ok, (force_stop_halts any); [done|unfold sv_phase; congruence|done].
  - eexists. split; [done|]. eapply halted_ok, server_stop_ok. by split.
  - eexists. split; [done|]. destruct Hen. by apply on_accept_ok.
  - eexists. split; [done|]. by apply on_accept_retry_timer_ok.
  - eexists. split; [done|]. by apply on_drain_timer_ok.
  - destruct Hen as (session & E & Hh). eexists. split; [done|].
    destruct (outcome_ok w id s session outcome) as (Hp & Hr' & Hm); [done..|by eapply handler_closes|].
    apply (moved_ok w s); [|done]. split_and!; [done|by apply Hr'|done].
  - destruct Hen as (session & E & Hh). destruct outcome as [[shared session'] closed]. eexists. split; [done|].
    destruct (proj2 (inv_all_sessions s H) id session E) as (Hlt & Hend & Hnone).
    destruct (handler_ended _ _ _ _ Hh Hend) as (Hend' & _ & _ & Hpool). apply departed_ok; [done|done|].
    apply map_Forall_insert_2; [by split_and!|apply H].
  - destruct Hen as (session & E & _). cbn [server_step]. rewrite E. eexists. split; [done|].
    apply departed_ok; [done|by rewrite destroy_keeps|]. apply map_Forall_delete, H.
  - by apply on_checks_ok.
Qed.

Lemma make_server_ok shared checks :
  checks_ok config checks -> server_ok (make_Server config shared checks).
Proof.
  intros Hc. split_and!; try done. split_and!; try done. split; [|by split_and!].
  constructor; try done; cbn.
  unfold accept_bounds, pending_count. cbn. split_and!; try done; lia.
Qed.

Lemma server_reachable_ok s : server_reachable config s -> server_ok s.
Proof.
  induction 1 as [now shared checks Hc|s event s' _ IH Hen Hs].
  - by eapply make_server_ok, make_checks_ok.
  - destruct (server_step_ok s event IH Hen) as (s2 & Hs2 & Hok). by rewrite Hs in Hs2; injection Hs2 as ->.
Qed.

(** The events that complete a drain: its timer, a second signal, the end of the last
    session. *)
Definition completes_drain (event : ServerEvent) (s : Server) : bool :=
  match event with
  | sv_drain_timer _ e => negb (failed e)
  | sv_force_stop _ => true
  | sv_session _ id (_, _, closed) => closed && (size (sv_sessions s) =? 1)%nat
  | _ => false
  end.

Lemma halted_reported s :
  halted (exact reporting) s -> sv_phase s = completed /\ drain_callbacks (sv_completion s) = 1%nat /\ sv_sessions s = ∅.
Proof.
  intros Hh. pose proof (halted_empty _ _ Hh) as Hs. destruct Hh as (H & Hp & Hset & _ & Hr).
  split_and!; [done| |done]. rewrite (inv_callbacks s H).
  destruct (cp_claimed (sv_completion s)) eqn:E; [done|]. specialize (Hset Hp). unfold reporting in Hr.
  rewrite E, orb_false_r in *. by specialize (Hset Hr).
Qed.

Lemma draining_step s event s' :
  server_ok s -> sv_phase s = draining -> server_enabled s event -> completes_drain event s = true ->
  server_step s event = Some s' -> halted (exact reporting) s'.
Proof.
  intros (((Hi & HK & Hset & Hp & Hf) & Hw & He) & Hr & Ht) Eph Hen Hev Hstep.
  assert (Hst : forall b, stoppable (set_completion (set_timer_wait b (sv_completion s)) s)).
  { intros b. split; [by apply inv_set_completion|done]. }
  destruct event as [| |w| | | |w e|w id [[shared session] closed]| | |]; try done; cbn in Hen, Hev; cbn [server_step] in Hstep.
  - injection Hstep as <-. unfold force_stop_drain, phase_is. rewrite bool_decide_eq_true_2 by done. cbn [negb].
    apply force_stop_halts; [done|congruence|by apply He].
  - injection Hstep as <-. unfold on_drain_timer, classify_drain_timer_completion, phase_is. cbn.
    rewrite bool_decide_eq_true_2, Hev by done. cbn [negb].
    apply force_stop_halts; [apply Hst|unfold sv_phase in *; cbn; congruence|by apply He].
  - destruct Hen as (was & E & Hh). apply andb_true_iff in Hev as [-> Hsize%Nat.eqb_eq].
    rewrite outcome_closed in Hstep. injection Hstep as <-.
    destruct (inv_sessions s Hi id was E) as [_ Hlive].
    destruct (handler_closes _ _ _ _ Hh Hlive) as [Hend Hpool]. cbn in Hend.
    destruct (depart_closing (exact reporting) (fail_runtime w) w id (set_shared shared s) was session)
      as [Hx|(_ & Hx & Hph)]; try done.
    + apply fail_runtime_fails.
    + by apply inv_set_shared.
    + destruct HK. split; [done|]. cbn. by rewrite He.
    + change (sv_phase s <> running). congruence.
    + exfalso. destruct (inv_drain _ Hx) as [_ Hd]. pose proof (inv_active _ Hx) as Ha.
      change (sv_phase (removed id session (set_shared shared s)) = sv_phase s) in Hph. unfold sv_phase in *.
      rewrite Hph, Eph in Hd. rewrite Ha in Hd. cbn in Hd.
      rewrite map_size_delete_Some in Hd by (by exists was). lia.
Qed.

(** C5: the server serves at most [max_connections] connections, its three counts agree, and
    a shutdown is orderly.  In every state that handlers and calls can reach, the drain
    callback and the failure callback have each been called at most once; when either
    has, or the shutdown is over, no session is left, the listener is closed, no accept will be
    started, the health checks are stopped and so is the pool of upstream connections. *)
Theorem server_safe s :
  server_reachable config s ->
  active_sessions_ (sv_drain s) = Z.of_nat (size (sv_sessions s)) /\
  active_connections_ (sv_accept s) = Z.of_nat (size (sv_sessions s)) /\
  Z.of_nat (size (sv_sessions s)) <= max_connections config /\
  (drain_callbacks (sv_completion s) <= 1)%nat /\ (failure_callbacks (sv_completion s) <= 1)%nat /\
  ((0 < drain_callbacks (sv_completion s) + failure_callbacks (sv_completion s))%nat \/ phase_ (sv_drain s) = completed ->
   sv_sessions s = ∅ /\ quiet s).
Proof.
  intros H. destruct (server_reachable_ok s H) as (((Hi & (HK & _) & Hset & Hp & Hf) & Hw & He) & Hr & Ht).
  split_and!; [apply Hi..| | | |].
  - destruct (inv_accept s Hi) as (_ & _ & Hb & _). rewrite <- (inv_connections s Hi).
    unfold pending_count in Hb. destruct (accept_pending_ (sv_accept s)); lia.
  - rewrite (inv_callbacks s Hi). destruct (cp_claimed (sv_completion s)); lia.
  - rewrite HK. destruct (claimed_ (sv_failure s)); lia.
  - intros Hc. assert (Hph : sv_phase s = completed).
    { destruct Hc as [Hc|Hc]; [|done]. destruct (decide (sv_phase s = completed)) as [E|E]; [done|].
      rewrite HK, (Hf E), (inv_callbacks s Hi) in Hc.
      destruct (cp_claimed (sv_completion s)) eqn:Ec; [by apply inv_claimed|cbn in Hc; lia]. }
    split; [by apply (halted_empty (exact any))|]. apply Hi. congruence.
Qed.

(** C6: the server never stalls.  From every reachable state each handler returns.  While
    the started server runs, an accept or its retry is pending, or the limit is reached;
    while it drains, sessions are left and the drain timer is armed.  No state is left half
    stopped.  When the timer expires, a second signal arrives or the last session ends, the
    drain is complete: no session is left and the callback has been called once. *)
Theorem server_progress s :
  server_reachable config s ->
  (forall event, server_enabled s event -> exists s', server_step s event = Some s') /\
  match phase_ (sv_drain s) with
  | running =>
      ls_started (sv_listener s) = true ->
      ls_accept_wait (sv_listener s) = true \/ ls_retry_wait (sv_listener s) = true \/
      Z.of_nat (size (sv_sessions s)) = max_connections config
  | draining =>
      sv_sessions s <> ∅ /\ cp_timer_wait (sv_completion s) = true /\
      forall event s', server_enabled s event -> completes_drain event s = true -> server_step s event = Some s' ->
        phase_ (sv_drain s') = completed /\ drain_callbacks (sv_completion s') = 1%nat /\ sv_sessions s' = ∅
  | force_stopping => False
  | completed => cp_enabled (sv_completion s) = true -> drain_callbacks (sv_completion s) = 1%nat
  end.
Proof.
  intros H. pose proof (server_reachable_ok s H) as Hok. split.
  { intros event Hen. destruct (server_step_ok s event Hok Hen) as (s' & E & _). by exists s'. }
  destruct Hok as (((Hi & HK & Hset & Hp & Hf) & Hw & He) & Hr & Ht). fold (sv_phase s).
  destruct (sv_phase s) eqn:Eph; [| |by destruct Hp|].
  - intros Hs. destruct (Hw Eph) as (-> & -> & _). destruct (Hr Eph Hs) as (_ & _ & _ & _ & _ & Hx).
    rewrite <- (inv_connections s Hi). destruct (Hx (inv_running s Hi Eph)) as [|[|[_ ?]]]; auto.
  - assert (Hpos : 0 < active_sessions_ (sv_drain s)).
    { destruct (inv_drain s Hi) as [_ Hd]. unfold sv_phase in Eph. by rewrite Eph in Hd. }
    rewrite (inv_active s Hi) in Hpos. split_and!; [|by apply Ht|].
    { intros E. rewrite E, map_size_empty in Hpos. lia. }
    intros event s' Hen Hev Hstep. apply halted_reported. by apply (draining_step s event); [apply server_reachable_ok|..].
  - intros Hx. specialize (Hset Eph Hx). by rewrite (inv_callbacks s Hi), Hset.
Qed.

End Proofs.

(** ** A concrete server: one session is open when the drain begins *)

(** A session that ends when it is told to. *)
#[local] Instance sample_sessions : SessionInterface := {|
  Shared := bool;
  Session := bool;
  session_made := fun s => s = true;
  session_ok := fun live s => s = live;
  SessionWorld := unit;
  session_start := fun _ _ w s => (w, s, false, Ok tt);
  session_begin_drain := fun _ w s => (w, s, false);
  session_stop := fun _ w s => (w, false, true);
  session_handler := fun _ w s outcome => s = true /\ outcome = (w, false, true);
  session_left := fun _ => 0%nat;
  session_destroy := fun w _ => w;
  stop_upstream_pool := fun _ => true;
  upstream_pool_stopped := fun w => w |}.

#[local] Instance sample_laws : SessionLaws sample_sessions.
Proof.
  split; unfold closes_exactly; cbn; try done.
  - by intros _ w s outcome [_ ->] _.
  - by intros _ w s outcome [-> _].
Qed.

Definition sample_session : Session := true.
Definition sample_answers : SessionWorld := tt.
Definition sample_world : ServerWorld := mkServerWorld (Ok tt) (Ok tt) (Ok tt) (Ok tt).
Definition sample_server : Server := make_Server HealthCheck.sample_config (false : Shared) HealthCheck.sample_initial.
Definition sample_listening : Server :=
  default sample_server (server_step sample_server (sv_start_call sample_world listening (Ok tt))).
Definition sample_serving : Server :=
  default sample_server (server_step sample_listening (sv_accepted sample_world no_error (Ok sample_session) sample_answers)).
Definition sample_draining : Server :=
  default sample_server (server_step sample_serving (sv_begin_drain sample_world)).

Lemma sample_draining_reachable : server_reachable HealthCheck.sample_config sample_draining.
Proof.
  assert (H0 : server_reachable HealthCheck.sample_config sample_server) by (apply (server_make _ 0); by vm_compute).
  assert (H1 : server_reachable HealthCheck.sample_config sample_listening).
  { apply (server_next _ _ (sv_start_call sample_world listening (Ok tt)) _ H0); [by split|by vm_compute]. }
  assert (H2 : server_reachable HealthCheck.sample_config sample_serving).
  { apply (server_next _ _ (sv_accepted sample_world no_error (Ok sample_session) sample_answers) _ H1); [|by vm_compute].
    split; [by vm_compute|]. by intros session [= <-]. }
  apply (server_next _ _ (sv_begin_drain sample_world) _ H2); [done|by vm_compute].
Qed.

Lemma server_safe_witness :
  0 < max_connections HealthCheck.sample_config /\
  active_sessions_ (sv_drain sample_draining) = Z.of_nat (size (sv_sessions sample_draining)).
Proof.
  split; [done|]. apply (server_safe HealthCheck.sample_config); [by vm_compute|apply sample_draining_reachable].
Defined.

Lemma server_progress_witness :
  phase_ (sv_drain sample_draining) = draining /\ sv_sessions sample_draining <> ∅ /\
  cp_timer_wait (sv_completion sample_draining) = true.
Proof.
  destruct (server_progress HealthCheck.sample_config) with (s := sample_draining) as [_ H];
    [by vm_compute|apply sample_draining_reachable|].
  assert (E : phase_ (sv_drain sample_draining) = draining) by (by vm_compute).
  rewrite E in H. split; [done|]. by destruct H as (? & ? & _).
Defined.
