(* ===== verification/Handlers.v ===== *)
(** * Handlers: a state and an exception

    A handler of the program changes its object and may throw in the middle of it, keeping
    what it has changed.  [M S A] is such a computation over the state [S]; [wp] is its
    weakest precondition, with a postcondition for the normal return and one for the
    exception. *)

From S2P Require Import Prelude.

Definition M (S A : Type) : Type := S -> S * result A.

#[export] Instance M_ret S : MRet (M S) := fun A a s => (s, Ok a).
#[export] Instance M_bind S : MBind (M S) := fun A B f m s =>
  match m s with
  | (s', Ok a) => f a s'
  | (s', Throw e) => (s', Throw e)
  end.

Section Handlers.
Context {S : Type}.

Definition modify (f : S -> S) : M S unit := fun s => (f s, Ok tt).
Definition reads {A} (f : S -> A) : M S A := fun s => (s, Ok (f s)).
(** A call whose only effect on the model is its answer, or its exception. *)
Definition answer {A} (r : result A) : M S A := fun s => (s, r).
Definition raise {A} (e : exn) : M S A := answer (Throw e).
(** [try { body } catch (...) { handler }] *)
Definition try_catch (body handler : M S unit) : M S unit := fun s =>
  match body s with
  | (s', Ok _) => (s', Ok tt)
  | (s', Throw _) => handler s'
  end.
(** The state a [noexcept] handler leaves. *)
Definition run (m : M S unit) (s : S) : S := (m s).1.

Definition wp {A} (m : M S A) (Q : A -> S -> Prop) (E : S -> Prop) (s : S) : Prop :=
  match m s with
  | (s', Ok a) => Q a s'
  | (s', Throw _) => E s'
  end.

Lemma wp_ret {A} (a : A) Q E s : Q a s -> wp (mret a) Q E s.
Proof. done. Qed.

Lemma wp_bind {A B} (m : M S A) (f : A -> M S B) Q E s :
  wp m (fun a => wp (f a) Q E) E s -> wp (m ≫= f) Q E s.
Proof. unfold wp, mbind, M_bind. by destruct (m s) as [s' [a|e]]. Qed.

Lemma wp_modify f (Q : unit -> S -> Prop) E s : Q tt (f s) -> wp (modify f) Q E s.
Proof. done. Qed.

Lemma wp_reads {A} (f : S -> A) (Q : A -> S -> Prop) E s : Q (f s) s -> wp (reads f) Q E s.
Proof. done. Qed.

Lemma wp_answer {A} (r : result A) (Q : A -> S -> Prop) (E : S -> Prop) s :
  (forall a, r = Ok a -> Q a s) -> (forall e, r = Throw e -> E s) -> wp (answer r) Q E s.
Proof. unfold wp, answer. destruct r; eauto. Qed.

Lemma wp_raise {A} e (Q : A -> S -> Prop) (E : S -> Prop) s : E s -> wp (raise e) Q E s.
Proof. done. Qed.

Lemma wp_mono {A} (m : M S A) (Q Q' : A -> S -> Prop) (E E' : S -> Prop) s :
  wp m Q E s -> (forall a s', Q a s' -> Q' a s') -> (forall s', E s' -> E' s') -> wp m Q' E' s.
Proof. unfold wp. destruct (m s) as [s' [a|e]]; auto. Qed.

Lemma wp_try body handler (Q : unit -> S -> Prop) E s :
  wp body (fun _ => Q tt) (wp handler Q E) s -> wp (try_catch body handler) Q E s.
Proof. unfold wp, try_catch. by destruct (body s) as [s' [a|e]]. Qed.

Lemma wp_if {A} (b : bool) (m n : M S A) Q E s :
  (b = true -> wp m Q E s) -> (b = false -> wp n Q E s) -> wp (if b then m else n) Q E s.
Proof. destruct b; auto. Qed.

Lemma wp_if_negb {A} (b : bool) (m n : M S A) Q E s :
  (b = true -> wp n Q E s) -> (b = false -> wp m Q E s) -> wp (if negb b then m else n) Q E s.
Proof. destruct b; auto. Qed.

Lemma run_wp (m : M S unit) (Q : S -> Prop) s : wp m (fun _ => Q) Q s -> Q (run m s).
Proof. unfold wp, run. by destruct (m s) as [s' [a|e]]. Qed.

End Handlers.

(** One step of a handler: the state on which it goes on is the goal's. *)
Ltac wp_step :=
  match goal with
  | |- wp (_ ≫= _) _ _ _ => apply wp_bind
  | |- wp (mret _) _ _ _ => apply wp_ret
  | |- wp (modify _) _ _ _ => apply wp_modify
  | |- wp (reads _) _ _ _ => apply wp_reads
  | |- wp (raise _) _ _ _ => apply wp_raise
  | |- wp (try_catch _ _) _ _ _ => apply wp_try
  | |- wp (if negb _ then _ else _) _ _ _ => apply wp_if_negb; intros ?
  | |- wp (if _ then _ else _) _ _ _ => apply wp_if; intros ?
  | |- wp (answer _) _ _ _ => apply wp_answer; intros ? ?
  end.

(** ** Kept properties

    [keeps P m]: [m] keeps [P], also when it throws. *)

Section Keeping.
Context {S : Type}.
Variable P : S -> Prop.

Definition keeps {A} (m : M S A) : Prop := forall s, P s -> wp m (fun _ => P) P s.

Lemma keeps_ret {A} (a : A) : keeps (mret a).
Proof. intros s H. exact H. Qed.
Lemma keeps_bind {A C} (m : M S A) (f : A -> M S C) : keeps m -> (forall a, keeps (f a)) -> keeps (m ≫= f).
Proof. intros Hm Hf s H. apply wp_bind. eapply wp_mono; [by apply Hm| |done]. intros a s' H'. by apply Hf. Qed.
Lemma keeps_modify f : (forall s, P s -> P (f s)) -> keeps (modify f).
Proof. intros Hf s H. by apply wp_modify, Hf. Qed.
Lemma keeps_reads {A} (f : S -> A) : keeps (reads f).
Proof. intros s H. exact H. Qed.
Lemma keeps_answer {A} (r : result A) : keeps (answer r).
Proof. intros s H. by apply wp_answer. Qed.
Lemma keeps_raise {A} e : keeps (raise (A := A) e).
Proof. intros s H. exact H. Qed.
Lemma keeps_try (m h : M S unit) : keeps m -> keeps h -> keeps (try_catch m h).
Proof. intros Hm Hh s H. apply wp_try. eapply wp_mono; [by apply Hm|done|]. intros s' H'. by apply Hh. Qed.
Lemma keeps_if {A} (b : bool) (m n : M S A) : keeps m -> keeps n -> keeps (if b then m else n).
Proof. by destruct b. Qed.

Lemma wp_keeps {A} (m : M S A) s : P s -> keeps m -> wp m (fun _ => P) P s.
Proof. intros H Hm. by apply Hm. Qed.

Lemma run_keeps (m : M S unit) s : keeps m -> P s -> P (run m s).
Proof. intros Hm H. by apply run_wp, Hm. Qed.

End Keeping.

(** Walks through a handler; what is left are the calls with lemmas of their own. *)
Ltac keep_step :=
  match goal with
  | |- keeps _ (mret _) => apply keeps_ret
  | |- keeps _ (_ ≫= _) => apply keeps_bind; [|intros ?]
  | |- keeps _ (modify _) => apply keeps_modify; intros ? ?; assumption
  | |- keeps _ (reads _) => apply keeps_reads
  | |- keeps _ (answer _) => apply keeps_answer
  | |- keeps _ (raise _) => apply keeps_raise
  | |- keeps _ (try_catch _ _) => apply keeps_try
  | |- keeps _ (if _ then _ else _) => apply keeps_if
  end.

(** Evaluates a handler. *)
Ltac eval_handler := cbv [mbind M_bind mret M_ret modify reads answer raise run]; cbn.
