(* ===== verification/Exchange.v ===== *)
(** * One proxied exchange (src/http_proxy.cpp, [HttpProxyExchange::Impl];
      src/http_proxy.hpp)

    An exchange sends one request upstream and delivers one response, whole or in
    blocks.  It is a chain of asynchronous operations, each under a deadline; a handler
    that throws ends it.  The state is the members of the object with what it shares (the
    pool, the budget); what it tells the session is logged.  The answers of the
    network, the parser and the allocator are arguments. *)

From S2P Require Import Prelude Text ConfigTypes Errors Http BufferBudget UpstreamPool Metrics.
From S2P Require Import HttpHandler ProxyMessage Handlers.

Local Open Scope Z_scope.

Definition max_upstream_body_bytes : Z := 1024 * 1024.
Definition max_stream_block : Z := 16384.

(** ** Results *)

Record ProxyFailure := mkProxyFailure {
  pf_stage : ProxyFailureStage;
  pf_error : error_code }.

(** The asynchronous operations; the last is the session writing what it was given, which
    calls [resume] when it has. *)
Inductive ExOp :=
  | xo_resolve | xo_connect | xo_handshake | xo_write | xo_read_header | xo_read_body | xo_read_block
  | xo_resume (final : bool).

#[export] Instance ExOp_eq_dec : EqDecision ExOp.
Proof. solve_decision. Defined.

(** Removes the first occurrence. *)
Fixpoint remove_one {A} `{EqDecision A} (x : A) (l : list A) : list A :=
  match l with
  | [] => []
  | y :: rest => if decide (x = y) then rest else y :: remove_one x rest
  end.

Section Exchange.
Context {B : BeastHttp}.
Variable dump : Json -> text.

Record ProxyResult := mkProxyResult {
  pr_response : HttpResponse;
  pr_failure : option ProxyFailure;
  pr_rejected : option Z;              (* [buffer_budget_rejected_bytes] *)
  pr_permit : BufferBudgetPermit }.

(** The callbacks the exchange makes. *)
Inductive ExOutput :=
  | out_complete (r : ProxyResult)
  | out_abort
  | out_header (header : HttpResponse) (final : bool)
  | out_body (bytes : Z) (final : bool)
  | out_finish (failure : option ProxyFailure) (downstream_failed : bool).

(** What the response parser has read so far. *)
Record Parsed := mkParsed {
  ps_message : HttpResponse;
  ps_content_length : option Z;
  ps_done : bool;
  ps_need_eof : bool;
  ps_buffered : Z }.                   (* [buffer_.size()] *)

(** ** State *)

Record ExConfig := mkExConfig {
  xc_upstream : UpstreamConfig;        (* [config_] *)
  xc_context : TlsHandle;
  xc_request : HttpRequest;            (* [downstream_request_] *)
  xc_upstream_request : HttpRequest;
  xc_budget : nat;
  xc_streams : bool;                   (* [stream_parser_ != nullptr] *)
  xc_reused : bool }.

Record ExIo := mkExIo {
  io_connection : option UpstreamConnection;
  io_closed : bool;                    (* the connection's socket has been closed *)
  io_generation : Z;
  io_waits : list Z;                   (* the waits on the deadline whose handler has not run *)
  io_pending : list ExOp;
  io_parsed : option Parsed;
  io_permit : BufferBudgetPermit;      (* [response_body_permit_] *)
  io_block : Z * BufferBudgetPermit;   (* [stream_block_] *)
  io_stream_started : bool }.

Record ExCompletion := mkExCompletion {
  co_claimed : bool;                   (* [completion_state_] *)
  co_observed : bool;                  (* [completion_observed_] *)
  co_on_complete : bool;               (* the callbacks that are not empty *)
  co_on_abort : bool;
  co_finish : bool }.

Record ExShared := mkExShared {
  xs_pool : option UpstreamPool;
  xs_heap : list BufferBudgetControl;
  xs_log : list ExOutput }.

Record Exchange := mkExchange {
  ex_config : ExConfig;
  ex_io : ExIo;
  ex_completion : ExCompletion;
  ex_shared : ExShared }.

Definition set_io (io : ExIo) (s : Exchange) : Exchange :=
  mkExchange (ex_config s) io (ex_completion s) (ex_shared s).
Definition set_co (c : ExCompletion) (s : Exchange) : Exchange :=
  mkExchange (ex_config s) (ex_io s) c (ex_shared s).
Definition set_shared (w : ExShared) (s : Exchange) : Exchange :=
  mkExchange (ex_config s) (ex_io s) (ex_completion s) w.

Definition set_connection (c : option UpstreamConnection) (closed : bool) (s : Exchange) : Exchange :=
  let io := ex_io s in
  set_io (mkExIo c closed (io_generation io) (io_waits io) (io_pending io) (io_parsed io) (io_permit io)
            (io_block io) (io_stream_started io)) s.
Definition set_waits (generation : Z) (waits : list Z) (s : Exchange) : Exchange :=
  let io := ex_io s in
  set_io (mkExIo (io_connection io) (io_closed io) generation waits (io_pending io) (io_parsed io)
            (io_permit io) (io_block io) (io_stream_started io)) s.
Definition set_pending (ops : list ExOp) (s : Exchange) : Exchange :=
  let io := ex_io s in
  set_io (mkExIo (io_connection io) (io_closed io) (io_generation io) (io_waits io) ops (io_parsed io)
            (io_permit io) (io_block io) (io_stream_started io)) s.
Definition set_parsed (p : Parsed) (s : Exchange) : Exchange :=
  let io := ex_io s in
  set_io (mkExIo (io_connection io) (io_closed io) (io_generation io) (io_waits io) (io_pending io) (Some p)
            (io_permit io) (io_block io) (io_stream_started io)) s.
Definition set_permit (p : BufferBudgetPermit) (s : Exchange) : Exchange :=
  let io := ex_io s in
  set_io (mkExIo (io_connection io) (io_closed io) (io_generation io) (io_waits io) (io_pending io)
            (io_parsed io) p (io_block io) (io_stream_started io)) s.
Definition set_block (b : Z * BufferBudgetPermit) (s : Exchange) : Exchange :=
  let io := ex_io s in
  set_io (mkExIo (io_connection io) (io_closed io) (io_generation io) (io_waits io) (io_pending io)
            (io_parsed io) (io_permit io) b (io_stream_started io)) s.
Definition set_stream_started (s : Exchange) : Exchange :=
  let io := ex_io s in
  set_io (mkExIo (io_connection io) (io_closed io) (io_generation io) (io_waits io) (io_pending io)
            (io_parsed io) (io_permit io) (io_block io) true) s.

Definition set_claimed (s : Exchange) : Exchange :=
  let c := ex_completion s in
  set_co (mkExCompletion true (co_observed c) (co_on_complete c) (co_on_abort c) (co_finish c)) s.
Definition set_observed (s : Exchange) : Exchange :=
  let c := ex_completion s in
  set_co (mkExCompletion (co_claimed c) true (co_on_complete c) (co_on_abort c) (co_finish c)) s.
Definition clear_on_complete (s : Exchange) : Exchange :=
  let c := ex_completion s in
  set_co (mkExCompletion (co_claimed c) (co_observed c) false (co_on_abort c) (co_finish c)) s.
Definition clear_on_abort (s : Exchange) : Exchange :=
  let c := ex_completion s in
  set_co (mkExCompletion (co_claimed c) (co_observed c) (co_on_complete c) false (co_finish c)) s.
Definition clear_finish (s : Exchange) : Exchange :=
  let c := ex_completion s in
  set_co (mkExCompletion (co_claimed c) (co_observed c) (co_on_complete c) (co_on_abort c) false) s.

Definition set_pool (p : option UpstreamPool) (s : Exchange) : Exchange :=
  let w := ex_shared s in set_shared (mkExShared p (xs_heap w) (xs_log w)) s.
Definition set_heap (h : list BufferBudgetControl) (s : Exchange) : Exchange :=
  let w := ex_shared s in set_shared (mkExShared (xs_pool w) h (xs_log w)) s.
Definition emit (o : ExOutput) (s : Exchange) : Exchange :=
  let w := ex_shared s in set_shared (mkExShared (xs_pool w) (xs_heap w) (xs_log w ++ [o])) s.

Definition Handler := M Exchange unit.

(** What the world answers during one handler: whether starting an operation, arming the
    deadline, building a message or a streaming callback throws; the identity check of
    OpenSSL; the state of the sockets; whether arming the pool's timer throws; the time. *)
Record ExWorld := mkExWorld {
  xw_begin : ExOp -> result unit;
  xw_deadline : result unit;
  xw_build : result unit;
  xw_callback : result unit;
  xw_identity : bool;
  xw_sockets : Sockets;
  xw_arm_fails : bool;
  xw_now : Z }.

(** ** Completion *)

(** [ProxyCompletionState::claim] *)
Definition claim : M Exchange bool :=
  claimed ← reads (fun s => co_claimed (ex_completion s));
  if claimed : bool then mret false else modify set_claimed;; mret true.

Definition run_proxy_handler_action (handler cleanup abort : Handler) : Handler :=
  try_catch handler
    (claimed ← claim;
     if negb claimed then mret tt else cleanup;; abort).

Definition run_proxy_completion_action (complete abort : Handler) : Handler :=
  claimed ← claim;
  if negb claimed then mret tt else try_catch complete abort.

Definition notify_abort : Handler :=
  modify clear_on_complete;;
  callback ← reads (fun s => co_on_abort (ex_completion s));
  modify clear_on_abort;;
  if negb callback then mret tt else modify (emit out_abort).

Definition close_upstream : Handler :=
  connection ← reads (fun s => io_connection (ex_io s));
  match connection with
  | Some c => modify (set_connection (Some c) true)
  | None => mret tt
  end.

(** Cancelled operations and waits complete later, and find the completion observed. *)
Definition cancel_operations : Handler := modify set_observed;; close_upstream.

Definition ex_cancel : Handler :=
  claimed ← claim;
  if negb claimed then mret tt
  else modify clear_on_complete;; modify clear_on_abort;; cancel_operations.

Definition run_handler (handler : Handler) : Handler :=
  run_proxy_handler_action handler cancel_operations notify_abort.

(** The permit of a result that no callback took. *)
Definition drop_result (r : ProxyResult) : Handler := modify (fun s =>
  set_heap (BufferBudget.release (xs_heap (ex_shared s)) (pr_permit r)).1 s).

Definition complete (r : ProxyResult) : Handler :=
  taken ← reads (fun s => negb (co_claimed (ex_completion s)) && co_on_complete (ex_completion s));
  run_proxy_completion_action
    (modify set_observed;;
     callback ← reads (fun s => co_on_complete (ex_completion s));
     modify clear_on_complete;;
     if negb callback then notify_abort
     else modify (emit (out_complete r));; modify clear_on_abort)
    (modify set_observed;; notify_abort);;
  if taken : bool then mret tt else drop_result r.

(** Calling the empty [finish] throws. *)
Definition complete_stream (failure : option ProxyFailure) (downstream_failed : bool) : Handler :=
  run_proxy_completion_action
    (modify set_observed;;
     modify clear_on_complete;;
     finish ← reads (fun s => co_finish (ex_completion s));
     modify clear_finish;;
     if negb finish then raise (other_exception "bad_function_call")
     else modify (emit (out_finish failure downstream_failed));; modify clear_on_abort)
    notify_abort.

(** ** Deadlines *)

Definition begin_deadline (w : ExWorld) : Handler :=
  modify (fun s => set_waits (u64 (io_generation (ex_io s) + 1)) (io_waits (ex_io s)) s);;
  answer (xw_deadline w);;
  modify (fun s => set_waits (io_generation (ex_io s)) (io_generation (ex_io s) :: io_waits (ex_io s)) s).

Definition finish_deadline : Handler :=
  modify (fun s => set_waits (u64 (io_generation (ex_io s) + 1)) (io_waits (ex_io s)) s).

Definition begin_op (w : ExWorld) (op : ExOp) : Handler :=
  answer (xw_begin w op);;
  modify (fun s => set_pending (op :: io_pending (ex_io s)) s).

Definition completion_claimed : M Exchange bool := reads (fun s => co_observed (ex_completion s)).

(** The guard at the start of a handler. *)
Definition unless_claimed (handler : Handler) : Handler :=
  claimed ← completion_claimed;
  if claimed : bool then mret tt else handler.

(** ** Failing *)

Definition fail (w : ExWorld) (stage : ProxyFailureStage) (e : error_code) : Handler :=
  unless_claimed
    (finish_deadline;;
     cancel_operations;;
     started ← reads (fun s => io_stream_started (ex_io s));
     if started : bool then complete_stream (Some (mkProxyFailure stage e)) false
     else
       let failure := if bool_decide (stage = timeout) then gateway_timeout else bad_gateway in
       answer (xw_build w);;
       request ← reads (fun s => xc_request (ex_config s));
       complete (mkProxyResult (make_gateway_error_response dump request failure)
                   (Some (mkProxyFailure stage e)) None empty_BudgetPermit)).

Definition reject_buffer_budget (w : ExWorld) (requested_bytes : Z) : Handler :=
  cancel_operations;;
  answer (xw_build w);;
  request ← reads (fun s => xc_request (ex_config s));
  complete (mkProxyResult (make_gateway_error_response dump request buffer_capacity_exhausted)
              None (Some requested_bytes) empty_BudgetPermit).

(** The stage of an error of a read. *)
Definition read_stage (e : error_code) : ProxyFailureStage :=
  if error_is e body_limit then response_too_large else read.

(** ** Giving the connection back *)

(** [pool_->put(std::move(connection_))] *)
Definition put_connection (w : ExWorld) : Handler :=
  modify (fun s =>
    match xs_pool (ex_shared s) with
    | Some pool =>
        let '(_, pool) := put (xw_sockets w) (xw_arm_fails w) pool (io_connection (ex_io s)) (xw_now w) in
        set_connection None (io_closed (ex_io s)) (set_pool (Some pool) s)
    | None => s
    end).

Definition give_back (w : ExWorld) (reuse : bool) : Handler :=
  if reuse then put_connection w else close_upstream.

Definition connection_clean (w : ExWorld) (s : Exchange) : bool :=
  match io_connection (ex_io s) with Some c => clean (xw_sockets w) c | None => false end.

Definition has_upgrade_token (message : HttpResponse) : bool :=
  bool_decide (L "upgrade" ∈ connection_tokens (rs_fields message)).

(** [pool_ && parser.is_done() && !parser.need_eof() && ...], in both forms. *)
Definition reusable (w : ExWorld) (p : Parsed) (s : Exchange) : bool :=
  let original := ps_message p in
  bool_decide (is_Some (xs_pool (ex_shared s))) && ps_done p && negb (ps_need_eof p) &&
  response_keep_alive original && (200 <=? rs_status original) &&
  negb (has_field (L "Upgrade") (rs_fields original)) && negb (has_upgrade_token original) &&
  (ps_buffered p =? 0) && connection_clean w s.

Definition stream_reusable (w : ExWorld) (p : Parsed) (s : Exchange) : bool :=
  let original := ps_message p in
  bool_decide (is_Some (xs_pool (ex_shared s))) && ps_done p && negb (ps_need_eof p) &&
  response_keep_alive original && (ps_buffered p =? 0) && negb (has_upgrade_token original) &&
  connection_clean w s.

(** ** Whole responses *)

Definition finish_response (w : ExWorld) (p : Parsed) : Handler :=
  reuse ← reads (reusable w p);
  finish_deadline;;
  give_back w reuse;;
  answer (xw_build w);;
  request ← reads (fun s => xc_request (ex_config s));
  permit ← reads (fun s => io_permit (ex_io s));
  modify (set_permit empty_BudgetPermit);;
  complete (mkProxyResult (make_downstream_response request (ps_message p)) None None permit).

(** [buffer_budget_->try_acquire(bytes)] *)
Definition acquire (bytes : Z) : M Exchange (option BufferBudgetPermit) := fun s =>
  let '(heap, permit) := budget_try_acquire (xs_heap (ex_shared s)) (xc_budget (ex_config s)) bytes in
  (set_heap heap s, Ok permit).

(** Assigning a permit releases the one it replaces. *)
Definition assign_permit (p : BufferBudgetPermit) : Handler := modify (fun s =>
  set_permit p (set_heap (BufferBudget.release (xs_heap (ex_shared s)) (io_permit (ex_io s))).1 s)).
Definition assign_block (b : Z * BufferBudgetPermit) : Handler := modify (fun s =>
  set_block b (set_heap (BufferBudget.release (xs_heap (ex_shared s)) (io_block (ex_io s)).2).1 s)).

Definition shrink_response_permit (bytes : Z) : M Exchange bool := fun s =>
  let '(heap, permit, done) := shrink_to (xs_heap (ex_shared s)) (io_permit (ex_io s)) bytes in
  (set_permit permit (set_heap heap s), Ok done).

Definition on_read_body (w : ExWorld) (e : error_code) (p : Parsed) : Handler :=
  unless_claimed
    (finish_deadline;;
     if failed e then fail w (read_stage e) e
     else
       shrunk ← shrink_response_permit (Z.of_nat (length (rs_body (ps_message p))));
       if negb shrunk then fail w read no_error else finish_response w p).

(** ** Streamed responses *)

(** The header sent downstream for a streamed response. *)
Definition stream_header (request : HttpRequest) (p : Parsed) : HttpResponse :=
  let original := ps_message p in
  let header := make_downstream_header request original in
  if negb (ps_done p) then
    match ps_content_length p with
    | Some n => rs_content_length n header
    | None => if 11 <=? rs_version header then rs_chunked true header else rs_keep_alive false header
    end
  else if negb (rs_status original =? 204) && negb (rs_status original =? 304)
  then rs_content_length 0 header else header.

Definition read_stream_block (w : ExWorld) : Handler := begin_op w xo_read_block.

(** [std::min<std::uint64_t>(16384, available)] of the budget. *)
Definition block_bytes (s : Exchange) : Z :=
  match xs_heap (ex_shared s) !! xc_budget (ex_config s) with
  | Some k => Z.min max_stream_block (u64 (max_bytes k - current_bytes k))
  | None => 0
  end.

(** [streaming_.header(std::move(header), resume_stream(final))] and the same for a block. *)
Definition deliver (w : ExWorld) (o : ExOutput) (final : bool) : Handler :=
  modify (emit o);;
  modify (fun s => set_pending (xo_resume final :: io_pending (ex_io s)) s);;
  answer (xw_callback w).

Definition send_header (w : ExWorld) (p : Parsed) : Handler :=
  answer (xw_build w);;
  request ← reads (fun s => xc_request (ex_config s));
  modify set_stream_started;;
  deliver w (out_header (stream_header request p) (ps_done p)) (ps_done p).

Definition start_stream (w : ExWorld) (p : Parsed) : Handler :=
  let original := ps_message p in
  if (rs_status original <? 200) || has_field (L "Upgrade") (rs_fields original)
  then fail w invalid_response no_error
  else if match ps_content_length p with Some n => max_upstream_body_bytes <? n | None => false end
  then fail w response_too_large body_limit
  else
    assign_block (0, empty_BudgetPermit);;
    if ps_done p then send_header w p
    else
      bytes ← reads block_bytes;
      permit ← (if bytes =? 0 then mret None else acquire bytes);
      match permit with
      | None => reject_buffer_budget w 1
      | Some permit => assign_block (bytes, permit);; send_header w p
      end.

(** [remaining] is the room left in the block. *)
Definition on_read_block (w : ExWorld) (e : error_code) (remaining : Z) (p : Parsed) : Handler :=
  unless_claimed
    (if failed e && negb (error_is e need_buffer) then fail w (read_stage e) e
     else
       size ← reads (fun s => (io_block (ex_io s)).1);
       let bytes := u64 (size - remaining) in
       if (bytes =? 0) && negb (ps_done p) then read_stream_block w
       else deliver w (out_body bytes (ps_done p)) (ps_done p)).

Definition finish_stream (w : ExWorld) (p : Parsed) : Handler :=
  reuse ← reads (stream_reusable w p);
  finish_deadline;;
  give_back w reuse;;
  complete_stream None false.

(** [resume_stream(final)] *)
Definition on_resume (w : ExWorld) (final : bool) (e : error_code) : Handler :=
  unless_claimed
    (if failed e then cancel_operations;; complete_stream None true
     else if final then
       parsed ← reads (fun s => io_parsed (ex_io s));
       match parsed with
       | Some p => finish_stream w p
       | None => mret tt
       end
     else read_stream_block w).

(** ** The chain of operations *)

Definition connection_tls (s : Exchange) : bool :=
  match io_connection (ex_io s) with Some c => has_tls c | None => false end.

Definition write_request (w : ExWorld) : Handler := begin_deadline w;; begin_op w xo_write.

Definition ex_start (w : ExWorld) : Handler :=
  reused ← reads (fun s => xc_reused (ex_config s));
  if reused : bool then write_request w
  else begin_deadline w;; begin_op w xo_resolve.

Definition on_resolve (w : ExWorld) (e : error_code) : Handler :=
  unless_claimed
    (finish_deadline;;
     if failed e then fail w resolve e
     else begin_deadline w;; begin_op w xo_connect).

Definition on_connect (w : ExWorld) (e : error_code) : Handler :=
  unless_claimed
    (finish_deadline;;
     if failed e then fail w connect e
     else
       tls ← reads connection_tls;
       if tls : bool then
         if negb (xw_identity w) then fail w handshake asio_invalid_argument
         else begin_deadline w;; begin_op w xo_handshake
       else write_request w).

Definition on_handshake (w : ExWorld) (e : error_code) : Handler :=
  unless_claimed
    (finish_deadline;;
     if failed e then fail w handshake e else write_request w).

Definition on_write (w : ExWorld) (e : error_code) : Handler :=
  unless_claimed
    (finish_deadline;;
     if failed e then fail w write e
     else begin_deadline w;; begin_op w xo_read_header).

(** The body of a whole response is read into what is reserved for it. *)
Definition on_whole_header (w : ExWorld) (p : Parsed) : Handler :=
  if rs_status (ps_message p) <? 200 then finish_deadline;; fail w invalid_response no_error
  else
    let plan := plan_body_reservation (ps_content_length p) (ps_done p) max_upstream_body_bytes in
    match plan_kind plan with
    | too_large => finish_deadline;; fail w response_too_large body_limit
    | reserve_none => finish_deadline;; finish_response w p
    | reserve =>
        permit ← acquire (plan_bytes plan);
        match permit with
        | None => finish_deadline;; reject_buffer_budget w (plan_bytes plan)
        | Some permit => assign_permit permit;; begin_op w xo_read_body
        end
    end.

Definition on_read_header (w : ExWorld) (e : error_code) (p : Parsed) : Handler :=
  unless_claimed
    (if failed e then finish_deadline;; fail w (read_stage e) e
     else
       streams ← reads (fun s => xc_streams (ex_config s));
       if streams : bool then start_stream w p else on_whole_header w p).

(** The handler of the wait armed as [generation]. *)
Definition on_deadline (w : ExWorld) (generation : Z) (e : error_code) : Handler :=
  current ← reads (fun s => io_generation (ex_io s));
  if negb (failed e) && (generation =? current) then fail w timeout timed_out else mret tt.

(** ** Construction *)

(** [pool] and [buffer_budget] may be null, the callbacks empty; [id] is the identity of a
    connection the constructor creates. *)
Definition make_exchange (w : ExWorld) (id : nat) (selected : SelectedUpstream) (request : HttpRequest)
    (context : TlsHandle) (buffer_budget : option nat) (on_complete on_abort streaming : bool)
    (pool : option UpstreamPool) (heap : list BufferBudgetControl) : option UpstreamPool * result Exchange :=
  let upstream := su_upstream selected in
  let upstream_request := make_upstream_request selected request (bool_decide (is_Some pool)) in
  match xw_build w with
  | Throw e => (pool, Throw e)
  | Ok _ =>
      match buffer_budget with
      | None => (pool, Throw (invalid_argument "buffer budget must not be empty"))
      | Some budget =>
          if negb on_complete then (pool, Throw (invalid_argument "proxy completion callback must not be empty"))
          else if negb on_abort then (pool, Throw (invalid_argument "proxy abort callback must not be empty"))
          else if su_stream_response selected && negb streaming
          then (pool, Throw (invalid_argument "streaming callbacks must not be empty"))
          else
            let '(lease, pool) :=
              match pool with
              | Some p => let '(lease, _, p) := take (xw_sockets w) p upstream context (xw_now w) in (lease, Some p)
              | None => (None, None)
              end in
            let made (connection : UpstreamConnection) (reused : bool) :=
              mkExchange
                (mkExConfig upstream context request upstream_request budget (su_stream_response selected) reused)
                (mkExIo (Some connection) false 0 [] [] None empty_BudgetPermit (0, empty_BudgetPermit) false)
                (mkExCompletion false false on_complete on_abort streaming)
                (mkExShared pool heap []) in
            match lease with
            | Some connection => (pool, Ok (made connection true))
            | None =>
                match make_UpstreamConnection id upstream context with
                | Ok connection => (pool, Ok (made connection false))
                | Throw e => (pool, Throw e)
                end
            end
      end
  end.

(** ** Events *)

Inductive ExEvent :=
  | xe_cancel
  | xe_resolve (e : error_code)
  | xe_connect (e : error_code)
  | xe_handshake (e : error_code)
  | xe_write (e : error_code)
  | xe_header (e : error_code) (p : Parsed)
  | xe_body (e : error_code) (p : Parsed)
  | xe_block (e : error_code) (remaining : Z) (p : Parsed)
  | xe_resume (final : bool) (e : error_code)
  | xe_deadline (generation : Z) (e : error_code).

Definition event_op (event : ExEvent) : option ExOp :=
  match event with
  | xe_cancel | xe_deadline _ _ => None
  | xe_resolve _ => Some xo_resolve
  | xe_connect _ => Some xo_connect
  | xe_handshake _ => Some xo_handshake
  | xe_write _ => Some xo_write
  | xe_header _ _ => Some xo_read_header
  | xe_body _ _ => Some xo_read_body
  | xe_block _ _ _ => Some xo_read_block
  | xe_resume final _ => Some (xo_resume final)
  end.

(** The parser is the exchange's: what an operation has parsed is there when its handler
    runs. *)
Definition event_parsed (event : ExEvent) : option Parsed :=
  match event with
  | xe_header _ p | xe_body _ p | xe_block _ _ p => Some p
  | _ => None
  end.

Definition event_handler (w : ExWorld) (event : ExEvent) : Handler :=
  match event with
  | xe_cancel => ex_cancel
  | xe_resolve e => run_handler (on_resolve w e)
  | xe_connect e => run_handler (on_connect w e)
  | xe_handshake e => run_handler (on_handshake w e)
  | xe_write e => run_handler (on_write w e)
  | xe_header e p => run_handler (on_read_header w e p)
  | xe_body e p => run_handler (on_read_body w e p)
  | xe_block e remaining p => run_handler (on_read_block w e remaining p)
  | xe_resume final e => run_handler (on_resume w final e)
  | xe_deadline generation e => run_handler (on_deadline w generation e)
  end.

(** The operation, or the wait, is no longer pending when its handler runs. *)
Definition arrive (event : ExEvent) (s : Exchange) : Exchange :=
  let s := match event_op event with
           | Some op => set_pending (remove_one op (io_pending (ex_io s))) s
           | None => s
           end in
  let s := match event_parsed event with Some p => set_parsed p s | None => s end in
  match event with
  | xe_deadline generation _ => set_waits (io_generation (ex_io s)) (remove_one generation (io_waits (ex_io s))) s
  | _ => s
  end.

Definition ex_step (w : ExWorld) (event : ExEvent) (s : Exchange) : Exchange :=
  run (event_handler w event) (arrive event s).

(** A parser that reads the header only has read no body; when it is done there is none. *)
Definition unread (p : Parsed) : Prop := ps_done p = true -> rs_body (ps_message p) = [].

(** What can happen next.  The wait for the current deadline succeeds unless it has been
    cancelled; a block is filled within its size; a length is a [uint64_t]; the status does not change while the
    body is read. *)
Definition ex_enabled (s : Exchange) (event : ExEvent) : Prop :=
  match event with
  | xe_cancel => True
  | xe_deadline generation e =>
      generation ∈ io_waits (ex_io s) /\
      (generation = io_generation (ex_io s) -> co_observed (ex_completion s) = false -> e = no_error)
  | xe_body _ p =>
      xo_read_body ∈ io_pending (ex_io s) /\
      forall q, io_parsed (ex_io s) = Some q -> rs_status (ps_message p) = rs_status (ps_message q)
  | xe_header _ p =>
      xo_read_header ∈ io_pending (ex_io s) /\ (forall n, ps_content_length p = Some n -> in_u64 n) /\ unread p
  | xe_block _ remaining _ => xo_read_block ∈ io_pending (ex_io s) /\ 0 <= remaining <= (io_block (ex_io s)).1
  | _ => exists op, event_op event = Some op /\ op ∈ io_pending (ex_io s)
  end.

(** The session starts the exchange, and cancels it when starting it throws. *)
Definition ex_started (w : ExWorld) (s : Exchange) : Exchange := run (try_catch (ex_start w) ex_cancel) s.

(** [cancelled] tells whether the session may have cancelled the exchange. *)
Inductive ex_reachable (budget : nat) (selected : SelectedUpstream) (request : HttpRequest) : bool -> Exchange -> Prop :=
  | ex_make w w' id context pool heap pool' s :
      make_exchange w id selected request context (Some budget) true true true pool heap = (pool', Ok s) ->
      ex_reachable budget selected request (negb (is_ok (ex_start w' s).2)) (ex_started w' s)
  | ex_next cancelled w event s :
      ex_reachable budget selected request cancelled s -> ex_enabled s event ->
      ex_reachable budget selected request
        (cancelled || match event with xe_cancel => true | _ => false end) (ex_step w event s).

End Exchange.

(** ** What an exchange tells its session

    The callbacks of an exchange form a word: nothing, or one whole response, or a header,
    blocks up to the final one and an end; an abort can end any of them.  Success is
    reported after the final block only. *)

Inductive LogPhase := lp_silent | lp_more | lp_final | lp_over.

Section Order.
Context {B : BeastHttp}.

Definition log_next (p : LogPhase) (o : ExOutput) : option LogPhase :=
  match p, o with
  | lp_silent, out_complete _ | lp_silent, out_abort => Some lp_over
  | lp_silent, out_header _ final => Some (if final then lp_final else lp_more)
  | lp_more, out_body _ final => Some (if final then lp_final else lp_more)
  | lp_more, out_finish None false => None
  | lp_more, out_finish _ _ | lp_more, out_abort => Some lp_over
  | lp_final, out_finish _ _ | lp_final, out_abort => Some lp_over
  | _, _ => None
  end.

Definition log_phase (log : list ExOutput) : option LogPhase :=
  foldl (fun p o => p ≫= fun p => log_next p o) (Some lp_silent) log.

Lemma log_phase_snoc log o : log_phase (log ++ [o]) = log_phase log ≫= fun p => log_next p o.
Proof. unfold log_phase. by rewrite foldl_app. Qed.

End Order.

(** ** The invariant *)

Section Proofs.
Context {B : BeastHttp}.
Variable dump : Json -> text.
Variable request : HttpRequest.

Implicit Types (s : Exchange) (w : ExWorld).

(** The response of a whole exchange is the one its outcome calls for, and exactly its body is
    reserved, which is at most 1 MiB. *)
Definition result_ok (r : ProxyResult) : Prop :=
  match pr_failure r, pr_rejected r with
  | Some f, None =>
      pr_response r = make_gateway_error_response dump request
                        (if bool_decide (pf_stage f = timeout) then gateway_timeout else bad_gateway) /\
      pr_permit r = empty_BudgetPermit
  | None, Some _ =>
      pr_response r = make_gateway_error_response dump request buffer_capacity_exhausted /\
      pr_permit r = empty_BudgetPermit
  | None, None =>
      (exists message, pr_response r = make_downstream_response request message /\ 200 <= rs_status message) /\
      reserved_bytes (pr_permit r) = Z.of_nat (length (rs_body (pr_response r))) /\
      reserved_bytes (pr_permit r) <= max_upstream_body_bytes
  | Some _, Some _ => False
  end.

Definition output_ok (o : ExOutput) : Prop :=
  match o with
  | out_complete r => result_ok r
  | out_header header final =>
      exists p, header = stream_header request p /\ final = ps_done p /\ 200 <= rs_status (ps_message p) /\
        has_field (L "Upgrade") (rs_fields (ps_message p)) = false /\
        forall n, ps_content_length p = Some n -> n <= max_upstream_body_bytes
  | out_body bytes _ => 0 <= bytes <= max_stream_block
  | out_abort | out_finish _ _ => True
  end.

Definition log_of (s : Exchange) : list ExOutput := xs_log (ex_shared s).

(** The connection is given back to the pool, or closed. *)
Definition released (s : Exchange) : Prop :=
  match io_connection (ex_io s) with Some _ => io_closed (ex_io s) = true | None => True end.

Definition held (s : Exchange) : Prop :=
  match io_connection (ex_io s) with Some _ => io_closed (ex_io s) = false | None => False end.

(** Nobody has claimed the completion. *)
Definition open (s : Exchange) : Prop :=
  let c := ex_completion s in
  xc_request (ex_config s) = request /\ Forall output_ok (log_of s) /\
  co_claimed c = false /\ co_on_complete c = true /\ co_on_abort c = true /\ co_finish c = true /\
  if io_stream_started (ex_io s)
  then log_phase (log_of s) = Some lp_more \/ log_phase (log_of s) = Some lp_final
  else log_phase (log_of s) = Some lp_silent.

Definition ended (cancelled : bool) (s : Exchange) : Prop :=
  let c := ex_completion s in
  xc_request (ex_config s) = request /\ Forall output_ok (log_of s) /\
  co_claimed c = true /\ co_observed c = true /\ released s /\
  exists p, log_phase (log_of s) = Some p /\ (cancelled = false -> p = lp_over).

(** At most [n] deadlines have been begun or finished. *)
Definition ticks (n : Z) (s : Exchange) : Prop :=
  let io := ex_io s in
  0 <= io_generation io <= n /\ Forall (fun g => 0 <= g <= io_generation io) (io_waits io) /\ NoDup (io_waits io).

Definition live (n : Z) (s : Exchange) : Prop :=
  open s /\ co_observed (ex_completion s) = false /\ held s /\ ticks n s.

(** The block is the size reserved for it, and holds what was last told of it. *)
Definition fits_block (bytes : Z) (o : ExOutput) : Prop :=
  match o with out_body n _ => n <= bytes | _ => True end.
Definition block_ok (s : Exchange) : Prop :=
  let '(bytes, permit) := io_block (ex_io s) in
  0 <= bytes <= max_stream_block /\ reserved_bytes permit = bytes /\
  forall o, last (log_of s) = Some o -> fits_block bytes o.

Definition stage_ticks (op : ExOp) : Z :=
  match op with
  | xo_resolve => 1
  | xo_connect => 3
  | xo_handshake => 5
  | xo_write => 7
  | _ => 9
  end.

(** What holds while [op] is pending. *)
Definition fits (op : ExOp) (s : Exchange) : Prop :=
  let io := ex_io s in
  block_ok s /\
  match op with
  | xo_read_block | xo_resume false => log_phase (log_of s) = Some lp_more /\ is_Some (io_parsed io)
  | xo_resume true => log_phase (log_of s) = Some lp_final /\ is_Some (io_parsed io)
  | xo_read_body =>
      log_phase (log_of s) = Some lp_silent /\
      (exists p, io_parsed io = Some p /\ 200 <= rs_status (ps_message p)) /\
      reserved_bytes (io_permit io) <= max_upstream_body_bytes
  | _ => log_phase (log_of s) = Some lp_silent /\ io_permit io = empty_BudgetPermit
  end.

(** The handler of [op] runs. *)
Definition ready (op : ExOp) (s : Exchange) : Prop :=
  live (stage_ticks op) s /\ io_pending (ex_io s) = [] /\ fits op s /\
  io_generation (ex_io s) ∈ io_waits (ex_io s).

(** One operation is pending under a deadline. *)
Definition waiting (s : Exchange) : Prop :=
  exists op, live (stage_ticks op) s /\ io_pending (ex_io s) = [op] /\ fits op s /\
    io_generation (ex_io s) ∈ io_waits (ex_io s).

Lemma open_silent s : open s -> log_phase (log_of s) = Some lp_silent -> io_stream_started (ex_io s) = false.
Proof.
  intros (_ & _ & _ & _ & _ & _ & H) E. destruct (io_stream_started (ex_io s)); [|done].
  destruct H as [H|H]; congruence.
Qed.

Lemma silent_nil (log : list ExOutput) : log_phase log = Some lp_silent -> log = [].
Proof.
  destruct log as [|o log] using rev_ind; [done|]. rewrite log_phase_snoc. destruct (log_phase log) as [p|]; [|done].
  destruct p, o as [| | | |[] []]; cbn; try done; by destruct final.
Qed.

Lemma not_started_silent s : open s -> io_stream_started (ex_io s) = false -> log_phase (log_of s) = Some lp_silent.
Proof. intros (_ & _ & _ & _ & _ & _ & H) E. by rewrite E in H. Qed.

(** ** Completion *)

Lemma emit_log o s : log_of (emit o s) = log_of s ++ [o].
Proof. done. Qed.

Lemma ended_emit o s :
  xc_request (ex_config s) = request -> Forall output_ok (log_of s) -> output_ok o ->
  co_claimed (ex_completion s) = true -> co_observed (ex_completion s) = true -> released s ->
  log_phase (log_of s ++ [o]) = Some lp_over -> forall s',
  ex_config s' = ex_config s -> log_of s' = log_of s ++ [o] -> ex_io s' = ex_io s ->
  co_claimed (ex_completion s') = true -> co_observed (ex_completion s') = true -> ended false s'.
Proof.
  intros H1 H2 Ho H3 H4 H5 H6 s' E1 E2 E3 E4 E5. unfold ended, released. rewrite E1, E2, E3.
  split_and!; try done.
  - apply Forall_app. split; [done|]. by apply Forall_singleton.
  - by exists lp_over.
Qed.

Lemma wp_notify_abort (E : Exchange -> Prop) s :
  open s -> co_observed (ex_completion s) = true -> released s ->
  wp notify_abort (fun _ => ended false) E (set_claimed s).
Proof.
  intros (H1 & H2 & H3 & H4 & H5 & H6 & H7) Ho Hr. unfold notify_abort.
  repeat (wp_step; cbn in *; try congruence). eapply (ended_emit out_abort (set_claimed s)); try done.
  rewrite log_phase_snoc. change (log_of (set_claimed s)) with (log_of s).
  destruct (io_stream_started (ex_io s)); [destruct H7 as [-> | ->]|rewrite H7]; done.
Qed.

Lemma wp_complete (E : Exchange -> Prop) r s :
  open s -> log_phase (log_of s) = Some lp_silent -> released s -> result_ok r ->
  wp (complete r) (fun _ => ended false) E s.
Proof.
  intros (H1 & H2 & H3 & H4 & H5 & H6 & H7) Hlog Hr Hok. unfold complete, run_proxy_completion_action, claim.
  do 2 wp_step. rewrite H3, H4. cbn [negb andb].
  repeat (wp_step; cbn in *; try congruence). eapply (ended_emit (out_complete r) (set_claimed (set_observed s))); try done.
  rewrite log_phase_snoc. change (log_of _) with (log_of s). by rewrite Hlog.
Qed.

Lemma wp_complete_stream (E : Exchange -> Prop) failure downstream_failed s :
  open s -> io_stream_started (ex_io s) = true -> released s ->
  (failure = None -> downstream_failed = false -> log_phase (log_of s) = Some lp_final) ->
  wp (complete_stream failure downstream_failed) (fun _ => ended false) E s.
Proof.
  intros (H1 & H2 & H3 & H4 & H5 & H6 & H7) Hstr Hr Hfin. unfold complete_stream, run_proxy_completion_action, claim.
  repeat (wp_step; cbn in *; try congruence).
  eapply (ended_emit (out_finish failure downstream_failed) (set_claimed (set_observed s))); try done.
  rewrite log_phase_snoc. change (log_of _) with (log_of s). rewrite Hstr in H7.
  destruct H7 as [E1|E1]; rewrite E1; [|done]. cbn. destruct failure, downstream_failed; try done.
  rewrite Hfin in E1 by done. congruence.
Qed.

(** ** Failing *)

Lemma live_tick n s :
  live n s -> n < 100 ->
  live (n + 1) (set_waits (u64 (io_generation (ex_io s) + 1)) (io_waits (ex_io s)) s).
Proof.
  intros (Ho & Hob & Hh & Hg & Hw & Hnd) Hn. unfold live, ticks. cbn.
  rewrite u64_small by (unfold in_u64; lia). split_and!; try done; try lia.
  eapply Forall_impl; [exact Hw|]. cbn. lia.
Qed.

Lemma live_begin n s :
  live n s -> n < 100 ->
  let g := u64 (io_generation (ex_io s) + 1) in
  live (n + 1) (set_waits g (g :: io_waits (ex_io s)) s).
Proof.
  intros H Hn. destruct (live_tick n s H Hn) as (Ho & Hob & Hh & Hg & Hw & Hnd).
  destruct H as (_ & _ & _ & Hg0 & Hw0 & _). cbn in *.
  unfold live, ticks. cbn. rewrite u64_small in * by (unfold in_u64; lia). split_and!; try done; try lia.
  - constructor; [lia|done].
  - constructor; [|done]. intros Hin. rewrite Forall_forall in Hw0. specialize (Hw0 _ Hin). cbn in Hw0. lia.
Qed.

(** After [cancel_operations]. *)
Definition shut (s : Exchange) : Exchange := run cancel_operations s.

Lemma cancel_operations_eq s : cancel_operations s = (shut s, Ok tt).
Proof. unfold shut, cancel_operations, close_upstream. eval_handler. by destruct (io_connection (ex_io s)). Qed.

Lemma shut_frame s :
  ex_config (shut s) = ex_config s /\ ex_shared (shut s) = ex_shared s /\ released (shut s) /\
  io_stream_started (ex_io (shut s)) = io_stream_started (ex_io s) /\
  ex_completion (shut s) = ex_completion (set_observed s).
Proof.
  unfold shut, cancel_operations, close_upstream, released. eval_handler.
  destruct (io_connection (ex_io s)) eqn:E; cbn; by rewrite ?E.
Qed.

Lemma wp_shut Q E s : Q tt (shut s) -> wp cancel_operations Q E s.
Proof. unfold wp. by rewrite cancel_operations_eq. Qed.

Lemma open_shut s : open s -> open (shut s).
Proof.
  intros H. destruct (shut_frame s) as (E1 & E2 & _ & E3 & E4). unfold open, log_of. by rewrite E1, E2, E3, E4.
Qed.

Lemma log_shut s : log_of (shut s) = log_of s.
Proof. unfold log_of. destruct (shut_frame s) as (_ & -> & _). done. Qed.

Lemma wp_fail n w stage e s :
  live n s -> n < 100 -> wp (fail dump w stage e) (fun _ => ended false) open s.
Proof.
  intros H Hn. pose proof (live_tick n s H Hn) as (Ho & _). pose proof H as (_ & Hob & _).
  unfold fail, unless_claimed, completion_claimed, finish_deadline. repeat (wp_step; cbn in *; try congruence).
  apply wp_shut. set (s1 := set_waits _ _ s) in *. pose proof (open_shut s1 Ho) as Ho1.
  destruct (shut_frame s1) as (E1 & E2 & Hr & E3 & E4).
  repeat wp_step.
  - apply wp_complete_stream; done.
  - apply wp_complete; try done.
    + by apply not_started_silent.
    + cbn. split; [|done]. by destruct Ho1 as [-> _].
  - done.
Qed.

Lemma wp_reject n w bytes s :
  live n s -> log_phase (log_of s) = Some lp_silent ->
  wp (reject_buffer_budget dump w bytes) (fun _ => ended false) open s.
Proof.
  intros (Ho & _) Hlog. pose proof (open_shut s Ho) as Ho1. destruct (shut_frame s) as (E1 & E2 & Hr & _).
  unfold reject_buffer_budget. wp_step. apply wp_shut. repeat wp_step; [|done].
  apply wp_complete; try done; [by rewrite log_shut|]. cbn. split; [|done]. by destruct Ho1 as [-> _].
Qed.

(** ** Giving the connection back *)

Definition same_but_connection (s s' : Exchange) : Prop :=
  ex_config s' = ex_config s /\ ex_completion s' = ex_completion s /\ log_of s' = log_of s /\
  xs_heap (ex_shared s') = xs_heap (ex_shared s) /\ io_stream_started (ex_io s') = io_stream_started (ex_io s) /\
  io_permit (ex_io s') = io_permit (ex_io s) /\ released s'.

Lemma wp_release (reuse : bool) w s (E : Exchange -> Prop) :
  (reuse = true -> is_Some (xs_pool (ex_shared s))) ->
  wp (give_back w reuse) (fun _ => same_but_connection s) E s.
Proof.
  intros Hp. unfold give_back. destruct reuse.
  - destruct (Hp eq_refl) as [pool Ep]. unfold put_connection. wp_step. rewrite Ep.
    destruct (put _ _ _ _ _) as [dead pool']. by split_and!.
  - unfold close_upstream. repeat wp_step. destruct (io_connection (ex_io s)) eqn:Ec; wp_step; unfold same_but_connection, released; cbn;
      rewrite ?Ec; by split_and!.
Qed.

Lemma open_same s s' : open s -> same_but_connection s s' -> open s'.
Proof. intros H (E1 & E2 & E3 & _ & E4 & _). unfold open. by rewrite E1, E2, E3, E4. Qed.

Lemma reusable_pool w p s : reusable w p s = true -> is_Some (xs_pool (ex_shared s)).
Proof. unfold reusable. intros H. repeat (apply andb_true_iff in H as [H _]). by apply bool_decide_eq_true in H. Qed.
Lemma stream_reusable_pool w p s : stream_reusable w p s = true -> is_Some (xs_pool (ex_shared s)).
Proof. unfold stream_reusable. intros H. repeat (apply andb_true_iff in H as [H _]). by apply bool_decide_eq_true in H. Qed.

Lemma wp_finish_response w p s :
  open s -> log_phase (log_of s) = Some lp_silent -> 200 <= rs_status (ps_message p) ->
  reserved_bytes (io_permit (ex_io s)) = Z.of_nat (length (rs_body (ps_message p))) ->
  reserved_bytes (io_permit (ex_io s)) <= max_upstream_body_bytes ->
  wp (finish_response w p) (fun _ => ended false) open s.
Proof.
  intros Ho Hlog Hst Hper Hmax. unfold finish_response, finish_deadline. repeat wp_step.
  eapply wp_mono; [apply wp_release|..].
  - apply reusable_pool.
  - cbn. intros _ s' Hs. assert (Ho' : open s') by (by eapply open_same; [|exact Hs]).
    destruct Hs as (E1 & E2 & E3 & E4 & E5 & E6 & Hr). repeat wp_step; [|done].
    apply wp_complete; try done; [exact (eq_trans (f_equal log_phase E3) Hlog)|]. cbn. rewrite E6.
    split; [|done]. exists (ps_message p). by destruct Ho' as [-> _].
  - by intros s' Hs.
Qed.

Lemma wp_finish_stream w p s :
  open s -> io_stream_started (ex_io s) = true -> log_phase (log_of s) = Some lp_final ->
  wp (finish_stream w p) (fun _ => ended false) open s.
Proof.
  intros Ho Hstr Hlog. unfold finish_stream, finish_deadline. repeat wp_step.
  eapply wp_mono; [apply wp_release, stream_reusable_pool|..].
  - cbn. intros _ s' Hs. assert (Ho' : open s') by (by eapply open_same; [|exact Hs]).
    destruct Hs as (E1 & E2 & E3 & E4 & E5 & E6 & Hr).
    apply wp_complete_stream; try done; [by rewrite E5|]. intros _ _. by rewrite E3.
  - by intros s' Hs.
Qed.

(** ** Handlers *)

(** A handler leaves the exchange waiting, or over. *)
Definition settled (cancelled : bool) (s : Exchange) : Prop := waiting s \/ ended cancelled s.
Definition failing (cancelled : bool) (s : Exchange) : Prop := open s \/ ended cancelled s.

Lemma ended_any c s : ended false s -> ended c s.
Proof. intros (H1 & H2 & H3 & H4 & H5 & p & H6 & H7). split_and!; try done. exists p. split; [done|]. auto. Qed.

Lemma live_mono n m s : live n s -> n <= m -> live m s.
Proof. intros (H1 & H2 & H3 & H4 & H5) Hn. split_and!; try done. split; [lia|done]. Qed.

(** A handler that only ends the exchange, or throws before its end is claimed. *)
Lemma ends c (m : Handler) s :
  wp m (fun _ => ended false) open s -> wp m (fun _ => settled c) (failing c) s.
Proof. intros H. eapply wp_mono; [exact H|..]; [right; by apply ended_any|by left]. Qed.

Lemma run_handler_gen (Q : Exchange -> Prop) c (m : Handler) s :
  (forall s', ended c s' -> Q s') -> wp m (fun _ => Q) (failing c) s -> Q (run (run_handler m) s).
Proof.
  intros HQ H. apply run_wp. unfold run_handler, run_proxy_handler_action, claim. wp_step.
  eapply wp_mono; [exact H|done|]. intros s' [Ho|He].
  - repeat (wp_step; cbn in *); try by destruct Ho as (_ & _ & ? & _); congruence.
    apply wp_shut. destruct (shut_frame s') as (E1 & E2 & Hr & E3 & E4).
    assert (E : shut (set_claimed s') = set_claimed (shut s')).
    { unfold shut, cancel_operations, close_upstream. eval_handler. by destruct (io_connection (ex_io s')). }
    rewrite E. eapply wp_mono; [apply (wp_notify_abort Q)|..]; try done.
    + by apply open_shut.
    + by rewrite E4.
    + intros ? s'' Hs. by apply HQ, ended_any.
  - destruct He as (H1 & H2 & H3 & H4 & H5 & H6). repeat (wp_step; cbn in *); try congruence.
    apply HQ. by split_and!.
Qed.

Lemma run_handler_ok c (m : Handler) s :
  wp m (fun _ => settled c) (failing c) s -> settled c (run (run_handler m) s).
Proof. apply run_handler_gen. by right. Qed.

Lemma wp_unless n (m : Handler) Q E s : live n s -> wp m Q E s -> wp (unless_claimed m) Q E s.
Proof.
  intros (_ & Hob & _) H. unfold unless_claimed, completion_claimed. wp_step. wp_step.
  wp_step; [congruence|done].
Qed.

Lemma wp_ended c (m : Handler) s : ended c s -> wp (unless_claimed m) (fun _ => settled c) (failing c) s.
Proof.
  intros He. pose proof He as (_ & _ & _ & Hob & _). unfold unless_claimed, completion_claimed. repeat wp_step.
  - by right.
  - congruence.
Qed.

(** Moving on to the next operation, under a deadline of its own. *)
Lemma wp_begin c n w op s :
  live n s -> n + 1 <= stage_ticks op -> io_pending (ex_io s) = [] -> fits op s ->
  wp (begin_deadline w;; begin_op w op) (fun _ => settled c) (failing c) s.
Proof.
  intros H Hn Hp Hf. assert (Hlt : n < 100) by (destruct op; cbn in Hn; lia).
  pose proof (live_begin n s H Hlt) as Hl. unfold begin_deadline, begin_op. repeat wp_step.
  - left. exists op. split_and!; try done; [|by cbn; rewrite Hp|by left].
    eapply live_mono; [exact Hl|lia].
  - left. apply Hl.
  - left. apply H.
Qed.

(** The same operation goes on under the same deadline. *)
Lemma wp_continue c w op s :
  live (stage_ticks op) s -> io_pending (ex_io s) = [] -> fits op s ->
  io_generation (ex_io s) ∈ io_waits (ex_io s) ->
  wp (begin_op w op) (fun _ => settled c) (failing c) s.
Proof.
  intros H Hp Hf Hg. unfold begin_op. repeat wp_step.
  - left. exists op. split_and!; try done. cbn. by rewrite Hp.
  - left. apply H.
Qed.

Lemma wp_finish_deadline n (Q : unit -> Exchange -> Prop) E s :
  live n s -> n < 100 ->
  (live (n + 1) (set_waits (u64 (io_generation (ex_io s) + 1)) (io_waits (ex_io s)) s) ->
   Q tt (set_waits (u64 (io_generation (ex_io s) + 1)) (io_waits (ex_io s)) s)) ->
  wp finish_deadline Q E s.
Proof. intros H Hn HQ. apply wp_modify, HQ. by apply live_tick. Qed.

(** The chain up to the reading of the header. *)
Ltac chain n :=
  eapply wp_unless; [eassumption|]; apply wp_bind; apply (wp_finish_deadline n); [done|done|intros ?];
  apply wp_if; intros ?; [apply ends; apply (wp_fail (n + 1)); [assumption|done]|].

Lemma on_resolve_ok c w e s : ready xo_resolve s -> wp (on_resolve dump w e) (fun _ => settled c) (failing c) s.
Proof.
  intros (H & Hp & Hf & Hg). unfold on_resolve. cbn in H. chain 1. by apply (wp_begin c 2).
Qed.

Lemma on_connect_ok c w e s : ready xo_connect s -> wp (on_connect dump w e) (fun _ => settled c) (failing c) s.
Proof.
  intros (H & Hp & Hf & Hg). unfold on_connect. cbn in H. chain 3. wp_step. wp_step. wp_step; [wp_step|].
  - by apply (wp_begin c 4).
  - by apply ends, (wp_fail 4).
  - by apply (wp_begin c 4).
Qed.

Lemma on_handshake_ok c w e s : ready xo_handshake s -> wp (on_handshake dump w e) (fun _ => settled c) (failing c) s.
Proof.
  intros (H & Hp & Hf & Hg). unfold on_handshake. cbn in H. chain 5. by apply (wp_begin c 6).
Qed.

Lemma on_write_ok c w e s : ready xo_write s -> wp (on_write dump w e) (fun _ => settled c) (failing c) s.
Proof.
  intros (H & Hp & Hf & Hg). unfold on_write. cbn in H. chain 7. by apply (wp_begin c 8).
Qed.

(** ** Reading *)

Lemma wp_acquire bytes (Q : option BufferBudgetPermit -> Exchange -> Prop) E s :
  (forall heap, Q None (set_heap heap s)) ->
  (forall heap owner, Q (Some (mkBudgetPermit owner bytes)) (set_heap heap s)) ->
  wp (acquire bytes) Q E s.
Proof.
  intros HN HS. unfold wp, acquire, budget_try_acquire. destruct (_ !! _) as [k|]; [|apply HN].
  destruct (_ <? _); [apply HN|apply HS].
Qed.

Lemma wp_shrink bytes (Q : bool -> Exchange -> Prop) E s :
  (forall heap permit, Q false (set_permit permit (set_heap heap s))) ->
  (forall heap owner, bytes <= reserved_bytes (io_permit (ex_io s)) -> Q true (set_permit (mkBudgetPermit owner bytes) (set_heap heap s))) ->
  wp (shrink_response_permit bytes) Q E s.
Proof.
  intros HF HT. unfold wp, shrink_response_permit, shrink_to. repeat case_match; simplify_eq; try apply HF; apply HT.
  reflect_bools. done.
Qed.

Lemma block_bytes_range s : 0 <= block_bytes s <= max_stream_block.
Proof.
  unfold block_bytes, max_stream_block. destruct (_ !! _) as [k|]; [|lia].
  pose proof (u64_range (max_bytes k - current_bytes k)) as H. unfold in_u64 in H. lia.
Qed.

Lemma on_read_body_ok c w e p s :
  ready xo_read_body s -> io_parsed (ex_io s) = Some p -> wp (on_read_body dump w e p) (fun _ => settled c) (failing c) s.
Proof.
  intros (H & Hp & [Hb (Hlog & (q & Hq & Hst) & Hmax)] & Hg) Hpar. assert (q = p) as -> by congruence.
  unfold on_read_body. cbn in H. chain 9. wp_step. apply wp_shrink; intros; wp_step; try done.
  - by apply ends, (wp_fail 10).
  - apply ends, wp_finish_response; try done; [apply H0|]. cbn in *. lia.
Qed.

Lemma on_whole_header_ok c w p s :
  ready xo_read_header s -> io_parsed (ex_io s) = Some p -> unread p ->
  wp (on_whole_header dump w p) (fun _ => settled c) (failing c) s.
Proof.
  intros (H & Hp & [Hb [Hlog Hperm]] & Hg) Hpar Hun. cbn in H. unfold on_whole_header, assign_permit.
  wp_step.
  { wp_step. apply (wp_finish_deadline 9); [done|done|intros]. by apply ends, (wp_fail 10). }
  reflect_bools. destruct (plan_kind _) eqn:Ek.
  - wp_step. apply (wp_finish_deadline 9); [done|done|intros Hl]. apply ends, wp_finish_response; try done; [apply Hl|..].
    + cbn. rewrite Hperm. rewrite Hun; [done|]. unfold plan_body_reservation in Ek. destruct (ps_done p); [done|]. by repeat case_match.
    + cbn. by rewrite Hperm.
  - wp_step. apply wp_acquire; intros.
    + wp_step. apply (wp_finish_deadline 9); [done|done|intros]. by apply ends, (wp_reject 10).
    + wp_step. wp_step. apply (wp_continue c w xo_read_body); try done. split; [done|]. split; [done|]. split; [by exists p|].
      cbn. unfold plan_body_reservation in *. repeat case_match; cbn in *; reflect_bools; lia || done.
  - wp_step. apply (wp_finish_deadline 9); [done|done|intros]. by apply ends, (wp_fail 10).
Qed.

Lemma block_told o s : fits_block (io_block (ex_io s)).1 o -> block_ok s -> block_ok (emit o s).
Proof.
  unfold block_ok. cbn. destruct (io_block (ex_io s)) as [bytes permit]. intros Ho (H1 & H2 & _).
  split; [done|]. split; [done|]. intros o' E. change (last (log_of s ++ [o]) = Some o') in E. rewrite last_snoc in E. by injection E as <-.
Qed.

(** What is given to the session, which resumes the exchange when it has written it. *)
Lemma wp_deliver c w o (final : bool) s :
  xc_request (ex_config s) = request -> Forall output_ok (log_of s) -> output_ok o ->
  (log_phase (log_of s) ≫= fun p : LogPhase => log_next p o) = Some (if final then lp_final else lp_more) ->
  co_claimed (ex_completion s) = false -> co_observed (ex_completion s) = false ->
  co_on_complete (ex_completion s) = true -> co_on_abort (ex_completion s) = true -> co_finish (ex_completion s) = true ->
  io_stream_started (ex_io s) = true -> held s -> ticks 9 s -> io_pending (ex_io s) = [] -> block_ok (emit o s) ->
  is_Some (io_parsed (ex_io s)) -> io_generation (ex_io s) ∈ io_waits (ex_io s) ->
  wp (deliver w o final) (fun _ => settled c) (failing c) s.
Proof.
  intros H1 H2 Ho Hlog H3 H4 H5 H6 H7 Hs Hh Ht Hp Hb Hpar Hg. unfold deliver.
  set (s1 := set_pending (xo_resume final :: io_pending (ex_io (emit o s))) (emit o s)).
  assert (Hl1 : log_phase (log_of s1) = Some (if final then lp_final else lp_more)) by (rewrite <- Hlog; apply log_phase_snoc).
  assert (Hopen : open s1).
  { unfold open. split_and!; try done.
    - apply Forall_app. split; [done|by apply Forall_singleton].
    - change (io_stream_started (ex_io s1)) with (io_stream_started (ex_io s)). rewrite Hs, Hl1. destruct final; auto. }
  wp_step. wp_step. wp_step. wp_step. wp_step; fold s1.
  - left. exists (xo_resume final). split; [by split_and!|]. split; [cbn; by rewrite Hp|].
    split; [|done]. split; [done|]. by destruct final.
  - by left.
Qed.

Lemma send_header_ok c w p s :
  ready xo_read_header s -> io_parsed (ex_io s) = Some p -> 200 <= rs_status (ps_message p) ->
  has_field (L "Upgrade") (rs_fields (ps_message p)) = false ->
  (forall n, ps_content_length p = Some n -> n <= max_upstream_body_bytes) ->
  wp (send_header w p) (fun _ => settled c) (failing c) s.
Proof.
  intros (H & Hp & [Hb [Hlog Hperm]] & Hg) Hpar Hst Hup Hlen. cbn in H. unfold send_header.
  pose proof H as ((H1 & H2 & H3 & H4 & H5 & H6 & H7) & Hob & Hh & Ht).
  wp_step. wp_step; [|left; apply H]. wp_step. wp_step. wp_step. wp_step.
  apply wp_deliver; try done.
  - cbn. exists p. by rewrite H1.
  - change (log_of (set_stream_started s)) with (log_of s). by rewrite Hlog.
  - by apply block_told.
Qed.

Lemma block_assigned n p s :
  log_phase (log_of s) = Some lp_silent -> 0 <= n <= max_stream_block -> reserved_bytes p = n -> block_ok (set_block (n, p) s).
Proof.
  intros Hlog Hn Hp. split; [done|]. split; [done|]. intros o Ho. change (last (log_of s) = Some o) in Ho.
  by rewrite (silent_nil _ Hlog) in Ho.
Qed.

Lemma start_stream_ok c w p s :
  ready xo_read_header s -> io_parsed (ex_io s) = Some p -> wp (start_stream dump w p) (fun _ => settled c) (failing c) s.
Proof.
  intros (H & Hp & [Hb [Hlog Hperm]] & Hg) Hpar. cbn in H. unfold start_stream, assign_block.
  wp_step; [by apply ends, (wp_fail 9)|]. wp_step; [by apply ends, (wp_fail 9)|].
  reflect_bools.
  assert (Hlen : forall n, ps_content_length p = Some n -> n <= max_upstream_body_bytes).
  { intros n E. rewrite E in *. reflect_bools. lia. }
  wp_step. wp_step. wp_step.
  { apply send_header_ok; try done. split_and!; try done. split; [by apply block_assigned|done]. }
  wp_step. wp_step. wp_step. wp_step.
  - wp_step. by apply ends, (wp_reject 9).
  - apply wp_acquire; intros; [by apply ends, (wp_reject 9)|]. wp_step. wp_step.
    apply send_header_ok; try done. split_and!; try done. split; [|done].
    apply block_assigned; [done|apply block_bytes_range|done].
Qed.

Lemma on_read_header_ok c w e p s :
  ready xo_read_header s -> io_parsed (ex_io s) = Some p -> unread p ->
  wp (on_read_header dump w e p) (fun _ => settled c) (failing c) s.
Proof.
  intros Hr Hpar Hun. pose proof Hr as (H & Hp & Hf & Hg). cbn in H. unfold on_read_header.
  eapply wp_unless; [exact H|]. wp_step.
  { wp_step. apply (wp_finish_deadline 9); [done|done|intros]. by apply ends, (wp_fail 10). }
  wp_step. wp_step. wp_step; [by apply start_stream_ok|by apply on_whole_header_ok].
Qed.

Lemma on_read_block_ok c w e remaining p s :
  ready xo_read_block s -> io_parsed (ex_io s) = Some p -> 0 <= remaining <= (io_block (ex_io s)).1 ->
  wp (on_read_block dump w e remaining p) (fun _ => settled c) (failing c) s.
Proof.
  intros (H & Hp & [Hb [Hlog Hpa]] & Hg) Hpar Hrem. cbn in H. unfold on_read_block.
  eapply wp_unless; [exact H|]. wp_step; [by apply ends, (wp_fail 9)|]. wp_step. wp_step. wp_step.
  - by apply (wp_continue c w xo_read_block).
  - pose proof H as ((Hrq & Hall & Hcl & Hoc & Hoa & Hfi & Hstr) & Hob & Hh & Ht).
    apply wp_deliver; try done.
    + cbn. unfold block_ok in Hb. destruct (io_block (ex_io s)) as [bytes permit]. cbn in *.
      rewrite u64_small; unfold in_u64, max_stream_block in *; lia.
    + by rewrite Hlog.
    + destruct (io_stream_started (ex_io s)); [done|]. congruence.
    + apply block_told; [|done]. cbn. unfold block_ok in Hb. destruct (io_block (ex_io s)) as [bytes permit]. cbn in *.
      rewrite u64_small; unfold in_u64, max_stream_block in *; lia.
Qed.

Lemma on_resume_ok c w final e s :
  ready (xo_resume final) s -> wp (on_resume w final e) (fun _ => settled c) (failing c) s.
Proof.
  intros (H & Hp & [Hb Hf] & Hg). cbn in H. pose proof H as (Ho & Hob & Hh & Ht).
  assert (Hstr : io_stream_started (ex_io s) = true).
  { destruct Ho as (_ & _ & _ & _ & _ & _ & Ho). destruct (io_stream_started (ex_io s)); [done|].
    destruct final; destruct Hf as [Hf _]; congruence. }
  unfold on_resume. eapply wp_unless; [exact H|]. wp_step.
  { wp_step. apply wp_shut. destruct (shut_frame s) as (E1 & E2 & Hr & E3 & E4).
    apply ends. apply wp_complete_stream; try done; [by apply open_shut|by rewrite E3]. }
  wp_step.
  - destruct final; [|done]. destruct Hf as [Hlog [p Hpar]]. wp_step. wp_step. rewrite Hpar.
    by apply ends, wp_finish_stream.
  - destruct final; [done|]. by apply (wp_continue c w xo_read_block).
Qed.

(** ** Steps *)

Lemma ended_mono c c' s : ended c s -> (c = true -> c' = true) -> ended c' s.
Proof.
  intros (H1 & H2 & H3 & H4 & H5 & p & H6 & H7) Hc. split_and!; try done. exists p. split; [done|].
  intros ->. apply H7. by destruct c; [discriminate Hc|].
Qed.

Lemma cancel_ends s : open s -> ended true (run ex_cancel s).
Proof.
  intros (H1 & H2 & H3 & H4 & H5 & H6 & H7). apply run_wp. unfold ex_cancel, claim.
  repeat (wp_step; cbn in *; try congruence). apply wp_shut.
  destruct (shut_frame (clear_on_abort (clear_on_complete (set_claimed s)))) as (E1 & E2 & Hr & E3 & E4).
  unfold ended, log_of. rewrite E1, E2, E4. split_and!; try done.
  assert (Hlog : exists p, log_phase (log_of s) = Some p) by (destruct (io_stream_started (ex_io s)); [destruct H7|]; eauto).
  destruct Hlog as [p Hlog]. by exists p.
Qed.

Lemma cancel_ended c s : ended c s -> run ex_cancel s = s.
Proof. intros (_ & _ & H & _). unfold ex_cancel, claim. eval_handler. by rewrite H. Qed.

Lemma remove_one_self {A} `{EqDecision A} (x : A) : remove_one x [x] = [].
Proof. cbn. by rewrite decide_True. Qed.

Lemma remove_one_other {A} `{EqDecision A} (x y : A) l : x <> y -> x ∈ l -> x ∈ remove_one y l.
Proof.
  intros Hne. induction l as [|z l IH]; cbn; [done|]. intros Hx. apply elem_of_cons in Hx as [->|Hx].
  - rewrite decide_False by done. by left.
  - destruct (decide (y = z)); [done|]. right. by apply IH.
Qed.

Lemma remove_one_sub {A} `{EqDecision A} (x y : A) l : x ∈ remove_one y l -> x ∈ l.
Proof.
  induction l as [|z l IH]; cbn; [done|]. destruct (decide (y = z)); intros Hx; [by right|].
  apply elem_of_cons in Hx as [->|Hx]; [by left|right; by apply IH].
Qed.

Lemma remove_one_NoDup {A} `{EqDecision A} (y : A) l : NoDup l -> NoDup (remove_one y l).
Proof.
  induction 1 as [|z l Hz Hl IH]; cbn; [constructor|]. destruct (decide (y = z)); [done|].
  constructor; [|done]. intros Hin. by apply Hz, (remove_one_sub z y).
Qed.

Lemma arrive_ended c event s : ended c s -> ended c (arrive event s).
Proof. by destruct event. Qed.

Lemma arrive_parsed event s p : event_parsed event = Some p -> io_parsed (ex_io (arrive event s)) = Some p.
Proof. by destruct event; cbn; intros [= ->]. Qed.

(** The handler of a pending operation finds the exchange as it was when it began. *)
Lemma arrive_ready op event s :
  waiting s -> event_op event = Some op -> ex_enabled s event ->
  ready op (arrive event s) /\ (forall p, event_parsed event = Some p -> io_parsed (ex_io (arrive event s)) = Some p) /\
  io_block (ex_io (arrive event s)) = io_block (ex_io s).
Proof.
  intros (op' & Hl & Hp & [Hb Hf] & Hg) Eop Hen.
  assert (Hin : op ∈ io_pending (ex_io s)).
  { destruct event; cbn in Eop, Hen; simplify_eq; try (by destruct Hen as (x & [= <-] & ?)); by destruct Hen. }
  rewrite Hp in Hin. apply list_elem_of_singleton in Hin as ->.
  pose proof (arrive_parsed event s) as Hpar.
  split; [|split; [done|by destruct event]].
  assert (Hpend : io_pending (ex_io (arrive event s)) = []).
  { unfold arrive. rewrite Eop, Hp, remove_one_self. by destruct event. }
  destruct event; cbn in Eop; simplify_eq; split; try done; split; try done; split; try done; split; try done.
  - destruct Hf as (Hlog & (q & Hq & Hst) & Hmax). split; [done|]. split; [|done]. exists p. split; [by apply Hpar|].
    destruct Hen as [_ Hen]. by rewrite (Hen q Hq).
  - split; [apply Hf|by exists p].
Qed.

Lemma arrive_waits g e s n : live n s -> live n (arrive (xe_deadline g e) s).
Proof.
  intros (Ho & Hob & Hh & Hg & Hw & Hnd). split_and!; try done. split; [done|]. cbn. split.
  - apply Forall_forall. intros x Hx%remove_one_sub. rewrite Forall_forall in Hw. by apply Hw.
  - by apply remove_one_NoDup.
Qed.

Lemma on_deadline_ok c w g e s :
  waiting s -> ex_enabled s (xe_deadline g e) ->
  wp (on_deadline dump w g e) (fun _ => settled c) (failing c) (arrive (xe_deadline g e) s).
Proof.
  intros (op & Hl & Hp & Hf & Hg) [_ Hen]. pose proof (arrive_waits g e s _ Hl) as Hl'.
  unfold on_deadline. wp_step. wp_step. wp_step.
  - apply ends, (wp_fail (stage_ticks op)); [done|by destruct op].
  - wp_step. left. exists op. split_and!; try done. cbn. apply remove_one_other; [|done].
    intros E. assert (Ee : e = no_error) by (apply Hen; [done|apply Hl]). subst e g.
    match goal with H : _ = false |- _ => cbn in H; by rewrite Z.eqb_refl in H end.
Qed.

Lemma on_deadline_ended c w g e s :
  ended c s -> wp (on_deadline dump w g e) (fun _ => settled c) (failing c) s.
Proof. intros H. unfold on_deadline. repeat wp_step; [by apply wp_ended|by right]. Qed.

Lemma ex_step_ok c w event s :
  settled c s -> ex_enabled s event ->
  settled (c || match event with xe_cancel => true | _ => false end) (ex_step dump w event s).
Proof.
  intros [Hw|He] Hen; unfold ex_step.
  - destruct (event_op event) as [op|] eqn:Eop.
    + destruct (arrive_ready op event s Hw Eop Hen) as (Hr & Hpar & Hblk).
      destruct event; cbn in Eop; simplify_eq; rewrite orb_false_r; apply run_handler_ok.
      * by apply on_resolve_ok.
      * by apply on_connect_ok.
      * by apply on_handshake_ok.
      * by apply on_write_ok.
      * apply on_read_header_ok; [done|by apply Hpar|apply Hen].
      * apply on_read_body_ok; [done|by apply Hpar].
      * apply on_read_block_ok; [done|by apply Hpar|rewrite Hblk; apply Hen].
      * by apply on_resume_ok.
    + destruct event; cbn in Eop; try done.
      * right. rewrite orb_true_r. destruct Hw as (op & Hl & _). apply cancel_ends, Hl.
      * rewrite orb_false_r. apply run_handler_ok. by apply on_deadline_ok.
  - pose proof (arrive_ended c event s He) as Ha. set (s1 := arrive event s) in *. clearbody s1.
    destruct event; cbn [event_handler]; rewrite ?orb_false_r; try (apply run_handler_ok; by apply wp_ended).
    + right. rewrite (cancel_ended c) by done. by apply (ended_mono c); [|intros ->].
    + apply run_handler_ok. by apply on_deadline_ended.
Qed.

(** ** Beginning *)

Definition fresh (s : Exchange) : Prop :=
  live 0 s /\ io_pending (ex_io s) = [] /\ io_waits (ex_io s) = [] /\ block_ok s /\
  log_of s = [] /\ io_permit (ex_io s) = empty_BudgetPermit.

Lemma make_fresh w id selected context budget pool heap pool' s :
  make_exchange w id selected request context (Some budget) true true true pool heap = (pool', Ok s) -> fresh s.
Proof.
  unfold make_exchange. destruct (xw_build w); [|done]. cbn. rewrite andb_false_r.
  assert (Hf : forall config c p,
    xc_request config = request ->
    fresh (mkExchange config (mkExIo (Some c) false 0 [] [] None empty_BudgetPermit (0, empty_BudgetPermit) false)
             (mkExCompletion false false true true true) (mkExShared p heap []))).
  { intros config c p E. split_and!; try done. split_and!; try done. split; [cbn; lia|]. split; constructor. }
  destruct (match pool with Some p => _ | None => _ end) as [[c|] pool1].
  - intros [= <- <-]. by apply Hf.
  - destruct (make_UpstreamConnection _ _ _); [|done]. intros [= <- <-]. by apply Hf.
Qed.

Lemma ex_start_ok w s : fresh s -> wp (ex_start w) (fun _ => waiting) open s.
Proof.
  intros (Hl & Hp & Hw & Hb & Hlog & Hperm).
  assert (Hgo : forall op, 1 <= stage_ticks op -> fits op s ->
            wp (begin_deadline w;; begin_op w op) (fun _ => waiting) open s).
  { intros op Hn Hf. pose proof (live_begin 0 s Hl) as Hl1. unfold begin_deadline, begin_op.
    repeat wp_step; [|by apply Hl1|by apply Hl].
    exists op. split_and!; try done; [|by cbn; rewrite Hp|by left]. eapply live_mono; [by apply Hl1|lia]. }
  unfold ex_start. wp_step. wp_step. wp_step; apply Hgo; try done; split; [done|by rewrite Hlog|done|by rewrite Hlog].
Qed.

Lemma ex_started_ok w s : fresh s -> settled (negb (is_ok (ex_start w s).2)) (ex_started w s).
Proof.
  intros Hf. pose proof (ex_start_ok w s Hf) as H. unfold ex_started, run, try_catch. unfold wp in H.
  destruct (ex_start w s) as [s' [u|e]]; cbn; [by left|]. right. by apply cancel_ends.
Qed.

End Proofs.

Section Properties.
Context {B : BeastHttp}.
Variable dump : Json -> text.

Lemma ex_reachable_ok budget selected request c s :
  ex_reachable dump budget selected request c s -> settled dump request c s.
Proof.
  induction 1 as [w w' id context pool heap pool' s Hm|c w event s _ IH Hen].
  - apply ex_started_ok. by eapply make_fresh.
  - by apply ex_step_ok.
Qed.

Lemma ended_told request c w event s :
  ended dump request c s -> log_of (ex_step dump w event s) = log_of s.
Proof.
  intros He. pose proof (arrive_ended dump request c event s He) as Ha.
  assert (Hl : log_of (arrive event s) = log_of s) by (by destruct event).
  unfold ex_step. rewrite <- Hl. set (s1 := arrive event s) in *. clearbody s1. clear Hl He s.
  assert (Hun : forall m : Handler, run (run_handler (unless_claimed m)) s1 = s1).
  { intros m. destruct Ha as (_ & _ & _ & Hob & _). unfold run_handler, run_proxy_handler_action, unless_claimed,
      completion_claimed. cbv [try_catch]. eval_handler. by rewrite Hob. }
  destruct event as [| | | | | | | | |g e]; cbn [event_handler]; try exact (f_equal log_of (Hun _)).
  - by rewrite (cancel_ended dump request c).
  - change (log_of (run (run_handler (if negb (failed e) && (g =? io_generation (ex_io s1))
                                      then fail dump w timeout timed_out else mret tt)) s1) = log_of s1).
    destruct (negb (failed e) && _); [exact (f_equal log_of (Hun _))|done].
Qed.

(** C17: an exchange tells its session one outcome, once, in order.  In every state that
    handlers can reach, the callbacks made form a prefix of one of: a whole response; an
    abort; a header, blocks up to the final one, and an end, where success follows the final
    block only.  Once the completion is claimed the connection has been given back or
    closed, nothing more is ever told, and unless the session cancelled, an outcome has
    been. *)
Theorem exchange_tells_once budget selected request cancelled s :
  ex_reachable dump budget selected request cancelled s ->
  exists p, log_phase (log_of s) = Some p /\
    if co_claimed (ex_completion s) then
      released s /\ (cancelled = false -> p = lp_over) /\
      forall w event, log_of (ex_step dump w event s) = log_of s
    else held s /\ p <> lp_over.
Proof.
  intros H. destruct (ex_reachable_ok _ _ _ _ _ H) as [(op & (Ho & Hob & Hh & Ht) & Hp & Hf & Hg)|He].
  - destruct Ho as (_ & _ & -> & _ & _ & _ & Hlog).
    destruct (io_stream_started (ex_io s)); [destruct Hlog as [Hlog|Hlog]|]; eexists; split; try exact Hlog; done.
  - pose proof He as (_ & _ & -> & _ & Hr & p & Hlog & Hp). exists p. split_and!; try done.
    intros w event. by eapply ended_told.
Qed.

(** C19: an exchange always ends.  Until its completion is claimed exactly one operation is
    pending and the current deadline is armed, and when that deadline expires, whatever
    the world answers, the outcome is told, the connection is closed and the exchange is over. *)
Theorem exchange_progress budget selected request cancelled s :
  ex_reachable dump budget selected request cancelled s -> co_claimed (ex_completion s) = false ->
  let g := io_generation (ex_io s) in
  (exists op, io_pending (ex_io s) = [op]) /\ ex_enabled s (xe_deadline g no_error) /\
  forall w, let s' := ex_step dump w (xe_deadline g no_error) s in
    co_claimed (ex_completion s') = true /\ released s' /\ log_phase (log_of s') = Some lp_over.
Proof.
  intros H Hcl g. destruct (ex_reachable_ok _ _ _ _ _ H) as [Hw|(_ & _ & Hc & _)]; [|congruence].
  pose proof Hw as (op & Hl & Hp & Hf & Hg). split; [by exists op|]. split; [by split|].
  intros w s'. assert (He : ended dump request false s').
  { pose proof (arrive_waits dump request g no_error s _ Hl) as Hl'. unfold s', ex_step. cbn [event_handler].
    apply (run_handler_gen dump request _ false); [done|]. unfold on_deadline. wp_step. wp_step. wp_step.
    - eapply wp_mono; [apply (wp_fail dump request (stage_ticks op)); [exact Hl'|by destruct op]|done|by left].
    - match goal with E : _ = false |- _ => cbn in E; by rewrite Z.eqb_refl in E end. }
  destruct He as (_ & _ & ? & _ & ? & p & Hlog & Hover). rewrite Hover in Hlog by done. done.
Qed.

End Properties.

(** ** A concrete exchange: a pooled plain connection and a whole response *)

Definition sample_budget : list BufferBudgetControl := [mkControl 4096 0].
Definition sample_world : ExWorld :=
  mkExWorld (fun _ => Ok tt) (Ok tt) (Ok tt) (Ok tt) true (fun _ => mkSocket true false no_error 0) false 5.
Definition sample_request : HttpRequest := mkRequest get (L "/a") 11 [(L "Host", L "h")] [].
Definition sample_selected : SelectedUpstream :=
  mkSelectedUpstream (mkUpstream (L "h") 80 1000 http) (L "/") false None false false.
Definition sample_parsed : Parsed := mkParsed (mkResponse 200 (L "OK") 11 [] []) (Some 0) true false 0.

Definition sample_made : Exchange :=
  mkExchange
    (mkExConfig (su_upstream sample_selected) None sample_request
       (make_upstream_request sample_selected sample_request true) 0 false false)
    (mkExIo (Some (mkConnection 7 (su_upstream sample_selected) None false)) false 0 [] [] None empty_BudgetPermit
       (0, empty_BudgetPermit) false)
    (mkExCompletion false false true true true)
    (mkExShared (Some make_UpstreamPool) sample_budget []).

Definition sample_resolving : Exchange := ex_started sample_world sample_made.
Definition sample_connecting : Exchange := ex_step sample_dump sample_world (xe_resolve no_error) sample_resolving.
Definition sample_writing : Exchange := ex_step sample_dump sample_world (xe_connect no_error) sample_connecting.
Definition sample_reading : Exchange := ex_step sample_dump sample_world (xe_write no_error) sample_writing.
Definition sample_over : Exchange := ex_step sample_dump sample_world (xe_header no_error sample_parsed) sample_reading.

Notation sample_reachable := (ex_reachable sample_dump 0 sample_selected sample_request false).

Lemma sample_pending :
  io_pending (ex_io sample_resolving) = [xo_resolve] /\ io_pending (ex_io sample_connecting) = [xo_connect] /\
  io_pending (ex_io sample_writing) = [xo_write] /\ io_pending (ex_io sample_reading) = [xo_read_header].
Proof. vm_compute. done. Qed.

(** The next operation of the chain. *)
Lemma sample_next s event op :
  sample_reachable s -> io_pending (ex_io s) = [op] -> event_op event = Some op ->
  match event with
  | xe_cancel | xe_deadline _ _ | xe_body _ _ | xe_block _ _ _ => False
  | xe_header _ p => p = sample_parsed
  | _ => True
  end ->
  sample_reachable (ex_step sample_dump sample_world event s).
Proof.
  intros H Hp Eop Hev. assert (Hen : ex_enabled s event).
  { destruct event; try done; try (exists op; rewrite Hp; split; [done|by left]).
    cbn in Eop, Hev. subst p. injection Eop as <-. split; [rewrite Hp; by left|]. split; [by intros n [= <-]|done]. }
  pose proof (ex_next _ _ _ _ _ sample_world event s H Hen) as Hn. by destruct event.
Qed.

Lemma sample_reading_reachable : sample_reachable sample_reading.
Proof.
  destruct sample_pending as (E0 & E1 & E2 & _).
  apply (sample_next _ _ xo_write); [|done..]. apply (sample_next _ _ xo_connect); [|done..].
  apply (sample_next _ _ xo_resolve); [|done..].
  apply (ex_make sample_dump 0 sample_selected sample_request sample_world sample_world 7 None
           (Some make_UpstreamPool) sample_budget (Some make_UpstreamPool) sample_made). reflexivity.
Qed.

Lemma sample_over_reachable : sample_reachable sample_over.
Proof.
  destruct sample_pending as (_ & _ & _ & E). apply (sample_next _ _ xo_read_header); [|done..].
  apply sample_reading_reachable.
Qed.

Lemma exchange_tells_once_witness :
  co_claimed (ex_completion sample_over) = true /\ released sample_over /\
  forall w event, log_of (ex_step sample_dump w event sample_over) = log_of sample_over.
Proof.
  destruct (exchange_tells_once sample_dump 0 sample_selected sample_request false sample_over)
    as (p & _ & H); [apply sample_over_reachable|].
  assert (E : co_claimed (ex_completion sample_over) = true) by (by vm_compute).
  rewrite E in H. destruct H as (? & _ & ?). done.
Defined.

Lemma exchange_progress_witness :
  let s' := ex_step sample_dump sample_world (xe_deadline (io_generation (ex_io sample_reading)) no_error) sample_reading in
  co_claimed (ex_completion s') = true /\ released s' /\ log_phase (log_of s') = Some lp_over.
Proof.
  destruct (exchange_progress sample_dump 0 sample_selected sample_request false sample_reading) as (_ & _ & H).
  - apply sample_reading_reachable.
  - by vm_compute.
  - apply H.
Defined.
