(* ===== verification/ExchangeKeeps.v ===== *)
(** * What the handlers of an exchange keep (src/http_proxy.cpp, [HttpProxyExchange::Impl])

    A walk through all the handlers of an exchange, once for any relation between the
    connection, the pool and the permits of the body budget that the moves the handlers make
    keep: where the connection goes, that a stopped pool stays so, and that the accounts of
    the budget balance. *)

From S2P Require Import Prelude Text ConfigTypes Errors Http Permits BufferBudget UpstreamPool Metrics.
From S2P Require Import HttpHandler ProxyMessage Handlers Exchange.

Local Open Scope Z_scope.

(** ** Where the connection and the permits go *)

(** What an exchange has of the body budget: the reservation for a whole response, that of
    the block, and what it has told its session of. *)
Section Books.
Context {B : BeastHttp}.

Record Books := mkBooks {
  bk_heap : list BufferBudgetControl;
  bk_budget : nat;
  bk_response : BufferBudgetPermit;
  bk_block : BufferBudgetPermit;
  bk_log : list ExOutput }.

Definition output_permits (o : ExOutput) : list BufferBudgetPermit :=
  match o with out_complete r => [pr_permit r] | _ => [] end.
Definition told_permits (log : list ExOutput) : list BufferBudgetPermit := flat_map output_permits log.

Lemma told_permits_snoc log o : told_permits (log ++ [o]) = told_permits log ++ output_permits o.
Proof. unfold told_permits. by rewrite flat_map_app, <- (app_nil_r (output_permits o)). Qed.

Definition books (s : Exchange) : Books :=
  mkBooks (xs_heap (ex_shared s)) (xc_budget (ex_config s)) (io_permit (ex_io s)) (io_block (ex_io s)).2
    (log_of s).

(** What a handler does to them.  [counted]: the length of the response is unsigned. *)
Inductive book_move (counted : Prop) (b : Books) : Books -> Prop :=
  | move_response n heap p :
      (counted -> 0 <= n) -> budget_try_acquire (bk_heap b) (bk_budget b) n = (heap, Some p) ->
      book_move counted b
        (mkBooks (BufferBudget.release heap (bk_response b)).1 (bk_budget b) p (bk_block b) (bk_log b))
  | move_block n heap p :
      0 <= n -> budget_try_acquire (bk_heap b) (bk_budget b) n = (heap, Some p) ->
      book_move counted b
        (mkBooks (BufferBudget.release heap (bk_block b)).1 (bk_budget b) (bk_response b) p (bk_log b))
  | move_clear :
      book_move counted b
        (mkBooks (BufferBudget.release (bk_heap b) (bk_block b)).1 (bk_budget b) (bk_response b) empty_BudgetPermit
           (bk_log b))
  | move_shrink n heap p shrunk :
      0 <= n -> shrink_to (bk_heap b) (bk_response b) n = (heap, p, shrunk) ->
      book_move counted b (mkBooks heap (bk_budget b) p (bk_block b) (bk_log b))
  | move_lose :
      book_move counted b
        (mkBooks (BufferBudget.release (bk_heap b) (bk_response b)).1 (bk_budget b) empty_BudgetPermit (bk_block b)
           (bk_log b))
  | move_tell o :
      output_permits o = [bk_response b] ->
      book_move counted b (mkBooks (bk_heap b) (bk_budget b) empty_BudgetPermit (bk_block b) (bk_log b ++ [o]))
  | move_tell_empty o :
      output_permits o = [] \/ output_permits o = [empty_BudgetPermit] ->
      book_move counted b (mkBooks (bk_heap b) (bk_budget b) (bk_response b) (bk_block b) (bk_log b ++ [o])).

(** The length a parser reports. *)
Definition event_counted (event : ExEvent) : Prop :=
  match event with
  | xe_header _ p => forall n, ps_content_length p = Some n -> 0 <= n
  | _ => True
  end.

Lemma enabled_counted s event : ex_enabled s event -> event_counted event.
Proof. destruct event; try done. intros [_ H] n E. by apply H. Qed.

End Books.

#[local] Create HintDb exchange.

(** What a handler keeps of the connection, the pool, the books and the parser: it holds
    already, and is kept by the moves of the books and when a connection that may be used again
    is given back. *)
Section Connection.
Context {B : BeastHttp}.
Variable dump : Json -> text.
Context (w : ExWorld) (parsed0 : option Parsed).
Context (counted : Prop).
Variable R : option UpstreamConnection -> option UpstreamPool -> Books -> Prop.

Definition no_leftover (p : Parsed) : Prop :=
  ps_done p = true /\ ps_need_eof p = false /\ response_keep_alive (ps_message p) = true /\
  has_upgrade_token (ps_message p) = false /\ ps_buffered p = 0.

Hypothesis R_put : forall c pool p b,
  R (Some c) (Some pool) b -> parsed0 = Some p -> no_leftover p -> clean (xw_sockets w) c = true ->
  R None (Some (put (xw_sockets w) (xw_arm_fails w) pool (Some c) (xw_now w)).2) b.
Hypothesis R_books : forall c pool b b', book_move counted b b' -> R c pool b -> R c pool b'.

Definition at_rest (s : Exchange) : Prop :=
  R (io_connection (ex_io s)) (xs_pool (ex_shared s)) (books s) /\ io_parsed (ex_io s) = parsed0.

Local Notation stable := (keeps at_rest).

Lemma at_rest_move s s' :
  book_move counted (books s) (books s') -> io_connection (ex_io s') = io_connection (ex_io s) ->
  xs_pool (ex_shared s') = xs_pool (ex_shared s) -> io_parsed (ex_io s') = io_parsed (ex_io s) ->
  at_rest s -> at_rest s'.
Proof. intros Hm E1 E2 E3 [H1 H2]. unfold at_rest. rewrite E1, E2, E3. split; [by apply (R_books _ _ (books s))|done]. Qed.

Lemma at_rest_emit o s : output_permits o = [] \/ output_permits o = [empty_BudgetPermit] -> at_rest s -> at_rest (emit o s).
Proof. intros Ho. apply at_rest_move; try done. by apply (move_tell_empty _ (books s)). Qed.
Lemma stable_emit o : output_permits o = [] -> stable (modify (emit o)).
Proof. intros Ho. apply keeps_modify. intros s. apply at_rest_emit. by left. Qed.

Lemma stable_claim : stable claim.
Proof. unfold claim. repeat keep_step. Qed.
Lemma stable_notify_abort : stable notify_abort.
Proof. unfold notify_abort. repeat keep_step. by apply stable_emit. Qed.

Lemma stable_close_upstream : stable close_upstream.
Proof.
  intros s H. unfold close_upstream. repeat wp_step. destruct (io_connection (ex_io s)) as [c|] eqn:E; wp_step; [|done].
  destruct H as [H1 H2]. split; [|done]. cbn. by rewrite <- E.
Qed.

Lemma stable_cancel_operations : stable cancel_operations.
Proof. unfold cancel_operations. repeat keep_step. apply stable_close_upstream. Qed.

Lemma stable_run_handler (m : Handler) : stable m -> stable (run_handler m).
Proof.
  intros Hm. unfold run_handler, run_proxy_handler_action.
  repeat keep_step; auto using stable_claim, stable_cancel_operations, stable_notify_abort.
Qed.

(** A result without a permit. *)
Lemma stable_complete r : pr_permit r = empty_BudgetPermit -> stable (complete r).
Proof.
  intros Hr. unfold complete, run_proxy_completion_action.
  repeat keep_step; auto using stable_claim, stable_notify_abort.
  - apply keeps_modify. intros s. apply at_rest_emit. right. cbn. by rewrite Hr.
  - unfold drop_result. rewrite Hr. by apply keeps_modify.
Qed.

Lemma stable_complete_stream failure failed : stable (complete_stream failure failed).
Proof.
  unfold complete_stream, run_proxy_completion_action.
  repeat keep_step; auto using stable_claim, stable_notify_abort, stable_emit.
Qed.

Lemma stable_cancel : stable ex_cancel.
Proof. unfold ex_cancel. repeat keep_step; auto using stable_claim, stable_cancel_operations. Qed.

Lemma stable_fail stage e : stable (fail dump w stage e).
Proof.
  unfold fail, unless_claimed, completion_claimed, finish_deadline.
  repeat keep_step; auto using stable_cancel_operations, stable_complete, stable_complete_stream.
Qed.

Lemma stable_reject bytes : stable (reject_buffer_budget dump w bytes).
Proof.
  unfold reject_buffer_budget. repeat keep_step; auto using stable_cancel_operations, stable_complete.
Qed.

(** A reservation that is refused changes nothing. *)
Lemma refused heap budget bytes : (budget_try_acquire heap budget bytes).2 = None -> (budget_try_acquire heap budget bytes).1 = heap.
Proof. unfold budget_try_acquire. destruct (_ !! _); [|done]. by destruct (_ <? _). Qed.

Definition acquired (bytes : Z) (s : Exchange) (permit : option BufferBudgetPermit) (s' : Exchange) : Prop :=
  exists heap, budget_try_acquire (xs_heap (ex_shared s)) (xc_budget (ex_config s)) bytes = (heap, permit) /\
    s' = set_heap heap s.

Lemma acquire_made bytes s : wp (acquire bytes) (acquired bytes s) at_rest s.
Proof. unfold wp, acquire, acquired. destruct (budget_try_acquire _ _ _) as [heap permit]. by exists heap. Qed.

Lemma acquired_none bytes s s' : acquired bytes s None s' -> at_rest s -> at_rest s'.
Proof.
  intros (heap & E & ->) H. pose proof (refused (xs_heap (ex_shared s)) (xc_budget (ex_config s)) bytes) as Hr.
  rewrite E in Hr. by rewrite (Hr eq_refl : heap = _).
Qed.
Lemma acquired_response bytes s p s' (Q := fun _ : unit => at_rest) :
  (counted -> 0 <= bytes) -> acquired bytes s (Some p) s' -> at_rest s -> wp (assign_permit p) Q at_rest s'.
Proof. intros Hn (heap & E & ->) H. apply (at_rest_move s); [|done..|done]. by apply (move_response _ (books s) bytes). Qed.
Lemma acquired_block bytes n s p s' (Q := fun _ : unit => at_rest) :
  0 <= bytes -> acquired bytes s (Some p) s' -> at_rest s -> wp (assign_block (n, p)) Q at_rest s'.
Proof. intros Hn (heap & E & ->) H. apply (at_rest_move s); [|done..|done]. by apply (move_block _ (books s) bytes). Qed.
Lemma stable_clear n : stable (assign_block (n, empty_BudgetPermit)).
Proof. apply keeps_modify. intros s H. apply (at_rest_move s); [|done..|done]. apply (move_clear _ (books s)). Qed.

Lemma stable_shrink bytes : 0 <= bytes -> stable (shrink_response_permit bytes).
Proof.
  intros Hn s H. unfold wp, shrink_response_permit. destruct (shrink_to _ _ _) as [[heap permit] shrunk] eqn:E.
  apply (at_rest_move s); [|done..|done]. by apply (move_shrink _ (books s) bytes heap permit shrunk).
Qed.

(** A result with the reservation of the response. *)
Lemma stable_told response s :
  at_rest s ->
  wp (complete (mkProxyResult response None None (io_permit (ex_io s)))) (fun _ => at_rest) at_rest
    (set_permit empty_BudgetPermit s).
Proof.
  intros H. set (r := mkProxyResult _ _ _ _).
  assert (Hlose : at_rest (run (drop_result r) (set_permit empty_BudgetPermit s))).
  { apply (at_rest_move s); [|done..|done]. apply (move_lose _ (books s)). }
  assert (Htell : at_rest (emit (out_complete r) (set_permit empty_BudgetPermit s))).
  { apply (at_rest_move s); [|done..|done]. by apply (move_tell _ (books s) (out_complete r)). }
  unfold wp, complete, run_proxy_completion_action, claim, notify_abort, try_catch. eval_handler.
  destruct (co_claimed _); cbn; [exact Hlose|]. destruct (co_on_complete _); cbn; [exact Htell|].
  destruct (co_on_abort _); cbn; [|exact Hlose]. exact (at_rest_emit out_abort _ (or_introl eq_refl) Hlose).
Qed.

(** The connection is given back only when it is reusable. *)
Lemma give_back_placed (reuse : bool) p s :
  at_rest s -> parsed0 = Some p -> (reuse = true -> no_leftover p /\ connection_clean w s = true) ->
  wp (give_back w reuse) (fun _ => at_rest) at_rest s.
Proof.
  intros H Hp Hr. unfold give_back. destruct reuse; [|by apply stable_close_upstream].
  unfold put_connection. wp_step. destruct (xs_pool (ex_shared s)) as [pool|] eqn:E; [|done].
  destruct (Hr eq_refl) as (Hn & Hc). unfold connection_clean in Hc.
  destruct H as [H1 H2]. rewrite E in H1. destruct (io_connection (ex_io s)) as [c|]; [|done].
  destruct (put _ _ _ _ _) as [dead pool'] eqn:Eput. split; [|done]. cbn.
  replace pool' with (put (xw_sockets w) (xw_arm_fails w) pool (Some c) (xw_now w)).2 by (by rewrite Eput). by apply (R_put c pool p).
Qed.

Ltac split_test H := unfold reusable, stream_reusable in H; reflect_bools; unfold no_leftover; split_and!; done.

Lemma stable_finish_response p : parsed0 = Some p -> stable (finish_response w p).
Proof.
  intros Hp s H. unfold finish_response, finish_deadline. repeat wp_step. eapply wp_mono.
  - apply (give_back_placed _ p); [exact H|done|]. intros Hr. split_test Hr.
  - intros ? s' H'. repeat wp_step; [by apply stable_told|done].
  - done.
Qed.

Lemma stable_finish_stream p : parsed0 = Some p -> stable (finish_stream w p).
Proof.
  intros Hp s H. unfold finish_stream, finish_deadline. repeat wp_step. eapply wp_mono.
  - apply (give_back_placed _ p); [exact H|done|]. intros Hr. split_test Hr.
  - intros ? s' H'. by apply stable_complete_stream.
  - done.
Qed.

Lemma stable_unless (m : Handler) : stable m -> stable (unless_claimed m).
Proof. intros Hm. unfold unless_claimed, completion_claimed. by repeat keep_step. Qed.
Lemma stable_begin_op op : stable (begin_op w op).
Proof. unfold begin_op. repeat keep_step. Qed.
Lemma stable_begin_deadline : stable (begin_deadline w).
Proof. unfold begin_deadline. repeat keep_step. Qed.
Lemma stable_finish_deadline : stable finish_deadline.
Proof. unfold finish_deadline. repeat keep_step. Qed.
Lemma stable_deliver o final : output_permits o = [] -> stable (deliver w o final).
Proof. intros Ho. unfold deliver. repeat keep_step. by apply stable_emit. Qed.
Lemma stable_send_header p : stable (send_header w p).
Proof. unfold send_header. repeat keep_step. by apply stable_deliver. Qed.

(** What follows a reservation. *)
Lemma stable_acquire bytes (k : option BufferBudgetPermit -> Handler) :
  stable (k None) ->
  (forall s p s', acquired bytes s (Some p) s' -> at_rest s -> wp (k (Some p)) (fun _ => at_rest) at_rest s') ->
  stable (acquire bytes ≫= k).
Proof.
  intros Hn Hs s H. apply wp_bind. eapply wp_mono; [apply acquire_made| |done].
  intros [p|] s' Ha; [by eapply Hs|]. by apply Hn, (acquired_none bytes s).
Qed.

Hint Resolve stable_fail stable_reject stable_begin_op stable_begin_deadline stable_finish_deadline stable_deliver
  stable_send_header stable_shrink stable_clear stable_finish_response stable_finish_stream stable_complete_stream
  stable_cancel_operations stable_unless : exchange.

Lemma stable_whole p :
  (counted -> forall n, ps_content_length p = Some n -> 0 <= n) -> parsed0 = Some p -> stable (on_whole_header dump w p).
Proof.
  intros Hc Hp. unfold on_whole_header. keep_step; [repeat keep_step; auto with exchange|].
  destruct (plan_kind _) eqn:Ek; [repeat keep_step; auto with exchange| |repeat keep_step; auto with exchange].
  apply stable_acquire; [repeat keep_step; auto with exchange|]. intros s permit s' Ha H. apply wp_bind.
  eapply wp_mono; [eapply acquired_response; [|exact Ha|exact H]| |done]; [|intros ? s2; apply stable_begin_op].
  intros Hq. specialize (Hc Hq). unfold plan_body_reservation, max_upstream_body_bytes in *.
  destruct (ps_done p); [done|]. destruct (ps_content_length p) as [n|]; [|done]. destruct (_ <? _); [done|]. by apply Hc.
Qed.

Lemma stable_start p : stable (start_stream dump w p).
Proof.
  unfold start_stream. keep_step; [auto with exchange|]. keep_step; [auto with exchange|].
  keep_step; [auto with exchange|]. keep_step; [auto with exchange|]. intros s H. do 2 wp_step.
  pose proof (block_bytes_range s) as Hn. destruct (block_bytes s =? 0); [by do 2 wp_step; apply stable_reject|].
  destruct Hn as [Hn _]. generalize dependent (block_bytes s). intros bytes Hn. revert s H. apply stable_acquire; [auto with exchange|]. intros s permit s' Ha H. apply wp_bind.
  eapply wp_mono; [by eapply acquired_block| |done]. intros ? s2. apply stable_send_header.
Qed.

Lemma stable_event event s :
  (forall p, event_parsed event = Some p -> parsed0 = Some p) -> (counted -> event_counted event) -> at_rest s ->
  wp (event_handler dump w event) (fun _ => at_rest) at_rest s.
Proof.
  intros Hpar Hcount. revert s. change (stable (event_handler dump w event)).
  destruct event; cbn in *; [by apply stable_cancel|..]; apply stable_run_handler.
  - unfold on_resolve. apply stable_unless. repeat keep_step; auto with exchange.
  - unfold on_connect, write_request. apply stable_unless. repeat keep_step; auto with exchange.
  - unfold on_handshake, write_request. apply stable_unless. repeat keep_step; auto with exchange.
  - unfold on_write. apply stable_unless. repeat keep_step; auto with exchange.
  - unfold on_read_header. apply stable_unless. repeat keep_step; auto using stable_start, stable_whole with exchange.
  - unfold on_read_body. apply stable_unless. repeat keep_step; auto with exchange. apply stable_shrink. lia.
  - unfold on_read_block, read_stream_block. apply stable_unless. repeat keep_step; auto with exchange.
  - unfold on_resume, read_stream_block. apply stable_unless, keeps_if; [repeat keep_step; auto with exchange|].
    apply keeps_if; [|auto with exchange]. intros s' H'. wp_step. wp_step. destruct (io_parsed (ex_io s')) as [p|] eqn:E; [|by wp_step].
    apply stable_finish_stream; [|done]. destruct H' as [_ H']. congruence.
  - unfold on_deadline. repeat keep_step; auto with exchange.
Qed.

End Connection.

Section Steps.
Context {B : BeastHttp}.
Variable dump : Json -> text.

(** A step, from the connection, the pool and the books it starts with. *)
Lemma step_placed w event (counted : Prop) (R : option UpstreamConnection -> option UpstreamPool -> Books -> Prop) s :
  (forall c pool p b, R (Some c) (Some pool) b -> io_parsed (ex_io (arrive event s)) = Some p -> no_leftover p ->
     clean (xw_sockets w) c = true -> R None (Some (put (xw_sockets w) (xw_arm_fails w) pool (Some c) (xw_now w)).2) b) ->
  (forall c pool b b', book_move counted b b' -> R c pool b -> R c pool b') ->
  (counted -> event_counted event) ->
  R (io_connection (ex_io s)) (xs_pool (ex_shared s)) (books s) ->
  let s' := ex_step dump w event s in
  R (io_connection (ex_io s')) (xs_pool (ex_shared s')) (books s') /\ io_parsed (ex_io s') = io_parsed (ex_io (arrive event s)).
Proof.
  intros Hput Hbooks Hc H. apply (run_wp _ (at_rest (io_parsed (ex_io (arrive event s))) R)).
  apply (stable_event _ _ _ counted); [done..|by apply arrive_parsed|done|]. split; [by destruct event|done].
Qed.

(** C20: a connection goes back to the pool only clean.  A handler leaves the exchange's
    connection and the pool as they are, or puts the connection into the pool; it does so
    only when the whole response has been read, was not delimited by the end of the connection
    nor followed by other bytes, keeps the connection alive without an upgrade,
    and the connection is clean. *)
Theorem exchange_returns_clean w event s connection :
  io_connection (ex_io s) = Some connection ->
  let s' := ex_step dump w event s in
  let pool := xs_pool (ex_shared s) in
  (io_connection (ex_io s') = Some connection /\ xs_pool (ex_shared s') = pool) \/
  (io_connection (ex_io s') = None /\
   exists idle p, pool = Some idle /\ io_parsed (ex_io s') = Some p /\
     xs_pool (ex_shared s') = Some (put (xw_sockets w) (xw_arm_fails w) idle (Some connection) (xw_now w)).2 /\
     ps_done p = true /\ ps_need_eof p = false /\ response_keep_alive (ps_message p) = true /\
     has_upgrade_token (ps_message p) = false /\ ps_buffered p = 0 /\ clean (xw_sockets w) connection = true).
Proof.
  intros Ec s' pool. unfold s', ex_step.
  set (parsed := io_parsed (ex_io (arrive event s))).
  set (R := fun (c : option UpstreamConnection) (after : option UpstreamPool) (b : Books) =>
    (c = Some connection /\ after = pool) \/
    (c = None /\ exists idle p, pool = Some idle /\ parsed = Some p /\
       after = Some (put (xw_sockets w) (xw_arm_fails w) idle (Some connection) (xw_now w)).2 /\
       no_leftover p /\ clean (xw_sockets w) connection = true)).
  destruct (step_placed w event False R s) as [[Hp|(H1 & idle & p & H3 & H4 & H5 & H6 & H7)] Hpar].
  - intros c idle p b [[[= ->] H1]|[? _]] H2 H3 H4; [|done]. right. split; [done|]. by exists idle, p.
  - done.
  - done.
  - by left.
  - by left.
  - right. split; [exact H1|]. exists idle, p. split; [done|]. split; [exact (eq_trans Hpar H4)|]. split; [done|].
    by destruct H6 as (? & ? & ? & ? & ?).
Qed.

End Steps.

(** ** The account of the budget *)

Section Account.
Context {B : BeastHttp}.
Variable dump : Json -> text.
(** The budget and its limit; [frame] is what the other holders have. *)
Context (budget : nat) (limit frame : Z) (frame_nonneg : 0 <= frame).

Definition permits_bytes (l : list BufferBudgetPermit) : Z := sumZ bytes_ l.

Lemma permits_bytes_app l1 l2 : permits_bytes (l1 ++ l2) = permits_bytes l1 + permits_bytes l2.
Proof. apply sumZ_app. Qed.

Lemma permits_bytes_nonneg l : Forall (lent budget) l -> 0 <= permits_bytes l.
Proof. intros H. apply sumZ_nonneg. intros p Hp. rewrite Forall_forall in H. by apply H. Qed.

(** What was told after [log0] is in transit. *)
Definition books_balance (log0 : list ExOutput) (b : Books) : Prop :=
  bk_budget b = budget /\ lent budget (bk_response b) /\ lent budget (bk_block b) /\
  exists log, bk_log b = log0 ++ log /\ Forall (lent budget) (told_permits log) /\
    account budget limit (bk_heap b)
      (frame + bytes_ (bk_response b) + bytes_ (bk_block b) + permits_bytes (told_permits log)).

(** Two of the terms of an account change. *)
Lemma account_eq h n n' : account budget limit h n -> n = n' -> account budget limit h n'.
Proof. by intros H <-. Qed.

Lemma books_balance_move log0 b b' : book_move True b b' -> books_balance log0 b -> books_balance log0 b'.
Proof.
  intros Hm (Eb & Hr & Hk & log & El & Hl & Ha). pose proof (permits_bytes_nonneg _ Hl) as Hn.
  pose proof (proj1 Hr) as Hr0. pose proof (proj1 Hk) as Hk0. cbn in Hr0, Hk0.
  destruct Hm as [n heap p Hc E|n heap p Hc E| |n heap p shrunk Hc E| |o Ho|o Ho]; unfold books_balance; cbn.
  - pose proof (account_reserve _ _ _ _ n Ha (Hc I)) as Hres. rewrite <- Eb, E in Hres. destruct Hres as [Hp Hacc].
    rewrite Eb in *. split_and!; try done. exists log. split_and!; try done.
    apply account_free; [done|pose proof (proj1 Hp) as Hp0; cbn in Hp0; lia|].
    eapply account_eq; [exact Hacc|cbn; lia].
  - pose proof (account_reserve _ _ _ _ n Ha Hc) as Hres. rewrite <- Eb, E in Hres. destruct Hres as [Hp Hacc].
    rewrite Eb in *. split_and!; try done. exists log. split_and!; try done.
    apply account_free; [done|pose proof (proj1 Hp) as Hp0; cbn in Hp0; lia|].
    eapply account_eq; [exact Hacc|cbn; lia].
  - split_and!; try done; [apply lent_empty_permit|]. exists log. split_and!; try done.
    apply account_free; [done|lia|]. eapply account_eq; [exact Ha|cbn; lia].
  - pose proof (account_shrink budget limit (bk_heap b) (frame + bytes_ (bk_block b) + permits_bytes (told_permits log))
      (bk_response b) n Hc Hr) as Hs. rewrite E in Hs. destruct Hs as [Hp Hacc]; [lia|eapply account_eq; [exact Ha|lia]|].
    split_and!; try done. exists log. split_and!; try done. eapply account_eq; [exact Hacc|lia].
  - split_and!; try done; [apply lent_empty_permit|]. exists log. split_and!; try done.
    apply account_free; [done|lia|]. eapply account_eq; [exact Ha|cbn; lia].
  - split_and!; try done; [apply lent_empty_permit|]. exists (log ++ [o]).
    rewrite El, <- app_assoc, told_permits_snoc, Ho. split_and!; [done|by apply Forall_app; split; [|by apply Forall_singleton]|].
    eapply account_eq; [exact Ha|rewrite permits_bytes_app; cbn; lia].
  - split_and!; try done. exists (log ++ [o]). rewrite El, <- app_assoc, told_permits_snoc, permits_bytes_app.
    destruct Ho as [-> | ->]; split_and!; try done.
    + by rewrite app_nil_r.
    + eapply account_eq; [exact Ha|cbn; lia].
    + apply Forall_app. split; [done|]. apply Forall_singleton, lent_empty_permit.
    + eapply account_eq; [exact Ha|cbn; lia].
Qed.

(** A step of an exchange keeps the account. *)
Lemma step_balance w event log0 s :
  event_counted event -> books_balance log0 (books s) -> books_balance log0 (books (ex_step dump w event s)).
Proof.
  intros Hc H. apply (step_placed dump w event True (fun _ _ b => books_balance log0 b)); [done| |done|exact H].
  intros _ _ b b'. apply books_balance_move.
Qed.

End Account.

(** ** The upstream pool *)

Definition pool_over (pool : option UpstreamPool) : bool :=
  match pool with Some p => pool_stopped_ p | None => true end.

Lemma put_over sockets arm_fails pool lease now :
  pool_stopped_ pool = true -> pool_stopped_ (put sockets arm_fails pool lease now).2 = true.
Proof. intros E. unfold put. destruct lease; [|done]. by rewrite E. Qed.

Lemma take_over sockets pool backend context now :
  pool_stopped_ pool = true -> pool_stopped_ (take sockets pool backend context now).2 = true.
Proof. intros E. unfold take. by rewrite E. Qed.

Section Over.
Context {B : BeastHttp}.
Variable dump : Json -> text.

(** No step of an exchange restarts the pool. *)
Lemma ex_step_over w event x :
  pool_over (xs_pool (ex_shared x)) = true -> pool_over (xs_pool (ex_shared (ex_step dump w event x))) = true.
Proof.
  apply (step_placed dump w event False (fun _ pool _ => pool_over pool = true)); [|done..].
  intros c pool p b Hp _ _ _. by apply put_over.
Qed.

(** A world in which nothing throws; a cancellation asks it nothing. *)
Definition calm_world : ExWorld :=
  mkExWorld (fun _ => Ok tt) (Ok tt) (Ok tt) (Ok tt) true (fun _ => mkSocket true false no_error 0) false 0.

Lemma ex_cancel_over x :
  pool_over (xs_pool (ex_shared x)) = true -> pool_over (xs_pool (ex_shared (run ex_cancel x))) = true.
Proof. intros H. apply (ex_step_over calm_world xe_cancel x H). Qed.

Lemma ex_cancel_log x : log_of (run ex_cancel x) = log_of x.
Proof.
  apply (run_keeps (fun s => log_of s = log_of x)); [|done]. unfold ex_cancel, claim, cancel_operations, close_upstream.
  repeat keep_step. destruct a3; repeat keep_step.
Qed.

Lemma ex_start_pool w x : xs_pool (ex_shared (ex_start w x).1) = xs_pool (ex_shared x).
Proof.
  unfold ex_start, write_request, begin_deadline, begin_op. eval_handler.
  destruct (xc_reused _), (xw_deadline w); try done; cbn; by repeat case_match; simplify_eq.
Qed.

Lemma ex_start_books w x : books (ex_start w x).1 = books x.
Proof.
  unfold ex_start, write_request, begin_deadline, begin_op. eval_handler.
  destruct (xc_reused _), (xw_deadline w); try done; cbn; by repeat case_match; simplify_eq.
Qed.

Lemma ex_start_log w x : log_of (ex_start w x).1 = log_of x.
Proof.
  unfold ex_start, write_request, begin_deadline, begin_op. eval_handler.
  destruct (xc_reused _), (xw_deadline w); try done; cbn; by repeat case_match; simplify_eq.
Qed.

Lemma make_exchange_over w id selected request context budget oc oa st pool heap :
  pool_over pool = true ->
  pool_over (make_exchange w id selected request context budget oc oa st pool heap).1 = true.
Proof.
  intros H. unfold make_exchange. destruct (xw_build w); [|done]. destruct budget; [|done].
  destruct oc, oa; try done. cbn. destruct (_ && _); [done|].
  destruct pool as [p|]; [|by destruct (make_UpstreamConnection _ _ _)].
  destruct (take _ _ _ _ _) as [[lease dead] p'] eqn:E. cbn.
  assert (H' : pool_over (Some p') = true).
  { cbn. pose proof (take_over (xw_sockets w) p (su_upstream selected) context (xw_now w) H) as Ht. by rewrite E in Ht. }
  destruct lease; [done|]. by destruct (make_UpstreamConnection _ _ _).
Qed.

End Over.

(** ** Witnesses *)

Lemma exchange_returns_clean_witness :
  io_connection (ex_io sample_over) = None /\ clean (xw_sockets sample_world) (mkConnection 7 (su_upstream sample_selected) None false) = true.
Proof.
  split; [by vm_compute|].
  destruct (exchange_returns_clean sample_dump sample_world (xe_header no_error sample_parsed) sample_reading
              (mkConnection 7 (su_upstream sample_selected) None false)) as [[H _]|(_ & idle & p & _ & _ & _ & _ & _ & _ & _ & _ & H)].
  - by vm_compute.
  - exfalso. vm_compute in H. discriminate H.
  - exact H.
Defined.
