(* ===== verification/ExchangeTells.v ===== *)
(** * What one handler of an exchange tells (src/http_proxy.cpp)

    The session that owns an exchange acts on its callbacks.  One handler makes at most one
    of them, or hands on a piece of a streamed response and, when that threw, aborts.  The
    state of the exchange then says what it waits for.  Whatever else changes the pool and
    the budget, which sessions share, leaves an exchange as it was.  The outcomes told are
    those the table of outcomes asks for, and each handler tells only what its own event read. *)

From S2P Require Import Prelude Text ConfigTypes Errors Http BufferBudget UpstreamPool Metrics.
From S2P Require Import HttpHandler ProxyMessage Handlers Exchange ExchangeKeeps.

Local Open Scope Z_scope.

Section Telling.
Context {B : BeastHttp}.
Variable dump : Json -> text.

(** The resumptions that are pending. *)
Definition resumes (s : Exchange) : list bool :=
  omap (fun op => match op with xo_resume final => Some final | _ => None end) (io_pending (ex_io s)).

(** A piece of a streamed response, and whether it is the last. *)
Definition piece (o : ExOutput) (final : bool) : Prop :=
  match o with out_header _ f | out_body _ f => f = final | _ => False end.

Definition terminal (o : ExOutput) : Prop :=
  match o with out_complete _ | out_abort | out_finish _ _ => True | _ => False end.

Section Walk.
Context (w : ExWorld) (l0 : list ExOutput) (r0 : list bool).
Context (request : HttpRequest) (parsed0 : option Parsed).
(** What the handler may tell: failures are among it, and what comes of the parser. *)
Variable T : ExOutput -> Prop.
Hypothesis T_failure : forall r, is_Some (pr_failure r) \/ is_Some (pr_rejected r) -> T (out_complete r).
Hypothesis T_response : forall p permit, parsed0 = Some p ->
  T (out_complete (mkProxyResult (make_downstream_response request (ps_message p)) None None permit)).
Hypothesis T_header : forall p, parsed0 = Some p -> T (out_header (stream_header request p) (ps_done p)).
Hypothesis T_body : forall p bytes, parsed0 = Some p -> T (out_body bytes (ps_done p)).
Hypothesis T_abort : T out_abort.
Hypothesis T_failed : forall f downstream_failed, T (out_finish (Some f) downstream_failed).

Definition muted (s : Exchange) : Prop :=
  log_of s = l0 /\ resumes s = r0 /\ xc_request (ex_config s) = request.

Definition ending (s : Exchange) : Prop := exists o, terminal o /\ T o /\ log_of s = l0 ++ [o].

Definition spoken (s : Exchange) : Prop :=
  muted s \/ ending s \/
  exists o final, piece o final /\ T o /\ log_of s = l0 ++ [o] /\ resumes s = final :: r0 /\ xw_callback w = Ok tt.

(** What an exception of the handler leaves. *)
Definition broken (s : Exchange) : Prop := muted s \/ exists o final, piece o final /\ T o /\ log_of s = l0 ++ [o].

Definition tells {A} (m : M Exchange A) : Prop := forall s, muted s -> wp m (fun _ => spoken) broken s.

Local Notation mutes := (keeps muted).

Lemma tells_mute {A} (m : M Exchange A) : mutes m -> tells m.
Proof. intros Hm s H. eapply wp_mono; [by apply Hm| |]; by left. Qed.
Lemma tells_bind {A C} (m : M Exchange A) (f : A -> M Exchange C) :
  mutes m -> (forall a, tells (f a)) -> tells (m ≫= f).
Proof. intros Hm Hf s H. apply wp_bind. eapply wp_mono; [by apply Hm| |by left]. intros a s' H'. by apply Hf. Qed.
Lemma tells_if {A} (b : bool) (m n : M Exchange A) : tells m -> tells n -> tells (if b then m else n).
Proof. by destruct b. Qed.

Lemma mutes_claim : mutes claim.
Proof. unfold claim. repeat keep_step. Qed.
Lemma mutes_close_upstream : mutes close_upstream.
Proof. intros s H. unfold close_upstream. repeat wp_step. destruct (io_connection _); wp_step; exact H. Qed.
Lemma mutes_cancel_operations : mutes cancel_operations.
Proof. unfold cancel_operations. repeat keep_step. apply mutes_close_upstream. Qed.
Lemma mutes_finish_deadline : mutes finish_deadline.
Proof. unfold finish_deadline. repeat keep_step. Qed.
Lemma mutes_begin_deadline : mutes (begin_deadline w).
Proof. unfold begin_deadline. repeat keep_step. Qed.
Lemma mutes_begin_op op : (forall final, op <> xo_resume final) -> mutes (begin_op w op).
Proof.
  intros Hop. unfold begin_op. keep_step; [keep_step|]. apply keeps_modify. intros s H.
  destruct op as [| | | | | | |final]; try exact H. by destruct (Hop final).
Qed.
Lemma mutes_acquire bytes : mutes (acquire bytes).
Proof. intros s H. unfold wp, acquire. by destruct (budget_try_acquire _ _ _). Qed.
Lemma mutes_shrink bytes : mutes (shrink_response_permit bytes).
Proof. intros s H. unfold wp, shrink_response_permit. by destruct (shrink_to _ _ _) as [[heap permit] done]. Qed.
Lemma mutes_assign_permit p : mutes (assign_permit p).
Proof. unfold assign_permit. keep_step. Qed.
Lemma mutes_assign_block b : mutes (assign_block b).
Proof. unfold assign_block. keep_step. Qed.
Lemma mutes_give_back (reuse : bool) : mutes (give_back w reuse).
Proof.
  destruct reuse; [|apply mutes_close_upstream]. apply keeps_modify. intros s H.
  destruct (xs_pool _); [|done]. by destruct (put _ _ _ _ _).
Qed.

Lemma ending_emit o s s' :
  muted s -> terminal o -> T o -> log_of s' = log_of s ++ [o] -> ending s'.
Proof. intros [H _] Ho HT E. exists o. by rewrite E, H. Qed.

Lemma wp_notify s (E : Exchange -> Prop) : muted s -> wp notify_abort (fun _ => spoken) E s.
Proof.
  intros H. unfold notify_abort. repeat wp_step; [|left; exact H]. right. left. by eapply (ending_emit out_abort s).
Qed.

Lemma tells_complete r : T (out_complete r) -> tells (complete r).
Proof.
  intros HT s0 H0. unfold complete. do 2 wp_step. set (taken := negb _ && _). apply wp_bind.
  apply (wp_mono _ (fun _ => spoken) _ broken); [|intros ? s1 H1; destruct taken; exact H1|done].
  match goal with |- wp ?m _ _ _ => enough (Ht : tells m) by by apply Ht end.
  unfold run_proxy_completion_action. apply tells_bind; [apply mutes_claim|intros claimed].
  apply tells_if; [by apply tells_mute, keeps_ret|]. intros s H. repeat wp_step.
  - right. left. by eapply (ending_emit (out_complete r) s).
  - by apply wp_notify.
Qed.

Lemma tells_complete_stream failure downstream_failed :
  T (out_finish failure downstream_failed) -> tells (complete_stream failure downstream_failed).
Proof.
  intros HT. unfold complete_stream, run_proxy_completion_action. apply tells_bind; [apply mutes_claim|intros claimed].
  apply tells_if; [by apply tells_mute, keeps_ret|]. intros s H. repeat wp_step.
  - right. left. by eapply (ending_emit (out_finish failure downstream_failed) s).
  - by apply wp_notify.
Qed.

Lemma tells_unless (m : Handler) : tells m -> tells (unless_claimed m).
Proof.
  intros Hm. unfold unless_claimed, completion_claimed. apply tells_bind; [apply keeps_reads|intros claimed].
  apply tells_if; [by apply tells_mute, keeps_ret|done].
Qed.

(** Walks through a handler that ends by telling. *)
Ltac tell_step :=
  match goal with
  | |- tells (unless_claimed _) => apply tells_unless
  | |- tells (_ ≫= _) => apply tells_bind; [repeat keep_step|intros ?]
  | |- tells (if _ then _ else _) => apply tells_if
  | |- tells (mret _) => by apply tells_mute, keeps_ret
  | |- tells (begin_op _ _) => by apply tells_mute, mutes_begin_op
  end.
Ltac tell :=
  repeat tell_step;
  auto using mutes_cancel_operations, mutes_finish_deadline, mutes_begin_deadline, mutes_acquire, mutes_shrink,
    mutes_give_back, mutes_assign_permit, mutes_assign_block, tells_complete_stream.

(** The request is that of the exchange. *)
Lemma tells_request (k : HttpRequest -> Handler) :
  tells (k request) -> tells (q ← reads (fun s => xc_request (ex_config s)); k q).
Proof. intros Hk s H. do 2 wp_step. pose proof H as (_ & _ & ->). by apply Hk. Qed.

Lemma tells_fail stage e : tells (fail dump w stage e).
Proof. unfold fail. tell. apply tells_complete, T_failure. left. by eexists. Qed.
Lemma tells_reject bytes : tells (reject_buffer_budget dump w bytes).
Proof. unfold reject_buffer_budget. tell. apply tells_complete, T_failure. right. by eexists. Qed.
Lemma tells_finish_response p : parsed0 = Some p -> tells (finish_response w p).
Proof.
  intros Hp. unfold finish_response. do 4 (apply tells_bind; [repeat keep_step; auto using mutes_finish_deadline, mutes_give_back|intros ?]).
  apply tells_request. tell. by apply tells_complete, T_response.
Qed.
Lemma tells_finish_stream p : T (out_finish None false) -> tells (finish_stream w p).
Proof. intros HT. unfold finish_stream. tell. Qed.

Lemma tells_deliver o final : piece o final -> T o -> tells (deliver w o final).
Proof.
  intros Ho HT s (Hl & Hr & _). unfold deliver. wp_step. wp_step. wp_step. wp_step. wp_step.
  - destruct a. right. right. exists o, final. split; [done|]. split; [done|]. rewrite <- Hl, <- Hr.
    split; [done|]. split; [done|assumption].
  - right. exists o, final. split; [done|]. split; [done|]. by rewrite <- Hl.
Qed.

Lemma tells_send_header p : parsed0 = Some p -> tells (send_header w p).
Proof.
  intros Hp. unfold send_header. tell_step. apply tells_request. repeat tell_step. by apply tells_deliver; [|apply T_header].
Qed.

(** The handlers; a handler that succeeds after the final block is told so. *)
Lemma tells_event event :
  event <> xe_cancel -> (forall p, event_parsed event = Some p -> parsed0 = Some p) ->
  match event with xe_deadline _ _ => True | _ => forall d, T (out_finish None d) end ->
  exists m, event_handler dump w event = run_handler m /\ tells m.
Proof.
  intros Hc Hp HT. destruct event; [done|..]; cbn in Hp; eexists; (split; [reflexivity|]).
  - unfold on_resolve. tell. apply tells_fail.
  - unfold on_connect, write_request. tell; apply tells_fail.
  - unfold on_handshake, write_request. tell. apply tells_fail.
  - unfold on_write. tell. apply tells_fail.
  - unfold on_read_header. tell; try apply tells_fail.
    + unfold start_stream. tell; try apply tells_fail; try apply tells_send_header.
      all: try (by apply Hp).
      destruct a2; [|apply tells_reject]. tell. by apply tells_send_header, Hp.
    + unfold on_whole_header. tell; [apply tells_fail|]. destruct (plan_kind _); tell; try apply tells_fail.
      * by apply tells_finish_response, Hp.
      * destruct a0; tell. apply tells_reject.
  - unfold on_read_body. tell; try apply tells_fail. by apply tells_finish_response, Hp.
  - unfold on_read_block, read_stream_block. tell; try apply tells_fail. apply tells_deliver; [done|]. by apply T_body, Hp.
  - unfold on_resume, read_stream_block. tell. destruct a; [by apply tells_finish_stream|tell].
  - unfold on_deadline. tell. apply tells_fail.
Qed.

(** What a handler leaves, its exceptions handled. *)
Definition said (s : Exchange) : Prop :=
  spoken s \/
  exists o final, piece o final /\ T o /\
    (log_of s = l0 ++ [o; out_abort] \/ log_of s = l0 ++ [o] /\ co_claimed (ex_completion s) = true).

Lemma run_says (m : Handler) s : tells m -> muted s -> said (run (run_handler m) s).
Proof.
  intros Hm H. apply run_wp. unfold run_handler, run_proxy_handler_action, claim. wp_step.
  eapply wp_mono; [by apply Hm|by left|]. intros s' Hb.
  assert (Hcancel : forall (Q : unit -> Exchange -> Prop) s1,
    (forall s2, log_of s2 = log_of s1 -> resumes s2 = resumes s1 ->
       co_claimed (ex_completion s2) = co_claimed (ex_completion s1) ->
       xc_request (ex_config s2) = xc_request (ex_config s1) -> Q tt s2) ->
    wp cancel_operations Q said s1).
  { intros Q s1 HQ. unfold cancel_operations, close_upstream. repeat wp_step.
    destruct (io_connection _); wp_step; by apply HQ. }
  destruct Hb as [Hb|(o & final & Ho & HT & Hl)]; wp_step; wp_step; wp_step; wp_step; repeat wp_step.
  all: try (cbn in *; congruence).
  all: try (left; left; exact Hb).
  all: try (right; exists o, final; split; [done|]; split; [done|]; right; split; [done|cbn in *; congruence]).
  all: apply Hcancel; intros s2 E1 E2 E3 E4.
  - eapply wp_mono; [apply wp_notify|..]; [|by left|done]. destruct Hb as (Hl & Hr & Hq). split; [by rewrite E1|split; [by rewrite E2|by rewrite E4]].
  - unfold notify_abort. repeat wp_step; right; exists o, final; (split; [done|]); (split; [done|]).
    + left. change (log_of s2 ++ [out_abort] = l0 ++ [o; out_abort]). rewrite E1.
      change (log_of s' ++ [out_abort] = l0 ++ [o; out_abort]). by rewrite Hl, <- app_assoc.
    + right. split; [exact (eq_trans E1 Hl)|exact E3].
Qed.

End Walk.

(** ** One step *)

(** The outcomes of a deadline. *)
Definition deadline_tells (event : ExEvent) (o : ExOutput) : Prop :=
  match event, o with
  | xe_deadline _ _, out_finish None _ => False
  | _, _ => True
  end.

(** What a delivered response, a header and a block come from: what the parser of the
    exchange has read when the handler runs. *)
Definition read_by (request : HttpRequest) (event : ExEvent) (o : ExOutput) : Prop :=
  match o with
  | out_complete r =>
      pr_failure r = None -> pr_rejected r = None ->
      exists p, event_parsed event = Some p /\ pr_response r = make_downstream_response request (ps_message p)
  | out_header header final =>
      exists p, event_parsed event = Some p /\ header = stream_header request p /\ final = ps_done p
  | out_body _ final => exists p, event_parsed event = Some p /\ final = ps_done p
  | out_abort | out_finish _ _ => True
  end.

Definition event_tells (request : HttpRequest) (event : ExEvent) (o : ExOutput) : Prop :=
  deadline_tells event o /\ read_by request event o.

Lemma ex_step_says w event request s :
  event <> xe_cancel -> xc_request (ex_config s) = request ->
  said w (log_of s) (resumes (arrive event s)) request (event_tells request event) (ex_step dump w event s).
Proof.
  intros Hc Hq. unfold ex_step.
  assert (Hd : forall o, (forall f d, o <> out_finish f d) -> deadline_tells event o)
    by (intros o Ho; destruct event, o as [| | | |[] d]; try done; by destruct (Ho None d)).
  assert (Hfail : forall r, is_Some (pr_failure r) \/ is_Some (pr_rejected r) -> event_tells request event (out_complete r)).
  { intros r Hr. split; [by apply Hd|]. intros E1 E2. rewrite E1, E2 in Hr. by destruct Hr as [[]|[]]. }
  assert (Habort : event_tells request event out_abort) by (split; [by apply Hd|done]).
  destruct (tells_event w (log_of s) (resumes (arrive event s)) request (event_parsed event) (event_tells request event))
    with (event := event) as (m & -> & Hm); try done.
  - intros p permit Hp. split; [by apply Hd|]. intros _ _. by exists p.
  - intros p Hp. split; [by apply Hd|]. by exists p.
  - intros p bytes Hp. split; [by apply Hd|]. by exists p.
  - destruct event; by try split.
  - eapply run_says; [exact Habort|exact Hm|]. split; [by destruct event|]. split; [done|by destruct event].
Qed.

(** A step of an exchange that waits. *)
Inductive ExStepped (w : ExWorld) (event : ExEvent) (s s' : Exchange) (request : HttpRequest) : Prop :=
  | stepped_silent :
      waiting dump request s' -> log_of s' = log_of s -> resumes s' = resumes (arrive event s) ->
      ExStepped w event s s' request
  | stepped_ended o :
      ended dump request false s' -> log_of s' = log_of s ++ [o] -> terminal o -> deadline_tells event o ->
      ExStepped w event s s' request
  | stepped_piece o final :
      waiting dump request s' -> log_of s' = log_of s ++ [o] -> piece o final -> resumes s' = [final] ->
      resumes (arrive event s) = [] -> xw_callback w = Ok tt -> ExStepped w event s s' request
  | stepped_aborted o final :
      ended dump request false s' -> log_of s' = log_of s ++ [o; out_abort] -> piece o final ->
      ExStepped w event s s' request.

Lemma waiting_not_over request s : waiting dump request s -> log_phase (log_of s) <> Some lp_over.
Proof. intros (op & _ & _ & [_ Hf] & _). destruct op as [| | | | | | |[]]; destruct Hf as [-> _]; done. Qed.

Lemma ended_over request s : ended dump request false s -> log_phase (log_of s) = Some lp_over.
Proof. intros (_ & _ & _ & _ & _ & p & Hp & Ho). by rewrite Hp, Ho. Qed.

Lemma log_next_piece p o final p' : piece o final -> log_next p o = Some p' -> p' <> lp_over.
Proof. destruct p, o as [| | | |[]]; cbn; intros; simplify_eq; try done; by destruct final. Qed.

Lemma log_next_terminal p o p' : terminal o -> log_next p o = Some p' -> p' = lp_over.
Proof. by destruct p, o as [| | | |[] []]; cbn; intros; simplify_eq. Qed.

Lemma log_phase_next (l : list ExOutput) o p' :
  log_phase (l ++ [o]) = Some p' -> exists p, log_phase l = Some p /\ log_next p o = Some p'.
Proof. rewrite log_phase_snoc. destruct (log_phase l) as [p|]; [|done]. intros H. by exists p. Qed.

Lemma ex_step_cases w event s request :
  waiting dump request s -> ex_enabled s event -> event <> xe_cancel ->
  ExStepped w event s (ex_step dump w event s) request.
Proof.
  intros Hw Hen Hc. pose proof (ex_step_ok dump request false w event s (or_introl Hw) Hen) as Hs.
  replace (false || _) with false in Hs by (by destruct event). pose proof (waiting_not_over _ _ Hw) as Hno.
  assert (Hq : xc_request (ex_config s) = request) by (destruct Hw as (op & ((? & _) & _) & _); done).
  pose proof (ex_step_says w event request s Hc Hq) as Hsaid.
  set (s' := ex_step dump w event s) in *. clearbody s'.
  destruct Hs as [Hs|Hs].
  - assert (Hno' := waiting_not_over _ _ Hs).
    assert (Hph : exists p, log_phase (log_of s') = Some p /\ p <> lp_over /\ co_claimed (ex_completion s') = false).
    { destruct Hs as (op & ((_ & _ & Hcl & _) & _) & _ & [_ Hf] & _).
      destruct op as [| | | | | | |[]]; destruct Hf as [Hf _]; eexists; by split_and!. }
    destruct Hph as (p' & Hp' & Hne & Hcl).
    destruct Hsaid as [[(Hl & Hr & _)|[(o & Ho & HT & Hl)|(o & final & Ho & _ & Hl & Hr & Hcb)]]|(o & final & Ho & _ & [Hl|[_ Hl]])].
    + by eapply stepped_silent.
    + exfalso. rewrite Hl in Hp'. destruct (log_phase_next _ _ _ Hp') as (p & _ & Hn).
      by apply Hne, (log_next_terminal p o).
    + destruct Hs as (op & Hrest). assert (Hr0 : resumes (arrive event s) = []).
      { destruct Hrest as (_ & Hpend & _). unfold resumes in Hr at 1. rewrite Hpend in Hr. cbn in Hr.
        destruct (match op with xo_resume f => Some f | _ => None end); by simplify_eq. }
      eapply (stepped_piece _ _ _ _ _ o final); try done; [by exists op|by rewrite Hr, Hr0].
    + exfalso. rewrite Hl in Hp'. change [o; out_abort] with ([o] ++ [out_abort]) in Hp'. rewrite app_assoc in Hp'.
      destruct (log_phase_next _ _ _ Hp') as (p & _ & Hn). by apply Hne, (log_next_terminal p out_abort).
    + congruence.
  - pose proof (ended_over _ _ Hs) as Hov.
    destruct Hsaid as [[(Hl & Hr & _)|[(o & Ho & HT & Hl)|(o & final & Ho & _ & Hl & Hr & Hcb)]]|(o & final & Ho & _ & [Hl|[Hl _]])].
    + congruence.
    + eapply stepped_ended; try done. apply HT.
    + exfalso. rewrite Hl in Hov. destruct (log_phase_next _ _ _ Hov) as (p & _ & Hn).
      by apply (log_next_piece p o final lp_over).
    + by eapply stepped_aborted.
    + exfalso. rewrite Hl in Hov. destruct (log_phase_next _ _ _ Hov) as (p & _ & Hn).
      by apply (log_next_piece p o final lp_over).
Qed.

(** ** Outcomes *)

(** A handler tells what the event gives, whatever it meets. *)
Lemma step_told budget selected request cancelled w event s :
  ex_reachable dump budget selected request cancelled s ->
  exists told, log_of (ex_step dump w event s) = log_of s ++ told /\ Forall (event_tells request event) told.
Proof.
  intros H. pose proof (ex_reachable_ok _ _ _ _ _ _ H) as Hs.
  assert (Hq : xc_request (ex_config s) = request) by (destruct Hs as [(op & ((? & _) & _) & _)|(? & _)]; done).
  assert (Hcase : event = xe_cancel \/ event <> xe_cancel) by (by destruct event; auto).
  destruct Hcase as [->|Hc].
  { exists []. rewrite app_nil_r. split; [|done]. unfold ex_step. cbn [event_handler]. apply ex_cancel_log. }
  assert (Habort : event_tells request event out_abort) by (split; [by destruct event|done]).
  destruct (ex_step_says w event request s Hc Hq)
    as [[[Hl _]|[(o & _ & Ho & Hl)|(o & final & _ & Ho & Hl & _)]]|(o & final & _ & Ho & [Hl|[Hl _]])]; rewrite Hl.
  - exists []. by rewrite app_nil_r.
  - exists [o]. split; [done|by apply Forall_singleton].
  - exists [o]. split; [done|by apply Forall_singleton].
  - exists [o; out_abort]. split; [done|]. by apply Forall_cons; split; [|apply Forall_singleton].
  - exists [o]. split; [done|by apply Forall_singleton].
Qed.

(** C18: every outcome of an exchange becomes the response the table of outcomes asks for.  A
    timeout is answered 504 and any other failure 502, a refused reservation 503, with no
    upstream byte in it; a delivered response has a final status, and exactly its body is
    reserved, at most 1 MiB; a streamed response announces at most the maximal length,
    without Upgrade, and until the exchange is over its last block is within the bytes
    reserved for blocks, at most 16384.  A handler tells only what its own event read:
    the response, the header and whether a block is the last come from what the parser has
    read when it runs. *)
Theorem exchange_outcomes_classified budget selected request cancelled s :
  ex_reachable dump budget selected request cancelled s ->
  Forall (output_ok dump request) (log_of s) /\
  (forall bytes final, co_claimed (ex_completion s) = false -> last (log_of s) = Some (out_body bytes final) ->
     bytes <= reserved_bytes (io_block (ex_io s)).2 <= 16384) /\
  forall w event,
    exists told, log_of (ex_step dump w event s) = log_of s ++ told /\ Forall (event_tells request event) told.
Proof.
  intros H. split; [|split; [|intros w event; by eapply step_told]].
  - destruct (ex_reachable_ok _ _ _ _ _ _ H) as [(op & (Ho & _) & _)|He]; [apply Ho|apply He].
  - intros bytes final Hc Hl. destruct (ex_reachable_ok _ _ _ _ _ _ H) as [(op & _ & _ & [Hb _] & _)|(_ & _ & Hcl & _)]; [|congruence].
    unfold block_ok in Hb. destruct (io_block (ex_io s)) as [n permit]. destruct Hb as (Hn & Hp & Hb).
    specialize (Hb _ Hl). cbn in *. unfold max_stream_block in Hn. lia.
Qed.

End Telling.

(** ** Witness *)

Lemma exchange_outcomes_classified_witness :
  length (log_of sample_over) = 1%nat /\ Forall (output_ok sample_dump sample_request) (log_of sample_over).
Proof.
  split; [by vm_compute|].
  apply (exchange_outcomes_classified sample_dump 0 sample_selected sample_request false). apply sample_over_reachable.
Defined.
