(* ===== verification/Transport.v ===== *)
(** * The downstream transport (src/downstream_transport.cpp, src/stream_response.hpp)

    The adapter between a session and its connection: it has the plain stream of the socket
    or, when it is made with a TLS context, a TLS stream over it, and forwards each operation
    to the one it has.  What Beast and OpenSSL do with the operation is not in the source.
    An operation of the model tells the stream it runs on, [None] when the source would go
    through a null pointer. *)

From S2P Require Import Prelude Text ConfigTypes Errors Http.

Local Open Scope Z_scope.

Section Transport.
Context {B : BeastHttp}.

(** ** The stream *)

Inductive Stream := tcp_stream | ssl_stream.

Record DownstreamTransport := mkTransport {
  context_ : TlsHandle;
  plain_ : option Stream;             (* [None] once moved into [tls_] *)
  tls_ : option Stream }.

(** The constructor of [Impl]. *)
Definition make_DownstreamTransport (context : TlsHandle) : DownstreamTransport :=
  match context with
  | Some _ => mkTransport context None (Some ssl_stream)
  | None => mkTransport context (Some tcp_stream) None
  end.

Definition is_tls (t : DownstreamTransport) : bool :=
  match tls_ t with Some _ => true | None => false end.

(** [with_stream]; [transport], [socket], [get_executor] and [expires_after] go to the lowest
    layer of the same stream. *)
Definition with_stream (t : DownstreamTransport) : option Stream :=
  match tls_ t with Some s => Some s | None => plain_ t end.

(** ** The writer of a streamed response *)

(** The message of a [StreamWriter]: the header, and the [buffer_body] that says what the
    serializer writes next. *)
Record StreamWriter := mkWriter {
  wr_response : HttpResponse;
  wr_size : Z;
  wr_more : bool }.

(** Only the header is taken; the body is a fresh [buffer_body::value_type]. *)
Definition make_StreamWriter (header : HttpResponse) : StreamWriter :=
  mkWriter (mkResponse (rs_status header) (rs_reason header) (rs_version header) (rs_fields header) []) 0 true.

Definition set_body (bytes : Z) (final : bool) (w : StreamWriter) : StreamWriter :=
  mkWriter (wr_response w) bytes (negb final).

(** ** Operations *)

Definition async_handshake (t : DownstreamTransport) : option Stream := tls_ t.
Definition async_shutdown (t : DownstreamTransport) : option Stream := tls_ t.
Definition async_read_header (t : DownstreamTransport) : option Stream := with_stream t.
Definition async_read (t : DownstreamTransport) : option Stream := with_stream t.
Definition async_write (t : DownstreamTransport) : option Stream := with_stream t.

(** Both go through the writer. *)
Definition async_stream_header (t : DownstreamTransport) (writer : option StreamWriter) : option Stream :=
  match writer with Some _ => with_stream t | None => None end.
Definition async_stream_body (t : DownstreamTransport) (writer : option StreamWriter) (bytes : Z) (final : bool)
    : option (StreamWriter * Stream) :=
  w ← writer;
  s ← with_stream t;
  Some (set_body bytes final w, s).

(** The completion of [async_stream_body]: the serializer asks for the next block by an error
    of its own, once a block is written.  The other operations hand on their error. *)
Definition stream_error (body final : bool) (e : error_code) : error_code :=
  if body && negb final && error_is e need_buffer then no_error else e.

(** ** Laws *)

(** There is a stream, and it is one of TLS exactly when there is a context. *)
Lemma transport_stream context :
  with_stream (make_DownstreamTransport context) = Some (if is_tls (make_DownstreamTransport context) then ssl_stream else tcp_stream) /\
  is_tls (make_DownstreamTransport context) = bool_decide (is_Some context).
Proof. by destruct context. Qed.

Lemma transport_tls context :
  is_tls (make_DownstreamTransport context) = true -> tls_ (make_DownstreamTransport context) = Some ssl_stream.
Proof. by destruct context. Qed.

End Transport.
