(* ===== verification/Session.v ===== *)
(** * One connection (src/http_server.cpp, [HttpSession])

    A session reads requests from its connection one after the other, answers each one
    itself or through a proxied exchange, and closes.  It shares the pool, the body budget,
    the proxy slots, the admission and the metrics with the other sessions.  Its
    exchange is the one of Exchange.v, run over the session's shared state: the callbacks it
    makes are handled by the session in the order they are made. *)

From Stdlib Require Import Floats.SpecFloat.
From S2P Require Import Prelude Text ConfigTypes Errors Http RateLimit Permits BufferBudget HealthState.
From S2P Require Import UpstreamPool ApiKeyAuth HttpHandler Admission ProxyMessage HealthCheck.
From S2P Require Import ServerState Server Metrics Handlers Exchange Transport.

Local Open Scope Z_scope.

Definition max_body_bytes : Z := 64 * 1024.
Definition max_requests_per_connection : Z := 100.

(** The operations of the transport.  A streamed write, of the header or of a block, resumes
    the exchange when it completes. *)
Inductive SeOp :=
  | so_handshake | so_read_header | so_read_body | so_write (close_after_write : bool)
  | so_stream (body : bool) (final : bool) | so_shutdown.

#[export] Instance SeOp_eq_dec : EqDecision SeOp.
Proof. solve_decision. Defined.

(** The request body permits that [shared_ptr]s own: each with the number of its owners. *)
Notation Objects := (gmap nat (BufferBudgetPermit * nat)).

Section Session.
Context {B : BeastHttp}.
Variable dump : Json -> text.
Variable evp_digest : text -> option ApiKeyDigest.
Variable double_chars : spec_float -> option text.
Variable config : AppConfig.

(** ** State *)

(** What the request parser has read so far. *)
Record Incoming := mkIncoming {
  in_request : HttpRequest;
  in_content_length : option Z;
  in_done : bool }.

Definition empty_Incoming : Incoming := mkIncoming (mkRequest get [] 11 no_fields []) None false.

(** The exchange in progress, the method of its request, and its pointer to the permit of
    the request body. *)
Record Slot := mkSlot {
  sl_exchange : Exchange;
  sl_method : verb;
  sl_permit : option nat }.

(** What the sessions of a server share. *)
Record GateShared := mkGate {
  sh_pool : option UpstreamPool;
  sh_heap : list BufferBudgetControl;
  sh_budget : nat;
  sh_proxies : list ProxyAdmissionState;
  sh_admission : RouteProxyAdmission;
  sh_metrics : option Metrics }.

Record SeFlags := mkFlags {
  fl_tls : bool;
  fl_established : bool;
  fl_phase : SessionPhase;
  fl_draining : bool;
  fl_stopping : bool;
  fl_finished : bool;
  fl_closes : nat;                     (* calls of [on_close_] *)
  fl_served : Z }.                     (* [requests_served_] *)

Record SeMessages := mkMessages {
  ms_observation : RequestObservation;
  ms_parser : option Incoming;
  ms_request_permit : option nat;
  ms_response : option HttpResponse;
  ms_response_permit : BufferBudgetPermit;
  ms_stream_bytes : Z;
  ms_stream_status : Z;
  ms_stream_close : bool;
  ms_stream_writer : option StreamWriter }.

Record SeProxy := mkProxy {
  px_slot : option Slot;               (* [proxy_exchange_] *)
  px_permit : option ProxyPermit;      (* [proxy_permit_] *)
  px_orphans : list Slot;              (* exchanges let go of, until their handlers have run *)
  px_objects : Objects;
  px_next : nat }.

(** What has happened on the connection: a request was read for, an answer was begun, the
    start of an exchange threw. *)
Inductive SeEntry := entry_read | entry_reply (status : Z) | entry_start_failed.

Record Session := mkSession {
  se_flags : SeFlags;
  se_messages : SeMessages;
  se_proxy : SeProxy;
  se_pending : list SeOp;
  se_log : list SeEntry;
  se_shared : GateShared }.

Definition upd_flags (f : SeFlags -> SeFlags) (s : Session) : Session :=
  mkSession (f (se_flags s)) (se_messages s) (se_proxy s) (se_pending s) (se_log s) (se_shared s).
Definition upd_messages (f : SeMessages -> SeMessages) (s : Session) : Session :=
  mkSession (se_flags s) (f (se_messages s)) (se_proxy s) (se_pending s) (se_log s) (se_shared s).
Definition upd_proxy (f : SeProxy -> SeProxy) (s : Session) : Session :=
  mkSession (se_flags s) (se_messages s) (f (se_proxy s)) (se_pending s) (se_log s) (se_shared s).
Definition upd_pending (f : list SeOp -> list SeOp) (s : Session) : Session :=
  mkSession (se_flags s) (se_messages s) (se_proxy s) (f (se_pending s)) (se_log s) (se_shared s).
Definition upd_log (e : SeEntry) (s : Session) : Session :=
  mkSession (se_flags s) (se_messages s) (se_proxy s) (se_pending s) (se_log s ++ [e]) (se_shared s).
Definition upd_shared (f : GateShared -> GateShared) (s : Session) : Session :=
  mkSession (se_flags s) (se_messages s) (se_proxy s) (se_pending s) (se_log s) (f (se_shared s)).

Definition set_established : Session -> Session := upd_flags (fun f =>
  mkFlags (fl_tls f) true (fl_phase f) (fl_draining f) (fl_stopping f) (fl_finished f) (fl_closes f) (fl_served f)).
Definition set_phase (p : SessionPhase) : Session -> Session := upd_flags (fun f =>
  mkFlags (fl_tls f) (fl_established f) p (fl_draining f) (fl_stopping f) (fl_finished f) (fl_closes f) (fl_served f)).
Definition set_draining : Session -> Session := upd_flags (fun f =>
  mkFlags (fl_tls f) (fl_established f) (fl_phase f) true (fl_stopping f) (fl_finished f) (fl_closes f) (fl_served f)).
Definition set_stopping : Session -> Session := upd_flags (fun f =>
  mkFlags (fl_tls f) (fl_established f) (fl_phase f) (fl_draining f) true (fl_finished f) (fl_closes f) (fl_served f)).
(** [finished_ = true; phase_ = finished; on_close_(this);] *)
Definition set_finished : Session -> Session := upd_flags (fun f =>
  mkFlags (fl_tls f) (fl_established f) finished (fl_draining f) (fl_stopping f) true (S (fl_closes f)) (fl_served f)).
Definition count_request : Session -> Session := upd_flags (fun f =>
  mkFlags (fl_tls f) (fl_established f) (fl_phase f) (fl_draining f) (fl_stopping f) (fl_finished f) (fl_closes f)
    (u64 (fl_served f + 1))).

Definition set_observation (o : RequestObservation) : Session -> Session := upd_messages (fun m =>
  mkMessages o (ms_parser m) (ms_request_permit m) (ms_response m) (ms_response_permit m) (ms_stream_bytes m)
    (ms_stream_status m) (ms_stream_close m) (ms_stream_writer m)).
Definition set_parser (p : option Incoming) : Session -> Session := upd_messages (fun m =>
  mkMessages (ms_observation m) p (ms_request_permit m) (ms_response m) (ms_response_permit m) (ms_stream_bytes m)
    (ms_stream_status m) (ms_stream_close m) (ms_stream_writer m)).
Definition set_request_permit (p : option nat) : Session -> Session := upd_messages (fun m =>
  mkMessages (ms_observation m) (ms_parser m) p (ms_response m) (ms_response_permit m) (ms_stream_bytes m)
    (ms_stream_status m) (ms_stream_close m) (ms_stream_writer m)).
Definition set_response (r : option HttpResponse) : Session -> Session := upd_messages (fun m =>
  mkMessages (ms_observation m) (ms_parser m) (ms_request_permit m) r (ms_response_permit m) (ms_stream_bytes m)
    (ms_stream_status m) (ms_stream_close m) (ms_stream_writer m)).
Definition set_response_permit (p : BufferBudgetPermit) : Session -> Session := upd_messages (fun m =>
  mkMessages (ms_observation m) (ms_parser m) (ms_request_permit m) (ms_response m) p (ms_stream_bytes m)
    (ms_stream_status m) (ms_stream_close m) (ms_stream_writer m)).
Definition set_stream_bytes (n : Z) : Session -> Session := upd_messages (fun m =>
  mkMessages (ms_observation m) (ms_parser m) (ms_request_permit m) (ms_response m) (ms_response_permit m) n
    (ms_stream_status m) (ms_stream_close m) (ms_stream_writer m)).
Definition set_stream (status : Z) (close : bool) : Session -> Session := upd_messages (fun m =>
  mkMessages (ms_observation m) (ms_parser m) (ms_request_permit m) (ms_response m) (ms_response_permit m)
    (ms_stream_bytes m) status close (ms_stream_writer m)).
Definition set_writer (writer : option StreamWriter) : Session -> Session := upd_messages (fun m =>
  mkMessages (ms_observation m) (ms_parser m) (ms_request_permit m) (ms_response m) (ms_response_permit m)
    (ms_stream_bytes m) (ms_stream_status m) (ms_stream_close m) writer).

Definition set_slot (slot : option Slot) : Session -> Session := upd_proxy (fun p =>
  mkProxy slot (px_permit p) (px_orphans p) (px_objects p) (px_next p)).
Definition set_proxy_permit (permit : option ProxyPermit) : Session -> Session := upd_proxy (fun p =>
  mkProxy (px_slot p) permit (px_orphans p) (px_objects p) (px_next p)).
Definition set_orphans (l : list Slot) : Session -> Session := upd_proxy (fun p =>
  mkProxy (px_slot p) (px_permit p) l (px_objects p) (px_next p)).
Definition set_objects (o : Objects) (next : nat) : Session -> Session := upd_proxy (fun p =>
  mkProxy (px_slot p) (px_permit p) (px_orphans p) o next).

Definition set_gate_pool (pool : option UpstreamPool) : Session -> Session := upd_shared (fun w =>
  mkGate pool (sh_heap w) (sh_budget w) (sh_proxies w) (sh_admission w) (sh_metrics w)).
Definition set_gate_heap (heap : list BufferBudgetControl) : Session -> Session := upd_shared (fun w =>
  mkGate (sh_pool w) heap (sh_budget w) (sh_proxies w) (sh_admission w) (sh_metrics w)).
Definition set_proxies (proxies : list ProxyAdmissionState) : Session -> Session := upd_shared (fun w =>
  mkGate (sh_pool w) (sh_heap w) (sh_budget w) proxies (sh_admission w) (sh_metrics w)).
Definition set_admission (adm : RouteProxyAdmission) : Session -> Session := upd_shared (fun w =>
  mkGate (sh_pool w) (sh_heap w) (sh_budget w) (sh_proxies w) adm (sh_metrics w)).
Definition set_metrics (m : option Metrics) : Session -> Session := upd_shared (fun w =>
  mkGate (sh_pool w) (sh_heap w) (sh_budget w) (sh_proxies w) (sh_admission w) m).

Definition Handling := M Session unit.

(** What the world answers during one handler: whether starting an operation, logging
    outside the helpers that swallow exceptions, or building a message throws; the time; the
    identity of a new connection; what the exchange sees; the state of the server.  Handing
    a streamed message to the transport throws as [xw_callback] says. *)
Record SeWorld := mkSeWorld {
  sw_begin : SeOp -> result unit;
  sw_logs : result unit;
  sw_builds : result unit;
  sw_recovers : result unit;           (* building the answer after an exception *)
  sw_now : Z;
  sw_id : nat;
  sw_exchange : ExWorld;
  sw_view : ServerView }.

(** ** Pointers to body permits *)

Definition share_object (id : option nat) : Handling := modify (fun s =>
  match id with
  | Some i =>
      match px_objects (se_proxy s) !! i with
      | Some (p, n) => set_objects (<[i := (p, S n)]> (px_objects (se_proxy s))) (px_next (se_proxy s)) s
      | None => s
      end
  | None => s
  end).

(** The last owner's end releases the permit. *)
Definition drop_object (id : option nat) : Handling := modify (fun s =>
  match id with
  | Some i =>
      match px_objects (se_proxy s) !! i with
      | Some (p, S (S n)) => set_objects (<[i := (p, S n)]> (px_objects (se_proxy s))) (px_next (se_proxy s)) s
      | Some (p, _) =>
          set_objects (delete i (px_objects (se_proxy s))) (px_next (se_proxy s))
            (set_gate_heap (release (sh_heap (se_shared s)) p).1 s)
      | None => s
      end
  | None => s
  end).

Definition reset_request_permit : Handling :=
  id ← reads (fun s => ms_request_permit (se_messages s));
  modify (set_request_permit None);;
  drop_object id.

(** [request_body_permit_ = std::make_shared<BufferBudgetPermit>(...)] *)
Definition make_object (p : BufferBudgetPermit) : Handling :=
  reset_request_permit;;
  modify (fun s =>
    let next := px_next (se_proxy s) in
    set_request_permit (Some next) (set_objects (<[next := (p, 1%nat)]> (px_objects (se_proxy s))) (S next) s)).

(** ** The exchange *)

(** The exchange over the session's shared state, and back. *)
Definition load_exchange (w : GateShared) (x : Exchange) : Exchange :=
  set_shared (mkExShared (sh_pool w) (sh_heap w) (xs_log (ex_shared x))) x.
Definition store_exchange (x : Exchange) (s : Session) : Session :=
  set_gate_pool (xs_pool (ex_shared x)) (set_gate_heap (xs_heap (ex_shared x)) s).

(** [proxy_exchange_.reset()] *)
Definition reset_exchange : Handling := modify (fun s =>
  match px_slot (se_proxy s) with
  | Some slot => set_slot None (set_orphans (px_orphans (se_proxy s) ++ [slot]) s)
  | None => s
  end).

(** [if (proxy_exchange_) { proxy_exchange_->cancel(); proxy_exchange_.reset(); }] *)
Definition cancel_exchange : Handling :=
  modify (fun s =>
    match px_slot (se_proxy s) with
    | Some slot =>
        let x := run ex_cancel (load_exchange (se_shared s) (sl_exchange slot)) in
        set_slot (Some (mkSlot x (sl_method slot) (sl_permit slot))) (store_exchange x s)
    | None => s
    end);;
  reset_exchange.

(** [proxy_permit_.reset()] *)
Definition reset_proxy_permit : Handling := modify (fun s =>
  match px_permit (se_proxy s) with
  | Some p => set_proxies (permit_release (sh_proxies (se_shared s)) p).1 (set_proxy_permit None s)
  | None => s
  end).

(** ** Closing *)

Definition se_finish : Handling :=
  finished ← reads (fun s => fl_finished (se_flags s));
  if finished : bool then mret tt else modify set_finished.

Definition close_socket : Handling :=
  finished ← reads (fun s => fl_finished (se_flags s));
  if finished : bool then mret tt
  else cancel_exchange;; reset_proxy_permit;; se_finish.

Definition se_stop : Handling :=
  finished ← reads (fun s => fl_finished (se_flags s));
  if finished : bool then mret tt
  else modify set_stopping;; cancel_exchange;; reset_proxy_permit;; se_finish.

Definition se_begin_drain : Handling :=
  idle ← reads (fun s => negb (fl_draining (se_flags s) || fl_finished (se_flags s)));
  if negb idle then mret tt
  else
    modify set_draining;;
    phase ← reads (fun s => fl_phase (se_flags s));
    match classify_session_drain phase with
    | close_immediately => se_stop
    | wait_for_current | drain_ignored => mret tt
    end.

(** [run_handler] *)
Definition handle (action : Handling) : Handling := try_catch action close_socket.

Definition start_op (w : SeWorld) (op : SeOp) : Handling :=
  answer (sw_begin w op);;
  modify (upd_pending (fun ops => op :: ops)).

Definition graceful_close (w : SeWorld) : Handling :=
  over ← reads (fun s => fl_finished (se_flags s) || bool_decide (fl_phase (se_flags s) = closing));
  if over : bool then mret tt
  else
    plain ← reads (fun s => negb (fl_tls (se_flags s)) || negb (fl_established (se_flags s)));
    if plain : bool then close_socket
    else
      modify (set_phase closing);;
      try_catch (start_op w so_shutdown) close_socket.

(** ** Reading and answering *)

Definition read_request (w : SeWorld) : Handling :=
  leaving ← reads (fun s => fl_stopping (se_flags s) || fl_draining (se_flags s));
  if leaving : bool then close_socket
  else
    modify (set_observation fresh_observation);;
    modify (set_phase reading);;
    modify (set_parser (Some empty_Incoming));;
    modify (upd_log entry_read);;
    start_op w so_read_header.

(** [observation_.finish(...)] *)
Definition finish_observation (w : SeWorld) (status : Z) : M Session bool := fun s =>
  let '(first, o, m) := Metrics.finish (ms_observation (se_messages s)) (sh_metrics (se_shared s)) status (sw_now w) in
  (set_metrics m (set_observation o s), Ok first).
Definition reject_observation (reason : RejectionReason) : Handling := modify (fun s =>
  let '(o, m) := Metrics.reject (ms_observation (se_messages s)) (sh_metrics (se_shared s)) reason in
  set_metrics m (set_observation o s)).
Definition fail_observation (stage : ProxyFailureStage) : Handling := modify (fun s =>
  let '(o, m) := Metrics.fail (ms_observation (se_messages s)) (sh_metrics (se_shared s)) stage in
  set_metrics m (set_observation o s)).
Definition fail_stream_observation (stage : ProxyFailureStage) : Handling := modify (fun s =>
  let '(o, m) := Metrics.fail_stream (ms_observation (se_messages s)) (sh_metrics (se_shared s)) stage in
  set_metrics m (set_observation o s)).

(** The destructor of a [BufferBudgetPermit]. *)
Definition release_permit (p : BufferBudgetPermit) : Handling := modify (fun s =>
  set_gate_heap (release (sh_heap (se_shared s)) p).1 s).

(** Assigning to [response_body_permit_], or releasing it, releases the permit it has. *)
Definition store_response_permit (p : BufferBudgetPermit) : Handling :=
  old ← reads (fun s => ms_response_permit (se_messages s));
  release_permit old;;
  modify (set_response_permit p).

(** [body_permit] is an argument taken by value: it is released when it is not stored. *)
Definition write_response (w : SeWorld) (response : HttpResponse) (body_permit : BufferBudgetPermit) : Handling :=
  over ← reads (fun s => fl_finished (se_flags s) || fl_stopping (se_flags s));
  first ← (if over : bool then mret false else finish_observation w (rs_status response));
  if negb first then release_permit body_permit
  else
    modify (set_phase writing);;
    draining ← reads (fun s => fl_draining (se_flags s));
    let response := if draining : bool then rs_keep_alive false response else response in
    modify (set_response (Some response));;
    store_response_permit body_permit;;
    modify (upd_log (entry_reply (rs_status response)));;
    start_op w (so_write (rs_need_eof response)).

(** The limit of requests on one connection. *)
Definition last_request (s : Session) : bool := max_requests_per_connection <=? fl_served (se_flags s).
Definition limit_connection (last : bool) (response : HttpResponse) : HttpResponse :=
  if last then rs_keep_alive false response else response.

Definition write_limited (w : SeWorld) (response : HttpResponse) : Handling :=
  last ← reads last_request;
  write_response w (limit_connection last response) empty_BudgetPermit.

Definition protocol_error (status : Z) (code message : string) : HttpResponse :=
  let response := HttpResponse_of status 11 in
  let response := rs_set (L "Server") (L "ApiGate") response in
  let response := rs_set (L "Content-Type") (L "application/json") response in
  let response := rs_set (L "Cache-Control") (L "no-store") response in
  let response := rs_keep_alive false response in
  let response := rs_with_body (dump (error_body code message)) response in
  rs_prepare response.

Definition write_protocol_error (w : SeWorld) (status : Z) (code message : string) : Handling :=
  answer (sw_builds w);;
  answer (sw_logs w);;
  write_response w (protocol_error status code message) empty_BudgetPermit.

Definition body_too_large (w : SeWorld) : Handling :=
  write_protocol_error w 413 "payload_too_large" "request body is too large".

Definition handle_read_error (w : SeWorld) (e : error_code) : Handling :=
  if error_is e end_of_stream then graceful_close w
  else if error_is e operation_aborted || error_is e stream_truncated then close_socket
  else if error_is e beast_timeout then answer (sw_logs w);; close_socket
  else if error_is e body_limit then body_too_large w
  else if error_is e header_limit
  then write_protocol_error w 431 "headers_too_large" "request headers are too large"
  else answer (sw_logs w);; write_protocol_error w 400 "bad_request" "malformed HTTP request".

Definition parser_invalid (w : SeWorld) : Handling := answer (sw_logs w);; close_socket.

Definition reject_buffer (w : SeWorld) (request : HttpRequest) : Handling :=
  reject_observation reject_buffer_capacity;;
  answer (sw_builds w);;
  write_response w (rs_keep_alive false (make_gateway_error_response dump request buffer_capacity_exhausted))
    empty_BudgetPermit.

(** ** Proxied requests *)

Definition acquire_admission (w : SeWorld) (route : SelectedRoute) : M Session RouteProxyAdmissionResult := fun s =>
  let '(proxies, adm, r) :=
    admission_try_acquire (sh_proxies (se_shared s)) (view_health (sw_view w)) (sh_admission (se_shared s)) route
      (sw_now w) in
  (set_proxies proxies (set_admission adm s), r).

(** [std::make_shared<HttpProxyExchange>(...)], which shares the body permit. *)
Definition create_exchange (w : SeWorld) (selected : SelectedUpstream) (request : HttpRequest) : Handling := fun s =>
  let '(pool, made) :=
    make_exchange (sw_exchange w) (sw_id w) selected request (upstream_tls_context config)
      (Some (sh_budget (se_shared s))) true true true (sh_pool (se_shared s)) (sh_heap (se_shared s)) in
  let s := set_gate_pool pool s in
  match made with
  | Throw e => (s, Throw e)
  | Ok x =>
      let id := ms_request_permit (se_messages s) in
      let s := run reset_exchange (run (share_object id) s) in
      (set_slot (Some (mkSlot x (rq_method request) id)) s, Ok tt)
  end.

Definition start_exchange (w : SeWorld) : Handling := fun s =>
  match px_slot (se_proxy s) with
  | None => (s, Ok tt)
  | Some slot =>
      let '(x, r) := ex_start (sw_exchange w) (load_exchange (se_shared s) (sl_exchange slot)) in
      (set_slot (Some (mkSlot x (sl_method slot) (sl_permit slot))) (store_exchange x s), r)
  end.

Definition admit_request (w : SeWorld) (request : HttpRequest) (route : SelectedRoute) : Handling :=
  admission ← acquire_admission w route;
  if negb (allowed (ar_rate_limit admission)) then
    reject_observation reject_rate_limit;;
    answer (sw_builds w);;
    write_limited w (make_rate_limited_response dump request (retry_after_seconds (ar_rate_limit admission)))
  else if ar_no_healthy_upstream admission then
    reject_observation reject_no_healthy_upstream;;
    answer (sw_builds w);;
    write_limited w (make_gateway_error_response dump request no_healthy_upstream)
  else
    reset_proxy_permit;;
    modify (set_proxy_permit (ar_permit admission));;
    match ar_permit admission with
    | None =>
        reject_observation reject_proxy_capacity;;
        answer (sw_builds w);;
        write_limited w (make_gateway_error_response dump request gateway_overloaded)
    | Some _ =>
        match ar_upstream admission with
        | None => raise (logic_error "admitted proxy requires an upstream")
        | Some selected =>
            create_exchange w selected request;;
            start_exchange w;;
            modify (set_parser None);;
            reset_request_permit
        end
    end.

(** The answer when starting threw; the exchange, if there is one, is cancelled. *)
Definition admit_failed (w : SeWorld) (request : HttpRequest) : Handling :=
  modify (upd_log entry_start_failed);;
  cancel_exchange;;
  reset_proxy_permit;;
  try_catch
    (answer (sw_recovers w);;
     fail_observation connect;;
     write_response w (make_gateway_error_response dump request bad_gateway) empty_BudgetPermit)
    close_socket.

Definition start_proxy_request (w : SeWorld) (request : HttpRequest) (route : SelectedRoute) : Handling :=
  try_catch (admit_request w request route) (admit_failed w request).

(** ** Requests *)

Definition metrics_body (w : SeWorld) (s : Session) : result text :=
  match sh_metrics (se_shared s) with
  | None => Throw (logic_error "metrics runtime state is missing")
  | Some m =>
      match sh_heap (se_shared s) !! sh_budget (se_shared s), proxies_ (sh_admission (se_shared s)) with
      | Some budget, Some c =>
          match sh_proxies (se_shared s) !! c with
          | Some proxies => render double_chars m config (view_connections (sw_view w)) proxies budget (view_health (sw_view w))
          | None => Throw (logic_error "metrics runtime state is missing")
          end
      | _, _ => Throw (logic_error "metrics runtime state is missing")
      end
  end.

Definition answer_locally (w : SeWorld) (request : HttpRequest) : Handling :=
  answer (sw_builds w);;
  let response := handle_http_request dump config request in
  response ← (if is_metrics_target config (rq_target request) && (rs_status response =? 200) then
                body ← reads (metrics_body w);
                text ← answer body;
                mret (make_metrics_response request text)
              else mret response);
  write_limited w response.

Definition process_request (w : SeWorld) : Handling :=
  parser ← reads (fun s => ms_parser (se_messages s));
  match parser with
  | None => parser_invalid w
  | Some incoming =>
      modify (fun s => set_observation (begin_ (ms_observation (se_messages s)) (sw_now w)) s);;
      modify count_request;;
      let request := in_request incoming in
      match select_http_route config request with
      | Some selected =>
          authenticated ← answer (match sr_auth selected with
                                  | Some auth => authenticate_api_key evp_digest auth request
                                  | None => Ok true
                                  end);
          if negb authenticated then
            answer (sw_builds w);;
            write_limited w (make_authentication_failed_response dump request)
          else
            modify (set_phase proxying);;
            start_proxy_request w request selected
      | None => answer_locally w request
      end
  end.

Definition has_expectation (request : HttpRequest) : bool :=
  existsb (fun value => negb (bool_decide (value = []))) (values_of (L "Expect") (rq_fields request)).

(** [buffer_budget_->try_acquire(bytes)] *)
Definition acquire_body (bytes : Z) : M Session (option BufferBudgetPermit) := fun s =>
  let '(heap, permit) := budget_try_acquire (sh_heap (se_shared s)) (sh_budget (se_shared s)) bytes in
  (set_gate_heap heap s, Ok permit).

Definition on_request_header (w : SeWorld) (e : error_code) : Handling :=
  modify (fun s =>
    match ms_parser (se_messages s) with
    | Some incoming =>
        set_observation (exclude (ms_observation (se_messages s)) (is_metrics_target config (rq_target (in_request incoming)))) s
    | None => s
    end);;
  finished ← reads (fun s => fl_finished (se_flags s));
  if finished : bool then mret tt
  else if failed e then handle_read_error w e
  else
    parser ← reads (fun s => ms_parser (se_messages s));
    match parser with
    | None => parser_invalid w
    | Some incoming =>
        if has_expectation (in_request incoming) then
          write_protocol_error w 417 "expectation_failed" "Expect is not supported"
        else if match in_content_length incoming with Some n => max_body_bytes <? n | None => false end
        then body_too_large w
        else
          let plan := plan_body_reservation (in_content_length incoming) (in_done incoming) max_body_bytes in
          match plan_kind plan with
          | reserve_none => process_request w
          | too_large => body_too_large w
          | reserve =>
              permit ← acquire_body (plan_bytes plan);
              match permit with
              | None => reject_buffer w (in_request incoming)
              | Some permit =>
                  make_object permit;;
                  start_op w so_read_body
              end
          end
    end.

(** [request_body_permit_->shrink_to(...)] *)
Definition shrink_request_permit (bytes : Z) : M Session bool := fun s =>
  match ms_request_permit (se_messages s) with
  | Some i =>
      match px_objects (se_proxy s) !! i with
      | Some (p, n) =>
          let '(heap, p, done) := shrink_to (sh_heap (se_shared s)) p bytes in
          (set_objects (<[i := (p, n)]> (px_objects (se_proxy s))) (px_next (se_proxy s)) (set_gate_heap heap s), Ok done)
      | None => (s, Ok false)
      end
  | None => (s, Ok false)
  end.

Definition on_request_body (w : SeWorld) (e : error_code) : Handling :=
  finished ← reads (fun s => fl_finished (se_flags s));
  if finished : bool then mret tt
  else if failed e then handle_read_error w e
  else
    parser ← reads (fun s => ms_parser (se_messages s));
    match parser with
    | None => close_socket
    | Some incoming =>
        shrunk ← shrink_request_permit (Z.of_nat (length (rq_body (in_request incoming))));
        if negb shrunk then close_socket else process_request w
    end.

(** ** Writing *)

Definition on_written (w : SeWorld) (e : error_code) (close_after_write : bool) : Handling :=
  finished ← reads (fun s => fl_finished (se_flags s));
  if finished : bool then mret tt
  else
    modify (set_response None);;
    store_response_permit empty_BudgetPermit;;
    modify (set_parser None);;
    reset_request_permit;;
    stopping ← reads (fun s => fl_stopping (se_flags s));
    match classify_http_write_result e stopping with
    | write_success =>
        draining ← reads (fun s => fl_draining (se_flags s));
        if close_after_write || draining then graceful_close w else read_request w
    | expected_cancellation | client_disconnected | unexpected_error => close_socket
    end.

Definition on_tls_handshake (w : SeWorld) (e : error_code) : Handling :=
  finished ← reads (fun s => fl_finished (se_flags s));
  if finished : bool then mret tt
  else if failed e then close_socket
  else modify set_established;; read_request w.

(** The handler of the shutdown ends in [close_socket] whatever the error. *)
Definition on_tls_shutdown : Handling :=
  finished ← reads (fun s => fl_finished (se_flags s));
  if finished : bool then mret tt else close_socket.

(** ** What the exchange tells *)

Definition on_proxy_complete (w : SeWorld) (r : ProxyResult) : Handling :=
  try_catch
    (reset_exchange;;
     reset_proxy_permit;;
     ignored ← reads (fun s => fl_finished (se_flags s) || fl_stopping (se_flags s) ||
                               obs_completed_ (ms_observation (se_messages s)));
     if ignored : bool then release_permit (pr_permit r)
     else
       last ← reads last_request;
       (match pr_failure r with
        | Some failure => fail_observation (pf_stage failure)
        | None => mret tt
        end);;
       (match pr_rejected r with
        | Some _ => reject_observation reject_buffer_capacity
        | None => mret tt
        end);;
       write_response w (limit_connection last (pr_response r)) (pr_permit r))
    close_socket.

Definition on_proxy_aborted : Handling :=
  reset_exchange;;
  reset_proxy_permit;;
  over ← reads (fun s => fl_finished (se_flags s) || fl_stopping (se_flags s));
  if over : bool then mret tt else close_socket.

Definition on_stream_complete (w : SeWorld) (failure : option ProxyFailure) (downstream_failed : bool) : Handling :=
  handle
    (reset_exchange;;
     reset_proxy_permit;;
     modify (set_writer None);;
     over ← reads (fun s => fl_finished (se_flags s) || fl_stopping (se_flags s));
     if over : bool then mret tt
     else
       match failure with
       | Some f => fail_stream_observation (pf_stage f);; answer (sw_logs w);; close_socket
       | None =>
           if downstream_failed then answer (sw_logs w);; close_socket
           else
             leaving ← reads (fun s => ms_stream_close (se_messages s) || fl_draining (se_flags s));
             if leaving : bool then graceful_close w else read_request w
       end).

(** The callbacks that end an exchange. *)
Definition on_terminal (w : SeWorld) (o : ExOutput) : Handling :=
  match o with
  | out_complete r => on_proxy_complete w r
  | out_abort => on_proxy_aborted
  | out_finish failure downstream_failed => on_stream_complete w failure downstream_failed
  | out_header _ _ | out_body _ _ => mret tt
  end.

Fixpoint each_output (f : ExOutput -> Handling) (outputs : list ExOutput) : Handling :=
  match outputs with
  | [] => mret tt
  | o :: rest => f o;; each_output f rest
  end.

(** Runs a step of the exchange and handles what it tells. *)
Definition exchange_event (w : SeWorld) (f : ExOutput -> Handling) (event : ExEvent) : Handling := fun s =>
  match px_slot (se_proxy s) with
  | None => (s, Ok tt)
  | Some slot =>
      let before := sl_exchange slot in
      let x := ex_step dump (sw_exchange w) event (load_exchange (se_shared s) before) in
      each_output f (drop (length (log_of before)) (log_of x))
        (set_slot (Some (mkSlot x (sl_method slot) (sl_permit slot))) (store_exchange x s))
  end.

(** What is told to a session that is over is answered at once. *)
Definition stream_over (w : SeWorld) (final : bool) : Handling :=
  exchange_event w (on_terminal w) (xe_resume final operation_aborted).

Definition write_stream_header (w : SeWorld) (header : HttpResponse) (final : bool) : Handling :=
  over ← reads (fun s => fl_finished (se_flags s) || fl_stopping (se_flags s));
  if over : bool then stream_over w final
  else
    leaving ← reads (fun s => fl_draining (se_flags s) || last_request s);
    let header := if leaving : bool then rs_keep_alive false header else header in
    modify (set_stream (rs_status header) (rs_need_eof header));;
    first ← finish_observation w (rs_status header);
    modify (set_writer (Some (make_StreamWriter header)));;
    modify (set_phase writing);;
    modify (upd_log (entry_reply (rs_status header)));;
    answer (xw_callback (sw_exchange w));;
    modify (upd_pending (fun ops => so_stream false final :: ops)).

Definition write_stream_body (w : SeWorld) (bytes : Z) (final : bool) : Handling :=
  over ← reads (fun s => fl_finished (se_flags s) || fl_stopping (se_flags s));
  if over : bool then stream_over w final
  else
    modify (set_stream_bytes bytes);;
    modify (fun s => set_writer (set_body bytes final <$> ms_stream_writer (se_messages s)) s);;
    answer (xw_callback (sw_exchange w));;
    modify (upd_pending (fun ops => so_stream true final :: ops)).

(** An exception of a streaming callback goes to the exchange, whose step knows it. *)
Definition on_output (w : SeWorld) (o : ExOutput) : Handling :=
  match o with
  | out_header header final => try_catch (write_stream_header w header final) (mret tt)
  | out_body bytes final => try_catch (write_stream_body w bytes final) (mret tt)
  | _ => on_terminal w o
  end.

Definition on_streamed (w : SeWorld) (body final : bool) (e : error_code) : Handling :=
  (if body then modify (set_stream_bytes 0) else mret tt);;
  handle (exchange_event w (on_output w) (xe_resume final (stream_error body final e))).

(** ** Construction and starting *)

(** The members as they are initialised; the transport is one of TLS when it is made with a
    context. *)
Definition make_session (shared : GateShared) : Session :=
  mkSession
    (mkFlags (is_tls (make_DownstreamTransport (downstream_tls_context config))) false reading false false false 0 0)
    (mkMessages fresh_observation None None None empty_BudgetPermit 0 0 false None)
    (mkProxy None None [] ∅ 0) [] [] shared.

(** The pointers and the callback the constructor asks for: it throws when one is missing. *)
Definition construct_session (proxy_admission buffer_budget on_close route_admission : bool) (shared : GateShared)
    : result Session :=
  if negb proxy_admission then Throw (invalid_argument "proxy admission state must not be empty")
  else if negb buffer_budget then Throw (invalid_argument "buffer budget must not be empty")
  else if negb on_close then Throw (invalid_argument "session close callback must not be empty")
  else if negb route_admission then Throw (invalid_argument "route proxy admission must not be empty")
  else Ok (make_session shared).

Definition se_start (w : SeWorld) : Handling :=
  tls ← reads (fun s => fl_tls (se_flags s));
  if negb tls then read_request w
  else
    modify (set_phase handshaking);;
    start_op w so_handshake.

(** ** Events *)

Inductive SeEvent :=
  | se_handshaken (e : error_code)
  | se_header (e : error_code) (incoming : Incoming)
  | se_body (e : error_code) (incoming : Incoming)
  | se_written (close_after_write : bool) (e : error_code)
  | se_streamed (body final : bool) (e : error_code)
  | se_shut (e : error_code)
  | se_exchanged (event : ExEvent)
  | se_orphan (i : nat).

Definition se_event_op (event : SeEvent) : option SeOp :=
  match event with
  | se_handshaken _ => Some so_handshake
  | se_header _ _ => Some so_read_header
  | se_body _ _ => Some so_read_body
  | se_written close_after_write _ => Some (so_write close_after_write)
  | se_streamed body final _ => Some (so_stream body final)
  | se_shut _ => Some so_shutdown
  | se_exchanged _ | se_orphan _ => None
  end.

(** The parser holds what the read has parsed when its handler runs. *)
Definition se_arrive (event : SeEvent) (s : Session) : Session :=
  let s := match se_event_op event with
           | Some op => upd_pending (remove_one op) s
           | None => s
           end in
  match event with
  | se_header _ incoming | se_body _ incoming =>
      match ms_parser (se_messages s) with
      | Some _ => set_parser (Some incoming) s
      | None => s
      end
  | _ => s
  end.

(** An exchange the session let go of is destroyed once its last handler has run. *)
Definition destroy_orphan (i : nat) : Handling :=
  orphans ← reads (fun s => px_orphans (se_proxy s));
  match orphans !! i with
  | Some slot =>
      modify (set_orphans (delete i orphans));;
      release_permit (io_permit (ex_io (sl_exchange slot)));;
      release_permit (io_block (ex_io (sl_exchange slot))).2;;
      drop_object (sl_permit slot)
  | None => mret tt
  end.

(** The destructor: the members with resources, in the reverse order of their declarations.
    It runs when no handler keeps the session. *)
Definition destroy_session : Handling :=
  reset_request_permit;;
  reset_proxy_permit;;
  reset_exchange;;
  store_response_permit empty_BudgetPermit.

(** The handlers that keep it: those of its operations, and those of the exchanges it let
    go of. *)
Definition handlers_left (s : Session) : nat := (length (se_pending s) + length (px_orphans (se_proxy s)))%nat.

Definition se_handler (w : SeWorld) (event : SeEvent) : Handling :=
  match event with
  | se_handshaken e => handle (on_tls_handshake w e)
  | se_header e _ => handle (on_request_header w e)
  | se_body e _ => handle (on_request_body w e)
  | se_written close_after_write e => handle (on_written w e close_after_write)
  | se_streamed body final e => on_streamed w body final e
  | se_shut _ => on_tls_shutdown
  | se_exchanged event => exchange_event w (on_output w) event
  | se_orphan i => destroy_orphan i
  end.

Definition se_step (w : SeWorld) (event : SeEvent) (s : Session) : Session :=
  run (se_handler w event) (se_arrive event s).

(** What can happen next.  The parser accepts HTTP/1.0 and HTTP/1.1 only, a length is a
    [uint64_t], and the header does not change while the body is read; the resumption of an exchange is the
    completion of the write it waits for. *)
Definition se_enabled (s : Session) (event : SeEvent) : Prop :=
  match event with
  | se_header e incoming =>
      so_read_header ∈ se_pending s /\ (forall n, in_content_length incoming = Some n -> in_u64 n) /\
      (failed e = false -> rq_version (in_request incoming) = 10 \/ rq_version (in_request incoming) = 11)
  | se_body e incoming =>
      so_read_body ∈ se_pending s /\
      forall header, ms_parser (se_messages s) = Some header ->
        rq_version (in_request incoming) = rq_version (in_request header)
  | se_exchanged event =>
      match event, px_slot (se_proxy s) with
      | xe_cancel, _ | xe_resume _ _, _ | _, None => False
      | _, Some slot => ex_enabled (sl_exchange slot) event
      end
  | se_orphan i => (i < length (px_orphans (se_proxy s)))%nat
  | _ => exists op, se_event_op event = Some op /\ op ∈ se_pending s
  end.

(** The server starts a session, and drains and stops it; the other sessions change what
    is shared; [P] restricts what the world answers. *)
Inductive se_reachable (P : SeWorld -> Prop) : Session -> Prop :=
  | se_made w shared :
      P w -> is_ok (se_start w (make_session shared)).2 = true -> se_reachable P (run (se_start w) (make_session shared))
  | se_next w event s : P w -> se_reachable P s -> se_enabled s event -> se_reachable P (se_step w event s)
  | se_drained s : se_reachable P s -> se_reachable P (run se_begin_drain s)
  | se_stopped s : se_reachable P s -> se_reachable P (run se_stop s)
  | se_others shared s : se_reachable P s -> se_reachable P (upd_shared (fun _ => shared) s).

End Session.
