(* ===== verification/SessionWalk.v ===== *)
(** * A walk through the handlers of a session (src/http_server.cpp, [HttpSession])

    What holds of a session and the state it shares is proved here for every handler at
    once, from what it owes the few operations that touch what is accounted for: the end,
    the requests read, the pointers to permits, the exchange and the proxy slot.  The
    permits of the body budget that are in transit, between the object that had them and
    the one that will, are an argument of the property. *)

From Stdlib Require Import Floats.SpecFloat.
From S2P Require Import Prelude Text ConfigTypes Errors Http RateLimit Permits BufferBudget HealthState.
From S2P Require Import UpstreamPool ApiKeyAuth HttpHandler Admission ProxyMessage HealthCheck.
From S2P Require Import ServerState Server Metrics Handlers Exchange ExchangeKeeps Session.

Local Open Scope Z_scope.

Definition is_read (e : SeEntry) : bool := match e with entry_read => true | _ => false end.

#[local] Create HintDb walk.

Section Walk.
Context {B : BeastHttp}.
Variable dump : Json -> text.
Variable evp_digest : text -> option ApiKeyDigest.
Variable double_chars : spec_float -> option text.
Variable config : AppConfig.

(** The operations that need the TLS stream, and its handshake. *)
Definition op_allowed (s : Session) (op : SeOp) : Prop :=
  match op with
  | so_handshake => fl_tls (se_flags s) = true
  | so_shutdown => fl_tls (se_flags s) = true /\ fl_established (se_flags s) = true
  | _ => True
  end.

(** [s'] differs from [s] in what no account reads. *)
Record plain (s s' : Session) : Prop := {
  plain_closes : fl_closes (se_flags s') = fl_closes (se_flags s);
  plain_finished : fl_finished (se_flags s') = fl_finished (se_flags s);
  plain_draining : fl_draining (se_flags s) = true -> fl_draining (se_flags s') = true;
  plain_log : se_log s' = se_log s \/ exists e, is_read e = false /\ se_log s' = se_log s ++ [e];
  plain_tls : fl_tls (se_flags s') = fl_tls (se_flags s);
  plain_established : fl_established (se_flags s) = true -> fl_established (se_flags s') = true;
  plain_pending op : op ∈ se_pending s' -> op ∈ se_pending s \/ op_allowed s' op;
  plain_proxy : se_proxy s' = se_proxy s;
  plain_request : ms_request_permit (se_messages s') = ms_request_permit (se_messages s);
  plain_response : ms_response_permit (se_messages s') = ms_response_permit (se_messages s);
  plain_pool : sh_pool (se_shared s') = sh_pool (se_shared s);
  plain_heap : sh_heap (se_shared s') = sh_heap (se_shared s);
  plain_budget : sh_budget (se_shared s') = sh_budget (se_shared s);
  plain_proxies : sh_proxies (se_shared s') = sh_proxies (se_shared s);
  plain_admission : sh_admission (se_shared s') = sh_admission (se_shared s) }.

(** The exchange in progress after a step. *)
Definition stored (slot : Slot) (x : Exchange) (s : Session) : Session :=
  set_slot (Some (mkSlot x (sl_method slot) (sl_permit slot))) (store_exchange x s).

(** [P l] with the permits [l] in transit; [admitted l r] with the slot of [r] in transit
    too.  [counted]: the lengths the parsers report are unsigned. *)
Class SessionWalk (counted : Prop) (P : list BufferBudgetPermit -> Session -> Prop)
    (admitted : list BufferBudgetPermit -> RouteProxyAdmissionResult -> Session -> Prop) := {
  walk_plain l s s' : plain s s' -> P l s -> P l s';
  walk_read l s : fl_draining (se_flags s) = false -> P l s -> P l (upd_log entry_read s);
  walk_end l s : fl_finished (se_flags s) = false -> P l s -> P l (set_finished s);
  walk_request l s : P l s -> P l (run reset_request_permit s);
  walk_slot l s : P l s -> P l (run reset_exchange s);
  walk_cancel l s : P l s -> P l (run cancel_exchange s);
  walk_permit l s : P l s -> P l (run reset_proxy_permit s);
  walk_drop p l s : P (p :: l) s -> P l (run (release_permit p) s);
  walk_store p l s : P (p :: l) s -> P l (run (store_response_permit p) s);
  walk_empty l s : P l s -> P (empty_BudgetPermit :: l) s;
  walk_reserve bytes l s :
    (counted -> 0 <= bytes) -> P l s -> wp (acquire_body bytes) (fun p => P (option_list p ++ l)) (P l) s;
  walk_make p l s : P (p :: l) s -> P l (run (make_object p) s);
  walk_shrink bytes l : 0 <= bytes -> keeps (P l) (shrink_request_permit bytes);
  walk_admit w route l s : P l s -> wp (acquire_admission w route) (admitted l) (P l) s;
  walk_refused r l s : admitted l r s -> allowed (ar_rate_limit r) = false \/ ar_no_healthy_upstream r = true -> P l s;
  walk_admitted r l s :
    admitted l r s -> P l (set_proxy_permit (ar_permit r) (run reset_proxy_permit s));
  walk_create w selected request l : keeps (P l) (create_exchange config w selected request);
  walk_begin w l : keeps (P l) (start_exchange w);
  walk_exchange w event slot l s :
    px_slot (se_proxy s) = Some slot -> (counted -> event_counted event) -> P l s ->
    let x := ex_step dump w event (load_exchange (se_shared s) (sl_exchange slot)) in
    P (told_permits (drop (length (log_of (sl_exchange slot))) (log_of x)) ++ l) (stored slot x s);
  walk_orphan i l : keeps (P l) (destroy_orphan i) }.

Context {counted : Prop} {P : list BufferBudgetPermit -> Session -> Prop}.
Context {admitted : list BufferBudgetPermit -> RouteProxyAdmissionResult -> Session -> Prop}.
Context {walk : SessionWalk counted P admitted}.
Implicit Types (l : list BufferBudgetPermit) (s : Session).

(** A handler that keeps the property and never throws. *)
Definition calm l (m : Handling) : Prop := forall s, P l s -> wp m (fun _ => P l) (fun _ => False) s.

Lemma calm_keeps l m : calm l m -> keeps (P l) m.
Proof. intros Hm s H. eapply wp_mono; [by apply Hm|done|done]. Qed.
Lemma calm_try l body handler : keeps (P l) body -> calm l handler -> calm l (try_catch body handler).
Proof. intros Hb Hh s H. apply wp_try. eapply wp_mono; [by apply Hb|done|]. intros s' H'. by apply Hh. Qed.
Lemma calm_bind l (m : Handling) (k : unit -> Handling) : calm l m -> (forall a, calm l (k a)) -> calm l (m ≫= k).
Proof. intros Hm Hk s H. apply wp_bind. eapply wp_mono; [by apply Hm| |done]. intros a s' H'. by apply Hk. Qed.
Lemma calm_reads {A} l (f : Session -> A) (k : A -> Handling) : (forall a, calm l (k a)) -> calm l (reads f ≫= k).
Proof. intros Hk s H. do 2 wp_step. by apply Hk. Qed.
Lemma calm_ret l : calm l (mret tt).
Proof. intros s H. exact H. Qed.
Lemma calm_if l (b : bool) m n : calm l m -> calm l n -> calm l (if b then m else n).
Proof. by destruct b. Qed.

Lemma keep_plain l f : (forall s, plain s (f s)) -> keeps (P l) (modify f).
Proof. intros Hf. apply keeps_modify. intros s. by apply walk_plain. Qed.

(** ** Closing *)

Lemma calm_slot l : calm l reset_exchange.
Proof. intros s H. exact (walk_slot l s H). Qed.
Lemma calm_cancel l : calm l cancel_exchange.
Proof. intros s H. exact (walk_cancel l s H). Qed.
Lemma calm_permit l : calm l reset_proxy_permit.
Proof. intros s H. exact (walk_permit l s H). Qed.
Lemma keep_request l : keeps (P l) reset_request_permit.
Proof. intros s H. exact (walk_request l s H). Qed.

Lemma calm_finish l : calm l se_finish.
Proof. intros s H. unfold se_finish. repeat wp_step; [done|by apply walk_end]. Qed.

Lemma calm_close l : calm l close_socket.
Proof.
  unfold close_socket. apply calm_reads. intros over. apply calm_if; [apply calm_ret|].
  apply calm_bind; [apply calm_cancel|intros _]. apply calm_bind; [apply calm_permit|intros _]. apply calm_finish.
Qed.
Lemma keep_close l : keeps (P l) close_socket.
Proof. apply calm_keeps, calm_close. Qed.

(** An operation that is pending was, or is allowed. *)
Ltac solve_pending :=
  let op := fresh in
  let Hin := fresh in
  intros op Hin;
  first [ by left | apply elem_of_cons in Hin as [->|Hin]; [by right|by left]
        | left; eapply remove_one_sub; exact Hin ].
Ltac solve_plain :=
  solve [constructor; try done; first [by left | right; eexists; split; [|reflexivity]; done | solve_pending]].

Ltac walk_step :=
  first [ keep_step | match goal with |- keeps _ (modify _) => apply keep_plain; intros ?; solve_plain end ].

Ltac walks := repeat walk_step; auto with walk.

Lemma keep_slot l : keeps (P l) reset_exchange.
Proof. apply calm_keeps, calm_slot. Qed.
Lemma keep_cancel l : keeps (P l) cancel_exchange.
Proof. apply calm_keeps, calm_cancel. Qed.
Lemma keep_permit l : keeps (P l) reset_proxy_permit.
Proof. apply calm_keeps, calm_permit. Qed.
Lemma keep_finish l : keeps (P l) se_finish.
Proof. apply calm_keeps, calm_finish. Qed.

Hint Resolve keep_slot keep_cancel keep_permit keep_request keep_finish keep_close : walk.

Lemma keep_stop l : keeps (P l) se_stop.
Proof. unfold se_stop. walks. Qed.
Hint Resolve keep_stop : walk.

Lemma keep_begin_drain l : keeps (P l) se_begin_drain.
Proof. unfold se_begin_drain. walks. destruct (classify_session_drain _); walks. Qed.

Lemma keep_handle l (m : Handling) : keeps (P l) m -> keeps (P l) (handle m).
Proof. intros Hm. unfold handle. walks. Qed.
Lemma wp_start_op l w op s : op_allowed s op -> P l s -> wp (start_op w op) (fun _ => P l) (P l) s.
Proof.
  intros Hop H. unfold start_op. wp_step. wp_step; [wp_step|done]. revert H. apply walk_plain.
  constructor; try done; [by left|]. intros op' Hin. apply elem_of_cons in Hin as [->|Hin]; [by right|by left].
Qed.
Lemma keep_start_op l w op : (forall s, op_allowed s op) -> keeps (P l) (start_op w op).
Proof. intros Hop s. by apply wp_start_op. Qed.
Hint Extern 1 (keeps _ (start_op _ _)) => apply keep_start_op; intros ?; exact I : walk.

Lemma keep_graceful l w : keeps (P l) (graceful_close w).
Proof.
  intros s H. unfold graceful_close. do 2 wp_step. wp_step; [done|]. do 2 wp_step. wp_step; [by apply keep_close|].
  match goal with E : _ || _ = false |- _ => apply orb_false_iff in E as [Ht He]; apply negb_false_iff in Ht, He end.
  do 2 wp_step. apply wp_try. eapply wp_mono; [apply (wp_start_op l); [by split|]|done|apply keep_close].
  revert H. apply walk_plain. solve_plain.
Qed.

(** ** Reading and answering *)

Lemma keep_read_request l w : keeps (P l) (read_request w).
Proof.
  intros s H. unfold read_request. do 2 wp_step. wp_step; [by apply keep_close|].
  match goal with E : _ || _ = false |- _ => apply orb_false_iff in E as [_ Hd] end.
  do 8 wp_step. apply keep_start_op, walk_read; [done|exact Hd|]. revert H. apply walk_plain. solve_plain.
Qed.

Lemma keep_finish_observation l w status : keeps (P l) (finish_observation w status).
Proof.
  intros s H. unfold wp, finish_observation. destruct (Metrics.finish _ _ _ _) as [[first o] m].
  revert H. apply walk_plain. solve_plain.
Qed.
Lemma keep_reject_observation l reason : keeps (P l) (reject_observation reason).
Proof. apply keep_plain. intros s. destruct (Metrics.reject _ _ _) as [o m]. solve_plain. Qed.
Lemma keep_fail_observation l stage : keeps (P l) (fail_observation stage).
Proof. apply keep_plain. intros s. destruct (Metrics.fail _ _ _) as [o m]. solve_plain. Qed.
Lemma keep_fail_stream l stage : keeps (P l) (fail_stream_observation stage).
Proof. apply keep_plain. intros s. destruct (Metrics.fail_stream _ _ _) as [o m]. solve_plain. Qed.

Hint Resolve keep_graceful keep_read_request keep_finish_observation keep_reject_observation keep_fail_observation
  keep_fail_stream : walk.

(** The permit of the argument is stored, or released. *)
Lemma wp_write_walk l w response p s :
  P (p :: l) s -> wp (write_response w response p) (fun _ => P l) (P l) s.
Proof.
  intros H. unfold write_response. do 2 wp_step. apply wp_bind.
  set (over := fl_finished (se_flags s) || fl_stopping (se_flags s)).
  assert (Hf : wp (if over then mret false else finish_observation w (rs_status response))
                 (fun first s' => P (p :: l) s') (fun _ => False) s).
  { destruct over; [done|]. pose proof (keep_finish_observation (p :: l) w (rs_status response) s H) as Hk.
    unfold wp, finish_observation in *. by destruct (Metrics.finish _ _ _ _) as [[first o] m]. }
  eapply wp_mono; [exact Hf| |done]. intros first s' H'. wp_step; [|by apply walk_drop].
  do 6 wp_step. apply wp_bind.
  apply (wp_mono _ (fun _ => P l) _ (P l)).
  - apply (walk_store p l). apply (walk_plain _ s'); [|exact H']. solve_plain.
  - intros ? s3 H3. apply wp_keeps; [exact H3|walks].
  - done.
Qed.
Lemma keep_write l w response : keeps (P l) (write_response w response empty_BudgetPermit).
Proof. intros s H. by apply wp_write_walk, walk_empty. Qed.
Hint Resolve keep_write : walk.

Lemma keep_write_limited l w response : keeps (P l) (write_limited w response).
Proof. unfold write_limited. walks. Qed.
Lemma keep_protocol_error l w status code message : keeps (P l) (write_protocol_error dump w status code message).
Proof. unfold write_protocol_error. walks. Qed.
Hint Resolve keep_write_limited keep_protocol_error : walk.
Lemma keep_read_error l w e : keeps (P l) (handle_read_error dump w e).
Proof. unfold handle_read_error, body_too_large. walks. Qed.
Lemma keep_reject_buffer l w request : keeps (P l) (reject_buffer dump w request).
Proof. unfold reject_buffer. walks. Qed.

(** ** Requests *)

Lemma keep_admit l w request route : keeps (P l) (admit_request dump config w request route).
Proof.
  intros s H. unfold admit_request. apply wp_bind. eapply wp_mono; [by apply walk_admit| |done].
  intros r s1 H1. wp_step.
  2: { apply (walk_refused r l) in H1; [|by left]. apply wp_keeps; [exact H1|walks]. }
  wp_step; [apply (walk_refused r l) in H1; [|by right]; apply wp_keeps; [exact H1|walks]|].
  apply wp_bind, (wp_mono _ (fun _ s' => s' = run reset_proxy_permit s1) _ (fun _ => False)); [done| |done].
  intros ? s2 ->. apply wp_bind, wp_modify. apply wp_keeps; [by apply walk_admitted|].
  destruct (ar_permit r); [|walks]. destruct (ar_upstream r); walks; [apply walk_create|apply walk_begin].
Qed.
Hint Resolve keep_admit : walk.

Lemma keep_proxy l w request route : keeps (P l) (start_proxy_request dump config w request route).
Proof. unfold start_proxy_request, admit_failed. walks. Qed.
Hint Resolve keep_proxy : walk.

Lemma keep_process l w : keeps (P l) (process_request dump evp_digest double_chars config w).
Proof.
  unfold process_request, parser_invalid, answer_locally. walk_step; [walks|]. destruct a as [incoming|]; [|walks].
  walks. destruct (select_http_route _ _) as [selected|]; walks.
Qed.

Lemma keep_reserve l bytes (k : option BufferBudgetPermit -> Handling) :
  (counted -> 0 <= bytes) -> keeps (P l) (k None) ->
  (forall p s, P (p :: l) s -> wp (k (Some p)) (fun _ => P l) (P l) s) -> keeps (P l) (acquire_body bytes ≫= k).
Proof.
  intros Hb Hn Hs s H. apply wp_bind. eapply wp_mono; [by apply walk_reserve| |done].
  intros [p|] s' H'; [by apply Hs|by apply Hn].
Qed.

(** The length the request parser has reported. *)
Definition length_counted (s : Session) : Prop :=
  forall incoming n, ms_parser (se_messages s) = Some incoming -> in_content_length incoming = Some n -> 0 <= n.

Hint Resolve keep_read_error keep_reject_buffer keep_process : walk.

Lemma keep_on_header l w e s :
  (counted -> length_counted s) -> P l s ->
  wp (on_request_header dump evp_digest double_chars config w e) (fun _ => P l) (P l) s.
Proof.
  intros Hc H. unfold on_request_header, parser_invalid, body_too_large. wp_step. wp_step.
  set (s1 := match ms_parser _ with Some _ => _ | None => _ end).
  assert (E : ms_parser (se_messages s1) = ms_parser (se_messages s)) by (unfold s1; destruct (ms_parser (se_messages s)) eqn:Ep; [exact Ep|done]).
  assert (H1 : P l s1) by (revert H; apply walk_plain; unfold s1; destruct (ms_parser _); solve_plain).
  clearbody s1. do 2 wp_step. wp_step; [done|]. wp_step; [apply wp_keeps; [done|walks]|].
  do 2 wp_step. rewrite E. destruct (ms_parser (se_messages s)) as [incoming|] eqn:Ep; [|apply wp_keeps; [done|walks]].
  apply wp_keeps; [done|]. walk_step; [walks|]. walk_step; [walks|].
  destruct (plan_kind _) eqn:Ek; [walks| |walks]. apply keep_reserve; [|walks|].
  - intros Hq. specialize (Hc Hq). unfold plan_body_reservation, max_body_bytes in *.
    destruct (in_done incoming); [done|]. destruct (in_content_length incoming) as [n|] eqn:El; [|done].
    destruct (_ <? _); [done|]. by apply (Hc incoming).
  - intros p s2 Hs2. apply wp_bind, (wp_mono _ (fun _ => P l) _ (P l)); [by apply walk_make| |done].
    intros ? s3 Hs3. apply wp_keeps; [done|walks].
Qed.
Lemma keep_on_body l w e : keeps (P l) (on_request_body dump evp_digest double_chars config w e).
Proof. unfold on_request_body. walks. destruct a0; walks. apply walk_shrink. lia. Qed.
Lemma keep_on_written l w e b : keeps (P l) (on_written w e b).
Proof.
  unfold on_written. walk_step; [walks|]. walk_step; [walks|]. walk_step; [walks|]. walk_step; [|].
  - intros s H. by apply (walk_store empty_BudgetPermit l), walk_empty.
  - walks. destruct (classify_http_write_result _ _); walks.
Qed.
Lemma keep_on_handshake l w e : keeps (P l) (on_tls_handshake w e).
Proof. unfold on_tls_handshake. walks. Qed.
Lemma keep_on_shutdown l : keeps (P l) on_tls_shutdown.
Proof. unfold on_tls_shutdown. walks. Qed.

(** ** What the exchange tells *)

Lemma wp_told_complete l w r s :
  P (pr_permit r :: l) s -> wp (on_proxy_complete w r) (fun _ => P l) (fun _ => False) s.
Proof.
  intros H. unfold on_proxy_complete. apply wp_try.
  apply wp_bind, (wp_mono _ (fun _ => P (pr_permit r :: l)) _ (fun _ => False)); [by apply calm_slot| |done].
  intros ? s1 H1.
  apply wp_bind, (wp_mono _ (fun _ => P (pr_permit r :: l)) _ (fun _ => False)); [by apply calm_permit| |done].
  intros ? s2 H2. do 2 wp_step. wp_step; [by apply walk_drop|]. do 2 wp_step.
  assert (Hgo : forall s', P (pr_permit r :: l) s' ->
    wp (write_response w (limit_connection (last_request s2) (pr_response r)) (pr_permit r)) (fun _ => P l)
      (wp close_socket (fun _ => P l) (fun _ => False)) s').
  { intros s' Hs'. eapply wp_mono; [by apply wp_write_walk|done|]. intros s3. apply calm_close. }
  apply wp_bind, (wp_mono _ (fun _ => P (pr_permit r :: l)) _ (fun _ => False)); [| |done].
  { destruct (pr_failure r) as [f|]; [|done]. exact (keep_fail_observation _ (pf_stage f) _ H2). }
  intros ? s3 H3. apply wp_bind, (wp_mono _ (fun _ => P (pr_permit r :: l)) _ (fun _ => False)); [| |done].
  { destruct (pr_rejected r); [|done]. exact (keep_reject_observation _ reject_buffer_capacity _ H3). }
  intros ? s4 H4. by apply Hgo.
Qed.

Lemma calm_handle l m : keeps (P l) m -> calm l (handle m).
Proof. intros Hm. unfold handle. apply calm_try; [done|apply calm_close]. Qed.

Lemma calm_terminal l w o s :
  P (output_permits o ++ l) s -> wp (on_terminal w o) (fun _ => P l) (fun _ => False) s.
Proof.
  destruct o as [r| |header final|bytes final|failure failed]; cbn; intros H; [by apply wp_told_complete| |done|done|].
  - revert s H. fold (calm l on_proxy_aborted). unfold on_proxy_aborted. apply calm_bind; [apply calm_slot|intros _].
    apply calm_bind; [apply calm_permit|intros _]. apply calm_reads. intros over.
    apply calm_if; [apply calm_ret|apply calm_close].
  - apply calm_handle; [|exact H]. walks. destruct failure; walks.
Qed.

(** What each output does to the permits in transit. *)
Definition handles (f : ExOutput -> Handling) : Prop :=
  forall l o s, P (output_permits o ++ l) s -> wp (f o) (fun _ => P l) (fun _ => False) s.

Lemma calm_each f outputs l s :
  handles f -> P (told_permits outputs ++ l) s -> wp (each_output f outputs) (fun _ => P l) (fun _ => False) s.
Proof.
  intros Hf. revert s. induction outputs as [|o outputs IH]; intros s H; [exact H|]. cbn in *.
  rewrite <- app_assoc in H. apply wp_bind. eapply wp_mono; [exact (Hf (told_permits outputs ++ l) o s H)| |done]. intros ? s1 H1. by apply IH.
Qed.

Lemma calm_exchange l w f event :
  handles f -> (counted -> event_counted event) -> calm l (exchange_event dump w f event).
Proof.
  intros Hf Hc s H. unfold wp, exchange_event. destruct (px_slot (se_proxy s)) as [slot|] eqn:E; [|done].
  apply calm_each; [done|]. by apply (walk_exchange (sw_exchange w) event slot).
Qed.

Lemma handles_output w : handles (on_output dump w).
Proof.
  assert (Hover : forall l final, calm l (stream_over dump w final)).
  { intros l final. apply calm_exchange; [|done]. intros l' o s. apply calm_terminal. }
  intros l o s H. destruct o as [r| |header final|bytes final|failure failed]; try by apply calm_terminal.
  all: revert s H; cbn; match goal with |- forall s, _ -> wp ?m _ _ _ => change (calm l m) end.
  all: apply calm_try; [|apply calm_ret].
  - unfold write_stream_header. walks. by apply calm_keeps, Hover.
  - unfold write_stream_body. walks. by apply calm_keeps, Hover.
Qed.

(** ** Events *)

(** The lengths of an event. *)
Definition se_counted (event : SeEvent) (s : Session) : Prop :=
  match event with
  | se_header _ incoming => forall n, in_content_length incoming = Some n -> 0 <= n
  | se_exchanged event => event_counted event
  | _ => True
  end.

Lemma se_enabled_counted s event : se_enabled s event -> se_counted event s.
Proof.
  destruct event as [| | | | | |event|]; try done; cbn.
  - intros (_ & H & _) n E. by apply H.
  - intros H. destruct event; try done. destruct (px_slot (se_proxy s)) as [slot|]; [|done]. by apply enabled_counted in H.
Qed.

Lemma arrive_plain event s : plain s (se_arrive event s).
Proof. unfold se_arrive. destruct event; cbn; try destruct (ms_parser _); solve_plain. Qed.

Lemma keep_step_event l w event s :
  (counted -> se_counted event s) -> P l s -> P l (se_step dump evp_digest double_chars config w event s).
Proof.
  intros Hc H. assert (Ha : P l (se_arrive event s)) by (revert H; apply walk_plain, arrive_plain).
  unfold se_step. apply run_wp. destruct event as [e|e incoming|e incoming|close e|body final e|e|event|i]; cbn [se_handler].
  - apply keep_handle; [apply keep_on_handshake|done].
  - apply wp_try. eapply wp_mono; [apply keep_on_header; [|exact Ha]|done|apply keep_close].
    intros Hq incoming' n E. specialize (Hc Hq). unfold se_arrive in E. cbn in E, Hc.
    destruct (ms_parser (se_messages s)) eqn:Ep; cbn in E; [|congruence]. injection E as <-. apply Hc.
  - apply keep_handle; [apply keep_on_body|done].
  - apply keep_handle; [apply keep_on_written|done].
  - apply wp_keeps; [exact Ha|]. unfold on_streamed. walks. apply keep_handle, calm_keeps, calm_exchange; [apply handles_output|done].
  - by apply keep_on_shutdown.
  - apply (calm_keeps _ _ (calm_exchange l w _ event (handles_output w) Hc)), Ha.
  - by apply walk_orphan.
Qed.

Lemma keep_start l w : keeps (P l) (se_start w).
Proof.
  intros s H. unfold se_start. do 2 wp_step. wp_step; [|by apply keep_read_request].
  do 2 wp_step. apply wp_start_op; [done|]. revert H. apply walk_plain. solve_plain.
Qed.

End Walk.
