(* ===== verification/SessionKeeps.v ===== *)
(** * What every handler of a session keeps (src/http_server.cpp, [HttpSession])

    The log of a connection read as turns, and the first instance of the walk of SessionWalk: the
    close callback is called once, when the session ends; a pool that was stopped stays so; a
    session that drains reads no further request. *)

From Stdlib Require Import Floats.SpecFloat.
From S2P Require Import Prelude Text ConfigTypes Errors Http RateLimit Permits BufferBudget HealthState.
From S2P Require Import UpstreamPool ApiKeyAuth HttpHandler Admission ProxyMessage HealthCheck.
From S2P Require Import ServerState Server Metrics Handlers Exchange ExchangeKeeps ExchangeTells Session SessionWalk.

Local Open Scope Z_scope.

(** ** The log *)

(** Requests are read for, and answered, in turn: [Some true] when an answer is due. *)
Definition turn_next (due : bool) (e : SeEntry) : option bool :=
  match due, e with
  | false, entry_read => Some true
  | true, entry_reply _ => Some false
  | _, entry_start_failed => Some due
  | _, _ => None
  end.
Definition turn (log : list SeEntry) : option bool :=
  foldl (fun due e => due ≫= fun due => turn_next due e) (Some false) log.

Definition reads_of (log : list SeEntry) : Z := Z.of_nat (length (List.filter is_read log)).

Lemma turn_snoc log e : turn (log ++ [e]) = turn log ≫= fun due => turn_next due e.
Proof. unfold turn. by rewrite foldl_app. Qed.

Lemma reads_of_snoc log e : reads_of (log ++ [e]) = reads_of log + (if is_read e then 1 else 0).
Proof. unfold reads_of. rewrite List.filter_app, length_app. cbn. destruct (is_read e); cbn; lia. Qed.

(** ** What every handler keeps

    The close callback is called with the end, the pool is not restarted, and a draining
    session does not read another request. *)

Section Keeping.
Context {B : BeastHttp}.
Variable dump : Json -> text.
Variable evp_digest : text -> option ApiKeyDigest.
Variable double_chars : spec_float -> option text.
Variable config : AppConfig.
(** The pool was stopped; the session was draining, after so many requests. *)
Context (over : bool) (drained : option Z).

Definition accounted (s : Session) : Prop :=
  fl_closes (se_flags s) = (if fl_finished (se_flags s) then 1 else 0)%nat /\
  (over = true -> pool_over (sh_pool (se_shared s)) = true) /\
  match drained with
  | Some n => fl_draining (se_flags s) = true /\ reads_of (se_log s) = n
  | None => True
  end.

Lemma accounted_flags f s :
  accounted s -> fl_closes (f (se_flags s)) = (if fl_finished (f (se_flags s)) then 1 else 0)%nat ->
  (fl_draining (se_flags s) = true -> fl_draining (f (se_flags s)) = true) -> accounted (upd_flags f s).
Proof. intros (H1 & H2 & H3) Hf Hd. split; [done|]. split; [done|]. destruct drained; [|done]. split; [apply Hd, H3|apply H3]. Qed.

Lemma accounted_pool pool s :
  accounted s -> (pool_over (sh_pool (se_shared s)) = true -> pool_over pool = true) -> accounted (set_gate_pool pool s).
Proof. intros (H1 & H2 & H3) Hp. split; [done|]. split; [intros Ho; by apply Hp, H2|done]. Qed.

Lemma accounted_plain s s' : plain s s' -> accounted s -> accounted s'.
Proof.
  intros [E1 E2 E3 E4 _ _ _ _ _ _ E5 _ _ _ _] (H1 & H2 & H3). unfold accounted. rewrite E1, E2, E5. split; [done|]. split; [done|].
  destruct drained as [n|]; [|done]. destruct H3 as [Hd Hn]. split; [by apply E3|].
  destruct E4 as [->|(e & He & ->)]; [done|]. rewrite reads_of_snoc, He, Hn. lia.
Qed.

Lemma accounted_cancel s : accounted s -> accounted (run cancel_exchange s).
Proof.
  intros H. unfold run, cancel_exchange, reset_exchange. eval_handler. destruct (px_slot (se_proxy s)) as [slot|] eqn:E; cbn; [|by rewrite E].
  apply (accounted_pool _ s); [done|]. exact (ex_cancel_over dump (load_exchange (se_shared s) (sl_exchange slot))).
Qed.

Lemma accounted_create w selected request : keeps accounted (create_exchange config w selected request).
Proof.
  intros s H. unfold wp, create_exchange.
  pose proof (make_exchange_over (sw_exchange w) (sw_id w) selected request (upstream_tls_context config)
    (Some (sh_budget (se_shared s))) true true true (sh_pool (se_shared s)) (sh_heap (se_shared s))) as Hp.
  destruct (make_exchange _ _ _ _ _ _ _ _ _ _ _) as [pool [x|e]]; cbn in Hp.
  - assert (H' : accounted (set_gate_pool pool s)) by (apply accounted_pool; [done|exact Hp]).
    set (s1 := set_gate_pool pool s) in *. clearbody s1.
    assert (H1 : accounted (run (share_object (ms_request_permit (se_messages s1))) s1)).
    { unfold run, share_object. cbn. destruct (ms_request_permit _) as [i|]; [|done]. by destruct (_ !! i) as [[p n]|]. }
    set (s2 := run (share_object _) s1) in *. clearbody s2.
    unfold run, reset_exchange. cbn. by destruct (px_slot (se_proxy s2)).
  - apply accounted_pool; [done|exact Hp].
Qed.

Lemma accounted_begin w : keeps accounted (start_exchange w).
Proof.
  intros s H. unfold wp, start_exchange. destruct (px_slot _) as [slot|]; [|done].
  pose proof (ex_start_pool (sw_exchange w) (load_exchange (se_shared s) (sl_exchange slot))) as Hp.
  destruct (ex_start _ _) as [x [u|e]]; cbn in Hp; apply (accounted_pool (xs_pool (ex_shared x)) s); try done; by rewrite Hp.
Qed.

Lemma accounted_drop id s : accounted s -> accounted (run (drop_object id) s).
Proof. intros H. unfold run, drop_object. cbn. destruct id as [i|]; [|done]. by destruct (_ !! i) as [[p [|[|n]]]|]. Qed.

#[export] Instance accounted_walk : SessionWalk dump config False (fun _ => accounted) (fun _ _ => accounted).
Proof.
  split; try done.
  - intros _. apply accounted_plain.
  - intros _ s Hd (H1 & H2 & H3). split; [done|]. split; [done|]. destruct drained; [|done]. destruct H3 as [H3 _]. congruence.
  - intros _ s Hf H. apply accounted_flags; [done| |done]. cbn. destruct H as [-> _]. by rewrite Hf.
  - intros _ s H. apply (accounted_drop (ms_request_permit (se_messages s)) (set_request_permit None s)). exact H.
  - intros _ s H. unfold run, reset_exchange. cbn. by destruct (px_slot _).
  - intros _. apply accounted_cancel.
  - intros _ s H. unfold run, reset_proxy_permit. cbn. by destruct (px_permit _).
  - intros bytes _ s _ H. unfold wp, acquire_body. by destruct (budget_try_acquire _ _ _) as [heap permit].
  - intros p _ s H. apply (accounted_drop (ms_request_permit (se_messages s)) (set_request_permit None s)). exact H.
  - intros bytes _ _ s H. unfold wp, shrink_request_permit. destruct (ms_request_permit _) as [i|]; [|done].
    destruct (_ !! i) as [[p n]|]; [|done]. by destruct (shrink_to _ _ _) as [[heap p'] done].
  - intros w route _ s H. unfold wp, acquire_admission. by destruct (admission_try_acquire _ _ _ _ _) as [[proxies adm] [r|e]].
  - intros r _ s H. unfold run, reset_proxy_permit. cbn. by destruct (px_permit _).
  - intros w selected request _. apply accounted_create.
  - intros w _. apply accounted_begin.
  - intros w event slot _ s E _ H. apply (accounted_pool _ s); [done|].
    exact (ex_step_over dump w event (load_exchange (se_shared s) (sl_exchange slot))).
  - intros i _ s H. unfold destroy_orphan. do 2 wp_step. destruct (_ !! i) as [slot|]; [|done].
    apply wp_keeps; [done|]. unfold release_permit. repeat keep_step. intros s1. apply accounted_drop.
Qed.

Lemma accounted_step w event s : accounted s -> accounted (se_step dump evp_digest double_chars config w event s).
Proof. by apply (keep_step_event dump evp_digest double_chars config (P := fun _ => accounted) []). Qed.
Lemma accounted_start w : keeps accounted (se_start w).
Proof. apply (keep_start dump config (P := fun _ => accounted) []). Qed.
Lemma accounted_begin_drain : keeps accounted se_begin_drain.
Proof. apply (keep_begin_drain dump config (P := fun _ => accounted) []). Qed.
Lemma accounted_stop : keeps accounted se_stop.
Proof. apply (keep_stop dump config (P := fun _ => accounted) []). Qed.

End Keeping.
