(* ===== verification/SessionInvariant.v ===== *)
(** * The invariant of a session (src/http_server.cpp, [HttpSession])

    What holds of a session in each phase, and that every handler keeps it: what is pending,
    whether an exchange is in progress and holds the proxy permit, whose turn it is, and
    how many requests have been read. *)

From Stdlib Require Import Floats.SpecFloat.
From S2P Require Import Prelude Text ConfigTypes Errors Http RateLimit Permits BufferBudget HealthState.
From S2P Require Import UpstreamPool ApiKeyAuth HttpHandler Admission ProxyMessage HealthCheck.
From S2P Require Import ServerState Server Metrics Handlers Exchange ExchangeKeeps ExchangeTells Transport Session SessionWalk SessionKeeps.

Local Open Scope Z_scope.

(** ** Responses *)

Definition version_ok (version : Z) : Prop := version = 10 \/ version = 11.

Section Responses.
Context {B : BeastHttp} {BL : BeastLaws B}.
Variable dump : Json -> text.

Lemma close_ends response : version_ok (rs_version response) -> rs_need_eof (rs_keep_alive false response) = true.
Proof. intros H. apply need_eof_close. by apply set_keep_alive_reads. Qed.

Lemma protocol_error_ends status code message : rs_need_eof (protocol_error dump status code message) = true.
Proof.
  apply need_eof_close. unfold protocol_error, rs_set, rs_keep_alive, rs_with_body, rs_prepare.
  cbn [rs_status rs_version rs_fields rs_body rs_reason HttpResponse_of].
  eapply set_keep_alive_get; [by right|]. apply prepare_fields_others; apply iequals_false_lower; reflexivity.
Qed.

Lemma limit_ends last response :
  version_ok (rs_version response) -> last = true -> rs_need_eof (limit_connection last response) = true.
Proof. intros H ->. by apply close_ends. Qed.

Lemma limit_version last response : rs_version (limit_connection last response) = rs_version response.
Proof. by destruct last. Qed.

Lemma gateway_version request failure : rs_version (make_gateway_error_response dump request failure) = rq_version request.
Proof. by destruct failure. Qed.

Lemma handle_version config request : rs_version (handle_http_request dump config request) = rq_version request.
Proof. unfold handle_http_request. by repeat case_match. Qed.

Lemma stream_header_version request p : rs_version (stream_header request p) = rq_version request.
Proof. unfold stream_header. by repeat case_match. Qed.

Lemma outcome_version request r : result_ok dump request r -> rs_version (pr_response r) = rq_version request.
Proof.
  unfold result_ok. destruct (pr_failure r), (pr_rejected r); try done.
  - intros [-> _]. apply gateway_version.
  - intros [-> _]. apply gateway_version.
  - by intros ((message & -> & _) & _).
Qed.

End Responses.

(** ** Observations *)

Lemma finish_first o m status now :
  (Metrics.finish o m status now).1.1 = negb (obs_completed_ o) /\
  obs_completed_ (Metrics.finish o m status now).1.2 = true.
Proof. unfold Metrics.finish. by destruct (obs_completed_ o) eqn:E. Qed.

Lemma reject_completed o m reason : obs_completed_ (Metrics.reject o m reason).1 = obs_completed_ o.
Proof. unfold Metrics.reject. destruct m; [|done]. by destruct (_ && _). Qed.

Lemma fail_completed o m stage : obs_completed_ (Metrics.fail o m stage).1 = obs_completed_ o.
Proof. unfold Metrics.fail, Metrics.fail_stream. destruct (negb _); [|done]. destruct m; [|done]. by destruct (_ && _). Qed.

Lemma begin_completed o now : obs_completed_ (begin_ o now) = obs_completed_ o.
Proof. unfold begin_. by case_ifs. Qed.

(** ** The invariant *)

Section Invariant.
Context {B : BeastHttp} {BL : BeastLaws B}.
Variable dump : Json -> text.
Variable evp_digest : text -> option ApiKeyDigest.
Variable double_chars : spec_float -> option text.
Variable config : AppConfig.
(** Starting a write may throw. *)
Variable stalls : Prop.

Implicit Types (s : Session) (w : SeWorld).

Definition steady (w : SeWorld) : Prop := (exists close e, sw_begin w (so_write close) = Throw e) -> stalls.

Definition limit : Z := max_requests_per_connection.

(** The counts, unless the start of an exchange has thrown. *)
Definition counts (s : Session) (Q : Z -> Z -> Prop) : Prop :=
  entry_start_failed ∈ se_log s \/ (0 <= fl_served (se_flags s) <= limit /\ Q (reads_of (se_log s)) (fl_served (se_flags s))).
Definition limited (s : Session) : Prop := counts s (fun reads _ => reads <= limit).
(** Another request may be read. *)
Definition room (s : Session) : Prop := counts s (fun reads served => reads = served /\ served < limit).
Definition being_read (s : Session) : Prop := counts s (fun reads served => reads = served + 1 /\ served < limit).
Definition being_served (s : Session) : Prop := counts s (fun reads served => reads = served).

Lemma counts_mono s (Q Q' : Z -> Z -> Prop) :
  counts s Q -> (forall reads served, 0 <= served <= limit -> Q reads served -> Q' reads served) -> counts s Q'.
Proof. intros [H|[H1 H2]] HQ; [by left|]. right. split; [done|]. by apply HQ. Qed.

Lemma room_limited s : room s -> limited s.
Proof. intros H. eapply counts_mono; [exact H|]. cbn. lia. Qed.
Lemma read_limited s : being_read s -> limited s.
Proof. intros H. eapply counts_mono; [exact H|]. cbn. lia. Qed.
Lemma served_limited s : being_served s -> limited s.
Proof. intros H. eapply counts_mono; [exact H|]. cbn. lia. Qed.

(** No exchange is in progress, and the proxy permit is not held. *)
Definition idle (s : Session) : Prop := px_slot (se_proxy s) = None /\ px_permit (se_proxy s) = None.

Definition slot_waits (silent : bool) (slot : Slot) : Prop :=
  exists request, version_ok (rq_version request) /\ waiting dump request (sl_exchange slot) /\
    if silent then log_phase (log_of (sl_exchange slot)) = Some lp_silent
    else log_phase (log_of (sl_exchange slot)) = Some lp_more \/ log_phase (log_of (sl_exchange slot)) = Some lp_final.

Definition in_progress (silent : bool) (s : Session) : Prop :=
  is_Some (px_permit (se_proxy s)) /\
  exists slot, px_slot (se_proxy s) = Some slot /\ slot_waits silent slot /\
    resumes (sl_exchange slot) = omap (fun op => match op with so_stream _ final => Some final | _ => None end) (se_pending s).

Definition unanswered (s : Session) : Prop :=
  turn (se_log s) = Some true /\ obs_completed_ (ms_observation (se_messages s)) = false.

Definition alive (s : Session) : Prop := fl_finished (se_flags s) = false /\ fl_stopping (se_flags s) = false.

Definition reading_ok (s : Session) : Prop :=
  idle s /\ unanswered s /\ being_read s /\
  exists incoming, ms_parser (se_messages s) = Some incoming /\
    (se_pending s = [so_read_header] \/
     se_pending s = [so_read_body] /\ version_ok (rq_version (in_request incoming))).

Definition proxying_ok (s : Session) : Prop :=
  in_progress true s /\ unanswered s /\ being_served s /\ se_pending s = [].

Definition writing_ok (s : Session) : Prop :=
  turn (se_log s) = Some false /\ limited s /\
  ((exists close, se_pending s = [so_write close] /\ idle s /\ (close = false -> room s)) \/
   (in_progress false s /\ (ms_stream_close (se_messages s) = false -> room s) /\
    is_Some (ms_stream_writer (se_messages s)) /\
    (se_pending s = [] \/ exists body final, se_pending s = [so_stream body final])) \/
   (stalls /\ idle s /\ se_pending s = [])).

Definition closing_ok (s : Session) : Prop :=
  idle s /\ is_Some (turn (se_log s)) /\ limited s /\ se_pending s = [so_shutdown].

Definition live_ok (s : Session) : Prop :=
  alive s /\
  match fl_phase (se_flags s) with
  | handshaking => idle s /\ se_log s = [] /\ fl_served (se_flags s) = 0 /\ se_pending s = [so_handshake]
  | reading => reading_ok s
  | proxying => proxying_ok s
  | writing => writing_ok s
  | closing => closing_ok s
  | finished => False
  end.

Definition over_ok (s : Session) : Prop :=
  fl_finished (se_flags s) = true /\ fl_phase (se_flags s) = finished /\ idle s /\ is_Some (turn (se_log s)) /\ limited s.

Definition settled (s : Session) : Prop := live_ok s \/ over_ok s.

(** ** Closing *)

(** A live session that can be closed; what a handler that throws leaves. *)
Definition closable (s : Session) : Prop :=
  fl_finished (se_flags s) = false /\ is_Some (turn (se_log s)) /\ limited s.
Definition failing (s : Session) : Prop := closable s \/ over_ok s.

(** [frame s s']: [s'] differs from [s] in what the invariant does not look at. *)
Record frame (s s' : Session) : Prop := mkFrame {
  frame_flags : se_flags s' = se_flags s;
  frame_log : se_log s' = se_log s;
  frame_pending : se_pending s' = se_pending s;
  frame_slot : px_slot (se_proxy s') = px_slot (se_proxy s);
  frame_permit : px_permit (se_proxy s') = px_permit (se_proxy s);
  frame_completed : obs_completed_ (ms_observation (se_messages s')) = obs_completed_ (ms_observation (se_messages s));
  frame_parser : ms_parser (se_messages s') = ms_parser (se_messages s);
  frame_close : ms_stream_close (se_messages s') = ms_stream_close (se_messages s);
  frame_writer : ms_stream_writer (se_messages s') = ms_stream_writer (se_messages s) }.

#[local] Instance frame_equivalence : Equivalence frame.
Proof.
  split.
  - by intros s.
  - intros s s' []. by constructor.
  - intros s s' s'' [] []. constructor; congruence.
Qed.

Ltac framed :=
  intros s s' []; cbv beta; unfold settled, closable, live_ok, over_ok, reading_ok, proxying_ok, writing_ok, closing_ok, in_progress,
    unanswered, limited, room, being_read, being_served, counts, idle, alive;
  repeat match goal with E : _ = _ |- _ => rewrite ?E; clear E end; reflexivity.

#[local] Instance alive_proper : Proper (frame ==> iff) alive.
Proof. framed. Qed.
#[local] Instance idle_proper : Proper (frame ==> iff) idle.
Proof. framed. Qed.
#[local] Instance unanswered_proper : Proper (frame ==> iff) unanswered.
Proof. framed. Qed.
#[local] Instance limited_proper : Proper (frame ==> iff) limited.
Proof. framed. Qed.
#[local] Instance room_proper : Proper (frame ==> iff) room.
Proof. framed. Qed.
#[local] Instance being_read_proper : Proper (frame ==> iff) being_read.
Proof. framed. Qed.
#[local] Instance being_served_proper : Proper (frame ==> iff) being_served.
Proof. framed. Qed.
#[local] Instance closable_proper : Proper (frame ==> iff) closable.
Proof. framed. Qed.
#[local] Instance settled_proper : Proper (frame ==> iff) settled.
Proof. framed. Qed.
#[local] Instance in_progress_proper silent : Proper (frame ==> iff) (in_progress silent).
Proof. framed. Qed.

(** What no handler's step changes but for the frame. *)
Definition minor {A} (m : M Session A) : Prop := forall s, keeps (frame s) m.

Lemma wp_minor {A} (m : M Session A) (Q : A -> Session -> Prop) E s :
  minor m -> (forall a s', frame s s' -> Q a s') -> (forall s', frame s s' -> E s') -> wp m Q E s.
Proof. intros Hm HQ HE. eapply wp_mono; [apply (Hm s); reflexivity|exact HQ|exact HE]. Qed.

Lemma minor_modify f : (forall s, frame s (f s)) -> minor (modify f).
Proof. intros Hf s. apply keeps_modify. intros s1 H. by rewrite H. Qed.

(** After the exchange is let go of. *)
Record released (s s' : Session) : Prop := mkReleased {
  released_flags : se_flags s' = se_flags s;
  released_log : se_log s' = se_log s;
  released_pending : se_pending s' = se_pending s;
  released_idle : idle s';
  released_messages : se_messages s' = se_messages s }.

Lemma wp_release_proxy (k : Handling) Q E s :
  (forall s', released s s' -> wp k Q E s') -> wp (reset_exchange;; reset_proxy_permit;; k) Q E s.
Proof.
  intros HQ. unfold reset_exchange, reset_proxy_permit. do 4 wp_step. apply HQ.
  destruct (px_slot (se_proxy s)) eqn:E1; cbn; destruct (px_permit (se_proxy s)) eqn:E2; by constructor.
Qed.

Lemma wp_cancel_proxy (k : Handling) Q E s :
  (forall s', released s s' -> wp k Q E s') -> wp (cancel_exchange;; reset_proxy_permit;; k) Q E s.
Proof.
  intros HQ. unfold cancel_exchange. do 3 wp_step.
  set (s1 := match px_slot (se_proxy s) with Some _ => _ | None => s end).
  assert (H1 : se_flags s1 = se_flags s /\ se_log s1 = se_log s /\ se_pending s1 = se_pending s /\ se_messages s1 = se_messages s)
    by (unfold s1; by destruct (px_slot _)).
  destruct H1 as (E1 & E2 & E3 & E4). pose proof (wp_release_proxy k Q E s1) as H. unfold wp in H at 2. cbn in H.
  apply H. intros s' []. apply HQ. constructor; congruence.
Qed.

Lemma wp_close (Q : unit -> Session -> Prop) E s :
  closable s -> (forall s', over_ok s' -> Q tt s') -> wp close_socket Q E s.
Proof.
  intros (Hf & Ht & Hl) HQ. unfold close_socket. do 2 wp_step. wp_step; [congruence|].
  apply wp_cancel_proxy. intros s' []. unfold se_finish. do 2 wp_step. wp_step; [congruence|]. wp_step. apply HQ.
  split; [done|]. split; [done|]. split; [done|]. unfold limited, counts. cbn. by rewrite released_log0, released_flags0.
Qed.

Lemma over_close s : over_ok s -> run close_socket s = s.
Proof. intros (H & _). unfold close_socket. eval_handler. by rewrite H. Qed.

(** [run_handler] *)
Lemma wp_handle (m : Handling) E s : wp m (fun _ => settled) failing s -> wp (handle m) (fun _ => settled) E s.
Proof.
  intros H. unfold handle. wp_step. eapply wp_mono; [exact H|done|]. intros s' [Hc|Ho].
  - apply wp_close; [done|]. by right.
  - unfold close_socket. do 2 wp_step. destruct Ho as (Hf & Ho). wp_step; [|congruence]. wp_step. right. by split.
Qed.

Lemma handle_ok (m : Handling) s : wp m (fun _ => settled) failing s -> settled (run (handle m) s).
Proof. intros H. by apply run_wp, wp_handle. Qed.

Lemma wp_close_settled s : closable s -> wp close_socket (fun _ => settled) failing s.
Proof. intros H. apply wp_close; [done|]. by right. Qed.

(** Nothing is pending and no exchange is in progress. *)
Definition quiet (s : Session) : Prop := alive s /\ idle s /\ se_pending s = [].

Lemma wp_graceful w s :
  quiet s -> is_Some (turn (se_log s)) -> limited s -> fl_phase (se_flags s) <> closing ->
  wp (graceful_close w) (fun _ => settled) failing s.
Proof.
  intros ([Hf Hst] & Hi & Hp) Ht Hl Hph. unfold graceful_close. do 2 wp_step.
  rewrite Hf, bool_decide_eq_false_2 by done. cbn [orb].
  do 2 wp_step. wp_step; [by apply wp_close_settled|]. do 2 wp_step. wp_step. unfold start_op. wp_step. wp_step.
  - wp_step. left. split; [done|]. cbn. split_and!; try done. cbn. by rewrite Hp.
  - by apply wp_close_settled.
Qed.

(** ** Reading and answering *)

Lemma wp_read_request w s :
  quiet s -> turn (se_log s) = Some false -> room s -> wp (read_request w) (fun _ => settled) failing s.
Proof.
  intros ([Hf Hst] & Hi & Hp) Ht Hr. unfold read_request. do 2 wp_step. wp_step.
  { apply wp_close_settled. split; [done|]. split; [by exists false|by apply room_limited]. }
  do 8 wp_step. unfold start_op. wp_step.
  set (s1 := upd_log entry_read _).
  assert (Ht1 : turn (se_log s1) = Some true) by (cbn; by rewrite turn_snoc, Ht).
  assert (Hr1 : being_read s1).
  { destruct Hr as [Hr|(Hs & Hr & Hlt)]; [left; cbn; apply elem_of_app; by left|]. right. cbn. rewrite reads_of_snoc. cbn. lia. }
  wp_step.
  - wp_step. left. split; [done|]. cbn. split_and!; try done. exists empty_Incoming. split; [done|]. left.
    cbn. by rewrite Hp.
  - left. split; [done|]. split; [by exists true|by apply read_limited].
Qed.

Definition answerable (s : Session) : Prop := quiet s /\ unanswered s /\ limited s.

(** After an answer whose write could not be started. *)
Definition unwritten (s : Session) : Prop :=
  stalls /\ quiet s /\ turn (se_log s) = Some false /\ obs_completed_ (ms_observation (se_messages s)) = true /\
  fl_phase (se_flags s) = writing /\ limited s.

Lemma limited_reply s status : limited s -> limited (upd_log (entry_reply status) s).
Proof.
  intros [H|H]; [left; cbn; apply elem_of_app; by left|]. right. cbn. rewrite reads_of_snoc. cbn. by rewrite Z.add_0_r.
Qed.
Lemma room_reply s status : room s -> room (upd_log (entry_reply status) s).
Proof.
  intros [H|H]; [left; cbn; apply elem_of_app; by left|]. right. cbn. rewrite reads_of_snoc. cbn. by rewrite Z.add_0_r.
Qed.

Lemma wp_finish_observation w status (Q : bool -> Session -> Prop) E s :
  obs_completed_ (ms_observation (se_messages s)) = false ->
  (forall o m, obs_completed_ o = true -> Q true (set_metrics m (set_observation o s))) ->
  wp (finish_observation w status) Q E s.
Proof.
  intros H HQ. unfold wp, finish_observation.
  pose proof (finish_first (ms_observation (se_messages s)) (sh_metrics (se_shared s)) status (sw_now w)) as [H1 H2].
  destruct (Metrics.finish _ _ _ _) as [[first o] m]. cbn in *. rewrite H1, H. by apply HQ.
Qed.

Lemma wp_write w response permit s :
  steady w -> answerable s -> version_ok (rs_version response) -> (rs_need_eof response = false -> room s) ->
  wp (write_response w response permit) (fun _ => settled) unwritten s.
Proof.
  intros Hw (([Hf Hst] & Hi & Hp) & [Ht Ho] & Hl) Hv Hr. unfold write_response. do 2 wp_step. rewrite Hf, Hst. cbn [orb].
  wp_step. apply wp_finish_observation; [done|]. intros o m Ho'. cbn [negb]. do 4 wp_step.
  set (draining := fl_draining _). set (r := if draining then _ else response).
  assert (Hr' : rs_need_eof r = false -> room s).
  { subst r. destruct draining; [|done]. by rewrite close_ends. }
  clearbody r. do 2 wp_step. unfold store_response_permit, release_permit. do 8 wp_step.
  unfold start_op. wp_step. set (s1 := upd_log _ _).
  assert (Ht1 : turn (se_log s1) = Some false) by (cbn; by rewrite turn_snoc, Ht).
  wp_step.
  - wp_step. left. split; [done|]. cbn. split_and!; [done|by apply (limited_reply s)|]. left. eexists.
    split; [cbn; by rewrite Hp|]. split; [done|]. intros E. by apply (room_reply s), Hr'.
  - split; [|split; [done|]].
    + apply Hw. by eexists _, _.
    + split_and!; try done. by apply (limited_reply s).
Qed.

(** ** Steps that keep the frame *)

Ltac minor_match := unfold minor; intros s0; apply keeps_modify; intros s H; etransitivity; [exact H|].

Lemma minor_drop id : minor (drop_object id).
Proof. minor_match. destruct id as [i|]; [|done]. destruct (_ !! i) as [[p [|[|n]]]|]; done. Qed.
Lemma minor_share id : minor (share_object id).
Proof. minor_match. destruct id as [i|]; [|done]. by destruct (_ !! i) as [[p n]|]. Qed.
Lemma minor_reset_request : minor reset_request_permit.
Proof. intros s0. unfold reset_request_permit. repeat keep_step; [by apply minor_modify|apply minor_drop]. Qed.
Lemma minor_release p : minor (release_permit p).
Proof. minor_match. done. Qed.
Lemma minor_make p : minor (make_object p).
Proof. intros s0. unfold make_object. keep_step; [apply minor_reset_request|by apply minor_modify]. Qed.
Lemma minor_reject reason : minor (reject_observation reason).
Proof.
  minor_match. pose proof (reject_completed (ms_observation (se_messages s)) (sh_metrics (se_shared s)) reason) as Hc.
  by destruct (Metrics.reject _ _ _).
Qed.
Lemma minor_fail stage : minor (fail_observation stage).
Proof.
  minor_match. pose proof (fail_completed (ms_observation (se_messages s)) (sh_metrics (se_shared s)) stage) as Hc.
  by destruct (Metrics.fail _ _ _).
Qed.
Lemma minor_acquire_body bytes : minor (acquire_body bytes).
Proof.
  intros s0 s H. unfold wp, acquire_body. destruct (budget_try_acquire _ _ _). by rewrite H.
Qed.
Lemma minor_shrink bytes : minor (shrink_request_permit bytes).
Proof.
  intros s0 s H. unfold wp, shrink_request_permit. destruct (ms_request_permit _) as [i|]; [|done].
  destruct (_ !! i) as [[p n]|]; [|done]. destruct (shrink_to _ _ _) as [[heap p'] d]. by rewrite H.
Qed.
Lemma minor_admission w route : minor (acquire_admission w route).
Proof.
  intros s0 s H. unfold wp, acquire_admission. destruct (admission_try_acquire _ _ _ _ _) as [[proxies adm] [r|e]]; by rewrite H.
Qed.

Lemma unwritten_closable s : unwritten s -> closable s.
Proof. intros (_ & ([Hf _] & _) & Ht & _ & _ & Hl). split; [done|]. split; [by exists false|done]. Qed.
Lemma answerable_closable s : answerable s -> closable s.
Proof. intros (([Hf _] & _) & [Ht _] & Hl). split; [done|]. split; [by exists true|done]. Qed.

#[local] Instance quiet_proper : Proper (frame ==> iff) quiet.
Proof. unfold quiet. framed. Qed.
#[local] Instance answerable_proper : Proper (frame ==> iff) answerable.
Proof. unfold answerable, quiet. framed. Qed.

(** ** Protocol errors *)

Lemma wp_write_error w status code message s :
  steady w -> answerable s -> wp (write_protocol_error dump w status code message) (fun _ => settled) failing s.
Proof.
  intros Hw H. unfold write_protocol_error. pose proof (answerable_closable s H) as Hc.
  wp_step. wp_step; [|by left]. wp_step. wp_step; [|by left].
  eapply wp_mono; [apply wp_write; [done..|by right|by rewrite protocol_error_ends]|done|].
  intros s' Hs. left. by apply unwritten_closable.
Qed.

Lemma wp_read_error w e s :
  steady w -> answerable s -> fl_phase (se_flags s) <> closing ->
  wp (handle_read_error dump w e) (fun _ => settled) failing s.
Proof.
  intros Hw H Hph. pose proof (answerable_closable s H) as Hc. unfold handle_read_error, body_too_large.
  pose proof H as (Hq & [Ht _] & Hl). wp_step. { by apply wp_graceful. }
  wp_step; [by apply wp_close_settled|].
  wp_step. { wp_step. wp_step; [by apply wp_close_settled|by left]. }
  wp_step; [by apply wp_write_error|]. wp_step; [by apply wp_write_error|].
  wp_step. wp_step; [by apply wp_write_error|by left].
Qed.

(** ** Proxied requests *)

(** A request that is being served; the answer is due. *)
Definition serving (s : Session) : Prop := quiet s /\ unanswered s /\ being_served s.

Lemma serving_answerable s : serving s -> answerable s.
Proof. intros (H1 & H2 & H3). split; [done|]. split; [done|by apply served_limited]. Qed.

#[local] Instance serving_proper : Proper (frame ==> iff) serving.
Proof. unfold serving, quiet. framed. Qed.

Lemma not_last_room s : being_served s -> last_request s = false -> room s.
Proof.
  unfold last_request. intros [H|[Hs E]] El; [by left|]. reflect_bools. right. split; [done|]. unfold limit. lia.
Qed.

Lemma wp_write_last w last response permit s :
  steady w -> serving s -> version_ok (rs_version response) -> last = last_request s ->
  wp (write_response w (limit_connection last response) permit) (fun _ => settled) unwritten s.
Proof.
  intros Hw H Hv ->. apply wp_write; [done|by apply serving_answerable|by rewrite limit_version|].
  intros E. destruct (last_request s) eqn:El; [by rewrite limit_ends in E|]. apply not_last_room; [apply H|done].
Qed.

Lemma wp_write_limited w response s :
  steady w -> serving s -> version_ok (rs_version response) ->
  wp (write_limited w response) (fun _ => settled) unwritten s.
Proof. intros Hw H Hv. unfold write_limited. do 2 wp_step. by apply wp_write_last. Qed.

(** What an exception leaves of the start of an exchange. *)
Definition refused (s : Session) : Prop :=
  alive s /\ se_pending s = [] /\ (unanswered s /\ limited s \/ unwritten s).

#[local] Instance refused_proper : Proper (frame ==> iff) refused.
Proof. unfold refused, unwritten, quiet. framed. Qed.

Lemma serving_refused s : serving s -> refused s.
Proof. intros ((Ha & _ & Hp) & Hu & Hs). split; [done|]. split; [done|]. left. split; [done|by apply served_limited]. Qed.
Lemma unwritten_refused s : unwritten s -> refused s.
Proof. intros H. pose proof H as (_ & (Ha & _ & Hp) & _). split_and!; try done. by right. Qed.

Lemma wp_create w selected request (Q : unit -> Session -> Prop) E s :
  px_slot (se_proxy s) = None -> (forall s', frame s s' -> E s') ->
  (forall s' x id, frame s s' -> fresh dump request x -> Q tt (set_slot (Some (mkSlot x (rq_method request) id)) s')) ->
  wp (create_exchange config w selected request) Q E s.
Proof.
  intros Hnone HE HQ. unfold wp, create_exchange. destruct (make_exchange _ _ _ _ _ _ _ _ _ _ _) as [pool [x|e]] eqn:Em.
  - cbn zeta. set (s1 := run (share_object _) _).
    assert (H1 : frame s s1) by (apply (run_keeps (frame s)); [apply minor_share|done]).
    assert (Hn : px_slot (se_proxy s1) = None) by (rewrite <- Hnone; by destruct H1).
    clearbody s1. assert (Hr : run reset_exchange s1 = s1) by (unfold run, reset_exchange; cbn; by rewrite Hn).
    rewrite Hr. apply HQ; [done|by eapply make_fresh].
  - by apply HE.
Qed.

Lemma silent_resumes request x :
  waiting dump request x -> log_phase (log_of x) = Some lp_silent -> resumes x = [].
Proof.
  intros (op & _ & Hp & [_ Hf] & _) Hl. unfold resumes. rewrite Hp. cbn.
  destruct op as [| | | | | | |[]]; try done; destruct Hf as [Hf _]; congruence.
Qed.

Lemma wp_start_exchange w request slot s (Q : unit -> Session -> Prop) E :
  px_slot (se_proxy s) = Some slot -> fresh dump request (sl_exchange slot) -> version_ok (rq_version request) ->
  (forall s' x id, frame (set_slot (Some (mkSlot x (sl_method slot) id)) s) s' ->
     slot_waits true (mkSlot x (sl_method slot) id) -> resumes x = [] -> Q tt s') ->
  (forall s', se_flags s' = se_flags s -> se_log s' = se_log s -> se_pending s' = se_pending s ->
     se_messages s' = se_messages s -> E s') ->
  wp (start_exchange w) Q E s.
Proof.
  intros Hs Hf Hv HQ HE. unfold wp, start_exchange. rewrite Hs.
  set (x0 := load_exchange (se_shared s) (sl_exchange slot)). assert (Hf0 : fresh dump request x0) by exact Hf.
  pose proof (ex_start_ok dump request (sw_exchange w) x0 Hf0) as Hw. pose proof (ex_start_log (sw_exchange w) x0) as Hl.
  unfold wp in Hw. destruct (ex_start (sw_exchange w) x0) as [x [u|e]]; [|by apply HE]. destruct u.
  assert (Hlog : log_phase (log_of x) = Some lp_silent).
  { destruct Hf0 as (_ & _ & _ & _ & E0 & _). by rewrite (eq_trans Hl E0 : log_of x = []). }
  apply (HQ _ x (sl_permit slot)); [done|by exists request|by eapply silent_resumes].
Qed.

(** The exchange is being made, and has the proxy permit. *)
Definition proxying_start (s : Session) : Prop :=
  alive s /\ unanswered s /\ being_served s /\ se_pending s = [] /\ fl_phase (se_flags s) = proxying /\
  is_Some (px_permit (se_proxy s)).
#[local] Instance proxying_start_proper : Proper (frame ==> iff) proxying_start.
Proof. unfold proxying_start. framed. Qed.

Lemma start_refused s : proxying_start s -> refused s.
Proof. intros (Ha & Hu & Hs & Hp & _). split; [done|]. split; [done|]. left. split; [done|by apply served_limited]. Qed.

Lemma wp_admit w request route s :
  steady w -> serving s -> fl_phase (se_flags s) = proxying -> version_ok (rq_version request) ->
  wp (admit_request dump config w request route) (fun _ => settled) refused s.
Proof.
  intros Hw H Hph Hv. unfold admit_request.
  assert (Hanswer : forall s' reason response, serving s' -> rs_version response = rq_version request ->
    wp (reject_observation reason;; answer (sw_builds w);; write_limited w response) (fun _ => settled) refused s').
  { intros s1 reason response H1 E. wp_step. apply wp_minor; [apply minor_reject| |]; intros; rewrite H0 in H1.
    - wp_step. wp_step; [|by apply serving_refused].
      eapply wp_mono; [apply wp_write_limited; [done|done|by rewrite E]|done|apply unwritten_refused].
    - by apply serving_refused. }
  wp_step. apply wp_minor; [apply minor_admission| |]; intros; rewrite H0 in H; [|by apply serving_refused].
  wp_step; [|by apply Hanswer]. wp_step; [by apply Hanswer, gateway_version|].
  wp_step. unfold reset_proxy_permit at 1. wp_step. assert (Hno : px_permit (se_proxy s') = None).
  { by destruct H as ((_ & [_ Hi] & _) & _). }
  rewrite Hno. wp_step. wp_step. destruct (ar_permit a) as [permit|].
  2:{ apply Hanswer; [|by apply gateway_version]. destruct H as ((Ha & [Hi1 Hi2] & Hp) & Hu & Hs). by split_and!. }
  set (s1 := set_proxy_permit (Some permit) s').
  assert (Hgo : proxying_start s1).
  { destruct H as ((Ha & Hi & Hp) & Hu & Hs). unfold proxying_start. split_and!; try done. cbn. by destruct H0 as [-> _ _ _ _ _ _ _]. }
  destruct (ar_upstream a) as [selected|]; [|by wp_step; apply start_refused].
  wp_step. apply wp_create; [by destruct H as ((_ & [Hi _] & _) & _)|intros s2 Hs2; rewrite Hs2 in Hgo; by apply start_refused|]. intros s2 x id Hs2 Hx.
  rewrite Hs2 in Hgo. clearbody s1. clear dependent s' s1.
  wp_step. set (s3 := set_slot _ s2). assert (Hgo3 : proxying_start s3) by exact Hgo. eapply (wp_start_exchange w request); [done..| |].
  - intros s4 x' id' Hs4 Hwait Hres. assert (Hgo4 : proxying_start s4) by (by rewrite <- Hs4).
    destruct Hs4 as [_ _ _ Hslot _ _ _ _]. wp_step. wp_step. apply wp_minor; [apply minor_reset_request| |].
    + intros [] s5 Hs5. rewrite <- Hs5. left. destruct Hgo4 as (Ha & Hu & Hs & Hp & Hph4 & Hper). split; [done|].
      cbn. rewrite Hph4. split; [|by split_and!]. split; [done|]. eexists. split; [exact Hslot|]. split; [done|].
      cbn. by rewrite Hp.
    + intros s5 Hs5. rewrite <- Hs5. by apply start_refused.
  - intros s4 E1 E2 E3 E4. pose proof (start_refused _ Hgo3) as (Ha & Hp & Hr). split; [|split; [by rewrite E3|]].
    + unfold alive. by rewrite E1.
    + left. destruct Hgo3 as (_ & Hu & Hs & _). split; [|apply served_limited]; unfold unanswered, being_served, counts; by rewrite ?E1, E2, ?E4.
Qed.

(** After an exception the exchange is let go of, and the answer is due unless its write could not
    be started. *)
Definition recovering (s : Session) : Prop :=
  quiet s /\ entry_start_failed ∈ se_log s /\
  (unanswered s \/
   stalls /\ turn (se_log s) = Some false /\ obs_completed_ (ms_observation (se_messages s)) = true /\
   fl_phase (se_flags s) = writing).
#[local] Instance recovering_proper : Proper (frame ==> iff) recovering.
Proof. unfold recovering, quiet. framed. Qed.

Lemma recovering_closable s : recovering s -> closable s.
Proof.
  intros (([Hf _] & _) & Hin & H). split; [done|]. split; [|by left].
  destruct H as [[H _]|(_ & H & _)]; by eexists.
Qed.

Lemma turn_failed log due : turn log = Some due -> turn (log ++ [entry_start_failed]) = Some due.
Proof. intros E. rewrite turn_snoc, E. by destruct due. Qed.

Lemma wp_write_again w response permit s (Q : unit -> Session -> Prop) E :
  obs_completed_ (ms_observation (se_messages s)) = true -> (forall s', frame s s' -> Q tt s') ->
  wp (write_response w response permit) Q E s.
Proof.
  intros Hc HQ. unfold write_response. do 2 wp_step. wp_step.
  set (over := fl_finished _ || _).
  assert (H : wp (if over then mret false else finish_observation w (rs_status response))
    (fun first s' => first = false /\ frame s s') (fun _ => False) s).
  { destruct over; [by wp_step|]. unfold wp, finish_observation, Metrics.finish. rewrite Hc. cbn. split; [done|].
    by constructor. }
  eapply wp_mono; [exact H| |done]. intros first s' [-> Hs]. cbn [negb].
  unfold release_permit. wp_step. apply HQ. by rewrite Hs.
Qed.

Lemma wp_recover w request s :
  steady w -> refused s -> version_ok (rq_version request) ->
  wp (admit_failed dump w request) (fun _ => settled) failing s.
Proof.
  intros Hw (Ha & Hp & Hr) Hv. unfold admit_failed. wp_step. wp_step. apply wp_cancel_proxy. intros s1 [E1 E2 E3 Hi E5].
  cbn in E2.
  assert (H : recovering s1).
  { unfold recovering, quiet, alive, unanswered. rewrite E1, E2, E3, E5. split; [done|]. split; [apply elem_of_app; right; by left|].
    destruct Hr as [[[Ht Ho] _]|(Hst & _ & Ht & Ho & Hph & _)]; [left|right]; by rewrite (turn_failed _ _ Ht). }
  clear - H Hw Hv BL. wp_step. wp_step. wp_step; [|by apply wp_close_settled, recovering_closable].
  wp_step. apply wp_minor; [apply minor_fail| |]; intros; rewrite H1 in H; [|by apply wp_close_settled, recovering_closable].
  pose proof H as (Hq & Hin & [Hu|(Hst & Ht & Ho & Hph)]).
  - eapply wp_mono; [apply wp_write; [done|by split_and!; try left|by rewrite gateway_version|by left]|done|].
    intros s2 Hs2. by apply wp_close_settled, unwritten_closable.
  - apply wp_write_again; [done|]. intros s2 Hs2. rewrite <- Hs2. left. destruct Hq as (Ha & Hi & Hp).
    split; [done|]. rewrite Hph. split; [done|]. split; [by left|]. by right; right.
Qed.

Lemma wp_start_proxy w request route s :
  steady w -> serving s -> fl_phase (se_flags s) = proxying -> version_ok (rq_version request) ->
  wp (start_proxy_request dump config w request route) (fun _ => settled) failing s.
Proof.
  intros Hw H Hph Hv. unfold start_proxy_request. wp_step.
  eapply wp_mono; [by apply wp_admit|done|]. intros s' Hs'. by apply wp_recover.
Qed.

(** ** Requests *)

(** The handler of a read runs: the request, or its header, is in the parser. *)
Definition received (s : Session) (incoming : Incoming) : Prop :=
  quiet s /\ unanswered s /\ being_read s /\ fl_phase (se_flags s) = reading /\
  ms_parser (se_messages s) = Some incoming.

Lemma received_proper s s' incoming : frame s s' -> received s incoming -> received s' incoming.
Proof. intros []. unfold received, quiet, alive, idle, unanswered, being_read, counts. congruence. Qed.

Lemma received_answerable s incoming : received s incoming -> answerable s.
Proof. intros (Hq & Hu & Hr & _). split; [done|]. split; [done|by apply read_limited]. Qed.

Lemma received_closable s incoming : received s incoming -> closable s.
Proof. intros H. by eapply answerable_closable, received_answerable. Qed.

Lemma count_serving s : quiet s -> unanswered s -> being_read s -> serving (count_request s).
Proof.
  intros Hq Hu Hr. split; [done|]. split; [done|]. destruct Hr as [Hr|(Hs & Hr & Hlt)]; [by left|]. right. cbn.
  unfold limit, max_requests_per_connection in *. rewrite u64_small by (unfold in_u64; lia). lia.
Qed.

Lemma wp_unwritten (m : Handling) s :
  wp m (fun _ => settled) unwritten s -> wp m (fun _ => settled) failing s.
Proof. intros H. eapply wp_mono; [exact H|done|]. intros s' Hs. left. by apply unwritten_closable. Qed.

Lemma serving_failing s : serving s -> failing s.
Proof. intros H. left. by apply answerable_closable, serving_answerable. Qed.

Lemma wp_process w s incoming :
  steady w -> received s incoming -> version_ok (rq_version (in_request incoming)) ->
  wp (process_request dump evp_digest double_chars config w) (fun _ => settled) failing s.
Proof.
  intros Hw (Hq & Hu & Hr & Hph & Hp) Hv. unfold process_request, answer_locally. do 2 wp_step. rewrite Hp.
  wp_step. apply wp_minor.
  { apply minor_modify. intros s1. constructor; try done. cbn. apply begin_completed. }
  2:{ intros s1 H1. left. rewrite <- H1. by apply (received_closable s incoming). }
  intros _ s1 H1. wp_step. wp_step.
  assert (H : serving (count_request s1)) by (apply count_serving; by rewrite <- H1).
  set (s2 := count_request s1) in *. clearbody s2. clear dependent s s1.
  destruct (select_http_route _ _) as [selected|].
  - wp_step. wp_step; [|by apply serving_failing]. wp_step.
    + wp_step. wp_step. apply wp_start_proxy; done.
    + wp_step. wp_step; [|by apply serving_failing]. by apply wp_unwritten, wp_write_limited.
  - wp_step. wp_step; [|by apply serving_failing]. wp_step.
    eapply (wp_mono _ (fun response s' => s' = s2 /\ rs_version response = rq_version (in_request incoming)) _ (fun s' => s' = s2)).
    + wp_step.
      * wp_step. wp_step. wp_step. wp_step; [by wp_step|done].
      * wp_step. split; [done|apply handle_version].
    + intros response s' [-> E]. apply wp_unwritten, wp_write_limited; [done..|by rewrite E].
    + intros s' ->. by apply serving_failing.
Qed.

(** The handler goes on when its session is not over. *)
Lemma wp_alive (m : Handling) Q E s :
  alive s -> wp m Q E s ->
  wp (finished ← reads (fun s => fl_finished (se_flags s)); if finished : bool then mret tt else m) Q E s.
Proof. intros [Hf _] H. do 2 wp_step. by rewrite Hf. Qed.

Lemma wp_parser_invalid w s : closable s -> wp (parser_invalid w) (fun _ => settled) failing s.
Proof. intros H. unfold parser_invalid. wp_step. wp_step; [by apply wp_close_settled|by left]. Qed.

Lemma wp_reject_buffer w request s incoming :
  steady w -> received s incoming -> version_ok (rq_version request) ->
  wp (reject_buffer dump w request) (fun _ => settled) failing s.
Proof.
  intros Hw H Hv. unfold reject_buffer. wp_step. apply wp_minor; [apply minor_reject| |].
  - intros _ s1 H1. pose proof (received_proper _ _ _ H1 H) as Hr. wp_step. wp_step; [|left; by eapply received_closable].
    apply wp_unwritten, wp_write; [done|by eapply received_answerable|exact Hv|].
    rewrite close_ends; [done|]. by rewrite gateway_version.
  - intros s1 H1. left. rewrite <- H1. by eapply received_closable.
Qed.

Lemma wp_on_header w e s incoming :
  steady w -> received s incoming -> (failed e = false -> version_ok (rq_version (in_request incoming))) ->
  wp (on_request_header dump evp_digest double_chars config w e) (fun _ => settled) failing s.
Proof.
  intros Hw H Hv. unfold on_request_header. wp_step. apply wp_minor.
  { apply minor_modify. intros s1. by destruct (ms_parser _). }
  2:{ intros s1 H1. left. rewrite <- H1. by eapply received_closable. }
  intros _ s1 H1. apply (received_proper _ _ _ H1) in H. clear dependent s. rename s1 into s.
  pose proof (received_answerable _ _ H) as Ha. pose proof H as (Hq & _ & Hr & Hph & Hp).
  apply wp_alive; [apply Hq|]. wp_step; [by apply wp_read_error; [..|rewrite Hph]|].
  specialize (Hv ltac:(assumption)). do 2 wp_step. rewrite Hp. unfold body_too_large.
  wp_step; [by apply wp_write_error|]. wp_step; [by apply wp_write_error|].
  destruct (plan_kind _); [by apply (wp_process w s incoming)| |by apply wp_write_error].
  wp_step. apply wp_minor; [apply minor_acquire_body| |]; [|intros s1 Hs1; left; rewrite <- Hs1; by eapply received_closable].
  intros [permit|] s1 Hs1; apply (received_proper _ _ _ Hs1) in H; [|by eapply wp_reject_buffer].
  clear dependent s. wp_step. apply wp_minor; [apply minor_make| |];
    [intros [] s' Hs'|intros s' Hs']; apply (received_proper _ _ _ Hs') in H; [|left; by eapply received_closable].
  clear dependent s1.
  unfold start_op. wp_step. wp_step; [|left; by eapply received_closable].
  wp_step. left. destruct H as ((Ha & Hi & Hpe) & Hu & Hr & Hph & Hp). split; [done|]. cbn. rewrite Hph.
  split; [done|]. split; [done|]. split; [done|]. exists incoming. split; [done|]. right. cbn. by rewrite Hpe.
Qed.

Lemma wp_on_body w e s incoming :
  steady w -> received s incoming -> version_ok (rq_version (in_request incoming)) ->
  wp (on_request_body dump evp_digest double_chars config w e) (fun _ => settled) failing s.
Proof.
  intros Hw H Hv. pose proof (received_answerable _ _ H) as Ha. pose proof H as (Hq & _ & Hr & Hph & Hp).
  unfold on_request_body. apply wp_alive; [apply Hq|]. wp_step; [by apply wp_read_error; [..|rewrite Hph]|].
  do 2 wp_step. rewrite Hp. wp_step. apply wp_minor; [apply minor_shrink| |]; intros.
  - apply (received_proper _ _ _ H1) in H. wp_step; [by eapply wp_process|]. apply wp_close_settled. by eapply received_closable.
  - left. rewrite <- H1. by eapply received_closable.
Qed.

(** ** Writing *)

(** The last write of the answer has been made. *)
Definition flushed (close : bool) (s : Session) : Prop :=
  quiet s /\ fl_phase (se_flags s) = writing /\ turn (se_log s) = Some false /\ limited s /\ (close = false -> room s).

Lemma flushed_proper close s s' : frame s s' -> flushed close s -> flushed close s'.
Proof. intros []. unfold flushed, quiet, alive, idle, room, limited, counts. rewrite frame_flags0, frame_log0, frame_pending0,
  frame_slot0, frame_permit0. done. Qed.

Lemma flushed_closable close s : flushed close s -> closable s.
Proof. intros (([Hf _] & _) & _ & Ht & Hl & _). split; [done|]. split; [by eexists|done]. Qed.

(** The connection goes on with the next request, or is closed. *)
Lemma wp_go_on w (close : bool) s :
  flushed close s ->
  wp (draining ← reads (fun s => fl_draining (se_flags s));
      if close || draining then graceful_close w else read_request w) (fun _ => settled) failing s.
Proof.
  intros (Hq & Hph & Ht & Hl & Hr). do 2 wp_step. wp_step.
  - apply wp_graceful; [done|by eexists|done|by rewrite Hph].
  - destruct close; [done|]. apply wp_read_request; auto.
Qed.

Lemma wp_on_written w e close s : flushed close s -> wp (on_written w e close) (fun _ => settled) failing s.
Proof.
  intros H. unfold on_written. apply wp_alive; [apply H|]. do 2 wp_step.
  unfold store_response_permit, release_permit. do 8 wp_step. set (s1 := set_parser None _).
  assert (H1 : flushed close s1) by exact H. clearbody s1. clear H s.
  wp_step. apply wp_minor; [apply minor_reset_request|intros [] s Hs|intros s Hs];
    apply (flushed_proper close _ _ Hs) in H1; [|left; by eapply flushed_closable].
  do 2 wp_step. destruct (classify_http_write_result _ _); [by apply wp_go_on|..];
    by eapply wp_close_settled, flushed_closable.
Qed.

(** ** Callbacks of the exchange *)

Definition alive_closable (s : Session) : Prop := alive s /\ closable s.

Lemma wp_aborted E s : alive_closable s -> wp on_proxy_aborted (fun _ => over_ok) E s.
Proof.
  intros [[Hf Hst] Hc]. unfold on_proxy_aborted. apply wp_release_proxy. intros s1 [E1 E2 E3 Hi E5].
  do 2 wp_step. rewrite E1, Hf, Hst. cbn [orb]. apply wp_close; [|done]. unfold closable, limited, counts.
  by rewrite E1, E2.
Qed.

Definition in_service (s : Session) : Prop := alive s /\ unanswered s /\ being_served s /\ se_pending s = [].

Lemma in_service_closable s : in_service s -> alive_closable s.
Proof. intros (Ha & [Ht _] & Hs & _). split; [done|]. split; [apply Ha|]. split; [by eexists|by apply served_limited]. Qed.

Lemma wp_completed w r s E :
  steady w -> in_service s -> version_ok (rs_version (pr_response r)) ->
  wp (on_proxy_complete w r) (fun _ => settled) E s.
Proof.
  intros Hw (Ha & Hu & Hs & Hp) Hv. unfold on_proxy_complete. wp_step. apply wp_release_proxy. intros s1 [E1 E2 E3 Hi E5].
  assert (H : serving s1).
  { unfold serving, quiet, alive, unanswered, being_served, counts in *. by rewrite E1, E2, E3, E5. }
  clear - H Hw Hv BL. do 2 wp_step. destruct H as (Hq & Hu & Hs). pose proof Hq as ([Hf Hst] & _).
  pose proof Hu as [_ Ho]. rewrite Hf, Hst, Ho. cbn [orb]. do 2 wp_step.
  set (last := last_request s1).
  assert (Hgo : forall s, frame s1 s -> wp (write_response w (limit_connection last (pr_response r)) (pr_permit r))
    (fun _ => settled) (wp close_socket (fun _ => settled) E) s).
  { intros s Hs1. pose proof Hs1 as [Ef _ _ _ _ _ _ _]. rewrite Hs1 in Hq, Hu, Hs.
    eapply wp_mono; [apply wp_write_last; [done|done|done|unfold last, last_request; by rewrite Ef]|done|].
    intros s2 Hs2. apply wp_close; [by apply unwritten_closable|]. by right. }
  clearbody last. wp_step.
  assert (Hclose : forall s, frame s1 s -> wp close_socket (fun _ => settled) E s).
  { intros s Hs1. apply wp_close; [|by right]. rewrite <- Hs1.
    by apply answerable_closable, serving_answerable. }
  apply wp_minor.
  { destruct (pr_failure r); [apply minor_fail|intros ?; apply keeps_ret]. }
  2:{ exact Hclose. }
  intros _ s2 Hs2. wp_step. apply wp_minor.
  { destruct (pr_rejected r); [apply minor_reject|intros ?; apply keeps_ret]. }
  - intros _ s3 Hs3. apply Hgo. by rewrite Hs2.
  - intros s3 Hs3. apply Hclose. by rewrite Hs2.
Qed.

(** A streamed answer is being written. *)
Definition streaming (s : Session) : Prop :=
  alive s /\ fl_phase (se_flags s) = writing /\ turn (se_log s) = Some false /\ limited s /\
  (ms_stream_close (se_messages s) = false -> room s) /\ is_Some (ms_stream_writer (se_messages s)).

Lemma streaming_closable s : streaming s -> alive_closable s.
Proof. intros (Ha & _ & Ht & Hl & _). split; [done|]. split; [apply Ha|]. split; [by eexists|done]. Qed.

Lemma wp_finished w failure downstream_failed s E :
  streaming s -> (failure = None -> downstream_failed = false -> se_pending s = []) ->
  wp (on_stream_complete w failure downstream_failed) (fun _ => settled) E s.
Proof.
  intros (Ha & Hph & Ht & Hl & Hr & _) Hpend. unfold on_stream_complete.
  apply wp_handle.
  apply wp_release_proxy. intros s0 [E1 E2 E3 Hi E5]. apply (f_equal ms_stream_close) in E5. do 2 wp_step.
  set (s1 := set_writer None s0).
  change (se_flags s1 = se_flags s) in E1. change (se_log s1 = se_log s) in E2. change (se_pending s1 = se_pending s) in E3.
  change (idle s1) in Hi. change (ms_stream_close (se_messages s1) = ms_stream_close (se_messages s)) in E5. clearbody s1. clear s0.
  do 2 wp_step. destruct Ha as [Hf Hst]. rewrite E1, Hf, Hst. cbn [orb].
  assert (Hc : closable s1).
  { unfold closable, limited, counts. rewrite E1, E2. split; [done|]. split; [by eexists|done]. }
  destruct failure as [f|].
  - wp_step. unfold fail_stream_observation. wp_step. destruct (Metrics.fail_stream _ _ _) as [o m].
    wp_step. wp_step; [|by left]. by apply wp_close_settled.
  - wp_step.
    { wp_step. wp_step; [|by left]. by apply wp_close_settled. }
    destruct downstream_failed; [done|]. do 2 wp_step.
    assert (Hq : quiet s1) by (split_and!; [split; congruence|done|rewrite E3; by apply Hpend]).
    wp_step.
    + apply wp_graceful; [done|apply Hc|apply Hc|by rewrite E1, Hph].
    + apply wp_read_request; [done|by rewrite E2|]. unfold room, counts in *. rewrite E1, E2, E5 in *. reflect_bools. auto.
Qed.

(** Handing on a piece of the response; it throws only with the callback. *)
Definition handed (w : SeWorld) (op : SeOp) (s s' : Session) : Prop :=
  streaming s' /\ se_proxy s' = se_proxy s /\ se_pending s' = op :: se_pending s.
Definition not_handed (w : SeWorld) (s' : Session) : Prop :=
  alive_closable s' /\ exists e, xw_callback (sw_exchange w) = Throw e.

Lemma wp_stream_header w header final s :
  alive s -> unanswered s -> being_served s -> version_ok (rs_version header) ->
  wp (write_stream_header dump w header final) (fun _ s' => handed w (so_stream false final) s s') (not_handed w) s.
Proof.
  intros [Hf Hst] [Ht Ho] Hs Hv. unfold write_stream_header. do 2 wp_step. rewrite Hf, Hst. cbn [orb]. do 2 wp_step.
  set (leaving := fl_draining _ || _).
  set (h := if leaving then rs_keep_alive false header else header).
  assert (Hr : rs_need_eof h = false -> room s).
  { subst h. destruct leaving eqn:El; [by rewrite close_ends|]. intros _. subst leaving. reflect_bools.
    by apply not_last_room. }
  clearbody h leaving. do 2 wp_step. wp_step. apply wp_finish_observation; [done|]. intros o m _. do 6 wp_step.
  set (s1 := upd_log _ _).
  assert (Ht1 : turn (se_log s1) = Some false) by (cbn; by rewrite turn_snoc, Ht).
  assert (H1 : streaming s1).
  { split; [done|]. split; [done|]. split; [done|]. split; [by apply (limited_reply s), served_limited|].
    split; [|by eexists]. intros E. by apply (room_reply s), Hr. }
  wp_step. wp_step.
  - wp_step. by split.
  - split; [by apply streaming_closable|by eexists].
Qed.

Lemma wp_stream_body w bytes final s :
  streaming s ->
  wp (write_stream_body dump w bytes final) (fun _ s' => handed w (so_stream true final) s s') (not_handed w) s.
Proof.
  intros H. pose proof H as ([Hf Hst] & _). unfold write_stream_body. do 2 wp_step. rewrite Hf, Hst. cbn [orb].
  do 4 wp_step. set (s1 := set_writer _ _).
  assert (H1 : streaming s1).
  { destruct H as (Ha & Hph & Ht & Hl & Hr & Hw). split_and!; try done. by apply fmap_is_Some. }
  wp_step. wp_step.
  - by wp_step.
  - split; [by apply streaming_closable|by eexists].
Qed.

(** ** Steps of the exchange *)

Definition resumptions (ops : list SeOp) : list bool :=
  omap (fun op => match op with so_stream _ final => Some final | _ => None end) ops.

(** The session of an exchange that has told [log]. *)
Definition stage (log : list ExOutput) (s : Session) : Prop :=
  fl_phase (se_flags s) = proxying /\ in_service s /\ log_phase log = Some lp_silent \/
  streaming s /\ (log_phase log = Some lp_more \/ log_phase log = Some lp_final) /\
    (se_pending s = [] \/ exists body final, se_pending s = [so_stream body final]).

(** The exchange waits: one of its handlers runs. *)
Definition wired (s : Session) (slot : Slot) : Prop :=
  px_slot (se_proxy s) = Some slot /\ is_Some (px_permit (se_proxy s)) /\
  (exists request, version_ok (rq_version request) /\ waiting dump request (sl_exchange slot)) /\
  stage (log_of (sl_exchange slot)) s.

Lemma wired_waiting s slot : wired s slot -> exists request, waiting dump request (sl_exchange slot).
Proof. intros (_ & _ & (request & _ & H) & _). by exists request. Qed.

Lemma stage_closable l s : stage l s -> alive_closable s.
Proof. intros [(_ & H & _)|(H & _)]; [by apply in_service_closable|by apply streaming_closable]. Qed.

(** The exchange of a session goes on. *)
Lemma stage_live s slot :
  wired s slot -> resumes (sl_exchange slot) = resumptions (se_pending s) -> live_ok s.
Proof.
  intros (Hslot & Hper & (request & Hv & Hw) & Hst) Hr. split; [by eapply stage_closable|].
  destruct Hst as [(Hph & (_ & Hu & Hsv & Hpe) & Hlp)|((_ & Hph & Ht & Hlim & Hroom & Hwr) & Hlp & Hpe)]; rewrite Hph.
  - split; [|done]. split; [done|]. exists slot. split; [done|]. split; [|done]. by exists request.
  - split; [done|]. split; [done|]. right. left. split; [|done]. split; [done|]. exists slot. split; [done|].
    split; [|done]. by exists request.
Qed.

Lemma waiting_outputs request x : waiting dump request x -> Forall (output_ok dump request) (log_of x).
Proof. intros (op & ((_ & H & _) & _) & _). exact H. Qed.
Lemma ended_outputs request c x : ended dump request c x -> Forall (output_ok dump request) (log_of x).
Proof. intros (_ & H & _). exact H. Qed.

Lemma last_output request l o l' : Forall (output_ok dump request) (l ++ o :: l') -> output_ok dump request o.
Proof. intros H. apply Forall_app in H as [_ H]. by apply Forall_cons in H as [? _]. Qed.

(** A piece follows the log of the exchange. *)
Lemma piece_follows o final l :
  piece o final -> is_Some (log_phase (l ++ [o])) ->
  match o with
  | out_header _ _ => log_phase l = Some lp_silent
  | _ => log_phase l = Some lp_more
  end /\ log_phase (l ++ [o]) = Some (if final then lp_final else lp_more).
Proof.
  intros Ho [p Hp]. destruct (log_phase_next _ _ _ Hp) as (q & Hq & Hn). rewrite Hp. rewrite Hq.
  destruct o, q; cbn in *; try done; by simplify_eq.
Qed.

(** Handing on a piece leaves the session streaming, or throws with the callback. *)
Lemma wp_piece w o final s log (request : HttpRequest) :
  stage log s -> piece o final -> output_ok dump request o -> version_ok (rq_version request) ->
  is_Some (log_phase (log ++ [o])) ->
  wp (match o with
      | out_header header final => write_stream_header dump w header final
      | out_body bytes final => write_stream_body dump w bytes final
      | _ => mret tt
      end) (fun _ s' => exists body, handed w (so_stream body final) s s') (not_handed w) s.
Proof.
  intros Hs Ho Hok Hv Hp. destruct (piece_follows _ _ _ Ho Hp) as [Hq _].
  destruct Hs as [(Hph & (Ha & Hu & Hsv & _) & Hl)|(Hst & Hl & _)].
  - destruct o; try done; [|congruence]. cbn in Ho. subst. cbn in Hok. destruct Hok as (p & -> & _).
    eapply wp_mono; [apply wp_stream_header; [done..|by rewrite stream_header_version]|by exists false|done].
  - destruct o; try done; [destruct Hl; congruence|]. cbn in Ho. subst.
    eapply wp_mono; [by apply wp_stream_body|by exists true|done].
Qed.

Lemma arrived_resumes request op event x :
  waiting dump request x -> event_op event = Some op -> ex_enabled x event -> resumes (arrive event x) = [].
Proof.
  intros Hw Hop Hen. destruct (arrive_ready dump request op event x Hw Hop Hen) as [(_ & Hp & _) _].
  unfold resumes. by rewrite Hp.
Qed.

(** What a session told that the exchange is over does. *)
Lemma wp_told w event o s slot request E :
  steady w -> stage (log_of (sl_exchange slot)) s -> waiting dump request (sl_exchange slot) ->
  ex_enabled (sl_exchange slot) event -> resumes (arrive event (sl_exchange slot)) = resumptions (se_pending s) ->
  version_ok (rq_version request) -> terminal o -> deadline_tells event o -> event <> xe_cancel ->
  output_ok dump request o -> is_Some (log_phase (log_of (sl_exchange slot) ++ [o])) ->
  wp (on_terminal w o) (fun _ => settled) E s.
Proof.
  intros Hw Hs Hwait Hen Hres Hv Ho Hdl Hc Hok [p Hp].
  destruct (log_phase_next _ _ _ Hp) as (q & Hq & Hn). pose proof (stage_closable _ _ Hs) as Hcl.
  destruct Hs as [(Hph & Hsv & Hl)|(Hst & Hl & Hpe)].
  - assert (q = lp_silent) as -> by congruence. destruct o; try done; cbn [on_terminal].
    + apply wp_completed; [done..|]. by rewrite (outcome_version dump request).
    + eapply wp_mono; [by apply wp_aborted|by right|done].
  - destruct o; try done; cbn [on_terminal].
    + by destruct Hl as [Hl|Hl]; rewrite Hl in Hq; simplify_eq.
    + eapply wp_mono; [by apply wp_aborted|by right|done].
    + apply wp_finished; [done|].
      intros -> ->. destruct Hpe as [Hpe|(body & final & Hpe)]; [done|].
      destruct (event_op event) as [op|] eqn:Eop; [|by destruct event].
      rewrite (arrived_resumes request op), Hpe in Hres by done. done.
Qed.

Lemma stage_unpended log s : stage log s -> resumptions (se_pending s) = [] -> se_pending s = [].
Proof. intros [(_ & (_ & _ & _ & H) & _)|(_ & _ & [H|(body & final & H)])] E; [done|done|]. by rewrite H in E. Qed.

Lemma waiting_phase request x : waiting dump request x -> is_Some (log_phase (log_of x)).
Proof. intros (op & _ & _ & [_ Hf] & _). destruct op as [| | | | | | |[]]; destruct Hf as [-> _]; by eexists. Qed.

Lemma on_output_piece w o final : piece o final ->
  on_output dump w o = try_catch
    match o with
    | out_header header final => write_stream_header dump w header final
    | out_body bytes final => write_stream_body dump w bytes final
    | _ => mret tt
    end (mret tt).
Proof. by destruct o. Qed.

Lemma wp_exchange w event s slot E :
  steady w -> wired s slot -> ex_enabled (sl_exchange slot) event -> event <> xe_cancel ->
  resumes (arrive event (sl_exchange slot)) = resumptions (se_pending s) ->
  wp (exchange_event dump w (on_output dump w) event) (fun _ => settled) E s.
Proof.
  intros Hw (Hslot & Hper & (request & Hv & Hwait) & Hs) Hen Hc Hres. unfold wp, exchange_event. rewrite Hslot.
  set (x0 := load_exchange (se_shared s) (sl_exchange slot)).
  pose proof (ex_step_cases dump (sw_exchange w) event x0 request Hwait Hen Hc) as Hstep.
  set (x := ex_step dump (sw_exchange w) event x0) in *. clearbody x.
  assert (Hres0 : resumes (arrive event x0) = resumptions (se_pending s)) by (by destruct event).
  set (slot1 := mkSlot x (sl_method slot) (sl_permit slot)). set (s1 := set_slot (Some slot1) (store_exchange x s)).
  change (log_of (sl_exchange slot)) with (log_of x0) in *.
  change (wp (each_output (on_output dump w) (drop (length (log_of x0)) (log_of x))) (fun _ => settled) E s1).
  destruct Hstep as [Hx Hl Hr|o Hx Hl Ho Hdl|o final Hx Hl Ho Hr Hr0 Hcb|o final Hx Hl Ho].
  - rewrite Hl, drop_all. cbn [each_output]. wp_step. left. apply (stage_live s1 slot1); [|exact (eq_trans Hr Hres0)].
    split; [done|]. split; [done|]. split; [by exists request|]. by rewrite <- Hl in Hs.
  - rewrite Hl, drop_app_length. cbn [each_output]. wp_step.
    pose proof (ended_outputs _ _ _ Hx) as Hall. rewrite Hl in Hall. pose proof (ended_over dump _ _ Hx) as Hover. rewrite Hl in Hover.
    replace (on_output dump w o) with (on_terminal w o) by (by destruct o).
    eapply wp_mono; [eapply (wp_told w event o s1 slot request)|intros ? s2 H2; by wp_step|intros s2 H2; exact H2]; try done.
    by eapply last_output.
  - rewrite Hl, drop_app_length. cbn [each_output].
    pose proof (waiting_outputs _ _ Hx) as Hall. rewrite Hl in Hall. apply last_output in Hall.
    assert (Hp : is_Some (log_phase (log_of x0 ++ [o]))) by (rewrite <- Hl; by eapply waiting_phase).
    destruct (piece_follows _ _ _ Ho Hp) as [_ Hp1].
    wp_step. rewrite (on_output_piece w o final) by done. wp_step.
    eapply wp_mono; [by apply (wp_piece w o final s1 (log_of x0) request)| |].
    + intros _ s2 (body & H2 & E2 & E3). wp_step. left. apply (stage_live s2 slot1).
      * split; [by rewrite E2|]. split; [by rewrite E2|]. split; [by exists request|]. right. split; [done|].
        cbn [slot1 sl_exchange]. rewrite Hl, Hp1. split; [by destruct final; auto|]. right. exists body, final.
        rewrite E3. f_equal. apply (stage_unpended (log_of x0) s); [done|]. by rewrite <- Hres0.
      * rewrite E3. cbn [slot1 sl_exchange]. rewrite Hr. cbn. f_equal. symmetry. by rewrite <- Hr0.
    + intros s2 [_ [e He]]. congruence.
  - rewrite Hl, drop_app_length. cbn [each_output].
    pose proof (ended_outputs _ _ _ Hx) as Hall. rewrite Hl in Hall. apply last_output in Hall.
    assert (Hp : is_Some (log_phase (log_of x0 ++ [o]))).
    { pose proof (ended_over dump _ _ Hx) as Hover. rewrite Hl in Hover. change [o; out_abort] with ([o] ++ [out_abort]) in Hover.
      rewrite app_assoc in Hover. destruct (log_phase_next _ _ _ Hover) as (p & Hp & _). by exists p. }
    wp_step. rewrite (on_output_piece w o final) by done. wp_step.
    assert (Habort : forall s2, alive_closable s2 ->
      wp (on_output dump w out_abort;; mret tt) (fun _ => settled) E s2).
    { intros s2 H2. wp_step. eapply wp_mono; [by apply (wp_aborted E)|intros ? s3 H3; wp_step; by right|done]. }
    eapply wp_mono; [by apply (wp_piece w o final s1 (log_of x0) request)| |].
    + intros _ s2 (body & H2 & _). apply Habort. by apply streaming_closable.
    + intros s2 [H2 _]. wp_step. by apply Habort.
Qed.

(** ** Steps *)

(** A session that is over ignores its handlers. *)
Definition ignored (s s' : Session) : Prop := over_ok s' /\ se_flags s' = se_flags s /\ se_log s' = se_log s.

Lemma wp_over (m : Handling) (Q : unit -> Session -> Prop) E s :
  over_ok s -> Q tt s ->
  wp (finished ← reads (fun s => fl_finished (se_flags s)); if finished : bool then mret tt else m) Q E s.
Proof. intros H HQ. pose proof H as [Hf _]. do 2 wp_step. rewrite Hf. by wp_step. Qed.

Lemma minor_orphan i : minor (destroy_orphan i).
Proof.
  intros s0. unfold destroy_orphan. apply keeps_bind; [apply keeps_reads|intros orphans]. destruct (_ !! i) as [slot|]; [|apply keeps_ret].
  repeat (apply keeps_bind; [|intros ?]); try apply minor_release; [by apply minor_modify|apply minor_drop].
Qed.

Lemma orphan_frame i s : frame s (run (destroy_orphan i) s).
Proof. by apply run_keeps; [apply minor_orphan|]. Qed.

Lemma settled_orphan i s : settled s -> settled (run (destroy_orphan i) s).
Proof. intros H. by rewrite <- (orphan_frame i s). Qed.

Lemma over_step w event s :
  over_ok s -> se_enabled s event -> ignored s (se_step dump evp_digest double_chars config w event s).
Proof.
  intros H Hen. assert (Ha : ignored s (se_arrive event s)).
  { unfold se_arrive. destruct event; cbn; try done; by destruct (ms_parser _). }
  pose proof Ha as [Ho _]. unfold se_step. destruct event; cbn [se_handler]; try (apply run_wp; unfold handle; try wp_step; by apply wp_over).
  - apply run_wp. unfold handle, on_request_header. wp_step. wp_step. apply wp_modify.
    set (s1 := match ms_parser _ with Some _ => _ | None => _ end).
    assert (H1 : ignored s s1) by (unfold s1; by destruct (ms_parser _)). apply wp_over; [apply H1|done].
  - apply run_wp. unfold on_streamed. set (s1 := se_arrive _ s) in *. clearbody s1.
    assert (Hm : wp (if body then modify (set_stream_bytes 0) else mret tt) (fun _ => ignored s) (fun _ => False) s1)
      by (destruct body; by wp_step).
    wp_step. eapply wp_mono; [exact Hm| |done]. intros ? s2 H2. unfold handle. wp_step. unfold wp, exchange_event.
    pose proof H2 as [(_ & _ & [E2 _] & _) _]. by rewrite E2.
  - exfalso. destruct H as (_ & _ & [Hs _] & _). cbn in Hen. rewrite Hs in Hen. by destruct event.
  - destruct (orphan_frame i (se_arrive (se_orphan i) s)) as [Ef El _ Es Ep _ _ _]. unfold ignored, over_ok, idle, limited, counts in *.
    by rewrite Ef, El, Es, Ep.
Qed.

(** Each of its handlers leaves one less. *)
Lemma remove_one_length {A} `{EqDecision A} (x : A) l : x ∈ l -> length l = S (length (remove_one x l)).
Proof.
  induction l as [|y l IH]; intros H; [by apply not_elem_of_nil in H|]. cbn. destruct (decide (x = y)); [done|].
  apply elem_of_cons in H as [?|H]; [done|]. cbn. by rewrite <- IH.
Qed.

Lemma enabled_op s event op : se_enabled s event -> se_event_op event = Some op -> op ∈ se_pending s.
Proof.
  destruct event; cbn; intros Hen [= <-]; try apply Hen; by destruct Hen as (op' & [= <-] & ?).
Qed.

Lemma arrive_left s event :
  over_ok s -> se_enabled s event -> (forall i, event <> se_orphan i) ->
  over_ok (se_arrive event s) /\ handlers_left s = S (handlers_left (se_arrive event s)).
Proof.
  intros H Hen Hne. destruct (se_event_op event) as [op|] eqn:E.
  - pose proof (enabled_op s event op Hen E) as Hin. apply remove_one_length in Hin.
    unfold se_arrive. rewrite E. unfold handlers_left.
    destruct event; try (split; [exact H|cbn; by rewrite Hin]); cbn in *; destruct (ms_parser _);
      (split; [exact H|cbn; by rewrite Hin]).
  - destruct event; try done; [|by destruct (Hne i)]. exfalso.
    destruct H as (_ & _ & [Hs _] & _). cbn in Hen. rewrite Hs in Hen. by destruct event.
Qed.

Lemma over_left w event s :
  over_ok s -> se_enabled s event ->
  handlers_left s = S (handlers_left (se_step dump evp_digest double_chars config w event s)).
Proof.
  intros H Hen. destruct event as [e|e incoming|e incoming|close e|body final e|e|event|i].
  8: { unfold se_step. cbn [se_handler se_arrive se_event_op]. cbn in Hen.
       destruct (lookup_lt_is_Some_2 _ _ Hen) as [slot Hi]. unfold destroy_orphan, release_permit, drop_object, run, handlers_left.
       eval_handler. rewrite Hi. cbn. destruct (sl_permit slot) as [j|]; [destruct (_ !! j) as [[p [|[|n]]]|]|];
       cbn; rewrite length_delete by (by exists slot); pose proof (lookup_lt_Some _ _ _ Hi); lia. }
  all: match goal with H : over_ok ?s0, Hen : se_enabled ?s0 ?event0 |- _ =>
         destruct (arrive_left s0 event0 H Hen) as [H1 Hleft]; [done|]; rewrite Hleft; f_equal; unfold se_step;
         cbn [se_handler]; set (s1 := se_arrive event0 s0) in *; clearbody s1; symmetry;
         apply (run_wp _ (fun s' => handlers_left s' = handlers_left s1))
       end.
  - unfold handle. wp_step. by apply wp_over.
  - unfold handle, on_request_header. wp_step. wp_step. apply wp_modify.
    set (s2 := match ms_parser _ with Some _ => _ | None => _ end).
    assert (H2 : over_ok s2 /\ handlers_left s2 = handlers_left s1) by (unfold s2; by destruct (ms_parser _)).
    apply wp_over; apply H2.
  - unfold handle. wp_step. by apply wp_over.
  - unfold handle. wp_step. by apply wp_over.
  - unfold on_streamed.
    assert (Hm : wp (if body then modify (set_stream_bytes 0) else mret tt)
                   (fun _ s2 => over_ok s2 /\ handlers_left s2 = handlers_left s1) (fun _ => False) s1)
      by (destruct body; by wp_step).
    wp_step. eapply wp_mono; [exact Hm| |done]. intros ? s2 [H2 E2]. unfold handle. wp_step. unfold wp, exchange_event.
    destruct H2 as (_ & _ & [Hs _] & _). by rewrite Hs.
  - by apply wp_over.
  - exfalso. destruct H as (_ & _ & [Hs _] & _). cbn in Hen. rewrite Hs in Hen. by destruct event.
Qed.

(** What holds while [op] is pending. *)
Definition op_state (op : SeOp) (s : Session) : Prop :=
  match op with
  | so_handshake => fl_phase (se_flags s) = handshaking /\ idle s /\ se_log s = [] /\ fl_served (se_flags s) = 0
  | so_read_header =>
      fl_phase (se_flags s) = reading /\ idle s /\ unanswered s /\ being_read s /\ is_Some (ms_parser (se_messages s))
  | so_read_body =>
      fl_phase (se_flags s) = reading /\ idle s /\ unanswered s /\ being_read s /\
      exists incoming, ms_parser (se_messages s) = Some incoming /\ version_ok (rq_version (in_request incoming))
  | so_write close =>
      fl_phase (se_flags s) = writing /\ idle s /\ turn (se_log s) = Some false /\ limited s /\ (close = false -> room s)
  | so_stream _ _ =>
      fl_phase (se_flags s) = writing /\ turn (se_log s) = Some false /\ limited s /\
      (ms_stream_close (se_messages s) = false -> room s) /\ in_progress false s /\ is_Some (ms_stream_writer (se_messages s))
  | so_shutdown => fl_phase (se_flags s) = closing /\ closing_ok s
  end.

Lemma live_pending op s : live_ok s -> op ∈ se_pending s -> se_pending s = [op] /\ op_state op s.
Proof.
  intros [Ha H] Hin.
  assert (Hone : forall op', se_pending s = [op'] -> op_state op' s -> se_pending s = [op] /\ op_state op s).
  { intros op' E. rewrite E in Hin. by apply list_elem_of_singleton in Hin as ->. }
  assert (Hnone : se_pending s = [] -> se_pending s = [op] /\ op_state op s).
  { intros E. rewrite E in Hin. by apply not_elem_of_nil in Hin. }
  destruct (fl_phase (se_flags s)) eqn:Hph; cbn in H.
  - destruct H as (? & ? & ? & ?). by apply (Hone so_handshake).
  - destruct H as (? & ? & ? & incoming & ? & [?|[? ?]]).
    + by apply (Hone so_read_header).
    + apply (Hone so_read_body); [done|]. split_and!; try done. by exists incoming.
  - destruct H as (_ & _ & _ & ?). by apply Hnone.
  - destruct H as (? & ? & [(close & ? & ? & ?)|[(? & ? & ? & [?|(body & final & ?)])|(_ & _ & ?)]]); try by apply Hnone.
    + by apply (Hone (so_write close)).
    + by apply (Hone (so_stream body final)).
  - apply (Hone so_shutdown); [apply H|done].
  - done.
Qed.

(** The operation is no longer pending when its handler runs. *)
Lemma arrive_pending event op s :
  se_event_op event = Some op -> se_pending s = [op] -> se_pending (se_arrive event s) = [].
Proof.
  intros Eop Ep. assert (E : se_pending (upd_pending (remove_one op) s) = []) by (cbn; by rewrite Ep, remove_one_self).
  unfold se_arrive. rewrite Eop. destruct event; try done; by destruct (ms_parser _).
Qed.

(** The read has filled the parser. *)
Lemma arrive_received event s incoming :
  alive s -> idle s -> unanswered s -> being_read s -> fl_phase (se_flags s) = reading -> is_Some (ms_parser (se_messages s)) ->
  (exists e, event = se_header e incoming \/ event = se_body e incoming) -> se_pending (se_arrive event s) = [] ->
  received (se_arrive event s) incoming.
Proof.
  intros Ha Hi Hu Hr Hph [p Hp] (e & [-> | ->]) Epe; unfold se_arrive in *; cbn in *; rewrite Hp in *;
    (split; [split_and!|]; done).
Qed.

Lemma read_arrives event e incoming s :
  live_ok s -> se_enabled s event -> event = se_header e incoming \/ event = se_body e incoming ->
  received (se_arrive event s) incoming /\ (failed e = false -> version_ok (rq_version (in_request incoming))).
Proof.
  intros Hl Hen [-> | ->]; destruct Hen as [Hin Hv]; destruct (live_pending _ _ Hl Hin) as [Ep (Hph & Hi & Hu & Hr & Hp)];
    pose proof Hl as [Ha _].
  - split; [|apply Hv]. apply arrive_received; try done; [by exists e; left|by eapply arrive_pending].
  - destruct Hp as (header & Hp & Hvh). split; [|by rewrite (Hv header Hp)].
    apply arrive_received; try done; [by exists e; right|by eapply arrive_pending].
Qed.

(** The session of an exchange in progress. *)
Lemma live_slot s slot :
  live_ok s -> px_slot (se_proxy s) = Some slot ->
  wired s slot /\ resumes (sl_exchange slot) = resumptions (se_pending s).
Proof.
  intros [Ha H] Hslot. assert (Hno : ~ idle s) by (intros [Hi _]; congruence).
  assert (Hw : forall silent, in_progress silent s -> stage (log_of (sl_exchange slot)) s \/ ~ slot_waits silent slot ->
    wired s slot /\ resumes (sl_exchange slot) = resumptions (se_pending s)).
  { intros silent (Hper & slot' & Hslot' & Hw & Hr) [Hst|Hn]; assert (slot' = slot) as -> by congruence; [|done].
    split; [|done]. split; [done|]. split; [done|]. split; [|done]. destruct Hw as (request & Hv & Hw & _). by exists request. }
  destruct (fl_phase (se_flags s)) eqn:Hph; cbn in H; try done; try by destruct H as [? _].
  - destruct H as (Hin & Hu & Hs & Hp). apply (Hw true); [done|].
    destruct Hin as (_ & slot' & Hslot' & (_ & _ & _ & Hl) & _). assert (slot' = slot) as -> by congruence.
    left. left. split; [done|]. split; [|done]. by split_and!.
  - destruct H as (Ht & Hl & [(close & _ & Hi & _)|[(Hin & Hr & Hwr & Hp)|(_ & Hi & _)]]); try done. apply (Hw false); [done|].
    destruct Hin as (_ & slot' & Hslot' & (_ & _ & _ & Hlp) & _). assert (slot' = slot) as -> by congruence.
    left. right. split; [|by split]. by split_and!.
Qed.

Lemma resumes_pending x final : final ∈ resumes x -> xo_resume final ∈ io_pending (ex_io x).
Proof.
  unfold resumes. intros (op & Hin & E)%list_elem_of_omap. destruct op; try done. by injection E as ->.
Qed.

Lemma live_step w event s :
  steady w -> live_ok s -> se_enabled s event -> settled (se_step dump evp_digest double_chars config w event s).
Proof.
  intros Hw Hl Hen. pose proof Hl as [Ha _]. unfold se_step.
  destruct event as [e|e incoming|e incoming|close e|body final e|e|event|i]; cbn [se_handler].
  - destruct Hen as (op & [= <-] & Hin). destruct (live_pending _ _ Hl Hin) as [Ep (Hph & Hi & Elog & Es)].
    pose proof (arrive_pending (se_handshaken e) so_handshake s eq_refl Ep) as Ep1.
    set (s1 := se_arrive _ s) in *. apply handle_ok. unfold on_tls_handshake. apply wp_alive; [done|].
    assert (Hr : room s1) by (right; cbn; rewrite Elog, Es; done).
    wp_step.
    + apply wp_close_settled. split; [apply Ha|]. split; [cbn; by rewrite Elog|by apply room_limited].
    + wp_step. wp_step. apply wp_read_request; [done|cbn; by rewrite Elog|done].
  - destruct (read_arrives _ e incoming s Hl Hen) as [Hr Hv]; [by left|]. by apply handle_ok, (wp_on_header _ _ _ incoming).
  - destruct (read_arrives _ e incoming s Hl Hen) as [Hr _]; [by right|]. apply handle_ok, (wp_on_body _ _ _ incoming); [done..|].
    destruct Hen as [Hin Hv]. destruct (live_pending _ _ Hl Hin) as [_ (_ & _ & _ & _ & header & Hp & Hvh)].
    by rewrite (Hv header Hp).
  - destruct Hen as (op & [= <-] & Hin). destruct (live_pending _ _ Hl Hin) as [Ep (Hph & Hi & Ht & Hlim & Hr)].
    pose proof (arrive_pending (se_written close e) _ s eq_refl Ep) as Ep1.
    apply handle_ok, wp_on_written. by split_and!.
  - destruct Hen as (op & [= <-] & Hin). destruct (live_pending _ _ Hl Hin) as [Ep (Hph & Ht & Hlim & Hr & Hin' & Hwr)].
    pose proof (arrive_pending (se_streamed body final e) _ s eq_refl Ep) as Ep1.
    destruct Hin' as (Hper & slot & Hslot & _). destruct (live_slot s slot Hl Hslot) as [(_ & _ & (request & Hv & Hwait) & Hst) Hres].
    rewrite Ep in Hres. cbn in Hres.
    assert (Hen : forall e', ex_enabled (sl_exchange slot) (xe_resume final e')).
    { intros e'. exists (xo_resume final). split; [done|]. apply resumes_pending. rewrite Hres. by left. }
    assert (Hres' : forall e', resumes (arrive (xe_resume final e') (sl_exchange slot)) = [])
      by (intros e'; by eapply arrived_resumes).
    apply run_wp. set (s1 := se_arrive _ s) in *. unfold on_streamed.
    assert (Hgo : forall s2, streaming s2 -> se_pending s2 = [] -> se_proxy s2 = se_proxy s ->
      wp (handle (exchange_event dump w (on_output dump w) (xe_resume final (stream_error body final e))))
        (fun _ => settled) settled s2).
    { intros s2 H2 Ep2 E2. apply wp_try. apply (wp_exchange w _ s2 slot); [done| |apply Hen|done|].
      - split; [by rewrite E2|]. split; [by rewrite E2|]. split; [by exists request|]. right. split; [done|].
        split; [|by left]. destruct Hst as [(Hph' & _)|(_ & ? & _)]; [congruence|done].
      - by rewrite Hres', Ep2. }
    wp_step. destruct body; wp_step; apply Hgo; try done; by split_and!.
  - destruct Hen as (op & [= <-] & Hin). destruct (live_pending _ _ Hl Hin) as [Ep (Hph & Hi & Ht & Hlim & _)].
    apply run_wp, wp_alive; [done|]. apply wp_close; [|by right]. by split_and!; try apply Ha.
  - cbn in Hen. destruct (px_slot (se_proxy s)) as [slot|] eqn:Hslot; [|by destruct event].
    destruct (live_slot s slot Hl Hslot) as [Hwired Hres]. destruct (wired_waiting _ _ Hwired) as (request & Hwait).
    apply run_wp, (wp_exchange w event s slot); [done|done|by destruct event|by destruct event|].
    destruct (event_op event) as [op|] eqn:Eop.
    + rewrite (arrived_resumes request op) by (done || by destruct event). rewrite <- Hres.
      destruct Hwait as (op' & _ & Hp & _). unfold resumes. rewrite Hp.
      assert (op ∈ io_pending (ex_io (sl_exchange slot))) as Hin.
      { destruct event; cbn in Eop; simplify_eq; try (by destruct Hen as (x & [= <-] & ?)); by destruct Hen. }
      rewrite Hp in Hin. apply list_elem_of_singleton in Hin as ->. by destruct event; cbn in Eop; simplify_eq.
    + rewrite <- Hres. by destruct event.
  - apply settled_orphan. by left.
Qed.

Lemma settled_step w event s :
  steady w -> settled s -> se_enabled s event -> settled (se_step dump evp_digest double_chars config w event s).
Proof. intros Hw [H|H] Hen; [by apply live_step|right; by apply over_step]. Qed.

(** ** Calls of the server *)

Lemma wp_stop s E : closable s -> wp se_stop (fun _ => over_ok) E s.
Proof.
  intros (Hf & Ht & Hl). unfold se_stop. do 2 wp_step. wp_step; [congruence|]. do 2 wp_step.
  apply wp_cancel_proxy. intros s1 [E1 E2 E3 Hi E5]. unfold se_finish. do 2 wp_step. wp_step; [cbn in E1; rewrite E1 in *; cbn in *; congruence|].
  wp_step. split; [done|]. split; [done|]. split; [done|]. unfold limited, counts in *. cbn in *. by rewrite E1, E2.
Qed.

Lemma live_closable s : live_ok s -> closable s.
Proof.
  intros [[Hf _] H]. split; [done|]. destruct (fl_phase (se_flags s)); cbn in H.
  - destruct H as (_ & El & Es & _). unfold limited, counts. rewrite El, Es. split; [by eexists|]. right. cbn. unfold limit. done.
  - destruct H as (_ & [Ht _] & Hr & _). split; [by eexists|by apply read_limited].
  - destruct H as (_ & [Ht _] & Hs & _). split; [by eexists|by apply served_limited].
  - destruct H as (Ht & Hl & _). split; [by eexists|done].
  - destruct H as (_ & Ht & Hl & _). done.
  - done.
Qed.

Lemma settled_stop s : settled s -> over_ok (run se_stop s).
Proof.
  intros [H|H]; apply run_wp.
  - by apply wp_stop, live_closable.
  - unfold se_stop. do 2 wp_step. pose proof H as [-> _]. by wp_step.
Qed.

Lemma settled_drain s : settled s -> settled (run se_begin_drain s).
Proof.
  intros H. apply run_wp. unfold se_begin_drain. do 2 wp_step. wp_step; [|by wp_step].
  do 4 wp_step. set (s1 := set_draining s). assert (H1 : settled s1) by exact H.
  destruct (classify_session_drain _); [|by wp_step..]. destruct H1 as [H1|[Hf _]]; [|by cbn in *; rewrite Hf, orb_true_r in *].
  eapply wp_mono; [by apply wp_stop, live_closable|by right|done].
Qed.

Lemma settled_shared shared s : settled s -> settled (upd_shared (fun _ => shared) s).
Proof. intros H. exact H. Qed.

Lemma settled_start w shared :
  is_ok (se_start w (make_session config shared)).2 = true -> settled (run (se_start w) (make_session config shared)).
Proof.
  intros Hok. set (s0 := make_session config shared) in *.
  assert (H : wp (se_start w) (fun _ => settled) (fun _ => True) s0).
  { unfold se_start. do 2 wp_step. wp_step.
    - do 2 wp_step. unfold start_op. wp_step. wp_step; [|done]. wp_step. left. by split.
    - eapply wp_mono; [apply wp_read_request; try done; by right|done|done]. }
  unfold wp in H. unfold run. by destruct (se_start w s0) as [s' [u|e]].
Qed.

Lemma reachable_settled P s :
  (forall w, P w -> steady w) -> se_reachable dump evp_digest double_chars config P s -> settled s.
Proof.
  intros HP. induction 1.
  - by apply settled_start.
  - by apply settled_step; [apply HP|..].
  - by apply settled_drain.
  - by right; apply settled_stop.
  - by apply settled_shared.
Qed.

End Invariant.
