(* ===== verification/SessionLedger.v ===== *)
(** * What a session holds of the shared capacities (src/http_server.cpp, [HttpSession])

    The bytes of the body budget are held by the response the session writes, by the
    requests whose permits its pointers share, and by its exchanges; a proxy slot by an
    exchange in progress.  Whatever a handler does, throwing included, the level of
    the budget and the number of proxies are what the session holds with what the others
    do: nothing is lost and nothing is freed twice. *)

From Stdlib Require Import Floats.SpecFloat.
From S2P Require Import Prelude Text ConfigTypes Errors Http RateLimit Permits BufferBudget HealthState.
From S2P Require Import UpstreamPool ApiKeyAuth HttpHandler Admission ProxyMessage HealthCheck.
From S2P Require Import ServerState Server Metrics Handlers Exchange ExchangeKeeps Session SessionWalk.

Local Open Scope Z_scope.

(** ** Pointers *)

(** How many of the pointers are to the permit [i]. *)
Definition owned (i : nat) (pointers : list (option nat)) : nat :=
  sum_list_with (fun o => if decide (o = Some i) then 1%nat else 0%nat) pointers.

Lemma owned_cons i o l : owned i (o :: l) = ((if decide (o = Some i) then 1 else 0) + owned i l)%nat.
Proof. done. Qed.
Lemma owned_app i l1 l2 : owned i (l1 ++ l2) = (owned i l1 + owned i l2)%nat.
Proof. apply sum_list_with_app. Qed.

Section Ledger.
Context {B : BeastHttp}.
Variable dump : Json -> text.
Variable evp_digest : text -> option ApiKeyDigest.
Variable double_chars : spec_float -> option text.
Variable config : AppConfig.

(** The count of every permit is that of its owners. *)
Definition counted_by (pointers : list (option nat)) (objects : Objects) : Prop :=
  forall i, snd <$> objects !! i = match owned i pointers with O => None | S n => Some (S n) end.

Lemma counted_eq l l' objects : (forall i, owned i l = owned i l') -> counted_by l objects -> counted_by l' objects.
Proof. intros E H i. by rewrite <- E. Qed.

(** ** Holdings *)

Definition exchanges (s : Session) : list Slot := option_list (px_slot (se_proxy s)) ++ px_orphans (se_proxy s).

Definition slot_bytes (x : Slot) : Z :=
  bytes_ (io_permit (ex_io (sl_exchange x))) + bytes_ (io_block (ex_io (sl_exchange x))).2.

Definition objects_bytes (objects : Objects) : Z := map_sum (fun o => bytes_ o.1) objects.

Definition held_bytes (s : Session) : Z :=
  bytes_ (ms_response_permit (se_messages s)) + sumZ slot_bytes (exchanges s) + objects_bytes (px_objects (se_proxy s)).

Definition held_slots (s : Session) : Z :=
  match px_permit (se_proxy s) with Some _ => 1 | None => 0 end.

(** The session's own pointers to permits. *)
Definition pointers (s : Session) : list (option nat) :=
  ms_request_permit (se_messages s) :: (sl_permit <$> exchanges s).

(** The shared budget and the shared slots, with their limits, and what the others hold. *)
Context (budget : nat) (limit : Z) (slots : nat) (slots_limit : Z).

Definition slot_ok (x : Slot) : Prop :=
  lent budget (io_permit (ex_io (sl_exchange x))) /\ lent budget (io_block (ex_io (sl_exchange x))).2 /\
  xc_budget (ex_config (sl_exchange x)) = budget.

(** [moved] are the pointers in transit. *)
Record tidy (moved : list (option nat)) (s : Session) : Prop := {
  tidy_response : lent budget (ms_response_permit (se_messages s));
  tidy_exchanges : Forall slot_ok (exchanges s);
  tidy_objects : map_Forall (fun i o => (i < px_next (se_proxy s))%nat /\ lent budget o.1) (px_objects (se_proxy s));
  tidy_counts : counted_by (moved ++ pointers s) (px_objects (se_proxy s));
  tidy_permit : forall p, px_permit (se_proxy s) = Some p -> state_ p = Some slots }.

Definition shared_ok (w : GateShared) : Prop := sh_budget w = budget /\ proxies_ (sh_admission w) = Some slots.

Definition bytes_at (w : GateShared) (n : Z) : Prop := account budget limit (sh_heap w) n.
Definition slots_at (w : GateShared) (n : Z) : Prop := account slots slots_limit (sh_proxies w) n.

Ltac held := unfold held_bytes, objects_bytes, exchanges; cbn; lia.

Section Frame.
Context (bytes_frame slots_frame : Z) (bytes_nonneg : 0 <= bytes_frame) (slots_nonneg : 0 <= slots_frame).

(** The accounts of a session, the permits [l] and [n] slots in transit. *)
Definition balanced (moved : list (option nat)) (n : Z) (l : list BufferBudgetPermit) (s : Session) : Prop :=
  shared_ok (se_shared s) /\ tidy moved s /\ Forall (lent budget) l /\
  bytes_at (se_shared s) (bytes_frame + held_bytes s + permits_bytes l) /\
  slots_at (se_shared s) (slots_frame + held_slots s + n).

Definition ledger : list BufferBudgetPermit -> Session -> Prop := balanced [] 0.

Lemma slot_bytes_nonneg x : slot_ok x -> 0 <= slot_bytes x.
Proof. intros ([H1 _] & [H2 _] & _). unfold slot_bytes. cbn in *. lia. Qed.

Lemma slots_bytes_nonneg l : Forall slot_ok l -> 0 <= sumZ slot_bytes l.
Proof. intros H. apply sumZ_nonneg. intros x Hx. rewrite Forall_forall in H. by apply slot_bytes_nonneg, H. Qed.

Lemma objects_bytes_nonneg moved s : tidy moved s -> 0 <= objects_bytes (px_objects (se_proxy s)).
Proof. intros H. apply map_sum_nonneg. intros i o Hi. by destruct (tidy_objects _ _ H i o Hi) as [_ [? _]]. Qed.

Lemma held_bytes_nonneg moved s : tidy moved s -> 0 <= held_bytes s.
Proof.
  intros H. pose proof (objects_bytes_nonneg moved s H) as H1. pose proof (slots_bytes_nonneg _ (tidy_exchanges _ _ H)) as H2.
  destruct (tidy_response _ _ H) as [H3 _]. unfold held_bytes. cbn in H3. lia.
Qed.

Lemma permits_bytes_cons p l : permits_bytes (p :: l) = bytes_ p + permits_bytes l.
Proof. done. Qed.

Lemma bytes_eq w n n' : bytes_at w n -> n = n' -> bytes_at w n'.
Proof. by intros H <-. Qed.

(** What the accounts read. *)
Lemma balanced_same moved n l s s' :
  se_proxy s' = se_proxy s -> ms_request_permit (se_messages s') = ms_request_permit (se_messages s) ->
  ms_response_permit (se_messages s') = ms_response_permit (se_messages s) ->
  sh_heap (se_shared s') = sh_heap (se_shared s) -> sh_budget (se_shared s') = sh_budget (se_shared s) ->
  sh_proxies (se_shared s') = sh_proxies (se_shared s) ->
  proxies_ (sh_admission (se_shared s')) = proxies_ (sh_admission (se_shared s)) ->
  balanced moved n l s -> balanced moved n l s'.
Proof.
  intros E1 E2 E3 E4 E5 E6 E7 ((Hb & Ha) & [T1 T2 T3 T4 T5] & Hl & Hby & Hsl).
  unfold balanced, shared_ok, bytes_at, slots_at, held_bytes, held_slots, exchanges in *.
  rewrite ?E1, ?E3, ?E4, ?E5, ?E6, ?E7. split_and!; try done.
  constructor; unfold pointers, exchanges in *; by rewrite ?E1, ?E2, ?E3.
Qed.

Lemma ledger_plain l s s' : plain s s' -> ledger l s -> ledger l s'.
Proof. intros [? ? ? ? ? ? ? ? ? ? ? ? ? ? E]. apply balanced_same; try done. by rewrite E. Qed.

Lemma tidy_shared moved f s : tidy moved s -> tidy moved (upd_shared f s).
Proof. intros [T1 T2 T3 T4 T5]. by constructor. Qed.

(** ** Releasing *)

Lemma balanced_drop moved n l p s :
  balanced moved n (p :: l) s -> balanced moved n l (run (release_permit p) s).
Proof.
  intros ((Hb & Ha) & Ht & Hl & Hby & Hsl). apply Forall_cons in Hl as [Hp Hl].
  pose proof (held_bytes_nonneg moved s Ht) as Hh. pose proof (permits_bytes_nonneg _ _ Hl) as Hn.
  split_and!; try done; [by apply tidy_shared|].
  change (account budget limit (release (sh_heap (se_shared s)) p).1 (bytes_frame + held_bytes s + permits_bytes l)).
  apply account_free; [done|lia|]. eapply bytes_eq; [exact Hby|]. rewrite permits_bytes_cons. lia.
Qed.

Lemma ledger_store p l s : ledger (p :: l) s -> ledger l (run (store_response_permit p) s).
Proof.
  intros ((Hb & Ha) & [T1 T2 T3 T4 T5] & Hl & Hby & Hsl). apply Forall_cons in Hl as [Hp Hl].
  change (run (store_response_permit p) s) with
    (set_response_permit p (set_gate_heap (release (sh_heap (se_shared s)) (ms_response_permit (se_messages s))).1 s)).
  set (s' := set_response_permit _ _). assert (Ht : tidy [] s') by (constructor; done).
  split_and!; try done. pose proof (held_bytes_nonneg [] _ Ht) as Hh. pose proof (permits_bytes_nonneg _ _ Hl) as Hn.
  pose proof (proj1 T1) as Hr. cbn in Hr.
  change (account budget limit (release (sh_heap (se_shared s)) (ms_response_permit (se_messages s))).1
            (bytes_frame + held_bytes s' + permits_bytes l)).
  apply account_free; [done|lia|]. eapply bytes_eq; [exact Hby|]. rewrite permits_bytes_cons. held.
Qed.

Lemma ledger_empty l s : ledger l s -> ledger (empty_BudgetPermit :: l) s.
Proof.
  intros (Hs & Ht & Hl & Hby & Hsl). split_and!; try done. apply Forall_cons. split; [apply lent_empty_permit|done].
Qed.

(** ** Pointers *)

Lemma counted_cons i pointers objects :
  counted_by (Some i :: pointers) objects ->
  exists p n, objects !! i = Some (p, S n) /\ owned i pointers = n.
Proof.
  intros H. specialize (H i). rewrite owned_cons, decide_True in H by done. cbn in H.
  destruct (objects !! i) as [[p n]|]; [|done]. cbn in H. injection H as ->. by exists p, (owned i pointers).
Qed.

(** A pointer in transit ends. *)
Lemma balanced_drop_object id moved n l s :
  balanced (id :: moved) n l s -> balanced moved n l (run (drop_object id) s).
Proof.
  intros ((Hb & Ha) & Ht & Hl & Hby & Hsl). pose proof (permits_bytes_nonneg _ _ Hl) as Hn.
  destruct id as [i|].
  2:{ destruct Ht as [T1 T2 T3 T4 T5]. by split_and!. }
  destruct (counted_cons i (moved ++ pointers s) _ (tidy_counts _ _ Ht)) as (p & m & Hi & Hm).
  unfold run, drop_object. cbn [modify fst]. rewrite Hi.
  assert (Hothers : forall j, j <> i -> snd <$> px_objects (se_proxy s) !! j =
            match owned j (moved ++ pointers s) with O => None | S n => Some (S n) end).
  { intros j Hj. pose proof (tidy_counts _ _ Ht j) as Hc. cbn [app] in Hc. rewrite owned_cons, decide_False in Hc by congruence. done. }
  destruct (tidy_objects _ _ Ht i _ Hi) as [Hlt Hp].
  destruct m as [|m].
  - assert (Ht' : tidy moved (set_objects (delete i (px_objects (se_proxy s))) (px_next (se_proxy s))
                               (set_gate_heap (release (sh_heap (se_shared s)) p).1 s))).
    { destruct Ht as [T1 T2 T3 T4 T5]. constructor; try done; cbn.
      - by apply map_Forall_delete.
      - change (counted_by (moved ++ pointers s) (delete i (px_objects (se_proxy s)))). intros j.
        destruct (decide (j = i)) as [->|Hj]; [|rewrite lookup_delete_ne by done; by apply Hothers].
        rewrite lookup_delete_eq. by rewrite Hm. }
    split_and!; try done. pose proof (held_bytes_nonneg _ _ Ht') as Hh.
    match goal with |- bytes_at ?w ?k => change (account budget limit (release (sh_heap (se_shared s)) p).1 k) end.
    apply account_free; [done|lia|]. eapply bytes_eq; [exact Hby|]. unfold held_bytes, objects_bytes, exchanges. cbn.
    rewrite (map_sum_delete _ _ i (p, 1%nat)) by done. cbn. lia.
  - split_and!; try done.
    + destruct Ht as [T1 T2 T3 T4 T5]. constructor; try done; cbn.
      * by apply map_Forall_insert_2.
      * change (counted_by (moved ++ pointers s) (<[i := (p, S m)]> (px_objects (se_proxy s)))). intros j.
        destruct (decide (j = i)) as [->|Hj]; [|rewrite lookup_insert_ne by done; by apply Hothers].
        rewrite lookup_insert_eq. by rewrite Hm.
    + eapply bytes_eq; [exact Hby|]. unfold held_bytes, objects_bytes, exchanges. cbn.
      rewrite (map_sum_update _ _ i (p, S (S m))) by done. cbn. lia.
Qed.

(** A pointer is copied. *)
Lemma ledger_share l s :
  ledger l s ->
  balanced [ms_request_permit (se_messages s)] 0 l (run (share_object (ms_request_permit (se_messages s))) s).
Proof.
  intros ((Hb & Ha) & [T1 T2 T3 T4 T5] & Hl & Hby & Hsl).
  destruct (ms_request_permit (se_messages s)) as [i|] eqn:E.
  2:{ by split_and!. }
  cbn [app] in T4. unfold pointers in T4. rewrite E in T4.
  destruct (counted_cons i _ _ T4) as (p & m & Hi & Hm). unfold run, share_object. cbn [modify fst]. rewrite Hi.
  destruct (T3 i _ Hi) as [Hlt Hp]. split_and!; try done.
  - constructor; try done; cbn.
    + by apply map_Forall_insert_2.
    + change (counted_by (Some i :: pointers s) (<[i := (p, S (S m))]> (px_objects (se_proxy s)))).
      unfold pointers. rewrite E. intros j. rewrite owned_cons. destruct (decide (j = i)) as [->|Hj].
      * rewrite lookup_insert_eq, owned_cons, !decide_True by done. cbn. do 3 f_equal. by rewrite <- Hm.
      * rewrite lookup_insert_ne, decide_False by congruence. apply T4.
  - eapply bytes_eq; [exact Hby|]. unfold held_bytes, objects_bytes, exchanges. cbn.
    rewrite (map_sum_update _ _ i (p, S m)) by done. cbn. lia.
Qed.

Lemma ledger_request l s : ledger l s -> ledger l (run reset_request_permit s).
Proof.
  intros (Hs & [T1 T2 T3 T4 T5] & Hl & Hby & Hsl).
  change (run reset_request_permit s) with (run (drop_object (ms_request_permit (se_messages s))) (set_request_permit None s)).
  apply balanced_drop_object. by split_and!.
Qed.

Lemma request_reset s :
  let s' := run reset_request_permit s in
  ms_request_permit (se_messages s') = None /\ px_slot (se_proxy s') = px_slot (se_proxy s) /\
  px_orphans (se_proxy s') = px_orphans (se_proxy s).
Proof.
  change (run reset_request_permit s) with (run (drop_object (ms_request_permit (se_messages s))) (set_request_permit None s)).
  unfold run, drop_object. cbn. destruct (ms_request_permit (se_messages s)) as [i|]; [|done].
  by destruct (px_objects (se_proxy s) !! i) as [[q [|[|n]]]|].
Qed.

Lemma ledger_make p l s : ledger (p :: l) s -> ledger l (run (make_object p) s).
Proof.
  intros H. change (run (make_object p) s) with
    (let s1 := run reset_request_permit s in
     set_request_permit (Some (px_next (se_proxy s1)))
       (set_objects (<[px_next (se_proxy s1) := (p, 1%nat)]> (px_objects (se_proxy s1))) (S (px_next (se_proxy s1))) s1)).
  apply ledger_request in H. destruct (request_reset s) as [Hnone _].
  set (s1 := run reset_request_permit s) in *. clearbody s1. cbn zeta.
  destruct H as (Hs & [T1 T2 T3 T4 T5] & Hl & Hby & Hsl). apply Forall_cons in Hl as [Hp Hl].
  set (next := px_next (se_proxy s1)) in *.
  assert (Hfresh : px_objects (se_proxy s1) !! next = None).
  { destruct (px_objects (se_proxy s1) !! next) as [o|] eqn:E; [|done]. destruct (T3 next o E) as [Hlt _]. lia. }
  split_and!; try done.
  - constructor; try done.
    + change (map_Forall (fun i o => (i < S next)%nat /\ lent budget o.1) (<[next := (p, 1%nat)]> (px_objects (se_proxy s1)))).
      apply map_Forall_insert_2; [by split; [lia|]|]. eapply map_Forall_impl; [exact T3|]. intros i o [Hi Ho]. split; [lia|done].
    + change (counted_by (Some next :: (sl_permit <$> exchanges s1)) (<[next := (p, 1%nat)]> (px_objects (se_proxy s1)))).
      intros i. unfold pointers in T4. rewrite Hnone in T4. specialize (T4 i). cbn [app] in T4.
      rewrite owned_cons, decide_False in T4 by done. cbn [plus] in T4. rewrite owned_cons. destruct (decide (i = next)) as [->|Hi].
      * rewrite Hfresh in T4. rewrite lookup_insert_eq, decide_True by done. by destruct (owned next _).
      * rewrite lookup_insert_ne, decide_False by congruence. exact T4.
  - eapply bytes_eq; [exact Hby|]. rewrite permits_bytes_cons. unfold held_bytes, objects_bytes, exchanges. cbn.
    rewrite map_sum_insert by done. cbn. lia.
Qed.

(** ** Exchanges *)

Lemma ledger_slot moved n l s : balanced moved n l s -> balanced moved n l (run reset_exchange s).
Proof.
  intros ((Hb & Ha) & [T1 T2 T3 T4 T5] & Hl & Hby & Hsl). unfold run, reset_exchange. cbn [modify fst].
  destruct (px_slot (se_proxy s)) as [slot|] eqn:E; [|by split_and!].
  assert (Ee : exchanges s = slot :: px_orphans (se_proxy s)) by (unfold exchanges; by rewrite E).
  rewrite Ee in T2. apply Forall_cons in T2 as [Hslot Ho]. split_and!; try done.
  - constructor; try done.
    + change (Forall slot_ok (px_orphans (se_proxy s) ++ [slot])). apply Forall_app. split; [done|]. by apply Forall_singleton.
    + change (counted_by (moved ++ ms_request_permit (se_messages s) :: (sl_permit <$> px_orphans (se_proxy s) ++ [slot]))
                (px_objects (se_proxy s))).
      revert T4. apply counted_eq. intros i. unfold pointers. rewrite Ee, !owned_app, fmap_app, !owned_cons, owned_app.
      cbn [fmap list_fmap]. rewrite !owned_cons. change (owned i []) with 0%nat. lia.
  - eapply bytes_eq; [exact Hby|]. unfold held_bytes. rewrite Ee. unfold exchanges. cbn. rewrite sumZ_app. cbn. lia.
Qed.

(** What the others hold, for the exchange in progress. *)
Definition around (l : list BufferBudgetPermit) (s : Session) : Z :=
  bytes_frame + bytes_ (ms_response_permit (se_messages s)) + sumZ slot_bytes (px_orphans (se_proxy s)) +
  objects_bytes (px_objects (se_proxy s)) + permits_bytes l.

Lemma held_slot slot s :
  px_slot (se_proxy s) = Some slot -> exchanges s = slot :: px_orphans (se_proxy s).
Proof. intros E. unfold exchanges. by rewrite E. Qed.

Lemma loaded_balance slot l s :
  px_slot (se_proxy s) = Some slot -> ledger l s ->
  0 <= around l s /\
  books_balance budget limit (around l s) (log_of (sl_exchange slot)) (books (load_exchange (se_shared s) (sl_exchange slot))).
Proof.
  intros E ((Hb & Ha) & Ht & Hl & Hby & Hsl). pose proof (objects_bytes_nonneg _ s Ht) as Ho.
  destruct Ht as [T1 T2 T3 T4 T5]. rewrite (held_slot slot s E) in T2.
  apply Forall_cons in T2 as [(H1 & H2 & H3) T2]. pose proof (slots_bytes_nonneg _ T2) as Hn.
  pose proof (permits_bytes_nonneg _ _ Hl) as Hp. pose proof (proj1 T1) as Hr. cbn in Hr.
  split; [unfold around; lia|]. split; [exact H3|]. split; [exact H1|]. split; [exact H2|]. exists [].
  split; [by rewrite app_nil_r|]. split; [done|]. eapply bytes_eq; [exact Hby|].
  unfold held_bytes, around. rewrite (held_slot slot s E). cbn. unfold slot_bytes, permits_bytes. cbn. lia.
Qed.

Lemma stored_balance slot x log l s :
  px_slot (se_proxy s) = Some slot -> ledger l s ->
  books_balance budget limit (around l s) (log_of (sl_exchange slot)) (books x) ->
  log_of x = log_of (sl_exchange slot) ++ log -> ledger (told_permits log ++ l) (stored slot x s).
Proof.
  intros E (Hs & [T1 T2 T3 T4 T5] & Hl & Hby & Hsl) (Eb & Hr & Hk & log' & El & Hlog & Hacc) Elog.
  assert (log' = log) as -> by (change (bk_log (books x)) with (log_of x) in El; rewrite Elog in El; by apply app_inv_head in El).
  rewrite (held_slot slot s E) in T2. apply Forall_cons in T2 as [(H1 & H2 & H3) T2].
  split_and!; try done.
  - constructor; try done.
    + apply Forall_cons. split; [by split_and!|done].
    + revert T4. apply counted_eq. intros i. unfold pointers. by rewrite (held_slot slot s E).
  - by apply Forall_app.
  - eapply bytes_eq; [exact Hacc|]. rewrite permits_bytes_app. unfold held_bytes, around, slot_bytes. cbn. lia.
Qed.

Lemma ledger_exchange w event slot l s :
  px_slot (se_proxy s) = Some slot -> event_counted event -> ledger l s ->
  let x := ex_step dump w event (load_exchange (se_shared s) (sl_exchange slot)) in
  ledger (told_permits (drop (length (log_of (sl_exchange slot))) (log_of x)) ++ l) (stored slot x s).
Proof.
  intros E Hc H x. destruct (loaded_balance slot l s E H) as [Hn Hb].
  assert (Hx : books_balance budget limit (around l s) (log_of (sl_exchange slot)) (books x)).
  { by apply step_balance. }
  pose proof Hx as (_ & _ & _ & log & El & _). change (bk_log (books x)) with (log_of x) in El.
  apply stored_balance; [done|done|done|]. rewrite El. by rewrite drop_app_length.
Qed.

Lemma ledger_cancel l s : ledger l s -> ledger l (run cancel_exchange s).
Proof.
  intros H. unfold run, cancel_exchange. eval_handler. destruct (px_slot (se_proxy s)) as [slot|] eqn:E.
  2:{ exact (ledger_slot [] 0 l s H). }
  apply (ledger_slot [] 0 l (stored slot (run ex_cancel (load_exchange (se_shared s) (sl_exchange slot))) s)).
  destruct (loaded_balance slot l s E H) as [Hn Hb].
  set (x0 := load_exchange (se_shared s) (sl_exchange slot)) in *.
  apply (stored_balance slot (run ex_cancel x0) [] l s E H).
  - exact (step_balance dump budget limit (around l s) Hn calm_world xe_cancel _ x0 I Hb).
  - rewrite app_nil_r. exact (ex_cancel_log x0).
Qed.

Lemma ledger_begin w l : keeps (ledger l) (start_exchange w).
Proof.
  intros s H. unfold wp, start_exchange. destruct (px_slot (se_proxy s)) as [slot|] eqn:E; [|done].
  destruct (loaded_balance slot l s E H) as [Hn Hb].
  pose proof (ex_start_books (sw_exchange w) (load_exchange (se_shared s) (sl_exchange slot))) as Ebk.
  destruct (ex_start _ _) as [x r]. cbn [fst] in Ebk.
  assert (Hx : ledger l (stored slot x s)).
  { apply (stored_balance slot x [] l s E H); [by rewrite Ebk|]. rewrite app_nil_r. exact (f_equal bk_log Ebk). }
  by destruct r.
Qed.

(** ** Slots *)

(** A permit of the shared slots counts for one. *)
Lemma slot_permit p : state_ p = Some slots -> lent slots p /\ ld_amount p = 1.
Proof. intros E. unfold lent. cbn. unfold owns_capacity. rewrite E. split; [split; [lia|by left]|done]. Qed.

Lemma free_slot h p n :
  state_ p = Some slots -> 0 <= n -> account slots slots_limit h (1 + n) ->
  account slots slots_limit (permit_release h p).1 n.
Proof.
  intros E Hn Ha. destruct (slot_permit p E) as [Hp Hone]. apply (account_release slots slots_limit h p n Hp Hn).
  by rewrite Hone.
Qed.

Lemma balanced_permit moved n l s :
  0 <= n -> balanced moved n l s -> balanced moved n l (run reset_proxy_permit s) /\ px_permit (se_proxy (run reset_proxy_permit s)) = None.
Proof.
  intros Hn ((Hb & Ha) & Ht & Hl & Hby & Hsl). unfold run, reset_proxy_permit. cbn [modify fst].
  destruct (px_permit (se_proxy s)) as [p|] eqn:E; [|by split_and!]. split; [|done].
  pose proof (tidy_permit _ _ Ht p E) as Ep. destruct Ht as [T1 T2 T3 T4 T5]. split_and!; try done.
  change (account slots slots_limit (permit_release (sh_proxies (se_shared s)) p).1 (slots_frame + 0 + n)).
  apply free_slot; [done|unfold slots_at in Hsl; lia|]. unfold slots_at, held_slots in Hsl. rewrite E in Hsl.
  by replace (1 + (slots_frame + 0 + n)) with (slots_frame + 1 + n) by lia.
Qed.

(** The slot of an admission that was granted is in transit. *)
Definition admitted (l : list BufferBudgetPermit) (r : RouteProxyAdmissionResult) (s : Session) : Prop :=
  match ar_permit r with
  | Some p => state_ p = Some slots /\ balanced [] 1 l s /\ allowed (ar_rate_limit r) = true /\ ar_no_healthy_upstream r = false
  | None => ledger l s
  end.

Lemma choose_proxies health adm route r adm' :
  choose_upstream health adm route = Ok (r, adm') -> proxies_ adm' = proxies_ adm.
Proof.
  unfold choose_upstream. destruct (_ || _); [done|]. destruct (sr_route_index route) as [i|].
  - destruct (vec_at (next_upstream_ adm) i) as [next|]; [|done]. cbn. destruct (_ <=? _)%nat; [done|].
    destruct (pick_loop _ _ _ _ _) as [[index|]|]; try done; cbn; [|by intros [= _ <-]].
    destruct (vec_at (sr_upstreams route) index); [|done]. cbn. by intros [= _ <-].
  - destruct (vec_at (sr_upstreams route) 0); [|done]. cbn. by intros [= _ <-].
Qed.

(** What an admission does to the slots. *)
Lemma admission_slots h health adm route now n :
  proxies_ adm = Some slots -> 0 <= n -> account slots slots_limit h n ->
  let '(h', adm', r) := admission_try_acquire h health adm route now in
  proxies_ adm' = Some slots /\
  match r with
  | Ok result =>
      match ar_permit result with
      | Some p =>
          state_ p = Some slots /\ account slots slots_limit h' (1 + n) /\ allowed (ar_rate_limit result) = true /\
          ar_no_healthy_upstream result = false
      | None => account slots slots_limit h' n
      end
  | Throw _ => account slots slots_limit h' n
  end.
Proof.
  intros Hp Hn Ha.
  assert (Hadmit : forall adm decision, proxies_ adm = Some slots -> allowed decision = true ->
    let '(h', adm', r) := admit_proxy h health adm decision route in
    proxies_ adm' = Some slots /\
    match r with
    | Ok result =>
        match ar_permit result with
        | Some p => state_ p = Some slots /\ account slots slots_limit h' (1 + n) /\
                    allowed (ar_rate_limit result) = true /\ ar_no_healthy_upstream result = false
        | None => account slots slots_limit h' n
        end
    | Throw _ => account slots slots_limit h' n
    end).
  { intros a decision Hpa Hal. unfold admit_proxy. rewrite Hpa.
    pose proof (account_acquire slots slots_limit h n 1 Ha eq_refl) as Hacq. cbn [ld_acquire proxy_ledger] in Hacq.
    destruct (proxy_try_acquire h (Some slots)) as [h' [p|]] eqn:E; cbn [fst snd] in Hacq; [|by subst h'].
    assert (Ep : state_ p = Some slots).
    { unfold proxy_try_acquire in E. destruct (h !! slots); [|done]. destruct (_ <=? _); [done|]. by injection E as _ <-. }
    destruct Hacq as [_ Hacq]. rewrite (proj2 (slot_permit p Ep)) in Hacq.
    assert (Hfree : account slots slots_limit (permit_release h' p).1 n) by (by apply free_slot).
    destruct (choose_upstream health a route) as [[[chosen|] a']|e] eqn:Ec; cbn; split_and!; try done;
      apply choose_proxies in Ec; by rewrite Ec. }
  unfold admission_try_acquire. destruct (sr_route_index route) as [i|]; [|by apply Hadmit].
  destruct (route_try_acquire _ _ _) as [[decision limits]|e]; [|done].
  destruct (allowed decision) eqn:Ed; cbn [negb]; [|done]. by apply Hadmit.
Qed.

Lemma ledger_admit w route l s : ledger l s -> wp (acquire_admission w route) (admitted l) (ledger l) s.
Proof.
  intros ((Hb & Ha) & [T1 T2 T3 T4 T5] & Hl & Hby & Hsl). unfold wp, acquire_admission.
  assert (Hh : 0 <= slots_frame + held_slots s + 0) by (unfold held_slots; destruct (px_permit _); lia).
  pose proof (admission_slots (sh_proxies (se_shared s)) (view_health (sw_view w)) (sh_admission (se_shared s)) route (sw_now w)
    _ Ha Hh Hsl) as Hadm.
  destruct (admission_try_acquire _ _ _ _ _) as [[proxies adm] r]. destruct Hadm as [Hp Hr].
  assert (Hgo : forall n, account slots slots_limit proxies (slots_frame + held_slots s + n) ->
    balanced [] n l (set_proxies proxies (set_admission adm s))) by (intros n Hn; split_and!; try done; by constructor).
  destruct r as [r|e]; [|by apply Hgo]. unfold admitted. destruct (ar_permit r) as [p|]; [|by apply Hgo].
  destruct Hr as (E & Hacc & Hal & Hno). split_and!; try done. apply Hgo.
  by replace (slots_frame + held_slots s + 1) with (1 + (slots_frame + held_slots s + 0)) by lia.
Qed.

Lemma ledger_admitted r l s :
  admitted l r s -> ledger l (set_proxy_permit (ar_permit r) (run reset_proxy_permit s)).
Proof.
  unfold admitted. destruct (ar_permit r) as [p|]; intros H.
  - destruct H as (E & H & _). apply balanced_permit in H as [(Hs & [T1 T2 T3 T4 T5] & Hl & Hby & Hsl) Hnone]; [|lia].
    set (s1 := run reset_proxy_permit s) in *. clearbody s1. split_and!; try done.
    + constructor; try done. by intros q [= <-].
    + unfold slots_at, held_slots in Hsl. rewrite Hnone in Hsl.
      change (account slots slots_limit (sh_proxies (se_shared s1)) (slots_frame + 1 + 0)).
      by replace (slots_frame + 1 + 0) with (slots_frame + 0 + 1) by lia.
  - apply balanced_permit in H as [(Hs & [T1 T2 T3 T4 T5] & Hl & Hby & Hsl) Hnone]; [|lia].
    set (s1 := run reset_proxy_permit s) in *. clearbody s1. split_and!; try done.
    unfold slots_at, held_slots in *. by rewrite Hnone in Hsl.
Qed.

(** ** Making an exchange, and destroying one *)

Lemma made_empty w id selected request context pool heap pool' x :
  make_exchange w id selected request context (Some budget) true true true pool heap = (pool', Ok x) ->
  xc_budget (ex_config x) = budget /\ io_permit (ex_io x) = empty_BudgetPermit /\ io_block (ex_io x) = (0, empty_BudgetPermit).
Proof.
  unfold make_exchange. destruct (xw_build w); [|done]. cbn. rewrite andb_false_r.
  destruct (match pool with Some p => _ | None => _ end) as [[c|] pool1]; [by intros [= _ <-]|].
  destruct (make_UpstreamConnection _ _ _); [by intros [= _ <-]|done].
Qed.

Lemma ledger_create w selected request l : keeps (ledger l) (create_exchange config w selected request).
Proof.
  intros s H. unfold wp, create_exchange. pose proof H as ((Hb & _) & _). rewrite Hb.
  destruct (make_exchange _ _ _ _ _ _ _ _ _ _ _) as [pool [x|e]] eqn:Em; [|by revert H; apply balanced_same].
  destruct (made_empty _ _ _ _ _ _ _ _ _ Em) as (Ex & Ep & Ebk).
  assert (H1 : ledger l (set_gate_pool pool s)) by (by revert H; apply balanced_same).
  set (s1 := set_gate_pool pool s) in *. clearbody s1. clear H Hb s Em. cbn zeta.
  apply ledger_share, ledger_slot in H1. set (id := ms_request_permit (se_messages s1)) in *. clearbody id.
  set (s2 := run (share_object id) s1) in *. clearbody s2. clear s1.
  assert (Hnone : px_slot (se_proxy (run reset_exchange s2)) = None).
  { unfold run, reset_exchange. cbn. by destruct (px_slot (se_proxy s2)) eqn:E. }
  set (s3 := run reset_exchange s2) in *. clearbody s3. clear s2.
  destruct H1 as (Hs & [T1 T2 T3 T4 T5] & Hl & Hby & Hsl).
  assert (Ee : exchanges s3 = px_orphans (se_proxy s3)) by (unfold exchanges; by rewrite Hnone).
  rewrite Ee in T2. split_and!; try done.
  - constructor; try done.
    + apply Forall_cons. split; [|done]. unfold slot_ok. cbn. rewrite Ep, Ebk.
      split; [apply lent_empty_permit|]. split; [apply lent_empty_permit|done].
    + revert T4. apply counted_eq. intros i. unfold pointers. rewrite Ee.
      change (exchanges (set_slot _ s3)) with (mkSlot x (rq_method request) id :: px_orphans (se_proxy s3)).
      cbn [fmap list_fmap app sl_permit]. rewrite !owned_cons. cbn [se_messages set_slot upd_proxy]. lia.
  - eapply bytes_eq; [exact Hby|]. unfold held_bytes. rewrite Ee. unfold exchanges. cbn. unfold slot_bytes at 2. cbn.
    rewrite Ep, Ebk. cbn. lia.
Qed.

Lemma ledger_reserve bytes l s :
  0 <= bytes -> ledger l s -> wp (acquire_body bytes) (fun p => ledger (option_list p ++ l)) (ledger l) s.
Proof.
  intros Hn ((Hb & Ha) & Ht & Hl & Hby & Hsl). unfold wp, acquire_body. rewrite Hb.
  pose proof (account_reserve budget limit _ _ bytes Hby Hn) as Hr.
  destruct (budget_try_acquire _ _ _) as [heap [p|]]; cbn [option_list option_rect app].
  - destruct Hr as [Hp Hacc]. split_and!; try done; [by apply tidy_shared|by apply Forall_cons|].
    eapply bytes_eq; [exact Hacc|]. rewrite permits_bytes_cons. held.
  - subst heap. split_and!; try done. by apply tidy_shared.
Qed.

Lemma ledger_shrink bytes l : 0 <= bytes -> keeps (ledger l) (shrink_request_permit bytes).
Proof.
  intros Hn s H. unfold wp, shrink_request_permit. destruct (ms_request_permit (se_messages s)) as [i|]; [|done].
  destruct (px_objects (se_proxy s) !! i) as [[p n]|] eqn:Hi; [|done].
  pose proof H as ((Hb & Ha) & Ht & Hl & Hby & Hsl). pose proof (permits_bytes_nonneg _ _ Hl) as Hpl.
  pose proof (proj1 (tidy_response _ _ Ht)) as Hre. cbn in Hre.
  pose proof (slots_bytes_nonneg _ (tidy_exchanges _ _ Ht)) as Hsb.
  destruct (tidy_objects _ _ Ht i _ Hi) as [Hlt Hp].
  assert (Hrest : 0 <= objects_bytes (delete i (px_objects (se_proxy s)))).
  { apply map_sum_nonneg. intros j o Hj. apply lookup_delete_Some in Hj as [_ Hj].
    by destruct (tidy_objects _ _ Ht j o Hj) as [_ [? _]]. }
  assert (Eo : objects_bytes (px_objects (se_proxy s)) = bytes_ p + objects_bytes (delete i (px_objects (se_proxy s)))).
  { unfold objects_bytes. by rewrite (map_sum_delete _ _ i (p, n)). }
  pose proof (account_shrink budget limit (sh_heap (se_shared s))
    (bytes_frame + bytes_ (ms_response_permit (se_messages s)) + sumZ slot_bytes (exchanges s) +
     objects_bytes (delete i (px_objects (se_proxy s))) + permits_bytes l) p bytes Hn Hp) as Hsh.
  destruct (shrink_to _ _ _) as [[heap p'] shrunk]. destruct Hsh as [Hp' Hacc]; [lia|..].
  { eapply bytes_eq; [exact Hby|]. unfold held_bytes. lia. }
  destruct Ht as [T1 T2 T3 T4 T5]. split_and!; try done.
  - constructor; try done.
    + change (map_Forall (fun i o => (i < px_next (se_proxy s))%nat /\ lent budget o.1) (<[i := (p', n)]> (px_objects (se_proxy s)))).
      by apply map_Forall_insert_2.
    + change (counted_by ([] ++ pointers s) (<[i := (p', n)]> (px_objects (se_proxy s)))). intros j. rewrite <- T4.
      destruct (decide (j = i)) as [->|Hj]; [by rewrite lookup_insert_eq, Hi|by rewrite lookup_insert_ne].
  - eapply bytes_eq; [exact Hacc|]. unfold held_bytes, objects_bytes, exchanges. cbn.
    rewrite (map_sum_update _ _ i (p, n)) by done. unfold objects_bytes in Eo. rewrite Eo. cbn. lia.
Qed.

Lemma ledger_orphan i l : keeps (ledger l) (destroy_orphan i).
Proof.
  intros s H. unfold destroy_orphan. do 2 wp_step. destruct (px_orphans (se_proxy s) !! i) as [slot|] eqn:Hi; [|done].
  pose proof H as (Hs & [T1 T2 T3 T4 T5] & Hl & Hby & Hsl).
  pose proof (take_drop_middle _ _ _ Hi) as El. rewrite delete_take_drop.
  set (l1 := list.take i _) in *. set (l2 := drop (S i) _) in *. clearbody l1 l2. clear Hi.
  assert (Ee : exchanges s = (option_list (px_slot (se_proxy s)) ++ l1) ++ slot :: l2)
    by (unfold exchanges; by rewrite <- El, app_assoc).
  set (s1 := set_orphans (l1 ++ l2) s).
  assert (Ee1 : exchanges s1 = (option_list (px_slot (se_proxy s)) ++ l1) ++ l2) by (unfold exchanges; cbn; by rewrite app_assoc).
  rewrite Ee in T2. apply Forall_app in T2 as [Hl1 Hl2]. apply Forall_cons in Hl2 as [(Hp1 & Hp2 & _) Hl2].
  assert (H1 : balanced [sl_permit slot] 0
                 (io_permit (ex_io (sl_exchange slot)) :: (io_block (ex_io (sl_exchange slot))).2 :: l) s1).
  { split_and!; try done.
    - constructor; try done.
      + rewrite Ee1. by apply Forall_app.
      + revert T4. apply counted_eq. intros j. unfold pointers. rewrite Ee, Ee1.
        change (ms_request_permit (se_messages s1)) with (ms_request_permit (se_messages s)). cbn [app].
        rewrite !fmap_app, !owned_cons, !owned_app. cbn [fmap list_fmap]. rewrite owned_cons. lia.
    - by repeat (apply Forall_cons; split).
    - eapply bytes_eq; [exact Hby|]. rewrite !permits_bytes_cons. unfold held_bytes. rewrite Ee, Ee1.
      rewrite !(sumZ_app _ _ l2), !sumZ_app. cbn [sumZ]. unfold slot_bytes at 3. cbn [s1 set_orphans upd_proxy se_messages se_proxy px_objects]. lia. }
  apply balanced_drop, balanced_drop, balanced_drop_object in H1. exact H1.
Qed.

#[export] Instance ledger_walk : SessionWalk dump config True ledger admitted.
Proof.
  split.
  - apply ledger_plain.
  - intros l s _. by apply balanced_same.
  - intros l s _. by apply balanced_same.
  - apply ledger_request.
  - apply ledger_slot.
  - apply ledger_cancel.
  - intros l s H. by apply balanced_permit.
  - intros p l s. apply balanced_drop.
  - apply ledger_store.
  - apply ledger_empty.
  - intros bytes l s Hb. apply ledger_reserve. by apply Hb.
  - apply ledger_make.
  - apply ledger_shrink.
  - apply ledger_admit.
  - intros r l s. unfold admitted. destruct (ar_permit r) as [p|]; [|done]. intros (_ & _ & E1 & E2) [E|E]; congruence.
  - intros r l s. apply ledger_admitted.
  - intros w selected request l. apply ledger_create.
  - intros w l. apply ledger_begin.
  - intros w event slot l s E Hc. apply ledger_exchange; [done|by apply Hc].
  - intros i l. apply ledger_orphan.
Qed.

(** Once no handler is left, the destructor gives everything back. *)
Lemma ledger_destroy s :
  ledger [] s -> px_slot (se_proxy s) = None -> px_orphans (se_proxy s) = [] ->
  let w := se_shared (run destroy_session s) in
  shared_ok w /\ bytes_at w bytes_frame /\ slots_at w slots_frame.
Proof.
  intros H Hs Ho. set (s1 := run reset_request_permit s). set (s2 := run reset_proxy_permit s1). set (s3 := run reset_exchange s2).
  change (run destroy_session s) with (run (store_response_permit empty_BudgetPermit) s3). set (s' := run _ s3).
  assert (Hfinal : ledger [] s') by (apply ledger_store, ledger_empty, ledger_slot, balanced_permit, ledger_request, H; lia).
  assert (E : exchanges s' = [] /\ ms_request_permit (se_messages s') = None /\ px_permit (se_proxy s') = None).
  { destruct (request_reset s) as (E1 & E2 & E3). fold s1 in E1, E2, E3. rewrite Hs in E2. rewrite Ho in E3. clearbody s1.
    assert (E : ms_request_permit (se_messages s2) = None /\ px_slot (se_proxy s2) = None /\ px_orphans (se_proxy s2) = [] /\
              px_permit (se_proxy s2) = None).
    { unfold s2, run, reset_proxy_permit. cbn. by destruct (px_permit (se_proxy s1)) eqn:Ep. }
    clearbody s2. destruct E as (F1 & F2 & F3 & F4). assert (E4 : s3 = s2) by (unfold s3, run, reset_exchange; cbn; by rewrite F2).
    split_and!; [|exact (eq_trans (f_equal _ (f_equal _ E4)) F1)|exact (eq_trans (f_equal _ (f_equal _ E4)) F4)].
    change (exchanges s3 = []). rewrite E4. unfold exchanges. by rewrite F2, F3. }
  destruct E as (Ee & Er & Ep). destruct Hfinal as (Hsh & [T1 T2 T3 T4 T5] & _ & Hby & Hsl).
  assert (Hobj : px_objects (se_proxy s') = ∅).
  { apply map_eq. intros i. specialize (T4 i). unfold pointers in T4. rewrite Ee, Er in T4. rewrite lookup_empty.
    by destruct (px_objects (se_proxy s') !! i). }
  split; [done|]. split.
  - eapply bytes_eq; [exact Hby|]. unfold held_bytes. rewrite Ee, Hobj. unfold objects_bytes. rewrite map_sum_empty.
    change (ms_response_permit (se_messages s')) with empty_BudgetPermit. cbn. lia.
  - unfold slots_at, held_slots in Hsl. rewrite Ep in Hsl. by replace (slots_frame + 0 + 0) with slots_frame in Hsl by lia.
Qed.

End Frame.
End Ledger.
