(* ===== verification/SessionTheorems.v ===== *)
(** * What a session guarantees (src/http_server.cpp, [HttpSession])

    The interface of the server is discharged for the real sessions; then what a client and
    an operator see of a connection: answers in turn, progress, the limit of requests, the
    errors of a read, draining and authentication; and two behaviours that differ from what
    the code around them does. *)

From Stdlib Require Import Floats.SpecFloat.
From S2P Require Import Prelude Text ConfigTypes Errors Http RateLimit Permits BufferBudget HealthState.
From S2P Require Import UpstreamPool ApiKeyAuth HttpHandler Admission ProxyMessage HealthCheck.
From S2P Require Import ServerState Server Metrics Handlers Exchange ExchangeKeeps ExchangeTells Transport Session SessionWalk SessionKeeps.
From S2P Require Import SessionInvariant.

Local Open Scope Z_scope.

(** ** The interface of the server *)

Section Interface.
Context {B : BeastHttp} {BL : BeastLaws B}.
Variable dump : Json -> text.
Variable evp_digest : text -> option ApiKeyDigest.
Variable double_chars : spec_float -> option text.
Variable config : AppConfig.

(** The exchange has the proxy permit while it is in progress, and no longer. *)
Lemma settled_permit stalls s : settled dump stalls s ->
  (px_slot (se_proxy s) = None <-> px_permit (se_proxy s) = None).
Proof.
  assert (Hidle : idle s -> px_slot (se_proxy s) = None <-> px_permit (se_proxy s) = None) by (by intros [-> ->]).
  assert (Hin : forall silent, in_progress dump silent s -> px_slot (se_proxy s) = None <-> px_permit (se_proxy s) = None).
  { intros silent ([permit Hp] & slot & Hs & _). by rewrite Hp, Hs. }
  intros [[_ H]|(_ & _ & H & _)]; [|by apply Hidle].
  destruct (fl_phase (se_flags s)); cbn in H.
  - apply Hidle, H.
  - apply Hidle, H.
  - eapply Hin, H.
  - destruct H as (_ & _ & [(close & _ & Hi & _)|[(Hi & _)|(_ & Hi & _)]]); [by apply Hidle|by eapply Hin|by apply Hidle].
  - apply Hidle, H.
  - done.
Qed.

(** The server's view is what the world shows the session of the server. *)
Definition with_view (v : ServerView) (w : SeWorld) : SeWorld :=
  mkSeWorld (sw_begin w) (sw_logs w) (sw_builds w) (sw_recovers w) (sw_now w) (sw_id w) (sw_exchange w) v.

(** The shared state, the session, and whether the close callback was called. *)
Definition outcome_of (before after : Session) : GateShared * Session * bool :=
  (se_shared after, after, negb (fl_closes (se_flags after) =? fl_closes (se_flags before))%nat).

Definition share (shared : GateShared) (s : Session) : Session := upd_shared (fun _ => shared) s.

Definition gate_stop_pool (shared : GateShared) : GateShared :=
  mkGate ((fun p => (pool_stop p).2) <$> sh_pool shared) (sh_heap shared) (sh_budget shared) (sh_proxies shared)
    (sh_admission shared) (sh_metrics shared).

(** A session that has not been started, or whose start threw. *)
Definition unstarted (s : Session) : Prop :=
  quiet s /\ px_orphans (se_proxy s) = [] /\ (fl_phase (se_flags s) = reading \/ fl_phase (se_flags s) = handshaking) /\
  is_Some (turn (se_log s)) /\ limited s.

Definition sound (s : Session) : Prop := settled dump True s \/ unstarted s.

Definition http_session_ok (live : bool) (s : Session) : Prop :=
  fl_closes (se_flags s) = (if live then 0 else 1)%nat /\ fl_finished (se_flags s) = negb live /\ sound s.

#[export] Instance http_sessions : SessionInterface := {|
  Shared := GateShared;
  Server.Session := Session;
  session_made s := exists shared, construct_session config true true true true shared = Ok s;
  session_ok := http_session_ok;
  SessionWorld := SeWorld;
  session_start w v shared s :=
    let '(s', r) := se_start (with_view v w) (share shared s) in (outcome_of s s', r);
  session_begin_drain v shared s := outcome_of s (run se_begin_drain (share shared s));
  session_stop v shared s := outcome_of s (run se_stop (share shared s));
  session_handler v shared s outcome :=
    exists w event, se_enabled (share shared s) event /\
      outcome = outcome_of s (se_step dump evp_digest double_chars config (with_view v w) event (share shared s));
  session_left := handlers_left;
  session_destroy shared s := se_shared (run destroy_session (share shared s));
  stop_upstream_pool := gate_stop_pool;
  upstream_pool_stopped shared := pool_over (sh_pool shared) |}.

(** What an operation that keeps the accounts does to a live session. *)
Lemma accounted_closes shared s s' :
  (http_session_ok true s -> accounted (pool_over (sh_pool shared)) None s' /\ sound s') ->
  closes_exactly http_session_ok (fun shared => pool_over (sh_pool shared)) shared s (outcome_of s s').
Proof.
  intros Hs' H. destruct (Hs' H) as [(Hc & Hp & _) Hr]. destruct H as (Hz & Hf & _). split; [|exact Hp]. cbn.
  unfold http_session_ok. rewrite Hz, Hc. split_and!; [..|exact Hr]; by destruct (fl_finished (se_flags s')).
Qed.

Lemma share_accounted shared s :
  http_session_ok true s -> accounted (pool_over (sh_pool shared)) None (share shared s).
Proof. intros (Hz & Hf & _). split; [cbn; by rewrite Hz, Hf|]. by split. Qed.

Lemma unstarted_closable s : unstarted s -> closable s.
Proof. intros (([Hf _] & _) & _ & _ & Ht & Hl). by split_and!. Qed.

Lemma made_unstarted shared : unstarted (make_session config shared).
Proof. split; [done|]. split; [done|]. split; [by left|]. split; [by eexists|]. right. by cbn. Qed.

Lemma start_sound w shared : wp (se_start w) (fun _ => sound) sound (make_session config shared).
Proof.
  unfold se_start. do 2 wp_step. wp_step.
  - do 2 wp_step. unfold start_op. wp_step. wp_step.
    + wp_step. left. left. by split.
    + right. split; [done|]. split; [done|]. split; [by right|]. split; [by eexists|by right].
  - unfold read_request. do 2 wp_step. wp_step; [done|]. do 8 wp_step. unfold start_op. wp_step. wp_step.
    + wp_step. left. left. split; [done|]. split; [done|]. split; [done|]. split; [by right|].
      exists empty_Incoming. split; [done|]. by left.
    + right. split; [done|]. split; [done|]. split; [by left|]. split; [by eexists|by right].
Qed.

Lemma start_contract w v shared s :
  (exists shared0, s = make_session config shared0) ->
  closes_exactly http_session_ok (fun shared => pool_over (sh_pool shared)) shared s
    (@session_start http_sessions w v shared s).1.
Proof.
  intros [shared0 ->]. cbn. set (s0 := make_session config shared0).
  pose proof (start_sound (with_view v w) shared) as Hs.
  pose proof (accounted_start dump config (pool_over (sh_pool shared)) None (with_view v w) (share shared s0)) as Hk.
  unfold wp in Hs, Hk. change (make_session config shared) with (share shared s0) in Hs.
  destruct (se_start _ (share shared s0)) as [s' r].
  apply accounted_closes. intros H. split; [|by destruct r]. specialize (Hk (share_accounted shared s0 H)). by destruct r.
Qed.

Lemma drain_contract shared s :
  closes_exactly http_session_ok (fun shared => pool_over (sh_pool shared)) shared s
    (outcome_of s (run se_begin_drain (share shared s))).
Proof.
  apply accounted_closes. intros H. split.
  - apply run_keeps; [apply (accounted_begin_drain dump config)|by apply share_accounted].
  - destruct H as (_ & Hf & [H|H]).
    + left. by apply settled_drain.
    + apply run_wp. unfold se_begin_drain. do 2 wp_step. wp_step; [|by wp_step; right].
      do 4 wp_step. destruct H as (Hq & Ho & Hph & Ht & Hl).
      assert (E : classify_session_drain (fl_phase (se_flags (set_draining (share shared s)))) = close_immediately)
        by (cbn; by destruct Hph as [-> | ->]).
      rewrite E. eapply wp_mono; [apply wp_stop, unstarted_closable|by left; right|done]. by split_and!.
Qed.

Lemma stop_contract shared s :
  closes_exactly http_session_ok (fun shared => pool_over (sh_pool shared)) shared s
    (outcome_of s (run se_stop (share shared s))) /\
  (http_session_ok true s -> (outcome_of s (run se_stop (share shared s))).2 = true).
Proof.
  assert (H : http_session_ok true s ->
    accounted (pool_over (sh_pool shared)) None (run se_stop (share shared s)) /\ over_ok (run se_stop (share shared s))).
  { intros H. split; [apply run_keeps; [apply (accounted_stop dump config)|by apply share_accounted]|].
    destruct H as (_ & _ & [H|H]); [by eapply settled_stop|]. apply run_wp, wp_stop. by apply unstarted_closable. }
  split.
  - apply accounted_closes. intros Hok. destruct (H Hok) as [Ha Ho]. split; [done|]. left. by right.
  - intros Hok. destruct (H Hok) as [[Hc _] [Hf _]]. destruct Hok as (Hz & _). unfold outcome_of. cbn. by rewrite Hc, Hf, Hz.
Qed.

Lemma handler_contract v shared s outcome :
  @session_handler http_sessions v shared s outcome ->
  closes_exactly http_session_ok (fun shared => pool_over (sh_pool shared)) shared s outcome.
Proof.
  intros (w & event & Hen & ->). apply accounted_closes. intros H. split.
  - by apply accounted_step, share_accounted.
  - destruct H as (_ & _ & [H|(([Hf Hst] & [Hi _] & Hp) & Ho & _)]).
    + left. assert (Hs : settled dump True (share shared s)) by exact H.
      exact (settled_step dump evp_digest double_chars config True _ event (share shared s) (fun _ => I) Hs Hen).
    + exfalso. destruct event; cbn in Hen; rewrite ?Hp, ?Hi, ?Ho in Hen.
      all: try (destruct Hen as [Hen _]; by apply not_elem_of_nil in Hen).
      all: try (destruct Hen as (op & _ & Hen); by apply not_elem_of_nil in Hen).
      * by destruct event.
      * cbn in Hen. lia.
Qed.

(** A session that ended ignores its handlers. *)
Lemma ended_contract v shared s outcome :
  @session_handler http_sessions v shared s outcome -> http_session_ok false s ->
  http_session_ok false outcome.1.2 /\ outcome.2 = false /\ handlers_left s = S (handlers_left outcome.1.2) /\
  (pool_over (sh_pool shared) = true -> pool_over (sh_pool outcome.1.1) = true).
Proof.
  intros (w & event & Hen & ->) (Hz & Hf & Hs).
  assert (Ho : over_ok (share shared s)).
  { cbn in Hf. destruct Hs as [[[[Ha _] _]|Ho]|([[Ha _] _] & _)]; [congruence|exact Ho|congruence]. }
  destruct (over_step dump evp_digest double_chars config (with_view v w) event _ Ho Hen) as (Ho' & Ef & _).
  pose proof (over_left dump evp_digest double_chars config (with_view v w) event _ Ho Hen) as Hl.
  assert (Ha : accounted (pool_over (sh_pool shared)) None (share shared s)).
  { split; [cbn; by rewrite Hz, Hf|]. by split. }
  apply (accounted_step dump evp_digest double_chars config (pool_over (sh_pool shared)) None (with_view v w) event) in Ha.
  unfold outcome_of. cbn in *. rewrite Ef. cbn. split_and!; [|by rewrite Nat.eqb_refl|exact Hl|apply Ha].
  split; [by rewrite Ef|]. split; [by rewrite Ef|]. left. by right.
Qed.

Lemma destroy_pool s : sh_pool (se_shared (run destroy_session s)) = sh_pool (se_shared s).
Proof.
  set (P := fun s' : Session => sh_pool (se_shared s') = sh_pool (se_shared s)).
  assert (Hk : keeps P destroy_session); [|by apply (run_keeps P)].
  unfold destroy_session, reset_request_permit, store_response_permit, release_permit. repeat keep_step.
  all: apply keeps_modify; intros s' H.
  - destruct a as [i|]; [|done]. by destruct (_ !! i) as [[p [|[|n]]]|].
  - by destruct (px_permit _).
  - by destruct (px_slot _).
Qed.

Lemma sound_facts s : sound s -> fl_finished (se_flags s) = false ->
  is_Some (turn (se_log s)) /\ limited s /\ (px_slot (se_proxy s) = None <-> px_permit (se_proxy s) = None).
Proof.
  intros [[H|[? _]]|H] Hf; [|congruence|].
  - destruct (live_closable _ _ _ H) as (_ & Ht & Hl). split; [done|]. split; [done|]. by eapply settled_permit; left.
  - destruct H as ((_ & [Hs Hp] & _) & _ & _ & Ht & Hl). split; [done|]. split; [done|]. by rewrite Hs, Hp.
Qed.

#[export] Instance http_sessions_laws : SessionLaws http_sessions.
Proof.
  split; cbn.
  - intros s [shared [= <-]]. split; [done|]. split; [done|]. right. apply made_unstarted.
  - intros w v shared s [shared0 E]. apply start_contract. exists shared0. by injection E.
  - intros. apply drain_contract.
  - intros. apply stop_contract.
  - intros v w s outcome H. exact (handler_contract v w s outcome H).
  - intros v w s outcome H. exact (ended_contract v w s outcome H).
  - intros w s. by rewrite destroy_pool.
  - intros shared. unfold gate_stop_pool, pool_over. cbn. destruct (sh_pool shared) as [p|]; [|done]. cbn.
    unfold pool_stop. by destruct (pool_stopped_ p) eqn:E.
Qed.

(** C12: the sessions of a running server.  In every state the server can reach with real sessions,
    however accepts, handlers, signals and timers interleave, there are at most
    [max_connections] sessions, and each one in its set is live, has not called its close
    callback, has answered its requests in turn, and has the proxy permit exactly while an
    exchange is in progress; and it has read at most 100 requests, unless the start of one of
    its exchanges threw. *)
Theorem server_sessions_sound (limited_connections : 0 < max_connections config < 2 ^ 64)
    (server : @Server http_sessions) (id : nat) (session : Session) :
  server_reachable (I := http_sessions) config server -> sv_sessions server !! id = Some session ->
  Z.of_nat (base.size (sv_sessions server)) <= max_connections config /\
  fl_finished (se_flags session) = false /\ fl_closes (se_flags session) = 0%nat /\
  is_Some (turn (se_log session)) /\
  (entry_start_failed ∉ se_log session -> reads_of (se_log session) <= 100) /\
  (px_slot (se_proxy session) = None <-> px_permit (se_proxy session) = None).
Proof.
  intros H E. destruct (server_reachable_ok config limited_connections server H) as (((Hi & _) & _) & _ & _).
  destruct (inv_sessions config server Hi id session E) as [_ (Hc & Hf & Hs)].
  destruct (sound_facts session Hs Hf) as (Ht & Hl & Hp). split_and!; try done.
  - destruct (inv_accept config server Hi) as (_ & _ & Hb & _). rewrite <- (inv_connections config server Hi).
    unfold pending_count in Hb. destruct (accept_pending_ (sv_accept server)); lia.
  - intros Hno. destruct Hl as [?|[_ Hl]]; [done|exact Hl].
Qed.

End Interface.

(** ** Properties *)

Section Properties.
Context {B : BeastHttp} {BL : BeastLaws B}.
Variable dump : Json -> text.
Variable evp_digest : text -> option ApiKeyDigest.
Variable double_chars : spec_float -> option text.
Variable config : AppConfig.

Notation reachable := (se_reachable dump evp_digest double_chars config).
Notation step := (se_step dump evp_digest double_chars config).

Lemma reachable_accounted P s : reachable P s -> accounted false None s.
Proof.
  induction 1 as [w shared _ _|w event s _ _ IH _|s _ IH|s _ IH|shared s _ IH].
  - apply run_keeps; [by apply (accounted_start dump config)|done].
  - by apply accounted_step.
  - apply run_keeps; [by apply (accounted_begin_drain dump config)|done].
  - apply run_keeps; [by apply (accounted_stop dump config)|done].
  - destruct IH as (H1 & _ & H3). by split.
Qed.

(** C9: one answer for each request, in turn.  Whatever the client, the network and the server
    do, a session reads a request, begins exactly one answer to it, and only then reads the next;
    the proxy permit is held exactly while an exchange is in progress; the close callback
    is called once, when the session ends.  A session that has ended has no exchange and no proxy
    permit; each handler that is left to it is gone when it has run, and neither starts another
    nor answers.  What those handlers own, the permits of its bodies among it, stays reserved until
    they are gone: [Gateway.gateway_accounts] accounts for it. *)
Theorem session_answers_in_turn P s :
  reachable P s ->
  is_Some (turn (se_log s)) /\
  (px_slot (se_proxy s) = None <-> px_permit (se_proxy s) = None) /\
  fl_closes (se_flags s) = (if fl_finished (se_flags s) then 1 else 0)%nat /\
  (fl_finished (se_flags s) = true ->
     px_slot (se_proxy s) = None /\ px_permit (se_proxy s) = None /\
     forall w event, se_enabled s event ->
       fl_closes (se_flags (step w event s)) = 1%nat /\ se_log (step w event s) = se_log s /\
       handlers_left s = S (handlers_left (step w event s))).
Proof.
  intros H. assert (Hset : settled dump True s) by (by eapply reachable_settled; [|exact H]).
  assert (Hcl : closable s \/ over_ok s) by (destruct Hset as [Hl|Ho]; [left; by eapply live_closable|by right]).
  split; [|split; [by eapply settled_permit|split; [by eapply reachable_accounted|]]].
  - destruct Hcl as [(_ & ? & _)|(_ & _ & _ & ? & _)]; done.
  - intros Hf. destruct Hcl as [(? & _)|Ho]; [congruence|]. split; [apply Ho|]. split; [apply Ho|].
    intros w event Hen. destruct (over_step dump evp_digest double_chars config w event s Ho Hen) as (_ & -> & ->).
    destruct (reachable_accounted P s H) as [-> _]. rewrite Hf. split_and!; [done..|by apply over_left].
Qed.

(** C11: a bound on the requests of a connection.  Unless the start of an exchange threw, at most
    100 requests are read on it. *)
Theorem session_request_limit P s :
  reachable P s -> entry_start_failed ∉ se_log s -> reads_of (se_log s) <= 100.
Proof.
  intros H Hno. assert (Hset : settled dump True s) by (by eapply reachable_settled; [|exact H]).
  assert (Hl : limited s).
  { destruct Hset as [Hl|Ho]; [by destruct (live_closable _ _ _ Hl) as (_ & _ & ?)|by destruct Ho as (_ & _ & _ & _ & ?)]. }
  destruct Hl as [?|[_ Hl]]; [done|exact Hl].
Qed.

(** C10: a session does not stall.  When the transport accepts every write it is given, a live
    session is waiting for exactly one thing: an operation of its connection, no exchange being
    in progress; the write of a piece of a streamed response, which its exchange waits for
    in turn; or its exchange, which has an upstream operation pending and whose armed deadline ends it. *)
Theorem session_progress P s :
  (forall w close e, P w -> sw_begin w (so_write close) <> Throw e) ->
  reachable P s -> fl_finished (se_flags s) = false ->
  match px_slot (se_proxy s) with
  | None => exists op, se_pending s = [op] /\ forall body final, op <> so_stream body final
  | Some slot =>
      let x := sl_exchange slot in
      ex_enabled x (xe_deadline (io_generation (ex_io x)) no_error) /\
      ((exists body final, se_pending s = [so_stream body final] /\ io_pending (ex_io x) = [xo_resume final]) \/
       (se_pending s = [] /\ exists op, io_pending (ex_io x) = [op] /\ forall final, op <> xo_resume final))
  end.
Proof.
  intros HP H Hf. assert (Hset : settled dump False s).
  { eapply reachable_settled; [|exact H]. intros w Hw (close & e & He). by apply (HP w close e). }
  destruct Hset as [Hl|[? _]]; [|congruence].
  destruct (px_slot (se_proxy s)) as [slot|] eqn:Hslot.
  - destruct (live_slot dump False s slot Hl Hslot) as [(_ & _ & (request & _ & Hw) & Hst) Hr].
    pose proof Hw as (op & Hlive & Hp & Hfit & Hg). split; [by split|].
    unfold resumes in Hr. rewrite Hp in Hr.
    assert (Hcases : se_pending s = [] \/ exists body final, se_pending s = [so_stream body final])
      by (destruct Hst as [(_ & (_ & _ & _ & ?) & _)|(_ & _ & ?)]; [by left|done]).
    destruct Hcases as [E|(body & final & E)]; rewrite E in Hr.
    + right. split; [done|]. exists op. split; [done|]. intros final ->. done.
    + left. exists body, final. split; [done|]. rewrite Hp. by destruct op; cbn in Hr; simplify_eq.
  - destruct Hl as [_ H']. destruct (fl_phase (se_flags s)); cbn in H'.
    + eexists. split; [apply H'|done].
    + destruct H' as (_ & _ & _ & incoming & _ & [Hp|[Hp _]]); eexists; (split; [exact Hp|done]).
    + destruct H' as ((_ & slot & Hs & _) & _). congruence.
    + destruct H' as (_ & _ & [(close & Hp & _)|[((_ & slot & Hs & _) & _)|([] & _)]]); [|congruence].
      eexists. split; [exact Hp|done].
    + destruct H' as (_ & _ & _ & Hp). eexists. split; [exact Hp|done].
    + done.
Qed.

(** C15: draining a session.  A session that waits for a request, or for its handshake, ends at
    once; one that is answering goes on with what it does.  From then on, whatever happens, it
    reads no request. *)
Theorem session_drain P s :
  reachable P s -> fl_finished (se_flags s) = false -> fl_draining (se_flags s) = false ->
  let s' := run se_begin_drain s in
  fl_draining (se_flags s') = true /\
  match fl_phase (se_flags s) with
  | handshaking | reading => fl_finished (se_flags s') = true
  | _ => s' = set_draining s
  end /\
  forall events : list (SeWorld * SeEvent),
    let after := foldl (fun s we => step we.1 we.2 s) s' events in
    fl_draining (se_flags after) = true /\ reads_of (se_log after) = reads_of (se_log s).
Proof.
  intros H Hf Hd s'. assert (Hset : settled dump True s) by (by eapply reachable_settled; [|exact H]).
  destruct Hset as [Hl|[? _]]; [|congruence]. apply live_closable in Hl.
  assert (E : run se_begin_drain s = match classify_session_drain (fl_phase (se_flags s)) with
                                     | close_immediately => run se_stop (set_draining s) | _ => set_draining s end).
  { unfold se_begin_drain. eval_handler. rewrite Hf, Hd. cbn. by destruct (fl_phase (se_flags s)). }
  assert (Ha : accounted false (Some (reads_of (se_log s))) (set_draining s)).
  { split; [cbn; by eapply reachable_accounted|]. split; [done|]. by split. }
  assert (Hs' : accounted false (Some (reads_of (se_log s))) s').
  { unfold s'. rewrite E. destruct (classify_session_drain _); [|done..]. apply run_keeps; [by apply (accounted_stop dump config)|done]. }
  split; [apply Hs'|]. split.
  - assert (Hstop : fl_finished (se_flags (run se_stop (set_draining s))) = true).
    { apply (run_wp se_stop over_ok (set_draining s)). by apply wp_stop. }
    unfold s'. rewrite E. by destruct (fl_phase (se_flags s)).
  - intros events. clearbody s'. clear - Hs'. revert s' Hs'. induction events as [|[w event] events IH]; intros s' Hs'; cbn.
    + apply Hs'.
    + by apply IH, accounted_step.
Qed.

(** ** Errors of a read *)

(** The status that answers the error of a read, if it is answered. *)
Definition read_error_status (e : error_code) : option Z :=
  if error_is e end_of_stream || error_is e operation_aborted || error_is e stream_truncated || error_is e beast_timeout
  then None
  else if error_is e body_limit then Some 413
  else if error_is e header_limit then Some 431
  else Some 400.

(** Nothing throws. *)
Definition calm (w : SeWorld) : Prop :=
  sw_logs w = Ok tt /\ sw_builds w = Ok tt /\ forall op, sw_begin w op = Ok tt.

(** The answer [response] is being written, and the connection closed after it. *)
Definition answered_last (status : Z) (s s' : Session) : Prop :=
  se_log s' = se_log s ++ [entry_reply status] /\ se_pending s' = [so_write true] /\
  exists response, ms_response (se_messages s') = Some response /\ rs_status response = status /\ rs_need_eof response = true.

Lemma wp_error_answer w status code message s (Q : unit -> Session -> Prop) E :
  calm w -> alive s -> se_pending s = [] -> obs_completed_ (ms_observation (se_messages s)) = false ->
  (forall s', answered_last status s s' -> Q tt s') ->
  wp (write_protocol_error dump w status code message) Q E s.
Proof.
  intros (Hl & Hb & Ho) [Hf Hst] Hp Hobs HQ. unfold write_protocol_error. rewrite Hl, Hb. do 2 (wp_step; wp_step; [|done]).
  unfold write_response. do 2 wp_step. rewrite Hf, Hst. cbn [orb]. wp_step. apply wp_finish_observation; [done|].
  intros o m _. cbn [negb]. do 4 wp_step. set (draining := fl_draining _).
  set (r := if draining then _ else _).
  assert (Hr : rs_status r = status /\ rs_need_eof r = true).
  { subst r. destruct draining; (split; [done|]); [apply close_ends; by right|apply protocol_error_ends]. }
  clearbody r. destruct Hr as [Hr1 Hr2]. do 2 wp_step. unfold store_response_permit, release_permit. do 8 wp_step.
  unfold start_op. rewrite Ho. wp_step. wp_step; [|done]. wp_step. apply HQ. split; [cbn; by rewrite Hr1|].
  split; [cbn; by rewrite Hp, Hr2|]. exists r. by split_and!.
Qed.

Lemma wp_close_same s (Q : unit -> Session -> Prop) E :
  fl_finished (se_flags s) = false ->
  (forall s', fl_finished (se_flags s') = true -> se_log s' = se_log s -> Q tt s') -> wp close_socket Q E s.
Proof.
  intros Hf HQ. unfold close_socket. do 2 wp_step. wp_step; [congruence|]. apply wp_cancel_proxy. intros s1 [E1 E2 _ _ _].
  unfold se_finish. do 2 wp_step. wp_step; [congruence|]. wp_step. by apply HQ.
Qed.

(** C14: the errors of a read.  When reading a request fails, and nothing its handler calls
    throws, the end of the connection closes it in its turn; an abort, a truncated TLS stream
    and a timeout close it at once; none of them is answered.  An error of the message is
    answered 413, 431 or 400, and the connection is closed after the answer. *)
Theorem session_read_errors P w event e incoming s :
  reachable P s -> se_enabled s event -> event = se_header e incoming \/ event = se_body e incoming ->
  failed e = true -> calm w -> fl_finished (se_flags s) = false ->
  let s' := step w event s in
  match read_error_status e with
  | None =>
      se_log s' = se_log s /\
      (fl_finished (se_flags s') = true \/
       error_is e end_of_stream = true /\ fl_tls (se_flags s) = true /\ fl_phase (se_flags s') = closing /\
         se_pending s' = [so_shutdown])
  | Some status => answered_last status s s'
  end.
Proof.
  intros H Hen Hev He Hw Hf s'. assert (Hset : settled dump True s) by (by eapply reachable_settled; [|exact H]).
  destruct Hset as [Hl|[? _]]; [|congruence].
  destruct (read_arrives dump True event e incoming s Hl Hen Hev) as [Hr _].
  set (Q := fun (_ : unit) s' => match read_error_status e with
    | None => se_log s' = se_log s /\ (fl_finished (se_flags s') = true \/
         error_is e end_of_stream = true /\ fl_tls (se_flags s) = true /\ fl_phase (se_flags s') = closing /\
         se_pending s' = [so_shutdown])
    | Some status => answered_last status s s' end).
  assert (Herr : forall E s1, received s1 incoming -> se_log s1 = se_log s -> fl_tls (se_flags s1) = fl_tls (se_flags s) ->
    wp (handle_read_error dump w e) Q E s1).
  { intros E s1 (([Hf1 Hs1] & Hi1 & Hp1) & [Ht1 Ho1] & Hb1 & Hph1 & _) El Et.
    assert (Hclose : read_error_status e = None -> wp close_socket Q E s1).
    { intros En. unfold Q. rewrite En. apply wp_close_same; [done|]. intros s2 Hfin Elog. split; [congruence|by left]. }
    assert (Hanswer : forall st code message, read_error_status e = Some st ->
      wp (write_protocol_error dump w st code message) Q E s1).
    { intros st code message En. unfold Q. rewrite En. apply wp_error_answer; [done..|].
      intros s2 (H1 & H2). split; [by rewrite H1, El|done]. }
    destruct Hw as (Hlog & _ & Hbegin). unfold handle_read_error, body_too_large. rewrite Hlog.
    unfold read_error_status in Hclose, Hanswer.
    destruct (error_is e end_of_stream) eqn:E0; cbn [orb] in *.
    { assert (EQ : read_error_status e = None) by (unfold read_error_status; by rewrite E0).
      unfold graceful_close. do 2 wp_step. rewrite Hf1, Hph1, bool_decide_eq_false_2 by done. cbn [orb]. do 2 wp_step. wp_step; [by apply Hclose|].
      reflect_bools. do 3 wp_step. unfold start_op. rewrite Hbegin. wp_step. wp_step; [|done]. wp_step.
      unfold Q. rewrite EQ. split; [done|]. right. split; [done|]. split; [congruence|]. split; [done|]. cbn. by rewrite Hp1. }
    destruct (error_is e operation_aborted || error_is e stream_truncated); cbn [orb] in *; [by apply Hclose|].
    destruct (error_is e beast_timeout); [by wp_step; wp_step; [apply Hclose|]|].
    destruct (error_is e body_limit); [by apply Hanswer|].
    destruct (error_is e header_limit); [by apply Hanswer|].
    wp_step. wp_step; [by apply Hanswer|done]. }
  assert (Hsame : se_log (se_arrive event s) = se_log s /\ se_flags (se_arrive event s) = se_flags s).
  { destruct Hev as [-> | ->]; unfold se_arrive; cbn; by destruct (ms_parser _). }
  destruct Hsame as [Elog Eflags].
  apply (run_wp _ (Q tt)). destruct Hev as [-> | ->]; cbn [se_handler]; unfold handle; wp_step.
  - unfold on_request_header. wp_step. apply wp_modify. set (s1 := match ms_parser _ with Some _ => _ | None => _ end).
    assert (H1 : frame (se_arrive (se_header e incoming) s) s1) by (unfold s1; by destruct (ms_parser _)).
    pose proof (received_proper _ _ _ H1 Hr) as Hr1. apply wp_alive; [apply Hr1|]. rewrite He.
    apply Herr; [done|by rewrite (frame_log _ _ H1), Elog|by rewrite (frame_flags _ _ H1), Eflags].
  - unfold on_request_body. apply wp_alive; [apply Hr|]. rewrite He. apply Herr; [done..|by rewrite Eflags].
Qed.

(** ** Authentication *)

(** No exchange is in progress, and nothing has been taken for one. *)
Definition untouched (w : GateShared) (s : Session) : Prop :=
  idle s /\ sh_pool (se_shared s) = sh_pool w /\ sh_proxies (se_shared s) = sh_proxies w /\
  sh_admission (se_shared s) = sh_admission w.

Lemma untouched_close w0 : keeps (untouched w0) close_socket.
Proof.
  intros s H. unfold close_socket. do 2 wp_step. wp_step; [by wp_step|]. unfold cancel_exchange, reset_exchange, reset_proxy_permit.
  pose proof H as ([Hs Hp] & _). do 4 wp_step. rewrite Hs, Hs. do 2 wp_step. rewrite Hp. unfold se_finish. do 2 wp_step.
  wp_step; by wp_step.
Qed.

Lemma untouched_write w0 w response : keeps (untouched w0) (write_limited w response).
Proof.
  unfold write_limited, write_response, start_op, finish_observation, store_response_permit, release_permit. repeat keep_step.
  intros s H. unfold wp. by destruct (Metrics.finish _ _ _ _) as [[first o] m].
Qed.

(** C16: a request that does not authenticate takes nothing.  When the selected route asks for a key
    and the request does not present one of its keys, no exchange is started and no connection, slot or
    token is taken for it; unless an exception closes the session it is answered 401. *)
Theorem session_authenticates w s incoming selected auth :
  ms_parser (se_messages s) = Some incoming ->
  select_http_route config (in_request incoming) = Some selected -> sr_auth selected = Some auth ->
  authenticate_api_key evp_digest auth (in_request incoming) <> Ok true -> idle s ->
  let s' := run (handle (process_request dump evp_digest double_chars config w)) s in
  untouched (se_shared s) s' /\
  (calm w -> authenticate_api_key evp_digest auth (in_request incoming) = Ok false ->
   alive s -> obs_completed_ (ms_observation (se_messages s)) = false ->
   se_log s' = se_log s ++ [entry_reply 401]).
Proof.
  intros Hp Hsel Hauth Hno Hi s'. split.
  - apply run_wp. unfold handle. wp_step.
    eapply (wp_mono _ (fun _ => untouched (se_shared s)) _ (untouched (se_shared s)));
      [|done|intros s1 H1; by apply untouched_close].
    unfold process_request. do 2 wp_step. rewrite Hp. do 4 wp_step. rewrite Hsel, Hauth. wp_step. wp_step; [|done].
    wp_step; [congruence|]. wp_step. wp_step; [|done]. by apply untouched_write.
  - intros (Hl & Hb & Ho) Hfalse [Hf Hst] Hobs. apply (run_wp _ (fun s' => se_log s' = se_log s ++ [entry_reply 401])).
    unfold handle. wp_step. unfold process_request. do 2 wp_step. rewrite Hp. do 4 wp_step. rewrite Hsel, Hauth, Hfalse, Hb.
    wp_step. wp_step; [|done]. match goal with E : Ok _ = Ok _ |- _ => injection E as <- end. cbn [negb]. wp_step. wp_step; [|done].
    unfold write_limited, write_response. do 4 wp_step. cbn [se_flags upd_flags count_request set_observation upd_messages fl_finished fl_stopping].
    rewrite Hf, Hst. cbn [orb]. wp_step. apply wp_finish_observation; [cbn; by rewrite begin_completed|]. intros o m _. cbn [negb].
    unfold store_response_permit, release_permit, start_op. do 8 wp_step. rewrite Ho. repeat wp_step; [|done].
    destruct (last_request _), (fl_draining _); reflexivity.
Qed.

End Properties.

(** ** Concrete sessions *)

Definition sample_gateway : AppConfig :=
  mkAppConfig (L "gate") (L "test") info (L "127.0.0.1") 8080 256 32 67108864 5000 false false
    (Some (mkUpstream (L "a") 80 3000 http)) [] None None.

(** No slot is free. *)
Definition sample_shared : GateShared :=
  mkGate (Some make_UpstreamPool) sample_budget 0 [mkProxies 1 1] (mkAdmission (mkRouteRateLimits []) (Some 0%nat) []) None.

Definition sample_view : ServerView := mkView (make_AcceptCapacityState 256) (make_UpstreamHealthState []).
Definition sample_se_world : SeWorld :=
  mkSeWorld (fun _ => Ok tt) (Ok tt) (Ok tt) (Ok tt) 5 7 Exchange.sample_world sample_view.

Definition sample_incoming : Incoming := mkIncoming Exchange.sample_request None true.

Notation sample_step := (se_step sample_dump (fun _ => None) (fun _ => None) sample_gateway).
Notation sample_reaches := (se_reachable sample_dump (fun _ => None) (fun _ => None) sample_gateway).

Definition sample_fresh : Session := run (se_start sample_se_world) (make_session sample_gateway sample_shared).
Definition sample_answered : Session := sample_step sample_se_world (se_header no_error sample_incoming) sample_fresh.

Lemma sample_fresh_reachable (P : SeWorld -> Prop) : P sample_se_world -> sample_reaches P sample_fresh.
Proof. intros H. by apply se_made. Qed.

Lemma sample_answered_reachable (P : SeWorld -> Prop) : P sample_se_world -> sample_reaches P sample_answered.
Proof.
  intros H. apply se_next; [done|by apply sample_fresh_reachable|]. split; [by left|]. split; [by intros n [= <-]|by right].
Qed.

Lemma session_answers_in_turn_witness :
  turn (se_log sample_answered) = Some false /\ is_Some (turn (se_log sample_answered)) /\
  fl_closes (se_flags sample_answered) = 0%nat.
Proof.
  split; [by vm_compute|].
  destruct (session_answers_in_turn (BL := list_beast_laws) sample_dump (fun _ => None) (fun _ => None) sample_gateway
              (fun _ => True) sample_answered) as (H1 & _ & H2 & _); [by apply sample_answered_reachable|].
  split; [done|]. rewrite H2. by vm_compute.
Defined.

Lemma session_request_limit_witness : reads_of (se_log sample_answered) = 1 /\ reads_of (se_log sample_answered) <= 100.
Proof.
  split; [by vm_compute|].
  apply (session_request_limit (BL := list_beast_laws) sample_dump (fun _ => None) (fun _ => None) sample_gateway
           (fun _ => True)); [by apply sample_answered_reachable|].
  assert (E : se_log sample_answered = [entry_read; entry_reply 503]) by (by vm_compute).
  rewrite E, !not_elem_of_cons. split_and!; [done|done|apply not_elem_of_nil].
Defined.

Lemma session_progress_witness : exists op, se_pending sample_answered = [op] /\ forall body final, op <> so_stream body final.
Proof.
  assert (E : px_slot (se_proxy sample_answered) = None) by reflexivity.
  pose proof (session_progress (BL := list_beast_laws) sample_dump (fun _ => None) (fun _ => None) sample_gateway
                (fun w => w = sample_se_world) sample_answered) as H.
  rewrite E in H. apply H; [by intros w close e ->|by apply sample_answered_reachable|by vm_compute].
Defined.

Lemma session_drain_witness :
  let s' := run se_begin_drain sample_fresh in
  fl_phase (se_flags sample_fresh) = reading /\ fl_finished (se_flags s') = true.
Proof.
  split; [by vm_compute|].
  apply (session_drain (BL := list_beast_laws) sample_dump (fun _ => None) (fun _ => None) sample_gateway
           (fun _ => True) sample_fresh); [by apply sample_fresh_reachable|by vm_compute..].
Defined.

Lemma session_read_errors_witness :
  answered_last 413 sample_fresh (sample_step sample_se_world (se_header body_limit sample_incoming) sample_fresh).
Proof.
  apply (session_read_errors (BL := list_beast_laws) sample_dump (fun _ => None) (fun _ => None) sample_gateway
           (fun _ => True) sample_se_world (se_header body_limit sample_incoming) body_limit sample_incoming sample_fresh).
  - by apply sample_fresh_reachable.
  - split; [by left|]. split; [by intros n [= <-]|by right].
  - by left.
  - by vm_compute.
  - by split.
  - by vm_compute.
Defined.

(** The same gateway, with a route that asks for a key. *)
Definition sample_guarded : AppConfig :=
  mkAppConfig (L "gate") (L "test") info (L "127.0.0.1") 8080 256 32 67108864 5000 false false None
    [mkRoute (L "/a") [mkUpstream (L "a") 80 3000 http] false None None (Some default_ApiKeyAuthConfig) false] None None.

Definition sample_received : Session := se_arrive (se_header no_error sample_incoming) sample_fresh.

Lemma session_authenticates_witness :
  se_log (run (handle (process_request sample_dump (fun _ => None) (fun _ => None) sample_guarded sample_se_world)) sample_received) =
  [entry_read; entry_reply 401].
Proof.
  assert (E1 : ms_parser (se_messages sample_received) = Some sample_incoming) by reflexivity.
  assert (E2 : select_http_route sample_guarded (in_request sample_incoming) =
    Some (mkSelectedRoute [mkUpstream (L "a") 80 3000 http] (L "/a") false (Some 0%nat) (Some default_ApiKeyAuthConfig) false))
    by reflexivity.
  assert (E3 : authenticate_api_key (fun _ => None) default_ApiKeyAuthConfig (in_request sample_incoming) = Ok false)
    by reflexivity.
  destruct (session_authenticates sample_dump (fun _ => None) (fun _ => None) sample_guarded sample_se_world
           sample_received sample_incoming _ default_ApiKeyAuthConfig E1 E2 eq_refl) as [_ H]; [by rewrite E3|by split|].
  rewrite H; [reflexivity|by split|done|by split|reflexivity].
Defined.

(** A server that has accepted one connection. *)
#[local] Instance sample_http : SessionInterface :=
  http_sessions sample_dump (fun _ => None) (fun _ => None) HealthCheck.sample_config.

Definition sample_accepted : Session := make_session HealthCheck.sample_config sample_shared.
Definition sample_http_server : @Server sample_http :=
  make_Server HealthCheck.sample_config (sample_shared : @Shared sample_http) HealthCheck.sample_initial.
Definition sample_http_listening : @Server sample_http :=
  default sample_http_server (server_step sample_http_server (sv_start_call Server.sample_world listening (Ok tt))).
Definition sample_accept_event : @ServerEvent sample_http :=
  sv_accepted Server.sample_world no_error (Ok (sample_accepted : @Server.Session sample_http))
    (sample_se_world : @SessionWorld sample_http).
Definition sample_http_serving : @Server sample_http :=
  default sample_http_server (server_step sample_http_listening sample_accept_event).

Lemma sample_http_reachable : server_reachable HealthCheck.sample_config sample_http_serving.
Proof.
  assert (H0 : server_reachable HealthCheck.sample_config sample_http_server) by (apply (server_make _ 0); by vm_compute).
  assert (H1 : server_reachable HealthCheck.sample_config sample_http_listening).
  { apply (server_next _ _ (sv_start_call Server.sample_world listening (Ok tt)) _ H0); [by split|reflexivity]. }
  refine (server_next HealthCheck.sample_config sample_http_listening sample_accept_event sample_http_serving H1 _ _).
  - split; [by vm_compute|]. intros session E. assert (session = sample_accepted) as -> by (by injection E).
    by exists sample_shared.
  - assert (H : match server_step sample_http_listening sample_accept_event with Some _ => true | None => false end = true)
      by (by vm_compute).
    unfold sample_http_serving. by destruct (server_step sample_http_listening sample_accept_event).
Qed.

Lemma server_sessions_sound_witness :
  base.size (sv_sessions sample_http_serving) = 1%nat /\
  exists session : Session, sv_sessions sample_http_serving !! 0%nat = Some session /\
    fl_finished (se_flags session) = false /\ reads_of (se_log session) = 1.
Proof.
  split; [by vm_compute|].
  assert (R : (fun s : Session => reads_of (se_log s)) <$> (sv_sessions sample_http_serving !! 0%nat) = Some 1) by (by vm_compute).
  destruct (sv_sessions sample_http_serving !! 0%nat) as [session|] eqn:E; [|discriminate R].
  exists session. split; [done|].
  assert (Hmax : 0 < max_connections HealthCheck.sample_config < 2 ^ 64) by (by vm_compute).
  pose proof (server_sessions_sound (BL := list_beast_laws) sample_dump (fun _ => None) (fun _ => None)
    HealthCheck.sample_config Hmax sample_http_serving 0%nat session sample_http_reachable E) as (_ & Hf & _).
  split; [exact Hf|]. by injection R.
Defined.

(** ** Two divergences *)

(** A write that cannot be started. *)
Definition sample_failing : SeWorld :=
  mkSeWorld (fun op => match op with so_write _ => Throw (other_exception "bad_alloc") | _ => Ok tt end)
    (Ok tt) (Ok tt) (Ok tt) 5 7 Exchange.sample_world sample_view.

Definition sample_stalled : Session := sample_step sample_failing (se_header no_error sample_incoming) sample_fresh.

(** C38: when the write of the answer to a request that is refused cannot be started, the handler
    of the exception answers again; but the observation is complete, so nothing is written, and the
    session can be left alive with nothing pending: no handler of it can run. *)
Theorem refused_request_can_stall :
  sample_reaches (fun _ => True) sample_stalled /\ fl_finished (se_flags sample_stalled) = false /\
  se_log sample_stalled = [entry_read; entry_reply 503; entry_start_failed] /\
  forall event, ~ se_enabled sample_stalled event.
Proof.
  split; [|split; [by vm_compute|split; [by vm_compute|]]].
  - apply se_next; [done|by apply sample_fresh_reachable|]. split; [by left|]. split; [by intros n [= <-]|by right].
  - assert (Ep : se_pending sample_stalled = []) by reflexivity. assert (Es : px_slot (se_proxy sample_stalled) = None) by reflexivity.
    assert (Eo : px_orphans (se_proxy sample_stalled) = []) by reflexivity.
    intros event. destruct event; cbn [se_enabled]; rewrite ?Ep, ?Es, ?Eo.
    all: try (intros [H _]; by apply not_elem_of_nil in H).
    all: try (intros (op & _ & H); by apply not_elem_of_nil in H).
    + destruct event; by intros [].
    + cbn. lia.
Qed.

(** Starting the exchange throws each time. *)
Definition sample_free : GateShared :=
  mkGate (Some make_UpstreamPool) sample_budget 0 [mkProxies 1 0] (mkAdmission (mkRouteRateLimits []) (Some 0%nat) []) None.
Definition sample_throwing : SeWorld :=
  mkSeWorld (fun _ => Ok tt) (Ok tt) (Ok tt) (Ok tt) 5 7
    (mkExWorld (fun _ => Ok tt) (Ok tt) (Throw (other_exception "bad_alloc")) (Ok tt) true
       (fun _ => mkSocket true false no_error 0) false 5) sample_view.

Fixpoint sample_requests (n : nat) (s : Session) : Session :=
  match n with
  | O => s
  | S n =>
      sample_requests n
        (sample_step sample_throwing (se_written false no_error)
           (sample_step sample_throwing (se_header no_error sample_incoming) s))
  end.

(** Each request was read, and answered on a connection that is kept. *)
Fixpoint sample_goes_on (n : nat) (s : Session) : bool :=
  match n with
  | O => true
  | S n =>
      let s' := sample_step sample_throwing (se_header no_error sample_incoming) s in
      bool_decide (se_pending s = [so_read_header]) && bool_decide (se_pending s' = [so_write false]) &&
      sample_goes_on n (sample_step sample_throwing (se_written false no_error) s')
  end.

Lemma sample_requests_reachable n s :
  sample_reaches (fun _ => True) s -> sample_goes_on n s = true -> sample_reaches (fun _ => True) (sample_requests n s).
Proof.
  revert s. induction n as [|n IH]; intros s Hs; [done|]. cbn [sample_goes_on sample_requests].
  intros [[H1 H2]%andb_true_iff H3]%andb_true_iff. apply bool_decide_eq_true in H1, H2. apply IH; [|done].
  apply se_next; [done| |].
  - apply se_next; [done|done|]. split; [rewrite H1; by left|]. split; [by intros ? [= <-]|by right].
  - exists (so_write false). split; [done|]. rewrite H2. by left.
Qed.

Definition sample_many : Session := sample_requests 150 (run (se_start sample_throwing) (make_session sample_gateway sample_free)).

(** C39: a request whose exchange could not be started is counted like any other, but the limit of
    requests is not applied to its answer, which keeps the connection: one can go on after its
    100th request, here to the 151st. *)
Theorem failed_starts_exceed_limit :
  sample_reaches (fun _ => True) sample_many /\ reads_of (se_log sample_many) = 151.
Proof.
  split; [|by vm_compute]. apply sample_requests_reachable; [by apply se_made|by vm_compute].
Qed.
