(* ===== verification/SessionTransport.v ===== *)
(** * A session and its transport (src/http_server.cpp, src/downstream_transport.cpp)

    The transport goes through a pointer it only has over TLS to shake hands and to shut
    down, and through the session's writer to stream a response.  Here every operation a
    session starts is shown to have what it goes through. *)

From Stdlib Require Import Floats.SpecFloat.
From S2P Require Import Prelude Text ConfigTypes Errors Http RateLimit Permits BufferBudget HealthState.
From S2P Require Import UpstreamPool ApiKeyAuth HttpHandler Admission ProxyMessage HealthCheck.
From S2P Require Import ServerState Server Metrics Handlers Exchange ExchangeKeeps ExchangeTells Transport Session SessionWalk SessionKeeps.
From S2P Require Import SessionInvariant SessionTheorems.

Local Open Scope Z_scope.

Section SessionTransport.
Context {B : BeastHttp} {BL : BeastLaws B}.
Variable dump : Json -> text.
Variable evp_digest : text -> option ApiKeyDigest.
Variable double_chars : spec_float -> option text.
Variable config : AppConfig.

(** The session's transport. *)
Definition stream_ : DownstreamTransport := make_DownstreamTransport (downstream_tls_context config).

(** The stream an operation of the session runs on. *)
Definition transport_op (s : Session) (op : SeOp) : option Stream :=
  let writer := ms_stream_writer (se_messages s) in
  match op with
  | so_handshake => async_handshake stream_
  | so_read_header => async_read_header stream_
  | so_read_body => async_read stream_
  | so_write _ => async_write stream_
  | so_stream false _ => async_stream_header stream_ writer
  | so_stream true final => snd <$> async_stream_body stream_ writer (ms_stream_bytes (se_messages s)) final
  | so_shutdown => async_shutdown stream_
  end.

(** ** Operations of TLS are started over TLS *)

Definition secured (s : Session) : Prop :=
  fl_tls (se_flags s) = is_tls stream_ /\ forall op, op ∈ se_pending s -> op_allowed s op.

Lemma secured_same s s' :
  fl_tls (se_flags s') = fl_tls (se_flags s) -> fl_established (se_flags s') = fl_established (se_flags s) ->
  se_pending s' = se_pending s -> secured s -> secured s'.
Proof.
  intros E1 E2 E3 [H1 H2]. split; [congruence|]. intros op. rewrite E3. intros Hin. specialize (H2 op Hin).
  unfold op_allowed in *. by rewrite E1, E2.
Qed.

Lemma secured_plain s s' : plain s s' -> secured s -> secured s'.
Proof.
  intros Hp [H1 H2]. pose proof (plain_tls _ _ Hp) as E. split; [congruence|]. intros op Hin.
  destruct (plain_pending _ _ Hp op Hin) as [Hold|]; [|done]. specialize (H2 op Hold).
  destruct op; cbn in *; rewrite ?E; try done. destruct H2 as [Ht He]. split; [done|]. by apply (plain_established _ _ Hp).
Qed.

Lemma secured_drop id s : secured s -> secured (run (drop_object id) s).
Proof.
  apply secured_same; unfold run, drop_object; cbn; destruct id as [i|]; try done; by destruct (_ !! i) as [[p [|[|n]]]|].
Qed.

Lemma secured_slot s : secured s -> secured (run reset_exchange s).
Proof. apply secured_same; unfold run, reset_exchange; cbn; by destruct (px_slot _). Qed.

Lemma secured_create w selected request : keeps secured (create_exchange config w selected request).
Proof.
  intros s H. unfold wp, create_exchange. destruct (make_exchange _ _ _ _ _ _ _ _ _ _ _) as [pool [x|e]].
  - assert (H1 : secured (set_gate_pool pool s)) by (by revert H; apply secured_same).
    set (s1 := set_gate_pool pool s) in *. clearbody s1.
    assert (H2 : secured (run (share_object (ms_request_permit (se_messages s1))) s1)).
    { revert H1. apply secured_same; unfold run, share_object; cbn; destruct (ms_request_permit _) as [i|]; try done;
        by destruct (_ !! i) as [[p n]|]. }
    set (s2 := run (share_object _) s1) in *. clearbody s2. apply secured_slot in H2.
    by revert H2; apply secured_same.
  - by revert H; apply secured_same.
Qed.

#[local] Instance secured_walk : SessionWalk dump config False (fun _ => secured) (fun _ _ => secured).
Proof.
  split; try done.
  - intros _. apply secured_plain.
  - intros _ s H. by apply (secured_drop (ms_request_permit (se_messages s)) (set_request_permit None s)).
  - intros _. apply secured_slot.
  - intros _ s. apply secured_same; unfold run, cancel_exchange; eval_handler; destruct (px_slot (se_proxy s)) eqn:E; try done;
      unfold reset_exchange; cbn; by rewrite ?E.
  - intros _ s. apply secured_same; unfold run, reset_proxy_permit; cbn; by destruct (px_permit _).
  - intros bytes _ s _ H. unfold wp, acquire_body. destruct (budget_try_acquire _ _ _) as [heap permit]. by revert H; apply secured_same.
  - intros p _ s H. apply (secured_drop (ms_request_permit (se_messages s)) (set_request_permit None s)) in H.
    by revert H; apply secured_same.
  - intros bytes _ _ s H. unfold wp, shrink_request_permit. destruct (ms_request_permit _) as [i|]; [|done].
    destruct (_ !! i) as [[p n]|]; [|done]. destruct (shrink_to _ _ _) as [[heap p'] done]. by revert H; apply secured_same.
  - intros w route _ s H. unfold wp, acquire_admission. destruct (admission_try_acquire _ _ _ _ _) as [[proxies adm] [r|e]];
      by revert H; apply secured_same.
  - intros r _ s. apply secured_same; unfold run, reset_proxy_permit; cbn; by destruct (px_permit _).
  - intros w selected request _. apply secured_create.
  - intros w _ s H. unfold wp, start_exchange. destruct (px_slot _) as [slot|]; [|done].
    destruct (ex_start _ _) as [x [u|e]]; by revert H; apply secured_same.
  - intros i _ s H. unfold destroy_orphan. do 2 wp_step. destruct (_ !! i) as [slot|]; [|done].
    apply wp_keeps; [done|]. unfold release_permit. repeat keep_step; try (intros s1; apply secured_drop).
    all: apply keeps_modify; intros s1; by apply (secured_same s1).
Qed.

Lemma reachable_secured P s : se_reachable dump evp_digest double_chars config P s -> secured s.
Proof.
  induction 1 as [w shared _ _|w event s _ _ IH _|s _ IH|s _ IH|shared s _ IH].
  - apply run_keeps; [apply (keep_start dump config (P := fun _ => secured) [])|]. split; [done|]. intros op Hin. by apply elem_of_nil in Hin.
  - by apply (keep_step_event dump evp_digest double_chars config (P := fun _ => secured) []).
  - apply run_keeps; [apply (keep_begin_drain dump config (P := fun _ => secured) [])|done].
  - apply run_keeps; [apply (keep_stop dump config (P := fun _ => secured) [])|done].
  - by revert IH; apply secured_same.
Qed.

(** C13: a session uses the transport it has.  Whatever the client, the upstream and the server
    do, every operation a live session has pending runs on a stream that exists, the TLS
    stream exactly when there is a context: a handshake or a shutdown is only started over
    TLS, a shutdown only after the handshake, and a piece of a streamed response only
    with the writer that its header made. *)
Theorem transport_never_null P s op :
  se_reachable dump evp_digest double_chars config P s -> fl_finished (se_flags s) = false -> op ∈ se_pending s ->
  transport_op s op = Some (if is_tls stream_ then ssl_stream else tcp_stream) /\
  (op = so_handshake \/ op = so_shutdown -> is_Some (downstream_tls_context config)) /\
  (op = so_shutdown -> fl_established (se_flags s) = true) /\
  (forall body final, op = so_stream body final -> is_Some (ms_stream_writer (se_messages s))).
Proof.
  intros H Hf Hin. destruct (reachable_secured P s H) as [Et Ha]. specialize (Ha op Hin).
  assert (Hset : settled dump True s) by (by eapply reachable_settled; [|exact H]).
  destruct Hset as [Hl|[? _]]; [|congruence]. destruct (live_pending _ _ _ _ Hl Hin) as [_ Hop].
  destruct (transport_stream (downstream_tls_context config)) as [Es Ec]. fold stream_ in Es, Ec.
  assert (Htls : is_tls stream_ = true -> tls_ stream_ = Some ssl_stream /\ is_Some (downstream_tls_context config)).
  { intros E. split; [by apply transport_tls|]. rewrite E in Ec. by apply (bool_decide_eq_true_1 _ (eq_sym Ec)). }
  destruct op as [| | |close|body final|]; cbn [transport_op op_allowed op_state] in *.
  - rewrite Et in Ha. destruct (Htls Ha) as [E Hctx]. rewrite Ha. split_and!; done.
  - unfold async_read_header. rewrite Es. by split_and!; try intros [|].
  - unfold async_read. rewrite Es. by split_and!; try intros [|].
  - unfold async_write. rewrite Es. by split_and!; try intros [|].
  - destruct Hop as (_ & _ & _ & _ & _ & [writer Hw]). rewrite Hw.
    split_and!; [|by intros [|]|done|by eexists]. destruct body; cbn; by rewrite Es.
  - rewrite Et in Ha. destruct Ha as [Ha He]. destruct (Htls Ha) as [E Hctx]. rewrite Ha. split_and!; done.
Qed.

End SessionTransport.

(** A connection over TLS: its handshake. *)
Definition sample_tls : AppConfig :=
  mkAppConfig (L "gate") (L "test") info (L "127.0.0.1") 8080 256 32 67108864 5000 false false
    (Some (mkUpstream (L "a") 80 3000 http)) [] None (Some 0%nat).
Definition sample_secure : Session := run (se_start sample_se_world) (make_session sample_tls sample_shared).

Lemma transport_never_null_witness :
  se_pending sample_secure = [so_handshake] /\ transport_op sample_tls sample_secure so_handshake = Some ssl_stream.
Proof.
  assert (E : se_pending sample_secure = [so_handshake]) by reflexivity. split; [exact E|].
  assert (Hr : se_reachable sample_dump (fun _ => None) (fun _ => None) sample_tls (fun _ => True) sample_secure)
    by (by apply se_made).
  destruct (transport_never_null (BL := list_beast_laws) sample_dump (fun _ => None) (fun _ => None) sample_tls (fun _ => True)
              sample_secure so_handshake Hr) as [H _]; [reflexivity|rewrite E; by left|exact H].
Defined.
