(* ===== verification/ServerPhases.v ===== *)
(** * The phases of a server under its handlers

    No handler of the server begins a drain: the application does.  A handler leaves the
    phase as it is or closes everything; and unless the server has failed, a shutdown in
    progress will be reported to the application. *)

From S2P Require Import Prelude Text ConfigTypes Errors HealthState HealthCheck ServerState Server.

Local Open Scope Z_scope.

(** The world in which an event happens. *)
Definition event_world {I : SessionInterface} (event : ServerEvent) : ServerWorld :=
  match event with
  | sv_start_call w _ _ | sv_begin_drain w | sv_force_stop w | sv_stop w | sv_accepted w _ _ _
  | sv_retry_timer w _ | sv_drain_timer w _ | sv_session w _ _ | sv_ended w _ _ | sv_destroyed w _
  | sv_checks_event w _ => w
  end.

(** The events the executor runs, as opposed to the calls of the application. *)
Definition is_handler {I : SessionInterface} (event : ServerEvent) : bool :=
  match event with
  | sv_accepted _ _ _ _ | sv_retry_timer _ _ | sv_drain_timer _ _ | sv_session _ _ _ | sv_ended _ _ _
  | sv_destroyed _ _ | sv_checks_event _ _ => true
  | _ => false
  end.

Section Phases.
Context {I : SessionInterface}.
Implicit Types (s : Server) (w : ServerWorld).

(** A failure is reported by its own callback; any other shutdown by that of the drain. *)
Definition reports s : Prop :=
  claimed_ (sv_failure s) = true \/ (sv_phase s <> running -> cp_enabled (sv_completion s) = true).

Definition from (p : ServerDrainPhase) s : Prop :=
  sv_phase s = p \/ sv_phase s = force_stopping \/ sv_phase s = completed.

Section Kept.
Variable p : ServerDrainPhase.

Definition steered s : Prop := from p s /\ reports s.

Definition steers (f : Server -> Server) : Prop := forall s, steered s -> steered (f s).

(** What [steered] reads. *)
Lemma steered_ext s s' :
  sv_phase s' = sv_phase s -> sv_failure s' = sv_failure s ->
  cp_enabled (sv_completion s') = cp_enabled (sv_completion s) -> steered s -> steered s'.
Proof. unfold steered, from, reports. intros -> -> ->. done. Qed.

Lemma drive_accept_same w s :
  sv_drain (drive_accept w s).1 = sv_drain s /\ sv_failure (drive_accept w s).1 = sv_failure s /\
  sv_completion (drive_accept w s).1 = sv_completion s /\
  sv_sessions (drive_accept w s).1 = sv_sessions s /\ sv_departed (drive_accept w s).1 = sv_departed s.
Proof.
  unfold drive_accept. destruct (negb _); [done|]. destruct (next_action _) as [[] accept]; try done; cbn;
    by destruct (sw_accept w).
Qed.

Lemma server_start_same w listen posting s :
  let s' := (server_start w listen posting s).1 in
  sv_drain s' = sv_drain s /\ sv_failure s' = sv_failure s /\ sv_completion s' = sv_completion s /\
  sv_sessions s' = sv_sessions s /\ sv_departed s' = sv_departed s.
Proof.
  unfold server_start. destruct (ls_started _); [done|]. destruct listen; [|done..]. destruct (sw_log w); [|done].
  match goal with |- context [drive_accept w ?t] => destruct (drive_accept_same w t) as (E1 & E2 & E3 & E4 & E5) end.
  destruct (drive_accept w _) as [s2 [u|e]]; [|done]. by destruct (checks_start posting (sv_checks s2)).
Qed.

Lemma steered_drive w s : steered s -> steered (drive_accept w s).1.
Proof.
  destruct (drive_accept_same w s) as (E1 & E2 & E3 & _). apply steered_ext; [|done|by rewrite E3].
  unfold sv_phase. by rewrite E1.
Qed.

Lemma finish_drain_steers fail w : steers fail -> steers (finish_drain fail w).
Proof.
  intros Hf s H. unfold finish_drain. destruct (_ || _); [done|]. destruct (sw_callback w); [exact H|].
  by apply Hf.
Qed.

Lemma finished_phase d :
  phase_ (drain_session_finished d).2 = phase_ d \/
  (phase_ (drain_session_finished d).2 = completed /\ phase_ d <> running).
Proof.
  unfold drain_session_finished. destruct (_ =? 0); [by left|]. destruct ((_ =? 0) && _) eqn:E; [|by left].
  right. split; [done|]. apply andb_true_iff in E as [_ E]. unfold phase_is in E.
  apply orb_true_iff in E as [E|E]; apply bool_decide_eq_true in E; congruence.
Qed.

Lemma removed_steered id session s : steered s -> steered (removed id session s).
Proof.
  unfold steered, from, reports, sv_phase, removed. cbn.
  destruct (finished_phase (sv_drain s)) as [->|[-> Hr]]; [done|]. intuition.
Qed.

Lemma depart_steers fail w id session : steers fail -> steers (depart fail w id session).
Proof.
  intros Hf s H. rewrite depart_eq. apply (removed_steered id session) in H. destruct (drain_session_finished _).1.
  - destruct (cp_enabled _); [by apply finish_drain_steers|done].
  - apply (steered_drive w) in H. destruct (drive_accept w _).2; [done|by apply Hf].
Qed.

Lemma outcome_steers fail w id outcome : steers fail -> steers (session_outcome fail w id outcome).
Proof.
  intros Hf s H. destruct outcome as [[shared session] closed]. unfold session_outcome.
  destruct closed; [|exact H]. unfold remove_session. destruct (_ !! id); [|exact H]. by apply depart_steers.
Qed.

Lemma stop_all_steers fail w : steers fail -> steers (stop_all_sessions fail w).
Proof.
  intros Hf s H. unfold stop_all_sessions. generalize (base.size (sv_sessions s)) as fuel.
  intros fuel. enough (forall s', stop_sessions fuel fail w s = Some s' -> steered s').
  { destruct (stop_sessions _ _ _ _); eauto. }
  revert s H. induction fuel as [|fuel IH]; intros s H s'; cbn [stop_sessions];
    destruct (map_to_list _) as [|[id session] rest]; try by intros [= <-].
  apply IH. by apply outcome_steers.
Qed.

Lemma stop_accepting_steers : steers stop_accepting.
Proof. intros s H. exact H. Qed.

Lemma force_stop_phase d :
  phase_ (begin_force_stop d).2 = phase_ d \/ phase_ (begin_force_stop d).2 = force_stopping \/
  phase_ (begin_force_stop d).2 = completed.
Proof. unfold begin_force_stop, transition_to. destruct (_ || _); [by left|]. destruct (_ =? 0); auto. Qed.

(** Once claimed, the failure is reported whatever the phase. *)
Lemma server_stop_steers fail w s :
  steers fail -> claimed_ (sv_failure s) = true -> from p s -> steered (server_stop fail w s).
Proof.
  intros Hf Hc Hp. unfold server_stop. cbn [sv_drain set_completion].
  assert (H : steered (set_drain (begin_force_stop (sv_drain s)).2
                         (set_completion (set_enabled false (sv_completion s)) s))).
  { split; [|by left]. unfold from, sv_phase in *. cbn. destruct (force_stop_phase (sv_drain s)) as [->|]; tauto. }
  destruct (begin_force_stop (sv_drain s)) as [[] d]; [split; [done|by left]|..];
    by apply stop_all_steers, stop_accepting_steers.
Qed.

Lemma fail_runtime_steers w : steers (fail_runtime w).
Proof.
  intros s H. unfold fail_runtime, claim. destruct (claimed_ (sv_failure s)) eqn:E; cbn [negb]; [exact H|].
  assert (Hs : steered (server_stop (fun s => s) w (set_failure (mkFailure true) s))).
  { apply server_stop_steers; [by intros ?|done|apply H]. }
  exact Hs.
Qed.

Lemma force_stop_steers w s : steered s -> sv_phase s <> running -> steered (force_stop w s).
Proof.
  intros [Hp Hr] Hn. unfold force_stop.
  assert (H : steered (set_completion (set_forced (sv_completion s)) (set_drain (begin_force_stop (sv_drain s)).2 s))).
  { unfold steered, from, reports, sv_phase in *. cbn.
    split; [destruct (force_stop_phase (sv_drain s)) as [->|]; tauto|].
    destruct Hr as [|Hr]; [by left|right; intros _; by apply Hr]. }
  destruct (begin_force_stop (sv_drain s)) as [[] d]; [done|..]; cbn [snd] in H.
  - by apply stop_all_steers; [apply fail_runtime_steers|].
  - apply finish_drain_steers; [apply fail_runtime_steers|].
    by apply stop_all_steers; [apply fail_runtime_steers|].
Qed.

Lemma drain_sessions_steers w snapshot : steers (drain_sessions w snapshot).
Proof.
  induction snapshot as [|id rest IH]; intros s H; [done|]. cbn. apply IH.
  destruct (sv_sessions s !! id); [|done]. by apply outcome_steers; [apply fail_runtime_steers|].
Qed.

Lemma handled_steers w outcome : steered outcome.1 -> steered (handled w outcome).
Proof. intros H. unfold handled. destruct outcome.2; [done|by apply fail_runtime_steers]. Qed.

Lemma on_accept_steers w e made answers s : steered s -> steered (on_accept w e made answers s).1.
Proof.
  intros H. unfold on_accept. destruct (phase_is _ running) eqn:Ep; cbn [negb]; [|exact H].
  destruct (failed e); [destruct (sw_log w), (sw_timer w); exact H|].
  destruct made as [session|]; [|exact H]. set (s1 := opened _ _).
  assert (H1 : steered s1).
  { revert H. apply steered_ext; try done. unfold s1, opened, sv_phase, drain_session_started. cbn.
    by destruct (phase_is _ running). }
  destruct (session_start answers (view_of s1) (sv_shared s1) session) as [outcome r].
  set (s2 := session_outcome _ _ _ _ _).
  assert (H2 : steered s2) by (by apply outcome_steers; [apply fail_runtime_steers|]).
  destruct r; [by apply steered_drive|done].
Qed.

(** No handler leaves the phase but to close everything. *)
Lemma handler_steers event s s' :
  is_handler event = true -> server_step s event = Some s' -> steered s -> steered s'.
Proof.
  intros Hh Hs H. destruct event as [| | | |w e made answers|w e|w e|w id outcome|w id outcome|w id|w event]; try done; cbn in Hs.
  - injection Hs as <-. by apply handled_steers, on_accept_steers.
  - injection Hs as <-. unfold on_accept_retry_timer. destruct (classify_accept_retry_completion _ _); [|done|].
    + by apply handled_steers, steered_drive.
    + by apply fail_runtime_steers.
  - injection Hs as <-. unfold on_drain_timer, classify_drain_timer_completion.
    cbn [sv_drain set_completion]. destruct (phase_is _ draining) eqn:Ep; cbn [negb]; [|done].
    apply bool_decide_eq_true in Ep. destruct (negb (failed e)); [|by apply fail_runtime_steers].
    apply force_stop_steers; [done|]. unfold sv_phase. cbn. congruence.
  - injection Hs as <-. by apply outcome_steers; [apply fail_runtime_steers|].
  - destruct outcome as [[shared session] closed]. injection Hs as <-. exact H.
  - destruct (_ !! id); injection Hs as <-; exact H.
  - unfold on_checks in Hs. destruct (checks_step (sv_checks s) event) as [c|]; [|done]. cbn in Hs. injection Hs as <-.
    destruct (negb _); [by apply fail_runtime_steers|done].
Qed.

Lemma force_stop_drain_steers w : steers (force_stop_drain w).
Proof.
  intros s H. unfold force_stop_drain. destruct (phase_is _ draining) eqn:E; cbn [negb]; [|done].
  apply bool_decide_eq_true in E. apply force_stop_steers; [done|unfold sv_phase; congruence].
Qed.

End Kept.

(** Beginning a drain reports: the drain is in progress, or over. *)
Lemma begin_drain_steers w s :
  sv_phase s = running -> reports s -> steered draining (begin_drain w s).
Proof.
  intros Hp Hr. unfold begin_drain, begin_drain_impl, drain_begin_drain.
  unfold sv_phase in Hp. unfold phase_is at 1. rewrite bool_decide_eq_true_2 by done. cbn [negb].
  assert (Ht : (transition_to (sv_drain s) draining = (drain_completed, (mkDrain completed (active_sessions_ (sv_drain s))))) \/
               (transition_to (sv_drain s) draining = (started, (mkDrain draining (active_sessions_ (sv_drain s)))))).
  { unfold transition_to. destruct (_ =? 0); auto. }
  assert (H0 : forall q, q = draining \/ q = completed ->
            steered draining (stop_accepting (set_completion (set_enabled true (sv_completion s))
                                (set_drain (mkDrain q (active_sessions_ (sv_drain s))) s)))).
  { intros q Hq. split; [unfold from, sv_phase; cbn; tauto|by right]. }
  destruct Ht as [-> | ->]; cbn iota beta.
  - by apply finish_drain_steers; [apply fail_runtime_steers|]; apply H0; right.
  - match goal with |- context [drain_sessions w ?l ?s0] =>
      assert (H1 : steered draining (drain_sessions w l s0)) by (apply drain_sessions_steers, H0; by left);
      set (s1 := drain_sessions w l s0) in * end.
    destruct (negb _); [done|]. destruct (sw_timer w); [exact H1|by apply fail_runtime_steers].
Qed.

(** ** Stopping is silent *)

(** No callback of the drain will be called, and no accept started. *)
Definition mute s : Prop := sv_phase s <> running /\ cp_enabled (sv_completion s) = false.

Lemma mute_outcome fail w id outcome s :
  mute s -> mute (session_outcome fail w id outcome s) /\
  sv_completion (session_outcome fail w id outcome s) = sv_completion s.
Proof.
  destruct outcome as [[shared session] closed]. intros [Hp He]. unfold session_outcome.
  set (s1 := set_sessions _ _). assert (H1 : mute s1) by (by split).
  change (sv_completion s) with (sv_completion s1). clearbody s1. clear Hp He s. destruct closed; [|done].
  unfold remove_session. destruct (sv_sessions s1 !! id) as [was|]; [|done].
  destruct H1 as [Hp He]. rewrite depart_eq, He.
  assert (Hq : sv_phase (removed id was s1) <> running).
  { unfold sv_phase, removed in *. cbn. destruct (finished_phase (sv_drain s1)) as [->|[-> _]]; done. }
  destruct (drain_session_finished _).1; [done|]. unfold drive_accept, phase_is.
  by rewrite bool_decide_eq_false_2.
Qed.

Lemma mute_stop_all fail w s : mute s -> sv_completion (stop_all_sessions fail w s) = sv_completion s.
Proof.
  unfold stop_all_sessions. generalize (base.size (sv_sessions s)) as fuel. intros fuel H.
  enough (forall s', stop_sessions fuel fail w s = Some s' -> sv_completion s' = sv_completion s).
  { destruct (stop_sessions _ _ _ _); eauto. }
  revert s H. induction fuel as [|fuel IH]; intros s H s'; cbn [stop_sessions];
    destruct (map_to_list _) as [|[id session] rest]; try by intros [= <-].
  intros Hs. set (outcome := session_stop _ _ _) in *. destruct (mute_outcome fail w id outcome s H) as [Hm Hc].
  rewrite <- Hc. by apply IH.
Qed.

(** [stop] calls neither callback. *)
Lemma stop_silent fail w s :
  sv_completion (server_stop fail w s) = set_enabled false (sv_completion s).
Proof.
  unfold server_stop. cbn [sv_drain set_completion]. unfold begin_force_stop, transition_to.
  destruct (_ || _); [done|]. by destruct (_ =? 0); rewrite mute_stop_all.
Qed.

(** Without a session the destructor meets nothing that can throw. *)
Lemma destroy_unserved w w' s : sv_sessions s = ∅ -> destroy_server w s = destroy_server w' s.
Proof.
  intros E. unfold destroy_server, server_stop. cbn [sv_drain set_completion].
  assert (Hstop : forall fail w0 t, sv_sessions t = ∅ -> stop_all_sessions fail w0 t = t).
  { intros fail w0 t Et. unfold stop_all_sessions. by rewrite Et, map_size_empty; cbn; rewrite Et, map_to_list_empty. }
  destruct (begin_force_stop (sv_drain s)) as [[] d]; by rewrite ?Hstop.
Qed.

End Phases.
