(* ===== verification/ServerLedger.v ===== *)
(** * The shared capacities of a server (src/http_server.cpp, [HttpServer::Impl])

    The sessions of a server borrow capacities they share, proxy slots and bytes of
    buffers.  What a session promises about them is the interface [SessionHoldings] with
    its laws; from it, whatever the order of accepts, handlers, failures and shutdowns, the level
    of each capacity is the sum of what the live sessions and the ones kept by their last
    handlers hold, and is back where it began when they are gone. *)

From S2P Require Import Prelude Text ConfigTypes Errors HealthState HealthCheck ServerState Server ServerPhases.

Local Open Scope Z_scope.

(** ** The interface *)

Class SessionHoldings (I : SessionInterface) := {
  Resource : Type;
  holds : Resource -> Session -> Z;
  (* The level of a capacity, within its limit. *)
  level_at : Resource -> Shared -> Z -> Prop;
  (* What a session keeps of itself, and of what is shared. *)
  holdings_ok : Session -> Prop;
  shared_sound : Shared -> Prop }.

(** The levels are what the session holds with what the others do. *)
Definition balance `{SessionHoldings} (rest : Resource -> Z) (w : Shared) (s : Session) : Prop :=
  shared_sound w /\ holdings_ok s /\ forall r, level_at r w (rest r + holds r s).

(** An operation that keeps the balance, whatever the others hold. *)
Definition balances `{SessionHoldings} (w : Shared) (s : Session) (w' : Shared) (s' : Session) : Prop :=
  forall rest : Resource -> Z, (forall r, 0 <= rest r) -> balance rest w s -> balance rest w' s'.

Class HoldingLaws (I : SessionInterface) (H : SessionHoldings I) := {
  holds_nonneg r s : holdings_ok s -> 0 <= holds r s;
  made_holds s : session_made s -> holdings_ok s /\ forall r, holds r s = 0;
  start_balances answers v w s :
    let '(w', s', _) := (session_start answers v w s).1 in balances w s w' s';
  drain_balances v w s : let '(w', s', _) := session_begin_drain v w s in balances w s w' s';
  stop_balances v w s : let '(w', s', _) := session_stop v w s in balances w s w' s';
  handler_balances v w s outcome : session_handler v w s outcome -> balances w s outcome.1.1 outcome.1.2;
  destroy_balances w s (rest : Resource -> Z) :
    session_ok false s -> session_left s = 0%nat -> (forall r, 0 <= rest r) -> balance rest w s ->
    shared_sound (session_destroy w s) /\ forall r, level_at r (session_destroy w s) (rest r);
  stop_pool_balances w :
    shared_sound w ->
    shared_sound (stop_upstream_pool w) /\ forall r n, level_at r w n -> level_at r (stop_upstream_pool w) n }.

(** The servers that follow one. *)
Inductive server_runs {I : SessionInterface} (s0 : Server) : Server -> Prop :=
  | runs_here : server_runs s0 s0
  | runs_next s event s' :
      server_runs s0 s -> server_enabled s event -> server_step s event = Some s' -> server_runs s0 s'.

Lemma server_runs_reachable {I : SessionInterface} config s0 s :
  server_reachable config s0 -> server_runs s0 s -> server_reachable config s.
Proof. intros H. induction 1; [done|by econstructor]. Qed.

(** ** Conservation *)

Section Conservation.
Context {I : SessionInterface} {laws : SessionLaws I} {H : SessionHoldings I} {hlaws : HoldingLaws I H}.
Context (config : AppConfig) (limited : 0 < max_connections config < 2 ^ 64).

Implicit Types (s : Server) (w : ServerWorld).

(** What the live sessions hold, and the ones that ended. *)
Definition live_holds (r : Resource) s : Z := map_sum (holds r) (sv_sessions s).
Definition departed_holds (r : Resource) s : Z := map_sum (holds r) (sv_departed s).

Record conserved s : Prop := {
  cv_shared : shared_sound (sv_shared s);
  cv_live : map_Forall (fun id session => (id < sv_next s)%nat /\ holdings_ok session) (sv_sessions s);
  cv_departed : map_Forall (fun id session => (id < sv_next s)%nat /\ holdings_ok session /\ sv_sessions s !! id = None)
                  (sv_departed s);
  cv_levels r : level_at r (sv_shared s) (live_holds r s + departed_holds r s) }.

Definition conserves (f : Server -> Server) : Prop := forall s, conserved s -> conserved (f s).

Lemma conserved_ext s s' :
  sv_sessions s' = sv_sessions s -> sv_departed s' = sv_departed s -> sv_shared s' = sv_shared s ->
  sv_next s' = sv_next s -> conserved s -> conserved s'.
Proof.
  intros E1 E2 E3 E4 [C1 C2 C3 C4]. constructor; unfold live_holds, departed_holds in *; by rewrite ?E1, ?E2, ?E3, ?E4.
Qed.

Lemma level_eq r shared n n' : level_at r shared n -> n = n' -> level_at r shared n'.
Proof. by intros Hl <-. Qed.

Lemma live_nonneg r s : conserved s -> 0 <= live_holds r s.
Proof. intros C. apply map_sum_nonneg. intros i x Hi. apply holds_nonneg. by apply (cv_live s C i x). Qed.
Lemma departed_nonneg r s : conserved s -> 0 <= departed_holds r s.
Proof. intros C. apply map_sum_nonneg. intros i x Hi. apply holds_nonneg. by apply (cv_departed s C i x). Qed.

(** ** A session's operation *)

(** What the others hold. *)
Definition others_of (id : nat) s (r : Resource) : Z :=
  map_sum (holds r) (delete id (sv_sessions s)) + departed_holds r s.

Lemma others_nonneg id s r : conserved s -> 0 <= others_of id s r.
Proof.
  intros C. pose proof (departed_nonneg r s C) as Hd. unfold others_of. enough (0 <= map_sum (holds r) (delete id (sv_sessions s))) by lia.
  apply map_sum_nonneg. intros i x Hi. apply lookup_delete_Some in Hi as [_ Hi]. apply holds_nonneg. by apply (cv_live s C i x).
Qed.

Lemma updated id session s shared session' :
  sv_sessions s !! id = Some session -> balances (sv_shared s) session shared session' -> conserved s ->
  conserved (set_sessions (<[id := session']> (sv_sessions s)) (set_shared shared s)).
Proof.
  intros E Hb C. pose proof C as [C1 C2 C3 C4]. destruct (C2 id session E) as [Hlt Hok].
  destruct (Hb (others_of id s)) as (B1 & B2 & B3).
  - intros r. by apply others_nonneg.
  - split; [done|]. split; [done|]. intros r. specialize (C4 r). unfold others_of, live_holds in *.
    rewrite (map_sum_delete (holds r) (sv_sessions s) id session E) in C4.
    eapply level_eq; [exact C4|lia].
  - constructor; cbn; [done|by apply map_Forall_insert_2| |].
    + intros i x Hi. destruct (C3 i x Hi) as (? & ? & Hnone). split_and!; try done.
      destruct (decide (i = id)) as [->|]; [congruence|by rewrite lookup_insert_ne].
    + intros r. specialize (B3 r). unfold others_of, live_holds, departed_holds in *. cbn.
      rewrite (map_sum_update (holds r) _ id session) by done.
      rewrite (map_sum_delete (holds r) (sv_sessions s) id session E).
      eapply level_eq; [exact B3|lia].
Qed.

Lemma departs id session s :
  sv_sessions s !! id = Some session -> conserved s -> conserved (removed id session s).
Proof.
  intros E C. pose proof C as [C1 C2 C3 C4]. destruct (C2 id session E) as [Hlt Hok].
  assert (Hnone : sv_departed s !! id = None).
  { destruct (sv_departed s !! id) as [x|] eqn:Ed; [|done]. destruct (C3 id x Ed) as (_ & _ & ?). congruence. }
  constructor; cbn; [done|by apply map_Forall_delete| |].
  - apply map_Forall_insert_2; [split_and!; [done..|apply lookup_delete_eq]|].
    intros i x Hi. destruct (C3 i x Hi) as (? & ? & Hn). split_and!; try done.
    destruct (decide (i = id)) as [->|]; [apply lookup_delete_eq|by rewrite lookup_delete_ne].
  - intros r. specialize (C4 r). unfold live_holds, departed_holds in *. cbn. rewrite map_sum_insert by done.
    rewrite (map_sum_delete (holds r) (sv_sessions s) id session E) in C4.
    eapply level_eq; [exact C4|lia].
Qed.

(** A session that ended. *)
Definition others_left (id : nat) s (r : Resource) : Z :=
  live_holds r s + map_sum (holds r) (delete id (sv_departed s)).

Lemma left_balance id session s :
  sv_departed s !! id = Some session -> conserved s ->
  (forall r, 0 <= others_left id s r) /\ balance (others_left id s) (sv_shared s) session.
Proof.
  intros E C. pose proof C as [C1 C2 C3 C4]. destruct (C3 id session E) as (Hlt & Hok & Hn). split.
  - intros r. pose proof (live_nonneg r s C) as Hl. unfold others_left.
    enough (0 <= map_sum (holds r) (delete id (sv_departed s))) by lia.
    apply map_sum_nonneg. intros i x Hi. apply lookup_delete_Some in Hi as [_ Hi]. apply holds_nonneg. by apply (C3 i x).
  - split; [done|]. split; [done|]. intros r. specialize (C4 r). unfold others_left, departed_holds in *.
    rewrite (map_sum_delete (holds r) (sv_departed s) id session E) in C4.
    eapply level_eq; [exact C4|lia].
Qed.

Lemma left_conserves id session s shared session' :
  sv_departed s !! id = Some session -> balances (sv_shared s) session shared session' -> conserved s ->
  conserved (set_departed (<[id := session']> (sv_departed s)) (set_shared shared s)).
Proof.
  intros E Hb C. pose proof C as [C1 C2 C3 C4]. destruct (C3 id session E) as (Hlt & Hok & Hn).
  destruct (left_balance id session s E C) as [H0 H1]. destruct (Hb _ H0 H1) as (B1 & B2 & B3).
  constructor; cbn; [done|done|by apply map_Forall_insert_2|]. intros r. specialize (B3 r).
  unfold others_left, live_holds, departed_holds in *. cbn. rewrite (map_sum_update (holds r) _ id session) by done.
  rewrite (map_sum_delete (holds r) (sv_departed s) id session E).
  eapply level_eq; [exact B3|lia].
Qed.

Lemma destroyed_conserves id session s :
  sv_departed s !! id = Some session -> session_ok false session -> session_left session = 0%nat -> conserved s ->
  conserved (set_departed (delete id (sv_departed s)) (set_shared (session_destroy (sv_shared s) session) s)).
Proof.
  intros E Hend Hleft C. pose proof C as [C1 C2 C3 C4]. destruct (left_balance id session s E C) as [H0 H1].
  destruct (destroy_balances _ _ _ Hend Hleft H0 H1) as [B1 B2].
  constructor; cbn; [done|done|by apply map_Forall_delete|]. intros r. exact (B2 r).
Qed.

(** ** The operations of the server *)

Lemma drive_conserves w s : conserved s -> conserved (drive_accept w s).1.
Proof.
  apply conserved_ext; unfold drive_accept; destruct (negb _); try done; destruct (next_action _) as [[] accept]; try done;
    by destruct (sw_accept w).
Qed.

Lemma finish_drain_conserves fail w : conserves fail -> conserves (finish_drain fail w).
Proof. intros Hf s C. unfold finish_drain. destruct (_ || _); [done|]. destruct (sw_callback w); [|apply Hf]; by revert C; apply conserved_ext. Qed.

Lemma depart_conserves fail w id session s :
  conserves fail -> sv_sessions s !! id = Some session -> conserved s -> conserved (depart fail w id session s).
Proof.
  intros Hf E C. rewrite depart_eq. apply (departs id session s E) in C. destruct (drain_session_finished _).1.
  - destruct (cp_enabled _); [by apply finish_drain_conserves|done].
  - apply (drive_conserves w) in C. destruct (drive_accept w _).2; [done|by apply Hf].
Qed.

Lemma outcome_conserves fail w id session outcome s :
  conserves fail -> sv_sessions s !! id = Some session -> balances (sv_shared s) session outcome.1.1 outcome.1.2 ->
  conserved s -> conserved (session_outcome fail w id outcome s).
Proof.
  intros Hf E Hb C. destruct outcome as [[shared session'] closed]. unfold session_outcome.
  pose proof (updated id session s shared session' E Hb C) as C'. destruct closed; [|exact C'].
  unfold remove_session. cbn [sv_sessions set_sessions]. rewrite lookup_insert_eq.
  apply depart_conserves; [done|by cbn; rewrite lookup_insert_eq|exact C'].
Qed.

Lemma stop_all_conserves fail w : conserves fail -> conserves (stop_all_sessions fail w).
Proof.
  intros Hf s C. unfold stop_all_sessions. generalize (base.size (sv_sessions s)) as fuel. intros fuel.
  enough (forall s', stop_sessions fuel fail w s = Some s' -> conserved s') by (destruct (stop_sessions _ _ _ _); eauto).
  revert s C. induction fuel as [|fuel IH]; intros s C s'; cbn [stop_sessions];
    destruct (map_to_list (sv_sessions s)) as [|[id session] rest] eqn:El; try by intros [= <-].
  assert (E : sv_sessions s !! id = Some session) by (apply elem_of_map_to_list; rewrite El; by left).
  apply IH. apply (outcome_conserves _ _ _ session); try done.
  pose proof (stop_balances (view_of s) (sv_shared s) session) as Hb. by destruct (session_stop _ _ _) as [[w' s1] closed].
Qed.

Lemma stop_accepting_conserves : conserves stop_accepting.
Proof.
  intros s [C1 C2 C3 C4]. destruct (stop_pool_balances _ C1) as [Hs Hl].
  constructor; [exact Hs|exact C2|exact C3|]. intros r. apply Hl, C4.
Qed.

Lemma server_stop_conserves fail w : conserves fail -> conserves (server_stop fail w).
Proof.
  intros Hf s C. unfold server_stop. destruct (begin_force_stop _) as [[] d]; [by revert C; apply conserved_ext|..];
    apply stop_all_conserves, stop_accepting_conserves; try done; by revert C; apply conserved_ext.
Qed.

Lemma fail_conserves w : conserves (fail_runtime w).
Proof.
  intros s C. unfold fail_runtime. destruct (claim _) as [claimed failure]. destruct (negb claimed); [done|].
  assert (C' : conserved (server_stop (fun s => s) w (set_failure failure s)))
    by (apply server_stop_conserves; [by intros ?|by revert C; apply conserved_ext]).
  revert C'. by apply conserved_ext.
Qed.

Lemma force_stop_conserves w : conserves (force_stop w).
Proof.
  intros s C. unfold force_stop. destruct (begin_force_stop _) as [r d]. pose proof (fail_conserves w) as Hf.
  assert (Hs : conserved (stop_all_sessions (fail_runtime w) w (stop_accepting
                 (set_completion (set_forced (sv_completion s)) (set_drain d s)))))
    by (apply stop_all_conserves, stop_accepting_conserves; [done|by revert C; apply conserved_ext]).
  destruct r; [done|exact Hs|by apply finish_drain_conserves].
Qed.

Lemma drain_sessions_conserves w snapshot : conserves (drain_sessions w snapshot).
Proof.
  induction snapshot as [|id rest IH]; intros s C; [done|]. cbn [drain_sessions]. apply IH.
  destruct (sv_sessions s !! id) as [session|] eqn:E; [|done].
  apply (outcome_conserves _ _ _ session); [apply fail_conserves|done| |done].
  pose proof (drain_balances (view_of s) (sv_shared s) session) as Hb.
  by destruct (session_begin_drain _ _ _) as [[w' s1] closed].
Qed.

Lemma begin_drain_conserves w : conserves (begin_drain w).
Proof.
  intros s C. unfold begin_drain, begin_drain_impl. pose proof (fail_conserves w) as Hf.
  destruct (drain_begin_drain _) as [r d].
  assert (Hs : conserved (stop_accepting (set_completion (set_enabled true (sv_completion (set_drain d s))) (set_drain d s))))
    by (apply stop_accepting_conserves; by revert C; apply conserved_ext).
  destruct r; [done| |by apply finish_drain_conserves].
  match goal with |- context [drain_sessions w ?l ?s0] =>
    assert (Hd : conserved (drain_sessions w l s0)) by (by apply drain_sessions_conserves); set (s1 := drain_sessions w l s0) in * end.
  destruct (negb _); [done|]. destruct (sw_timer w); [|by apply Hf]. by revert Hd; apply conserved_ext.
Qed.

Lemma handled_conserves w outcome : conserved outcome.1 -> conserved (handled w outcome).
Proof. intros C. unfold handled. destruct outcome.2; [done|by apply fail_conserves]. Qed.

(** A new session holds nothing. *)
Lemma opened_conserves session s : session_made session -> conserved s -> conserved (opened session s).
Proof.
  intros Hm [C1 C2 C3 C4]. destruct (made_holds session Hm) as [Hok Hz].
  assert (Hnone : sv_sessions s !! sv_next s = None).
  { destruct (sv_sessions s !! sv_next s) as [x|] eqn:E; [|done]. destruct (C2 _ x E). lia. }
  constructor; cbn; [done| | |].
  - apply map_Forall_insert_2; [by split; [lia|]|]. eapply map_Forall_impl; [exact C2|]. intros i x [? ?]. split; [lia|done].
  - intros i x Hi. destruct (C3 i x Hi) as (Hlt & ? & ?). split_and!; [lia|done|]. rewrite lookup_insert_ne; [done|lia].
  - intros r. specialize (C4 r). unfold live_holds, departed_holds in *. cbn. by rewrite map_sum_insert, Hz.
Qed.

Lemma on_accept_conserves w e made answers s :
  (forall session, made = Ok session -> session_made session) -> conserved s -> conserved (on_accept w e made answers s).1.
Proof.
  intros Hm C. unfold on_accept. set (s0 := set_accept _ s). assert (C0 : conserved s0) by (by revert C; apply conserved_ext).
  destruct (negb _); [exact C0|]. destruct (failed e).
  { destruct (sw_log w); [|exact C0]. destruct (sw_timer w); by revert C; apply conserved_ext. }
  destruct made as [session|]; [|exact C0].
  pose proof (opened_conserves session s0 (Hm _ eq_refl) C0) as C1. set (s1 := opened session s0) in *.
  pose proof (start_balances answers (view_of s1) (sv_shared s1) session) as Hb.
  destruct (session_start _ _ _ _) as [outcome r].
  assert (C2 : conserved (session_outcome (fail_runtime w) w (sv_next s0) outcome s1)).
  { apply (outcome_conserves _ _ _ session); [apply fail_conserves|by cbn; rewrite lookup_insert_eq| |done].
    cbn [fst] in Hb. by destruct outcome as [[w' s2] closed]. }
  destruct r; [by apply drive_conserves|exact C2].
Qed.

Lemma server_start_conserves w listen posting s : conserved s -> conserved (server_start w listen posting s).1.
Proof.
  intros C. unfold server_start. destruct (ls_started _); [done|]. destruct listen; [|done|by revert C; apply conserved_ext]. destruct (sw_log w); [|by revert C; apply conserved_ext].
  match goal with |- context [drive_accept w ?s0] =>
    assert (C1 : conserved (drive_accept w s0).1) by (apply drive_conserves; by revert C; apply conserved_ext);
    destruct (drive_accept w s0) as [s1 [u|x]] end; [|exact C1].
  destruct (checks_start _ _) as [checks r]. by revert C1; apply conserved_ext.
Qed.

Lemma step_conserves s event s' :
  server_ok config s -> server_enabled s event -> server_step s event = Some s' -> conserved s -> conserved s'.
Proof.
  intros Hok Hen Hs C. pose proof (fun w => fail_conserves w) as Hf.
  destruct event as [w listen posting|w|w|w|w e made answers|w e|w e|w id outcome|w id outcome|w id|w event]; cbn in Hs, Hen.
  - pose proof (server_start_conserves w listen posting s C) as C1. destruct (server_start _ _ _ _) as [s1 r].
    injection Hs as <-. destruct r; [done|by apply server_stop_conserves].
  - injection Hs as <-. by apply begin_drain_conserves.
  - injection Hs as <-. unfold force_stop_drain. destruct (negb _); [done|by apply force_stop_conserves].
  - injection Hs as <-. by apply server_stop_conserves.
  - injection Hs as <-. apply handled_conserves, on_accept_conserves; [apply Hen|by revert C; apply conserved_ext].
  - injection Hs as <-. unfold on_accept_retry_timer. set (s1 := set_accept _ _).
    assert (C1 : conserved s1) by (by revert C; apply conserved_ext).
    destruct (classify_accept_retry_completion _ _); [by apply handled_conserves, drive_conserves|done|by apply Hf].
  - injection Hs as <-. unfold on_drain_timer. set (s1 := set_completion _ _).
    assert (C1 : conserved s1) by (by revert C; apply conserved_ext).
    destruct (classify_drain_timer_completion _ _); [done|by apply force_stop_conserves|by apply Hf].
  - injection Hs as <-. destruct Hen as (session & E & Hh). apply (outcome_conserves _ _ _ session); [apply Hf|done| |done].
    by eapply handler_balances.
  - destruct outcome as [[shared session'] closed]. injection Hs as <-. destruct Hen as (session & E & Hh).
    apply (left_conserves id session); [done| |done]. by apply (handler_balances _ _ _ _ Hh).
  - destruct Hen as (session & E & Hl). rewrite E in Hs. injection Hs as <-.
    destruct Hok as (((Hi & _) & _) & _). destruct (inv_all_sessions config s Hi) as [_ Hd].
    by apply (destroyed_conserves id session); [|apply (Hd id session)|..].
  - unfold on_checks in Hs. destruct (checks_step _ _) as [c|]; [|done]. cbn in Hs. injection Hs as <-.
    destruct (negb _); [apply Hf|]; by revert C; apply conserved_ext.
Qed.

(** Conservation over every run. *)
Lemma runs_conserved s0 s : server_reachable config s0 -> conserved s0 -> server_runs s0 s -> conserved s.
Proof.
  intros H0 C0 Hr. induction Hr as [|s event s' Hr IH Hen Hs]; [done|].
  eapply step_conserves; [|done|done|done]. by apply (server_reachable_ok config limited), (server_runs_reachable config s0).
Qed.

Lemma made_conserved shared checks :
  shared_sound shared -> (forall r, level_at r shared 0) -> conserved (make_Server config shared checks).
Proof.
  intros H0 H1. constructor; cbn; [done|apply map_Forall_empty|apply map_Forall_empty|]. intros r.
  unfold live_holds, departed_holds. cbn. rewrite !map_sum_empty. apply H1.
Qed.

End Conservation.
