(* ===== verification/Application.v ===== *)
(** * The application (src/application.cpp, [Application::Impl])

    The application owns the executor, the server and the wait for a signal.  [run] starts
    the server, arms the wait and runs the executor until it is stopped or has nothing
    left to run.  The first signal begins a drain, the second forces its end; the server
    calls back when the drain is complete and when it has failed.  A start that throws ends
    [run] at once, with the server as the start left it; the destructor stops it.

    The server reports through its two callback counters: a callback runs when the
    operation that called it returns.  Both are [noexcept], both only change the
    application's own members and set flags of the executor, and the operation of the
    server reads none of them, so that nothing can tell the difference. *)

From S2P Require Import Prelude Text ConfigTypes Errors HealthState HealthCheck ServerState Server.
From S2P Require Import ServerPhases ServerLedger.

Local Open Scope Z_scope.

Definition EXIT_SUCCESS : Z := 0.
Definition EXIT_FAILURE : Z := 1.

(** What the operating system and the logger answer; the callbacks do not throw. *)
Record AppWorld := mkAppWorld {
  aw_accept : result unit;
  aw_timer : result unit;
  aw_log : result unit;
  aw_wait : result unit;          (* [signals_.async_wait] *)
  aw_cancel : result unit }.      (* [signals_.cancel] *)

Definition server_world (w : AppWorld) : ServerWorld := mkServerWorld (aw_accept w) (aw_timer w) (aw_log w) (Ok tt).

(** Where [run] is, and the application after it. *)
Inductive RunState :=
  | run_idle
  | run_serving                   (* in [io_context_.run()] *)
  | run_returned (r : result Z)
  | run_destroyed (r : result Z). (* [~Impl] has destroyed the server *)

Section Application.
Context {I : SessionInterface}.
(** Whether an exception is a [boost::system::system_error]. *)
Variable system_error : exn -> bool.

Record Application := mkApplication {
  ap_server : Server;
  ap_signals : ShutdownSignalState;
  ap_wait : bool;                 (* the handler of a wait for a signal has not run *)
  ap_exit_code : Z;
  ap_io_stopped : bool;           (* [io_context_.stop()] was called *)
  ap_run : RunState }.

Definition set_server (server : Server) (s : Application) : Application :=
  mkApplication server (ap_signals s) (ap_wait s) (ap_exit_code s) (ap_io_stopped s) (ap_run s).
Definition set_signals (signals : ShutdownSignalState) (s : Application) : Application :=
  mkApplication (ap_server s) signals (ap_wait s) (ap_exit_code s) (ap_io_stopped s) (ap_run s).
Definition set_wait (wait : bool) (s : Application) : Application :=
  mkApplication (ap_server s) (ap_signals s) wait (ap_exit_code s) (ap_io_stopped s) (ap_run s).
Definition set_run (run : RunState) (s : Application) : Application :=
  mkApplication (ap_server s) (ap_signals s) (ap_wait s) (ap_exit_code s) (ap_io_stopped s) run.

Definition make_Application (server : Server) : Application :=
  mkApplication server initial_signals false EXIT_SUCCESS false run_idle.

(** ** Failure and completion *)

Definition on_runtime_failure (s : Application) : Application :=
  mkApplication (ap_server s) (mark_completed (ap_signals s)) (ap_wait s) EXIT_FAILURE true (ap_run s).

(** [server_.stop()] calls neither callback ([stop_silent] below). *)
Definition fail_signal_wait (w : AppWorld) (s : Application) : Application :=
  mkApplication (server_stop (fail_runtime (server_world w)) (server_world w) (ap_server s))
    (mark_completed (ap_signals s)) (ap_wait s) EXIT_FAILURE true (ap_run s).

(** Cancelling leaves the handler of the wait to run, with an error. *)
Definition on_drain_complete (w : AppWorld) (s : Application) : Application :=
  let s := set_signals (mark_completed (ap_signals s)) s in
  match aw_cancel w with
  | Ok _ => s
  | Throw _ => fail_signal_wait w s
  end.

(** The callbacks of an operation that led from the server [before] to that of [s]. *)
Definition notified (w : AppWorld) (before : Server) (s : Application) : Application :=
  let c := sv_completion before in
  let c' := sv_completion (ap_server s) in
  let s := if (drain_callbacks c <? drain_callbacks c')%nat then on_drain_complete w s else s in
  if (failure_callbacks c <? failure_callbacks c')%nat then on_runtime_failure s else s.

Definition call_server (w : AppWorld) (op : Server -> Server) (s : Application) : Application :=
  notified w (ap_server s) (set_server (op (ap_server s)) s).

(** ** Signals *)

Definition arm_signal_wait (w : AppWorld) (s : Application) : Application * bool :=
  match aw_wait w with
  | Ok _ => (set_wait true s, true)
  | Throw _ => (fail_signal_wait w s, false)
  end.

(** The number of the signal is only logged. *)
Definition on_signal (w : AppWorld) (e : error_code) (s : Application) : Application :=
  let '(disposition, signals) := on_wait_completion (ap_signals s) e in
  let s := set_signals signals s in
  match disposition with
  | sig_begin_drain =>
      let '(s, armed) := arm_signal_wait w s in
      if negb armed then s else call_server w (begin_drain (server_world w)) s
  | sig_force_stop => call_server w (force_stop_drain (server_world w)) s
  | sig_ignored => s
  | sig_fatal => fail_signal_wait w s
  end.

(** ** Running

    When the server cannot start, [run] returns or throws and leaves it as it is. *)
Definition application_run (w : AppWorld) (listen : ListenOutcome) (posting : result unit) (s : Application) : Application :=
  let '(server, r) := server_start (server_world w) listen posting (ap_server s) in
  match r with
  | Throw e =>
      set_run (run_returned (if system_error e then Ok EXIT_FAILURE else Throw e)) (set_server server s)
  | Ok _ =>
      let '(s, armed) := arm_signal_wait w (set_server server s) in
      set_run (if negb armed then run_returned (Ok (ap_exit_code s)) else run_serving) s
  end.

(** The destructor: the members are destroyed in the reverse order, the server first of those
    modelled, whose destructor stops it; the callbacks it may make are not those of [run]
    any more, and it makes none ([destroyed_silent] below).  The handlers that are left are
    destroyed with the executor, and never run. *)
Definition destroy_application (w : AppWorld) (r : result Z) (s : Application) : Application :=
  set_run (run_destroyed r) (set_server (destroy_server (server_world w) (ap_server s)) s).

(** The executor has nothing left to run.  The handlers of probes and exchanges whose owner
    let go of them are not counted; they do nothing, and the executor runs them before
    it returns. *)
Definition server_idle (s : Server) : Prop :=
  ls_accept_wait (sv_listener s) = false /\ ls_retry_wait (sv_listener s) = false /\
  cp_timer_wait (sv_completion s) = false /\ sv_sessions s = ∅ /\ sv_departed s = ∅ /\
  posted_ (sv_checks s) = false /\ timer_ (sv_checks s) = None /\ Forall (fun p => p = None) (probes_ (sv_checks s)).

Inductive AppEvent :=
  | ap_call_run (w : AppWorld) (listen : ListenOutcome) (posting : result unit)
  | ap_signal (w : AppWorld) (e : error_code)
  | ap_handler (w : AppWorld) (event : ServerEvent)
  | ap_io_done                    (* [io_context_.run()] returns *)
  | ap_destroy (w : AppWorld).

Definition ap_step (s : Application) (event : AppEvent) : option Application :=
  match event with
  | ap_call_run w listen posting => Some (application_run w listen posting s)
  | ap_signal w e => Some (on_signal w e (set_wait false s))
  | ap_handler w event =>
      server ← server_step (ap_server s) event;
      Some (notified w (ap_server s) (set_server server s))
  | ap_io_done => Some (set_run (run_returned (Ok (ap_exit_code s))) s)
  | ap_destroy w => match ap_run s with run_returned r => Some (destroy_application w r s) | _ => None end
  end.

(** A handler of the checker whose operation is pending. *)
Definition checks_pending (s : HealthChecks) (event : ChecksEvent) : Prop :=
  match event with
  | ev_posted _ => posted_ s = true
  | ev_timer _ _ => is_Some (timer_ s)
  | ev_probe slot _ _ _ => exists p, probes_ s !! slot = Some (Some p)
  | ev_start _ | ev_stop => False
  end.

(** While the executor runs and is not stopped, it runs the handlers of pending operations. *)
Definition ap_enabled (s : Application) (event : AppEvent) : Prop :=
  match event with
  | ap_call_run w listen posting =>
      ap_run s = run_idle /\ server_enabled (ap_server s) (sv_start_call (server_world w) listen posting)
  | ap_signal _ _ => ap_run s = run_serving /\ ap_io_stopped s = false /\ ap_wait s = true
  | ap_handler _ event =>
      ap_run s = run_serving /\ ap_io_stopped s = false /\
      is_handler event = true /\ server_enabled (ap_server s) event /\ sw_callback (event_world event) = Ok tt /\
      match event with sv_checks_event _ event => checks_pending (sv_checks (ap_server s)) event | _ => True end
  | ap_io_done =>
      ap_run s = run_serving /\ (ap_io_stopped s = true \/ (ap_wait s = false /\ server_idle (ap_server s)))
  | ap_destroy _ => exists r, ap_run s = run_returned r
  end.

Inductive ap_reachable (config : AppConfig) : Application -> Prop :=
  | ap_make now shared checks :
      make_HealthChecks config (Some (make_UpstreamHealthState (routes config))) now = Ok checks ->
      ap_reachable config (make_Application (make_Server config shared checks))
  | ap_next s event s' :
      ap_reachable config s -> ap_enabled s event -> ap_step s event = Some s' -> ap_reachable config s'.

End Application.

(** ** The invariant *)

Section Proofs.
Context {I : SessionInterface} {laws : SessionLaws I}.
Context (config : AppConfig) (limited : 0 < max_connections config < 2 ^ 64).
Variable system_error : exn -> bool.

Abbreviation server_ok := (server_ok config).

(** The executor was stopped: the service has failed, and nothing is left open. *)
Definition stopped_ok (s : Application) : Prop :=
  ap_exit_code s = EXIT_FAILURE /\ completed_ (ap_signals s) = true /\ sv_phase (ap_server s) = completed.

(** What is waited for, and known, in each phase of a service that has not failed. *)
Definition attentive (s : Application) : Prop :=
  match sv_phase (ap_server s) with
  | running => ap_signals s = initial_signals /\ ap_wait s = true
  | draining => ap_signals s = mkSignals true false false /\ ap_wait s = true
  | force_stopping => False
  | completed => completed_ (ap_signals s) = true /\ drain_callbacks (sv_completion (ap_server s)) = 1%nat
  end.

Definition healthy (s : Application) : Prop :=
  ap_exit_code s = EXIT_SUCCESS /\ failure_callbacks (sv_completion (ap_server s)) = 0%nat /\ reports (ap_server s) /\
  attentive s.

Definition serving (s : Application) : Prop := if ap_io_stopped s then stopped_ok s else healthy s.

(** What [run] returned tells how the service ended. *)
Definition concluded (r : result Z) (s : Application) : Prop :=
  sv_phase (ap_server s) = completed /\
  if decide (r = Ok EXIT_SUCCESS)
  then ap_io_stopped s = false /\ drain_callbacks (sv_completion (ap_server s)) = 1%nat /\
       failure_callbacks (sv_completion (ap_server s)) = 0%nat /\ sv_departed (ap_server s) = ∅
  else r = Ok EXIT_FAILURE /\ ap_io_stopped s = true.

Definition unstarted (s : Application) : Prop :=
  exists shared checks, s = make_Application (make_Server config shared checks).

Definition app_ok (s : Application) : Prop :=
  server_ok (ap_server s) /\
  match ap_run s with
  | run_idle => unstarted s
  | run_serving => serving s
  | run_returned r => concluded r s
  | run_destroyed _ => sv_phase (ap_server s) = completed
  end.

(** What [run] reports of a failure. *)
Definition failure_result (r : result Z) : Prop := r = Ok EXIT_FAILURE \/ exists e, r = Throw e /\ system_error e = false.

(** The server could not start: it has served nothing, and it has not been stopped. *)
Definition start_failed (s : Application) : Prop :=
  exists r, ap_run s = run_returned r /\ failure_result r /\ stoppable config (ap_server s) /\
    sv_phase (ap_server s) = running /\ sv_sessions (ap_server s) = ∅ /\ sv_departed (ap_server s) = ∅ /\
    drain_callbacks (sv_completion (ap_server s)) = 0%nat /\ failure_callbacks (sv_completion (ap_server s)) = 0%nat.

Lemma server_failures s :
  server_ok s ->
  failure_callbacks (sv_completion s) = 0%nat \/
  (failure_callbacks (sv_completion s) = 1%nat /\ sv_phase s = completed).
Proof.
  intros (((Hi & (HK & _) & Hset & Hp & Hf) & _) & _). rewrite HK. destruct (claimed_ _) eqn:E; [right|by left].
  split; [done|]. destruct (decide (sv_phase s = completed)) as [|Hc]; [done|]. by specialize (Hf Hc).
Qed.

(** A drain that is over has been reported. *)
Lemma server_drained s :
  server_ok s -> reports s -> failure_callbacks (sv_completion s) = 0%nat -> sv_phase s = completed ->
  drain_callbacks (sv_completion s) = 1%nat.
Proof.
  intros (((Hi & (HK & _) & Hset & _) & _) & _) Hr Hn Hc. rewrite HK in Hn.
  destruct Hr as [Hr|Hr]; [by rewrite Hr in Hn|]. by rewrite (inv_callbacks config s Hi), (Hset Hc) by (apply Hr; congruence).
Qed.

(** A drain that has been reported is over. *)
Lemma server_undrained s :
  server_ok s -> sv_phase s <> completed -> drain_callbacks (sv_completion s) = 0%nat.
Proof.
  intros (((Hi & _) & _) & _) Hc. rewrite (inv_callbacks config s Hi). destruct (cp_claimed _) eqn:E; [|done].
  by destruct Hc; apply (inv_claimed config s Hi).
Qed.

Lemma server_not_forced s : server_ok s -> sv_phase s <> force_stopping.
Proof. by intros (((_ & _ & _ & Hp & _) & _) & _). Qed.

Lemma stop_halts w s :
  server_ok s -> server_ok (server_stop (fail_runtime w) w s) /\ sv_phase (server_stop (fail_runtime w) w s) = completed.
Proof.
  intros ((Hst & _) & _). pose proof (server_stop_ok config limited w s Hst) as H. split; [|apply H].
  by eapply halted_ok.
Qed.

Lemma fail_signal_wait_ok w s :
  server_ok (ap_server s) ->
  server_ok (ap_server (fail_signal_wait w s)) /\ serving (fail_signal_wait w s).
Proof. intros H. destruct (stop_halts (server_world w) _ H) as [H1 H2]. by split. Qed.

(** After an operation of the server and its callbacks. *)
Lemma notified_ok w before s :
  server_ok (ap_server s) -> reports (ap_server s) ->
  ap_exit_code s = EXIT_SUCCESS -> ap_io_stopped s = false ->
  failure_callbacks (sv_completion before) = 0%nat ->
  (drain_callbacks (sv_completion before) = 0%nat \/ completed_ (ap_signals s) = true) ->
  (sv_phase (ap_server s) <> completed -> attentive s) ->
  server_ok (ap_server (notified w before s)) /\ serving (notified w before s) /\ ap_run (notified w before s) = ap_run s.
Proof.
  intros Hok Hr Hx Hio Hf0 Hd0 Hat. unfold notified. rewrite Hf0.
  destruct (server_failures _ Hok) as [Hf|[Hf Hph]]; rewrite Hf.
  - change (0 <? 0)%nat with false. cbv iota. destruct (decide (sv_phase (ap_server s) = completed)) as [Hc|Hc].
    + pose proof (server_drained _ Hok Hr Hf Hc) as Hd. rewrite Hd.
      destruct (drain_callbacks (sv_completion before) <? 1)%nat eqn:E.
      * unfold on_drain_complete. destruct (aw_cancel w).
        -- split_and!; [done| |done]. unfold serving, healthy, attentive. cbn. by rewrite Hio, Hc.
        -- destruct (fail_signal_wait_ok w (set_signals (mark_completed (ap_signals s)) s) Hok). by split_and!.
      * apply Nat.ltb_ge in E. split_and!; [done| |done]. unfold serving, healthy, attentive. rewrite Hio, Hc.
        split_and!; try done. destruct Hd0; [lia|done].
    + rewrite (server_undrained _ Hok Hc). change (drain_callbacks (sv_completion before) <? 0)%nat with false. cbv iota.
      split_and!; [done| |done]. unfold serving, healthy. rewrite Hio. split_and!; auto.
  - change (0 <? 1)%nat with true. cbv iota. generalize (drain_callbacks (sv_completion before) <? drain_callbacks (sv_completion (ap_server s)))%nat.
    intros b. set (t := if b then on_drain_complete w s else s).
    assert (Ht : server_ok (ap_server t) /\ sv_phase (ap_server t) = completed /\ ap_run t = ap_run s).
    { unfold t. destruct b; [|done]. unfold on_drain_complete. destruct (aw_cancel w); [done|].
      cbn. destruct (stop_halts (server_world w) _ Hok). by split_and!. }
    by destruct Ht as (? & ? & ?); split_and!.
Qed.

(** A handler of the server. *)
Lemma app_handler_ok w event s s' :
  app_ok s -> ap_enabled s (ap_handler w event) -> ap_step system_error s (ap_handler w event) = Some s' ->
  app_ok s' /\ ap_run s' = run_serving.
Proof.
  intros [Hok Hrun] (Hser & Hio & Hh & Hen & _). rewrite Hser in Hrun. unfold serving in Hrun. rewrite Hio in Hrun.
  destruct Hrun as (Hx & Hf & Hr & Hat). cbn.
  destruct (server_step_ok config limited (ap_server s) event Hok Hen) as (server & Hs & Hok').
  rewrite Hs. cbn. intros [= <-].
  destruct (handler_steers (sv_phase (ap_server s)) event (ap_server s) server Hh Hs) as [Hp Hr']; [by split; [left|]|].
  destruct (notified_ok w (ap_server s) (set_server server s)) as (H1 & H2 & H3); try done.
  - unfold attentive in Hat. destruct (decide (sv_phase (ap_server s) = completed)) as [E|E].
    + rewrite E in Hat. right. apply Hat.
    + left. by apply server_undrained.
  - intros Hc. destruct Hp as [Hp|[Hp|Hp]]; [|by apply server_not_forced in Hp|done].
    unfold attentive in *. cbn in *. rewrite Hp in *. destruct (sv_phase (ap_server s)); done.
  - unfold app_ok. rewrite H3. cbn. rewrite Hser. by split_and!.
Qed.

(** The handler of a signal. *)
Lemma app_signal_ok w e s :
  app_ok s -> ap_enabled s (ap_signal w e) ->
  let s' := on_signal w e (set_wait false s) in app_ok s' /\ ap_run s' = run_serving.
Proof.
  intros [Hok Hrun] (Hser & Hio & Hwait). rewrite Hser in Hrun. unfold serving in Hrun. rewrite Hio in Hrun.
  destruct Hrun as (Hx & Hf & Hr & Hat). cbn zeta.
  assert (Hfail : forall t, ap_server t = ap_server s -> ap_run t = run_serving ->
            app_ok (fail_signal_wait w t) /\ ap_run (fail_signal_wait w t) = run_serving).
  { intros t E1 E2. rewrite <- E1 in Hok. destruct (fail_signal_wait_ok w t Hok) as [H1 H2].
    unfold app_ok. cbn in *. rewrite E2. by split_and!. }
  unfold on_signal, on_wait_completion. cbn [ap_signals set_wait]. unfold attentive in Hat.
  destruct (sv_phase (ap_server s)) eqn:Ep; [| |done|].
  - destruct Hat as [-> _]. cbn. destruct (failed e); [by apply Hfail|]. cbn.
    unfold arm_signal_wait. destruct (aw_wait w); cbn [negb]; [|by apply Hfail].
    destruct (begin_drain_steers (server_world w) (ap_server s) Ep Hr) as [Hp Hr'].
    destruct (server_step_ok config limited (ap_server s) (sv_begin_drain (server_world w)) Hok Logic.I) as (server & [= <-] & Hok').
    unfold call_server. match goal with |- context [notified w ?b ?t] => destruct (notified_ok w b t) as (H1 & H2 & H3) end;
      try done.
    + left. apply (server_undrained (ap_server s)); [done|congruence].
    + intros Hc. destruct Hp as [Hp|[Hp|Hp]]; [|by apply server_not_forced in Hp|done]. unfold attentive. cbn. by rewrite Hp.
    + unfold app_ok. rewrite H3. change (ap_run _) with (ap_run s). rewrite Hser. by split_and!.
  - destruct Hat as [-> _]. cbn. destruct (failed e); [by apply Hfail|]. cbn.
    destruct (force_stop_drain_steers draining (server_world w) (ap_server s)) as [Hp Hr']; [by split; [left|]|].
    destruct (server_step_ok config limited (ap_server s) (sv_force_stop (server_world w)) Hok Logic.I) as (server & [= <-] & Hok').
    assert (Hc : sv_phase (force_stop_drain (server_world w) (ap_server s)) = completed).
    { destruct (draining_step config limited (ap_server s) (sv_force_stop (server_world w)) _ Hok Ep Logic.I eq_refl eq_refl) as (_ & Hc & _). done. }
    unfold call_server. match goal with |- context [notified w ?b ?t] => destruct (notified_ok w b t) as (H1 & H2 & H3) end;
      try done.
    + left. apply (server_undrained (ap_server s)); [done|congruence].
    + unfold app_ok. rewrite H3. change (ap_run _) with (ap_run s). rewrite Hser. by split_and!.
  - destruct Hat as [Hc Hd]. rewrite Hc. cbn.
    assert (Hsame : app_ok (set_wait false s) /\ ap_run (set_wait false s) = run_serving).
    { unfold app_ok, serving, healthy, attentive. cbn. rewrite Hser, Hio, Ep. by split_and!. }
    destruct (failed e); [|exact Hsame]. destruct (error_is e operation_aborted); [exact Hsame|by apply Hfail].
Qed.

(** The call of [run]. *)
Lemma app_run_ok w listen s :
  app_ok s -> ap_enabled s (ap_call_run w listen (Ok tt)) ->
  let s' := application_run system_error w listen (Ok tt) s in app_ok s' \/ start_failed s'.
Proof.
  intros [Hok Hrun] (Hidle & _). rewrite Hidle in Hrun. destruct Hrun as (shared & checks & ->).
  set (s0 := make_Server config shared checks) in *. change (server_ok s0) in Hok.
  pose proof (server_start_cases config limited (server_world w) listen s0 Hok eq_refl) as H.
  destruct (server_start_same (server_world w) listen (Ok tt) s0) as (E1 & E2 & E3 & E4 & E5).
  unfold application_run. change (ap_server (make_Application s0)) with s0.
  destruct (server_start (server_world w) listen (Ok tt) s0) as [server [u|e]]; cbn in E1, E2, E3, E4, E5; cbv zeta.
  - left. unfold arm_signal_wait. destruct (aw_wait w); cbn [negb].
    + split; [exact H|]. cbn. split_and!; try done; cbn; [by rewrite E3| |].
      * right. unfold sv_phase. by rewrite E1.
      * unfold attentive, sv_phase. cbn. by rewrite E1.
    + destruct (fail_signal_wait_ok w (set_server server (make_Application s0)) H) as [H1 (_ & _ & H2)].
      split; [exact H1|]. split; [exact H2|]. by split.
  - right. exists (if system_error e then Ok EXIT_FAILURE else Throw e). unfold sv_phase. cbn. rewrite E1, E3, E4, E5.
    split_and!; try done. unfold failure_result. destruct (system_error e) eqn:Ee; [by left|right; by exists e].
Qed.

(** The destructor closes what is left. *)
Lemma app_destroy_ok w r s :
  app_ok s \/ start_failed s -> ap_run s = run_returned r -> app_ok (destroy_application w r s).
Proof.
  intros H E. assert (Hs : stoppable config (ap_server s)).
  { destruct H as [[((Hst & _) & _) _]|(r' & _ & _ & Hst & _)]; exact Hst. }
  pose proof (server_stop_ok config limited (server_world w) _ Hs) as Hh.
  split; [by eapply halted_ok|apply Hh].
Qed.

Lemma app_reachable_cases s : ap_reachable system_error config s -> app_ok s \/ start_failed s.
Proof.
  induction 1 as [now shared checks Hc|s event s' _ IH Hen Hs].
  - left. split; [by eapply make_server_ok, make_checks_ok|]. by exists shared, checks.
  - destruct event as [w listen posting|w e|w event| |w].
    5: { destruct Hen as [r E]. cbn in Hs. rewrite E in Hs. injection Hs as <-. left. by apply app_destroy_ok. }
    all: destruct IH as [IH|(r & E & _)]; [|by cbn in Hen; destruct Hen as [Hen _]; congruence].
    + injection Hs as <-. assert (posting = Ok tt) as -> by apply Hen. by apply app_run_ok.
    + injection Hs as <-. left. by apply app_signal_ok.
    + left. by destruct (app_handler_ok w event s s').
    + left. injection Hs as <-. destruct IH as [Hok Hrun]. destruct Hen as [Hser Hdone]. split; [exact Hok|].
      rewrite Hser in Hrun. unfold serving in Hrun. cbn. unfold concluded. cbn.
      destruct (ap_io_stopped s) eqn:Hio.
      * destruct Hrun as (-> & _ & Hp). split; [done|]. by rewrite decide_False.
      * destruct Hrun as (-> & Hf & _ & Hat). rewrite decide_True by done.
        destruct Hdone as [|[Hw (_ & _ & _ & _ & Hd & _)]]; [done|]. unfold attentive in Hat.
        destruct (sv_phase (ap_server s)); try (destruct Hat; congruence). by destruct Hat.
Qed.

Lemma app_reachable_ok s : ap_reachable system_error config s -> ap_run s = run_serving -> app_ok s.
Proof. intros H E. destruct (app_reachable_cases s H) as [|(r & E' & _)]; [done|congruence]. Qed.

(** ** The end of the loop *)

(** The handlers that have yet to run: those of a session that ended, and its destructor,
    among them. *)
Definition server_waiting (s : Server) : Z :=
  Z.b2z (ls_accept_wait (sv_listener s)) + Z.b2z (ls_retry_wait (sv_listener s)) +
  Z.b2z (cp_timer_wait (sv_completion s)) + Z.b2z (posted_ (sv_checks s)) +
  map_sum (fun session => 1 + Z.of_nat (session_left session)) (sv_departed s).
Definition waiting (s : Application) : Z := Z.b2z (ap_wait s) + server_waiting (ap_server s).

(** A run of the executor of [n] handlers. *)
Inductive handlers : nat -> Application -> Application -> Prop :=
  | handlers_none s : handlers 0 s s
  | handlers_more n s event s' s'' :
      ap_enabled s event -> (match event with ap_signal _ _ | ap_handler _ _ => True | _ => False end) ->
      ap_step system_error s event = Some s' -> handlers n s' s'' -> handlers (S n) s s''.

Lemma server_closed s : server_ok s -> sv_phase s = completed -> sv_sessions s = ∅ /\ quiet s.
Proof.
  intros (((Hi & _) & _) & _) Hc. split; [|apply (inv_quiet config s Hi); congruence].
  apply map_size_empty_iff. pose proof (inv_active config s Hi). destruct (inv_drain config s Hi) as [_ Hd].
  unfold sv_phase in Hc. rewrite Hc in Hd. lia.
Qed.

(** A closed server only lets the handlers of aborted operations run. *)
Lemma server_stop_closed fail w s :
  sv_phase s = completed -> server_stop fail w s = set_completion (set_enabled false (sv_completion s)) s.
Proof. unfold sv_phase, server_stop, begin_force_stop. cbn. by intros ->. Qed.

Lemma closed_handler s event s' :
  server_ok s -> sv_phase s = completed -> is_handler event = true -> server_enabled s event ->
  match event with sv_checks_event _ event => checks_pending (sv_checks s) event | _ => True end ->
  server_step s event = Some s' ->
  sv_phase s' = completed /\ 1 + server_waiting s' = server_waiting s /\
  drain_callbacks (sv_completion s') = drain_callbacks (sv_completion s) /\
  failure_callbacks (sv_completion s') = failure_callbacks (sv_completion s).
Proof.
  intros Hok Hc Hh Hen Hpe Hs. destruct (server_closed s Hok Hc) as (Hempty & _ & Hstop & _).
  assert (Hnr : phase_is (phase_ (sv_drain s)) running = false) by (unfold sv_phase in Hc; by rewrite Hc).
  assert (Hnd : phase_is (phase_ (sv_drain s)) draining = false) by (unfold sv_phase in Hc; by rewrite Hc).
  destruct event as [| | | |w e made answers|w e|w e|w id outcome|w id outcome|w id|w event]; try done; cbn in Hs, Hen.
  - injection Hs as <-. destruct Hen as [Hw _]. unfold handled, on_accept. cbn. rewrite Hnr. cbn.
    split_and!; try done. unfold server_waiting. cbn. rewrite Hw. cbn. lia.
  - injection Hs as <-. unfold on_accept_retry_timer. cbn. rewrite Hnr. cbn.
    split_and!; try done. unfold server_waiting. cbn. rewrite Hen. cbn. lia.
  - injection Hs as <-. unfold on_drain_timer, classify_drain_timer_completion. cbn. rewrite Hnd. cbn.
    split_and!; try done. unfold server_waiting. cbn. rewrite Hen. cbn. lia.
  - destruct Hen as (session & E & _). by rewrite Hempty in E.
  - destruct Hen as (session & E & Hh'). destruct outcome as [[shared session'] closed]. injection Hs as <-.
    pose proof Hok as (((Hi & _) & _) & _). destruct (proj2 (inv_all_sessions config s Hi) id session E) as (_ & Hend & _).
    destruct (handler_ended _ _ _ _ Hh' Hend) as (_ & _ & Hleft & _). cbn in Hleft.
    split_and!; try done. unfold server_waiting. cbn. rewrite (map_sum_update _ _ _ session) by done. cbn. lia.
  - destruct Hen as (session & E & Hleft). rewrite E in Hs. injection Hs as <-.
    split_and!; try done. unfold server_waiting. cbn. rewrite (map_sum_delete _ (sv_departed s) id session) by done. cbn. lia.
  - pose proof Hok as (((Hi & _) & _) & _). destruct (inv_checks config s Hi) as (Hci & _).
    destruct event as [| |e w'|slot a event w'|]; cbn in Hpe; try done.
    + unfold on_checks in Hs. cbn in Hs. rewrite Hpe in Hs. cbn in Hs. unfold pump in Hs. cbn in Hs. rewrite Hstop in Hs.
      cbn in Hs. rewrite Nat.eqb_refl in Hs. cbn in Hs. injection Hs as <-.
      split_and!; try done. unfold server_waiting. cbn. rewrite Hpe. cbn. lia.
    + rewrite (ci_timer _ _ _ Hci Hstop) in Hpe. by destruct Hpe.
    + destruct Hpe as (p & Hp). by pose proof (Forall_lookup_1 _ _ _ _ (stopped_no_probe _ _ Hci Hstop) Hp).
Qed.

Lemma notified_none w before s :
  drain_callbacks (sv_completion (ap_server s)) = drain_callbacks (sv_completion before) ->
  failure_callbacks (sv_completion (ap_server s)) = failure_callbacks (sv_completion before) -> notified w before s = s.
Proof. intros E1 E2. unfold notified. by rewrite E1, E2, !Nat.ltb_irrefl. Qed.

Lemma waiting_nonneg s : 0 <= server_waiting s.
Proof.
  unfold server_waiting. pose proof (map_sum_nonneg (fun session => 1 + Z.of_nat (session_left session)) (sv_departed s)) as H.
  assert (0 <= map_sum (fun session => 1 + Z.of_nat (session_left session)) (sv_departed s)) by (apply H; intros ? ? _; lia).
  destruct (ls_accept_wait _), (ls_retry_wait _), (cp_timer_wait _), (posted_ _); cbn; lia.
Qed.

(** A handler of a service that is shut down leaves one handler less. *)
Lemma closed_step s event s' :
  app_ok s -> sv_phase (ap_server s) = completed -> ap_enabled s event ->
  match event with ap_signal _ _ | ap_handler _ _ => True | _ => False end ->
  ap_step system_error s event = Some s' ->
  app_ok s' /\ sv_phase (ap_server s') = completed /\ 1 + waiting s' = waiting s.
Proof.
  intros H Hc Hen Hev Hs. unfold waiting. destruct event as [|w e|w event| |]; try done.
  - injection Hs as <-. destruct (app_signal_ok w e s H Hen) as [H1 _]. split; [exact H1|].
    destruct Hen as (Hser & Hio & Hw). destruct H as [Hok Hrun]. rewrite Hser in Hrun. unfold serving in Hrun.
    rewrite Hio in Hrun. destruct Hrun as (_ & _ & _ & Hat). unfold attentive in Hat. rewrite Hc in Hat.
    destruct Hat as [Hsig _]. unfold on_signal, on_wait_completion. cbn. rewrite Hsig, Hw. cbn.
    destruct (failed e), (error_is e operation_aborted); cbn; rewrite ?server_stop_closed by done; split; (done || unfold server_waiting; cbn; lia).
  - destruct (app_handler_ok w event s s' H Hen Hs) as [H1 _]. split; [exact H1|].
    destruct Hen as (_ & _ & Hh & Hen & _ & Hpe). destruct H as [Hok _]. cbn in Hs.
    destruct (server_step (ap_server s) event) as [server|] eqn:E; [|done]. cbn in Hs. injection Hs as <-.
    destruct (closed_handler _ _ _ Hok Hc Hh Hen Hpe E) as (Hp & Hw & Hd & Hf).
    rewrite notified_none by done. cbn. split; [done|]. lia.
Qed.

(** The callbacks of the server only complete the state of the signals. *)
Lemma notified_signals w before s :
  ap_signals (notified w before s) = ap_signals s \/ completed_ (ap_signals (notified w before s)) = true.
Proof.
  unfold notified. match goal with |- context [if ?b then on_runtime_failure _ else _] => destruct b end; [by right|].
  match goal with |- context [if ?b then _ else _] => destruct b end; [|by left].
  right. unfold on_drain_complete. by destruct (aw_cancel w).
Qed.

(** What the handler of the wait leaves is not the state of the signals it found. *)
Lemma on_signal_signals w e s :
  (ap_signals s = initial_signals -> ap_signals (on_signal w e s) <> initial_signals) /\
  (ap_signals s = mkSignals true false false ->
   ap_signals (on_signal w e s) <> initial_signals /\ ap_signals (on_signal w e s) <> mkSignals true false false).
Proof.
  split; intros E; unfold on_signal, on_wait_completion; rewrite E; cbn; destruct (failed e); cbn; try done.
  - unfold arm_signal_wait. destruct (aw_wait w); cbn [negb]; [|done]. unfold call_server.
    match goal with |- context [notified w ?b ?t] => destruct (notified_signals w b t) as [-> | H] end; [done|].
    intros E2. by rewrite E2 in H.
  - unfold call_server.
    match goal with |- context [notified w ?b ?t] => destruct (notified_signals w b t) as [-> | H] end; [done|].
    split; intros E2; by rewrite E2 in H.
Qed.

(** The drain was completed and reported, and nothing failed. *)
Definition drained (s : Application) : Prop :=
  drain_callbacks (sv_completion (ap_server s)) = 1%nat /\
  failure_callbacks (sv_completion (ap_server s)) = 0%nat /\ ap_io_stopped s = false.

Lemma returned_status s r :
  ap_reachable system_error config s -> ap_run s = run_returned r ->
  (r = Ok EXIT_SUCCESS <-> drained s) /\
  (r = Ok EXIT_SUCCESS \/ r = Ok EXIT_FAILURE \/ exists e, r = Throw e /\ system_error e = false).
Proof.
  intros H E. unfold drained.
  destruct (app_reachable_cases s H) as [[Hok Hrun]|(r' & E' & Hr & _ & _ & _ & _ & Hd & _)].
  - rewrite E in Hrun. destruct Hrun as [Hc Hcase]. destruct (decide (r = Ok EXIT_SUCCESS)) as [Hr|Hr].
    + split; [tauto|by left].
    + destruct Hcase as [-> Hend]. split; [|by right; left]. split; [done|]. intros (_ & _ & Hio). congruence.
  - assert (r' = r) as -> by congruence. split; [|by right].
    split; [intros ->; by destruct Hr as [|(? & ? & _)]|]. intros (Hd' & _). congruence.
Qed.

(** A service that returns a success has let its last session go. *)
Lemma returned_departed s :
  ap_reachable system_error config s -> ap_run s = run_returned (Ok EXIT_SUCCESS) ->
  sv_sessions (ap_server s) = ∅ /\ sv_departed (ap_server s) = ∅.
Proof.
  intros H E. destruct (app_reachable_cases s H) as [[Hok Hrun]|(r & _ & _ & _ & _ & ? & ? & _)]; [|done].
  rewrite E in Hrun. destruct Hrun as [Hc Hcase].
  rewrite decide_True in Hcase by done. split; [by apply server_closed|apply Hcase].
Qed.

(** ** The runs of the server *)

(** The applications that follow one. *)
Inductive ap_runs (s0 : Application) : Application -> Prop :=
  | ap_here : ap_runs s0 s0
  | ap_then s event s' :
      ap_runs s0 s -> ap_enabled s event -> ap_step system_error s event = Some s' -> ap_runs s0 s'.

Lemma ap_runs_reachable s0 s : ap_reachable system_error config s0 -> ap_runs s0 s -> ap_reachable system_error config s.
Proof. intros H. induction 1; [done|by eapply ap_next]. Qed.

Lemma fail_signal_runs w s s0 : server_runs s0 (ap_server s) -> server_runs s0 (ap_server (fail_signal_wait w s)).
Proof. intros H. by apply (runs_next _ _ (sv_stop (server_world w)) _ H). Qed.

Lemma notified_runs w before s s0 : server_runs s0 (ap_server s) -> server_runs s0 (ap_server (notified w before s)).
Proof.
  intros H. unfold notified. set (t := if _ : bool then on_drain_complete w s else s).
  assert (Ht : server_runs s0 (ap_server t)).
  { unfold t. destruct (_ <? _)%nat; [|done]. unfold on_drain_complete. destruct (aw_cancel w); [done|]. by apply fail_signal_runs. }
  clearbody t. by destruct (_ <? _)%nat.
Qed.

Lemma on_signal_runs w e s s0 : server_runs s0 (ap_server s) -> server_runs s0 (ap_server (on_signal w e s)).
Proof.
  intros H. unfold on_signal. destruct (on_wait_completion _ _) as [d signals].
  destruct d; [..|by apply fail_signal_runs]; try done.
  - unfold arm_signal_wait. destruct (aw_wait w); cbn [negb]; [|by apply fail_signal_runs].
    apply notified_runs. by apply (runs_next _ _ (sv_begin_drain (server_world w)) _ H).
  - apply notified_runs. by apply (runs_next _ _ (sv_force_stop (server_world w)) _ H).
Qed.

(** What the application does to its server, the server can do by itself; the server that could
    not start is in the middle of the event that ends it. *)
Definition start_thrown (server0 server : Server) : Prop :=
  exists before w listen e, server_runs server0 before /\
    server_enabled before (sv_start_call w listen (Ok tt)) /\ server_start w listen (Ok tt) before = (server, Throw e).

Lemma thrown_destroyed w server0 server :
  sv_sessions server = ∅ -> start_thrown server0 server -> server_runs server0 (destroy_server w server).
Proof.
  intros Hs (before & w0 & listen & e & Hb & Hen & E). apply (runs_next _ _ (sv_start_call w0 listen (Ok tt)) _ Hb Hen).
  cbn [server_step]. rewrite E. f_equal. by apply destroy_unserved.
Qed.

Lemma ap_runs_server s0 s :
  ap_reachable system_error config s0 -> ap_runs s0 s ->
  server_runs (ap_server s0) (ap_server s) \/ (start_failed s /\ start_thrown (ap_server s0) (ap_server s)).
Proof.
  intros H0. induction 1 as [|s event s' Hr IH Hen Hs]; [left; apply runs_here|].
  pose proof (ap_runs_reachable _ _ H0 Hr) as Hreach. destruct event as [w listen posting|w e|w event| |w].
  5: { left. destruct Hen as [r E]. cbn in Hs. rewrite E in Hs. injection Hs as <-. destruct IH as [IH|[Hf IH]].
       - by apply (runs_next _ _ (sv_stop (server_world w)) _ IH).
       - destruct Hf as (_ & _ & _ & _ & _ & Hf & _). by apply thrown_destroyed. }
  all: destruct IH as [IH|[(r & E & _) _]]; [|by cbn in Hen; destruct Hen as [Hen _]; congruence].
  - pose proof Hen as [Hidle Hen']. assert (posting = Ok tt) as -> by apply Hen'. injection Hs as <-.
    destruct (app_reachable_cases s Hreach) as [Hok|(r & E & _)]; [|congruence].
    pose proof (app_run_ok w listen s Hok Hen) as Hcase. cbv zeta in Hcase.
    pose proof (fun s' => runs_next (ap_server s0) _ _ s' IH Hen') as H. revert H Hcase. cbn [server_step]. unfold application_run.
    destruct (server_start _ _ _ _) as [server [u|e]] eqn:Es; intros H Hcase.
    + left. specialize (H _ eq_refl). unfold arm_signal_wait. destruct (aw_wait w); [exact H|].
      exact (fail_signal_runs w (set_server server s) _ H).
    + right. destruct Hcase as [[Hok' Hc]|Hf].
      * exfalso. cbn in Hc. destruct Hok as [_ Hi]. rewrite Hidle in Hi. destruct Hi as (shared & checks & Ei).
        pose proof (server_start_same (server_world w) listen (Ok tt) (ap_server s)) as (E1 & _).
        rewrite Es in E1. destruct Hc as [Hc _]. unfold sv_phase in Hc. cbn in Hc, E1. rewrite E1, Ei in Hc. done.
      * split; [exact Hf|]. by exists (ap_server s), (server_world w), listen, e.
  - left. injection Hs as <-. by apply on_signal_runs.
  - left. cbn in Hs. destruct (server_step (ap_server s) event) as [server|] eqn:E; [|done]. injection Hs as <-.
    apply notified_runs. eapply runs_next; [exact IH| |exact E]. apply Hen.
  - left. by injection Hs as <-.
Qed.

(** The destructor calls neither callback of the application. *)
Lemma destroyed_silent w r s :
  sv_completion (ap_server (destroy_application w r s)) = set_enabled false (sv_completion (ap_server s)).
Proof. apply stop_silent. Qed.


(** C4: the service can always be told to stop.  Until its shutdown is over a wait for a signal
    is pending; whatever the wait reports, a signal or an error, the service that runs
    begins to shut down, and the service that drains has shut down, with every session
    closed, when its handler returns. *)
Theorem application_listens s :
  ap_reachable system_error config s -> ap_run s = run_serving ->
  match phase_ (sv_drain (ap_server s)) with
  | running =>
      ap_wait s = true /\
      forall w e, phase_ (sv_drain (ap_server (on_signal w e (set_wait false s)))) <> running
  | draining =>
      ap_wait s = true /\
      forall w e, let s' := on_signal w e (set_wait false s) in
        phase_ (sv_drain (ap_server s')) = completed /\ sv_sessions (ap_server s') = ∅
  | force_stopping => False
  | completed => sv_sessions (ap_server s) = ∅ /\ completed_ (ap_signals s) = true
  end.
Proof.
  intros H E. destruct (app_reachable_ok s H E) as [Hok Hrun].
  rewrite E in Hrun. unfold serving, stopped_ok, healthy, attentive, sv_phase in Hrun.
  assert (Hafter : ap_io_stopped s = false -> ap_wait s = true -> forall w e,
            let s' := on_signal w e (set_wait false s) in
            server_ok (ap_server s') /\
            (sv_phase (ap_server s') = completed \/
             (sv_phase (ap_server s') = running /\ ap_signals s' = initial_signals) \/
             (sv_phase (ap_server s') = draining /\ ap_signals s' = mkSignals true false false))).
  { intros Hio Hw w e. destruct (app_signal_ok w e s) as [[Hok' Hrun'] Hser]; [by apply app_reachable_ok|done|].
    cbn zeta. split; [done|]. rewrite Hser in Hrun'. unfold serving in Hrun'.
    destruct (ap_io_stopped (on_signal w e (set_wait false s))); [left; apply Hrun'|].
    destruct Hrun' as (_ & _ & _ & Hat). unfold attentive in Hat. destruct (sv_phase _); intuition. }
  pose proof (fun w e => on_signal_signals w e (set_wait false s)) as Hsig. change (ap_signals (set_wait false s)) with (ap_signals s) in Hsig.
  destruct (phase_ (sv_drain (ap_server s))) eqn:Ep.
  - destruct (ap_io_stopped s); [destruct Hrun as (_ & _ & ?); congruence|]. destruct Hrun as (_ & _ & _ & Hs & Hw).
    split; [done|]. intros w e. destruct (Hafter eq_refl Hw w e) as [_ Hcase]. unfold sv_phase in Hcase.
    destruct Hcase as [-> |[[_ Hx]|[-> _]]]; [done| |done]. by destruct (proj1 (Hsig w e) Hs).
  - destruct (ap_io_stopped s); [destruct Hrun as (_ & _ & ?); congruence|]. destruct Hrun as (_ & _ & _ & Hs & Hw).
    split; [done|]. intros w e. cbn zeta. destruct (Hafter eq_refl Hw w e) as [Hok' Hcase].
    destruct (proj2 (Hsig w e) Hs) as [Hn1 Hn2]. destruct Hcase as [Hc|[[_ Hx]|[_ Hx]]]; [|done..].
    split; [exact Hc|by apply server_closed].
  - by apply (server_not_forced (ap_server s)).
  - split; [by apply server_closed|]. destruct (ap_io_stopped s); apply Hrun.
Qed.

(** C8: a service that has shut down returns.  Each handler it still runs is one of those that
    were left, none starts another operation, and the executor returns when there is none:
    the wait for a signal, an accept, its retry, the drain timer, a posted pump, and for
    each session that ended its handlers and its destructor. *)
Theorem application_ends s n s' :
  ap_reachable system_error config s -> ap_run s = run_serving ->
  phase_ (sv_drain (ap_server s)) = completed -> handlers n s s' ->
  Z.of_nat n + waiting s' = waiting s /\ 0 <= waiting s' /\
  (waiting s' = 0 \/ ap_io_stopped s' = true -> ap_enabled s' ap_io_done).
Proof.
  intros H E Hc Hh. pose proof (app_reachable_ok s H E) as Happ. clear H.
  assert (Hend : Z.of_nat n + waiting s' = waiting s /\ ap_run s' = run_serving /\ app_ok s' /\ sv_phase (ap_server s') = completed).
  { induction Hh as [s|n s event s' s'' Hen Hev Hs _ IH]; [by split_and!|].
    destruct (closed_step s event s' Happ Hc Hen Hev Hs) as (Happ' & Hc' & Hw).
    assert (Hser : ap_run s' = run_serving).
    { destruct event as [|w e|w event| |]; try done; [|by destruct (app_handler_ok w event s s')].
      injection Hs as <-. by destruct (app_signal_ok w e s Happ Hen). }
    destruct (IH Hser Hc' Happ') as (? & ? & ? & ?). split_and!; try done. lia. }
  destruct Hend as (Hn & Hser & [Hok _] & Hc'). pose proof (waiting_nonneg (ap_server s')) as Hnn.
  split_and!; [done|unfold waiting; destruct (ap_wait s'); cbn; lia|].
  intros [Hw|Hio].
  - destruct (server_closed _ Hok Hc') as (Hempty & _ & Hstop & _).
    pose proof Hok as (((Hi & _) & _) & _). destruct (inv_checks config _ Hi) as (Hci & _).
    split; [done|]. right. unfold waiting in Hw. destruct (ap_wait s'); [cbn in Hw; lia|]. split; [done|].
    unfold server_waiting in Hw.
    assert (Hs : 0 <= map_sum (fun session => 1 + Z.of_nat (session_left session)) (sv_departed (ap_server s')))
      by (apply map_sum_nonneg; intros ? ? _; lia).
    unfold server_idle. destruct (ls_accept_wait _), (ls_retry_wait _), (cp_timer_wait _), (posted_ _); cbn in Hw; try lia.
    split_and!; try done; [|by apply (ci_timer _ _ _ Hci)|by apply (stopped_no_probe _ _ Hci)].
    apply (map_sum_positive (fun session => 1 + Z.of_nat (session_left session))); [intros ? ? _; lia|lia].
  - split; [done|by left].
Qed.

End Proofs.

(** ** A concrete run: a signal stops a service with no session *)

#[local] Existing Instance Server.sample_sessions.
#[local] Existing Instance Server.sample_laws.

Definition sample_world : AppWorld := mkAppWorld (Ok tt) (Ok tt) (Ok tt) (Ok tt) (Ok tt).
Definition sample_event (event : AppEvent) (s : Application) : Application :=
  default s (ap_step (fun _ => true) s event).
Definition sample_made : Application := make_Application Server.sample_server.
Definition sample_serving : Application := sample_event (ap_call_run sample_world listening (Ok tt)) sample_made.
Definition sample_drained : Application := sample_event (ap_signal sample_world no_error) sample_serving.
Definition sample_cancelled : Application := sample_event (ap_signal sample_world operation_aborted) sample_drained.
Definition sample_aborted : AppEvent :=
  ap_handler sample_world (sv_accepted (server_world sample_world) operation_aborted (Throw (logic_error "unused")) Server.sample_answers).
Definition sample_pumped : AppEvent :=
  ap_handler sample_world (sv_checks_event (server_world sample_world) (ev_posted sample_pump)).
Definition sample_unaccepted : Application := sample_event sample_aborted sample_cancelled.
Definition sample_unpumped : Application := sample_event sample_pumped sample_unaccepted.
Definition sample_returned : Application := sample_event ap_io_done sample_unpumped.

Abbreviation sample_reaches := (ap_reachable (fun _ => true) HealthCheck.sample_config).

Lemma sample_handlers :
  sample_reaches sample_serving /\ sample_reaches sample_drained /\ sample_reaches sample_returned /\
  handlers (fun _ => true) 3 sample_drained sample_unpumped.
Proof.
  assert (H0 : sample_reaches sample_made) by (apply (ap_make _ _ 0); by vm_compute).
  assert (H1 : sample_reaches sample_serving).
  { apply (ap_next _ _ _ (ap_call_run sample_world listening (Ok tt)) _ H0); [by repeat split|by vm_compute]. }
  assert (H2 : sample_reaches sample_drained).
  { apply (ap_next _ _ _ (ap_signal sample_world no_error) _ H1); [by repeat split|by vm_compute]. }
  assert (Hh : handlers (fun _ => true) 3 sample_drained sample_unpumped).
  { apply (handlers_more _ 2 _ (ap_signal sample_world operation_aborted) sample_cancelled); [by repeat split|done|by vm_compute|].
    apply (handlers_more _ 1 _ sample_aborted sample_unaccepted); [|exact Logic.I|by vm_compute|].
    - repeat split. by intros session.
    - apply (handlers_more _ 0 _ sample_pumped sample_unpumped); [|exact Logic.I|by vm_compute|apply handlers_none].
      repeat split. exact sample_spanned. }
  split_and!; try done. revert H2 Hh. generalize sample_drained. intros s H2 Hh.
  assert (H3 : sample_reaches sample_unpumped).
  { revert H2. remember sample_unpumped as e. clear Heqe. induction Hh; [done|]. intros Hs. apply IHHh. by eapply ap_next. }
  apply (ap_next _ _ _ ap_io_done _ H3); [|by vm_compute].
  split; [done|]. right. split; [done|]. repeat split. repeat constructor.
Qed.


Lemma application_listens_witness :
  phase_ (sv_drain (ap_server sample_serving)) = running /\ ap_wait sample_serving = true.
Proof.
  assert (E : phase_ (sv_drain (ap_server sample_serving)) = running) by (vm_compute; reflexivity). split; [exact E|].
  pose proof (application_listens HealthCheck.sample_config ltac:(by vm_compute) (fun _ => true) sample_serving
    (proj1 sample_handlers) ltac:(vm_compute; reflexivity)) as H. rewrite E in H. exact (proj1 H).
Defined.

Lemma application_ends_witness :
  waiting sample_drained = 3 /\ waiting sample_unpumped = 0 /\ ap_enabled sample_unpumped ap_io_done.
Proof.
  destruct (application_ends HealthCheck.sample_config) with (system_error := fun _ : exn => true)
    (s := sample_drained) (n := 3%nat) (s' := sample_unpumped) as (_ & _ & H);
    [by vm_compute|apply sample_handlers|vm_compute; reflexivity|vm_compute; reflexivity|apply sample_handlers|].
  split; [vm_compute; reflexivity|]. split; [vm_compute; reflexivity|]. apply H. left. vm_compute. reflexivity.
Defined.
