(* ===== verification/Logging.v ===== *)
(** * Structured logging (src/logging.cpp, include/apigate/logging.hpp)

    A log line is a JSON object: the fields of the caller with the service, its environment
    and the event.  A nlohmann::json object is a map sorted by its keys; the model keeps
    its members in that order.  [dump] is nlohmann::json's serialiser, which throws on text
    that is not UTF-8. *)

From Stdlib Require Import Sorted.
From S2P Require Import Prelude Text ConfigTypes ConfigRoutes.

Local Open Scope Z_scope.

(** ** JSON objects *)

(** [std::less<std::string>]: bytes are compared unsigned. *)
Fixpoint text_compare (a b : text) : comparison :=
  match a, b with
  | [], [] => Eq
  | [], _ :: _ => Lt
  | _ :: _, [] => Gt
  | x :: a, y :: b =>
      match Ascii.compare x y with
      | Eq => text_compare a b
      | c => c
      end
  end.

Definition Members : Type := list (text * JValue).

(** [object[key] = value] *)
Fixpoint object_set (key : text) (value : JValue) (m : Members) : Members :=
  match m with
  | [] => [(key, value)]
  | (k, x) :: rest =>
      match text_compare key k with
      | Lt => (key, value) :: m
      | Eq => (k, value) :: rest
      | Gt => (k, x) :: object_set key value rest
      end
  end.

Fixpoint object_find (key : text) (m : Members) : option JValue :=
  match m with
  | [] => None
  | (k, x) :: rest => if decide (k = key) then Some x else object_find key rest
  end.

(** An object given by its members, in any order. *)
Definition object_of (members : Members) : Members :=
  foldl (fun m entry => object_set entry.1 entry.2 m) [] members.

(** ** The logger *)

(** [spdlog::level::level_enum], which is ordered. *)
Definition level_enum : Type := Z.
Definition to_spdlog_level (level : LogLevel) : level_enum :=
  match level with
  | trace => 0
  | debug => 1
  | info => 2
  | warn => 3
  | error => 4
  | critical => 5
  end.

Record StructuredLogger := mkLogger {
  service_name_ : text;
  environment_ : text;
  level_ : level_enum }.          (* of [logger_], which writes to the standard output *)

Definition make_StructuredLogger (config : AppConfig) : StructuredLogger :=
  mkLogger (service_name config) (environment config) (to_spdlog_level (log_level config)).

Definition make_payload (logger : StructuredLogger) (event : text) (fields : JValue) : result JValue :=
  _ ← ensure (negb (bool_decide (event = []))) (invalid_argument "log event must not be empty");
  match fields with
  | j_null =>
      Ok (j_object (object_set (L "event") (j_string event)
                      (object_set (L "environment") (j_string (environment_ logger))
                         (object_set (L "service") (j_string (service_name_ logger)) []))))
  | j_object members =>
      Ok (j_object (object_set (L "event") (j_string event)
                      (object_set (L "environment") (j_string (environment_ logger))
                         (object_set (L "service") (j_string (service_name_ logger)) members))))
  | _ => Throw (invalid_argument "log fields must be a JSON object")
  end.

Section Logger.
Variable dump : JValue -> result text.

(** [logger_->log(level, ...)]: the line written, if any. *)
Definition write_line (threshold level : level_enum) (payload : JValue) : result (option (level_enum * text)) :=
  line ← dump payload;
  Ok (if threshold <=? level then Some (level, line) else None).

(** [info], [warn], [error] and [critical].  The payload is made whether or not it is
    written. *)
Definition log_at (level : LogLevel) (logger : StructuredLogger) (event : text) (fields : JValue)
    : result (option (level_enum * text)) :=
  payload ← make_payload logger event fields;
  write_line (level_ logger) (to_spdlog_level level) payload.

(** A clone of the logger writes the result of a check at every level. *)
Definition write_configuration_valid (logger : StructuredLogger) (fields : JValue) : result (option (level_enum * text)) :=
  payload ← make_payload logger (L "configuration_valid") fields;
  write_line (to_spdlog_level info) (to_spdlog_level info) payload.

End Logger.

(** ** Objects *)

Lemma ascii_compare_refl x : Ascii.compare x x = Eq.
Proof. apply N.compare_refl. Qed.

Lemma text_compare_eq a b : text_compare a b = Eq <-> a = b.
Proof.
  revert b. induction a as [|x a IH]; intros [|y b]; cbn; try done.
  destruct (Ascii.compare x y) eqn:E.
  - apply Ascii.compare_eq_iff in E as ->. rewrite IH. split; [by intros ->|by intros [= ->]].
  - split; [done|]. intros [= -> ->]. by rewrite ascii_compare_refl in E.
  - split; [done|]. intros [= -> ->]. by rewrite ascii_compare_refl in E.
Qed.

Lemma text_compare_antisym a b : text_compare b a = CompOpp (text_compare a b).
Proof.
  revert b. induction a as [|x a IH]; intros [|y b]; cbn; try done.
  rewrite (Ascii.compare_antisym x y), IH. by destruct (Ascii.compare y x).
Qed.

(** The keys of an object increase. *)
Definition object_sorted (m : Members) : Prop := Sorted (fun a b => text_compare a b = Lt) m.*1.

Lemma find_set key k v m :
  object_find key (object_set k v m) = if decide (k = key) then Some v else object_find key m.
Proof.
  induction m as [|[k' x] m IH]; cbn; [done|].
  destruct (text_compare k k') eqn:E; cbn.
  - apply text_compare_eq in E as <-. by destruct (decide (k = key)).
  - by destruct (decide (k = key)).
  - destruct (decide (k' = key)) as [->|Hne]; [|exact IH].
    destruct (decide (k = key)) as [->|]; [|done]. by rewrite (proj2 (text_compare_eq key key) eq_refl) in E.
Qed.

Lemma set_sorted k v m : object_sorted m -> object_sorted (object_set k v m).
Proof.
  unfold object_sorted. induction m as [|[k' x] m IH]; cbn; intros H; [by repeat constructor|].
  destruct (text_compare k k') eqn:E; cbn; [exact H|constructor; [exact H|by constructor]|].
  apply Sorted_inv in H as [H Hd]. specialize (IH H). constructor; [done|].
  assert (Hlt : text_compare k' k = Lt) by (rewrite text_compare_antisym, E; done).
  destruct m as [|[k2 x2] m]; cbn; [by constructor|]. apply HdRel_inv in Hd. by destruct (text_compare k k2); constructor.
Qed.

Lemma find_object_of key members :
  object_find key (object_of members) = object_find key (reverse members).
Proof.
  unfold object_of. enough (H : forall m, object_find key (foldl (fun m entry => object_set entry.1 entry.2 m) m members) =
    match object_find key (reverse members) with Some x => Some x | None => object_find key m end).
  { rewrite H. by destruct (object_find key (reverse members)). }
  induction members as [|[k v] rest IH]; intros m; [done|]. cbn [foldl fst snd]. rewrite IH, find_set, reverse_cons.
  clear IH. induction (reverse rest) as [|[k2 v2] l IH2]; cbn; [by destruct (decide (k = key))|].
  by destruct (decide (k2 = key)).
Qed.

Lemma object_of_sorted members : object_sorted (object_of members).
Proof.
  unfold object_of. assert (H : object_sorted []) by constructor. revert H. generalize ([] : Members) as m.
  induction members as [|[k v] rest IH]; intros m H; [done|]. by apply IH, set_sorted.
Qed.

(** ** Lines *)

(** Every log line says which service, environment and event it belongs to.  A payload is made
    exactly when the event has a name and the fields are an object or absent; the three
    names the logger sets win over fields of the same name, every other field is kept as it
    is, and the keys stay sorted.  Otherwise [std::invalid_argument] says what is wrong. *)
Theorem payload_identified logger event fields :
  let members := match fields with j_object m => m | _ => [] end in
  match make_payload logger event fields with
  | Ok payload =>
      event <> [] /\ (fields = j_null \/ is_object fields = true) /\
      exists m, payload = j_object m /\
        (forall key, object_find key m =
           if decide (key = L "event") then Some (j_string event)
           else if decide (key = L "environment") then Some (j_string (environment_ logger))
           else if decide (key = L "service") then Some (j_string (service_name_ logger))
           else object_find key members) /\
        (object_sorted members -> object_sorted m)
  | Throw e =>
      (event = [] /\ e = invalid_argument "log event must not be empty") \/
      (event <> [] /\ fields <> j_null /\ is_object fields = false /\
       e = invalid_argument "log fields must be a JSON object")
  end.
Proof.
  cbn zeta. unfold make_payload. destruct (decide (event = [])) as [->|He]; [by left|].
  rewrite bool_decide_eq_false_2 by done. cbn.
  assert (Hset : forall members : Members, exists m,
            j_object (object_set (L "event") (j_string event)
              (object_set (L "environment") (j_string (environment_ logger))
                (object_set (L "service") (j_string (service_name_ logger)) members))) = j_object m /\
        (forall key, object_find key m =
           if decide (key = L "event") then Some (j_string event)
           else if decide (key = L "environment") then Some (j_string (environment_ logger))
           else if decide (key = L "service") then Some (j_string (service_name_ logger))
           else object_find key members) /\
        (object_sorted members -> object_sorted m)).
  { intros members. eexists. split; [done|]. split.
    - intros key. rewrite !find_set. by repeat case_decide.
    - intros H. by repeat apply set_sorted. }
  destruct fields as [| | | | | | |members]; try (by right); (split; [done|]); (split; [by auto|]);
    [exact (Hset [])|exact (Hset members)].
Qed.
