(* ===== verification/Diagnostics.v ===== *)
(** * Diagnostics (the log calls of src/http_server.cpp, src/application.cpp, src/health_check.cpp)

    The helpers around the logger are [noexcept]: when making or writing a line throws, a
    fallback line goes to the standard error.  A call of the model is one call site with what
    it logs; its outcome is the line, if its level is enabled, or the fallback.  The
    events, fields and levels are those of the source; numbers of error codes are arguments. *)

From S2P Require Import Prelude Text ConfigTypes Errors Http HttpHandler Permits BufferBudget HealthState ServerState Metrics.
From S2P Require Import ConfigScalars ConfigRoutes Tls ConfigLoad Logging.

Local Open Scope Z_scope.

(** ** The fallback *)

Definition quoted (s : text) : text := "034"%char :: s ++ ["034"%char].

(** [%d] *)
Definition dec_int (code : Z) : text := if code <? 0 then L "-" ++ dec (- code) else dec code.

(** [write_fallback_diagnostic] and [write_application_fallback], what [fprintf] writes. *)
Definition fallback_line (event : string) (code : Z) : text :=
  L "{" ++ quoted (L "level") ++ L ":" ++ quoted (L "error") ++ L "," ++ quoted (L "payload") ++ L ":{" ++
  quoted (L "event") ++ L ":" ++ quoted (L event) ++ L "," ++ quoted (L "error_code") ++ L ":" ++ dec_int code ++
  L "}}" ++ ["010"%char].

(** [diagnostic] of the health checks. *)
Definition diagnostic_line (event : string) : text :=
  L "{" ++ quoted (L "level") ++ L ":" ++ quoted (L "error") ++ L "," ++ quoted (L "payload") ++ L ":{" ++
  quoted (L "event") ++ L ":" ++ quoted (L event) ++ L "}}" ++ ["010"%char].

(** ** Fields *)

(** A signed integer of nlohmann::json. *)
Definition j_integer (n : Z) : JValue := if n <? 0 then j_negative n else j_unsigned n.

Definition proxy_method_name (method : verb) : text :=
  match method with
  | get => L "GET"
  | post => L "POST"
  | put_verb => L "PUT"
  | patch => L "PATCH"
  | other_verb _ => L "UNKNOWN"
  end.

(** [method_string()]: the name of the method as it was received. *)
Definition method_string (method : verb) : text :=
  match method with
  | other_verb name => name
  | _ => proxy_method_name method
  end.

Definition route_string (route : RouteClass) : text :=
  match route with healthz => L "healthz" | readyz => L "readyz" | unmatched => L "unmatched" end.

(** ** Lines *)

(** What a helper gives the logger, and what it falls back to. *)
Record LogLine := mkLine {
  ll_level : LogLevel;
  ll_event : string;
  ll_fields : Members;
  ll_fallback : text }.

Section Calls.
Context {B : BeastHttp}.

(** Where a request is completed: refused for its key, for the body budget, answered by the
    gateway, or proxied. *)
Inductive Completed := by_authentication | by_budget | by_gateway | by_proxy.

(** The arguments of [log_request_completed] there. *)
Definition access_method (by_what : Completed) (request : HttpRequest) : text :=
  match by_what with
  | by_proxy => proxy_method_name (rq_method request)
  | _ => method_string (rq_method request)
  end.
Definition access_route (by_what : Completed) (request : HttpRequest) : text :=
  match by_what with
  | by_authentication | by_proxy => L "proxy"
  | by_budget | by_gateway => route_string (classify_http_route (rq_target request))
  end.

Definition line_request_completed (by_what : Completed) (request : HttpRequest) (status : Z) (remote_address : text) : LogLine :=
  mkLine info "http_request_completed"
    [(L "method", j_string (access_method by_what request)); (L "route", j_string (access_route by_what request));
     (L "status", j_unsigned status); (L "remote_address", j_string remote_address)]
    (fallback_line "http_request_log_failed" 0).

Definition line_proxy_failure (stage : ProxyFailureStage) (code status : Z) : LogLine :=
  mkLine warn "http_upstream_request_failed"
    [(L "stage", j_string (stage_to_string stage)); (L "error_code", j_integer code); (L "status", j_unsigned status)]
    (fallback_line "http_upstream_failure_log_failed" code).

Definition line_proxy_capacity (state : ProxyAdmissionState) (status : Z) : LogLine :=
  mkLine warn "http_proxy_rejected_capacity"
    [(L "active_proxies", j_unsigned (active_proxies_ state)); (L "max_proxies", j_unsigned (max_proxies_ state));
     (L "status", j_unsigned status)]
    (fallback_line "http_proxy_capacity_log_failed" 0).

Definition line_buffer_budget (response : bool) (requested_bytes : Z) (budget : BufferBudgetControl) (status : Z) : LogLine :=
  mkLine warn "http_buffer_budget_rejected"
    [(L "direction", j_string (if response then L "response" else L "request"));
     (L "requested_bytes", j_unsigned requested_bytes); (L "active_bytes", j_unsigned (current_bytes budget));
     (L "max_bytes", j_unsigned (max_bytes budget)); (L "status", j_unsigned status)]
    (fallback_line "http_buffer_budget_log_failed" 0).

Definition line_tls_failure (event : string) (e : error_code) : LogLine :=
  mkLine warn event [(L "reason", j_string (if error_is e beast_timeout then L "timeout" else L "transport"))]
    (fallback_line "http_tls_log_failed" 0).

Definition line_response_write_failed (code : Z) : LogLine :=
  mkLine error "http_response_write_failed" [(L "error_code", j_integer code)]
    (fallback_line "http_response_write_log_failed" code).

Definition line_accept_capacity (resumed : bool) (state : AcceptCapacityState) : LogLine :=
  mkLine info (if resumed then "http_accept_resumed_capacity" else "http_accept_paused_capacity")
    [(L "active_connections", j_unsigned (active_connections_ state)); (L "max_connections", j_unsigned (max_connections_ state))]
    (fallback_line "http_accept_capacity_log_failed" 0).

Definition line_force_requested (signal_number : Z) (state : DrainState) : LogLine :=
  mkLine info "shutdown_force_requested"
    [(L "signal", j_integer signal_number); (L "active_sessions", j_unsigned (active_sessions_ state))]
    (fallback_line "shutdown_force_log_failed" 0).

Definition line_drain_started (state : DrainState) (config : AppConfig) : LogLine :=
  mkLine info "shutdown_drain_started"
    [(L "active_sessions", j_unsigned (active_sessions_ state)); (L "grace_ms", j_unsigned (shutdown_grace_ms config))]
    (fallback_line "shutdown_drain_start_log_failed" 0).

Definition line_listener_stopped (state : DrainState) : LogLine :=
  mkLine info "http_listener_stopped" [(L "active_sessions", j_unsigned (active_sessions_ state))]
    (fallback_line "http_listener_stop_log_failed" 0).

Definition line_drain_timed_out (forced_sessions : Z) : LogLine :=
  mkLine info "shutdown_drain_timed_out" [(L "forced_sessions", j_unsigned forced_sessions)]
    (fallback_line "shutdown_drain_timeout_log_failed" 0).

Definition line_drain_completed : LogLine :=
  mkLine info "shutdown_drain_completed" [(L "active_sessions", j_integer 0)]
    (fallback_line "shutdown_drain_complete_log_failed" 0).

Definition line_runtime_failure (event : string) (code : Z) : LogLine :=
  mkLine critical event [(L "error_code", j_integer code)] (fallback_line "http_runtime_failure_log_failed" code).

(** [safe_info] and [safe_critical] of the application. *)
Definition application_info (event : string) (fields : Members) : LogLine :=
  mkLine info event fields (fallback_line "application_info_log_failed" 0).
Definition application_critical (event : string) (code : Z) : LogLine :=
  mkLine critical event [(L "error_code", j_integer code)] (fallback_line "application_critical_log_failed" code).

Definition line_service_started (config : AppConfig) (bound_port : Z) : LogLine :=
  application_info "service_started"
    [(L "listen_address", j_string (listen_address config)); (L "listen_port", j_unsigned bound_port)].
Definition line_service_stopped (exit_code handlers_executed : Z) : LogLine :=
  application_info "service_stopped"
    [(L "exit_code", j_integer exit_code); (L "handlers_executed", j_unsigned handlers_executed)].
Definition line_signal_received (signal_number : Z) : LogLine :=
  application_info "shutdown_signal_received" [(L "signal", j_integer signal_number)].

Definition line_transition (route upstream : nat) (transition : HealthTransition) (reason : string) : LogLine :=
  mkLine info
    match transition with
    | transition_unhealthy => "http_upstream_marked_unhealthy"
    | _ => "http_upstream_marked_healthy"
    end
    [(L "route_index", j_unsigned (Z.of_nat route)); (L "upstream_index", j_unsigned (Z.of_nat upstream));
     (L "reason", j_string (L reason))]
    (diagnostic_line "http_health_check_transition_log_failed").

(** ** Calls *)

(** The call sites whose line is guarded, with the texts they are given. *)
Inductive LogCall :=
  | log_request_completed (by_what : Completed) (request : HttpRequest) (status : Z) (remote_address : text)
  | log_proxy_failure (stage : ProxyFailureStage) (code status : Z)
  | log_proxy_capacity_rejection (state : ProxyAdmissionState) (status : Z)
  | log_buffer_budget_rejection (response : bool) (requested_bytes : Z) (budget : BufferBudgetControl) (status : Z)
  | log_tls_failure (event : string) (e : error_code)
  | log_response_write_failed (code : Z)
  | log_accept_capacity (resumed : bool) (state : AcceptCapacityState)
  | log_force_requested (signal_number : Z) (state : DrainState)
  | log_drain_started (state : DrainState) (config : AppConfig)
  | log_listener_stopped (state : DrainState)
  | log_drain_timed_out (forced_sessions : Z)
  | log_drain_completed
  | log_runtime_failure (event : string) (code : Z)
  | log_service_started (config : AppConfig) (bound_port : Z)
  | log_service_stopped (exit_code handlers_executed : Z)
  | log_signal_received (signal_number : Z)
  | log_application_critical (event : string) (code : Z)
  | log_transition (route upstream : nat) (transition : HealthTransition) (reason : string).

Definition call_line (call : LogCall) : LogLine :=
  match call with
  | log_request_completed by_what request status remote_address => line_request_completed by_what request status remote_address
  | log_proxy_failure stage code status => line_proxy_failure stage code status
  | log_proxy_capacity_rejection state status => line_proxy_capacity state status
  | log_buffer_budget_rejection response bytes budget status => line_buffer_budget response bytes budget status
  | log_tls_failure event e => line_tls_failure event e
  | log_response_write_failed code => line_response_write_failed code
  | log_accept_capacity resumed state => line_accept_capacity resumed state
  | log_force_requested signal_number state => line_force_requested signal_number state
  | log_drain_started state config => line_drain_started state config
  | log_listener_stopped state => line_listener_stopped state
  | log_drain_timed_out forced_sessions => line_drain_timed_out forced_sessions
  | log_drain_completed => line_drain_completed
  | log_runtime_failure event code => line_runtime_failure event code
  | log_service_started config bound_port => line_service_started config bound_port
  | log_service_stopped exit_code handlers_executed => line_service_stopped exit_code handlers_executed
  | log_signal_received signal_number => line_signal_received signal_number
  | log_application_critical event code => application_critical event code
  | log_transition route upstream transition reason => line_transition route upstream transition reason
  end.

(** What a call writes: a line of the logger, or the fallback. *)
Inductive Written := written (line : option (level_enum * text)) | fallen_back (line : text).

(** The helpers catch every exception. *)
Definition log_call (dump : JValue -> result text) (logger : StructuredLogger) (call : LogCall) : Written :=
  let line := call_line call in
  match log_at dump (ll_level line) logger (L (ll_event line)) (j_object (object_of (ll_fields line))) with
  | Ok line => written line
  | Throw _ => fallen_back (ll_fallback line)
  end.

(** ** What a line may hold *)

(** ASCII text can always be serialised. *)
Definition ascii_text (t : text) : Prop := Forall (fun c => (char_code c < 128)%N) t.
Definition plain_value (v : JValue) : Prop :=
  match v with
  | j_string s => ascii_text s
  | j_unsigned _ | j_negative _ => True
  | _ => False
  end.
Definition plain_members (m : Members) : Prop := Forall (fun entry => ascii_text entry.1 /\ plain_value entry.2) m.

Definition ascii_string (s : string) : bool := forallb (fun c => (char_code c <? 128)%N) (L s).

Lemma ascii_literal s : ascii_string s = true -> ascii_text (L s).
Proof. intros H. apply forallb_Forall in H. eapply Forall_impl; [exact H|]. intros c. apply N.ltb_lt. Qed.

Lemma label_ascii t : label_ok t -> ascii_text t.
Proof.
  intros [_ H]. eapply Forall_impl; [exact H|]. intros c. destruct c as [[] [] [] [] [] [] [] []]; by vm_compute.
Qed.

Lemma set_plain key value m : ascii_text key -> plain_value value -> plain_members m -> plain_members (object_set key value m).
Proof.
  intros Hk Hv. induction 1 as [|[k x] m [Hkx Hx] Hm IH]; cbn; [by repeat constructor|].
  destruct (text_compare key k); by repeat constructor.
Qed.

Lemma object_plain members : plain_members members -> plain_members (object_of members).
Proof.
  intros H. unfold object_of. assert (H0 : plain_members []) by constructor. revert H0. generalize ([] : Members).
  induction H as [|[k v] l [Hk Hv] _ IH]; intros m Hm; [done|]. by apply IH, set_plain.
Qed.

(** The texts a call is given: the method is a token, an address is as it is printed. *)
Definition call_plain (call : LogCall) : Prop :=
  match call with
  | log_request_completed _ request _ remote_address => ascii_text (method_string (rq_method request)) /\ ascii_text remote_address
  | log_tls_failure event _ | log_runtime_failure event _ | log_application_critical event _ =>
      event <> EmptyString /\ ascii_string event = true
  | log_service_started config _ => ascii_text (listen_address config)
  | log_transition _ _ _ reason => ascii_string reason = true
  | _ => True
  end.

Lemma integer_plain n : plain_value (j_integer n).
Proof. unfold j_integer. by destruct (n <? 0). Qed.

Lemma method_plain by_what request : ascii_text (method_string (rq_method request)) -> ascii_text (access_method by_what request).
Proof. intros H. unfold access_method. destruct by_what; try done. by destruct (rq_method request); apply ascii_literal. Qed.
Lemma route_plain by_what request : ascii_text (access_route by_what request).
Proof. unfold access_route. destruct by_what; try by apply ascii_literal. all: by destruct (classify_http_route _); apply ascii_literal. Qed.

Lemma fields_plain call : call_plain call -> plain_members (ll_fields (call_line call)).
Proof.
  intros H.
  destruct call as [by_what request status remote|stage code status|state status|response bytes budget status|event e|code
    |resumed state|signal state|state grace|state|forced| |event code|address port|exit executed|signal|event code
    |route up transition reason]; cbn in *.
  all: repeat (apply Forall_cons; split; [split; [by apply ascii_literal|]|]); try apply Forall_nil_2; cbn; try done;
    try apply integer_plain; try by (apply ascii_literal; done).
  - apply method_plain, H.
  - by apply route_plain.
  - apply H.
  - by destruct stage; apply ascii_literal.
  - by destruct response; apply ascii_literal.
  - by destruct (error_is e beast_timeout); apply ascii_literal.
Qed.

Lemma event_named call : call_plain call -> L (ll_event (call_line call)) <> [] /\ ascii_text (L (ll_event (call_line call))).
Proof.
  assert (Hne : forall s : string, s <> EmptyString -> L s <> []) by (by intros []).
  intros H. destruct call; cbn [call_line line_accept_capacity line_transition ll_event]; try destruct resumed; try destruct transition.
  all: first [split; [by apply Hne|by apply ascii_literal]|split; [apply Hne, H|apply ascii_literal, H]].
Qed.

(** C40: no line is lost for what it says.  With the labels of a loaded configuration and
    texts in ASCII, the names of methods and addresses, every call of the program writes
    the line of its level, and never the fallback; the line says its service, environment and
    event and has the other fields of the call.  The line of a completed request depends
    on the request through its method and the class of its route only, a proxied one only
    through which of five methods it is: no path, header, key or body is ever logged. *)
Theorem log_calls_written dump logger call :
  label_ok (service_name_ logger) -> label_ok (environment_ logger) ->
  (forall m, plain_members m -> is_ok (dump (j_object m)) = true) -> call_plain call ->
  (exists m line, dump (j_object m) = Ok line /\
     (forall key, object_find key m =
        if decide (key = L "event") then Some (j_string (L (ll_event (call_line call))))
        else if decide (key = L "environment") then Some (j_string (environment_ logger))
        else if decide (key = L "service") then Some (j_string (service_name_ logger))
        else object_find key (reverse (ll_fields (call_line call)))) /\
     log_call dump logger call =
       written (if level_ logger <=? to_spdlog_level (ll_level (call_line call)) then Some (to_spdlog_level (ll_level (call_line call)), line) else None)) /\
  forall by_what request request' status remote, call = log_request_completed by_what request status remote ->
    match by_what with
    | by_proxy => proxy_method_name (rq_method request) = proxy_method_name (rq_method request')
    | _ => rq_method request = rq_method request' /\ classify_http_route (rq_target request) = classify_http_route (rq_target request')
    end ->
    log_call dump logger (log_request_completed by_what request' status remote) = log_call dump logger call.
Proof.
  intros Hs He Hd Hc. split.
  - destruct (event_named call Hc) as [Hne Hev]. unfold log_call, log_at, make_payload.
    rewrite bool_decide_eq_false_2 by done. cbn [negb ensure mbind result_bind].
    match goal with |- context [dump (j_object ?x)] => set (m := x) | |- context [write_line dump _ _ (j_object ?x)] => set (m := x) end.
    assert (Hm : plain_members m).
    { unfold m. apply set_plain; [by apply ascii_literal|done|]. apply set_plain; [by apply ascii_literal|by apply label_ascii|].
      apply set_plain; [by apply ascii_literal|by apply label_ascii|]. by apply object_plain, fields_plain. }
    specialize (Hd m Hm). destruct (dump (j_object m)) as [line|e] eqn:E; [|done]. exists m, line. split; [exact E|]. split.
    + intros key. unfold m. rewrite !find_set, find_object_of. repeat case_decide; congruence.
    + unfold write_line. rewrite E. reflexivity.
  - intros by_what request request' status remote -> H. unfold log_call. cbn [call_line]. unfold line_request_completed.
    assert (E : access_method by_what request' = access_method by_what request /\ access_route by_what request' = access_route by_what request).
    { unfold access_method, access_route. destruct by_what; cbn in H; [destruct H as [E1 E2]; by rewrite E1, ?E2..|by rewrite H]. }
    destruct E as [-> ->]. reflexivity.
Qed.

End Calls.

(** ** A concrete line *)

Definition sample_logger : StructuredLogger := mkLogger (L "gate") (L "test") 2.
Definition sample_call : LogCall (B := list_beast) :=
  log_request_completed by_proxy (mkRequest (other_verb (L "BREW")) (L "/a?key=secret") 11 no_fields []) 405 (L "127.0.0.1").

Lemma log_calls_written_witness :
  log_call (fun _ => Ok (L "{}")) sample_logger sample_call = written (Some (2, L "{}")) /\
  ll_fields (call_line sample_call) = [(L "method", j_string (L "UNKNOWN")); (L "route", j_string (L "proxy"));
                             (L "status", j_unsigned 405); (L "remote_address", j_string (L "127.0.0.1"))].
Proof.
  split; [|reflexivity].
  destruct (log_calls_written (B := list_beast) (fun _ => Ok (L "{}")) sample_logger sample_call) as [(m & line & [= <-] & _ & H) _].
  - split; [vm_compute; lia|by apply forallb_Forall].
  - split; [vm_compute; lia|by apply forallb_Forall].
  - done.
  - by split; apply ascii_literal.
  - exact H.
Defined.
