(* ===== verification/Gateway.v ===== *)
(** * The gateway (src/http_server.cpp, the constructor of [HttpServer::Impl])

    The parts are put together: the sessions are those of [Session], the state they share
    is what the constructor makes of the configuration, and the server is run by the
    application.  What a session promises about the shared capacities is discharged here
    ([SessionLedger]), so that the accounts of [ServerLedger] are those of the real server:
    at every moment the body budget and the proxy slots are held by the sessions there are,
    and none is lost when the last one is gone. *)

From Stdlib Require Import Floats.SpecFloat.
From S2P Require Import Prelude Text ConfigTypes Errors Http RateLimit Permits BufferBudget HealthState.
From S2P Require Import UpstreamPool ApiKeyAuth HttpHandler Admission ProxyMessage HealthCheck.
From S2P Require Import ServerState Server Metrics Handlers Exchange ExchangeKeeps Session SessionWalk SessionInvariant.
From S2P Require Import SessionLedger SessionTheorems ServerPhases ServerLedger Application.
From S2P Require Import ConfigScalars ConfigRoutes Tls ConfigLoad.

Local Open Scope Z_scope.

(** ** Putting the parts together *)

Section Gateway.
Context {B : BeastHttp} {BL : BeastLaws B}.
Variable dump : Json -> text.
Variable evp_digest : text -> option ApiKeyDigest.
Variable double_chars : spec_float -> option text.
Variable config : AppConfig.

#[local] Instance gate_sessions : SessionInterface := http_sessions dump evp_digest double_chars config.

(** The shared members, in the order of their initialisers, with the health state that the
    admission makes. *)
Definition make_gate (now : Z) : result (GateShared * UpstreamHealthState) :=
  let proxies := [make_ProxyAdmissionState (max_concurrent_proxies config)] in
  let '(heap, budget) := make_BufferBudgetState [] (max_in_flight_bytes config) in
  admission ← make_RouteProxyAdmission (routes config) (Some 0%nat) now;
  let metrics := if metrics_enabled config then Some make_Metrics else None in
  let pool := if upstream_keep_alive config then Some make_UpstreamPool else None in
  Ok (mkGate pool heap budget proxies admission.1 metrics, admission.2).

(** The constructor; the arguments tell whether the callbacks are set.  The clock is read
    for the buckets and again for the probes. *)
Definition make_HttpServer (on_runtime_failure on_drain_complete : bool) (now checks_now : Z) : result Server :=
  match make_gate now with
  | Throw e => Throw e
  | Ok (shared, health) =>
      if negb on_runtime_failure then Throw (invalid_argument "runtime failure callback must not be empty")
      else if negb on_drain_complete then Throw (invalid_argument "drain completion callback must not be empty")
      else
        match make_HealthChecks config (Some health) checks_now with
        | Throw e => Throw e
        | Ok checks => Ok (make_Server config shared checks)
        end
  end.

(** ** The interface of the accounts *)

Inductive Capacity := body_bytes | proxy_slots.

#[local] Instance gate_holdings : SessionHoldings gate_sessions := {|
  Resource := Capacity;
  holds r s := match r with body_bytes => held_bytes s | proxy_slots => held_slots s end;
  level_at r w n :=
    match r with
    | body_bytes => bytes_at 0 (max_in_flight_bytes config) w n
    | proxy_slots => slots_at 0 (max_concurrent_proxies config) w n
    end;
  holdings_ok := tidy 0 0 [];
  shared_sound := shared_ok 0 0 |}.

Abbreviation accounts rest :=
  (ledger 0 (max_in_flight_bytes config) 0 (max_concurrent_proxies config) (rest body_bytes) (rest proxy_slots) []).

Lemma balance_ledger (rest : Capacity -> Z) (w : GateShared) (s : Session) :
  balance rest w s <-> accounts rest (share w s).
Proof.
  unfold balance, ledger, balanced. cbn. split.
  - intros (Hw & Ht & Hl). pose proof (Hl body_bytes) as H1. pose proof (Hl proxy_slots) as H2. cbn in H1, H2.
    split; [done|]. split; [by destruct Ht|]. split; [done|]. rewrite !Z.add_0_r. by split.
  - intros (Hw & Ht & _ & H1 & H2). rewrite Z.add_0_r in H1, H2. split; [done|]. split; [by destruct Ht|].
    by intros [].
Qed.

(** What keeps the ledger keeps the balance. *)
Lemma ledger_balances w s s' :
  (forall rest : Capacity -> Z, (forall r, 0 <= rest r) -> accounts rest (share w s) -> accounts rest s') ->
  balances w s (se_shared s') s'.
Proof.
  intros H rest Hr Hb. apply balance_ledger. specialize (H rest Hr (proj1 (balance_ledger rest w s) Hb)).
  destruct H as (H1 & [T1 T2 T3 T4 T5] & H2). by split; [|split].
Qed.

Lemma keeps_fst {A} (P : Session -> Prop) (m : M Session A) s : Handlers.keeps P m -> P s -> P (m s).1.
Proof. intros Hm H. specialize (Hm s H). unfold wp in Hm. by destruct (m s) as [s' [a|e]]. Qed.

#[local] Instance gate_laws : HoldingLaws gate_sessions gate_holdings.
Proof.
  split.
  - intros [] s H; cbn in *; [by eapply held_bytes_nonneg|]. unfold held_slots. by destruct (px_permit _).
  - intros s [shared [= <-]]. split; [constructor; try done; apply lent_empty_permit|by intros []].
  - intros w v shared s. cbn. destruct (se_start _ _) as [s' r] eqn:E. cbn. apply ledger_balances. intros rest Hr H.
    pose proof (keeps_fst _ _ _ (keep_start dump config [] (with_view v w)
      (walk := ledger_walk dump config 0 _ 0 _ _ _ (Hr body_bytes) (Hr proxy_slots))) H) as Hk.
    by rewrite E in Hk.
  - intros v shared s. cbn. apply ledger_balances. intros rest Hr H. revert H. apply run_keeps.
    apply (keep_begin_drain dump config []
      (walk := ledger_walk dump config 0 _ 0 _ _ _ (Hr body_bytes) (Hr proxy_slots))).
  - intros v shared s. cbn. apply ledger_balances. intros rest Hr H. revert H. apply run_keeps.
    apply (keep_stop dump config []
      (walk := ledger_walk dump config 0 _ 0 _ _ _ (Hr body_bytes) (Hr proxy_slots))).
  - intros v shared s outcome (w & event & Hen & ->). apply ledger_balances. intros rest Hr H.
    apply (keep_step_event dump evp_digest double_chars config []
      (walk := ledger_walk dump config 0 _ 0 _ _ _ (Hr body_bytes) (Hr proxy_slots))); [|done].
    intros _. by apply se_enabled_counted.
  - intros w s rest Hok Hl Hr Hb. apply balance_ledger in Hb.
    destruct Hok as (_ & Hf & Hsound). cbn in Hf. destruct Hsound as [[[[Ha _] _]|(_ & _ & [Hi _] & _)]|([[Ha _] _] & _)];
      [congruence| |congruence].
    assert (Ho : px_orphans (se_proxy s) = []).
    { cbn in Hl. unfold handlers_left in Hl. by destruct (px_orphans (se_proxy s)); [|cbn in Hl; lia]. }
    destruct (ledger_destroy _ _ _ _ _ _ (Hr body_bytes) (Hr proxy_slots) (share w s) Hb Hi Ho) as (H1 & H2 & H3).
    split; [exact H1|]. by intros [].
  - intros w Hw. split; [exact Hw|]. by intros [] n H.
Qed.

(** ** The accounts of a running gateway *)

Context (connections : 0 < max_connections config < 2 ^ 64).
Context (proxies : in_u64 (max_concurrent_proxies config)) (bytes : in_u64 (max_in_flight_bytes config)).

Lemma make_gate_sound now shared health :
  make_gate now = Ok (shared, health) ->
  shared_sound (shared : Shared) /\ (forall r, level_at r shared 0) /\ health = make_UpstreamHealthState (routes config).
Proof.
  unfold make_gate, make_RouteProxyAdmission. cbn. destruct (make_RouteRateLimits _ _) as [limits|e]; [|done]. cbn.
  intros [= <- <-]. split; [done|]. split; [|done]. unfold in_u64 in *. intros [].
  - exists (mkControl (max_in_flight_bytes config) 0). cbn. unfold in_u64. split_and!; try done; lia.
  - exists (make_ProxyAdmissionState (max_concurrent_proxies config)). cbn. unfold in_u64. split_and!; try done; lia.
Qed.

(** What the constructor makes is what reachability starts from, with nothing borrowed. *)
Lemma make_HttpServer_made failure drain now checks_now server :
  make_HttpServer failure drain now checks_now = Ok server ->
  conserved server /\ exists shared checks, server = make_Server config shared checks /\
    make_HealthChecks config (Some (make_UpstreamHealthState (routes config))) checks_now = Ok checks.
Proof.
  unfold make_HttpServer. destruct (make_gate now) as [[shared health]|e] eqn:E; [|done].
  apply make_gate_sound in E as (Hs & Hl & ->). destruct failure, drain; try done. cbn [negb].
  destruct (make_HealthChecks _ _ _) as [checks|e] eqn:Ec; [|done]. intros [= <-].
  split; [by apply made_conserved|]. by exists shared, checks.
Qed.

(** The sessions with an exchange in progress. *)
Definition exchanging (s : Session) : Z := match px_slot (se_proxy s) with Some _ => 1 | None => 0 end.

Lemma live_slots server :
  server_reachable config server ->
  live_holds proxy_slots server = map_sum exchanging (sv_sessions server) /\ departed_holds proxy_slots server = 0.
Proof.
  intros H. destruct (server_reachable_ok config connections server H) as (((Hi & _) & _) & _).
  destruct (inv_all_sessions config server Hi) as [Hlive Hdep]. split.
  - apply map_sum_ext. intros id s E. destruct (Hlive id s E) as (_ & _ & Hf & Hs).
    destruct (sound_facts dump s Hs Hf) as (_ & _ & Hp). unfold exchanging. cbn. unfold held_slots.
    destruct (px_slot (se_proxy s)), (px_permit (se_proxy s)); try done; by destruct Hp as [H1 H2]; (discriminate (H1 eq_refl) || discriminate (H2 eq_refl)).
  - apply map_sum_zero. intros id s E. destruct (Hdep id s E) as (_ & (_ & Hf & Hs) & _).
    cbn. unfold held_slots. cbn in Hf. by destruct Hs as [[[[Ha _] _]|(_ & _ & [_ ->] & _)]|([[Ha _] _] & _)]; [congruence| |congruence].
Qed.

(** C2: the accounts of the gateway.  In every state a server can reach from its constructor,
    however connections, requests, upstream completions, failures and shutdowns interleave,
    the bytes reserved in the shared budget are exactly those held by the sessions that
    live and the ones kept by their last handlers, the proxy slots taken are exactly the live
    sessions with an exchange in progress, both are within their limits, and when no
    session is left both are zero. *)
Theorem gateway_accounts failure drain now checks_now (server0 server : Server) :
  make_HttpServer failure drain now checks_now = Ok server0 -> server_runs server0 server ->
  let w : GateShared := sv_shared server in
  let reserved := map_sum held_bytes (sv_sessions server) + map_sum held_bytes (sv_departed server) in
  let in_progress := map_sum exchanging (sv_sessions server) in
  budget_current_bytes (sh_heap w) (sh_budget w) = Some reserved /\ 0 <= reserved <= max_in_flight_bytes config /\
  active_proxies_ <$> (sh_proxies w !! 0%nat) = Some in_progress /\ in_progress <= max_concurrent_proxies config /\
  (sv_sessions server = ∅ -> in_progress = 0 /\ (sv_departed server = ∅ -> reserved = 0)).
Proof.
  intros E Hr. cbn zeta. destruct (make_HttpServer_made _ _ _ _ _ E) as (Hc & shared & checks & -> & Ec).
  pose proof (server_make config checks_now shared checks Ec) as H0.
  pose proof (runs_conserved config connections _ _ H0 Hc Hr) as [[Eb _] _ _ Hl].
  pose proof (Hl body_bytes) as (k & Hk & Hlev & _ & Hrange & _). pose proof (Hl proxy_slots) as (p & Hp & Hplev & _ & Hprange & _).
  cbn [level_at holds gate_holdings] in *. clear Hl. rewrite Eb. unfold budget_current_bytes.
  destruct (live_slots server (server_runs_reachable config _ _ H0 Hr)) as [E1 E2]. rewrite E1, E2, Z.add_0_r in Hplev, Hprange.
  unfold live_holds, departed_holds in Hlev, Hrange. cbn in Hlev, Hplev.
  rewrite Hk, Hp. split; [by apply (f_equal Some)|]. split; [exact Hrange|]. split; [by apply (f_equal Some)|]. split; [apply Hprange|].
  intros ->. rewrite !map_sum_empty. split; [done|]. intros ->. by rewrite map_sum_empty.
Qed.

(** When the service returns a success, everything was given back. *)
Lemma returned_accounts system_error failure drain now checks_now (server0 : Server) (s : Application) :
  make_HttpServer failure drain now checks_now = Ok server0 ->
  ap_runs system_error (make_Application server0) s -> ap_run s = run_returned (Ok EXIT_SUCCESS) ->
  let w : GateShared := sv_shared (ap_server s) in
  budget_current_bytes (sh_heap w) (sh_budget w) = Some 0 /\ active_proxies_ <$> (sh_proxies w !! 0%nat) = Some 0.
Proof.
  intros E Hr Hret. destruct (make_HttpServer_made _ _ _ _ _ E) as (Hc & shared & checks & -> & Ec).
  pose proof (ap_make system_error config checks_now shared checks Ec) as H0.
  destruct (returned_departed config connections system_error s (ap_runs_reachable config system_error _ _ H0 Hr) Hret) as [Hs Hd].
  destruct (ap_runs_server config connections system_error _ _ H0 Hr) as [Hr'|[(r & E' & Hf & _) _]].
  2: { exfalso. rewrite Hret in E'. injection E' as <-. by destruct Hf as [|(? & ? & _)]. }
  clear Hr. rename Hr' into Hr. cbn [ap_server make_Application] in Hr.
  pose proof (server_make config checks_now shared checks Ec) as Hm.
  pose proof (runs_conserved config connections _ _ Hm Hc Hr) as [[Eb _] _ _ Hl]. cbn zeta. rewrite Eb.
  pose proof (Hl body_bytes) as Hb. pose proof (Hl proxy_slots) as Hp. unfold live_holds, departed_holds in Hb, Hp.
  rewrite Hs, Hd, !map_sum_empty in Hb, Hp. split; [exact (account_level _ _ _ _ Hb)|exact (account_level _ _ _ _ Hp)].
Qed.

End Gateway.

(** ** A configuration that was loaded *)

Lemma make_buckets_ok (rs : list RouteConfig) now :
  Forall (fun r => forall c, rate_limit r = Some c -> rate_limit_valid c) rs -> is_ok (make_buckets rs now) = true.
Proof.
  induction 1 as [|r rs Hr _ IH]; [done|]. cbn [make_buckets]. destruct (rate_limit r) as [c|] eqn:Ec; cbn.
  - destruct (Hr c eq_refl) as [H1 H2]. unfold make_TokenBucket.
    rewrite !(proj2 (Z.eqb_neq _ _)), !(proj2 (Z.ltb_ge _ _)) by lia. cbn. by destruct (make_buckets rs now).
  - by destruct (make_buckets rs now).
Qed.

Lemma intervals_made intervals now : Forall (fun i => 100 <= i <= 60000) intervals -> is_ok (make_slots intervals now) = true.
Proof.
  induction 1 as [|i l Hi _ IH]; [done|]. cbn [make_slots]. rewrite !(proj2 (Z.ltb_ge _ _)) by lia. cbn. by destruct (make_slots l now).
Qed.

Lemma targets_ok make_address evp_digest environment (rs : list RouteConfig) :
  Forall (route_valid make_address evp_digest environment) rs ->
  Forall (fun t => 100 <= hc_interval_ms (tg_health t) <= 60000) (all_targets rs).
Proof.
  intros H. unfold all_targets. apply Forall_concat, Forall_lookup. intros i l Hl.
  rewrite list_lookup_imap in Hl. destruct (rs !! i) as [r|] eqn:Er; [|done]. injection Hl as <-.
  unfold route_targets. destruct (health_check r) as [c|] eqn:Ec; [|done]. apply Forall_lookup. intros j t Ht.
  rewrite list_lookup_imap in Ht. destruct (upstreams r !! j); [|done]. injection Ht as <-.
  rewrite Forall_lookup in H. destruct (H i r Er) as (_ & _ & _ & _ & Hc & _). by apply (Hc c Ec).
Qed.

(** A valid configuration makes a gateway, unless a callback is missing. *)
Lemma gateway_made `{BeastHttp} dump evp_digest double_chars make_address environment config store
    failure drain now checks_now :
  config_valid make_address evp_digest environment config store ->
  match make_HttpServer dump evp_digest double_chars config failure drain now checks_now with
  | Ok _ => failure = true /\ drain = true
  | Throw e => (failure = false \/ drain = false) /\ exists what, e = invalid_argument what
  end.
Proof.
  intros (_ & Hroutes & _).
  assert (Hr : Forall (route_valid make_address evp_digest environment) (routes config))
    by (destruct Hroutes as [->|[[_ [_ Hr]] _]]; [constructor|exact Hr]).
  assert (Hb : is_ok (make_buckets (routes config) now) = true).
  { apply make_buckets_ok. eapply Forall_impl; [exact Hr|]. intros r Hv. apply Hv. }
  unfold make_HttpServer, make_gate, make_RouteProxyAdmission, make_RouteRateLimits. cbn.
  destruct (make_buckets _ _) as [buckets|e]; [|done]. cbn. destruct failure; [|cbn; eauto]. destruct drain; [|cbn; eauto]. cbn.
  unfold make_ProbeSchedule. pose proof (targets_ok _ _ _ _ Hr) as Ht.
  assert (Hs : is_ok (make_slots ((fun t => hc_interval_ms (tg_health t)) <$> all_targets (routes config)) checks_now) = true)
    by (apply intervals_made, Forall_fmap; exact Ht).
  by destruct (make_slots _ _).
Qed.

(** C1: the service, from its configuration to its end.  A configuration that was loaded
    always makes a server, whose only other requirement is its two callbacks; and however
    the application then runs it, when [run] returns [EXIT_SUCCESS] every byte of the
    body budget and every proxy slot has been given back. *)
Theorem service_gives_back `{BL : BeastLaws} `{W : TlsWorld} dump evp_digest double_chars make_address json_events
    json_document environment config store failure drain now checks_now :
  (forall value document, json_document value = Some document -> well_numbered document) ->
  load_config_from_environment make_address evp_digest json_events json_document environment = Ok (config, store) ->
  match make_HttpServer dump evp_digest double_chars config failure drain now checks_now with
  | Ok server0 =>
      failure = true /\ drain = true /\
      forall system_error s, ap_runs system_error (make_Application server0) s -> ap_run s = run_returned (Ok EXIT_SUCCESS) ->
        let w : GateShared := sv_shared (ap_server s) in
        budget_current_bytes (sh_heap w) (sh_budget w) = Some 0 /\ active_proxies_ <$> (sh_proxies w !! 0%nat) = Some 0
  | Throw e => (failure = false \/ drain = false) /\ exists what, e = invalid_argument what
  end.
Proof.
  intros Hw E. pose proof (load_config_yields make_address evp_digest json_events json_document environment Hw) as Hy.
  rewrite E in Hy. cbn in Hy. pose proof Hy as ((_ & _ & _ & _ & Hc & Hp & Hb & _) & _).
  pose proof (gateway_made dump evp_digest double_chars _ _ _ _ failure drain now checks_now Hy) as Hm.
  pose proof (returned_accounts dump evp_digest double_chars config ltac:(lia) ltac:(unfold in_u64; lia) ltac:(unfold in_u64; lia)) as Hr.
  destruct (make_HttpServer _ _ _ _ _ _ _ _) as [server0|e] eqn:Em; [|exact Hm]. destruct Hm as [Hf Hd].
  split; [exact Hf|]. split; [exact Hd|]. intros system_error s. by apply (Hr system_error _ _ _ _ _ s Em).
Qed.

(** ** A concrete gateway *)

#[local] Instance sample_sessions : SessionInterface :=
  http_sessions sample_dump (fun _ => None) (fun _ => None) sample_gateway.

Definition sample_made : result Server :=
  make_HttpServer sample_dump (fun _ => None) (fun _ => None) sample_gateway true true 0 0.
Definition sample_server : Server :=
  match sample_made with
  | Ok server => server
  | Throw _ => make_Server sample_gateway (sample_shared : Shared) HealthCheck.sample_initial
  end.

Definition sample_next (event : ServerEvent) (s : Server) : Server := default s (server_step s event).

(** One connection, whose request has a body of ten bytes. *)
Definition sample_accepts : ServerEvent :=
  sv_accepted Server.sample_world no_error (Ok (make_session sample_gateway sample_free : Server.Session))
    (sample_se_world : SessionWorld).
Definition sample_post (read : bool) : Incoming :=
  mkIncoming (mkRequest post (L "/a") 11 [(L "Host", L "h")] (if read then L "0123456789" else [])) (Some 10) read.

(** The handler of its session. *)
Definition sample_handled (event : SeEvent) (s : Server) : ServerEvent :=
  let session := default (make_session sample_gateway sample_free : Server.Session) (sv_sessions s !! 0%nat) in
  let shared := share (sv_shared s) session in
  sv_session Server.sample_world 0
    (outcome_of session (se_step sample_dump (fun _ => None) (fun _ => None) sample_gateway
       (with_view (view_of s) sample_se_world) event shared)).

Definition sample_open : Server :=
  sample_next sample_accepts (sample_next (sv_start_call Server.sample_world listening (Ok tt)) sample_server).
Definition sample_reserving : Server :=
  sample_next (sample_handled (se_header no_error (sample_post false)) sample_open) sample_open.
Definition sample_proxying : Server :=
  sample_next (sample_handled (se_body no_error (sample_post true)) sample_reserving) sample_reserving.

Definition sample_steps (event : ServerEvent) (s : Server) : bool :=
  match server_step s event with Some _ => true | None => false end.

Lemma sample_server_run event s :
  server_runs sample_server s -> server_enabled s event -> sample_steps event s = true -> server_runs sample_server (sample_next event s).
Proof.
  intros Hr Hen Hs. apply (runs_next _ s event _ Hr Hen). unfold sample_steps, sample_next in *. by destruct (server_step s event).
Qed.

Lemma sample_handles event s session :
  sv_sessions s !! 0%nat = Some session -> se_enabled (share (sv_shared s) session) event ->
  server_enabled s (sample_handled event s).
Proof.
  intros E Hen. unfold sample_handled. rewrite E. cbn [default server_enabled]. exists session. split; [exact E|].
  exists sample_se_world, event. by split.
Qed.

Lemma sample_waits s op :
  (fun session : Session => se_pending session) <$> (sv_sessions s !! 0%nat) = Some [op] ->
  exists session, sv_sessions s !! 0%nat = Some session /\ op ∈ se_pending session.
Proof.
  destruct (sv_sessions s !! 0%nat) as [session|]; [|done]. intros [= E]. exists session. split; [done|].
  rewrite E. by left.
Qed.

Lemma sample_made_ok : sample_made = Ok sample_server.
Proof.
  assert (H : is_ok sample_made = true) by (by vm_compute). unfold sample_server. destruct sample_made; [done|discriminate H].
Qed.

Lemma sample_proxying_runs : server_runs sample_server sample_proxying.
Proof.
  assert (H0 : server_runs sample_server (sample_next (sv_start_call Server.sample_world listening (Ok tt)) sample_server))
    by (apply sample_server_run; [apply runs_here|by split|by vm_compute]).
  assert (H1 : server_runs sample_server sample_open).
  { apply sample_server_run; [exact H0| |by vm_compute]. split; [by vm_compute|]. intros session E.
    exists sample_free. exact E. }
  assert (H2 : server_runs sample_server sample_reserving).
  { apply sample_server_run; [exact H1| |reflexivity].
    destruct (sample_waits sample_open so_read_header) as (session & E & Hp); [by vm_compute|].
    apply (sample_handles _ _ session E). split; [exact Hp|]. split; [intros n [= <-]; by vm_compute|by right]. }
  apply sample_server_run; [exact H2| |reflexivity].
  destruct (sample_waits sample_reserving so_read_body) as (session & E & Hp); [by vm_compute|].
  apply (sample_handles _ _ session E). split; [exact Hp|].
  assert (Hv : (fun session : Session => (fun i => rq_version (in_request i)) <$> ms_parser (se_messages session)) <$>
            (sv_sessions sample_reserving !! 0%nat) = Some (Some 11)) by (by vm_compute).
  rewrite E in Hv. intros header Hh. cbn in Hh, Hv. rewrite Hh in Hv. injection Hv as Hv. by rewrite Hv.
Qed.

Lemma gateway_accounts_witness :
  budget_current_bytes (sh_heap (sv_shared sample_proxying)) 0 = Some 10 /\
  map_sum exchanging (sv_sessions sample_proxying) = 1 /\
  active_proxies_ <$> (sh_proxies (sv_shared sample_proxying) !! 0%nat) = Some 1.
Proof.
  split; [by vm_compute|]. assert (E : map_sum exchanging (sv_sessions sample_proxying) = 1) by (by vm_compute).
  split; [exact E|].
  assert (Hc : 0 < max_connections sample_gateway < 2 ^ 64) by (cbn; lia).
  assert (Hp : in_u64 (max_concurrent_proxies sample_gateway)) by (unfold in_u64; cbn; lia).
  assert (Hb : in_u64 (max_in_flight_bytes sample_gateway)) by (unfold in_u64; cbn; lia).
  pose proof (gateway_accounts (BL := list_beast_laws) sample_dump (fun _ => None) (fun _ => None) sample_gateway Hc Hp Hb) as H.
  specialize (H true true 0 0 sample_server sample_proxying sample_made_ok sample_proxying_runs).
  destruct H as (_ & _ & H & _).
  exact (eq_trans H (f_equal Some E)).
Defined.

(** ** A service, from the environment to its end *)

Definition loaded_gateway : AppConfig :=
  match sample_load with Ok (c, _) => c | Throw _ => HealthCheck.sample_config end.

#[local] Instance loaded_sessions : SessionInterface :=
  http_sessions sample_dump (fun _ => None) (fun _ => None) loaded_gateway.

Definition loaded_made : result (@Server loaded_sessions) :=
  make_HttpServer sample_dump (fun _ => None) (fun _ => None) loaded_gateway true true 0 0.
Definition loaded_server : @Server loaded_sessions :=
  match loaded_made with
  | Ok server => server
  | Throw _ => make_Server loaded_gateway (sample_shared : @Shared loaded_sessions) HealthCheck.sample_initial
  end.

Definition app_next (event : @AppEvent loaded_sessions) (s : @Application loaded_sessions) : @Application loaded_sessions :=
  default s (ap_step (fun _ => true) s event).
Definition app_steps (event : @AppEvent loaded_sessions) (s : @Application loaded_sessions) : bool :=
  match ap_step (fun _ => true) s event with Some _ => true | None => false end.

(** It starts, is told to stop, and its pending handlers run. *)
Definition aborted_accept : @AppEvent loaded_sessions :=
  ap_handler Application.sample_world
    (sv_accepted (server_world Application.sample_world) operation_aborted (Throw (logic_error "unused"))
       (sample_se_world : @SessionWorld loaded_sessions)).

Definition app_made : @Application loaded_sessions := make_Application loaded_server.
Definition app_serving := app_next (ap_call_run Application.sample_world listening (Ok tt)) app_made.
Definition app_signalled := app_next (ap_signal Application.sample_world no_error) app_serving.
Definition app_cancelled := app_next (ap_signal Application.sample_world operation_aborted) app_signalled.
Definition app_unaccepted := app_next aborted_accept app_cancelled.
Definition app_returned := app_next ap_io_done app_unaccepted.

Lemma app_run event s :
  ap_runs (fun _ => true) app_made s -> ap_enabled s event -> app_steps event s = true ->
  ap_runs (fun _ => true) app_made (app_next event s).
Proof.
  intros Hr Hen Hs. apply (ap_then _ _ s event _ Hr Hen). unfold app_steps, app_next in *. by destruct (ap_step _ s event).
Qed.

Lemma loaded_made_ok : loaded_made = Ok loaded_server.
Proof.
  assert (H : is_ok loaded_made = true) by (by vm_compute). unfold loaded_server. destruct loaded_made; [done|discriminate H].
Qed.

Lemma app_returned_runs : ap_runs (fun _ => true) app_made app_returned.
Proof.
  assert (H1 : ap_runs (fun _ => true) app_made app_serving)
    by (apply app_run; [apply ap_here|split; [by vm_compute|split; [done|by vm_compute]]|by vm_compute]).
  assert (H2 : ap_runs (fun _ => true) app_made app_signalled)
    by (apply app_run; [exact H1|split; [by vm_compute|split; by vm_compute]|by vm_compute]).
  assert (H3 : ap_runs (fun _ => true) app_made app_cancelled)
    by (apply app_run; [exact H2|split; [by vm_compute|split; by vm_compute]|by vm_compute]).
  assert (H4 : ap_runs (fun _ => true) app_made app_unaccepted).
  { apply app_run; [exact H3| |by vm_compute]. split; [by vm_compute|]. split; [by vm_compute|]. split; [done|].
    split; [|by split]. split; [by vm_compute|]. by intros session. }
  apply app_run; [exact H4| |by vm_compute]. split; [by vm_compute|]. right. split; [by vm_compute|].
  split; [by vm_compute|]. split; [by vm_compute|]. split; [by vm_compute|].
  split; [apply map_size_empty_iff; by vm_compute|]. split; [apply map_size_empty_iff; by vm_compute|].
  split; [by vm_compute|]. split; [by vm_compute|].
  assert (Hnil : forall l : list (option Probe), length l = 0%nat -> Forall (fun p => p = None) l)
    by (intros l ->%nil_length_inv; constructor).
  apply Hnil. by vm_compute.
Qed.

Lemma service_gives_back_witness :
  ap_run app_returned = run_returned (Ok EXIT_SUCCESS) /\
  budget_current_bytes (sh_heap (sv_shared (ap_server app_returned))) (sh_budget (sv_shared (ap_server app_returned))) = Some 0.
Proof.
  assert (E : ap_run app_returned = run_returned (Ok EXIT_SUCCESS)) by (by vm_compute). split; [exact E|].
  assert (El : exists store, sample_load = Ok (loaded_gateway, store)).
  { assert (H : is_ok sample_load = true) by (by vm_compute). unfold loaded_gateway.
    destruct sample_load as [[c store]|]; [by exists store|discriminate H]. }
  destruct El as [store El].
  assert (Hw : forall value document, (fun _ : text => Some sample_document) value = Some document -> well_numbered document)
    by (intros value document [= <-]; cbn; repeat split; lia).
  pose proof (service_gives_back (BL := list_beast_laws) (W := ConfigLoad.sample_world) sample_dump (fun _ => None) (fun _ => None)
    (fun _ => None) (fun _ => events_of 0 sample_syntax) (fun _ => Some sample_document) ConfigLoad.sample_environment
    loaded_gateway store true true 0 0 Hw El) as H.
  change (make_HttpServer sample_dump (fun _ => None) (fun _ => None) loaded_gateway true true 0 0) with loaded_made in H.
  rewrite loaded_made_ok in H. destruct H as (_ & _ & H). apply (H (fun _ => true) app_returned app_returned_runs E).
Defined.
