(* ===== verification/Main.v ===== *)
(** * The program (src/main.cpp)

    [main] reads the command line, loads the configuration, and checks it or serves.  What
    the process writes is a list of outputs.  The outcome of the application, whose
    exceptions reach [main], is an argument of the model; so are the TLS library, the JSON
    parser and the serialiser, as in the configuration's loader. *)

From S2P Require Import Prelude Text ConfigTypes Errors HealthState ServerState HealthCheck Server ApiKeyAuth ConfigScalars.
From S2P Require Import ConfigRoutes Tls ConfigLoad Logging Application Diagnostics.

Local Open Scope Z_scope.

(** ** The command line *)

Inductive Command := command_run | check_config | help | version.

(** [argv], the name of the program first. *)
Definition parse_command_line (argv : list text) : result Command :=
  if (length argv =? 1)%nat then Ok command_run
  else
    match argv with
    | [_; argument] =>
        if text_eqb argument (L "--check-config") then Ok check_config
        else if text_eqb argument (L "--help") || text_eqb argument (L "-h") then Ok help
        else if text_eqb argument (L "--version") then Ok version
        else Throw (invalid_argument "unsupported command-line option")
    | _ => Throw (invalid_argument "expected zero or one command-line option")
    end.

Definition help_lines : list string :=
  ["Usage: api-gate [--check-config | --help | --version]";
   EmptyString;
   "Environment variables:";
   "  APIGATE_SERVICE_NAME  Service label (default: api-gate)";
   "  APIGATE_ENVIRONMENT   Runtime environment (default: development)";
   "  APIGATE_LOG_LEVEL     trace|debug|info|warn|error|critical";
   "  APIGATE_LISTEN_ADDRESS IP address to bind (default: 127.0.0.1)";
   "  APIGATE_LISTEN_PORT   TCP port, 0 selects an ephemeral port (default: 8080)";
   "  APIGATE_MAX_CONNECTIONS Active downstream connection limit (default: 256)";
   "  APIGATE_MAX_CONCURRENT_PROXIES Concurrent upstream proxy limit (default: 32)";
   "  APIGATE_MAX_IN_FLIGHT_BYTES Buffered body reservation budget in bytes (default: 67108864)";
   "  APIGATE_SHUTDOWN_GRACE_MS Drain deadline in milliseconds (default: 5000)";
   "  APIGATE_METRICS_ENABLED true|false (default: false); expose GET /metrics to listener clients";
   "  APIGATE_TLS_CERT_FILE PEM server certificate chain; requires TLS key (default: HTTP)";
   "  APIGATE_TLS_KEY_FILE  Matching unencrypted PEM private key; enables single-listener HTTPS";
   "  APIGATE_UPSTREAM_KEEP_ALIVE true|false (default: false); reuse HTTP/HTTPS connections";
   "  APIGATE_UPSTREAM_HOST Optional static HTTP upstream host";
   "  APIGATE_UPSTREAM_PORT Optional static HTTP upstream port (1-65535)";
   "  APIGATE_UPSTREAM_TIMEOUT_MS Per-stage timeout in milliseconds (default: 3000)";
   "  APIGATE_UPSTREAM_CA_FILE Optional PEM CA file replacing system HTTPS trust";
   "  APIGATE_ROUTES        Optional JSON array of 1-32 static path routes (max 64 KiB);";
   "                       prefix required; host/port with optional timeout_ms (default 3000),";
   "                       or upstreams with 1-16 host/port entries (forms exclusive);";
   "                       each timeout_ms defaults to 3000; per-route round robin, no retry;";
   "                       scheme is http (default) or https; port is always required;";
   "                       auth: {api_key_env: APIGATE_AUTH_KEY_<NAME>}; requires downstream TLS;";
   "                       or auth: {api_key_envs: [1-4 distinct key references]};";
   "                       fields are exclusive; key-set changes require restart, no hot reload;";
   "                       referenced key: 32-256 ASCII letters/digits/_/-; never embed keys in JSON.";
   "                       stream_response: boolean (default false); <=16 KiB blocks,";
   "                       <=1 MiB total; read deadline includes downstream backpressure;";
   "                       after response header starts, failures close the connection;";
   "                       strip_prefix is an optional boolean (default: false);";
   "                       rate_limit optionally requires requests_per_second and burst";
   "                       (integers 1-1000000); omitted means unlimited;";
   "                       health_check is optional (disabled if omitted), requires path;";
   "                       interval_ms=5000 (100-60000), timeout_ms=1000 (50-60000),";
   "                       timeout <= interval; unhealthy_threshold=3, healthy_threshold=2";
   "                       (integers 1-10); GET headers/status only, max 4 probes process-wide;";
   "                       mutually exclusive with legacy upstream host/port/timeout variables"].

(** [print_help] *)
Definition help_text : text := concat ((fun line => L line ++ ["010"%char]) <$> help_lines).

(** ** The result of a configuration check *)

Definition configuration_fields (config : AppConfig) : Members :=
  let fields := object_of
    [(L "log_level", j_string (level_to_string (log_level config)));
     (L "listen_address", j_string (listen_address config));
     (L "listen_port", j_unsigned (listen_port config));
     (L "max_connections", j_unsigned (max_connections config));
     (L "max_concurrent_proxies", j_unsigned (max_concurrent_proxies config));
     (L "max_in_flight_bytes", j_unsigned (max_in_flight_bytes config));
     (L "shutdown_grace_ms", j_unsigned (shutdown_grace_ms config));
     (L "metrics_enabled", j_bool (metrics_enabled config));
     (L "upstream_keep_alive", j_bool (upstream_keep_alive config));
     (L "tls_enabled", j_bool (bool_decide (is_Some (downstream_tls_context config))));
     (L "authenticated_route_count",
      j_unsigned (Z.of_nat (countb (fun route => bool_decide (is_Some (auth route))) (routes config))));
     (L "proxy_enabled",
      j_bool (bool_decide (is_Some (upstream config)) || negb (bool_decide (routes config = []))))] in
  let fields :=
    if negb (bool_decide (routes config = []))
    then object_set (L "route_count") (j_unsigned (Z.of_nat (length (routes config)))) fields else fields in
  match upstream config with
  | Some u => object_set (L "upstream_timeout_ms") (j_unsigned (timeout_ms u)) fields
  | None => fields
  end.

(** ** [main] *)

Inductive Output :=
  | out_help (what : text)
  | out_version
  | out_line (line : option (level_enum * text))      (* of the logger *)
  | out_error (line : text).                          (* on the standard error *)

Section Main.
Context {W : TlsWorld}.
Variable make_address : text -> option text.
Variable evp_digest : text -> option ApiKeyDigest.
Variable json_events : text -> list (Z * json_event).
Variable json_document : text -> option JValue.
Variable dump : JValue -> result text.

(** The line is the dumped object; when that throws, one that names neither. *)
Definition write_bootstrap_error (category message : string) : Output :=
  out_error
    (match dump (j_object (object_of
               [(L "level", j_string (L "error")); (L "event", j_string (L "bootstrap_failed"));
                (L "category", j_string (L category)); (L "message", j_string (L message))])) with
     | Ok line => line
     | Throw _ =>
         L "{" ++ quoted (L "level") ++ L ":" ++ quoted (L "error") ++ L "," ++
         quoted (L "event") ++ L ":" ++ quoted (L "bootstrap_failed") ++ L "}"
     end ++ ["010"%char]).

(** The catch blocks of [main]: every exception of the model is a [std::exception]. *)
Definition bootstrap_error (e : exn) : Output :=
  match e with
  | ConfigError what => write_bootstrap_error "configuration" what
  | invalid_argument what => write_bootstrap_error "arguments" what
  | logic_error what | out_of_range what | length_error what | runtime_error what | other_exception what =>
      write_bootstrap_error "runtime" what
  end.

Definition main_body (environment : Environment) (application : AppConfig -> result Z) (argv : list text)
    : result (list Output * Z) :=
  command ← parse_command_line argv;
  match command with
  | help => Ok ([out_help help_text], EXIT_SUCCESS)
  | version => Ok ([out_version], EXIT_SUCCESS)
  | command_run | check_config =>
      loaded ← load_config_from_environment make_address evp_digest json_events json_document environment;
      let config := loaded.1 in
      let logger := make_StructuredLogger config in
      match command with
      | check_config =>
          line ← write_configuration_valid dump logger (j_object (configuration_fields config));
          Ok ([out_line line], EXIT_SUCCESS)
      | _ =>
          code ← application config;
          Ok ([], code)
      end
  end.

Definition main (environment : Environment) (application : AppConfig -> result Z) (argv : list text)
    : list Output * Z :=
  match main_body environment application argv with
  | Ok outcome => outcome
  | Throw e => ([bootstrap_error e], EXIT_FAILURE)
  end.

End Main.

(** ** Documentation *)

Fixpoint text_contains (needle haystack : text) : bool :=
  starts_with needle haystack ||
  match haystack with
  | [] => false
  | _ :: rest => text_contains needle rest
  end.

(** A variable the help names. *)
Definition documented (name : string) : bool := text_contains (L name) help_text.

(** Two environments that agree on the documented variables and on the keys that routes
    may refer to. *)
Definition agree (e1 e2 : Environment) : Prop :=
  (forall name, documented name = true -> e1 name = e2 name) /\
  (forall reference, valid_api_key_reference reference = true ->
     reference_value e1 reference = reference_value e2 reference).

Section Documented.
Context {W : TlsWorld}.
Variable make_address : text -> option text.
Variable evp_digest : text -> option ApiKeyDigest.
Variable json_events : text -> list (Z * json_event).
Variable json_document : text -> option JValue.
Context (e1 e2 : Environment) (agreed : agree e1 e2).

Lemma bind_congr {A B} (m n : result A) (f g : A -> result B) : m = n -> (forall a, f a = g a) -> m ≫= f = n ≫= g.
Proof. intros -> H. destruct n; cbn; auto. Qed.

(** Goes through two computations that differ in their environment. *)
Ltac agree_step :=
  match goal with
  | |- (_ ≫= _) = (_ ≫= _) => apply bind_congr; [|intros ?]
  | |- match ?x with _ => _ end = _ => destruct x
  | |- (if ?b then _ else _) = _ => destruct b
  end; try reflexivity.

Lemma read_documented name : documented name = true -> read_environment e1 name = read_environment e2 name.
Proof. intros H. unfold read_environment. by rewrite (proj1 agreed name H). Qed.

Lemma setting_documented {A} name (d : A) parse :
  documented name = true -> setting e1 name d parse = setting e2 name d parse.
Proof. intros H. unfold setting. by rewrite read_documented. Qed.

Lemma set_documented name : documented name = true -> is_set e1 name = is_set e2 name.
Proof. intros H. unfold is_set. by rewrite (proj1 agreed name H). Qed.

Lemma configure_keys_agree references unique configured :
  configure_keys evp_digest e1 references unique configured = configure_keys evp_digest e2 references unique configured.
Proof.
  revert unique configured. induction references as [|reference rest IH]; intros unique configured; cbn; [done|].
  destruct (valid_api_key_reference reference) eqn:E; cbn; [|done].
  rewrite (proj2 agreed reference E). destruct (ensure _ _); cbn; [|done].
  destruct (reference_value e2 reference); [|done]. destruct (ensure _ _); cbn; [|done].
  destruct (hash_api_key _ _); cbn; [|done]. by destruct (ensure _ _); cbn.
Qed.

Lemma parse_entries_agree prefixes entries :
  parse_entries make_address evp_digest e1 prefixes entries = parse_entries make_address evp_digest e2 prefixes entries.
Proof.
  revert prefixes. induction entries as [|entry rest IH]; intros prefixes; cbn; [done|].
  assert (E : parse_entry make_address evp_digest e1 prefixes entry = parse_entry make_address evp_digest e2 prefixes entry).
  { unfold parse_entry, parse_auth. repeat agree_step. apply configure_keys_agree. }
  rewrite E. apply bind_congr; [done|]. intros parsed. by rewrite IH.
Qed.

Lemma load_agree :
  load_config_from_environment make_address evp_digest json_events json_document e1 =
  load_config_from_environment make_address evp_digest json_events json_document e2.
Proof.
  unfold load_config_from_environment, load_settings, load_routes, load_upstream, parse_routes.
  repeat agree_step; try (apply read_documented; vm_compute; reflexivity);
    try (apply setting_documented; vm_compute; reflexivity).
  - by rewrite !set_documented by (vm_compute; reflexivity).
  - apply parse_entries_agree.
Qed.

End Documented.

(** The help documents everything the configuration is read from.  Two environments that
    agree on the variables the help names, and on the keys routes may refer to, load the
    same configuration, or are refused with the same error; no other variable has an
    effect. *)
Theorem config_reads_documented `{TlsWorld} make_address evp_digest json_events json_document e1 e2 :
  agree e1 e2 ->
  load_config_from_environment make_address evp_digest json_events json_document e1 =
  load_config_from_environment make_address evp_digest json_events json_document e2.
Proof. apply load_agree. Qed.

(** ** The exit status *)

Section Status.
Context {W : TlsWorld} {I : SessionInterface} {laws : SessionLaws I}.
Variable make_address : text -> option text.
Variable evp_digest : text -> option ApiKeyDigest.
Variable json_events : text -> list (Z * json_event).
Variable json_document : text -> option JValue.
Variable dump : JValue -> result text.
Variable system_error : exn -> bool.
Context (numbered : forall value document, json_document value = Some document -> well_numbered document).

(** What makes a run of the program a success. *)
Definition succeeds (environment : Environment) (argv : list text) (served : Application) : Prop :=
  let loaded := load_config_from_environment make_address evp_digest json_events json_document environment in
  match argv with
  | [_] => is_ok loaded = true /\ drained served
  | [_; argument] =>
      argument = L "--help" \/ argument = L "-h" \/ argument = L "--version" \/
      (argument = L "--check-config" /\ exists config store line, loaded = Ok (config, store) /\
         write_configuration_valid dump (make_StructuredLogger config) (j_object (configuration_fields config)) = Ok line)
  | _ => False
  end.

(** An exception is reported by one line, in the category of its type. *)
Definition reported (e : exn) (out : list Output) : Prop :=
  (forall what, e = ConfigError what -> out = [write_bootstrap_error dump "configuration" what]) /\
  (forall what, e = invalid_argument what -> out = [write_bootstrap_error dump "arguments" what]) /\
  ((forall what, e <> ConfigError what) -> (forall what, e <> invalid_argument what) ->
   exists what, out = [write_bootstrap_error dump "runtime" what]).

Lemma bootstrap_reported e : reported e [bootstrap_error dump e].
Proof. split_and!; [by intros what ->|by intros what ->|]. intros H1 H2. destruct e; try (by eexists); [by edestruct H1|by edestruct H2]. Qed.

Lemma parse_throws argv e : parse_command_line argv = Throw e -> exists what, e = invalid_argument what.
Proof. unfold parse_command_line. intros H. repeat case_match; simplify_eq; by eexists. Qed.

(** What is written, for a configuration or the exception of its loading. *)
Definition written (loaded : result (AppConfig * list TlsContext)) (application : AppConfig -> result Z) (argv : list text)
    (out : list Output) : Prop :=
  match parse_command_line argv, loaded with
  | Throw _, _ => exists what, out = [write_bootstrap_error dump "arguments" what]
  | Ok help, _ => out = [out_help help_text]
  | Ok version, _ => out = [out_version]
  | Ok command_run, Throw _ | Ok check_config, Throw _ =>
      exists what, out = [write_bootstrap_error dump "configuration" what]
  | Ok check_config, Ok (config, _) =>
      match write_configuration_valid dump (make_StructuredLogger config) (j_object (configuration_fields config)) with
      | Ok line => out = [out_line line]
      | Throw e => reported e out
      end
  | Ok command_run, Ok (config, _) =>
      match application config with
      | Ok _ => out = []
      | Throw e => reported e out
      end
  end.

Lemma main_written environment application argv :
  let loaded := load_config_from_environment make_address evp_digest json_events json_document environment in
  (forall e, loaded = Throw e -> exists what, e = ConfigError what) ->
  written loaded application argv
    (main make_address evp_digest json_events json_document dump environment application argv).1.
Proof.
  intros loaded Hthrown. unfold main, main_body, written. fold loaded. clearbody loaded.
  destruct (parse_command_line argv) as [command|e] eqn:Ep; cbn [mbind result_bind].
  - destruct command; cbn [mbind result_bind]; try done; (destruct loaded as [[config store]|e]; cbn [mbind result_bind fst];
      [|destruct (Hthrown e eq_refl) as (what & ->); by exists what]).
    + destruct (application config); cbn [mbind result_bind fst]; [done|apply bootstrap_reported].
    + destruct (write_configuration_valid _ _ _); cbn [mbind result_bind fst]; [done|apply bootstrap_reported].
  - destruct (parse_throws _ _ Ep) as (what & ->). by exists what.
Qed.

(** C7: the exit status of the process tells whether it did what it was asked to.  It is zero
    exactly for a help or version request, a check of a configuration that loads and whose
    line can be written, or a service whose drain was completed; otherwise it is one.  The
    service is only started with a valid configuration.  An error leaves exactly one line:
    one of the command line in the category "arguments", one of loading in
    "configuration", and one of the check or of the application in the category of its
    exception; the process writes nothing else beside the text or the line it was asked for. *)
Theorem main_exit_status environment argv application (served : Application) :
  let loaded := load_config_from_environment make_address evp_digest json_events json_document environment in
  (forall config store, loaded = Ok (config, store) -> length argv = 1%nat ->
     ap_reachable system_error config served /\ ap_run served = run_returned (application config)) ->
  let '(out, code) := main make_address evp_digest json_events json_document dump environment application argv in
  (code = EXIT_SUCCESS <-> succeeds environment argv served) /\ (code = EXIT_SUCCESS \/ code = EXIT_FAILURE) /\
  (forall config store, loaded = Ok (config, store) -> config_valid make_address evp_digest environment config store) /\
  written loaded application argv out.
Proof.
  intros loaded Hserved.
  pose proof (load_config_yields make_address evp_digest json_events json_document environment numbered) as Hy.
  fold loaded in Hy.
  assert (Hvalid : forall config store, loaded = Ok (config, store) ->
            config_valid make_address evp_digest environment config store)
    by (intros config store E; by rewrite E in Hy).
  assert (Hthrown : forall e, loaded = Throw e -> exists what, e = ConfigError what)
    by (intros e E; by rewrite E in Hy).
  clear Hy. pose proof (main_written environment application argv Hthrown) as Hw. cbv zeta in Hw. fold loaded in Hw.
  destruct (main _ _ _ _ _ _ _ _) as [out code] eqn:Em. cbn [fst] in Hw.
  enough ((code = EXIT_SUCCESS <-> succeeds environment argv served) /\ (code = EXIT_SUCCESS \/ code = EXIT_FAILURE))
    by (split_and!; try apply H; done).
  clear Hw. apply (f_equal snd) in Em. cbn [snd] in Em. subst code.
  unfold main, main_body. fold loaded. unfold succeeds. fold loaded. clearbody loaded.
  destruct argv as [|p [|argument [|b argv]]]; cbn [parse_command_line length Nat.eqb].
  - cbn. split; [done|by right].
  - cbn [mbind result_bind]. destruct loaded as [[config store]|e]; cbn.
    + destruct (Hserved config store eq_refl eq_refl) as [Hr Hrun].
      assert (Hl : 0 < max_connections config < 2 ^ 64) by (destruct (Hvalid config store eq_refl) as ((_ & _ & _ & _ & ? & _) & _); lia).
      destruct (returned_status config Hl system_error served _ Hr Hrun) as [Hiff Hcases].
      destruct (application config) as [code|e]; cbn; rewrite <- Hiff.
      * split; [split; [by intros ->|by intros [_ [= ->]]]|]. destruct Hcases as [[= ->]|[[= ->]|(e & ? & _)]]; auto; done.
      * split; [split; [done|by intros [_ ?]]|by right].
    + split; [split; [done|by intros [? _]]|by right].
  - destruct (text_eqb argument (L "--check-config")) eqn:E1; cbn [mbind result_bind].
    + apply text_eqb_true in E1 as ->. destruct loaded as [[config store]|e]; cbn [mbind result_bind].
      * cbn [fst]. destruct (write_configuration_valid _ _ _) as [line|e] eqn:Ew; cbn [mbind result_bind snd].
        -- split; [|by left]. split; [intros _|done]. do 3 right. split; [done|]. by exists config, store, line.
        -- split; [|by right]. split; [done|].
           intros [?|[?|[?|(_ & c & s & l & [= <- <-] & Hw)]]]; try done. congruence.
      * cbn [snd]. split; [|by right]. split; [done|]. intros [?|[?|[?|(_ & c & s & l & ? & _)]]]; done.
    + apply text_eqb_false in E1.
      destruct (text_eqb argument (L "--help") || text_eqb argument (L "-h")) eqn:E2; cbn [mbind result_bind snd].
      * apply orb_true_iff in E2. rewrite !text_eqb_true in E2. split; [|by left]. split; [intros _; tauto|done].
      * apply orb_false_iff in E2 as [E2 E3]. apply text_eqb_false in E2, E3.
        destruct (text_eqb argument (L "--version")) eqn:E4; cbn [mbind result_bind snd].
        -- apply text_eqb_true in E4. split; [|by left]. split; [intros _; tauto|done].
        -- apply text_eqb_false in E4. split; [|by right]. split; [done|tauto].
  - cbn. split; [done|by right].
Qed.

End Status.

(** ** Witnesses: the environment of the loader's sample *)

#[local] Existing Instance Server.sample_sessions.
#[local] Existing Instance Server.sample_laws.

(** A variable no one reads. *)
Definition other_environment : Environment := fun name =>
  if bool_decide (name = "HOME"%string) then Some (L "/root") else ConfigLoad.sample_environment name.

Lemma sample_agree : agree ConfigLoad.sample_environment other_environment.
Proof.
  split.
  - intros name H. unfold other_environment. destruct (decide (name = "HOME"%string)) as [->|Hne].
    + assert (E : documented "HOME" = false) by (vm_compute; reflexivity). congruence.
    + by rewrite bool_decide_eq_false_2.
  - intros reference H. unfold reference_value, other_environment.
    destruct (decide (String.string_of_list_ascii reference = "HOME"%string)) as [E|Hne].
    + apply (f_equal String.list_ascii_of_string) in E. rewrite String.list_ascii_of_string_of_list_ascii in E.
      by subst reference.
    + by rewrite bool_decide_eq_false_2.
Qed.

Definition load_in (e : Environment) : result (AppConfig * list TlsContext) :=
  load_config_from_environment (W := ConfigLoad.sample_world) (fun _ => None) (fun _ => None)
    (fun _ => events_of 0 sample_syntax) (fun _ => Some sample_document) e.

Lemma config_reads_documented_witness :
  other_environment "HOME" = Some (L "/root") /\ load_in ConfigLoad.sample_environment = load_in other_environment.
Proof.
  split; [reflexivity|]. unfold load_in.
  apply (config_reads_documented (H := ConfigLoad.sample_world)), sample_agree.
Defined.

(** The address of the listener is in use. *)
Definition loaded_config : AppConfig :=
  match sample_load with Ok (c, _) => c | Throw _ => HealthCheck.sample_config end.
Definition loaded_checks : HealthChecks :=
  match make_HealthChecks loaded_config (Some (make_UpstreamHealthState (routes loaded_config))) 0 with
  | Ok checks => checks
  | Throw _ => HealthCheck.sample_initial
  end.
Definition refused : ListenOutcome := unbound (other_exception "Address already in use").
Definition sample_unserved : Application :=
  application_run (fun _ => true) Application.sample_world refused (Ok tt)
    (make_Application (make_Server loaded_config (false : Shared) loaded_checks)).

Lemma sample_unserved_reachable :
  ap_reachable (fun _ => true) loaded_config sample_unserved /\ ap_run sample_unserved = run_returned (Ok EXIT_FAILURE).
Proof.
  split; [|by vm_compute].
  refine (ap_next _ _ _ (ap_call_run Application.sample_world refused (Ok tt)) _
           (ap_make _ loaded_config 0 _ loaded_checks _) _ eq_refl); [vm_compute; reflexivity|by repeat split].
Qed.

Definition sample_main : list Output * Z :=
  main (W := ConfigLoad.sample_world) (fun _ => None) (fun _ => None) (fun _ => events_of 0 sample_syntax)
    (fun _ => Some sample_document) (fun _ => Ok (L "{}")) ConfigLoad.sample_environment
    (fun _ => Ok EXIT_FAILURE) [L "api-gate"].

Lemma main_exit_status_witness :
  sample_main.2 = EXIT_FAILURE /\ ~ drained sample_unserved.
Proof.
  pose proof (main_exit_status (W := ConfigLoad.sample_world) (fun _ => None) (fun _ => None)
    (fun _ => events_of 0 sample_syntax) (fun _ => Some sample_document) (fun _ => Ok (L "{}")) (fun _ => true)
    ltac:(intros value document [= <-]; cbn; repeat split; lia)
    ConfigLoad.sample_environment [L "api-gate"] (fun _ => Ok EXIT_FAILURE) sample_unserved) as H.
  assert (E : sample_main = ([], EXIT_FAILURE)) by (vm_compute; reflexivity).
  unfold sample_main in *. rewrite E in H |- *. split; [reflexivity|]. intros Hd.
  destruct H as [[_ H] _].
  - intros config store Hl _. assert (config = loaded_config) as ->.
    { unfold loaded_config, sample_load. by rewrite Hl. }
    exact sample_unserved_reachable.
  - assert (Hx : EXIT_FAILURE = EXIT_SUCCESS) by (apply H; split; [vm_compute; reflexivity|exact Hd]). discriminate Hx.
Defined.
